(* ===== verification/_CoqProject ===== *)
-Q . S2P
Prelude.v
RustStd.v
Utf8.v
Slices.v
HeaderBlock.v
HeaderRewrite.v
HeaderStrip.v
InboundHeaders.v
Mutf7.v
MailboxPath.v
SieveMatch.v
SieveLexer.v
SieveParser.v
SieveEnv.v
SieveKeySet.v
SieveMessage.v
SieveDate.v
UtcDate.v
Vacation.v
SieveEval.v
SieveInterp.v
Address.v
Srs.v
Directory.v
IpNet.v
SpfRecord.v
Spf.v
Admission.v
RateLimit.v
LineFraming.v
SmtpReply.v
SmtpCommand.v
SmtpCommandRender.v
SmtpSession.v
Bounce.v
QueueReply.v
Dane.v
OutboundClient.v
OutboundSpool.v
LocalDelivery.v
QueueWorker.v
QueueTheory.v
Warmup.v
Scheduler.v
SchedulerTheory.v
Routing.v
SmtpConnection.v
SmtpSessionTheory.v
SmtpMemory.v
SmtpGuarantees.v
SmtpScenario.v
MailFlow.v
