(* ===== verification/Prelude.v ===== *)
(** * Verification library for epistle, a self-hosted mail server

    ** The program

    epistle accepts mail over SMTP from other servers and from its own users,
    checks and stamps it, and hands it to storage or to an outbound queue. A
    connection is admitted by counters on the listener and the client address;
    its octets are cut into lines; each line drives a session state machine
    that consults the directory of accounts, the rate limiters and a memory
    budget shared by every connection; a finished message has its header
    inspected, stripped and stamped, and its sender's SPF policy evaluated.
    Local delivery then resolves the recipients to accounts, runs the Sieve
    script of each, files the copies, and returns what is to be forwarded,
    sent back or replied. The routing sink around it rewrites the senders of
    forwards, writes failure reports and puts what leaves the server into a
    spool. A worker takes it from there: it scans the spool, shares its slots
    among senders and domains, holds back what a young address should not send
    yet, speaks SMTP to the remote server, and records, retries, reports or
    gives up. The library models these parts, from the octets of a client to
    the copies in the mailboxes and the octets to other servers, each
    translated function by function from src/src.

    ** Conventions

    Octets and characters are [Z] (an octet in 0..255, a character a Unicode
    scalar value), byte slices and strings are [list Z], machine integers are
    [Z] with saturation, wrap-around and bounds written out. [Result] is
    [result], [Option] is [option]; where the source can panic, a definition
    returns [option] and [None] is the panic. State is passed explicitly: a
    mutex-guarded object is a value threaded through the calls, since every
    call holds its lock to the end, and an interleaving of connections is a
    sequence of such calls. Code outside src is an argument: the classes
    [Unicode] (IDNA and confusables), [MapOrder] (hash map iteration order) and
    [ScramTypes], and [DnsLookup] of Spf; the files of an account are the
    classes [MailStore] and [MarkerStore] of delivery, with their laws, and the
    writers of generated messages the class [Composer]; routing has [Spool],
    [Signing] and [SrsKey] (a keyed hash); outbound delivery has [TlsLibrary]
    and [Base64] with their laws, [Certificates] (parsing and digests), [Idna],
    [ReportSink], [EvidenceLog] and [Uuids]. Faults of the disk are a script of
    booleans the writes consume; a remote server is a stream that answers
    reads and writes as it likes. The record [Env] of
    SmtpSession holds
    the answers a session asks of others: outside code (base64, clocks, random
    nonces), and also functions of src the library does not translate, among
    them the password verdict, bans, the SCRAM plan and exchange, the token
    verifier, tenant limits, disk and mailbox usage, and the inspection of a
    submission's header and author. The theorems hold for every [Env].

    ** Files

    - Prelude: this header, results, loops over fallible bodies, tactics and
      hints. RustStd, Utf8, Slices: the parts of the Rust standard library the
      sources use (strings, integers, UTF-8, byte slices and in-place moves).
    - HeaderBlock (util/header_block): where a header block ends, its lines,
      and the framing of generated messages. HeaderRewrite and HeaderStrip
      (smtp/trace): dropping fields by copying and in place, reading values,
      the submission stamp, the hop count. InboundHeaders
      (smtp/inbound_headers): the strip of sender-supplied trust fields.
    - Mutf7 (util/mutf7) and MailboxPath (util/mailbox_path,
      util/path_component): the spelling of mailbox names and their
      directories.
    - SieveLexer and SieveParser (sieve/lexer, sieve/parser): scripts.
      SieveMatch (sieve/compare): the comparisons and wildcards. SieveKeySet
      (sieve/key_set): one automaton for many keys. SieveEnv (sieve/env,
      sieve/vars): variables and the budget of a run. SieveMessage
      (sieve/message) and SieveDate (sieve/date): what a script sees of a
      message. SieveEval (sieve/eval): tests. SieveInterp (sieve/interp,
      sieve/analysis): actions, the outcome, and the checks on upload.
    - UtcDate (storage/vacation_store) and Vacation (storage/vacation_markers,
      sieve/vacation, util/header): the window, the rate and the header values
      of automatic replies. LocalDelivery (storage/delivery): recipients,
      lists, forwards, folders, quotas and replies of one message.
    - Address (domain, smtp/address): names and addresses. Directory
      (smtp/directory): resolution, ownership and the login gates.
    - IpNet (cidr, smtp/per_ip): addresses, networks and client keys.
      SpfRecord and Spf (spf): records, macros and check_host.
    - Admission (smtp/per_ip, net/conn_limit, net/per_account_conn,
      smtp/memory_budget): connection slots and memory reservations.
      RateLimit (smtp/ratelimit, smtp/submission_budget): windows and charges.
    - LineFraming (smtp/line): the line decoder and the chunk check.
      SmtpReply, SmtpCommand, SmtpCommandRender (smtp/reply, sasl,
      smtp/command): replies, the command parser and its inverse.
    - SmtpSession (smtp/session): the session state machine, one definition
      per handler. SmtpConnection (smtp/server): the connection loop.
      SmtpSessionTheory, SmtpMemory, SmtpGuarantees: its theorems.
      SmtpScenario: a concrete server on which the theorems are applied.
    - Srs (queue/srs): rewritten senders. Bounce (queue/bounce): failure and
      delay reports. Routing (storage/routing, rules, queue/tls_required): the
      sink behind the session. MailFlow: the session and the sink together.
    - QueueReply (queue/reply, queue/backoff, part of queue/client): what a
      remote reply means. Dane (dane): TLSA records and the check of a chain.
      OutboundClient (queue/client, queue/timeouts): one conversation with a
      remote server, octet by octet, and its theorems.
    - OutboundSpool (storage/spool): envelopes and the states of recipients,
      and the writes of the spool, any of which may fail. QueueWorker
      (queue/worker, queue/destination, queue/schedule, queue/suppression):
      what becomes of a message after a conversation. QueueTheory: its
      theorems, over a step relation of what the worker may do.
    - Warmup (queue/warmup): the caps of a new address, their pace, and their
      state on disk. Scheduler (queue/worker/scheduler, claims, waiting,
      queue/limits): which conversations run. SchedulerTheory: the scheduler
      refines the steps of QueueTheory, and its own theorems.

    ** What the theorems show

    - Sessions, for every reachable state of every sequence of lines, chunks
      and ends: no open relay, no forged sender, logins only over TLS and for
      a reason, bounded junk, bounded failures, framed and bounded messages,
      and an exact account of the shared memory over all connections.
    - Framing: the decoder refines the first line of its octets, a line is
      safe, DATA and BDAT accept the same bodies, and what was sent comes back.
    - Headers: the in-place rewrites equal the copying ones, a strip removes
      every spelling of a name and nothing else, no reserved field of a framed
      message can be read after the inbound strip, a submission leaves with a
      Message-ID and a Date, a generated message is framed, and exactly when
      the hop count fails.
    - Parsers: commands and addresses come back from what is printed of them;
      accepted input is safe; a network denotes its prefix.
    - Sieve: the lexer and the parser accept exactly their grammars; the
      wildcard match, the search and the automaton agree with their
      declarative readings; the values a test sees are exactly those of the
      message within the windows; every run ends, stays within its caps and
      loses no mail; what the checks on upload promise holds of every run.
    - Mailboxes: a name has one spelling, and a directory stands for one
      mailbox.
    - Delivery: when it succeeds, each account has its copy or the message was
      sent on, sent back or given up by the script; mail without a sender
      makes nothing be sent; forwards are addresses; replies to a sender are a
      period apart; dates are read as the calendar has them. A bounce behind a
      script that only redirects is lost, which one theorem shows.
    - Routing: every recipient of an accepted message is settled; a bounce
      makes no mail; a report cannot be forged by what it quotes; a rewritten
      sender comes back to the original, in its time and only then.
    - Outbound: the client says nothing but its own commands and the message,
      which ends once; mandatory TLS is not downgraded; a recipient counts as
      delivered exactly when the remote took the message for it. The queue
      loses no message under failing writes, crashes and any order of events,
      but for a sweep that one theorem shows forgets a report; no recipient
      is in two conversations, the caps hold, no slot is left free that a
      job could take, and an expired entry leaves. The warm-up keeps each
      group within its cap and its pace, and asking agrees with taking.
    - Admission and limits: caps hold and nothing leaks; limiters decide by
      the running window; a charge is all or none.
    - SPF: every evaluation ends within its limits, and a verdict that is no
      error is the one meaning of the published records.
    - Directory: spellings do not matter, ownership and resolution agree, a
      disabled domain is closed, a second factor is not skipped.

    ** Fuel and bounds

    Loops that are not structural take fuel and return [None] without it, and
    a theorem shows the fuel given is enough: the header scans take the length
    of the buffer (each iteration consumes an octet at least), macro expansion
    the length of the text, the SPF recursion [MAX_DEPTH], which is the
    program's own bound. The Sieve lexer takes the length of the script, the
    parser a few steps per token, the walks over a script its size, the
    searches the length of the key; the interpreter recurses on the script.
    Filling the slots takes a turn for each waiting job and each sender, since
    a turn starts or ends a job or sets a sender aside. Numbers keep their width: counters saturate or are
    bounded as in the source, prefixes are within their family.

    ** Not modelled

    - The asynchronous runtime, sockets and TLS itself. In the server a read
      that times out is the end of the connection; in the outbound client a
      timeout is one of the answers of the stream. Logging, and the metrics counters.
    - Within the connection loop, the checks between the session and the sink
      (blocklists, DKIM, DMARC, ARC, antispam) are one boolean.
    - Password hashing, SCRAM arithmetic, JWT and TOTP: cryptography, reached
      through [Env]. The functions of src in [Env] named above: what a session
      does with their answers is modelled, how they reach them is not.
    - The other servers (IMAP, POP3, ManageSieve, WebDAV, the HTTP interface
      and autodiscovery), the files of the storage, the command line,
      migration, certificates, incoming reports and evidence. In local
      delivery, the hook that ingests reports, and a reload of the directory
      in the middle of a message.
    - In the outbound queue, the way from a domain to its exchangers (DNS,
      MTA-STS, the transport rules): a conversation ends with any answers for
      the recipients it was given, and the theorems hold for all of them. The
      delivery log and its tally for the warm-up, TLS reports, webhooks,
      encryption at rest, and the operator's edits of queue entries. *)
From stdpp Require Export prelude gmap list strings.
From Stdlib Require Export ZArith Lia.

(** ** Results

    Rust's [Result<A, E>]; the error type comes first so that
    [result E] is a monad. *)
Inductive result (E A : Type) : Type :=
| Ok (a : A)
| Err (e : E).
Arguments Ok {E A} a.
Arguments Err {E A} e.

Definition result_bind {E A B} (m : result E A) (k : A → result E B) : result E B :=
  match m with
  | Ok a => k a
  | Err e => Err e
  end.

Definition is_ok {E A} (m : result E A) : bool :=
  match m with Ok _ => true | Err _ => false end.

(** [Option::ok_or]. *)
Definition ok_or {E A} (e : E) (o : option A) : result E A :=
  match o with Some a => Ok a | None => Err e end.

Declare Scope result_scope.
Delimit Scope result_scope with result.
Notation "'let?' x := m 'in' k" := (result_bind m (fun x => k))
  (at level 10, x name, m at level 100, k at level 200) : result_scope.
Notation "'let?' ' p := m 'in' k" := (result_bind m (fun x => match x with p => k end))
  (at level 10, p pattern, m at level 100, k at level 200) : result_scope.
Open Scope result_scope.

(** ** Loops over fallible bodies *)

(** [iter().map(f).collect::<Result<Vec<_>, _>>()]. *)
Fixpoint collect {E A B} (f : A → result E B) (l : list A) : result E (list B) :=
  match l with
  | [] => Ok []
  | a :: l => let? b := f a in let? bs := collect f l in Ok (b :: bs)
  end.

(** A [for] loop whose body may return an error. *)
Fixpoint try_fold {E S A} (f : S → A → result E S) (s : S) (l : list A) : result E S :=
  match l with
  | [] => Ok s
  | a :: l => let? s := f s a in try_fold f s l
  end.

Lemma collect_elem {E A B} (f : A → result E B) l bs b :
  collect f l = Ok bs → b ∈ bs → ∃ a, a ∈ l ∧ f a = Ok b.
Proof.
  revert bs. induction l as [|a l IH]; intros bs; simpl; [intros [= <-] ?%elem_of_nil; done|].
  destruct (f a) as [b'|] eqn:Hf; simpl; [|done].
  destruct (collect f l) as [bs'|]; simpl; [|done]. intros [= <-] [->|Hin]%elem_of_cons.
  - exists a. set_solver.
  - destruct (IH bs') as (a' & ? & ?); [done..|]. exists a'. set_solver.
Qed.

Lemma collect_app {E A B} (f : A → result E B) l bs :
  Forall2 (λ a b, f a = Ok b) l bs → collect f l = Ok bs.
Proof. induction 1 as [|a b l bs Hf _ IH]; simpl; [done|]. by rewrite Hf, IH. Qed.

Lemma try_fold_ind {E S A} (I : S → Prop) (f : S → A → result E S) s l s' :
  (∀ st a st', a ∈ l → f st a = Ok st' → I st → I st') →
  I s → try_fold f s l = Ok s' → I s'.
Proof.
  revert s. induction l as [|a l IH]; intros s Hf Hs; simpl; [by intros [= <-]|].
  destruct (f s a) as [s1|] eqn:E1; simpl; [|done]. apply IH.
  - intros st a' st' Ha. apply Hf. set_solver.
  - eapply Hf; [|done|done]. set_solver.
Qed.

Lemma try_fold_app {E S A} (f : S → A → result E S) s l1 l2 :
  try_fold f s (l1 ++ l2) = let? s := try_fold f s l1 in try_fold f s l2.
Proof.
  revert s. induction l1 as [|a l1 IH]; intros s; simpl; [done|].
  by destruct (f s a); simpl.
Qed.

(** ** Boolean list predicates *)

Lemma forallb_Forall {A} (f : A → bool) l :
  forallb f l = true ↔ Forall (λ x, f x = true) l.
Proof.
  rewrite forallb_forall, Forall_forall. by setoid_rewrite list_elem_of_In.
Qed.

Lemma existsb_false_Forall {A} (f : A → bool) l :
  existsb f l = false ↔ Forall (λ x, f x = false) l.
Proof.
  induction l as [|a l IH]; simpl; [split; [constructor|done]|].
  by rewrite orb_false_iff, Forall_cons, IH.
Qed.

(** ** Bytes

    A byte or a character is a [Z]: octets lie in [0..255], characters are
    Unicode scalar values. The names below are the ASCII codes the sources
    compare against. *)
Definition NUL : Z := 0.
Definition LF : Z := 10.
Definition CR : Z := 13.
Definition DOT : Z := 46.

(** ** Hints

    [epistle] holds the facts that close the side conditions of the
    components: membership in sublists, boolean tests on lists. *)
Create HintDb epistle.

Lemma elem_of_sublist {A} (l1 l2 : list A) x : x ∈ l1 → l1 `sublist_of` l2 → x ∈ l2.
Proof. intros Hx Hs. eapply elem_of_submseteq; [done|]. by apply sublist_submseteq. Qed.

Lemma Forall_sublist_of {A} (P : A → Prop) (l1 l2 : list A) : l1 `sublist_of` l2 → Forall P l2 → Forall P l1.
Proof. rewrite !Forall_forall. eauto using elem_of_sublist. Qed.

#[export] Hint Resolve elem_of_sublist Forall_sublist_of : epistle.
#[export] Hint Rewrite @forallb_Forall @existsb_false_Forall : epistle.

(** ** Tactics *)

(** Split every [match] and [if] of the goal, keeping the equations. *)
Ltac cases :=
  repeat (case_match; simplify_eq/=).

(** Split every [match] and [if] of a hypothesis until it closes. *)
Ltac cases_in H :=
  repeat (case_match; simplify_eq/=; try done).

(** Replace one integer test of the goal or of a hypothesis by its meaning;
    contradictory branches are closed. *)
Ltac int_test :=
  match goal with
  | |- context [(?a <? ?b)%nat] => destruct (Nat.ltb_spec a b)
  | |- context [(?a <=? ?b)%nat] => destruct (Nat.leb_spec a b)
  | |- context [(?a =? ?b)%nat] => destruct (Nat.eqb_spec a b)
  | |- context [(?a <? ?b)%Z] => destruct (Z.ltb_spec a b)
  | |- context [(?a <=? ?b)%Z] => destruct (Z.leb_spec a b)
  | |- context [(?a =? ?b)%Z] => destruct (Z.eqb_spec a b)
  | H : context [(?a <? ?b)%nat] |- _ => destruct (Nat.ltb_spec a b)
  | H : context [(?a <=? ?b)%nat] |- _ => destruct (Nat.leb_spec a b)
  | H : context [(?a =? ?b)%nat] |- _ => destruct (Nat.eqb_spec a b)
  | H : context [(?a <? ?b)%Z] |- _ => destruct (Z.ltb_spec a b)
  | H : context [(?a <=? ?b)%Z] |- _ => destruct (Z.leb_spec a b)
  | H : context [(?a =? ?b)%Z] |- _ => destruct (Z.eqb_spec a b)
  end; try (exfalso; lia); simplify_eq/=.

Ltac int_tests := repeat int_test.
