(* ===== verification/RustStd.v ===== *)
(** * The parts of the Rust standard library the sources use

    A [str] is the list of its characters (Unicode scalar values as [Z]);
    [str_len] is its length in bytes, the one [str::len] returns. Integers are
    [Z] with the width written out where the code saturates, checks or wraps. *)
From S2P Require Import Prelude.
Open Scope Z_scope.

(** ** Characters *)

Definition in_range (lo hi c : Z) : bool := (lo <=? c) && (c <=? hi).

Definition is_ascii_digit (c : Z) : bool := in_range 48 57 c.
Definition is_ascii_uppercase (c : Z) : bool := in_range 65 90 c.
Definition is_ascii_lowercase (c : Z) : bool := in_range 97 122 c.
Definition is_ascii_alphabetic (c : Z) : bool := is_ascii_uppercase c || is_ascii_lowercase c.
Definition is_ascii_alphanumeric (c : Z) : bool := is_ascii_alphabetic c || is_ascii_digit c.
Definition is_ascii (c : Z) : bool := in_range 0 127 c.

(** [char::is_control]: the general category Cc. *)
Definition is_control (c : Z) : bool := in_range 0 31 c || in_range 127 159 c.

(** [char::is_ascii_whitespace]: U+000B is not in it. *)
Definition is_ascii_whitespace (c : Z) : bool :=
  (c =? 9) || (c =? 10) || (c =? 12) || (c =? 13) || (c =? 32).

(** [char::is_whitespace]: the property White_Space. *)
Definition is_whitespace (c : Z) : bool :=
  in_range 9 13 c || (c =? 32) || (c =? 133) || (c =? 160) || (c =? 5760) ||
  in_range 8192 8202 c || (c =? 8232) || (c =? 8233) || (c =? 8239) ||
  (c =? 8287) || (c =? 12288).

Definition to_ascii_uppercase_char (c : Z) : Z := if is_ascii_lowercase c then c - 32 else c.
Definition to_ascii_lowercase_char (c : Z) : Z := if is_ascii_uppercase c then c + 32 else c.

(** [char::len_utf8]. *)
Definition len_utf8 (c : Z) : nat :=
  if c <? 128 then 1 else if c <? 2048 then 2 else if c <? 65536 then 3 else 4.

(** ** Strings *)

(** The literal of a Rust source, ASCII in all the code modelled. *)
Fixpoint lit (s : string) : list Z :=
  match s with
  | EmptyString => []
  | String a s => Z.of_N (Ascii.N_of_ascii a) :: lit s
  end.
Arguments lit s%_string : simpl never.

Definition str_len (s : list Z) : nat := sum_list (map len_utf8 s).

Definition str_eqb (a b : list Z) : bool := bool_decide (a = b).

Definition is_empty (s : list Z) : bool := match s with [] => true | _ => false end.

Definition to_ascii_uppercase (s : list Z) : list Z := map to_ascii_uppercase_char s.
Definition to_ascii_lowercase (s : list Z) : list Z := map to_ascii_lowercase_char s.

Definition eq_ignore_ascii_case (a b : list Z) : bool :=
  str_eqb (to_ascii_lowercase a) (to_ascii_lowercase b).

(** [str::contains] of a character. *)
Definition contains (c : Z) (s : list Z) : bool := existsb (Z.eqb c) s.

Fixpoint starts_with (p s : list Z) : bool :=
  match p, s with
  | [], _ => true
  | x :: p, y :: s => (x =? y) && starts_with p s
  | _ :: _, [] => false
  end.

Definition strip_prefix (p s : list Z) : option (list Z) :=
  if starts_with p s then Some (drop (length p) s) else None.

Definition ends_with (p s : list Z) : bool := starts_with (rev p) (rev s).

Definition strip_suffix (p s : list Z) : option (list Z) :=
  if ends_with p s then Some (take (length s - length p) s) else None.

(** [str::split_once] at the first [c]. *)
Fixpoint split_once (c : Z) (s : list Z) : option (list Z * list Z) :=
  match s with
  | [] => None
  | x :: s =>
      if x =? c then Some ([], s)
      else match split_once c s with
           | Some (a, b) => Some (x :: a, b)
           | None => None
           end
  end.

(** [str::rsplit_once] at the last [c]. *)
Fixpoint rsplit_once (c : Z) (s : list Z) : option (list Z * list Z) :=
  match s with
  | [] => None
  | x :: s =>
      match rsplit_once c s with
      | Some (a, b) => Some (x :: a, b)
      | None => if x =? c then Some ([], s) else None
      end
  end.

(** [str::split] on one character: [n] separators make [n + 1] pieces. *)
Fixpoint split (c : Z) (s : list Z) : list (list Z) :=
  match s with
  | [] => [[]]
  | x :: s =>
      if x =? c then [] :: split c s
      else match split c s with
           | p :: ps => (x :: p) :: ps
           | [] => [[x]]
           end
  end.

(** Maximal runs of characters outside [sep]. *)
Fixpoint words_by (sep : Z → bool) (acc s : list Z) : list (list Z) :=
  match s with
  | [] => if is_empty acc then [] else [rev acc]
  | x :: s =>
      if sep x then if is_empty acc then words_by sep [] s else rev acc :: words_by sep [] s
      else words_by sep (x :: acc) s
  end.

Definition split_ascii_whitespace (s : list Z) : list (list Z) := words_by is_ascii_whitespace [] s.
Definition split_whitespace (s : list Z) : list (list Z) := words_by is_whitespace [] s.

Fixpoint trim_start_matches (p : Z → bool) (s : list Z) : list Z :=
  match s with
  | [] => []
  | x :: s' => if p x then trim_start_matches p s' else s
  end.
Definition trim_end_matches (p : Z → bool) (s : list Z) : list Z :=
  rev (trim_start_matches p (rev s)).

Definition trim_start (s : list Z) : list Z := trim_start_matches is_whitespace s.
Definition trim_end (s : list Z) : list Z := trim_end_matches is_whitespace s.
Definition trim (s : list Z) : list Z := trim_end (trim_start s).

(** Cutting at a byte index: [None] past the end or inside a character, as
    [str::get(..n)] and [str::split_at_checked] do. *)
Fixpoint split_at_byte (n : nat) (s : list Z) : option (list Z * list Z) :=
  match n, s with
  | O, _ => Some ([], s)
  | _, [] => None
  | _, c :: s =>
      if (len_utf8 c <=? n)%nat then
        match split_at_byte (n - len_utf8 c) s with
        | Some (a, b) => Some (c :: a, b)
        | None => None
        end
      else None
  end.

(** ** Integers *)

Definition u8_max : Z := 2 ^ 8 - 1.
Definition u16_max : Z := 2 ^ 16 - 1.
Definition u32_max : Z := 2 ^ 32 - 1.
Definition u64_max : Z := 2 ^ 64 - 1.
Definition usize_max : Z := u64_max.

Definition saturating_add (max a b : Z) : Z := Z.min (a + b) max.
Definition saturating_sub (a b : Z) : Z := Z.max (a - b) 0.
Definition saturating_mul (max a b : Z) : Z := Z.min (a * b) max.

(** The value of a run of decimal digits after [acc]. *)
Fixpoint digits_value (acc : Z) (s : list Z) : option Z :=
  match s with
  | [] => Some acc
  | c :: s => if is_ascii_digit c then digits_value (acc * 10 + (c - 48)) s else None
  end.

(** [str::parse] to an unsigned integer: an optional plus sign, one digit at
    least, and a value that fits. *)
Definition parse_uint (max : Z) (s : list Z) : option Z :=
  let digits := match s with 43 :: d => d | _ => s end in
  match digits with
  | [] => None
  | _ => match digits_value 0 digits with
         | Some v => if v <=? max then Some v else None
         | None => None
         end
  end.

(** Decimal display of a non-negative integer. *)
Fixpoint decimal_fuel (fuel : nat) (n : Z) (acc : list Z) : list Z :=
  match fuel with
  | O => acc
  | S fuel =>
      let acc := (48 + n mod 10) :: acc in
      if n <? 10 then acc else decimal_fuel fuel (n / 10) acc
  end.
Definition decimal (n : Z) : list Z := decimal_fuel (S (Z.to_nat (Z.log2 n))) n [].
Arguments decimal n : simpl never.

(** ** Theory: cutting strings *)

Lemma str_eqb_eq a b : str_eqb a b = true ↔ a = b.
Proof. apply bool_decide_eq_true. Qed.

Lemma str_eqb_refl a : str_eqb a a = true.
Proof. by apply str_eqb_eq. Qed.

Lemma str_eqb_neq a b : a ≠ b → str_eqb a b = false.
Proof. apply bool_decide_eq_false_2. Qed.

Lemma contains_true c s : contains c s = true ↔ c ∈ s.
Proof.
  unfold contains. rewrite existsb_exists. setoid_rewrite Z.eqb_eq.
  setoid_rewrite <- list_elem_of_In. naive_solver.
Qed.

Lemma contains_false c s : contains c s = false ↔ c ∉ s.
Proof. rewrite <- not_true_iff_false, contains_true. done. Qed.

Lemma split_once_Some c s a b :
  split_once c s = Some (a, b) → s = a ++ c :: b ∧ c ∉ a.
Proof.
  revert a. induction s as [|x s IH]; intros a; simpl; [done|].
  destruct (Z.eqb_spec x c) as [->|Hne].
  - intros [= <- <-]. split; [done|apply not_elem_of_nil].
  - destruct (split_once c s) as [[a' b']|]; [|done]. intros [= <- <-].
    destruct (IH a') as [-> Hin]; [done|]. split; [done|].
    rewrite not_elem_of_cons. done.
Qed.

Lemma split_once_app c a b : c ∉ a → split_once c (a ++ c :: b) = Some (a, b).
Proof.
  induction a as [|x a IH]; simpl; intros Ha; [by rewrite Z.eqb_refl|].
  apply not_elem_of_cons in Ha as [Hx Ha].
  destruct (Z.eqb_spec x c); [done|]. by rewrite IH.
Qed.

Lemma split_once_None c s : split_once c s = None ↔ c ∉ s.
Proof.
  induction s as [|x s IH]; simpl; [split; [intros _; apply not_elem_of_nil|done]|].
  rewrite not_elem_of_cons, <- IH. destruct (Z.eqb_spec x c) as [->|Hne].
  - split; [done|]. by intros [? _].
  - destruct (split_once c s) as [[]|]; [|done]. split; [done|]. by intros [_ ?].
Qed.

Lemma rsplit_once_None c s : rsplit_once c s = None ↔ c ∉ s.
Proof.
  induction s as [|x s IH]; simpl; [split; [intros _; apply not_elem_of_nil|done]|].
  rewrite not_elem_of_cons, <- IH.
  destruct (rsplit_once c s) as [[]|]; [split; [done|by intros []]|].
  destruct (Z.eqb_spec x c) as [->|Hne]; split; try done. by intros [].
Qed.

Lemma rsplit_once_Some c s a b :
  rsplit_once c s = Some (a, b) → s = a ++ c :: b ∧ c ∉ b.
Proof.
  revert a. induction s as [|x s IH]; intros a; simpl; [done|].
  destruct (rsplit_once c s) as [[a' b']|] eqn:Hr.
  - intros [= <- <-]. destruct (IH a') as [-> ?]; done.
  - destruct (Z.eqb_spec x c) as [->|]; [|done]. intros [= <- <-].
    split; [done|]. by apply rsplit_once_None.
Qed.

Lemma rsplit_once_app c a b : c ∉ b → rsplit_once c (a ++ c :: b) = Some (a, b).
Proof.
  intros Hb. induction a as [|x a IH]; simpl; [|by rewrite IH].
  apply rsplit_once_None in Hb. by rewrite Hb, Z.eqb_refl.
Qed.

(** The pieces of [split], joined again, are the string. *)
Fixpoint join (c : Z) (ps : list (list Z)) : list Z :=
  match ps with
  | [] => []
  | [p] => p
  | p :: ps => p ++ c :: join c ps
  end.

Lemma split_nonempty c s : split c s ≠ [].
Proof. destruct s as [|x s]; simpl; [done|]. destruct (x =? c); [done|]. by case_match. Qed.

Lemma join_split c s : join c (split c s) = s.
Proof.
  induction s as [|x s IH]; simpl; [done|]. destruct (Z.eqb_spec x c) as [->|Hne].
  - pose proof (split_nonempty c s). destruct (split c s) eqn:E; [done|].
    simpl in *. by rewrite IH.
  - pose proof (split_nonempty c s). destruct (split c s) as [|p ps]; [done|].
    destruct ps; simpl in *; by rewrite IH.
Qed.

Lemma split_pieces c s : Forall (λ p, c ∉ p) (split c s).
Proof.
  induction s as [|x s IH]; simpl; [constructor; [apply not_elem_of_nil|done]|].
  destruct (Z.eqb_spec x c) as [->|Hne]; [constructor; [apply not_elem_of_nil|done]|].
  destruct (split c s) as [|p ps]; [constructor; [|done]; set_solver|].
  apply Forall_cons in IH as [Hp Hps]. constructor; [|done]. by apply not_elem_of_cons.
Qed.

Lemma split_no_sep c p : c ∉ p → split c p = [p].
Proof.
  induction p as [|x p IH]; simpl; [done|]. intros [Hx Hp]%not_elem_of_cons.
  destruct (Z.eqb_spec x c); [done|]. by rewrite IH.
Qed.

Lemma split_app_sep c p s : c ∉ p → split c (p ++ c :: s) = p :: split c s.
Proof.
  induction p as [|x p IH]; simpl; [by rewrite Z.eqb_refl|]. intros [Hx Hp]%not_elem_of_cons.
  destruct (Z.eqb_spec x c); [done|]. by rewrite IH.
Qed.

Lemma split_join c ps : ps ≠ [] → Forall (λ p, c ∉ p) ps → split c (join c ps) = ps.
Proof.
  intros Hne Hps. induction Hps as [|p ps Hp Hps IH]; [done|].
  destruct ps as [|q ps]; [by apply split_no_sep|].
  change (join c (p :: q :: ps)) with (p ++ c :: join c (q :: ps)).
  rewrite split_app_sep by done. by rewrite IH.
Qed.

(** ** Theory: words and trimming *)

Lemma words_by_run sep acc w s :
  Forall (λ x, sep x = false) w →
  words_by sep acc (w ++ s) = words_by sep (rev w ++ acc) s.
Proof.
  intros Hw. revert acc. induction Hw as [|x w Hx Hw IH]; intros acc; [done|].
  simpl. rewrite Hx, IH. simpl. by rewrite <- app_assoc.
Qed.

(** Words written each with a separator before it. *)
Definition unwords (c : Z) (ws : list (list Z)) : list Z := concat (map (λ w, c :: w) ws).

Definition is_word (sep : Z → bool) (w : list Z) : Prop :=
  w ≠ [] ∧ Forall (λ x, sep x = false) w.

Lemma is_empty_rev (l : list Z) : l ≠ [] → is_empty (rev l) = false.
Proof.
  destruct l as [|x l]; [done|]. intros _. simpl. by destruct (rev l).
Qed.

Lemma words_unwords_acc sep c w ws :
  sep c = true → is_word sep w → Forall (is_word sep) ws →
  words_by sep [] (w ++ unwords c ws) = w :: ws.
Proof.
  intros Hc Hw Hws. revert w Hw. induction Hws as [|w' ws Hw' Hws IH]; intros w [Hne Hw].
  - unfold unwords. simpl. rewrite words_by_run, app_nil_r by done. simpl.
    rewrite is_empty_rev by done. by rewrite rev_involutive.
  - unfold unwords. simpl. rewrite words_by_run, app_nil_r by done. simpl. rewrite Hc.
    rewrite is_empty_rev by done. rewrite rev_involutive. f_equal. by apply IH.
Qed.

Lemma words_unwords sep c ws :
  sep c = true → Forall (is_word sep) ws → words_by sep [] (unwords c ws) = ws.
Proof.
  intros Hc Hws. destruct Hws as [|w ws Hw Hws]; [done|].
  unfold unwords. simpl. rewrite Hc. by apply words_unwords_acc.
Qed.

Lemma words_by_spec sep acc s :
  Forall (λ x, sep x = false) acc → Forall (is_word sep) (words_by sep acc s).
Proof.
  revert acc. induction s as [|x s IH]; intros acc Hacc; simpl.
  - destruct acc as [|a acc]; simpl; [constructor|]. constructor; [|constructor].
    split; [by destruct (rev acc)|]. exact (Forall_rev Hacc).
  - destruct (sep x) eqn:Hx; [|apply IH; by constructor].
    destruct acc as [|a acc]; simpl; [apply IH; constructor|].
    constructor; [|apply IH; constructor]. split; [by destruct (rev acc)|].
    exact (Forall_rev Hacc).
Qed.

Lemma trim_start_matches_id p s :
  match s with x :: _ => p x = false | [] => True end → trim_start_matches p s = s.
Proof. destruct s; simpl; [done|]. by intros ->. Qed.

Lemma trim_end_matches_id p s x : p x = false → trim_end_matches p (s ++ [x]) = s ++ [x].
Proof.
  intros Hx. unfold trim_end_matches. rewrite rev_app_distr. simpl. rewrite Hx.
  simpl. by rewrite rev_involutive.
Qed.

Lemma trim_id s :
  match s with x :: _ => is_whitespace x = false | [] => True end →
  match last s with Some x => is_whitespace x = false | None => True end →
  trim s = s.
Proof.
  intros Hh Hl. unfold trim, trim_start, trim_end.
  rewrite trim_start_matches_id by done. destruct (last s) as [x|] eqn:E.
  - apply last_Some in E as [s' ->]. by apply trim_end_matches_id.
  - by apply last_None in E as ->.
Qed.

Lemma trim_start_matches_incl p s x : x ∈ trim_start_matches p s → x ∈ s.
Proof.
  induction s as [|y s IH]; simpl; [done|]. destruct (p y); [|done]. set_solver.
Qed.

Lemma elem_of_rev (l : list Z) x : x ∈ rev l ↔ x ∈ l.
Proof. by rewrite !list_elem_of_In, <- in_rev. Qed.

Lemma trim_incl s x : x ∈ trim s → x ∈ s.
Proof.
  unfold trim, trim_end, trim_end_matches, trim_start. rewrite elem_of_rev.
  intros H%trim_start_matches_incl. rewrite elem_of_rev in H.
  by apply trim_start_matches_incl in H.
Qed.

(** ** Theory: numbers *)

Lemma is_ascii_digit_spec c : is_ascii_digit c = true ↔ 48 ≤ c ≤ 57.
Proof. unfold is_ascii_digit, in_range. lia. Qed.

Lemma digits_value_decimal_fuel fuel n acc :
  0 ≤ n < 10 ^ Z.of_nat fuel →
  digits_value 0 (decimal_fuel fuel n acc) = digits_value n acc.
Proof.
  revert n acc. induction fuel as [|fuel IH]; intros n acc Hn.
  - change (10 ^ Z.of_nat 0) with 1 in Hn. simpl. f_equal. lia.
  - rewrite Nat2Z.inj_succ, Z.pow_succ_r in Hn by lia. cbn [decimal_fuel].
    pose proof (Z.mod_pos_bound n 10 ltac:(lia)) as Hm.
    pose proof (Z.div_mod n 10 ltac:(lia)) as Hdm.
    assert (Hd : is_ascii_digit (48 + n mod 10) = true) by (apply is_ascii_digit_spec; lia).
    destruct (Z.ltb_spec n 10).
    + cbn [digits_value]. rewrite Hd. f_equal. rewrite Z.mod_small by lia. lia.
    + rewrite IH by lia. cbn [digits_value]. rewrite Hd. f_equal. lia.
Qed.

Lemma decimal_fuel_digits fuel n acc :
  Forall (λ c, is_ascii_digit c = true) acc →
  Forall (λ c, is_ascii_digit c = true) (decimal_fuel fuel n acc).
Proof.
  revert n acc. induction fuel as [|fuel IH]; intros n acc Hacc; simpl; [done|].
  assert (is_ascii_digit (48 + n mod 10) = true).
  { apply is_ascii_digit_spec. pose proof (Z.mod_pos_bound n 10). lia. }
  case_match; [by constructor|]. apply IH. by constructor.
Qed.

Lemma decimal_digits n : Forall (λ c, is_ascii_digit c = true) (decimal n).
Proof. apply decimal_fuel_digits. constructor. Qed.

Lemma decimal_fuel_nonempty fuel n acc : acc ≠ [] → decimal_fuel fuel n acc ≠ [].
Proof. revert n acc. induction fuel; intros; simpl; [done|]. case_match; [done|]. auto. Qed.

Lemma decimal_nonempty n : decimal n ≠ [].
Proof. unfold decimal. cbn [decimal_fuel]. case_match; [done|]. by apply decimal_fuel_nonempty. Qed.

Lemma digits_value_decimal n : 0 ≤ n → digits_value 0 (decimal n) = Some n.
Proof.
  intros Hn. unfold decimal. rewrite digits_value_decimal_fuel; [done|]. split; [done|].
  destruct (Z.eq_dec n 0) as [->|Hne]; [done|].
  rewrite Nat2Z.inj_succ, Z2Nat.id by apply Z.log2_nonneg.
  pose proof (Z.log2_spec n ltac:(lia)) as [_ Hlt].
  eapply Z.lt_le_trans; [exact Hlt|]. apply Z.pow_le_mono_l. lia.
Qed.

(** Printing and parsing an unsigned integer is a round trip. *)
Lemma parse_uint_decimal max n : 0 ≤ n ≤ max → parse_uint max (decimal n) = Some n.
Proof.
  intros [Hn Hmax]. unfold parse_uint.
  pose proof (decimal_digits n) as Hd. pose proof (decimal_nonempty n) as Hne.
  pose proof (digits_value_decimal n Hn) as Hv.
  destruct (decimal n) as [|c s]; [done|].
  assert (Hc : c ≠ 43).
  { apply Forall_cons in Hd as [Hd _]. apply is_ascii_digit_spec in Hd. lia. }
  replace (match c with 43 => s | _ => c :: s end) with (c :: s).
  - rewrite Hv. by destruct (Z.leb_spec n max); [|lia].
  - destruct c as [|p|p]; try done. do 6 (destruct p as [p|p|]; try done).
Qed.

Lemma digits_value_nonneg acc s v : 0 ≤ acc → digits_value acc s = Some v → 0 ≤ v.
Proof.
  revert acc. induction s as [|c s IH]; intros acc Hacc; simpl; [by intros [= ->]|].
  destruct (is_ascii_digit c) eqn:Hc; [|done]. apply is_ascii_digit_spec in Hc.
  apply IH. lia.
Qed.

Lemma parse_uint_bounds max s v : parse_uint max s = Some v → 0 ≤ v ≤ max.
Proof.
  unfold parse_uint. intros H.
  destruct (match s with 43 :: d => d | _ => s end) as [|c d]; [done|].
  destruct (digits_value 0 (c :: d)) as [w|] eqn:Hd; [|done].
  destruct (Z.leb_spec w max); [|done]. simplify_eq.
  split; [|done]. by eapply digits_value_nonneg; [|exact Hd].
Qed.

(** ** Theory: ASCII case *)

Lemma to_ascii_lowercase_char_idem c :
  to_ascii_lowercase_char (to_ascii_lowercase_char c) = to_ascii_lowercase_char c.
Proof.
  unfold to_ascii_lowercase_char, is_ascii_uppercase, in_range.
  repeat case_match; lia.
Qed.

Lemma to_ascii_lowercase_idem s :
  to_ascii_lowercase (to_ascii_lowercase s) = to_ascii_lowercase s.
Proof.
  unfold to_ascii_lowercase. rewrite map_map. apply map_ext.
  apply to_ascii_lowercase_char_idem.
Qed.

Lemma eq_ignore_ascii_case_spec a b :
  eq_ignore_ascii_case a b = true ↔ to_ascii_lowercase a = to_ascii_lowercase b.
Proof. apply str_eqb_eq. Qed.

Lemma is_ascii_whitespace_whitespace c : is_ascii_whitespace c = true → is_whitespace c = true.
Proof. unfold is_ascii_whitespace, is_whitespace, in_range. lia. Qed.

Lemma digit_not_whitespace c : is_ascii_digit c = true → is_whitespace c = false.
Proof. unfold is_ascii_digit, is_whitespace, in_range. lia. Qed.

Lemma digit_not_control c : is_ascii_digit c = true → is_control c = false.
Proof. unfold is_ascii_digit, is_control, in_range. lia. Qed.

Lemma str_len_app a b : str_len (a ++ b) = (str_len a + str_len b)%nat.
Proof. unfold str_len. induction a as [|x a IH]; cbn in *; [done|]. rewrite IH. lia. Qed.

Lemma str_len_cons c s : str_len (c :: s) = (len_utf8 c + str_len s)%nat.
Proof. done. Qed.

Lemma len_utf8_pos c : (1 ≤ len_utf8 c)%nat.
Proof. unfold len_utf8. repeat case_match; lia. Qed.

Lemma length_le_str_len s : (length s ≤ str_len s)%nat.
Proof. induction s as [|c s IH]; [cbn; lia|]. rewrite str_len_cons. pose proof (len_utf8_pos c). cbn [length]. lia. Qed.

(** Cutting at a byte. *)
Lemma split_at_byte_Some n s a b : split_at_byte n s = Some (a, b) → s = a ++ b ∧ str_len a = n.
Proof.
  revert n a b. induction s as [|c s IH]; intros [|n] a b; cbn [split_at_byte]; try done;
    try (intros [= <- <-]; done).
  destruct (Nat.leb_spec (len_utf8 c) (S n)); [|done].
  destruct (split_at_byte _ s) as [[a' b']|] eqn:E; [|done]. intros [= <- <-].
  apply IH in E as [-> Hl]. split; [done|]. unfold str_len in *. cbn [map sum_list_with]. cbn. lia.
Qed.

Lemma split_at_byte_prefix a b : split_at_byte (str_len a) (a ++ b) = Some (a, b).
Proof.
  induction a as [|c a IH]; [by destruct b|]. rewrite str_len_cons. pose proof (len_utf8_pos c). cbn [app].
  destruct (len_utf8 c + str_len a)%nat as [|n] eqn:En; [lia|]. cbn [split_at_byte].
  destruct (Nat.leb_spec (len_utf8 c) (S n)); [|lia].
  replace (S n - len_utf8 c)%nat with (str_len a) by lia. by rewrite IH.
Qed.

Lemma split_at_byte_None n s :
  (n ≤ str_len s)%nat →
  split_at_byte n s = None ↔
    ∃ a c b, s = a ++ c :: b ∧ (str_len a < n < str_len a + len_utf8 c)%nat.
Proof.
  revert n. induction s as [|x s IH]; intros n Hn.
  { destruct n; [|cbn in Hn; lia]. split; [done|]. by intros ([|] & c & b & ? & ?). }
  assert (Hlen : str_len (x :: s) = (len_utf8 x + str_len s)%nat) by done. rewrite Hlen in Hn.
  destruct n as [|n].
  { split; [done|]. intros (a & c & b & _ & ?). lia. }
  cbn [split_at_byte]. destruct (Nat.leb_spec (len_utf8 x) (S n)) as [Hle|Hgt].
  - transitivity (split_at_byte (S n - len_utf8 x) s = None).
    { destruct (split_at_byte (S n - len_utf8 x) s) as [[p q]|]; split; done. }
    rewrite IH by lia. split.
    + intros (a & c & b & -> & Hr). exists (x :: a), c, b. split; [done|].
      change (str_len (x :: a)) with (len_utf8 x + str_len a)%nat. lia.
    + intros ([|y a] & c & b & Heq & Hr); injection Heq as <- ->.
      * change (str_len []) with 0%nat in Hr. lia.
      * exists a, c, b. split; [done|]. change (str_len (x :: a)) with (len_utf8 x + str_len a)%nat in Hr. lia.
  - split; [intros _|done]. exists [], x, s. split; [done|]. change (str_len []) with 0%nat. lia.
Qed.
