(* ===== verification/Utf8.v ===== *)
(** UTF-8 as Rust's [String] has it: [String::from_utf8], [from_utf8_lossy]
    and [str::as_bytes].  Strings are lists of Unicode scalar values, octets
    are integers below 256. *)

From S2P Require Import Prelude RustStd.

Local Open Scope Z_scope.

(** A Unicode scalar value: no surrogate, at most U+10FFFF. *)
Definition is_scalar (c : Z) : bool := in_range 0 0xD7FF c || in_range 0xE000 0x10FFFF c.

Definition encode_utf8 (c : Z) : list Z :=
  if c <? 0x80 then [c]
  else if c <? 0x800 then [0xC0 + c / 64; 0x80 + c mod 64]
  else if c <? 0x10000 then [0xE0 + c / 4096; 0x80 + c / 64 mod 64; 0x80 + c mod 64]
  else [0xF0 + c / 262144; 0x80 + c / 4096 mod 64; 0x80 + c / 64 mod 64; 0x80 + c mod 64].

(** [str::as_bytes]. *)
Definition as_bytes (s : list Z) : list Z := flat_map encode_utf8 s.

Definition is_cont (b : Z) : bool := in_range 0x80 0xBF b.

(** The second octets allowed after a three- or four-octet lead. *)
Definition second_of_three (b0 b1 : Z) : bool :=
  if b0 =? 0xE0 then in_range 0xA0 0xBF b1
  else if b0 =? 0xED then in_range 0x80 0x9F b1
  else is_cont b1.

Definition second_of_four (b0 b1 : Z) : bool :=
  if b0 =? 0xF0 then in_range 0x90 0xBF b1
  else if b0 =? 0xF4 then in_range 0x80 0x8F b1
  else is_cont b1.

Definition char2 (b0 b1 : Z) : Z := (b0 - 0xC0) * 64 + (b1 - 0x80).
Definition char3 (b0 b1 b2 : Z) : Z := (b0 - 0xE0) * 4096 + (b1 - 0x80) * 64 + (b2 - 0x80).
Definition char4 (b0 b1 b2 b3 : Z) : Z :=
  (b0 - 0xF0) * 262144 + (b1 - 0x80) * 4096 + (b2 - 0x80) * 64 + (b3 - 0x80).

(** [String::from_utf8]. *)
Fixpoint from_utf8 (l : list Z) : option (list Z) :=
  match l with
  | [] => Some []
  | b0 :: r0 =>
      if in_range 0 0x7F b0 then cons b0 <$> from_utf8 r0
      else if in_range 0xC2 0xDF b0 then
        match r0 with
        | b1 :: r1 => if is_cont b1 then cons (char2 b0 b1) <$> from_utf8 r1 else None
        | _ => None
        end
      else if in_range 0xE0 0xEF b0 then
        match r0 with
        | b1 :: b2 :: r2 =>
            if second_of_three b0 b1 && is_cont b2
            then cons (char3 b0 b1 b2) <$> from_utf8 r2 else None
        | _ => None
        end
      else if in_range 0xF0 0xF4 b0 then
        match r0 with
        | b1 :: b2 :: b3 :: r3 =>
            if second_of_four b0 b1 && is_cont b2 && is_cont b3
            then cons (char4 b0 b1 b2 b3) <$> from_utf8 r3 else None
        | _ => None
        end
      else None
  end.

Definition REPLACEMENT : Z := 0xFFFD.

(** [String::from_utf8_lossy]: each maximal prefix of a character that is
    not completed, and each other stray octet, is one U+FFFD. *)
Fixpoint from_utf8_lossy (l : list Z) : list Z :=
  match l with
  | [] => []
  | b0 :: r0 =>
      if in_range 0 0x7F b0 then b0 :: from_utf8_lossy r0
      else if in_range 0xC2 0xDF b0 then
        match r0 with
        | b1 :: r1 =>
            if is_cont b1 then char2 b0 b1 :: from_utf8_lossy r1
            else REPLACEMENT :: from_utf8_lossy r0
        | [] => [REPLACEMENT]
        end
      else if in_range 0xE0 0xEF b0 then
        match r0 with
        | b1 :: r1 =>
            if second_of_three b0 b1 then
              match r1 with
              | b2 :: r2 =>
                  if is_cont b2 then char3 b0 b1 b2 :: from_utf8_lossy r2
                  else REPLACEMENT :: from_utf8_lossy r1
              | [] => [REPLACEMENT]
              end
            else REPLACEMENT :: from_utf8_lossy r0
        | [] => [REPLACEMENT]
        end
      else if in_range 0xF0 0xF4 b0 then
        match r0 with
        | b1 :: r1 =>
            if second_of_four b0 b1 then
              match r1 with
              | b2 :: r2 =>
                  if is_cont b2 then
                    match r2 with
                    | b3 :: r3 =>
                        if is_cont b3 then char4 b0 b1 b2 b3 :: from_utf8_lossy r3
                        else REPLACEMENT :: from_utf8_lossy r2
                    | [] => [REPLACEMENT]
                    end
                  else REPLACEMENT :: from_utf8_lossy r1
              | [] => [REPLACEMENT]
              end
            else REPLACEMENT :: from_utf8_lossy r0
        | [] => [REPLACEMENT]
        end
      else REPLACEMENT :: from_utf8_lossy r0
  end.

(** ** Lemmas *)

Lemma in_range_true lo hi c : lo ≤ c ≤ hi → in_range lo hi c = true.
Proof. intros H. unfold in_range. rewrite andb_true_iff, !Z.leb_le. lia. Qed.

Lemma in_range_false lo hi c : c < lo ∨ hi < c → in_range lo hi c = false.
Proof. intros H. unfold in_range. rewrite andb_false_iff, !Z.leb_gt. lia. Qed.

Lemma is_scalar_spec c : is_scalar c = true ↔ 0 ≤ c ≤ 0xD7FF ∨ 0xE000 ≤ c ≤ 0x10FFFF.
Proof. unfold is_scalar, in_range. rewrite orb_true_iff, !andb_true_iff, !Z.leb_le. lia. Qed.

Ltac ranges :=
  repeat first
    [ rewrite in_range_true by (Z.to_euclidean_division_equations; lia)
    | rewrite in_range_false by (Z.to_euclidean_division_equations; lia) ].

Lemma from_utf8_encode c rest :
  is_scalar c = true → from_utf8 (encode_utf8 c ++ rest) = cons c <$> from_utf8 rest.
Proof.
  intros H. apply is_scalar_spec in H. unfold encode_utf8.
  destruct (Z.ltb_spec c 0x80); [|destruct (Z.ltb_spec c 0x800); [|destruct (Z.ltb_spec c 0x10000)]];
    cbn [app from_utf8].
  - by ranges.
  - ranges. unfold is_cont. ranges. do 2 f_equal. unfold char2.
    Z.to_euclidean_division_equations; lia.
  - ranges. unfold second_of_three, is_cont.
    assert (Hc : char3 (0xE0 + c / 4096) (0x80 + c / 64 mod 64) (0x80 + c mod 64) = c)
      by (unfold char3; Z.to_euclidean_division_equations; lia).
    rewrite Hc.
    destruct (Z.eqb_spec (0xE0 + c / 4096) 0xE0); [by ranges|].
    destruct (Z.eqb_spec (0xE0 + c / 4096) 0xED); by ranges.
  - ranges. unfold second_of_four, is_cont.
    assert (Hc : char4 (0xF0 + c / 262144) (0x80 + c / 4096 mod 64) (0x80 + c / 64 mod 64)
                   (0x80 + c mod 64) = c)
      by (unfold char4; Z.to_euclidean_division_equations; lia).
    rewrite Hc.
    destruct (Z.eqb_spec (0xF0 + c / 262144) 0xF0); [by ranges|].
    destruct (Z.eqb_spec (0xF0 + c / 262144) 0xF4); by ranges.
Qed.

Lemma from_utf8_as_bytes s :
  Forall (λ c, is_scalar c = true) s → from_utf8 (as_bytes s) = Some s.
Proof.
  induction 1 as [|c s Hc _ IH]; [done|]. change (as_bytes (c :: s)) with (encode_utf8 c ++ as_bytes s).
  rewrite from_utf8_encode by done. by rewrite IH.
Qed.

(** A string of ASCII characters is its own octets. *)
Lemma as_bytes_ascii s : Forall (λ c, 0 ≤ c < 0x80) s → as_bytes s = s.
Proof.
  induction 1 as [|c s Hc _ IH]; [done|]. change (as_bytes (c :: s)) with (encode_utf8 c ++ as_bytes s). unfold encode_utf8.
  destruct (Z.ltb_spec c 0x80); [|lia]. cbn [app]. by rewrite IH.
Qed.

(** Decoding loses nothing: the characters encode back to the octets. *)
Lemma as_bytes_from_utf8 l s : from_utf8 l = Some s → as_bytes s = l.
Proof.
  remember (length l) as n eqn:Hn. revert l s Hn. induction n as [n IH] using lt_wf_ind.
  intros [|b0 r0] s ->; cbn [from_utf8]; [by intros [= <-]|].
  assert (Hrec : ∀ c r, (length r < length (b0 :: r0))%nat → cons c <$> from_utf8 r = Some s →
    as_bytes s = encode_utf8 c ++ r).
  { intros c r Hlt. destruct (from_utf8 r) as [t|] eqn:Er; [|done]. cbn. intros [= <-].
    change (as_bytes (c :: t)) with (encode_utf8 c ++ as_bytes t). f_equal. by eapply (IH (length r)). }
  unfold second_of_three, second_of_four, is_cont, in_range.
  destruct ((0 <=? b0) && (b0 <=? 0x7F)) eqn:E1.
  { intros H%Hrec; [|cbn; lia]. rewrite H. unfold encode_utf8. rewrite andb_true_iff, !Z.leb_le in E1.
    destruct (Z.ltb_spec b0 0x80); [done|lia]. }
  destruct ((0xC2 <=? b0) && (b0 <=? 0xDF)) eqn:E2.
  { destruct r0 as [|b1 r1]; [done|]. match goal with |- (if ?b then _ else _) = _ → _ => destruct b eqn:E; [|done] end.
    intros H%Hrec; [|cbn; lia]. rewrite H. unfold encode_utf8, char2.
    rewrite !andb_true_iff, !Z.leb_le in *.
    destruct (Z.ltb_spec ((b0 - 0xC0) * 64 + (b1 - 0x80)) 0x80); [lia|].
    destruct (Z.ltb_spec ((b0 - 0xC0) * 64 + (b1 - 0x80)) 0x800); [|lia]. cbn [app].
    repeat f_equal; Z.to_euclidean_division_equations; lia. }
  destruct ((0xE0 <=? b0) && (b0 <=? 0xEF)) eqn:E3.
  { destruct r0 as [|b1 [|b2 r2]]; [done..|]. match goal with |- (if ?b then _ else _) = _ → _ => destruct b eqn:E; [|done] end.
    intros H%Hrec; [|cbn; lia]. rewrite H. unfold encode_utf8, char3.
    apply andb_true_iff in E as [Eb [? ?]%andb_true_iff]. apply andb_true_iff in E3 as [? ?].
    rewrite ?Z.leb_le in *.
    assert (0x80 ≤ b1 ≤ 0xBF ∧ (b0 = 0xE0 → 0xA0 ≤ b1)).
    { destruct (Z.eqb_spec b0 0xE0); [|destruct (Z.eqb_spec b0 0xED)]; rewrite andb_true_iff, !Z.leb_le in Eb; lia. }
    set (c := (b0 - 0xE0) * 4096 + (b1 - 0x80) * 64 + (b2 - 0x80)).
    assert (0x800 ≤ c < 0x10000) by (subst c; lia).
    destruct (Z.ltb_spec c 0x80); [lia|]. destruct (Z.ltb_spec c 0x800); [lia|].
    destruct (Z.ltb_spec c 0x10000); [|lia]. cbn [app].
    repeat f_equal; subst c; Z.to_euclidean_division_equations; lia. }
  destruct ((0xF0 <=? b0) && (b0 <=? 0xF4)) eqn:E4; [|done].
  destruct r0 as [|b1 [|b2 [|b3 r3]]]; [done..|]. match goal with |- (if ?b then _ else _) = _ → _ => destruct b eqn:E; [|done] end.
  intros H%Hrec; [|cbn; lia]. rewrite H. unfold encode_utf8, char4.
  apply andb_true_iff in E as [[Eb [? ?]%andb_true_iff]%andb_true_iff [? ?]%andb_true_iff].
  apply andb_true_iff in E4 as [? ?]. rewrite ?Z.leb_le in *.
  assert (0x80 ≤ b1 ≤ 0xBF ∧ (b0 = 0xF0 → 0x90 ≤ b1)).
  { destruct (Z.eqb_spec b0 0xF0); [|destruct (Z.eqb_spec b0 0xF4)]; rewrite andb_true_iff, !Z.leb_le in Eb; lia. }
  set (c := (b0 - 0xF0) * 262144 + (b1 - 0x80) * 4096 + (b2 - 0x80) * 64 + (b3 - 0x80)).
  assert (0x10000 ≤ c) by (subst c; lia).
  destruct (Z.ltb_spec c 0x80); [lia|]. destruct (Z.ltb_spec c 0x800); [lia|].
  destruct (Z.ltb_spec c 0x10000); [lia|]. cbn [app].
  repeat f_equal; subst c; Z.to_euclidean_division_equations; lia.
Qed.

(** A string is determined by its octets. *)
Lemma as_bytes_inj a b : as_bytes a = as_bytes b → a = b.
Proof.
  revert b. induction a as [|x a IH]; intros [|y b].
  - done.
  - change (as_bytes (y :: b)) with (encode_utf8 y ++ as_bytes b). unfold encode_utf8. by repeat case_match.
  - change (as_bytes (x :: a)) with (encode_utf8 x ++ as_bytes a). unfold encode_utf8. by repeat case_match.
  - change (as_bytes (y :: b)) with (encode_utf8 y ++ as_bytes b). change (as_bytes (x :: a)) with (encode_utf8 x ++ as_bytes a).
    unfold encode_utf8.
    destruct (Z.ltb_spec x 0x80), (Z.ltb_spec y 0x80);
      [intros [= -> Heq]; by rewrite (IH b Heq)|
       destruct (Z.ltb_spec y 0x800), (Z.ltb_spec y 0x10000)|
       destruct (Z.ltb_spec x 0x800), (Z.ltb_spec x 0x10000)|
       destruct (Z.ltb_spec x 0x800), (Z.ltb_spec x 0x10000), (Z.ltb_spec y 0x800), (Z.ltb_spec y 0x10000)]; try lia;
      cbn [app]; intros Heq; injection Heq; intros;
      first [exfalso; Z.to_euclidean_division_equations; lia
            |f_equal; [Z.to_euclidean_division_equations; lia|by apply IH]].
Qed.
