(* ===== verification/Slices.v ===== *)
(** Byte slices of the Rust standard library: positions, [split_inclusive],
    prefix and suffix tests, and the in-place moves of a [Vec<u8>]. Indices are
    [nat]; a range out of bounds panics in Rust, so the definitions that can
    panic return [option]. *)

From S2P Require Import Prelude RustStd.

(** ** Searching *)

(** [iter().position(p)]. *)
Fixpoint position (p : Z → bool) (l : list Z) : option nat :=
  match l with
  | [] => None
  | x :: l => if p x then Some 0%nat else S <$> position p l
  end.

(** [windows(w.len()).position(|x| x == w)] for a non-empty [w]. *)
Fixpoint window_position (w l : list Z) : option nat :=
  match l with
  | [] => None
  | x :: l' => if starts_with w l then Some 0%nat else S <$> window_position w l'
  end.

(** [split_inclusive(|b| b == c)]: pieces end with [c], the last one maybe not. *)
Fixpoint split_inclusive (c : Z) (l : list Z) : list (list Z) :=
  match l with
  | [] => []
  | x :: l =>
      if (x =? c)%Z then [x] :: split_inclusive c l
      else match split_inclusive c l with
           | [] => [[x]]
           | p :: ps => (x :: p) :: ps
           end
  end.

(** ** Moves inside a buffer *)

(** [data.copy_within(start..start + len, dst)]; [None] is the panic. *)
Definition copy_within (data : list Z) (start len dst : nat) : option (list Z) :=
  if (start + len <=? length data)%nat && (dst + len <=? length data)%nat
  then Some (take dst data ++ take len (drop start data) ++ drop (dst + len) data)
  else None.

(** [for i in 0..len { data[dst + i] = data[src + i] }]. *)
Fixpoint copy_bytes (data : list Z) (src dst len : nat) : option (list Z) :=
  match len with
  | O => Some data
  | S len =>
      b ← data !! src;
      if (dst <? length data)%nat then copy_bytes (<[dst := b]> data) (S src) (S dst) len else None
  end.

(** ** Theory *)

Lemma concat_split_inclusive c l : concat (split_inclusive c l) = l.
Proof.
  induction l as [|x l IH]; [done|]. simpl. destruct (Z.eqb_spec x c); simpl; [by rewrite IH|].
  destruct (split_inclusive c l) as [|p ps]; simpl in *; by rewrite <-IH.
Qed.

Lemma split_inclusive_nonempty c l : Forall (λ p, p ≠ []) (split_inclusive c l).
Proof.
  induction l as [|x l IH]; [done|]. simpl. destruct (Z.eqb_spec x c); [by constructor|].
  destruct (split_inclusive c l) as [|p ps]; [by constructor|].
  apply Forall_cons in IH as [_ IH]. by constructor.
Qed.

(** Whether a line is ended by its terminator. *)
Definition ended (c : Z) (line : list Z) : Prop := ∃ body, line = body ++ [c] ∧ c ∉ body.

Lemma split_inclusive_ended c l1 l2 :
  ended c l1 → split_inclusive c (l1 ++ l2) = l1 :: split_inclusive c l2.
Proof.
  intros (body & -> & Hc). induction body as [|x body IH]; simpl.
  - by rewrite Z.eqb_refl.
  - apply not_elem_of_cons in Hc as [Hx Hc]. destruct (Z.eqb_spec x c); [congruence|].
    by rewrite IH.
Qed.

Lemma split_inclusive_open c l : c ∉ l → l ≠ [] → split_inclusive c l = [l].
Proof.
  induction l as [|x l IH]; [done|]. intros [Hx Hc]%not_elem_of_cons _. simpl.
  destruct (Z.eqb_spec x c); [congruence|]. destruct l as [|y l]; [done|].
  by rewrite IH.
Qed.

(** Every non-empty slice is one whole line and the rest, or one open line. *)
Lemma first_piece c l :
  l ≠ [] → (∃ l1 l2, l = l1 ++ l2 ∧ ended c l1) ∨ c ∉ l.
Proof.
  induction l as [|x l IH]; [done|]. intros _. destruct (decide (x = c)) as [->|Hx].
  - left. exists [c], l. split; [done|]. exists []. set_solver.
  - destruct l as [|y l]; [right; set_solver|]. destruct (IH ltac:(done)) as [(l1 & l2 & Hl & b & -> & Hb)|Hn].
    + left. exists (x :: b ++ [c]), l2. split; [simpl; by rewrite Hl|]. exists (x :: b). set_solver.
    + right. set_solver.
Qed.

(** Lines as the loops below cut them: induction on the pieces. *)
Lemma lines_ind (c : Z) (P : list Z → Prop) :
  P [] → (∀ l, c ∉ l → l ≠ [] → P l) → (∀ l1 l2, ended c l1 → P l2 → P (l1 ++ l2)) → ∀ l, P l.
Proof.
  intros Hnil Hopen Hline l. remember (length l) as n eqn:Hn. revert l Hn.
  induction n as [n IH] using lt_wf_ind. intros l ->.
  destruct (decide (l = [])) as [->|Hne]; [done|].
  destruct (first_piece c l Hne) as [(l1 & l2 & -> & He)|Hc].
  - apply Hline; [done|]. apply (IH (length l2)); [|done]. destruct He as (b & -> & _).
    rewrite !length_app. simpl. lia.
  - by apply Hopen.
Qed.

Lemma position_ended c body rest :
  c ∉ body → position (λ b, (b =? c)%Z) (body ++ c :: rest) = Some (length body).
Proof.
  induction body as [|x body IH]; simpl; [by rewrite Z.eqb_refl|].
  intros [Hx Hb]%not_elem_of_cons. destruct (Z.eqb_spec x c); [congruence|]. by rewrite IH.
Qed.

Lemma position_none c l : c ∉ l → position (λ b, (b =? c)%Z) l = None.
Proof.
  induction l as [|x l IH]; simpl; [done|]. intros [Hx Hb]%not_elem_of_cons.
  destruct (Z.eqb_spec x c); [congruence|]. by rewrite IH.
Qed.

Lemma position_Some p l i :
  position p l = Some i → ∃ x, l !! i = Some x ∧ p x = true ∧ Forall (λ y, p y = false) (take i l).
Proof.
  revert i. induction l as [|x l IH]; simpl; intros i; [done|]. destruct (p x) eqn:Ep.
  - intros [= <-]. exists x. by repeat constructor.
  - destruct (position p l) as [j|]; simpl; [|done]. intros [= <-].
    destruct (IH j eq_refl) as (y & Hy & Hp & Hf). exists y. by repeat constructor.
Qed.

(** Moving down: the forward byte loop reads each source byte before it is
    overwritten, so it does what [copy_within] does. *)
Lemma copy_bytes_lookup len : ∀ data src dst,
  (dst ≤ src)%nat → (src + len ≤ length data)%nat →
  ∃ out, copy_bytes data src dst len = Some out ∧ length out = length data ∧
    ∀ i, out !! i = if decide (dst ≤ i < dst + len)%nat then data !! (src + (i - dst))%nat else data !! i.
Proof.
  induction len as [|len IH]; intros data src dst Hd Hs; simpl.
  { exists data. split_and!; try done. intros i. by rewrite decide_False by lia. }
  destruct (lookup_lt_is_Some_2 data src) as [b Hb]; [lia|]. rewrite Hb. simpl.
  destruct (Nat.ltb_spec dst (length data)); [|lia].
  destruct (IH (<[dst := b]> data) (S src) (S dst)) as (out & Hout & Hlen & Hi);
    [lia|rewrite length_insert; lia|].
  rewrite length_insert in Hlen. exists out. split_and!; [done|done|]. intros i. rewrite Hi.
  destruct (decide (i = dst)) as [->|Hne].
  - rewrite (decide_False (P := (S dst ≤ dst < S dst + len)%nat)) by lia.
    rewrite decide_True by lia. rewrite list_lookup_insert_eq by lia. by rewrite Nat.sub_diag, Nat.add_0_r.
  - destruct (decide (S dst ≤ i < S dst + len)%nat).
    + rewrite decide_True by lia. rewrite list_lookup_insert_ne by lia. f_equal. lia.
    + rewrite decide_False by lia. by rewrite list_lookup_insert_ne by lia.
Qed.

Lemma copy_within_lookup data start len dst :
  (start + len ≤ length data)%nat → (dst + len ≤ length data)%nat →
  ∃ out, copy_within data start len dst = Some out ∧ length out = length data ∧
    ∀ i, out !! i = if decide (dst ≤ i < dst + len)%nat then data !! (start + (i - dst))%nat else data !! i.
Proof.
  intros Hs Hd. unfold copy_within. rewrite (proj2 (Nat.leb_le _ _) Hs), (proj2 (Nat.leb_le _ _) Hd). simpl.
  eexists. split; [done|].
  assert (H1 : length (take dst data) = dst) by (rewrite length_take; lia).
  assert (H2 : length (take len (drop start data)) = len) by (rewrite length_take, length_drop; lia).
  split; [rewrite !length_app, H1, H2, length_drop; lia|]. intros i.
  destruct (decide (i < dst)%nat).
  { rewrite lookup_app_l by lia. rewrite lookup_take_lt by lia. by rewrite decide_False by lia. }
  rewrite lookup_app_r by lia. rewrite H1. destruct (decide (dst ≤ i < dst + len)%nat).
  - rewrite lookup_app_l by lia. rewrite lookup_take_lt by lia. by rewrite lookup_drop.
  - rewrite lookup_app_r by lia. rewrite H2, lookup_drop. f_equal. lia.
Qed.

Lemma copy_bytes_within data src dst len :
  (dst ≤ src)%nat → (src + len ≤ length data)%nat →
  copy_bytes data src dst len = copy_within data src len dst.
Proof.
  intros Hd Hs. destruct (copy_bytes_lookup len data src dst Hd Hs) as (o1 & -> & _ & H1).
  destruct (copy_within_lookup data src len dst) as (o2 & -> & _ & H2); [lia|lia|].
  f_equal. apply list_eq. intros i. by rewrite H1, H2.
Qed.

(** A move down over [gap], as the compaction passes make. *)
Lemma copy_within_down pre gap mid post :
  copy_within (pre ++ gap ++ mid ++ post) (length pre + length gap) (length mid) (length pre) =
    Some ((pre ++ mid) ++ drop (length pre + length mid) (pre ++ gap ++ mid ++ post)).
Proof.
  unfold copy_within. rewrite (proj2 (Nat.leb_le _ _)) by (rewrite !length_app; lia).
  rewrite (proj2 (Nat.leb_le _ _)) by (rewrite !length_app; lia). simpl.
  rewrite take_app_length. rewrite (app_assoc pre gap (mid ++ post)).
  replace (length pre + length gap)%nat with (length (pre ++ gap)) by (by rewrite length_app).
  by rewrite drop_app_length, take_app_length, <-!app_assoc.
Qed.

(** Pulling a piece down over a gap leaves a gap of the same size behind it. *)
Lemma copy_within_pull (done_ gap line rest : list Z) :
  copy_within (done_ ++ gap ++ line ++ rest) (length (done_ ++ gap)) (length line) (length done_) =
    Some ((done_ ++ line) ++ drop (length line) (gap ++ line) ++ rest).
Proof.
  rewrite length_app, copy_within_down. f_equal. f_equal.
  rewrite <-drop_drop, drop_app_length, app_assoc, drop_app_le; [done|rewrite length_app; lia].
Qed.
