(* ===== verification/HeaderBlock.v ===== *)
(** Where the header block of a raw message ends, what its lines are, and how a
    message is framed before it is queued (src/src/util/header_block/mod.rs). *)

From S2P Require Import Prelude RustStd Slices.

Local Open Scope Z_scope.

Definition TAB : Z := 9.
Definition SP : Z := 32.

Definition unterminated (line : list Z) : list Z :=
  let line := default line (strip_suffix [LF] line) in
  default line (strip_suffix [CR] line).

Definition CRLFCRLF : list Z := [CR; LF; CR; LF].

(** [split]: the block that ends at the first CRLF CRLF. *)
Definition split_block (raw : list Z) : list Z * list Z :=
  match window_position CRLFCRLF raw with
  | Some at_ => (take (at_ + 2) raw, drop (at_ + 4) raw)
  | None => (raw, [])
  end.

(** The loop of [split_at_blank_line]: [before] are the bytes up to the offset. *)
Fixpoint blank_line_loop (before : list Z) (lines : list (list Z)) : list Z * list Z :=
  match lines with
  | [] => (before, [])
  | line :: rest =>
      if is_empty (unterminated line) then (before, concat rest)
      else blank_line_loop (before ++ line) rest
  end.

Definition split_at_blank_line (raw : list Z) : list Z * list Z :=
  blank_line_loop [] (split_inclusive LF raw).

Definition line_ending (raw : list Z) : list Z :=
  match position (λ b, b =? LF) raw with
  | Some index =>
      if (0 <? index)%nat && bool_decide (raw !! (index - 1)%nat = Some CR) then [CR; LF] else [LF]
  | None => [CR; LF]
  end.

Fixpoint has_unframed_byte (data : list Z) : bool :=
  match data with
  | [] => false
  | b :: rest =>
      ((b =? NUL) || ((b =? CR) && negb (bool_decide (head rest = Some LF)))) || has_unframed_byte rest
  end.

(** Whether every LF follows a CR; [previous] is the byte before. *)
Fixpoint lf_after_cr (previous : option Z) (data : list Z) : bool :=
  match data with
  | [] => true
  | b :: rest => (negb (b =? LF) || bool_decide (previous = Some CR)) && lf_after_cr (Some b) rest
  end.

Fixpoint normalize_lf (previous : option Z) (data : list Z) : list Z :=
  match data with
  | [] => []
  | b :: rest =>
      (if (b =? LF) && negb (bool_decide (previous = Some CR)) then [CR] else []) ++
      b :: normalize_lf (Some b) rest
  end.

Definition outbound_crlf (data : list Z) : list Z :=
  if ends_with [CR; LF] data && lf_after_cr None data then data
  else
    let normalized := normalize_lf None data in
    if ends_with [CR; LF] normalized then normalized else normalized ++ [CR; LF].

Fixpoint frame_loop (data : list Z) : list Z :=
  match data with
  | [] => []
  | b :: rest =>
      if b =? NUL then frame_loop rest
      else if b =? CR then
        [CR; LF] ++ match rest with
                    | x :: rest' => if x =? LF then frame_loop rest' else frame_loop rest
                    | [] => []
                    end
      else if b =? LF then [CR; LF] ++ frame_loop rest
      else b :: frame_loop rest
  end.

Definition frame_generated (data : list Z) : list Z :=
  if negb (has_unframed_byte data) then outbound_crlf data else outbound_crlf (frame_loop data).

Definition header_lines (block : list Z) : list (list Z) := map unterminated (split_inclusive LF block).

Definition continues (line : list Z) : bool :=
  match line with b :: _ => (b =? SP) || (b =? TAB) | [] => false end.

Definition begins_field (line : list Z) : bool := negb (is_empty line) && negb (continues line).

Definition field_count (raw : list Z) : nat :=
  length (List.filter begins_field (header_lines (split_block raw).1)).

(** ** Framing *)

(** Text every SMTP server reads alike: no NUL, every CR before an LF, every
    LF after a CR. *)
Inductive framed_text : list Z → Prop :=
| framed_nil : framed_text []
| framed_crlf rest : framed_text rest → framed_text (CR :: LF :: rest)
| framed_byte b rest : b ≠ CR → b ≠ LF → b ≠ NUL → framed_text rest → framed_text (b :: rest).

Lemma framed_text_app l1 l2 : framed_text l1 → framed_text l2 → framed_text (l1 ++ l2).
Proof. induction 1; simpl; eauto using framed_text. Qed.

Lemma framed_text_spec data :
  framed_text data ↔ has_unframed_byte data = false ∧ lf_after_cr None data = true.
Proof.
  assert (Hgen : ∀ n data, (length data ≤ n)%nat →
    framed_text data ↔ has_unframed_byte data = false ∧ lf_after_cr None data = true).
  { clear data. induction n as [|n IH]; intros data Hn.
    { destruct data; [|simpl in Hn; lia]. split; [done|constructor]. }
    destruct data as [|b rest]; [split; [done|constructor]|].
    assert (Hprev : ∀ p data, p ≠ Some CR → lf_after_cr p data = lf_after_cr None data).
    { intros p [|x d] Hp; simpl; [done|]. by rewrite !bool_decide_false by congruence. }
    split.
    - intros Hf. inversion Hf as [|r Hr|b' r H1 H2 H3 Hr]; subst.
      + simpl in Hn. apply IH in Hr as [Hu Hl]; [|simpl in *; lia]. simpl. rewrite Hu.
        split; [done|]. by rewrite Hprev.
      + simpl in Hn. apply IH in Hr as [Hu Hl]; [|lia]. simpl. rewrite Hu, (Hprev (Some b)) by congruence.
        destruct (Z.eqb_spec b NUL), (Z.eqb_spec b CR), (Z.eqb_spec b LF); done.
    - simpl. intros [Hu Hl]. apply orb_false_iff in Hu as [Hb Hu]. apply andb_true_iff in Hl as [Hlf Hl].
      apply orb_false_iff in Hb as [H0 Hcr]. apply Z.eqb_neq in H0.
      destruct (Z.eqb_spec b LF) as [|Hlf']; [done|]. simpl in Hn.
      destruct (Z.eqb_spec b CR) as [->|Hne]; simpl in Hcr.
      + apply negb_false_iff, bool_decide_eq_true in Hcr. destruct rest as [|x rest]; [done|].
        injection Hcr as ->. constructor. simpl in Hu, Hl, Hn. apply IH; [lia|].
        rewrite (Hprev (Some LF)) in Hl by done. done.
      + constructor; try done. apply IH; [lia|]. rewrite (Hprev (Some b)) in Hl by congruence. done. }
  by apply (Hgen (length data)).
Qed.

Lemma normalize_lf_spec p data :
  has_unframed_byte data = false → p ≠ Some CR → framed_text (normalize_lf p data).
Proof.
  remember (length data) as n eqn:En. revert p data En.
  induction n as [n IH] using lt_wf_ind. intros p data -> Hu Hp.
  destruct data as [|b rest]; [constructor|]. simpl in Hu.
  apply orb_false_iff in Hu as [Hb Hu]. apply orb_false_iff in Hb as [Hnul Hcr]. apply Z.eqb_neq in Hnul.
  simpl. destruct (Z.eqb_spec b LF) as [->|Hlf]; simpl.
  - rewrite bool_decide_false by done. simpl. constructor. apply (IH (length rest)); simpl; auto.
  - destruct (Z.eqb_spec b CR) as [->|Hne]; simpl in Hcr.
    + apply negb_false_iff, bool_decide_eq_true in Hcr. destruct rest as [|x rest]; [done|].
      injection Hcr as ->. simpl. constructor. apply (IH (length rest)); simpl; auto.
    + constructor; [done..|]. apply (IH (length rest)); simpl; auto. congruence.
Qed.

Lemma frame_loop_framed data : framed_text (frame_loop data).
Proof.
  remember (length data) as n eqn:En. revert data En.
  induction n as [n IH] using lt_wf_ind. intros data ->.
  destruct data as [|b rest]; [constructor|]. simpl.
  assert (Hrest : framed_text (frame_loop rest)) by (apply (IH (length rest)); simpl; auto).
  destruct (Z.eqb_spec b NUL); [done|].
  destruct (Z.eqb_spec b CR).
  - constructor. destruct rest as [|x rest']; [constructor|].
    destruct (Z.eqb_spec x LF); [|done]. apply (IH (length rest')); simpl; auto.
  - destruct (Z.eqb_spec b LF); by constructor.
Qed.

Lemma framed_text_snoc_crlf data : framed_text data → framed_text (data ++ [CR; LF]).
Proof. intros Hf. apply framed_text_app; [done|]. repeat constructor. Qed.

(** Text that is framed already is left as it is, up to a final line ending. *)
Lemma normalize_lf_framed p data :
  framed_text data → p ≠ Some CR → normalize_lf p data = data.
Proof.
  intros Hf. revert p. induction Hf as [|rest Hr IH|b rest H1 H2 H3 Hr IH]; intros p Hp; [done| |].
  - simpl. by rewrite IH.
  - simpl. destruct (Z.eqb_spec b LF); [done|]. simpl. rewrite IH; [done|congruence].
Qed.

Lemma outbound_crlf_framed data :
  has_unframed_byte data = false →
  framed_text (outbound_crlf data) ∧ ends_with [CR; LF] (outbound_crlf data) = true.
Proof.
  intros Hu. unfold outbound_crlf. destruct (ends_with [CR; LF] data && lf_after_cr None data) eqn:E.
  - apply andb_true_iff in E as [He Hl]. split; [|done]. by apply framed_text_spec.
  - pose proof (normalize_lf_spec None data Hu ltac:(done)) as Hf.
    destruct (ends_with [CR; LF] (normalize_lf None data)) eqn:En; [done|].
    split; [by apply framed_text_snoc_crlf|].
    unfold ends_with. by rewrite rev_app_distr.
Qed.

(** A message the server generates is always fit for DATA, whatever it quotes,
    and one that is fit already is queued byte for byte. *)
Lemma frame_generated_framed data :
  framed_text (frame_generated data) ∧ ends_with [CR; LF] (frame_generated data) = true.
Proof.
  unfold frame_generated. destruct (has_unframed_byte data) eqn:E; simpl.
  - apply outbound_crlf_framed. by apply framed_text_spec, frame_loop_framed.
  - by apply outbound_crlf_framed.
Qed.

Lemma outbound_crlf_id data :
  framed_text data → ends_with [CR; LF] data = true → outbound_crlf data = data.
Proof. intros [_ Hl]%framed_text_spec He. unfold outbound_crlf. by rewrite He, Hl. Qed.

(** The bytes that are not framing. *)
Definition text_byte (b : Z) : bool := negb ((b =? CR) || (b =? LF) || (b =? NUL)).

Lemma filter_text_frame_loop data :
  List.filter text_byte (frame_loop data) = List.filter text_byte data.
Proof.
  remember (length data) as n eqn:En. revert data En.
  induction n as [n IH] using lt_wf_ind. intros data ->. destruct data as [|b rest]; [done|].
  assert (Hrest : List.filter text_byte (frame_loop rest) = List.filter text_byte rest)
    by (apply (IH (length rest)); simpl; auto).
  cbn [frame_loop]. destruct (Z.eqb_spec b NUL) as [->|H0]; [done|].
  destruct (Z.eqb_spec b CR) as [->|H1].
  - destruct rest as [|x rest']; [done|]. destruct (Z.eqb_spec x LF) as [->|Hx]; [|exact Hrest].
    simpl. apply (IH (length rest')); simpl; auto.
  - destruct (Z.eqb_spec b LF) as [->|H2]; [exact Hrest|].
    assert (Hb : text_byte b = true)
      by (unfold text_byte; destruct (Z.eqb_spec b CR), (Z.eqb_spec b LF), (Z.eqb_spec b NUL); done).
    simpl. rewrite Hb. by rewrite Hrest.
Qed.

Lemma filter_text_normalize p data :
  List.filter text_byte (normalize_lf p data) = List.filter text_byte data.
Proof.
  revert p. induction data as [|b rest IH]; intros p; [done|]. cbn [normalize_lf].
  destruct (Z.eqb_spec b LF) as [->|]; cbn [andb].
  - destruct (negb _); simpl; by rewrite IH.
  - simpl. by rewrite IH.
Qed.

Lemma filter_text_outbound data :
  List.filter text_byte (outbound_crlf data) = List.filter text_byte data.
Proof.
  unfold outbound_crlf. destruct (_ && _); [done|].
  destruct (ends_with _ _); [apply filter_text_normalize|].
  rewrite List.filter_app. simpl. by rewrite app_nil_r, filter_text_normalize.
Qed.

(** ** The two header blocks *)

Lemma split_inclusive_app c l1 l2 :
  (l1 = [] ∨ last l1 = Some c) → split_inclusive c (l1 ++ l2) = split_inclusive c l1 ++ split_inclusive c l2.
Proof.
  revert l1. apply (lines_ind c (λ l1, (l1 = [] ∨ last l1 = Some c) → _)).
  - done.
  - intros l Hc _ [->|Hl]; [done|]. apply last_Some in Hl as [l' ->]. set_solver.
  - intros a b Ha IH Hl. rewrite <-app_assoc, !(split_inclusive_ended c a) by done. simpl. f_equal.
    apply IH. destruct Hl as [Hl|Hl]; [left; by destruct b; [|destruct a]|].
    destruct b as [|y b]; [by left|right]. by rewrite last_app in Hl; destruct (last (y :: b)) eqn:E; [|by apply last_None in E].
Qed.

(** The loop stops at the first empty line, or at the end. *)
Lemma blank_line_loop_spec before lines :
  ∃ pre post, lines = pre ++ post ∧ (blank_line_loop before lines).1 = before ++ concat pre ∧
    Forall (λ l, is_empty (unterminated l) = false) pre ∧
    match post with l :: _ => is_empty (unterminated l) = true | [] => True end.
Proof.
  revert before. induction lines as [|l lines IH]; intros before; simpl.
  { exists [], []. simpl. rewrite app_nil_r. by repeat constructor. }
  destruct (is_empty (unterminated l)) eqn:El.
  - exists [], (l :: lines). simpl. rewrite app_nil_r. split_and!; [done|done|constructor|done].
  - destruct (IH (before ++ l)) as (pre & post & -> & -> & Hf & Hp). exists (l :: pre), post.
    split; [done|]. split; [simpl; by rewrite app_assoc|]. split; [by constructor|done].
Qed.

Lemma window_position_Some w l i :
  window_position w l = Some i → ∃ a b, l = a ++ w ++ b ∧ length a = i.
Proof.
  revert i. induction l as [|x l IH]; intros i; cbn [window_position]; [done|].
  destruct (starts_with w (x :: l)) eqn:E.
  - intros [= <-]. exists []. revert E. generalize (x :: l). clear. intros l.
    revert w. induction l as [|y l IH]; intros [|z w]; simpl; intros E; try done.
    + by exists [].
    + by exists (y :: l).
    + apply andb_true_iff in E as [->%Z.eqb_eq E]. apply IH in E as (b & E & _). exists b. by rewrite E.
  - destruct (window_position w l) as [j|]; simpl; [|done]. intros [= <-].
    destruct (IH j eq_refl) as (a & b & -> & Ha). exists (x :: a), b. simpl. by rewrite Ha.
Qed.

Lemma split_inclusive_prefix c raw pre post :
  split_inclusive c raw = pre ++ post → split_inclusive c (concat pre) = pre.
Proof.
  revert raw pre. apply (lines_ind c (λ raw, ∀ pre, split_inclusive c raw = pre ++ post → _)).
  - intros pre Hs. destruct pre; [done|done].
  - intros l Hc Hne pre. rewrite split_inclusive_open by done. destruct pre as [|p pre]; [done|].
    intros [= <- Hp]. destruct pre; [|done]. simpl. rewrite app_nil_r. by apply split_inclusive_open.
  - intros l1 l2 He IH pre. rewrite split_inclusive_ended by done. destruct pre as [|p pre]; [done|].
    intros [= <- Hp]. simpl. rewrite split_inclusive_ended by done. f_equal. by apply IH.
Qed.

(** The lines of the shorter block are the first lines of the longer one. *)
Lemma blank_line_block_prefix raw :
  ∃ more, header_lines (split_block raw).1 = header_lines (split_at_blank_line raw).1 ++ more.
Proof.
  unfold split_at_blank_line.
  destruct (blank_line_loop_spec [] (split_inclusive LF raw)) as (pre & post & Hs & -> & Hpre & Hpost).
  simpl. unfold header_lines. rewrite (split_inclusive_prefix _ _ _ _ Hs).
  unfold split_block. destruct (window_position CRLFCRLF raw) as [at_|] eqn:Ew.
  2: { cbn [fst]. rewrite Hs, map_app. by eexists. }
  cbn [fst]. apply window_position_Some in Ew as (a & b & -> & Ha).
  assert (Ht : take (at_ + 2) (a ++ CRLFCRLF ++ b) = a ++ [CR; LF]).
  { rewrite take_app_ge by lia. replace (at_ + 2 - length a)%nat with 2%nat by lia. done. }
  rewrite Ht. change (CRLFCRLF ++ b) with ([CR; LF] ++ [CR; LF] ++ b) in Hs.
  rewrite app_assoc, split_inclusive_app in Hs by (right; by rewrite last_app).
  change (split_inclusive LF ([CR; LF] ++ b)) with ([CR; LF] :: split_inclusive LF b) in Hs.
  (* the empty line of CRLF CRLF is not among the leading non-empty ones *)
  assert (Hle : (length pre ≤ length (split_inclusive LF (a ++ [CR; LF])))%nat).
  { destruct (decide (length pre ≤ length (split_inclusive LF (a ++ [CR; LF])))%nat) as [|Hgt]; [done|exfalso].
    assert (Hin : pre !! length (split_inclusive LF (a ++ [CR; LF])) = Some [CR; LF]).
    { rewrite <-(lookup_app_l pre post) by lia. rewrite <-Hs. by rewrite list_lookup_middle. }
    apply list_elem_of_lookup_2 in Hin. rewrite Forall_forall in Hpre. by apply Hpre in Hin. }
  exists (map unterminated (drop (length pre) (split_inclusive LF (a ++ [CR; LF])))).
  rewrite <-map_app. f_equal.
  rewrite <-(take_drop (length pre) (split_inclusive LF (a ++ [CR; LF]))) at 1. f_equal.
  apply (f_equal (take (length pre))) in Hs. rewrite take_app_length, take_app_le in Hs by done. done.
Qed.

(** A message the server generates is fit for the wire whatever it quotes.
    The framed message has no NUL, no CR or LF outside a CRLF, and ends with
    one; its text is what it was given; and framing it again changes nothing. *)
Theorem generated_message_framed (data : list Z) :
  let out := frame_generated data in
  framed_text out ∧ ends_with [CR; LF] out = true ∧
  List.filter text_byte out = List.filter text_byte data ∧ frame_generated out = out.
Proof.
  intros out. destruct (frame_generated_framed data) as [Hf He]. fold out in Hf, He.
  split_and!; [done|done| |].
  - subst out. unfold frame_generated. destruct (negb _); rewrite filter_text_outbound; [done|].
    apply filter_text_frame_loop.
  - unfold frame_generated. pose proof Hf as [Hu _]%framed_text_spec. rewrite Hu. by apply outbound_crlf_id.
Qed.

(** No field can hide from the count of header fields: the lines of the
    block that ends at the first empty line, however that line is ended, are
    the first lines of the block the count is made over. *)
Theorem field_count_covers_readers (raw : list Z) :
  ∃ more,
    header_lines (split_block raw).1 = header_lines (split_at_blank_line raw).1 ++ more ∧
    field_count raw =
      (length (List.filter begins_field (header_lines (split_at_blank_line raw).1)) +
       length (List.filter begins_field more))%nat.
Proof.
  destruct (blank_line_block_prefix raw) as [more Hm]. exists more. split; [done|].
  unfold field_count. by rewrite Hm, List.filter_app, length_app.
Qed.
