(* ===== verification/HeaderRewrite.v ===== *)
(** The header rewriting of src/src/smtp/trace/mod.rs: the name of a field as
    the readers after this server read it, the rewrite that drops fields, and
    its in-place version, which compacts the message inside its own buffer. *)

From S2P Require Import Prelude RustStd Utf8 Slices HeaderBlock.

Local Open Scope Z_scope.

Definition COLON : Z := 58.

(** ** Field names *)

Definition name_start (line : list Z) : nat :=
  default (length line) (position (λ b, negb (b =? COLON) && negb (is_ascii_whitespace b)) line).

Definition fold_trailing_space (name : list Z) : list Z :=
  match from_utf8 name with
  | None => name
  | Some text => as_bytes (trim_end text)
  end.

(** [trim_ascii_end]. *)
Definition trim_ascii_end (l : list Z) : list Z := trim_end_matches is_ascii_whitespace l.

Definition split_field_from (line : list Z) (offset : nat) : option (list Z * list Z) :=
  if (offset <=? length line)%nat then
    let rest := drop offset line in
    end_ ← position (λ b, b =? COLON) rest;
    Some (fold_trailing_space (trim_ascii_end (take end_ rest)), drop (S end_) rest)
  else None.

Definition split_field (line : list Z) : option (list Z * list Z) :=
  split_field_from line (name_start line).

Definition field_name (line : list Z) : option (list Z) := fst <$> split_field line.

Definition same_name (name wanted : list Z) : bool :=
  eq_ignore_ascii_case (List.filter (λ b, negb (is_ascii_whitespace b)) name)
    (List.filter (λ b, negb (is_ascii_whitespace b)) wanted).

Definition named (name : list Z) (names : list (list Z)) : bool := existsb (same_name name) names.

(** ** The rewrite

    [keep] is an [FnMut]: it carries a state [S]. *)
Section rewrite.
Context {S : Type} (keep : S → list Z → S * bool).

(** One line: the state, whether its field is being dropped, and whether the
    line stays. *)
Definition rewrite_line (st : S) (dropping : bool) (line : list Z) : S * bool :=
  if continues line then (st, dropping)
  else match field_name line with
       | Some name => let '(st, kept) := keep st name in (st, negb kept)
       | None => (st, false)
       end.

Fixpoint rewrite_lines (st : S) (dropping : bool) (lines : list (list Z)) (out : list Z) : list Z :=
  match lines with
  | [] => out
  | line :: lines =>
      let '(st, dropping) := rewrite_line st dropping line in
      rewrite_lines st dropping lines (if dropping then out else out ++ line)
  end.

Definition header_block_end (data : list Z) : nat := length (split_at_blank_line data).1.

Definition rewrite_header_block (st : S) (data : list Z) : list Z :=
  let header_end := header_block_end data in
  rewrite_lines st false (split_inclusive LF (take header_end data)) [] ++ drop header_end data.

(** ** In place *)

Record Kept := mkKept { offset : nat; length_of : nat }.

(** The end of the line at [start]: past its LF, or [header_end]. *)
Definition line_end_before (data : list Z) (header_end start : nat) : nat :=
  match position (λ b, b =? LF) (drop start (take header_end data)) with
  | Some i => (start + i + 1)%nat
  | None => header_end
  end.

(** The first loop; [fuel] bounds the iterations, of which there are at most
    [header_end]. *)
Fixpoint scan_kept (fuel : nat) (data : list Z) (header_end : nat) (st : S) (dropping : bool)
    (cursor : nat) (kept : list Kept) : option (list Kept) :=
  if (cursor <? header_end)%nat then
    match fuel with
    | O => None
    | Datatypes.S fuel =>
        let line_end := line_end_before data header_end cursor in
        let line := take (line_end - cursor) (drop cursor data) in
        let '(st, dropping) := rewrite_line st dropping line in
        scan_kept fuel data header_end st dropping line_end
          (if dropping then kept else kept ++ [mkKept cursor (length line)])
    end
  else Some kept.

Fixpoint compact (data : list Z) (write_to : nat) (kept : list Kept) : option (list Z * nat) :=
  match kept with
  | [] => Some (data, write_to)
  | k :: kept =>
      data ← (if (offset k <=? write_to)%nat
              then copy_bytes data (offset k) write_to (length_of k)
              else copy_within data (offset k) (length_of k) write_to);
      compact data (write_to + length_of k) kept
  end.

(** The body moves up to follow the kept lines: in one copy when it fits
    before the old end of the header, else in two parts. *)
Definition move_body (data : list Z) (header_end write_to : nat) : option (list Z) :=
  let body_len := (length data - header_end)%nat in
  if (0 <? body_len)%nat then
    let left := take header_end data in
    let right := drop header_end data in
    if (write_to + body_len <=? header_end)%nat
    then Some (take write_to left ++ right ++ drop (write_to + body_len) left ++ right)
    else
      let head := (header_end - write_to)%nat in
      right' ← copy_within right head (body_len - head) 0;
      Some (take write_to left ++ take head right ++ right')
  else Some data.

Definition rewrite_header_block_in_place (st : S) (data : list Z) : option (list Z) :=
  let header_end := header_block_end data in
  kept ← scan_kept header_end data header_end st false 0 [];
  '(data', write_to) ← compact data 0 kept;
  data'' ← move_body data' header_end write_to;
  Some (take (write_to + (length data - header_end)) data'').

End rewrite.

(** ** Its uses *)

Definition strip_headers (data : list Z) (names : list (list Z)) : list Z :=
  rewrite_header_block (λ _ name, (tt, negb (named name names))) tt data.
Definition strip_headers_in_place (data : list Z) (names : list (list Z)) : option (list Z) :=
  rewrite_header_block_in_place (λ _ name, (tt, negb (named name names))) tt data.

Definition BCC_NAMES : list (list Z) := [lit "bcc"; lit "resent-bcc"].
Definition strip_bcc (data : list Z) : list Z := strip_headers data BCC_NAMES.
Definition strip_bcc_in_place (data : list Z) : option (list Z) := strip_headers_in_place data BCC_NAMES.

(** The closure of [keep_first_of_each_in_place]: [seen] per wanted name. *)
Fixpoint first_of (name : list Z) (names : list (list Z)) (seen : list bool) : list bool * bool :=
  match names, seen with
  | wanted :: names, s :: seen =>
      if named name [wanted] then (true :: seen, negb s)
      else let '(seen, r) := first_of name names seen in (s :: seen, r)
  | _, _ => (seen, true)
  end.
Definition keep_first_of_each_in_place (data : list Z) (names : list (list Z)) : option (list Z) :=
  rewrite_header_block_in_place (λ seen name, first_of name names seen)
    (replicate (length names) false) data.

(** ** The in-place rewrite is the rewrite *)

Section equivalence.
Context {S : Type} (keep : S → list Z → S * bool).

(** Which lines stay. *)
Fixpoint keeps (st : S) (dropping : bool) (lines : list (list Z)) : list bool :=
  match lines with
  | [] => []
  | line :: lines =>
      let '(st, dropping) := rewrite_line keep st dropping line in
      negb dropping :: keeps st dropping lines
  end.

Fixpoint selected (flags : list bool) (lines : list (list Z)) : list Z :=
  match flags, lines with
  | f :: flags, line :: lines => (if f then line else []) ++ selected flags lines
  | _, _ => []
  end.

Fixpoint kept_at (cursor : nat) (flags : list bool) (lines : list (list Z)) : list Kept :=
  match flags, lines with
  | f :: flags, line :: lines =>
      (if f : bool then [mkKept cursor (length line)] else []) ++ kept_at (cursor + length line) flags lines
  | _, _ => []
  end.

Lemma rewrite_lines_selected st dropping lines out :
  rewrite_lines keep st dropping lines out = out ++ selected (keeps st dropping lines) lines.
Proof.
  revert st dropping out. induction lines as [|line lines IH]; intros st dropping out; simpl.
  { by rewrite app_nil_r. }
  destruct (rewrite_line keep st dropping line) as [st' d']. rewrite IH. destruct d'; simpl; [done|].
  by rewrite app_assoc.
Qed.

(** The line at the cursor, inside the block. *)
Lemma line_end_ended pre line rest body :
  ended LF line →
  line_end_before (pre ++ (line ++ rest) ++ body) (length (pre ++ line ++ rest)) (length pre) =
    length (pre ++ line).
Proof.
  intros (l & Heq & Hl). unfold line_end_before. rewrite (app_assoc pre (line ++ rest) body), take_app_length.
  rewrite drop_app_length, Heq, <-app_assoc. cbn [app]. rewrite position_ended by done.
  rewrite !length_app. simpl. lia.
Qed.

Lemma line_end_open pre line body :
  LF ∉ line → line_end_before (pre ++ line ++ body) (length (pre ++ line)) (length pre) = length (pre ++ line).
Proof.
  intros Hl. unfold line_end_before. rewrite app_assoc, take_app_length, drop_app_length.
  by rewrite position_none.
Qed.

Lemma take_line (pre line rest : list Z) :
  take (length (pre ++ line) - length pre) (drop (length pre) (pre ++ line ++ rest)) = line.
Proof. rewrite drop_app_length, length_app. replace (_ + _ - _)%nat with (length line) by lia. by rewrite take_app_length. Qed.

Lemma scan_kept_spec suf : ∀ fuel pre body st dropping kept,
  (length suf ≤ fuel)%nat →
  scan_kept keep fuel (pre ++ suf ++ body) (length (pre ++ suf)) st dropping (length pre) kept =
    Some (kept ++ kept_at (length pre) (keeps st dropping (split_inclusive LF suf)) (split_inclusive LF suf)).
Proof.
  induction suf as [|line Hl Hne|line rest He IH] using (lines_ind LF); intros fuel pre body st dropping kept Hf.
  - rewrite app_nil_r. destruct fuel; simpl; rewrite Nat.ltb_irrefl, app_nil_r; done.
  - destruct fuel as [|fuel]; [destruct line; simpl in *; [done|lia]|]. cbn [scan_kept].
    rewrite (proj2 (Nat.ltb_lt _ _)) by (rewrite length_app; destruct line; [done|simpl; lia]).
    rewrite line_end_open, take_line by done. rewrite split_inclusive_open by done. cbn [keeps].
    destruct (rewrite_line keep st dropping line) as [st' d']. cbn [kept_at app].
    destruct fuel; cbn [scan_kept]; rewrite Nat.ltb_irrefl; destruct d'; by rewrite ?app_nil_r.
  - destruct fuel as [|fuel]; [destruct He as (b & -> & _); rewrite !length_app in Hf; simpl in Hf; lia|].
    assert (Hpos : (0 < length line)%nat) by (destruct He as (b & -> & _); rewrite length_app; simpl; lia).
    cbn [scan_kept]. rewrite (proj2 (Nat.ltb_lt _ _)) by (rewrite !length_app; lia).
    rewrite line_end_ended by done. rewrite <-(app_assoc line rest body), take_line.
    rewrite split_inclusive_ended by done. cbn [keeps].
    destruct (rewrite_line keep st dropping line) as [st' d']. cbn [kept_at].
    replace (pre ++ line ++ rest ++ body) with ((pre ++ line) ++ rest ++ body) by (by rewrite <-!app_assoc).
    rewrite (app_assoc pre line rest). rewrite IH by (rewrite length_app in Hf; lia).
    rewrite length_app. destruct d'; cbn [negb app]; [done|]. by rewrite <-app_assoc.
Qed.

Lemma compact_spec lines : ∀ flags done_ gap body,
  length flags = length lines →
  ∃ gap', (length gap' + length (selected flags lines) = length gap + length (concat lines))%nat ∧
    compact (done_ ++ gap ++ concat lines ++ body) (length done_)
      (kept_at (length (done_ ++ gap)) flags lines) =
    Some ((done_ ++ selected flags lines) ++ gap' ++ body, length (done_ ++ selected flags lines)).
Proof.
  induction lines as [|line lines IH]; intros [|f flags] done_ gap body Hlen; try done.
  { exists gap. cbn. by rewrite app_nil_r. }
  injection Hlen as Hlen. cbn [kept_at selected concat]. destruct f; cbn [app].
  - set (rest := concat lines ++ body).
    assert (Hcopy : (if (offset (mkKept (length (done_ ++ gap)) (length line)) <=? length done_)%nat
      then copy_bytes (done_ ++ gap ++ line ++ rest) (length (done_ ++ gap)) (length done_) (length line)
      else copy_within (done_ ++ gap ++ line ++ rest) (length (done_ ++ gap)) (length line) (length done_)) =
      Some ((done_ ++ line) ++ drop (length line) (gap ++ line) ++ rest)).
    { destruct (_ <=? _)%nat; [rewrite copy_bytes_within by (rewrite !length_app; lia)|];
        apply copy_within_pull. }
    destruct (IH flags (done_ ++ line) (drop (length line) (gap ++ line)) body Hlen) as (gap' & Hg & Hc).
    exists gap'. split.
    { rewrite length_drop in Hg. rewrite !length_app in *. lia. }
    rewrite <-(app_assoc line (concat lines) body). fold rest. cbn [compact app]. cbn [offset length_of] in Hcopy |- *.
    rewrite Hcopy. cbn. rewrite <-length_app.
    replace (length (done_ ++ gap) + length line)%nat
      with (length ((done_ ++ line) ++ drop (length line) (gap ++ line)))
      by (rewrite !length_app, length_drop, length_app; lia).
    subst rest. rewrite Hc. by rewrite <-!app_assoc.
  - destruct (IH flags done_ (gap ++ line) body Hlen) as (gap' & Hg & Hc). exists gap'. split.
    { rewrite !length_app in *. lia. }
    replace (length (done_ ++ gap) + length line)%nat with (length (done_ ++ gap ++ line))
      by (rewrite !length_app; lia).
    rewrite <-!app_assoc in *. exact Hc.
Qed.

Lemma keeps_length st dropping lines : length (keeps st dropping lines) = length lines.
Proof.
  revert st dropping. induction lines as [|line lines IH]; intros st dropping; simpl; [done|].
  destruct (rewrite_line keep st dropping line) as [st' d']. simpl. by rewrite IH.
Qed.

Lemma move_body_spec done_ gap body :
  ∃ data, move_body (done_ ++ gap ++ body) (length (done_ ++ gap)) (length done_) = Some data ∧
    take (length done_ + length body) data = done_ ++ body.
Proof.
  unfold move_body. rewrite app_assoc, take_app_length, drop_app_length.
  replace (length ((done_ ++ gap) ++ body) - length (done_ ++ gap))%nat with (length body)
    by (rewrite !length_app; lia).
  assert (Htake : ∀ more, take (length done_ + length body) (done_ ++ body ++ more) = done_ ++ body).
  { intros more. by rewrite app_assoc, <-length_app, take_app_length. }
  destruct (Nat.ltb_spec 0 (length body)).
  2: { destruct body; [|simpl in *; lia]. eexists. split; [done|]. rewrite !app_nil_r. simpl.
       by rewrite Nat.add_0_r, take_app_length. }
  destruct (Nat.leb_spec (length done_ + length body) (length (done_ ++ gap))).
  { eexists. split; [done|]. rewrite take_app_length. apply Htake. }
  replace (length (done_ ++ gap) - length done_)%nat with (length gap) by (rewrite length_app; lia).
  unfold copy_within. rewrite (proj2 (Nat.leb_le _ _)) by (rewrite !length_app in *; lia).
  rewrite (proj2 (Nat.leb_le _ _)) by (rewrite !length_app in *; lia). simpl.
  eexists. split; [done|]. rewrite take_app_length.
  rewrite (take_ge (drop (length gap) body)) by (rewrite length_drop; lia).
  rewrite (app_assoc (take (length gap) body)), take_drop. apply Htake.
Qed.

Lemma split_at_blank_line_prefix data :
  ∃ body, data = (split_at_blank_line data).1 ++ body.
Proof.
  unfold split_at_blank_line.
  destruct (blank_line_loop_spec [] (split_inclusive LF data)) as (pre & post & Hs & -> & _).
  exists (concat post). simpl. rewrite <-concat_app, <-Hs. by rewrite concat_split_inclusive.
Qed.

End equivalence.

Lemma rewrite_in_place_spec {S : Type} (keep : S → list Z → S * bool) (st : S) (data : list Z) :
  rewrite_header_block_in_place keep st data = Some (rewrite_header_block keep st data).
Proof.
  unfold rewrite_header_block_in_place, rewrite_header_block, header_block_end.
  destruct (split_at_blank_line_prefix data) as [body Hd].
  set (block := (split_at_blank_line data).1) in *. rewrite Hd. clearbody block. clear Hd data.
  rewrite take_app_length, drop_app_length, rewrite_lines_selected. cbn [app].
  pose proof (scan_kept_spec keep block (length block) [] body st false [] ltac:(lia)) as Hscan.
  cbn [app length] in Hscan. rewrite Hscan. cbn.
  destruct (compact_spec (split_inclusive LF block) (keeps keep st false (split_inclusive LF block)) [] [] body)
    as (gap & Hg & Hc); [apply keeps_length|].
  cbn [app length] in Hc. rewrite concat_split_inclusive in Hc, Hg. rewrite Hc. cbn.
  set (sel := selected _ _) in *.
  destruct (move_body_spec sel gap body) as (out & Hm & Ht).
  replace (length block) with (length (sel ++ gap)) by (rewrite length_app; simpl in Hg; lia).
  rewrite Hm. cbn. f_equal.
  replace (length (block ++ body) - length (sel ++ gap))%nat with (length body)
    by (rewrite !length_app; simpl in Hg; lia).
  exact Ht.
Qed.

(** Rewriting the header inside the message's own buffer gives what the
    copying rewrite gives, for every rule about which fields to keep: no index
    is out of range, no byte is read after it was overwritten, and the body
    follows the kept fields unchanged. *)
Theorem rewrite_in_place_equivalent {S : Type} (keep : S → list Z → S * bool) (st : S) (data : list Z) :
  rewrite_header_block_in_place keep st data = Some (rewrite_header_block keep st data).
Proof. apply rewrite_in_place_spec. Qed.
