(* ===== verification/HeaderStrip.v ===== *)
(** Reading header fields back, and what the rewrite does to what is read:
    [header_values], the trace headers and the submission stamp of
    src/src/smtp/trace/mod.rs. *)

From S2P Require Import Prelude RustStd Utf8 Slices HeaderBlock HeaderRewrite.

Local Open Scope Z_scope.

(** ** Reading values *)

(** [values.last_mut()], when there is one. *)
Definition push_last (values : list (list Z)) (more : list Z) : list (list Z) :=
  match rev values with
  | [] => []
  | v :: rest => rev rest ++ [v ++ more]
  end.

Fixpoint values_loop (name : list Z) (lines : list (list Z)) (collecting : bool)
    (values : list (list Z)) : list (list Z) :=
  match lines with
  | [] => values
  | line :: lines =>
      if continues line then
        values_loop name lines collecting
          (if collecting then push_last values (SP :: trim (from_utf8_lossy line)) else values)
      else
        match split_field line with
        | Some (field, value) =>
            if same_name field name
            then values_loop name lines true (values ++ [trim (from_utf8_lossy value)])
            else values_loop name lines false values
        | None => values_loop name lines false values
        end
  end.

Definition header_values (data name : list Z) : list (list Z) :=
  map trim (values_loop name (split_inclusive LF (take (header_block_end data) data)) false []).

(** ** Received headers *)

Definition RECEIVED_HOP_LIMIT : Z := 100.

(** A line that starts a Received field; [None] is the panic of [line[..9]]
    when the ninth byte is inside a character. *)
Definition received_line (line : list Z) : option bool :=
  if continues line || (str_len line <? 9)%nat then Some false
  else match split_at_byte 9 line with
       | Some (start, _) => Some (eq_ignore_ascii_case start (lit "received:"))
       | None => None
       end.

Fixpoint count_received (lines : list (list Z)) : option Z :=
  match lines with
  | [] => Some 0
  | line :: lines =>
      hit ← received_line line;
      n ← count_received lines;
      Some (if hit : bool then n + 1 else n)
  end.

Definition received_hop_count (data : list Z) : option Z :=
  let header_end :=
    match window_position CRLFCRLF data with
    | Some p => (p + 2)%nat
    | None => length data
    end in
  count_received (split_inclusive LF (from_utf8_lossy (take header_end data))).

Definition received_protocol (esmtp tls auth : bool) : list Z :=
  if negb esmtp then lit "SMTP"
  else match tls, auth with
       | true, true => lit "ESMTPSA"
       | true, false => lit "ESMTPS"
       | false, true => lit "ESMTPA"
       | false, false => lit "ESMTP"
       end.

(** [received_header]; the peer and the date come printed. *)
Definition received_header (helo peer : option (list Z)) (hostname : list Z) (esmtp tls auth : bool)
    (date : list Z) : list Z :=
  lit "Received: from " ++ default (lit "unknown") helo ++ lit " (" ++
  match peer with Some ip => lit "[" ++ ip ++ lit "]" | None => lit "[unknown]" end ++
  lit ")" ++ [CR; LF; TAB] ++ lit "by " ++ hostname ++ lit " with " ++ received_protocol esmtp tls auth ++
  lit ";" ++ [CR; LF; TAB] ++ date ++ [CR; LF].

Definition format_auth_results (hostname : list Z) (methods : list (list Z)) : list Z :=
  lit "Authentication-Results: " ++ hostname ++
  concat (map (λ m, lit ";" ++ [CR; LF; TAB] ++ m) methods) ++ [CR; LF].

Definition spf_domain (reverse_path : list Z) (helo : option (list Z)) : option (list Z) :=
  if is_empty reverse_path then helo
  else (λ p, to_ascii_lowercase p.2) <$> rsplit_once 64 reverse_path.

(** ** The submission stamp *)

Definition strip_cr (line : list Z) : list Z :=
  if bool_decide (last line = Some CR) then take (length line - 1) line else line.

Fixpoint scan_loop (lines : list (list Z)) (has_message_id has_date : bool) : bool * bool :=
  match lines with
  | [] => (has_message_id, has_date)
  | line :: lines =>
      if is_empty line then (has_message_id, has_date)
      else if continues line then scan_loop lines has_message_id has_date
      else
        match position (λ b, b =? COLON) line with
        | None => scan_loop lines has_message_id has_date
        | Some pos =>
            let name := take pos line in
            let '(m, d) :=
              if eq_ignore_ascii_case name (lit "message-id") then (true, has_date)
              else if eq_ignore_ascii_case name (lit "date") then (has_message_id, true)
              else (has_message_id, has_date) in
            if m && d then (m, d) else scan_loop lines m d
        end
  end.

Definition scan_submission_headers (headers : list Z) : bool * bool :=
  scan_loop (map strip_cr (RustStd.split LF headers)) false false.

(** The fields added, as bytes; the identifier and the date come printed. *)
Definition build_prepended_headers (domain message_id date : list Z) (has_message_id has_date : bool)
    (ending : list Z) : list Z :=
  (if has_message_id then []
   else as_bytes (lit "Message-ID: <" ++ message_id ++ lit "@" ++ domain ++ lit ">" ++ ending)) ++
  (if has_date then [] else as_bytes (lit "Date: " ++ date ++ ending)).

Definition ensure_submission_headers (data domain message_id date : list Z) : list Z :=
  let header_end := header_block_end data in
  let '(has_message_id, has_date) := scan_submission_headers (take header_end data) in
  if has_message_id && has_date then data
  else build_prepended_headers domain message_id date has_message_id has_date (line_ending data) ++
       take header_end data ++ drop header_end data.

(** Shifting the message up inside its grown buffer. *)
Definition prepend_in_place (data prefix : list Z) : option (list Z) :=
  let original_len := length data in
  let grown := data ++ replicate (length prefix) 0 in
  moved ← copy_within grown 0 original_len (length prefix);
  Some (prefix ++ drop (length prefix) moved).

Definition ensure_submission_headers_in_place (data domain message_id date : list Z) : option (list Z) :=
  let header_end := header_block_end data in
  let '(has_message_id, has_date) := scan_submission_headers (take header_end data) in
  if has_message_id && has_date then Some data
  else prepend_in_place data
         (build_prepended_headers domain message_id date has_message_id has_date (line_ending data)).

(** [str::replace("\r\n", "\n")]. *)
Fixpoint crlf_to_lf (s : list Z) : list Z :=
  match s with
  | [] => []
  | b :: rest =>
      if b =? CR then
        match rest with
        | x :: rest' => if x =? LF then LF :: crlf_to_lf rest' else b :: crlf_to_lf rest
        | [] => [b]
        end
      else b :: crlf_to_lf rest
  end.

Definition prepend_header_block (data lines : list Z) : option (list Z) :=
  if is_empty lines then Some data
  else prepend_in_place data
         (as_bytes (if bool_decide (line_ending data = [LF]) then crlf_to_lf lines else lines)).

(** [inject_spam_headers]; the score comes printed, with its six decimals. *)
Definition inject_spam_headers (data score : list Z) : list Z :=
  let header_end := header_block_end data in
  as_bytes (lit "X-Spam-Status: Yes" ++ [CR; LF] ++ lit "X-Spam-Score: " ++ score ++ [CR; LF]) ++
  take header_end data ++ drop header_end data.

Lemma prepend_in_place_spec data prefix : prepend_in_place data prefix = Some (prefix ++ data).
Proof.
  unfold prepend_in_place, copy_within.
  rewrite (proj2 (Nat.leb_le _ _)) by (rewrite length_app; lia).
  rewrite (proj2 (Nat.leb_le _ _)) by (rewrite length_app, length_replicate; lia). cbn.
  f_equal. f_equal. rewrite drop_0, take_app_length.
  rewrite drop_app_ge by (rewrite length_take, length_app, length_replicate; lia).
  rewrite length_take, length_app, length_replicate.
  replace (length prefix - _)%nat with 0%nat by lia. rewrite drop_0.
  rewrite (drop_ge (data ++ _)) by (rewrite length_app, length_replicate; lia). by rewrite app_nil_r.
Qed.

(** ** Lines that stay lines *)

(** A list of lines as [split_inclusive] cuts them: all ended, the last one
    maybe not. *)
Inductive cut : list (list Z) → Prop :=
| cut_nil : cut []
| cut_open line : line ≠ [] → LF ∉ line → cut [line]
| cut_line line lines : ended LF line → cut lines → cut (line :: lines).

Lemma split_inclusive_cut data : cut (split_inclusive LF data).
Proof.
  induction data as [|line Hl Hne|line rest He IH] using (lines_ind LF).
  - constructor.
  - rewrite split_inclusive_open by done. by constructor.
  - rewrite split_inclusive_ended by done. by constructor.
Qed.

Lemma cut_split_inclusive lines : cut lines → split_inclusive LF (concat lines) = lines.
Proof.
  induction 1 as [|line Hne Hl|line lines He _ IH]; cbn; [done| |].
  - rewrite app_nil_r. by apply split_inclusive_open.
  - by rewrite split_inclusive_ended, IH.
Qed.

Lemma cut_sublist lines lines' : lines' `sublist_of` lines → cut lines → cut lines'.
Proof.
  revert lines'. induction lines as [|line lines IH]; intros lines' Hs Hc.
  { apply sublist_nil_r in Hs as ->. constructor. }
  assert (Ht : cut lines) by (inversion Hc; subst; [constructor|done]).
  apply sublist_cons_r in Hs as [Hs|(rest & -> & Hs)]; [by apply IH|].
  inversion Hc as [|l Hne Hl|l ls He Hls]; subst.
  - apply sublist_nil_r in Hs as ->. by constructor.
  - constructor; [done|]. by apply IH.
Qed.

Lemma cut_app_ended pre post : cut (pre ++ post) → post ≠ [] → Forall (ended LF) pre.
Proof.
  intros Hc Hp. induction pre as [|line pre IH]; [done|]. cbn in Hc.
  inversion Hc as [|l Hne Hl Heq|l ls He Hls]; subst.
  - by destruct pre, post.
  - constructor; [done|]. by apply IH.
Qed.

Lemma blank_line_loop_app before pre post :
  Forall (λ l, is_empty (unterminated l) = false) pre →
  match post with l :: _ => is_empty (unterminated l) = true | [] => True end →
  (blank_line_loop before (pre ++ post)).1 = before ++ concat pre.
Proof.
  intros Hpre Hpost. revert before. induction Hpre as [|l pre Hl _ IH]; intros before; cbn.
  - rewrite app_nil_r. destruct post as [|l post]; cbn; [done|]. by rewrite Hpost.
  - by rewrite Hl, IH, app_assoc.
Qed.

(** ** What is read after a rewrite *)

Section reading.
Context {S : Type} (keep : S → list Z → S * bool).

Fixpoint kept_lines (st : S) (dropping : bool) (lines : list (list Z)) : list (list Z) :=
  match lines with
  | [] => []
  | line :: lines =>
      let '(st, dropping) := rewrite_line keep st dropping line in
      if dropping then kept_lines st dropping lines else line :: kept_lines st dropping lines
  end.

Lemma rewrite_lines_kept st dropping lines out :
  rewrite_lines keep st dropping lines out = out ++ concat (kept_lines st dropping lines).
Proof.
  revert st dropping out. induction lines as [|line lines IH]; intros st dropping out; cbn.
  { by rewrite app_nil_r. }
  destruct (rewrite_line keep st dropping line) as [st' []]; rewrite IH; [done|].
  cbn. by rewrite app_assoc.
Qed.

Lemma kept_lines_sublist st dropping lines : kept_lines st dropping lines `sublist_of` lines.
Proof.
  revert st dropping. induction lines as [|line lines IH]; intros st dropping; cbn; [done|].
  destruct (rewrite_line keep st dropping line) as [st' []]; by constructor.
Qed.

(** The block of the rewritten message is its kept lines. *)
Lemma rewritten_block st data :
  split_inclusive LF (take (header_block_end (rewrite_header_block keep st data))
    (rewrite_header_block keep st data)) =
  kept_lines st false (split_inclusive LF (take (header_block_end data) data)).
Proof.
  destruct (blank_line_loop_spec [] (split_inclusive LF data)) as (pre & post & Hs & Hb & Hpre & Hpost).
  cbn [app] in Hb. pose proof (split_inclusive_cut data) as Hcut. rewrite Hs in Hcut.
  assert (Hd : data = concat pre ++ concat post) by (by rewrite <-concat_app, <-Hs, concat_split_inclusive).
  assert (He : header_block_end data = length (concat pre)) by (unfold header_block_end, split_at_blank_line; by rewrite Hb).
  set (kept := kept_lines st false pre).
  assert (Hr : rewrite_header_block keep st data = concat (kept ++ post)).
  { unfold rewrite_header_block. rewrite rewrite_lines_kept, He, Hd, take_app_length, drop_app_length.
    by rewrite (split_inclusive_prefix _ _ _ _ Hs), concat_app. }
  assert (Hblock : take (header_block_end data) data = concat pre) by (by rewrite He, Hd, take_app_length).
  rewrite Hblock, (split_inclusive_prefix _ _ _ _ Hs). fold kept.
  assert (Hck : cut (kept ++ post)).
  { eapply cut_sublist, Hcut. apply sublist_app; [apply kept_lines_sublist|done]. }
  assert (Hnb : Forall (λ l, is_empty (unterminated l) = false) kept).
  { eauto using kept_lines_sublist with epistle. }
  assert (Hhe : header_block_end (rewrite_header_block keep st data) = length (concat kept)).
  { rewrite Hr. unfold header_block_end, split_at_blank_line.
    rewrite (cut_split_inclusive _ Hck). by rewrite blank_line_loop_app. }
  rewrite Hhe, Hr, concat_app, take_app_length.
  apply (split_inclusive_prefix LF (concat (kept ++ post)) kept post). by apply cut_split_inclusive.
Qed.

End reading.

(** ** Names *)

(** A name as every comparison folds it. *)
Definition folded (name : list Z) : list Z :=
  to_ascii_lowercase (List.filter (λ b, negb (is_ascii_whitespace b)) name).

Lemma same_name_spec a b : same_name a b = true ↔ folded a = folded b.
Proof. apply eq_ignore_ascii_case_spec. Qed.

Lemma named_spec name names : named name names = true ↔ ∃ w, w ∈ names ∧ folded name = folded w.
Proof.
  unfold named. rewrite existsb_exists. setoid_rewrite <-same_name_spec.
  by setoid_rewrite list_elem_of_In.
Qed.

(** ** Values after a rewrite with a rule that only looks at the name *)

Section rule.
Context (rule : list Z → bool) (wanted : list Z).
Let keep : unit → list Z → unit * bool := λ _ name, (tt, rule name).

(** A rule that drops every spelling of [wanted] leaves nothing to read. *)
Lemma values_dropped :
  (∀ name, rule name = true → same_name name wanted = false) →
  ∀ lines dropping, values_loop wanted (kept_lines keep tt dropping lines) false [] = [].
Proof.
  intros Hrule. induction lines as [|line lines IH]; intros dropping; [done|].
  cbn [kept_lines]. unfold rewrite_line. destruct (continues line) eqn:Ec.
  { destruct dropping; [apply IH|]. cbn [values_loop]. rewrite Ec. apply IH. }
  unfold field_name. destruct (split_field line) as [[name value]|] eqn:Ef; cbn.
  - destruct (rule name) eqn:Er; cbn; [|apply IH].
    by rewrite Ec, Ef, (Hrule _ Er).
  - rewrite Ec, Ef. apply IH.
Qed.

(** A rule that keeps every spelling of [wanted] changes nothing that is read:
    while a field is dropped the reader of [wanted] collects nothing. *)
Lemma values_preserved :
  (∀ name, rule name = false → same_name name wanted = false) →
  ∀ lines dropping collecting collecting' values,
  (if dropping : bool then collecting = false else collecting' = collecting) →
  values_loop wanted (kept_lines keep tt dropping lines) collecting' values =
  values_loop wanted lines collecting values.
Proof.
  intros Hrule. induction lines as [|line lines IH]; intros dropping collecting collecting' values Hc; [done|].
  cbn [kept_lines]. unfold rewrite_line. destruct (continues line) eqn:Ec.
  { destruct dropping; cbn [values_loop]; rewrite Ec.
    - rewrite Hc. by apply IH.
    - rewrite Hc. by apply IH. }
  unfold field_name. destruct (split_field line) as [[name value]|] eqn:Ef; cbn.
  - destruct (rule name) eqn:Er; cbn; rewrite Ec, Ef.
    + destruct (same_name name wanted); by apply IH.
    + rewrite (Hrule _ Er). by apply IH.
  - rewrite Ec, Ef. by apply IH.
Qed.

End rule.

(** Stripping header fields removes every spelling of the names asked
    for, and nothing else: afterwards no value of a stripped name can be read,
    and any name that is not one of them reads exactly the values it read
    before. *)
Theorem strip_headers_exact (data name : list Z) (names : list (list Z)) :
  header_values (strip_headers data names) name =
    if named name names then [] else header_values data name.
Proof.
  unfold header_values, strip_headers.
  rewrite (rewritten_block (λ _ field, (tt, negb (named field names))) tt data).
  destruct (named name names) eqn:En.
  - rewrite values_dropped; [done|]. intros field Hf. apply negb_true_iff in Hf.
    apply not_true_iff_false. intros Hs. apply not_true_iff_false in Hf. apply Hf.
    apply named_spec in En as (w & Hw & Hn). apply named_spec. exists w. split; [done|].
    apply same_name_spec in Hs. congruence.
  - f_equal. rewrite (values_preserved (λ field, negb (named field names)) name) with (collecting := false);
      [done| |done].
    intros field Hf. apply negb_false_iff, named_spec in Hf as (w & Hw & Hn).
    apply not_true_iff_false. intros Hs%same_name_spec. apply not_true_iff_false in En. apply En.
    apply named_spec. exists w. split; [done|]. congruence.
Qed.

(** ** The hop count *)

(** The lines the count reads. *)
Definition hop_lines (data : list Z) : list (list Z) :=
  split_inclusive LF (from_utf8_lossy
    (take (match window_position CRLFCRLF data with Some p => (p + 2)%nat | None => length data end) data)).

Lemma received_line_None line :
  received_line line = None ↔
    continues line = false ∧ ∃ a c b, line = a ++ c :: b ∧ (str_len a < 9 < str_len a + len_utf8 c)%nat.
Proof.
  unfold received_line. destruct (continues line) eqn:Ec; cbn [orb]; [split; [done|by intros [? _]]|].
  destruct (Nat.ltb_spec (str_len line) 9) as [Hlt|Hge].
  - split; [done|]. intros (_ & a & c & b & -> & Hr). rewrite str_len_app in Hlt.
    change (str_len (c :: b)) with (len_utf8 c + str_len b)%nat in Hlt. lia.
  - rewrite <-split_at_byte_None by done. destruct (split_at_byte 9 line) as [[p q]|].
    + split; [done|]. by intros [_ ?].
    + by split.
Qed.

Lemma count_received_None lines :
  count_received lines = None ↔ ∃ line, line ∈ lines ∧ received_line line = None.
Proof.
  induction lines as [|line lines IH]; cbn [count_received]; [set_solver|].
  destruct (received_line line) eqn:Er; cbn.
  - transitivity (count_received lines = None); [destruct (count_received lines); done|].
    rewrite IH. split; intros (l & Hl & Hn); exists l; set_solver.
  - split; [|done]. intros _. exists line. set_solver.
Qed.

(** Exactly when the hop count fails: some line of the header block that
    is no continuation has a character across its ninth byte. Every other
    message gets a count. *)
Theorem hop_count_fails_iff (data : list Z) :
  received_hop_count data = None ↔
    ∃ a c b, a ++ c :: b ∈ hop_lines data ∧ continues (a ++ c :: b) = false ∧
      (str_len a < 9 < str_len a + len_utf8 c)%nat.
Proof.
  unfold received_hop_count. fold (hop_lines data). rewrite count_received_None.
  setoid_rewrite received_line_None. naive_solver.
Qed.

(** A displayed name with one accented letter is enough. *)
Example hop_count_fails_on_accent :
  received_hop_count (lit "From: Zo" ++ [0xC3; 0xAB] ++ lit " <zoe@example.org>" ++ CRLFCRLF) = None.
Proof. vm_compute. reflexivity. Qed.

(** ** The stamp *)

(** Text that stays on one line. *)
Definition one_line (s : list Z) : Prop := LF ∉ as_bytes s.

Lemma ensure_in_place_spec data domain message_id date :
  ensure_submission_headers_in_place data domain message_id date =
    Some (ensure_submission_headers data domain message_id date).
Proof.
  unfold ensure_submission_headers_in_place, ensure_submission_headers.
  destruct (scan_submission_headers _) as [[] []]; cbn [andb]; [done|..];
    by rewrite prepend_in_place_spec, take_drop.
Qed.

Lemma as_bytes_app a b : as_bytes (a ++ b) = as_bytes a ++ as_bytes b.
Proof. apply flat_map_app. Qed.

Lemma line_ending_cases data : line_ending data = [CR; LF] ∨ line_ending data = [LF].
Proof. unfold line_ending. destruct (position _ _); [|by left]. destruct (_ && _); auto. Qed.

(** What the scan looks for: a field of the name before the first empty line. *)
Definition names_field (n line : list Z) : bool :=
  negb (continues line) &&
  match position (λ b, b =? COLON) line with
  | Some pos => eq_ignore_ascii_case (take pos line) n
  | None => false
  end.

Fixpoint has_field (n : list Z) (lines : list (list Z)) : bool :=
  match lines with
  | [] => false
  | line :: lines => if is_empty line then false else names_field n line || has_field n lines
  end.

Lemma scan_loop_spec lines m d :
  scan_loop lines m d =
    (m || has_field (lit "message-id") lines, d || has_field (lit "date") lines).
Proof.
  revert m d. induction lines as [|line lines IH]; intros m d; cbn [scan_loop has_field].
  { by rewrite !orb_false_r. }
  destruct (is_empty line); [by rewrite !orb_false_r|]. unfold names_field.
  destruct (continues line); cbn [negb andb orb]; [apply IH|].
  destruct (position _ line) as [pos|]; cbn [orb]; [|apply IH].
  destruct (eq_ignore_ascii_case (take pos line) (lit "message-id")) eqn:Em;
    destruct (eq_ignore_ascii_case (take pos line) (lit "date")) eqn:Ed.
  { apply eq_ignore_ascii_case_spec in Em, Ed. rewrite Em in Ed. done. }
  all: destruct m, d; cbn [andb orb]; rewrite ?IH; done.
Qed.

Lemma strip_cr_field n y : ∃ y', strip_cr (n ++ COLON :: y) = n ++ COLON :: y'.
Proof.
  unfold strip_cr. destruct (bool_decide _) eqn:E; [|by exists y]. apply bool_decide_eq_true in E.
  destruct y as [|x y _] using rev_ind; [by rewrite last_snoc in E|].
  exists y. rewrite app_comm_cons, app_assoc, length_app. cbn [length].
  replace (_ + 1 - 1)%nat with (length (n ++ COLON :: y)) by lia. by rewrite take_app_length.
Qed.

(** A header line written as a name, a colon and the rest. *)
Lemma stamped_line n y rest :
  n ≠ [] → COLON ∉ n → continues n = false → LF ∉ n → LF ∉ y →
  ∃ line', names_field (to_ascii_lowercase n) line' = true ∧ is_empty line' = false ∧
    map strip_cr (RustStd.split LF (((n ++ COLON :: y) ++ [LF]) ++ rest)) =
      line' :: map strip_cr (RustStd.split LF rest).
Proof.
  intros Hne Hcol Hcont Hn Hy. destruct (strip_cr_field n y) as [y' Hs].
  exists (n ++ COLON :: y'). split_and!.
  - unfold names_field. rewrite position_ended, take_app_length by done.
    destruct n as [|b n]; [done|]. cbn [continues app] in *. rewrite Hcont. cbn [negb andb].
    apply eq_ignore_ascii_case_spec. by rewrite to_ascii_lowercase_idem.
  - by destruct n.
  - rewrite <-app_assoc. cbn [app]. rewrite split_app_sep; [cbn [map]; by rewrite Hs|].
    rewrite elem_of_app, elem_of_cons. intros [?|[?|?]]; done.
Qed.

(** A whole non-empty line in front only moves the end of the block. *)
Lemma header_block_end_line line data :
  ended LF line → is_empty (unterminated line) = false →
  header_block_end (line ++ data) = (length line + header_block_end data)%nat.
Proof.
  intros He Hb. unfold header_block_end, split_at_blank_line. rewrite split_inclusive_ended by done.
  cbn [blank_line_loop]. rewrite Hb. cbn [app].
  destruct (blank_line_loop_spec [] (split_inclusive LF data)) as (pre & post & -> & -> & Hpre & Hpost).
  rewrite blank_line_loop_app by done. by rewrite length_app.
Qed.

Lemma strip_suffix_byte c l : default l (strip_suffix [c] l) = l ∨ l = default l (strip_suffix [c] l) ++ [c].
Proof.
  destruct (strip_suffix [c] l) as [l'|] eqn:E; [right|by left]. cbn. revert E.
  destruct l as [|x l _] using rev_ind; [done|]. unfold strip_suffix, ends_with.
  rewrite rev_app_distr. cbn. destruct (Z.eqb_spec c x) as [->|]; cbn; [|done].
  intros [= <-]. f_equal. rewrite length_app. cbn.
  replace (length l + 1 - 1)%nat with (length l) by lia. by rewrite take_app_length.
Qed.

Lemma unterminated_length line : (length line ≤ length (unterminated line) + 2)%nat.
Proof.
  unfold unterminated. set (l := default line (strip_suffix [LF] line)).
  assert (length line ≤ length l + 1)%nat.
  { subst l. destruct (strip_suffix_byte LF line) as [->|Hl]; [lia|]. rewrite Hl at 1. rewrite length_app. cbn. lia. }
  destruct (strip_suffix_byte CR l) as [->|Hl]; [lia|].
  assert (length l = length (default l (strip_suffix [CR] l)) + 1)%nat by (rewrite Hl at 1; by rewrite length_app).
  lia.
Qed.

Definition block_lines (data : list Z) : list (list Z) :=
  map strip_cr (RustStd.split LF (take (header_block_end data) data)).

Lemma block_lines_stamped n y data :
  (2 ≤ length n)%nat → COLON ∉ n → continues n = false → LF ∉ n → LF ∉ y →
  ∃ line', names_field (to_ascii_lowercase n) line' = true ∧ is_empty line' = false ∧
    block_lines (((n ++ COLON :: y) ++ [LF]) ++ data) = line' :: block_lines data.
Proof.
  intros Hlen Hcol Hcont Hn Hy. set (line := (n ++ COLON :: y) ++ [LF]).
  assert (He : ended LF line).
  { exists (n ++ COLON :: y). split; [done|]. rewrite elem_of_app, elem_of_cons. intros [?|[?|?]]; done. }
  assert (Hb : is_empty (unterminated line) = false).
  { pose proof (unterminated_length line) as Hu. assert (length line = length n + length y + 2)%nat
      by (subst line; rewrite !length_app; cbn; lia).
    destruct (unterminated line); [cbn in Hu; lia|done]. }
  unfold block_lines. rewrite header_block_end_line, take_app_add by done.
  apply stamped_line; try done. intros ->. cbn in Hlen. lia.
Qed.

Lemma scan_block data :
  scan_submission_headers (take (header_block_end data) data) =
    (has_field (lit "message-id") (block_lines data), has_field (lit "date") (block_lines data)).
Proof. unfold scan_submission_headers. by rewrite scan_loop_spec. Qed.

(** One stamped field is found, and hides no other. *)
Lemma stamped_has_field n y data k :
  (2 ≤ length n)%nat → COLON ∉ n → continues n = false → LF ∉ n → LF ∉ y →
  has_field (to_ascii_lowercase n) (block_lines (((n ++ COLON :: y) ++ [LF]) ++ data)) = true ∧
  (has_field k (block_lines data) = true →
   has_field k (block_lines (((n ++ COLON :: y) ++ [LF]) ++ data)) = true).
Proof.
  intros Hlen Hcol Hcont Hn Hy.
  destruct (block_lines_stamped n y data Hlen Hcol Hcont Hn Hy) as (line' & Hf & Hne & ->).
  cbn [has_field]. rewrite Hne, Hf. split; [done|]. intros ->. apply orb_true_r.
Qed.

(** A printed field as a name, a colon and the rest of one line. *)
Lemma printed_field n value data :
  Forall (λ c, 0 ≤ c < 0x80) n → one_line value →
  ∃ y, LF ∉ y ∧
    as_bytes (n ++ COLON :: SP :: value ++ line_ending data) = (n ++ COLON :: y) ++ [LF].
Proof.
  intros Ha Hv. rewrite as_bytes_app, (as_bytes_ascii n Ha).
  change (as_bytes (COLON :: SP :: value ++ line_ending data))
    with ([COLON; SP] ++ as_bytes (value ++ line_ending data)).
  rewrite as_bytes_app. destruct (line_ending_cases data) as [-> | ->].
  - exists (SP :: as_bytes value ++ [CR]). split.
    + rewrite elem_of_cons, elem_of_app, list_elem_of_singleton. intros [?|[?|?]]; done.
    + cbn. by rewrite <-!app_assoc; cbn; rewrite <-!app_assoc.
  - exists (SP :: as_bytes value). split.
    + rewrite elem_of_cons. intros [?|?]; done.
    + cbn. by rewrite <-!app_assoc.
Qed.

Lemma one_line_app a b : one_line a → one_line b → one_line (a ++ b).
Proof. unfold one_line. rewrite as_bytes_app, elem_of_app. naive_solver. Qed.

(** A field name the stamp writes. *)
Definition plain_name (n : list Z) : Prop :=
  (2 ≤ length n)%nat ∧ COLON ∉ n ∧ continues n = false ∧ LF ∉ n ∧ Forall (λ c, 0 ≤ c < 0x80) n.
#[local] Instance plain_name_dec n : Decision (plain_name n).
Proof. unfold plain_name. apply _. Defined.

Lemma stamped_field n value data data' k :
  plain_name n → one_line value →
  let line := as_bytes (n ++ COLON :: SP :: value ++ line_ending data) in
  has_field (to_ascii_lowercase n) (block_lines (line ++ data')) = true ∧
  (has_field k (block_lines data') = true → has_field k (block_lines (line ++ data')) = true).
Proof.
  intros (Hlen & Hcol & Hcont & Hn & Ha) Hv line.
  destruct (printed_field n value data Ha Hv) as (y & Hy & Hl). subst line. rewrite Hl.
  by apply stamped_has_field.
Qed.

Lemma stamped_date date data data' k :
  one_line date →
  let line := as_bytes (lit "Date: " ++ date ++ line_ending data) in
  has_field (lit "date") (block_lines (line ++ data')) = true ∧
  (has_field k (block_lines data') = true → has_field k (block_lines (line ++ data')) = true).
Proof.
  apply (stamped_field (lit "Date")). apply (bool_decide_unpack _). vm_compute. done.
Qed.

Lemma stamped_message_id message_id domain data data' k :
  one_line message_id → one_line domain →
  let line := as_bytes (lit "Message-ID: <" ++ message_id ++ lit "@" ++ domain ++ lit ">" ++ line_ending data) in
  has_field (lit "message-id") (block_lines (line ++ data')) = true ∧
  (has_field k (block_lines data') = true → has_field k (block_lines (line ++ data')) = true).
Proof.
  intros Hm Hd. pose proof (stamped_field (lit "Message-ID")
    (lit "<" ++ message_id ++ lit "@" ++ domain ++ lit ">") data data' k) as Hs.
  rewrite <-!app_assoc in Hs. apply Hs; [apply (bool_decide_unpack _); vm_compute; done|].
  assert (Hlit : ∀ c, encode_utf8 c = [c] → c ≠ LF → one_line [c]).
  { intros c Hc Hn. unfold one_line. cbn. rewrite app_nil_r, Hc, list_elem_of_singleton. congruence. }
  repeat apply one_line_app; try done; by apply Hlit.
Qed.

(** A submission leaves with a Message-ID and a Date. The stamped message
    is the submitted one with at most those two fields in front, the scan finds
    both in it, stamping it again changes nothing, and the in-place stamp does
    the same. *)
Theorem submission_headers_stamped (data domain message_id date : list Z) :
  one_line domain → one_line message_id → one_line date →
  let stamped := ensure_submission_headers data domain message_id date in
  scan_submission_headers (take (header_block_end stamped) stamped) = (true, true) ∧
  (∃ prefix, stamped = prefix ++ data) ∧
  (∀ domain' message_id' date', ensure_submission_headers stamped domain' message_id' date' = stamped) ∧
  ensure_submission_headers_in_place data domain message_id date = Some stamped.
Proof.
  intros Hdom Hid Hdate stamped.
  assert (Hscan : scan_submission_headers (take (header_block_end stamped) stamped) = (true, true)).
  { rewrite scan_block. subst stamped. unfold ensure_submission_headers. rewrite scan_block, take_drop.
    destruct (has_field (lit "message-id") (block_lines data)) eqn:Em;
      destruct (has_field (lit "date") (block_lines data)) eqn:Ed; cbn [andb].
    - by rewrite Em, Ed.
    - unfold build_prepended_headers. cbn [app].
      destruct (stamped_date date data data (lit "message-id") Hdate) as [-> Hk]. by rewrite Hk.
    - unfold build_prepended_headers. rewrite app_nil_r.
      destruct (stamped_message_id message_id domain data data (lit "date") Hid Hdom) as [-> Hk]. by rewrite Hk.
    - unfold build_prepended_headers. rewrite <-(app_assoc (as_bytes _)).
      set (rest := as_bytes (lit "Date: " ++ date ++ line_ending data) ++ data).
      destruct (stamped_message_id message_id domain data rest (lit "date") Hid Hdom) as [-> Hk].
      rewrite Hk; [done|]. by destruct (stamped_date date data data (lit "date") Hdate). }
  split; [done|]. split; [|split].
  - subst stamped. clear Hscan. unfold ensure_submission_headers. destruct (scan_submission_headers _) as [m d].
    rewrite take_drop. destruct (m && d); [by exists []|by eexists].
  - intros domain' message_id' date'. unfold ensure_submission_headers at 1. by rewrite Hscan.
  - apply ensure_in_place_spec.
Qed.

Lemma submission_headers_stamped_witness :
  let stamped := ensure_submission_headers (lit "Subject: hi" ++ [CR; LF; CR; LF]) (lit "example.org")
    (lit "0190") (lit "Mon, 1 Jan 2024 00:00:00 +0000") in
  scan_submission_headers (take (header_block_end stamped) stamped) = (true, true).
Proof.
  apply (submission_headers_stamped (lit "Subject: hi" ++ [CR; LF; CR; LF]) (lit "example.org")
    (lit "0190") (lit "Mon, 1 Jan 2024 00:00:00 +0000"));
    apply (bool_decide_unpack (_ ∉ _)); vm_compute; exact I.
Defined.
