(* ===== verification/InboundHeaders.v ===== *)
(** The strip of sender-supplied trust fields from inbound mail
    (src/src/smtp/inbound_headers/mod.rs), in place, with the tolerant name
    comparison and the reading of an authentication service identifier. *)

From S2P Require Import Prelude RustStd Utf8 Slices HeaderBlock HeaderRewrite HeaderStrip.

Local Open Scope Z_scope.

Definition DASH : Z := 45.

(** ** Names *)

Definition is_obfuscation_byte (b : Z) : bool :=
  (b =? 0x20) || (b =? 0x09) || (b =? 0x0c) || (b =? 0x0b) || (b =? 0x1f) || (b =? 0x7f).

(** [eq_ignore_ascii_case] of two bytes. *)
Definition same_byte (a b : Z) : bool := to_ascii_lowercase_char a =? to_ascii_lowercase_char b.

(** The loop of [align]: [i] and [j] count what was consumed of the two. *)
Fixpoint align_loop (name reserved : list Z) (last_fold_was_dash : bool) (i j : nat) : nat * nat :=
  match name, reserved with
  | nc :: name', rc :: reserved' =>
      if same_byte nc rc then align_loop name' reserved' false (S i) (S j)
      else if (rc =? DASH) && is_obfuscation_byte nc then align_loop name' reserved' true (S i) (S j)
      else if last_fold_was_dash && (nc =? DASH) then align_loop name' reserved false (S i) j
      else if is_obfuscation_byte nc then align_loop name' reserved last_fold_was_dash (S i) j
      else (i, j)
  | _, _ => (i, j)
  end.

Definition align (name reserved : list Z) : nat * nat := align_loop name reserved false 0 0.

Definition name_matches (name reserved : list Z) : bool :=
  let '(i, j) := align name reserved in
  if negb (j =? length reserved)%nat then false
  else is_empty (trim_start_matches is_obfuscation_byte (drop i name)).

Definition name_starts_with (name prefix : list Z) : bool :=
  let '(_, j) := align name prefix in (j =? length prefix)%nat.

(** ** The identifier of an Authentication-Results field *)

Definition is_ascii_control (b : Z) : bool := in_range 0 31 b || (b =? 127).
Definition is_ascii_graphic (b : Z) : bool := in_range 33 126 b.

Definition DQUOTE : Z := 34.
Definition BACKSLASH : Z := 92.

Definition token (b : Z) : bool :=
  is_ascii_graphic b && negb (contains b (lit "()<>@,;:\/[]?=") || (b =? DQUOTE)).

(** Whitespace and nested comments; the rest after them, or [None]. *)
Fixpoint cfws (depth : nat) (rest : list Z) : option (list Z) :=
  match rest with
  | [] => if (depth =? 0)%nat then Some [] else None
  | byte :: tail =>
      if (byte =? SP) || (byte =? TAB) then cfws depth tail
      else if byte =? CR then
        match tail with
        | x :: tail' => if (x =? LF) && continues tail' then cfws depth tail' else None
        | [] => None
        end
      else if byte =? 40 then cfws (S depth) tail
      else if (byte =? 41) && (0 <? depth)%nat then cfws (depth - 1) tail
      else if (byte =? BACKSLASH) && (0 <? depth)%nat then
        match tail with
        | escaped :: tail' =>
            if is_ascii_control escaped && negb (escaped =? TAB) then None else cfws depth tail'
        | [] => None
        end
      else if (0 <? depth)%nat && (negb (is_ascii_control byte) || (byte =? TAB)) then cfws depth tail
      else if (depth =? 0)%nat then Some rest
      else None
  end.

(** The loop of a quoted identifier: what it holds and what follows. *)
Fixpoint quoted_id (id rest : list Z) : option (list Z * list Z) :=
  match rest with
  | [] => None
  | byte :: tail =>
      if byte =? DQUOTE then Some (id, tail)
      else if byte =? BACKSLASH then
        match tail with
        | escaped :: tail' =>
            if is_ascii_control escaped && negb (escaped =? TAB) then None
            else quoted_id (id ++ [escaped]) tail'
        | [] => None
        end
      else if byte =? CR then
        match tail with
        | x :: tail' => if (x =? LF) && continues tail' then quoted_id id tail' else None
        | [] => None
        end
      else if is_ascii_control byte && negb (byte =? TAB) then None
      else quoted_id (id ++ [byte]) tail
  end.

Definition authserv_id (value : list Z) : option (list Z) :=
  rest ← cfws 0 (trim_ascii_end value);
  '(id, rest) ←
    (match rest with
     | q :: tail =>
         if q =? DQUOTE then quoted_id [] tail
         else
           let end_ := default (length rest) (position (λ b, negb (token b)) rest) in
           Some (take end_ rest, drop end_ rest)
     | [] => Some ([], [])
     end);
  if is_empty id then None
  else
    let before := length rest in
    rest ← cfws 0 rest;
    rest ← (if match rest with b :: _ => is_ascii_digit b | [] => false end then
              if (before =? length rest)%nat then None
              else cfws 0 (trim_start_matches is_ascii_digit rest)
            else Some rest);
    _ ← strip_prefix (lit ";") rest;
    from_utf8 id.

(** ** Which fields go *)

Definition RESERVED_NAMES : list (list Z) :=
  [lit "Received-SPF"; lit "Delivered-To"; lit "Return-Path"; lit "Epistle-Class"; lit "X-Epistle"].
Definition RESERVED_PREFIXES : list (list Z) := [lit "X-Spam-"; lit "X-Epistle-"].

Definition trim_dots (s : list Z) : list Z := trim_end_matches (λ c, c =? DOT) s.

(** Whether an identifier is this server's, or could not be read. *)
Definition own_authserv_id (value hostname : list Z) : bool :=
  match authserv_id value with
  | None => true
  | Some id => eq_ignore_ascii_case (trim_dots id) (trim_dots hostname)
  end.

Definition remove (field hostname : list Z) (skip_leader : bool) : bool :=
  let offset := if skip_leader then name_start field else 0%nat in
  match split_field_from field offset with
  | None => false
  | Some (name, value) =>
      if name_matches name (lit "Authentication-Results") then own_authserv_id value hostname
      else existsb (name_matches name) RESERVED_NAMES || existsb (name_starts_with name) RESERVED_PREFIXES
  end.

Definition in_namespace (field namespace : list Z) : bool :=
  name_matches field namespace || name_starts_with field (namespace ++ [DASH]).

Definition strip_headers_with_namespace (data name : list Z) : list Z :=
  rewrite_header_block (λ _ field, (tt, negb (in_namespace field name))) tt data.

(** ** The strip *)

Definition line_end (data : list Z) (start : nat) : nat :=
  match position (λ b, b =? LF) (drop start data) with
  | Some at_ => (start + at_ + 1)%nat
  | None => length data
  end.

(** The lines that continue a field; [fuel] bounds the iterations. *)
Fixpoint continuation_end (fuel : nat) (data : list Z) (read : nat) : option nat :=
  if (read <? length data)%nat && continues (drop read data) then
    match fuel with
    | O => None
    | S fuel => continuation_end fuel data (line_end data read)
    end
  else Some read.

Definition is_blank (line : list Z) : bool := bool_decide (line = [CR; LF]) || bool_decide (line = [LF]).

Fixpoint strip_loop (fuel : nat) (hostname : list Z) (skip_leader : bool) (data : list Z)
    (read write : nat) : option (list Z * nat * nat) :=
  if (read <? length data)%nat then
    match fuel with
    | O => None
    | S fuel =>
        let start := read in
        let end_ := line_end data read in
        if is_blank (take (end_ - read) (drop read data)) then Some (data, read, write)
        else
          read ← continuation_end (length data) data end_;
          if remove (take (read - start) (drop start data)) hostname skip_leader
          then strip_loop fuel hostname skip_leader data read write
          else
            data ← copy_within data start (read - start) write;
            strip_loop fuel hostname skip_leader data read (write + (read - start))
    end
  else Some (data, read, write).

Definition strip_with (data hostname : list Z) (skip_leader : bool) : option (list Z) :=
  '(data, read, write) ← strip_loop (length data) hostname skip_leader data 0 0;
  let tail := (length data - read)%nat in
  data ← copy_within data read tail write;
  Some (take (write + tail) data).

Definition strip (data hostname : list Z) : option (list Z) := strip_with data hostname true.

(** ** The check after the strip *)

Definition trust_header_name (name : list Z) : list Z :=
  trim_start_matches (λ c, (c =? COLON) || is_ascii_whitespace c) name.

Definition check_reserved_name (name hostname : list Z) (value : option (list Z)) : option (list Z) :=
  let lower := to_ascii_lowercase (trim_end (trust_header_name name)) in
  if str_eqb lower (lit "authentication-results") then
    match value with
    | None => Some (lit "Authentication-Results")
    | Some value => if own_authserv_id value hostname then Some (lit "Authentication-Results") else None
    end
  else if str_eqb lower (lit "received-spf") then Some (lit "Received-SPF")
  else if str_eqb lower (lit "delivered-to") then Some (lit "Delivered-To")
  else if str_eqb lower (lit "return-path") then Some (lit "Return-Path")
  else if str_eqb lower (lit "epistle-class") then Some (lit "Epistle-Class")
  else if str_eqb lower (lit "x-epistle") then Some (lit "X-Epistle")
  else if starts_with (lit "x-spam-") lower then Some (lit "X-Spam-Status")
  else if starts_with (lit "x-epistle-") lower then Some (lit "X-Epistle-Attachment-Warning")
  else None.

(** [reserved_remaining] on the headers the parser read, when it read any. *)
Fixpoint first_reserved (headers : list (list Z * option (list Z))) (hostname : list Z) : option (list Z) :=
  match headers with
  | [] => None
  | (name, value) :: headers =>
      match check_reserved_name name hostname value with
      | Some canonical => Some canonical
      | None => first_reserved headers hostname
      end
  end.

Definition reserved_remaining (parse_headers : list Z → option (list (list Z * option (list Z))))
    (data hostname : list Z) : option (list Z) :=
  headers ← parse_headers data; first_reserved headers hostname.

(** ** The fields of a message *)

(** The fields from the line [field] starts with, and the lines from the first
    empty one on. *)
Fixpoint group (field : list Z) (lines : list (list Z)) : list (list Z) * list (list Z) :=
  match lines with
  | [] => ([field], [])
  | line :: lines' =>
      if continues line then group (field ++ line) lines'
      else if is_blank line then ([field], lines)
      else let '(fields, rest) := group line lines' in (field :: fields, rest)
  end.

Definition fields_of (lines : list (list Z)) : list (list Z) * list (list Z) :=
  match lines with
  | [] => ([], [])
  | line :: lines' => if is_blank line then ([], lines) else group line lines'
  end.

(** A list of lines that starts no continuation. *)
Definition fresh (lines : list (list Z)) : Prop :=
  match lines with line :: _ => continues line = false | [] => True end.

Lemma group_conts conts : ∀ field more,
  Forall (λ l, continues l = true) conts → fresh more →
  group field (conts ++ more) =
    let '(fields, rest) := fields_of more in ((field ++ concat conts) :: fields, rest).
Proof.
  induction conts as [|c conts IH]; intros field more Hc Hf; cbn [app concat].
  - rewrite app_nil_r. destruct more as [|l more]; cbn; [done|]. cbn in Hf. rewrite Hf.
    by destruct (is_blank l).
  - apply Forall_cons in Hc as [Hc Hcs]. cbn [group]. rewrite Hc, IH by done.
    destruct (fields_of more). by rewrite app_assoc.
Qed.

Lemma conts_of lines :
  ∃ conts more, lines = conts ++ more ∧ Forall (λ l, continues l = true) conts ∧ fresh more.
Proof.
  induction lines as [|l lines (conts & more & -> & Hc & Hf)]; [by exists [], []|].
  destruct (continues l) eqn:E.
  - exists (l :: conts), more. split; [done|]. by split; [constructor|].
  - by exists [], (l :: conts ++ more).
Qed.

(** Induction on the fields of a message. *)
Lemma fields_ind (P : list (list Z) → list (list Z) → list (list Z) → Prop) :
  P [] [] [] →
  (∀ line lines, is_blank line = true → P (line :: lines) [] (line :: lines)) →
  (∀ line conts more fields rest, is_blank line = false → Forall (λ l, continues l = true) conts →
     fresh more → fields_of more = (fields, rest) → P more fields rest →
     P (line :: conts ++ more) ((line ++ concat conts) :: fields) rest) →
  ∀ lines, P lines (fields_of lines).1 (fields_of lines).2.
Proof.
  intros Hnil Hblank Hfield lines. remember (length lines) as n eqn:Hn. revert lines Hn.
  induction n as [n IH] using lt_wf_ind. intros [|line lines] ->; [done|]. cbn [fields_of].
  destruct (is_blank line) eqn:Eb; [by apply Hblank|].
  destruct (conts_of lines) as (conts & more & -> & Hc & Hf). rewrite group_conts by done.
  destruct (fields_of more) as [fields rest] eqn:Em. cbn [fst snd]. apply Hfield; try done.
  specialize (IH (length more) ltac:(cbn; rewrite length_app; lia) more eq_refl). by rewrite Em in IH.
Qed.

(** ** The strip is the filter *)

Definition stripped (data hostname : list Z) (skip_leader : bool) : list Z :=
  let '(fields, rest) := fields_of (split_inclusive LF data) in
  concat (List.filter (λ f, negb (remove f hostname skip_leader)) fields) ++ concat rest.

Lemma line_end_cut pre line lines :
  cut (line :: lines) → line_end (pre ++ line ++ concat lines) (length pre) = length (pre ++ line).
Proof.
  intros Hc. unfold line_end. rewrite drop_app_length.
  inversion Hc as [|l Hne Hl|l ls (b & Heq & Hb) Hls]; subst.
  - cbn. rewrite !app_nil_r, position_none by done. done.
  - rewrite <-app_assoc. cbn [app]. rewrite position_ended by done. rewrite !length_app. cbn. lia.
Qed.

Lemma cut_nonempty line lines : cut (line :: lines) → (0 < length line)%nat ∧ cut lines.
Proof.
  inversion 1 as [|l Hne Hl|l ls (b & Heq & Hb) Hls]; subst.
  - split; [destruct line; [done|cbn; lia]|constructor].
  - split; [rewrite length_app; cbn; lia|done].
Qed.

Lemma cut_app_r pre post : cut (pre ++ post) → cut post.
Proof. induction pre as [|l pre IH]; [done|]. intros [_ Hc]%cut_nonempty. by apply IH. Qed.

Lemma continues_app line rest : (0 < length line)%nat → continues (line ++ rest) = continues line.
Proof. destruct line; cbn; [lia|done]. Qed.

Lemma fresh_concat more : cut more → fresh more → continues (concat more) = false.
Proof.
  destruct more as [|l more]; [done|]. intros [Hl _]%cut_nonempty Hf. cbn. by rewrite continues_app.
Qed.

Lemma continuation_end_spec conts : ∀ fuel pre more,
  cut (conts ++ more) → Forall (λ l, continues l = true) conts → fresh more →
  (length conts ≤ fuel)%nat →
  continuation_end fuel (pre ++ concat (conts ++ more)) (length pre) = Some (length (pre ++ concat conts)).
Proof.
  induction conts as [|c conts IH]; intros fuel pre more Hcut Hc Hf Hfuel; cbn [app concat].
  - rewrite app_nil_r. destruct fuel; cbn [continuation_end];
      rewrite drop_app_length, fresh_concat, andb_false_r by done; done.
  - apply Forall_cons in Hc as [Hc Hcs]. destruct fuel as [|fuel]; [cbn in Hfuel; lia|].
    pose proof Hcut as [Hlen Hcut']%cut_nonempty. cbn [continuation_end].
    rewrite drop_app_length, continues_app, Hc by done.
    rewrite (proj2 (Nat.ltb_lt _ _)) by (rewrite !length_app; lia). cbn [andb].
    rewrite (line_end_cut pre c (conts ++ more) Hcut), (app_assoc pre c).
    rewrite IH by (try done; cbn in Hfuel; lia). by rewrite <-app_assoc.
Qed.

Lemma cut_length lines : cut lines → (length lines ≤ length (concat lines))%nat.
Proof.
  induction lines as [|l lines IH]; [done|]. intros [Hl Hc]%cut_nonempty. cbn. rewrite length_app.
  specialize (IH Hc). lia.
Qed.

Lemma strip_loop_spec hostname skip_leader lines :
  cut lines → ∀ fuel done_ gap, (length lines ≤ fuel)%nat →
  let kept := concat (List.filter (λ f, negb (remove f hostname skip_leader)) (fields_of lines).1) in
  ∃ gap', strip_loop fuel hostname skip_leader (done_ ++ gap ++ concat lines) (length (done_ ++ gap)) (length done_) =
    Some ((done_ ++ kept) ++ gap' ++ concat (fields_of lines).2, length ((done_ ++ kept) ++ gap'),
          length (done_ ++ kept)).
Proof.
  apply (fields_ind (λ lines fields rest, cut lines → ∀ fuel done_ gap, (length lines ≤ fuel)%nat →
    let kept := concat (List.filter (λ f, negb (remove f hostname skip_leader)) fields) in
    ∃ gap', strip_loop fuel hostname skip_leader (done_ ++ gap ++ concat lines) (length (done_ ++ gap)) (length done_) =
      Some ((done_ ++ kept) ++ gap' ++ concat rest, length ((done_ ++ kept) ++ gap'), length (done_ ++ kept)))).
  - intros _ fuel done_ gap _. cbn. exists gap. rewrite !app_nil_r.
    destruct fuel; cbn [strip_loop]; by rewrite Nat.ltb_irrefl.
  - intros line more Hb Hc fuel done_ gap Hf. destruct fuel as [|fuel]; [cbn in Hf; lia|].
    pose proof Hc as [Hlen _]%cut_nonempty. exists gap. cbn [strip_loop List.filter concat].
    rewrite app_nil_r, (app_assoc done_ gap). rewrite (proj2 (Nat.ltb_lt _ _)) by (rewrite !length_app; lia).
    by rewrite line_end_cut, take_line, Hb.
  - intros line conts more fields rest Hb Hcs Hfresh Hfields IH Hc fuel done_ gap Hf.
    destruct fuel as [|fuel]; [cbn in Hf; lia|]. pose proof Hc as [Hlen Hc']%cut_nonempty.
    specialize (IH (cut_app_r _ _ Hc')).
    set (field := line ++ concat conts).
    assert (Hdata : done_ ++ gap ++ concat (line :: conts ++ more) = (done_ ++ gap) ++ field ++ concat more).
    { subst field. cbn. by rewrite concat_app, <-!app_assoc. }
    assert (Hend : line_end (done_ ++ gap ++ concat (line :: conts ++ more)) (length (done_ ++ gap)) =
      length ((done_ ++ gap) ++ line)).
    { rewrite (app_assoc done_ gap). by apply line_end_cut. }
    assert (Hread : continuation_end (length (done_ ++ gap ++ concat (line :: conts ++ more)))
      (done_ ++ gap ++ concat (line :: conts ++ more)) (length ((done_ ++ gap) ++ line)) =
      Some (length ((done_ ++ gap) ++ field))).
    { cbn [concat]. subst field. rewrite (app_assoc done_ gap), (app_assoc (done_ ++ gap) line).
      rewrite continuation_end_spec by (try done; pose proof (cut_length _ Hc') as Hl; rewrite !length_app in *; lia).
      by rewrite <-!app_assoc. }
    assert (Hline : take (length ((done_ ++ gap) ++ line) - length (done_ ++ gap))
      (drop (length (done_ ++ gap)) (done_ ++ gap ++ concat (line :: conts ++ more))) = line).
    { rewrite (app_assoc done_ gap). apply take_line. }
    cbn [strip_loop]. rewrite Hend, Hline, Hb, Hread. cbn [mbind option_bind].
    rewrite Hdata, take_line. rewrite (proj2 (Nat.ltb_lt _ _)) by (subst field; rewrite !length_app; lia).
    replace (length ((done_ ++ gap) ++ field) - length (done_ ++ gap))%nat with (length field)
      by (rewrite length_app; lia).
    assert (Hfuel : (length more ≤ fuel)%nat) by (cbn in Hf; rewrite length_app in Hf; lia).
    cbn [List.filter]. destruct (remove field hostname skip_leader); cbn [negb].
    + destruct (IH fuel done_ (gap ++ field) Hfuel) as [gap' Hg]. exists gap'. rewrite <-Hg.
      by rewrite <-!app_assoc.
    + rewrite <-(app_assoc done_ gap (field ++ concat more)), copy_within_pull. cbn [mbind option_bind].
      destruct (IH fuel (done_ ++ field) (drop (length field) (gap ++ field)) Hfuel) as [gap' Hg].
      exists gap'. cbn [concat]. rewrite <-length_app.
      replace (length ((done_ ++ gap) ++ field))
        with (length ((done_ ++ field) ++ drop (length field) (gap ++ field)))
        by (rewrite !length_app, length_drop, length_app; lia).
      rewrite Hg. by rewrite <-!app_assoc.
Qed.

(** The strip always ends, and gives the fields that stay and the body. *)
Lemma strip_with_stripped data hostname skip_leader :
  strip_with data hostname skip_leader = Some (stripped data hostname skip_leader).
Proof.
  unfold strip_with, stripped. pose proof (split_inclusive_cut data) as Hc.
  assert (Hlen : (length (split_inclusive LF data) ≤ length data)%nat).
  { rewrite <-(concat_split_inclusive LF data) at 2. by apply cut_length. }
  destruct (strip_loop_spec hostname skip_leader _ Hc (length data) [] [] Hlen) as [gap Hs].
  cbn [app length] in Hs. rewrite concat_split_inclusive in Hs. rewrite Hs. cbn [mbind option_bind].
  destruct (fields_of _) as [fields rest]. cbn [fst snd].
  set (kept := concat (List.filter _ fields)). set (tail := concat rest).
  replace (length (kept ++ gap ++ tail) - length (kept ++ gap))%nat with (length tail)
    by (rewrite !length_app; lia).
  pose proof (copy_within_pull kept gap tail []) as Hp. rewrite !app_nil_r in Hp. rewrite Hp. cbn.
  f_equal. by rewrite <-length_app, take_app_length.
Qed.

(** ** What is left after the strip *)

(** Dropping fields leaves the others the fields they were. *)
Lemma fields_filter (p : list Z → bool) lines :
  let fields := List.filter p (fields_of lines).1 in
  ∃ lines', lines' `sublist_of` lines ∧ fields_of lines' = (fields, (fields_of lines).2) ∧
    concat lines' = concat fields ++ concat (fields_of lines).2 ∧ (fresh lines → fresh lines').
Proof.
  apply (fields_ind (λ lines fields rest, ∃ lines', lines' `sublist_of` lines ∧
    fields_of lines' = (List.filter p fields, rest) ∧
    concat lines' = concat (List.filter p fields) ++ concat rest ∧ (fresh lines → fresh lines'))).
  - by exists [].
  - intros line more Hb. exists (line :: more). cbn [fields_of]. by rewrite Hb.
  - intros line conts more fields rest Hb Hcs Hfresh _ (more' & Hsub & Hf & Hcc & Hfr).
    specialize (Hfr Hfresh). cbn [List.filter]. destruct (p (line ++ concat conts)).
    + exists (line :: conts ++ more'). split_and!.
      * apply sublist_skip. by apply sublist_app.
      * cbn [fields_of]. by rewrite Hb, group_conts, Hf.
      * cbn. by rewrite concat_app, Hcc, <-!app_assoc.
      * done.
    + exists more'. split_and!; [|done|done|done].
      apply sublist_cons. by apply sublist_inserts_l.
Qed.

Lemma stripped_lines data hostname skip_leader :
  let lines := split_inclusive LF (stripped data hostname skip_leader) in
  lines `sublist_of` split_inclusive LF data ∧
  fields_of lines = (List.filter (λ f, negb (remove f hostname skip_leader)) (fields_of (split_inclusive LF data)).1,
                     (fields_of (split_inclusive LF data)).2).
Proof.
  destruct (fields_filter (λ f, negb (remove f hostname skip_leader)) (split_inclusive LF data))
    as (lines' & Hsub & Hf & Hcc & _).
  assert (Heq : split_inclusive LF (stripped data hostname skip_leader) = lines').
  { transitivity (split_inclusive LF (concat lines')).
    - rewrite Hcc. unfold stripped. by destruct (fields_of (split_inclusive LF data)).
    - apply cut_split_inclusive. by eapply cut_sublist, split_inclusive_cut. }
  cbn. by rewrite Heq.
Qed.

Lemma filter_idem (p : list Z → bool) l : List.filter p (List.filter p l) = List.filter p l.
Proof. induction l as [|x l IH]; cbn; [done|]. destruct (p x) eqn:E; cbn; rewrite ?E, IH; done. Qed.

(** C22: The strip of an inbound message never fails, drops exactly the
    fields its rule names, keeps every other field and the body byte for byte
    in their order, and has nothing left to do a second time. *)
Theorem inbound_strip_exact (data hostname : list Z) :
  let before := fields_of (split_inclusive LF data) in
  ∃ out, strip data hostname = Some out ∧
    fields_of (split_inclusive LF out) = (List.filter (λ f, negb (remove f hostname true)) before.1, before.2) ∧
    strip out hostname = Some out.
Proof.
  exists (stripped data hostname true). unfold strip. rewrite !strip_with_stripped.
  destruct (stripped_lines data hostname true) as [_ Hf]. split; [done|]. split; [done|].
  f_equal. set (out := stripped data hostname true) in *. unfold stripped. rewrite Hf, filter_idem.
  subst out. unfold stripped. by destruct (fields_of (split_inclusive LF data)).
Qed.

(** ** Every spelling of a reserved name is matched *)

(** What the comparison needs of a reserved name: no whitespace, no two
    dashes in a row. *)
Fixpoint plain_reserved (r : list Z) : bool :=
  match r with
  | [] => true
  | c :: r' =>
      negb (is_ascii_whitespace c) &&
      negb ((c =? DASH) && bool_decide (head r' = Some DASH)) && plain_reserved r'
  end.

Definition unbroken (name : list Z) : Prop := CR ∉ name ∧ LF ∉ name.

Lemma folded_cons c name :
  folded (c :: name) = if is_ascii_whitespace c then folded name else to_ascii_lowercase_char c :: folded name.
Proof. unfold folded. cbn. by destruct (is_ascii_whitespace c). Qed.

Lemma lower_dash c : to_ascii_lowercase_char c = DASH → c = DASH.
Proof.
  unfold to_ascii_lowercase_char, is_ascii_uppercase, in_range, DASH.
  destruct (Z.leb_spec 65 c), (Z.leb_spec c 90); cbn; lia.
Qed.

Lemma lower_whitespace c : is_ascii_whitespace (to_ascii_lowercase_char c) = is_ascii_whitespace c.
Proof.
  unfold to_ascii_lowercase_char, is_ascii_uppercase, in_range, is_ascii_whitespace.
  destruct (Z.leb_spec 65 c), (Z.leb_spec c 90); cbn [andb]; try done.
  repeat match goal with |- context [?a =? ?b] => destruct (Z.eqb_spec a b); try lia end; done.
Qed.

Lemma folded_space_obfuscation c :
  is_ascii_whitespace c = true → c ≠ CR → c ≠ LF → is_obfuscation_byte c = true.
Proof.
  unfold is_ascii_whitespace, is_obfuscation_byte, CR, LF. rewrite !orb_true_iff, !Z.eqb_eq. lia.
Qed.

Lemma same_byte_refl a b : same_byte a b = true ↔ to_ascii_lowercase_char a = to_ascii_lowercase_char b.
Proof. apply Z.eqb_eq. Qed.

Lemma align_loop_prefix name : ∀ reserved (dash : bool) i j more,
  plain_reserved reserved = true → unbroken name →
  (if dash then head reserved ≠ Some DASH ∧ folded name = DASH :: to_ascii_lowercase reserved ++ more
   else folded name = to_ascii_lowercase reserved ++ more) →
  ∃ k, align_loop name reserved dash i j = ((i + k)%nat, (j + length reserved)%nat) ∧
    (folded (drop k name) = more ∨
     last ((if dash then DASH else 0) :: reserved) = Some DASH).
Proof.
  induction name as [|nc name IH]; intros reserved dash i j more Hr Hu Hfold.
  { destruct dash; [by destruct Hfold|]. symmetry in Hfold. apply app_eq_nil in Hfold as [Hres ->].
    destruct reserved; [|done]. exists 0%nat. cbn. rewrite !Nat.add_0_r. by auto. }
  destruct reserved as [|rc reserved].
  { exists 0%nat. cbn [align_loop length]. rewrite !Nat.add_0_r. split; [done|].
    destruct dash; [by right|left]. by rewrite drop_0. }
  cbn [plain_reserved] in Hr. apply andb_true_iff in Hr as [[Hws Hdd]%andb_true_iff Hr].
  apply negb_true_iff in Hws, Hdd.
  assert (Hu' : unbroken name) by (unfold unbroken in *; set_solver).
  assert (Hnc : nc ≠ CR ∧ nc ≠ LF) by (unfold unbroken in *; set_solver).
  cbn [align_loop]. rewrite folded_cons in Hfold. destruct (is_ascii_whitespace nc) eqn:En.
  - assert (Hsb : same_byte nc rc = false).
    { apply not_true_iff_false. intros Heq%same_byte_refl.
      rewrite <-lower_whitespace, Heq, lower_whitespace in En. congruence. }
    assert (Hnd : nc =? DASH = false).
    { apply Z.eqb_neq. intros ->. done. }
    rewrite Hsb, Hnd, andb_false_r, (folded_space_obfuscation nc En) by apply Hnc. rewrite andb_true_r.
    destruct (Z.eqb_spec rc DASH) as [->|Hrc].
    + destruct dash; [by destruct Hfold as [[] ?]|]. cbn in Hdd. apply bool_decide_eq_false in Hdd.
      destruct (IH reserved true (S i) (S j) more Hr Hu' (conj Hdd Hfold)) as (k & -> & Hk).
      exists (S k). split; [f_equal; cbn; lia|]. destruct Hk as [Hk|Hk]; [by left|right].
      destruct reserved; done.
    + assert (Hr' : plain_reserved (rc :: reserved) = true).
      { cbn. rewrite Hws, Hr, (proj2 (Z.eqb_neq _ _) Hrc). done. }
      destruct (IH (rc :: reserved) dash (S i) j more Hr' Hu' Hfold) as (k & -> & Hk).
      exists (S k). split; [f_equal; cbn; lia|done].
  - destruct dash.
    + destruct Hfold as [Hh Hfold]. injection Hfold as ->%lower_dash Hfold.
      assert (Hrc : rc ≠ DASH) by (cbn in Hh; congruence).
      assert (Hsb : same_byte DASH rc = false).
      { apply not_true_iff_false. intros Heq%same_byte_refl. symmetry in Heq. by apply lower_dash in Heq. }
      rewrite Hsb, (proj2 (Z.eqb_neq _ _) Hrc). cbn [andb]. rewrite Z.eqb_refl.
      assert (Hr' : plain_reserved (rc :: reserved) = true).
      { cbn. rewrite Hws, Hr, (proj2 (Z.eqb_neq _ _) Hrc). done. }
      destruct (IH (rc :: reserved) false (S i) j more Hr' Hu' Hfold) as (k & -> & Hk).
      exists (S k). split; [f_equal; cbn; lia|done].
    + cbn in Hfold. injection Hfold as Heq Hfold. apply same_byte_refl in Heq. rewrite Heq.
      destruct (IH reserved false (S i) (S j) more Hr Hu' Hfold) as (k & -> & Hk).
      exists (S k). split; [f_equal; cbn; lia|]. destruct Hk as [Hk|Hk]; [by left|right].
      by destruct reserved.
Qed.

Lemma folded_nil_trim name : unbroken name → folded name = [] → trim_start_matches is_obfuscation_byte name = [].
Proof.
  induction name as [|c name IH]; [done|]. intros Hu. rewrite folded_cons.
  destruct (is_ascii_whitespace c) eqn:Ec; [|done]. intros Hf. cbn.
  rewrite folded_space_obfuscation by (unfold unbroken in *; set_solver).
  apply IH; [unfold unbroken in *; set_solver|done].
Qed.

Lemma name_matches_folded name reserved :
  plain_reserved reserved = true → last (0 :: reserved) ≠ Some DASH → unbroken name →
  folded name = to_ascii_lowercase reserved → name_matches name reserved = true.
Proof.
  intros Hr Hl Hu Hf. rewrite <-(app_nil_r (to_ascii_lowercase reserved)) in Hf.
  destruct (align_loop_prefix name reserved false 0 0 [] Hr Hu Hf) as (k & Ha & Hk).
  unfold name_matches, align. rewrite Ha. cbn. rewrite Nat.eqb_refl. cbn.
  destruct Hk as [Hk|Hk]; [|done]. rewrite folded_nil_trim; [done| |done].
  destruct Hu as [H1 H2]. split; intros Hin; [apply H1|apply H2];
    rewrite <-(take_drop k name); set_solver.
Qed.

Lemma name_starts_with_folded name prefix more :
  plain_reserved prefix = true → unbroken name →
  folded name = to_ascii_lowercase prefix ++ more → name_starts_with name prefix = true.
Proof.
  intros Hr Hu Hf. destruct (align_loop_prefix name prefix false 0 0 more Hr Hu Hf) as (k & Ha & _).
  unfold name_starts_with, align. rewrite Ha. apply Nat.eqb_refl.
Qed.

(** A name that starts with another letter is not matched. *)
Lemma name_matches_other name reserved rc c more :
  reserved = rc :: more → rc ≠ DASH → is_ascii_whitespace rc = false → unbroken name →
  head (folded name) = Some c → c ≠ to_ascii_lowercase_char rc → is_obfuscation_byte c = false →
  name_matches name reserved = false.
Proof.
  intros -> Hd Hws Hu Hh Hc Ho. unfold name_matches, align.
  assert (Hj : (align_loop name (rc :: more) false 0 0).2 = 0%nat).
  2: { destruct (align_loop _ _ _ _ _) as [i j]. cbn in Hj. by rewrite Hj. }
  generalize 0%nat at 1. revert Hu Hh. induction name as [|nc name IH]; intros Hu Hh i; [done|].
  rewrite folded_cons in Hh. cbn [align_loop]. rewrite (proj2 (Z.eqb_neq _ _) Hd). cbn [andb].
  destruct (is_ascii_whitespace nc) eqn:En.
  - rewrite folded_space_obfuscation by (try done; unfold unbroken in *; set_solver).
    destruct (same_byte nc rc) eqn:Es.
    { apply same_byte_refl in Es. rewrite <-lower_whitespace, Es, lower_whitespace in En. congruence. }
    apply IH; [unfold unbroken in *; set_solver|done].
  - injection Hh as Hh. destruct (same_byte nc rc) eqn:Es; [apply same_byte_refl in Es; congruence|].
    assert (Hobf : is_obfuscation_byte nc = false).
    { rewrite <-Hh in Ho. unfold to_ascii_lowercase_char in Ho. destruct (is_ascii_uppercase nc) eqn:Eu; [|done].
      unfold is_ascii_uppercase, in_range in Eu. rewrite andb_true_iff, !Z.leb_le in Eu.
      unfold is_obfuscation_byte. rewrite !orb_false_iff, !Z.eqb_neq. lia. }
    by rewrite Hobf.
Qed.

(** ** Reading the stripped message *)

(** A line of framed text: its text has no CR and no LF. *)
Definition framed_line (line : list Z) : Prop :=
  ∃ text, unbroken text ∧ (line = text ∨ line = text ++ [CR; LF]).

Lemma framed_lines data : framed_text data → Forall framed_line (split_inclusive LF data).
Proof.
  induction 1 as [|rest Hr IH|b rest Hcr Hlf Hnul Hr IH]; [done| |].
  - change (CR :: LF :: rest) with ([CR; LF] ++ rest).
    rewrite split_inclusive_ended by (exists [CR]; set_solver).
    constructor; [|done]. exists []. split; [split; set_solver|by right].
  - cbn [split_inclusive]. rewrite (proj2 (Z.eqb_neq _ _) Hlf).
    destruct (split_inclusive LF rest) as [|l ls].
    + constructor; [|done]. exists [b]. split; [split; set_solver|by left].
    + apply Forall_cons in IH as [(text & [H1 H2] & Hl) IH]. constructor; [|done].
      exists (b :: text). split; [split; set_solver|]. destruct Hl as [-> | ->]; auto.
Qed.

(** What stands before a colon in a framed line is unbroken. *)
Lemma framed_before_colon a b : framed_line (a ++ COLON :: b) → unbroken a.
Proof.
  intros (text & [H1 H2] & [Heq|Heq]).
  - split; set_solver.
  - assert (Ha : a `prefix_of` text).
    { destruct (decide (length a ≤ length text)%nat) as [Hle|Hgt].
      - exists (drop (length a) text). apply (f_equal (take (length a))) in Heq.
        rewrite take_app_length, take_app_le in Heq by done. rewrite Heq at 1. by rewrite take_drop.
      - exfalso. assert (Hd : COLON :: b = drop (length a) (text ++ [CR; LF])) by (by rewrite <-Heq, drop_app_length).
        rewrite drop_app_ge in Hd by lia.
        destruct (length a - length text)%nat as [|[|[|n]]] eqn:En; cbn in Hd; [lia|done|done|done]. }
    destruct Ha as [c ->]. split; set_solver.
Qed.

Lemma trim_end_matches_prefix p s : trim_end_matches p s `prefix_of` s.
Proof.
  unfold trim_end_matches. assert (Hs : ∃ k, rev s = k ++ trim_start_matches p (rev s)).
  { induction (rev s) as [|x l [k IH]]; [by exists []|]. cbn. destruct (p x); [|by exists []].
    exists (x :: k). cbn. by rewrite <-IH. }
  destruct Hs as [k Hk]. exists (rev k). rewrite <-rev_app_distr, <-Hk. by rewrite rev_involutive.
Qed.

Lemma fold_trailing_space_prefix name : fold_trailing_space name `prefix_of` name.
Proof.
  unfold fold_trailing_space. destruct (from_utf8 name) as [text|] eqn:E; [|done].
  apply as_bytes_from_utf8 in E as <-. destruct (trim_end_matches_prefix is_whitespace text) as [k Hk].
  unfold trim_end. exists (as_bytes k). by rewrite Hk at 1; rewrite as_bytes_app.
Qed.

Lemma unbroken_prefix a b : a `prefix_of` b → unbroken b → unbroken a.
Proof. intros [k ->] [H1 H2]. split; set_solver. Qed.

Lemma split_field_from_Some line offset name value :
  split_field_from line offset = Some (name, value) →
  ∃ a b, line = a ++ b ++ COLON :: value ∧ length a = offset ∧ COLON ∉ b ∧
    name = fold_trailing_space (trim_ascii_end b).
Proof.
  unfold split_field_from. destruct (Nat.leb_spec offset (length line)) as [Hle|]; [|done].
  destruct (position _ (drop offset line)) as [e|] eqn:Ep; cbn; [|done]. intros [= <- <-].
  apply position_Some in Ep as (x & Hx & ->%Z.eqb_eq & Hf).
  exists (take offset line), (take e (drop offset line)). split_and!.
  - rewrite <-(take_drop offset line) at 1. f_equal.
    by rewrite <-(take_drop_middle (drop offset line) e COLON) at 1.
  - rewrite length_take. lia.
  - intros Hin. rewrite Forall_forall in Hf. apply Hf in Hin. by rewrite Z.eqb_refl in Hin.
  - done.
Qed.

(** A name read in a line of framed text is unbroken. *)
Lemma split_field_unbroken line name value :
  framed_line line → split_field line = Some (name, value) → unbroken name.
Proof.
  intros Hl (a & b & -> & _ & _ & ->)%split_field_from_Some. rewrite (app_assoc a b) in Hl.
  apply framed_before_colon in Hl as [H1 H2].
  apply (unbroken_prefix _ b); [|split; set_solver].
  etransitivity; [apply fold_trailing_space_prefix|apply trim_end_matches_prefix].
Qed.

Lemma position_app p l more i : position p l = Some i → position p (l ++ more) = Some i.
Proof.
  revert i. induction l as [|x l IH]; intros i; cbn; [done|]. destruct (p x); [done|].
  destruct (position p l) as [j|]; cbn; [|done]. by rewrite (IH j).
Qed.

(** A folded field has the name of its first line. *)
Lemma split_field_app line name value more :
  split_field line = Some (name, value) → split_field (line ++ more) = Some (name, value ++ more).
Proof.
  intros Hs. assert (Hstart : name_start (line ++ more) = name_start line ∧ (name_start line < length line)%nat).
  { apply split_field_from_Some in Hs as (a & b & Heq & Ha & _ & _). unfold name_start in *.
    destruct (position _ line) as [i|] eqn:Ep.
    - rewrite (position_app _ _ _ _ Ep). split; [done|]. apply position_Some in Ep as (x & Hx & _).
      by apply lookup_lt_Some in Hx.
    - exfalso. cbn in Ha. apply (f_equal length) in Heq. rewrite !length_app in Heq. cbn in Heq. lia. }
  destruct Hstart as [Hstart Hlt]. unfold split_field, split_field_from in *. rewrite Hstart.
  rewrite (proj2 (Nat.leb_le _ _)) in Hs by lia.
  rewrite (proj2 (Nat.leb_le _ _)) by (rewrite length_app; lia).
  rewrite drop_app_le by lia. set (rest := drop (name_start line) line) in *.
  destruct (position _ rest) as [e|] eqn:Ep; cbn in Hs; [|done]. rewrite (position_app _ _ _ _ Ep). cbn.
  injection Hs as <- <-. apply position_Some in Ep as (x & Hx & _). apply lookup_lt_Some in Hx.
  by rewrite take_app_le, drop_app_le by lia.
Qed.

(** Every line that starts a field is the start of one of the fields. *)
Lemma group_starts lines : ∀ field, ∃ more, field ++ more ∈ (group field lines).1.
Proof.
  induction lines as [|l lines IH]; intros field; cbn [group].
  - exists []. rewrite app_nil_r. set_solver.
  - destruct (continues l).
    + destruct (IH (field ++ l)) as [more Hm]. exists (l ++ more). by rewrite app_assoc.
    + exists []. rewrite app_nil_r. destruct (is_blank l); [set_solver|].
      destruct (group l lines). set_solver.
Qed.

Lemma group_line pre line post : ∀ field,
  Forall (λ l, is_blank l = false) pre → line ∈ pre → continues line = false →
  ∃ more, line ++ more ∈ (group field (pre ++ post)).1.
Proof.
  induction pre as [|l pre IH]; intros field Hb Hin Hc; [set_solver|].
  apply Forall_cons in Hb as [Hl Hb]. cbn [group app]. apply elem_of_cons in Hin as [<-|Hin].
  - rewrite Hc, Hl. destruct (group_starts (pre ++ post) line) as [more Hm].
    destruct (group line (pre ++ post)) as [fs rest]. exists more. set_solver.
  - destruct (continues l); [by apply IH|]. rewrite Hl.
    destruct (IH l Hb Hin Hc) as [more Hm]. destruct (group l (pre ++ post)). exists more. set_solver.
Qed.

Lemma fields_of_line pre line post :
  Forall (λ l, is_blank l = false) pre → line ∈ pre → continues line = false →
  ∃ more, line ++ more ∈ (fields_of (pre ++ post)).1.
Proof.
  intros Hb Hin Hc. destruct pre as [|l pre]; [set_solver|]. apply Forall_cons in Hb as [Hl Hb].
  cbn [fields_of app]. rewrite Hl. apply elem_of_cons in Hin as [<-|Hin]; [apply group_starts|].
  by apply group_line.
Qed.

Lemma unterminated_not_blank l : is_empty (unterminated l) = false → is_blank l = false.
Proof.
  unfold is_blank. intros Hu. destruct (decide (l = [CR; LF])) as [->|]; [done|].
  destruct (decide (l = [LF])) as [->|]; [done|]. by rewrite !bool_decide_false.
Qed.

(** No value is read when no line of the block names the field. *)
Lemma values_loop_none wanted lines :
  Forall (λ l, continues l = false → ∀ name value, split_field l = Some (name, value) →
    same_name name wanted = false) lines →
  values_loop wanted lines false [] = [].
Proof.
  induction 1 as [|l lines Hl _ IH]; [done|]. cbn [values_loop]. destruct (continues l); [done|].
  destruct (split_field l) as [[name value]|]; [|done]. by rewrite (Hl eq_refl name value eq_refl).
Qed.

(** The names the strip reserves, in any spelling. *)
Definition reserved (wanted : list Z) : bool :=
  existsb (same_name wanted) RESERVED_NAMES ||
  existsb (λ p, starts_with (folded p) (folded wanted)) RESERVED_PREFIXES.

Lemma starts_with_app p s : starts_with p s = true → ∃ more, s = p ++ more.
Proof.
  revert s. induction p as [|x p IH]; intros [|y s]; cbn; try done; [by eexists..|].
  rewrite andb_true_iff, Z.eqb_eq. intros [-> [more ->]%IH]. by exists more.
Qed.

(** A field under a reserved name goes, whatever its value. *)
Lemma reserved_removed name wanted field value hostname :
  reserved wanted = true → same_name name wanted = true → unbroken name →
  split_field field = Some (name, value) → remove field hostname true = true.
Proof.
  intros Hres Hsame%same_name_spec Hu Hs. unfold remove. unfold split_field in Hs. rewrite Hs.
  assert (Hfirst : ∃ c, head (folded name) = Some c ∧ c ∈ [114; 100; 101; 120]).
  { rewrite Hsame. unfold reserved in Hres. apply orb_true_iff in Hres as [Hr|Hr].
    - apply existsb_exists in Hr as (r & Hr & ->%same_name_spec).
      repeat destruct Hr as [<-|Hr]; [eexists; split; [reflexivity|set_solver]..|done].
    - apply existsb_exists in Hr as (p & Hp & [more ->]%starts_with_app).
      repeat destruct Hp as [<-|Hp]; [eexists; split; [reflexivity|set_solver]..|done]. }
  destruct Hfirst as (c & Hh & Hc).
  rewrite (name_matches_other name (lit "Authentication-Results") 65 c (lit "uthentication-Results"));
    [|done|done|done|done|done|set_solver|].
  2: { rewrite !elem_of_cons in Hc. destruct Hc as [->|[->|[->|[->|Hc]]]]; [done..|]. by apply not_elem_of_nil in Hc. }
  unfold reserved in Hres. apply orb_true_iff in Hres as [Hr|Hr]; apply orb_true_iff; [left|right].
  - apply existsb_exists in Hr as (r & Hr & Hw%same_name_spec). apply existsb_exists. exists r.
    split; [done|]. rewrite Hw in Hsame.
    apply name_matches_folded; [| |done|]; repeat destruct Hr as [<-|Hr]; by try done.
  - apply existsb_exists in Hr as (p & Hp & [more Hm]%starts_with_app). apply existsb_exists. exists p.
    split; [done|]. rewrite Hm in Hsame.
    apply (name_starts_with_folded name p more); [|done|]; repeat destruct Hp as [<-|Hp]; by try done.
Qed.

(** C21: Mail from outside carries no trust field of this server. In a framed
    message, as the SMTP session delivers it, the strip leaves nothing that
    the header reader finds under a reserved name or prefix, in any case or
    spacing of the name. *)
Theorem reserved_fields_unreadable (data hostname wanted : list Z) :
  framed_text data → reserved wanted = true →
  ∃ out, strip data hostname = Some out ∧ header_values out wanted = [].
Proof.
  intros Hframed Hres. exists (stripped data hostname true). split; [apply strip_with_stripped|].
  set (out := stripped data hostname true).
  destruct (stripped_lines data hostname true) as [Hsub Hfields]. fold out in Hsub, Hfields.
  destruct (blank_line_loop_spec [] (split_inclusive LF out)) as (pre & post & Hs & Hb & Hpre & _).
  unfold header_values. cbn [app] in Hb.
  assert (Hblock : take (header_block_end out) out = concat pre).
  { unfold header_block_end, split_at_blank_line. rewrite Hb.
    rewrite <-(concat_split_inclusive LF out), Hs, concat_app. by rewrite take_app_length. }
  rewrite Hblock, (split_inclusive_prefix _ _ _ _ Hs), values_loop_none; [done|].
  apply Forall_forall. intros l Hl Hc name value Hf. apply not_true_iff_false. intros Hsame.
  assert (Hbl : Forall (λ l, is_blank l = false) pre).
  { eapply Forall_impl; [exact Hpre|]. apply unterminated_not_blank. }
  destruct (fields_of_line pre l post Hbl Hl Hc) as [more Hin]. rewrite <-Hs, Hfields in Hin.
  cbn [fst] in Hin. apply list_elem_of_In, filter_In in Hin as [_ Hin]. apply negb_true_iff in Hin.
  assert (Hline : framed_line l).
  { apply framed_lines in Hframed. rewrite Forall_forall in Hframed. apply Hframed.
    eapply elem_of_sublist; [|exact Hsub]. rewrite Hs. set_solver. }
  rewrite (reserved_removed name wanted _ (value ++ more)) in Hin; try done.
  - by eapply split_field_unbroken.
  - by apply split_field_app.
Qed.

Lemma reserved_fields_unreadable_witness :
  ∃ out, strip (lit "X - Epistle: forged" ++ [CR; LF; CR; LF]) (lit "mx.example.org") = Some out ∧
    header_values out (lit "x-epistle") = [].
Proof.
  apply (reserved_fields_unreadable (lit "X - Epistle: forged" ++ [CR; LF; CR; LF]) (lit "mx.example.org")
    (lit "x-epistle")).
  - apply framed_text_spec. vm_compute. by split.
  - vm_compute. reflexivity.
Defined.
