(* ===== verification/Mutf7.v ===== *)
(** Modified UTF-7, the spelling of mailbox names on disk
    (src/src/util/mutf7/mod.rs). *)

From S2P Require Import Prelude RustStd Utf8 Slices.

Local Open Scope Z_scope.

Definition AMP : Z := 38.
Definition DASH : Z := 45.

Definition ALPHABET : list Z := lit "ABCDEFGHIJKLMNOPQRSTUVWXYZabcdefghijklmnopqrstuvwxyz0123456789+,".

(** [(' '..='~').contains(&c)]. *)
Definition printable (c : Z) : bool := in_range 32 126 c.

(** [char::encode_utf16]. *)
Definition encode_utf16 (c : Z) : list Z :=
  if c <? 0x10000 then [c] else [0xD800 + (c - 0x10000) / 1024; 0xDC00 + (c - 0x10000) mod 1024].

(** [u16::to_be_bytes]. *)
Definition to_be_bytes (unit : Z) : list Z := [unit / 256; unit mod 256].

Definition sextet (bits : Z) (index : Z) : Z := Z.land (Z.shiftr bits (18 - 6 * index)) 0x3f.

(** [ALPHABET[sextet as usize]]; a sextet is always in range. *)
Definition symbol (s : Z) : Z := default 0 (ALPHABET !! Z.to_nat s).

Definition group_bits (a b c : Z) : Z := Z.lor (Z.lor (Z.shiftl a 16) (Z.shiftl b 8)) c.

(** The symbols of the octets, in chunks of three. *)
Fixpoint base64 (bytes : list Z) : list Z :=
  match bytes with
  | a :: b :: c :: rest =>
      map (λ i, symbol (sextet (group_bits a b c) i)) [0; 1; 2; 3] ++ base64 rest
  | [a; b] => map (λ i, symbol (sextet (group_bits a b 0) i)) [0; 1; 2]
  | [a] => map (λ i, symbol (sextet (group_bits a 0 0) i)) [0; 1]
  | [] => []
  end.

Definition flush (out run : list Z) : list Z :=
  match run with
  | [] => out
  | _ => out ++ [AMP] ++ base64 (flat_map to_be_bytes run) ++ [DASH]
  end.

Fixpoint encode_loop (name out run : list Z) : list Z :=
  match name with
  | [] => flush out run
  | c :: name =>
      if printable c then encode_loop name (flush out run ++ (if c =? AMP then [AMP; DASH] else [c])) []
      else encode_loop name out (run ++ encode_utf16 c)
  end.

Definition encode (name : list Z) : list Z := encode_loop name [] [].

(** [bits << n] in 32 bits. *)
Definition shl32 (bits n : Z) : Z := Z.land (Z.shiftl bits n) u32_max.

(** The octets of the symbols; [None] is a symbol out of the alphabet. *)
Fixpoint decode_symbols (symbols : list Z) (bits count : Z) (bytes : list Z) : option (list Z) :=
  match symbols with
  | [] => Some bytes
  | s :: symbols =>
      value ← position (λ a, a =? s) ALPHABET;
      let bits := Z.lor (shl32 bits 6) (Z.of_nat value) in
      let count := count + 6 in
      if 8 <=? count then
        let count := count - 8 in
        decode_symbols symbols (Z.land bits (Z.shiftl 1 count - 1)) count (bytes ++ [Z.land (Z.shiftr bits count) 0xff])
      else decode_symbols symbols bits count bytes
  end.

(** [chunks(2)] and [u16::from_be_bytes], of an even number of octets. *)
Fixpoint from_be_pairs (bytes : list Z) : list Z :=
  match bytes with a :: b :: rest => (a * 256 + b) :: from_be_pairs rest | _ => [] end.

Definition is_high (u : Z) : bool := in_range 0xD800 0xDBFF u.
Definition is_low (u : Z) : bool := in_range 0xDC00 0xDFFF u.

(** [String::from_utf16]. *)
Fixpoint from_utf16 (units : list Z) : option (list Z) :=
  match units with
  | [] => Some []
  | u :: rest =>
      if is_high u then
        match rest with
        | l :: rest' =>
            if is_low l then cons (0x10000 + (u - 0xD800) * 1024 + (l - 0xDC00)) <$> from_utf16 rest' else None
        | [] => None
        end
      else if is_low u then None
      else cons u <$> from_utf16 rest
  end.

Definition decode_run (run : list Z) : option (list Z) :=
  bytes ← decode_symbols (as_bytes run) 0 0 [];
  if Nat.even (length bytes) then from_utf16 (from_be_pairs bytes) else None.

(** The loop of [decode]; [fuel] bounds the characters. *)
Fixpoint decode_loop (fuel : nat) (rest out : list Z) : option (list Z) :=
  match rest with
  | [] => Some out
  | c :: rest =>
      match fuel with
      | O => None
      | S fuel =>
          if c =? AMP then
            '(run, after) ← split_once DASH rest;
            if is_empty run then decode_loop fuel after (out ++ [AMP])
            else (text ← decode_run run; decode_loop fuel after (out ++ text))
          else if printable c then decode_loop fuel rest (out ++ [c])
          else None
      end
  end.

Definition decode (name : list Z) : option (list Z) :=
  out ← decode_loop (length name) name [];
  if str_eqb (encode out) name then Some out else None.

(** ** The alphabet *)

Lemma ALPHABET_length : length ALPHABET = 64%nat.
Proof. done. Qed.

Lemma symbol_position s : 0 ≤ s < 64 → position (λ a, a =? symbol s) ALPHABET = Some (Z.to_nat s).
Proof.
  intros Hs. assert (Hall : Forall (λ i, position (λ a, a =? symbol (Z.of_nat i)) ALPHABET = Some i) (seq 0 64)).
  { apply (bool_decide_unpack _). vm_compute. exact I. }
  rewrite Forall_forall in Hall. specialize (Hall (Z.to_nat s)). rewrite Z2Nat.id in Hall by lia.
  apply Hall, elem_of_seq. lia.
Qed.

Definition base64_symbol (c : Z) : Prop := printable c = true ∧ c ≠ DASH ∧ c ≠ AMP.

Lemma symbol_ok s : 0 ≤ s < 64 → base64_symbol (symbol s).
Proof.
  intros Hs. assert (Hall : Forall (λ c, printable c = true ∧ c ≠ DASH ∧ c ≠ AMP) ALPHABET).
  { apply (bool_decide_unpack _). vm_compute. exact I. }
  unfold symbol. destruct (lookup_lt_is_Some_2 ALPHABET (Z.to_nat s)) as [c Hc].
  { rewrite ALPHABET_length. lia. }
  rewrite Hc. cbn. rewrite Forall_lookup in Hall. by apply (Hall _ _ Hc).
Qed.

(** ** Groups of three octets *)

Definition octet (b : Z) : Prop := 0 ≤ b < 256.

Lemma lor_sum a c n : 0 ≤ n → 0 ≤ c < 2 ^ n → Z.lor (a * 2 ^ n) c = a * 2 ^ n + c.
Proof.
  intros Hn Hc. rewrite <-Z.add_lor_land. replace (Z.land (a * 2 ^ n) c) with 0; [lia|].
  symmetry. rewrite <-Z.shiftl_mul_pow2 by done. apply Z.bits_inj'. intros i Hi.
  rewrite Z.land_spec, Z.shiftl_spec, Z.bits_0 by done. destruct (Z.ltb_spec i n).
  - by rewrite Z.testbit_neg_r by lia.
  - rewrite <-(Z.mod_small c (2 ^ n)) by done. rewrite Z.mod_pow2_bits_high by lia. apply andb_false_r.
Qed.

Lemma group_bits_sum a b c : octet a → octet b → octet c → group_bits a b c = a * 65536 + b * 256 + c.
Proof.
  unfold octet, group_bits. intros Ha Hb Hc. rewrite !Z.shiftl_mul_pow2 by lia.
  rewrite (lor_sum a (b * 2 ^ 8) 16) by lia. replace (a * 2 ^ 16 + b * 2 ^ 8) with ((a * 256 + b) * 2 ^ 8) by lia.
  rewrite lor_sum by lia. lia.
Qed.

Lemma sextet_div bits i : 0 ≤ i ≤ 3 → sextet bits i = bits / 2 ^ (18 - 6 * i) mod 64.
Proof.
  intros Hi. unfold sextet. change 0x3f with (Z.ones 6). rewrite Z.land_ones, Z.shiftr_div_pow2 by lia. done.
Qed.

Lemma sextet_range bits i : 0 ≤ i ≤ 3 → 0 ≤ sextet bits i < 64.
Proof. intros Hi. rewrite sextet_div by done. apply Z.mod_pos_bound. lia. Qed.

(** One symbol, with fewer than eight bits pending. *)
Lemma decode_symbol s bits count bytes rest :
  0 ≤ s < 64 → 0 ≤ count < 8 → 0 ≤ bits < 2 ^ count →
  decode_symbols (symbol s :: rest) bits count bytes =
  (if 2 <=? count then
     decode_symbols rest ((bits * 64 + s) mod 2 ^ (count - 2)) (count - 2)
       (bytes ++ [((bits * 64 + s) / 2 ^ (count - 2)) mod 256])
   else decode_symbols rest (bits * 64 + s) (count + 6) bytes).
Proof.
  intros Hs Hc Hb. cbn [decode_symbols]. rewrite symbol_position by done. cbn [mbind option_bind].
  rewrite Z2Nat.id by lia. unfold shl32. change u32_max with (Z.ones 32).
  assert (Hb8 : bits < 2 ^ 8) by (pose proof (Z.pow_lt_mono_r 2 count 8); lia).
  rewrite Z.land_ones, Z.shiftl_mul_pow2, Z.mod_small by lia. rewrite lor_sum by lia. change (2 ^ 6) with 64.
  destruct (Z.leb_spec 2 count) as [Hge|Hlt].
  - rewrite (proj2 (Z.leb_le 8 (count + 6))) by lia. replace (count + 6 - 8) with (count - 2) by lia.
    change 0xff with (Z.ones 8). rewrite Z.land_ones, Z.shiftr_div_pow2 by lia.
    replace (Z.shiftl 1 (count - 2) - 1) with (Z.ones (count - 2)).
    + by rewrite Z.land_ones by lia.
    + rewrite Z.ones_equiv, Z.shiftl_1_l. lia.
  - by rewrite (proj2 (Z.leb_gt 8 (count + 6))) by lia.
Qed.

Ltac divs := Z.to_euclidean_division_equations; lia.

(** The symbols of a group give its octets back, as many as there are. *)
Lemma group_octets G s0 s1 s2 s3 a b c :
  octet a → octet b → octet c → G = a * 65536 + b * 256 + c →
  s0 = G / 2 ^ 18 mod 64 → s1 = G / 2 ^ 12 mod 64 → s2 = G / 2 ^ 6 mod 64 → s3 = G / 2 ^ 0 mod 64 →
  (s0 * 64 + s1) / 2 ^ 4 mod 256 = a ∧
  ((s0 * 64 + s1) mod 2 ^ 4 * 64 + s2) / 2 ^ 2 mod 256 = b ∧
  (((s0 * 64 + s1) mod 2 ^ 4 * 64 + s2) mod 2 ^ 2 * 64 + s3) / 2 ^ 0 mod 256 = c.
Proof.
  unfold octet. intros Ha Hb Hc -> H0 H1 H2 H3.
  assert (E0 : s0 = a / 4) by (rewrite H0; change (2 ^ 18) with 262144; divs).
  assert (E1 : s1 = a mod 4 * 16 + b / 16) by (rewrite H1; change (2 ^ 12) with 4096; divs).
  assert (E2 : s2 = b mod 16 * 4 + c / 64) by (rewrite H2; change (2 ^ 6) with 64; divs).
  assert (E3 : s3 = c mod 64) by (rewrite H3; change (2 ^ 0) with 1; divs).
  clear H0 H1 H2 H3. subst. change (2 ^ 4) with 16. change (2 ^ 2) with 4. change (2 ^ 0) with 1.
  split_and!; divs.
Qed.

(** The four places of a symbol in its group. *)
Lemma symbol_first s acc rest : 0 ≤ s < 64 →
  decode_symbols (symbol s :: rest) 0 0 acc = decode_symbols rest s 6 acc.
Proof. intros Hs. by rewrite decode_symbol. Qed.

Lemma symbol_later count s bits acc rest :
  0 ≤ s < 64 → (count = 6 ∨ count = 4 ∨ count = 2) → 0 ≤ bits < 2 ^ count →
  decode_symbols (symbol s :: rest) bits count acc =
  decode_symbols rest ((bits * 64 + s) mod 2 ^ (count - 2)) (count - 2)
    (acc ++ [((bits * 64 + s) / 2 ^ (count - 2)) mod 256]).
Proof. intros Hs Hc Hb. rewrite decode_symbol by lia. by rewrite (proj2 (Z.leb_le 2 count)) by lia. Qed.

Lemma mod_pow bits n : 0 ≤ n → 0 ≤ bits mod 2 ^ n < 2 ^ n.
Proof. intros Hn. apply Z.mod_pos_bound. lia. Qed.

Lemma decode_base64 n : ∀ bytes acc, (length bytes ≤ n)%nat → Forall octet bytes →
  decode_symbols (base64 bytes) 0 0 acc = Some (acc ++ bytes).
Proof.
  induction n as [|n IH]; intros bytes acc Hn Hb.
  { destruct bytes; [|cbn in Hn; lia]. by rewrite app_nil_r. }
  assert (Hgroup : ∀ a b c, octet a → octet b → octet c →
    let s i := sextet (group_bits a b c) i in
    (s 0 * 64 + s 1) / 2 ^ 4 mod 256 = a ∧
    ((s 0 * 64 + s 1) mod 2 ^ 4 * 64 + s 2) / 2 ^ 2 mod 256 = b ∧
    (((s 0 * 64 + s 1) mod 2 ^ 4 * 64 + s 2) mod 2 ^ 2 * 64 + s 3) / 2 ^ 0 mod 256 = c).
  { intros a b c Ha Hbb Hc s. apply (group_octets (group_bits a b c)); try done; [by apply group_bits_sum|..];
      by apply sextet_div. }
  pose proof sextet_range as Hr. pose proof mod_pow as Hm. assert (H0 : octet 0) by (unfold octet; lia).
  destruct bytes as [|a [|b [|c bytes]]]; cbn [base64 map app].
  - by rewrite app_nil_r.
  - rewrite Forall_singleton in Hb. destruct (Hgroup a 0 0) as (Ea & _); [done..|].
    rewrite symbol_first, (symbol_later 6) by auto with lia.
    change (6 - 2) with 4. rewrite Ea. done.
  - apply Forall_cons in Hb as [Ha Hb]. rewrite Forall_singleton in Hb.
    destruct (Hgroup a b 0) as (Ea & Eb & _); [done..|].
    rewrite symbol_first, (symbol_later 6) by auto with lia. change (6 - 2) with 4.
    rewrite (symbol_later 4) by auto with lia. change (4 - 2) with 2. rewrite Ea, Eb, <-app_assoc. done.
  - apply Forall_cons in Hb as [Ha [Hbb [Hc Hb]%Forall_cons]%Forall_cons].
    destruct (Hgroup a b c) as (Ea & Eb & Ec); [done..|].
    rewrite symbol_first, (symbol_later 6) by auto with lia. change (6 - 2) with 4.
    rewrite (symbol_later 4) by auto with lia. change (4 - 2) with 2.
    rewrite (symbol_later 2) by auto with lia. change (2 - 2) with 0. rewrite Ea, Eb, Ec, Z.mod_1_r.
    rewrite IH by (done || cbn in Hn; lia). by rewrite <-!app_assoc.
Qed.

Lemma base64_symbols n : ∀ bytes, (length bytes ≤ n)%nat → Forall base64_symbol (base64 bytes).
Proof.
  induction n as [|n IH]; intros bytes Hn; [by destruct bytes; [constructor|cbn in Hn; lia]|].
  assert (Hs : ∀ bits i, 0 ≤ i ≤ 3 → base64_symbol (symbol (sextet bits i))).
  { intros. by apply symbol_ok, sextet_range. }
  destruct bytes as [|a [|b [|c bytes]]]; cbn [base64 map app]; repeat (constructor; [apply Hs; lia|]); [done..|].
  apply IH. cbn in Hn. lia.
Qed.

Lemma base64_nonempty bytes : bytes ≠ [] → base64 bytes ≠ [].
Proof. destruct bytes as [|a [|b [|c bytes]]]; done. Qed.

(** ** UTF-16 *)

Definition scalar (c : Z) : Prop := is_scalar c = true.

Lemma encode_utf16_units c : scalar c → Forall (λ u, 0 ≤ u < 65536) (encode_utf16 c).
Proof.
  intros Hc%is_scalar_spec. unfold encode_utf16. destruct (Z.ltb_spec c 0x10000); repeat constructor; try lia; divs.
Qed.

Lemma be_bytes_octets units : Forall (λ u, 0 ≤ u < 65536) units → Forall octet (flat_map to_be_bytes units).
Proof.
  unfold octet. induction 1; cbn [flat_map to_be_bytes]; [constructor|]. cbn [app].
  constructor; [divs|]. constructor; [divs|done].
Qed.

Lemma from_be_bytes units : Forall (λ u, 0 ≤ u < 65536) units → from_be_pairs (flat_map to_be_bytes units) = units.
Proof. induction 1; cbn; [done|]. f_equal; [divs|done]. Qed.

Lemma be_bytes_even units : Nat.even (length (flat_map to_be_bytes units)) = true.
Proof. by induction units. Qed.

Lemma from_utf16_char c rest : scalar c → from_utf16 (encode_utf16 c ++ rest) = cons c <$> from_utf16 rest.
Proof.
  intros Hc%is_scalar_spec. unfold encode_utf16. destruct (Z.ltb_spec c 0x10000); cbn [app from_utf16]; unfold is_high, is_low.
  - rewrite !in_range_false by lia. done.
  - rewrite !in_range_true by divs. destruct (from_utf16 rest); cbn; [|done]. do 2 f_equal. divs.
Qed.

Lemma from_utf16_encode cs : Forall scalar cs → from_utf16 (flat_map encode_utf16 cs) = Some cs.
Proof. induction 1 as [|c cs Hc Hcs IH]; cbn [flat_map]; [done|]. by rewrite from_utf16_char, IH. Qed.

Lemma decode_run_encode cs : Forall scalar cs →
  decode_run (base64 (flat_map to_be_bytes (flat_map encode_utf16 cs))) = Some cs.
Proof.
  intros Hcs. unfold decode_run.
  assert (Hu : Forall (λ u, 0 ≤ u < 65536) (flat_map encode_utf16 cs)).
  { induction Hcs; cbn [flat_map]; [constructor|]. apply Forall_app. split; [by apply encode_utf16_units|done]. }
  rewrite as_bytes_ascii.
  - rewrite (decode_base64 _ _ [] (le_n _)) by (by apply be_bytes_octets). cbn [mbind option_bind app].
    rewrite be_bytes_even, from_be_bytes by done. by apply from_utf16_encode.
  - eapply Forall_impl; [by eapply base64_symbols|]. intros c [Hc _]. unfold printable, in_range in Hc. lia.
Qed.

(** ** The whole name *)

(** What [encode] writes of the rest of a name after a run [cs]. *)
Definition encoded (cs name : list Z) : list Z := encode_loop name [] (flat_map encode_utf16 cs).

Lemma encode_loop_out name : ∀ out run, encode_loop name out run = out ++ encode_loop name [] run.
Proof.
  assert (Hflush : ∀ out run, flush out run = out ++ flush [] run).
  { intros out [|u run]; cbn; [by rewrite app_nil_r|done]. }
  induction name as [|c name IH]; intros out run; cbn [encode_loop]; [apply Hflush|].
  destruct (printable c); [|apply IH]. rewrite IH, (IH (flush [] run ++ _)), (Hflush out run). by rewrite <-!app_assoc.
Qed.

Lemma decode_plain fuel c rest out : c ≠ AMP → printable c = true →
  decode_loop (S fuel) (c :: rest) out = decode_loop fuel rest (out ++ [c]).
Proof. intros Hc Hp. cbn [decode_loop]. apply Z.eqb_neq in Hc. by rewrite Hc, Hp. Qed.

Lemma decode_amp fuel rest out : decode_loop (S fuel) (AMP :: DASH :: rest) out = decode_loop fuel rest (out ++ [AMP]).
Proof. done. Qed.

Lemma decode_encoded_run fuel cs rest out : cs ≠ [] → Forall scalar cs →
  decode_loop (S fuel) (AMP :: base64 (flat_map to_be_bytes (flat_map encode_utf16 cs)) ++ DASH :: rest) out =
  decode_loop fuel rest (out ++ cs).
Proof.
  intros Hne Hcs. cbn [decode_loop]. rewrite Z.eqb_refl.
  set (b := base64 _). assert (Hb : Forall base64_symbol b) by (by eapply base64_symbols).
  assert (Hbne : b ≠ []).
  { apply base64_nonempty. destruct cs as [|c cs]; [done|]. cbn. unfold encode_utf16. by destruct (c <? 0x10000). }
  rewrite split_once_app.
  - cbn [mbind option_bind]. assert (is_empty b = false) as -> by (by destruct b).
    unfold b. by rewrite decode_run_encode.
  - intros Hin. rewrite Forall_forall in Hb. by destruct (Hb _ Hin) as (_ & ? & _).
Qed.

Lemma flush_run cs : flush [] (flat_map encode_utf16 cs) =
  if is_empty cs then [] else AMP :: base64 (flat_map to_be_bytes (flat_map encode_utf16 cs)) ++ [DASH].
Proof.
  destruct cs as [|c cs]; [done|]. cbn [is_empty flat_map]. unfold flush, encode_utf16 at 1. by destruct (c <? 0x10000).
Qed.

Lemma decode_flush fuel cs rest out : Forall scalar cs → (length (flush [] (flat_map encode_utf16 cs) ++ rest) ≤ fuel)%nat →
  ∃ fuel', (length rest ≤ fuel')%nat ∧
    decode_loop fuel (flush [] (flat_map encode_utf16 cs) ++ rest) out = decode_loop fuel' rest (out ++ cs).
Proof.
  intros Hcs Hf. rewrite flush_run in *. destruct cs as [|c cs]; cbn [is_empty app] in *.
  { exists fuel. by rewrite app_nil_r. }
  destruct fuel as [|fuel]; [cbn in Hf; lia|]. exists fuel. rewrite <-app_assoc. split.
  - cbn [length] in Hf. rewrite !length_app in Hf. lia.
  - apply decode_encoded_run; done.
Qed.

Lemma decode_loop_encoded name : Forall scalar name → ∀ cs fuel out,
  Forall scalar cs → (length (encoded cs name) ≤ fuel)%nat →
  decode_loop fuel (encoded cs name) out = Some (out ++ cs ++ name).
Proof.
  unfold encoded. induction 1 as [|c name Hc Hname IH]; intros cs fuel out Hcs Hf; cbn [encode_loop] in *.
  - rewrite <-(app_nil_r (flush _ _)) in Hf |- *. destruct (decode_flush fuel cs [] out Hcs Hf) as (fuel' & _ & ->).
    rewrite app_nil_r. by destruct fuel'.
  - destruct (printable c) eqn:Hp.
    + rewrite encode_loop_out in Hf |- *. rewrite <-app_assoc in Hf |- *.
      destruct (decode_flush fuel cs _ out Hcs Hf) as (fuel' & Hf' & ->). rewrite length_app in Hf'.
      destruct (Z.eqb_spec c AMP) as [->|Hne]; cbn [app length] in *; (destruct fuel' as [|fuel']; [lia|]).
      * rewrite decode_amp. rewrite (IH [] fuel') by (done || cbn [flat_map]; lia). cbn [app]. by rewrite <-!app_assoc.
      * rewrite decode_plain by done. rewrite (IH [] fuel') by (done || cbn [flat_map]; lia).
        cbn [app]. by rewrite <-!app_assoc.
    + replace (flat_map encode_utf16 cs ++ encode_utf16 c) with (flat_map encode_utf16 (cs ++ [c])) in *
        by (rewrite flat_map_app; cbn; by rewrite app_nil_r).
      rewrite IH; [by rewrite <-!app_assoc|by apply Forall_app; auto|done].
Qed.

Lemma encode_printable name : ∀ out run, Forall (λ c, printable c = true) out →
  Forall (λ c, printable c = true) (encode_loop name out run).
Proof.
  assert (Hflush : ∀ out run, Forall (λ c, printable c = true) out → Forall (λ c, printable c = true) (flush out run)).
  { intros out [|u run] Ho; [done|]. cbn [flush]. apply Forall_app. split; [done|]. cbn [app].
    constructor; [done|]. apply Forall_app. split; [|by repeat constructor].
    eapply Forall_impl; [by eapply base64_symbols|]. by intros c [? _]. }
  induction name as [|c name IH]; intros out run Ho; cbn [encode_loop]; [by apply Hflush|].
  destruct (printable c) eqn:Hp; [|by apply IH]. apply IH, Forall_app. split; [by apply Hflush|].
  destruct (c =? AMP); by repeat constructor.
Qed.

(** A mailbox name has exactly one spelling on disk. Encoding any Unicode
    name gives printable ASCII that decodes to the name, and whatever decodes
    to a name is its encoding. *)
Theorem mutf7_one_spelling (name : list Z) (H : Forall scalar name) :
  Forall (λ c, printable c = true) (encode name) ∧
  decode (encode name) = Some name ∧ ∀ spelling, decode spelling = Some name → spelling = encode name.
Proof.
  split; [by apply encode_printable|]. unfold decode. split.
  - change (encode name) with (encoded [] name). rewrite decode_loop_encoded by done. cbn [mbind option_bind app].
    change (encoded [] name) with (encode name). by rewrite str_eqb_refl.
  - intros spelling. destruct (decode_loop _ spelling []) as [out|]; [|done]. cbn [mbind option_bind].
    destruct (str_eqb (encode out) spelling) eqn:E; [|done]. intros [= ->]. by apply str_eqb_eq in E.
Qed.

(** A name with an ampersand, Latin letters and a surrogate pair. *)
Lemma mutf7_one_spelling_witness :
  let name := [65; 38; 233; 252; 128512; 66] in
  encode name = lit "A&-&AOkA,Ng93gA-B" ∧ decode (encode name) = Some name.
Proof.
  assert (H : Forall scalar [65; 38; 233; 252; 128512; 66]) by (apply (bool_decide_unpack _); vm_compute; exact I).
  destruct (mutf7_one_spelling _ H) as (_ & Hd & _). split; [vm_compute; reflexivity|exact Hd].
Defined.
