(* ===== verification/MailboxPath.v ===== *)
(** Mailbox names with levels, their directory on disk
    (src/src/util/mailbox_path/mod.rs), the plain names that may become a path
    component (src/src/util/path_component/mod.rs) and the mailboxes a rule or
    a script may name (src/src/storage/delivery/io.rs). *)

From stdpp Require Import list.
From S2P Require Import Prelude RustStd Utf8 Mutf7.

Local Open Scope Z_scope.

(** ** Path components *)

Definition MAX_COMPONENT_LEN : nat := 128.

Definition SOLIDUS : Z := 47.
Definition BACKSLASH : Z := 92.
Definition FULL_STOP : Z := 46.

Definition is_plain_component (name : list Z) : bool :=
  negb (is_empty name) && (str_len name <=? MAX_COMPONENT_LEN)%nat &&
  negb (str_eqb name (lit ".")) && negb (str_eqb name (lit "..")) &&
  negb (existsb (λ c, is_control c || (c =? SOLIDUS) || (c =? BACKSLASH)) name) &&
  negb (starts_with [SOLIDUS] name).

(** ** Levels *)

Definition DISK_DELIMITER : list Z := lit "&AC8-".
Definition MAX_DEPTH : nat := 16.
Definition MAX_DISK_NAME_LEN : nat := 255.
Definition INBOX : list Z := lit "INBOX".

(** [name.contains(DISK_DELIMITER)]. *)
Fixpoint holds_disk_delimiter (name : list Z) : bool :=
  match name with
  | [] => false
  | _ :: rest => starts_with DISK_DELIMITER name || holds_disk_delimiter rest
  end.

Definition level_char (c : Z) : bool :=
  is_ascii_alphanumeric c || existsb (Z.eqb c) [32; 45; 95; 46] ||
  (negb (is_ascii c) && negb (is_control c) && negb ((c =? 0x2028) || (c =? 0x2029))).

Definition valid_level (level : list Z) : bool :=
  if negb (is_plain_component level) || starts_with [FULL_STOP] level then false
  else match decode level with
       | Some decoded => forallb level_char decoded && negb (ends_with [32] decoded)
       | None => false
       end.

Definition disk_len (name : list Z) : nat :=
  str_len name + length (List.filter (Z.eqb SOLIDUS) name) * (str_len DISK_DELIMITER - 1).

(** The loop over the levels, which stops at the first bad one. *)
Fixpoint valid_levels (depth : nat) (levels : list (list Z)) : bool :=
  match levels with
  | [] => true
  | level :: levels =>
      if (MAX_DEPTH <? S depth)%nat || negb (valid_level level) then false else valid_levels (S depth) levels
  end.

Definition valid_folder (name : list Z) : bool :=
  if eq_ignore_ascii_case name INBOX || holds_disk_delimiter name then false
  else valid_levels 0 (split SOLIDUS name) && (disk_len name <=? MAX_DISK_NAME_LEN)%nat.

Definition canonical (name : list Z) : list Z :=
  match split_once SOLIDUS name with
  | Some (first, rest) =>
      if eq_ignore_ascii_case first INBOX && negb (str_eqb first INBOX) then INBOX ++ SOLIDUS :: rest else name
  | None => name
  end.

(** [replace(DELIMITER, DISK_DELIMITER)]. *)
Definition spell (c : Z) : list Z := if c =? SOLIDUS then DISK_DELIMITER else [c].

Definition disk_name (name : list Z) : list Z := flat_map spell (canonical name).

(** [replace(DISK_DELIMITER, "/")]: occurrences from the left. *)
Fixpoint unspell (fuel : nat) (disk : list Z) : list Z :=
  match fuel, disk with
  | S fuel, c :: rest =>
      match strip_prefix DISK_DELIMITER disk with
      | Some after => SOLIDUS :: unspell fuel after
      | None => c :: unspell fuel rest
      end
  | _, _ => []
  end.

Definition stored_name (disk : list Z) : option (list Z) :=
  let name := unspell (length disk) disk in
  if valid_folder name && str_eqb (disk_name name) disk then Some name else None.

Definition parent (name : list Z) : option (list Z) := fst <$> rsplit_once SOLIDUS name.
Definition leaf (name : list Z) : list Z := match rsplit_once SOLIDUS name with Some (_, l) => l | None => name end.

(** [match_indices(DELIMITER)]: what is before each delimiter. *)
Fixpoint ancestors_from (before rest : list Z) : list (list Z) :=
  match rest with
  | [] => []
  | c :: rest => (if c =? SOLIDUS then [before] else []) ++ ancestors_from (before ++ [c]) rest
  end.

Definition ancestors (name : list Z) : list (list Z) := ancestors_from [] name.

Definition nearest_parent (name : list Z) (exists_ : list Z → bool) : option (list Z) :=
  find exists_ (rev (ancestors name)).

Definition display_leaf (name : list Z) : list Z := default (leaf name) (decode (leaf name)).

Definition child_of (parent : option (list Z)) (level : list Z) : option (list Z) :=
  if is_empty level || contains SOLIDUS level then None
  else
    let level := encode level in
    Some (match parent with Some parent => parent ++ SOLIDUS :: level | None => level end).

Definition is_within (name ancestor : list Z) : bool :=
  match strip_prefix ancestor name with
  | Some rest => is_empty rest || starts_with [SOLIDUS] rest
  | None => false
  end.

(** ** Mailboxes *)

Inductive MailboxName := Inbox | Folder (name : list Z).

Definition mailbox_name (name : list Z) : option MailboxName :=
  if eq_ignore_ascii_case name INBOX then Some Inbox
  else if valid_folder name then Some (Folder name) else None.

Definition is_safe_mailbox (name : list Z) : bool :=
  (str_len name <=? 64)%nat &&
  forallb (λ level,
    negb (is_empty level) &&
    forallb (λ c, is_ascii_alphanumeric c || existsb (Z.eqb c) [45; 95; 32]) level) (split SOLIDUS name).

Definition MAX_FOLDER_NAME_CHARS : nat := 128.

Definition is_bidi_or_invisible (c : Z) : bool :=
  existsb (Z.eqb c) [0x061c; 0x200e; 0x200f] || in_range 0x202a 0x202e c || in_range 0x2066 0x2069 c.

Definition sieve_mailbox (name : list Z) : option (list Z) :=
  if (MAX_FOLDER_NAME_CHARS <? length name)%nat || existsb is_bidi_or_invisible name then None
  else
    let stored := encode name in
    match mailbox_name stored with
    | Some Inbox => Some INBOX
    | Some (Folder _) => Some stored
    | None => None
    end.

(** ** The directory of a mailbox *)

(** A spelled delimiter starts with an ampersand, so that nothing else of the
    pattern can begin inside it. *)
Lemma starts_with_spelled p s :
  38 ∉ p → starts_with p (flat_map spell s) = true → starts_with p s = true.
Proof.
  revert s. induction p as [|x p IH]; intros s Hp; [by destruct s|]. apply not_elem_of_cons in Hp as [Hx Hp].
  destruct s as [|y s]; [done|]. cbn [flat_map]. unfold spell at 1. destruct (Z.eqb_spec y SOLIDUS) as [->|Hy]; cbn.
  - change (DISK_DELIMITER ++ ?l) with (38 :: lit "AC8-" ++ l). cbn iota beta.
    by destruct (Z.eqb_spec x 38); [congruence|].
  - intros [Hxy Hs]%andb_prop. rewrite Hxy. by apply IH.
Qed.

Lemma strip_prefix_app p s : strip_prefix p (p ++ s) = Some s.
Proof.
  unfold strip_prefix. replace (starts_with p (p ++ s)) with true; [by rewrite drop_app_length|].
  induction p as [|x p IH]; cbn; [by destruct s|]. by rewrite Z.eqb_refl.
Qed.

Lemma unspell_spell fuel s :
  holds_disk_delimiter s = false → (length (flat_map spell s) ≤ fuel)%nat → unspell fuel (flat_map spell s) = s.
Proof.
  revert fuel. induction s as [|c s IH]; intros fuel Hd Hf; [by destruct fuel|].
  cbn [holds_disk_delimiter] in Hd. apply orb_false_iff in Hd as [Hc Hd].
  cbn [flat_map] in Hf |- *. rewrite length_app in Hf.
  assert (Hs : spell c = if c =? SOLIDUS then DISK_DELIMITER else [c]) by done. rewrite Hs in Hf |- *. clear Hs.
  assert (H5 : length DISK_DELIMITER = 5%nat) by done.
  destruct (Z.eqb_spec c SOLIDUS) as [->|Hne]; (destruct fuel as [|fuel]; [cbn [length] in Hf; lia|]).
  - change (unspell (S fuel) (DISK_DELIMITER ++ ?d)) with
      (match strip_prefix DISK_DELIMITER (DISK_DELIMITER ++ d) with
       | Some after => SOLIDUS :: unspell fuel after
       | None => 38 :: unspell fuel (tail (DISK_DELIMITER ++ d))
       end).
    rewrite strip_prefix_app, IH; [done|done|lia].
  - cbn [app unspell].
    unfold strip_prefix. destruct (starts_with DISK_DELIMITER (c :: flat_map spell s)) eqn:Hp.
    + exfalso. change DISK_DELIMITER with (38 :: lit "AC8-") in Hp, Hc. cbn [starts_with] in Hp, Hc.
      apply andb_prop in Hp as [Hc' Hp]. rewrite Hc' in Hc. apply starts_with_spelled in Hp; [by rewrite Hp in Hc|].
      apply (bool_decide_unpack _). by vm_compute.
    + rewrite IH; [done|done|cbn [length] in Hf; lia].
Qed.

Lemma spell_no_solidus s : SOLIDUS ∉ flat_map spell s.
Proof.
  induction s as [|c s IH]; cbn [flat_map]; [apply not_elem_of_nil|]. rewrite elem_of_app. intros [Hin|]; [|done].
  unfold spell in Hin. destruct (Z.eqb_spec c SOLIDUS); [|by apply list_elem_of_singleton in Hin].
  revert Hin. apply (bool_decide_unpack _). by vm_compute.
Qed.

Lemma spell_str_len s : str_len (flat_map spell s) = disk_len s.
Proof.
  unfold disk_len. change (str_len DISK_DELIMITER - 1)%nat with 4%nat.
  induction s as [|c s IH]; [done|]. cbn [flat_map List.filter]. rewrite str_len_app, str_len_cons, IH.
  unfold spell. rewrite (Z.eqb_sym SOLIDUS c). destruct (Z.eqb_spec c SOLIDUS) as [->|]; cbn [length].
  - change (str_len DISK_DELIMITER) with 5%nat. change (len_utf8 SOLIDUS) with 1%nat. lia.
  - rewrite str_len_cons. change (str_len []) with 0%nat. lia.
Qed.

Lemma holds_app_false a b : holds_disk_delimiter (a ++ b) = false → holds_disk_delimiter b = false.
Proof. induction a as [|c a IH]; [done|]. cbn [app holds_disk_delimiter]. intros [_ H]%orb_false_iff. by apply IH. Qed.

Lemma valid_levels_Forall depth levels :
  valid_levels depth levels = true → Forall (λ level, valid_level level = true) levels.
Proof.
  revert depth. induction levels as [|l ls IH]; intros depth; cbn [valid_levels]; [constructor|].
  destruct (_ <? _)%nat; cbn [orb]; [done|]. destruct (valid_level l) eqn:Hl; cbn [negb]; [|done].
  intros H. constructor; [done|by eapply IH].
Qed.

(** What a valid name is. *)
Lemma valid_folder_spec name :
  valid_folder name = true ↔
  eq_ignore_ascii_case name INBOX = false ∧ holds_disk_delimiter name = false ∧
  valid_levels 0 (split SOLIDUS name) = true ∧ (disk_len name ≤ MAX_DISK_NAME_LEN)%nat.
Proof.
  unfold valid_folder. destruct (eq_ignore_ascii_case name INBOX); cbn [orb]; [naive_solver|].
  destruct (holds_disk_delimiter name); [naive_solver|]. rewrite andb_true_iff, Nat.leb_le. naive_solver.
Qed.

Lemma canonical_cases name :
  canonical name = name ∨
  ∃ first rest, name = first ++ SOLIDUS :: rest ∧ SOLIDUS ∉ first ∧ eq_ignore_ascii_case first INBOX = true ∧
    canonical name = INBOX ++ SOLIDUS :: rest.
Proof.
  unfold canonical. destruct (split_once SOLIDUS name) as [[first rest]|] eqn:Hs; [|by left].
  apply split_once_Some in Hs as [-> Hn]. destruct (eq_ignore_ascii_case first INBOX) eqn:He; [|by left].
  destruct (str_eqb first INBOX); [by left|]. right. by exists first, rest.
Qed.

Lemma valid_level_inbox : valid_level INBOX = true.
Proof. by vm_compute. Qed.

Lemma lowercase_length a b : eq_ignore_ascii_case a b = true → length a = length b.
Proof.
  rewrite eq_ignore_ascii_case_spec. unfold to_ascii_lowercase. intros H%(f_equal length). by rewrite !length_map in H.
Qed.

Lemma disk_len_app a b : disk_len (a ++ b) = (disk_len a + disk_len b)%nat.
Proof. unfold disk_len. rewrite str_len_app, List.filter_app, length_app. lia. Qed.

Lemma canonical_valid name : valid_folder name = true → valid_folder (canonical name) = true.
Proof.
  intros Hv. destruct (canonical_cases name) as [->|(first & rest & -> & Hn & He & ->)]; [done|].
  apply valid_folder_spec in Hv as (_ & Hd & Hl & Hlen). apply valid_folder_spec.
  assert (H5 := lowercase_length _ _ He). change (length INBOX) with 5%nat in H5. split_and!.
  - apply not_true_iff_false. intros Heq%lowercase_length. rewrite length_app in Heq. cbn [length] in Heq.
    change (length INBOX) with 5%nat in Heq. lia.
  - apply holds_app_false in Hd. cbn [holds_disk_delimiter] in Hd. apply orb_false_iff in Hd as [_ Hd].
    change (INBOX ++ SOLIDUS :: rest) with ([73; 78; 66; 79; 88; 47] ++ rest). by cbn.
  - rewrite split_app_sep in Hl |- * by first [done | apply (bool_decide_unpack _); by vm_compute].
    cbn [valid_levels] in Hl |- *. rewrite valid_level_inbox. destruct (MAX_DEPTH <? 1)%nat; [done|]. cbn [orb negb].
    by destruct (valid_level first); cbn [orb negb] in Hl.
  - rewrite disk_len_app in Hlen |- *. change (disk_len INBOX) with 5%nat. pose proof (length_le_str_len first).
    assert (5 ≤ disk_len first)%nat by (unfold disk_len; change (str_len DISK_DELIMITER - 1)%nat with 4%nat; lia). lia.
Qed.

(** One name under a directory: no separator, no control character, not
    hidden, not too long. *)
Record directory_name (d : list Z) : Prop := {
  dn_first : ∃ c rest, d = c :: rest ∧ c ≠ FULL_STOP;
  dn_plain : Forall (λ c, is_control c = false ∧ c ≠ SOLIDUS ∧ c ≠ BACKSLASH) d;
  dn_length : (str_len d ≤ MAX_DISK_NAME_LEN)%nat
}.

Lemma valid_level_plain level :
  valid_level level = true →
  (∃ c rest, level = c :: rest ∧ c ≠ FULL_STOP) ∧ Forall (λ c, is_control c = false ∧ c ≠ SOLIDUS ∧ c ≠ BACKSLASH) level.
Proof.
  unfold valid_level. destruct (is_plain_component level) eqn:Hp; cbn [negb orb]; [|done].
  destruct (starts_with [FULL_STOP] level) eqn:Hd; [done|]. intros _. unfold is_plain_component in Hp.
  repeat (apply andb_prop in Hp as [Hp ?]). split.
  - destruct level as [|c rest]; [done|]. exists c, rest. split; [done|]. intros ->. by cbn in Hd; destruct rest.
  - apply negb_true_iff in H0. apply Forall_forall. intros c Hc. apply not_true_iff_false in H0.
    destruct (is_control c) eqn:Hctl; [|destruct (Z.eqb_spec c SOLIDUS); [|destruct (Z.eqb_spec c BACKSLASH); [|done]]];
      exfalso; apply H0, existsb_exists; exists c; (split; [by apply list_elem_of_In|]); subst; by rewrite ?Hctl.
Qed.

Lemma elem_of_join c sep ps : c ∈ join sep ps → c = sep ∨ ∃ p, p ∈ ps ∧ c ∈ p.
Proof.
  induction ps as [|p ps IH]; [by intros ?%not_elem_of_nil|]. destruct ps as [|q ps].
  - cbn. intros Hc. right. exists p. by split; [left|].
  - change (join sep (p :: q :: ps)) with (p ++ sep :: join sep (q :: ps)). intros [Hc|Hc]%elem_of_app.
    + right. exists p. by split; [left|].
    + apply elem_of_cons in Hc as [->|Hc]; [by left|]. destruct (IH Hc) as [->|(r & Hr & Hcr)]; [by left|].
      right. exists r. by split; [right|].
Qed.

Lemma spelled_directory name :
  valid_folder name = true → directory_name (flat_map spell name).
Proof.
  intros (_ & _ & Hl & Hlen)%valid_folder_spec. apply valid_levels_Forall in Hl.
  assert (Hchars : ∀ c, c ∈ name → c = SOLIDUS ∨ (is_control c = false ∧ c ≠ SOLIDUS ∧ c ≠ BACKSLASH)).
  { intros c Hc. rewrite <-(join_split SOLIDUS name) in Hc. apply elem_of_join in Hc as [->|(p & Hp & Hc)]; [by left|].
    right. rewrite Forall_forall in Hl. apply Hl, valid_level_plain in Hp as [_ Hp]. rewrite Forall_forall in Hp. by apply Hp. }
  constructor; [| |by rewrite spell_str_len].
  - rewrite <-(join_split SOLIDUS name). pose proof (split_nonempty SOLIDUS name) as Hne.
    destruct (split SOLIDUS name) as [|p ps]; [done|]. apply Forall_cons in Hl as [Hp _].
    apply valid_level_plain in Hp as [(c & rest & -> & Hc) Hp]. apply Forall_cons in Hp as [(_ & Hcs & _) _].
    assert (Hs : spell c = [c]) by (unfold spell; by destruct (Z.eqb_spec c SOLIDUS)).
    destruct ps; cbn [join app flat_map]; rewrite Hs; cbn [app]; by eexists _, _.
  - apply Forall_forall. intros c Hc. apply list_elem_of_In, in_flat_map in Hc as (x & Hx & Hc).
    apply list_elem_of_In in Hx, Hc. unfold spell in Hc. destruct (Z.eqb_spec x SOLIDUS).
    + revert c Hc. apply Forall_forall. apply (bool_decide_unpack _). by vm_compute.
    + apply list_elem_of_singleton in Hc as ->. by destruct (Hchars x Hx).
Qed.

(** The directory of a mailbox is one plain name under the folders of
    the account, it stands for this mailbox alone, and the listing reads the
    name of the mailbox back from it, whatever the case its first level
    [INBOX] was written in. *)
Theorem mailbox_directory_exact (name : list Z) (H : valid_folder name = true) :
  directory_name (disk_name name) ∧ stored_name (disk_name name) = Some (canonical name) ∧
  ∀ other, valid_folder other = true → disk_name other = disk_name name → canonical other = canonical name.
Proof.
  assert (Hinv : ∀ n, valid_folder n = true → unspell (length (disk_name n)) (disk_name n) = canonical n).
  { intros n Hn. apply unspell_spell; [|done]. by apply canonical_valid, valid_folder_spec in Hn as (_ & ? & _). }
  assert (Hidem : ∀ n, disk_name (canonical n) = disk_name n).
  { intros n. unfold disk_name. f_equal. destruct (canonical_cases n) as [Hc|(f & r & Hn & Hf & He & ->)]; [by rewrite !Hc|].
    unfold canonical. rewrite split_once_app by (apply (bool_decide_unpack _); by vm_compute). by rewrite andb_false_r. }
  split; [by apply spelled_directory, canonical_valid|]. split.
  - unfold stored_name. by rewrite Hinv, canonical_valid, Hidem, str_eqb_refl.
  - intros other Ho Heq. rewrite <-(Hinv other Ho), <-(Hinv name H). by rewrite Heq.
Qed.

Lemma mailbox_directory_exact_witness :
  valid_folder (lit "inbox/Lists.Rust") = true ∧
  stored_name (disk_name (lit "inbox/Lists.Rust")) = Some (lit "INBOX/Lists.Rust").
Proof.
  split; [by vm_compute|]. destruct (mailbox_directory_exact (lit "inbox/Lists.Rust")) as (_ & -> & _); by vm_compute.
Defined.
