(* ===== verification/SieveMatch.v ===== *)
(** The comparisons of Sieve tests (src/src/sieve/compare/mod.rs): collations,
    the linear search of [:contains] and the wildcards of [:matches].

    The matcher reads its text at byte offsets that are always character
    boundaries; here an offset is the number of characters before it. *)

From S2P Require Import Prelude RustStd Utf8 Slices.

Local Open Scope Z_scope.

(** ** Relations and collations *)

Inductive Rel := RGt | RGe | RLt | RLe | REq | RNe.

Definition rel_parse (name : list Z) : option Rel :=
  let n := to_ascii_lowercase name in
  if str_eqb n (lit "gt") then Some RGt
  else if str_eqb n (lit "ge") then Some RGe
  else if str_eqb n (lit "lt") then Some RLt
  else if str_eqb n (lit "le") then Some RLe
  else if str_eqb n (lit "eq") then Some REq
  else if str_eqb n (lit "ne") then Some RNe
  else None.

Definition rel_test (r : Rel) (o : comparison) : bool :=
  match r, o with
  | RGt, Gt => true
  | RGt, _ => false
  | RGe, Lt => false
  | RGe, _ => true
  | RLt, Lt => true
  | RLt, _ => false
  | RLe, Gt => false
  | RLe, _ => true
  | REq, Eq => true
  | REq, _ => false
  | RNe, Eq => false
  | RNe, _ => true
  end.

Inductive Collation := AsciiCasemap | Octet | AsciiNumeric.

Definition collation_from_name (name : list Z) : Collation :=
  if str_eqb name (lit "i;octet") then Octet
  else if str_eqb name (lit "i;ascii-numeric") then AsciiNumeric
  else AsciiCasemap.

(** [Iterator::cmp] on octets. *)
Fixpoint lex_compare (a b : list Z) : comparison :=
  match a, b with
  | [], [] => Eq
  | [], _ :: _ => Lt
  | _ :: _, [] => Gt
  | x :: a, y :: b => match Z.compare x y with Eq => lex_compare a b | c => c end
  end.

(** The leading digits; [None] is a number past [u64]. *)
Fixpoint numeric_loop (s : list Z) (number : Z) (digits : nat) : option (Z * nat) :=
  match s with
  | c :: s' =>
      if is_ascii_digit c then
        let next := number * 10 + (c - 48) in
        if u64_max <? next then None else numeric_loop s' next (S digits)
      else Some (number, digits)
  | [] => Some (number, digits)
  end.

Definition numeric_key (value : list Z) : Z * Z :=
  match numeric_loop (as_bytes value) 0 0 with
  | None => (1, 0)
  | Some (number, digits) => if (digits =? 0)%nat then (1, 0) else (0, number)
  end.

Definition key_compare (a b : Z * Z) : comparison :=
  match Z.compare a.1 b.1 with Eq => Z.compare a.2 b.2 | c => c end.

Definition order (c : Collation) (a b : list Z) : comparison :=
  match c with
  | Octet => lex_compare (as_bytes a) (as_bytes b)
  | AsciiCasemap => lex_compare (to_ascii_lowercase (as_bytes a)) (to_ascii_lowercase (as_bytes b))
  | AsciiNumeric => key_compare (numeric_key a) (numeric_key b)
  end.

(** ** The linear search

    An index out of range panics; [None] is the panic. *)

(** [while k > 0 && b != key[k] { k = fail[k - 1] }]; [fuel] bounds the
    iterations, and every one lowers [k]. *)
Fixpoint fall_back (fuel : nat) (key : list Z) (fail : list nat) (b : Z) (k : nat) : option nat :=
  match k with
  | O => Some O
  | S k' =>
      c ← key !! k;
      if b =? c then Some k
      else match fuel with
           | O => None
           | S fuel => f ← fail !! k'; fall_back fuel key fail b f
           end
  end.

(** One octet: fall back, then go on if it is the next of the key. *)
Definition kmp_step (key : list Z) (fail : list nat) (b : Z) (k : nat) : option nat :=
  k ← fall_back k key fail b k;
  c ← key !! k;
  Some (if b =? c then S k else k).

(** The table, one entry for each octet of the key. *)
Fixpoint kmp_table (key rest : list Z) (fail : list nat) (k : nat) : option (list nat) :=
  match rest with
  | [] => Some fail
  | b :: rest => k ← kmp_step key fail b k; kmp_table key rest (fail ++ [k]) k
  end.

Fixpoint kmp_search (key : list Z) (fail : list nat) (text : list Z) (matched : nat) : option bool :=
  match text with
  | [] => Some false
  | b :: text =>
      matched ← kmp_step key fail b matched;
      if (matched =? length key)%nat then Some true else kmp_search key fail text matched
  end.

Definition contains_ignoring_case (value key : list Z) : option bool :=
  let key := to_ascii_lowercase (as_bytes key) in
  match key with
  | [] => Some true
  | _ :: rest =>
      fail ← kmp_table key rest [0%nat] 0;
      kmp_search key fail (to_ascii_lowercase (as_bytes value)) 0
  end.

(** [str::contains]. *)
Definition contains_str (value key : list Z) : bool :=
  is_empty key || bool_decide (is_Some (window_position (as_bytes key) (as_bytes value))).

Definition collation_contains (c : Collation) (value key : list Z) : option bool :=
  match c with
  | AsciiCasemap => contains_ignoring_case value key
  | _ => Some (contains_str value key)
  end.

(** ** Wildcards *)

Definition MAX_PATTERN_CHARS : nat := 256.
Definition MAX_WILDCARDS : nat := 32.
Definition STAR : Z := 42.
Definition ONE : Z := 63.

Definition is_wildcard (c : Z) : bool := (c =? STAR) || (c =? ONE).

Definition Span : Type := nat * nat.

Inductive Glob :=
| GMatch (spans : list Span)
| GNoMatch
| GOverCaps
| GOutOfBudget.

(** The segment at [pos]: the end, the steps made and the spans taken. *)
Fixpoint place (text segment : list Z) (pos : nat) (steps : Z) (spans : list Span)
    : option nat * Z * list Span :=
  match segment with
  | [] => (Some pos, steps, spans)
  | c :: segment =>
      let steps := steps + 1 in
      match text !! pos with
      | None => (None, steps, spans)
      | Some found =>
          if c =? ONE then place text segment (S pos) steps (spans ++ [(pos, S pos)])
          else if negb (c =? to_ascii_lowercase_char found) then (None, steps, spans)
          else place text segment (S pos) steps spans
      end
  end.

(** The leftmost place of a segment between [at_] and [tail]; [fuel] bounds
    the iterations, and every one moves [at_] up. The first [option] is the
    fuel, the result a place, [None] for no match, or an end of the budget. *)
Fixpoint find_place (fuel : nat) (text segment : list Z) (at_ tail : nat) (steps budget : Z)
    : option (Z * (option (nat * nat * list Span) + unit)) :=
  let '(end_, steps, trial) := place text segment at_ steps [] in
  let next :=
    if budget <? steps then Some (steps, inr tt)
    else match text !! at_ with
         | Some _ =>
             if (at_ <? tail)%nat then
               match fuel with
               | O => None
               | S fuel => find_place fuel text segment (S at_) tail steps budget
               end
             else Some (steps, inl None)
         | None => Some (steps, inl None)
         end in
  match end_ with
  | Some e => if (e <=? tail)%nat then Some (steps, inl (Some (at_, e, trial))) else next
  | None => next
  end.

(** The segments between the first and the last. *)
Fixpoint place_all (text : list Z) (segments : list (list Z)) (pos tail : nat) (steps budget : Z)
    (spans : list Span) : option (Z * (option (nat * list Span) + unit)) :=
  match segments with
  | [] => Some (steps, inl (Some (pos, spans)))
  | segment :: segments =>
      '(steps, r) ← find_place (length text) text segment pos tail steps budget;
      match r with
      | inr u => Some (steps, inr u)
      | inl None => Some (steps, inl None)
      | inl (Some (start, end_, trial)) =>
          place_all text segments end_ tail steps budget (spans ++ [(pos, start)] ++ trial)
      end
  end.

Definition glob (pattern text : list Z) (steps budget : Z) : option (Z * Glob) :=
  let p := to_ascii_lowercase (take (MAX_PATTERN_CHARS + 1) pattern) in
  let wildcards := length (List.filter is_wildcard p) in
  if (MAX_PATTERN_CHARS <? length p)%nat || (MAX_WILDCARDS <? wildcards)%nat then Some (steps, GOverCaps)
  else
    match RustStd.split STAR p with
    | [] => None
    | [first] =>
        let '(end_, steps, spans) := place text first 0 steps [] in
        Some (steps, match end_ with
                     | Some e => if (e =? length text)%nat then GMatch spans else GNoMatch
                     | None => GNoMatch
                     end)
    | first :: (_ :: _) as rest =>
        let last_ := List.last rest [] in
        let middle := removelast rest in
        if (length text <? length last_)%nat then Some (steps, GNoMatch)
        else
          let tail := (length text - length last_)%nat in
          let '(end_, steps, spans) := place text first 0 steps [] in
          match end_ with
          | None => Some (steps, GNoMatch)
          | Some pos =>
              if (tail <? pos)%nat then Some (steps, GNoMatch)
              else
                '(steps, r) ← place_all text middle pos tail steps budget spans;
                match r with
                | inr _ => Some (steps, GOutOfBudget)
                | inl None => Some (steps, GNoMatch)
                | inl (Some (pos, spans)) =>
                    let '(end_, steps, spans) := place text last_ tail steps (spans ++ [(pos, tail)]) in
                    Some (steps,
                      match end_ with
                      | None => GNoMatch
                      | Some _ => if budget <? steps then GOutOfBudget else GMatch spans
                      end)
                end
          end
    end.

(** ** The linear search finds exactly the occurrences *)

(** [k] octets of the key end [s]. *)
Definition ends_with_prefix (key s : list Z) (k : nat) : Prop :=
  (k ≤ length key)%nat ∧ take k key `suffix_of` s.

(** The longest start of the key that ends [s]. *)
Definition longest (key s : list Z) (k : nat) : Prop :=
  ends_with_prefix key s k ∧ ∀ k', ends_with_prefix key s k' → (k' ≤ k)%nat.

Definition table_ok (key : list Z) (fail : list nat) : Prop :=
  ∀ i f, fail !! i = Some f → longest key (drop 1 (take (S i) key)) f.

Lemma suffix_of_both {T} (a b s : list T) :
  a `suffix_of` s → b `suffix_of` s → (length a ≤ length b)%nat → a `suffix_of` b.
Proof.
  intros [x ->] [y Hy] Hl. revert y Hy. induction x as [|z x IH]; intros y Hy.
  - destruct y; [by exists []|]. apply (f_equal length) in Hy. rewrite !length_app in Hy. cbn in *. lia.
  - destruct y as [|w y]; cbn in Hy; [by exists (z :: x)|]. injection Hy as _ Hy. by eapply IH.
Qed.

Lemma suffix_proper {T} (a b : list T) :
  a `suffix_of` b → (length a < length b)%nat → a `suffix_of` drop 1 b.
Proof.
  intros [x ->] Hl. destruct x as [|z x]; [cbn in Hl; lia|]. cbn. rewrite drop_0. by exists x.
Qed.

Lemma suffix_snoc {T} (a s : list T) b c : a ++ [c] `suffix_of` s ++ [b] ↔ c = b ∧ a `suffix_of` s.
Proof.
  split.
  - intros [x Hx]. rewrite app_assoc in Hx. apply app_inj_tail in Hx as [-> ->]. split; [done|by exists x].
  - intros [-> [x ->]]. exists x. by rewrite app_assoc.
Qed.

Lemma ends_with_prefix_snoc key s b k c :
  key !! k = Some c → ends_with_prefix key (s ++ [b]) (S k) ↔ c = b ∧ ends_with_prefix key s k.
Proof.
  intros Hk. unfold ends_with_prefix. pose proof (lookup_lt_Some _ _ _ Hk).
  rewrite (take_S_r _ _ _ Hk), suffix_snoc. split; intuition lia.
Qed.

(** Falling back stops at the longest start that the octet continues. *)
Lemma fall_back_spec key fail b s fuel : ∀ k,
  table_ok key fail → (k ≤ length fail)%nat → (length fail ≤ length key)%nat → (k < length key)%nat → (k ≤ fuel)%nat →
  ends_with_prefix key s k →
  (∀ k', ends_with_prefix key s k' → key !! k' = Some b → (k' ≤ k)%nat) →
  ∃ r, fall_back fuel key fail b k = Some r ∧ (r ≤ k)%nat ∧ ends_with_prefix key s r ∧
    (∀ k', ends_with_prefix key s k' → key !! k' = Some b → (k' ≤ r)%nat) ∧
    (r = 0%nat ∨ key !! r = Some b).
Proof.
  induction fuel as [|fuel IH]; intros [|k] Htab Hkf Hfl Hk Hfuel Hends Hmax;
    try (by exists 0%nat; cbn; split_and!; auto); [lia|].
  cbn [fall_back]. destruct (lookup_lt_is_Some_2 key (S k) Hk) as [c Hc]. rewrite Hc. cbn.
  destruct (Z.eqb_spec b c) as [->|Hbc].
  { exists (S k). split_and!; auto. }
  destruct (lookup_lt_is_Some_2 fail k ltac:(lia)) as [f Hf]. rewrite Hf. cbn.
  destruct (Htab k f Hf) as [[Hfle Hfs] Hfmax].
  assert (Hlt : length (take (S k) key) = S k) by (rewrite length_take; lia).
  assert (Hfk : (f ≤ k)%nat).
  { apply suffix_length in Hfs. rewrite length_drop, Hlt, length_take in Hfs. lia. }
  destruct (IH f) as (r & Hr & Hrf & Hre & Hrm & Hr0); try done; try lia.
  - split; [done|]. destruct Hends as [_ Hs]. etransitivity; [exact Hfs|].
    etransitivity; [|exact Hs]. apply suffix_drop.
  - intros k' Hk' Hb. pose proof (Hmax k' Hk' Hb) as Hle.
    assert (k' ≠ S k) by congruence.
    apply Hfmax. destruct Hk' as [Hk'l Hk's]. split; [done|].
    apply suffix_proper; [|rewrite !length_take; lia].
    apply (suffix_of_both _ _ s); [done|apply Hends|rewrite !length_take; lia].
  - exists r. split_and!; auto. lia.
Qed.

(** One step keeps the longest start. *)
Lemma kmp_step_spec key fail b s k :
  table_ok key fail → (k ≤ length fail)%nat → (length fail ≤ length key)%nat → (k < length key)%nat →
  longest key s k →
  ∃ r, kmp_step key fail b k = Some r ∧ longest key (s ++ [b]) r ∧ (r ≤ S k)%nat.
Proof.
  intros Htab Hkf Hfl Hk [Hends Hmax].
  destruct (fall_back_spec key fail b s k k) as (r & Hr & Hrk & Hre & Hrm & Hr0); try done; [auto|].
  unfold kmp_step. rewrite Hr. cbn. destruct (lookup_lt_is_Some_2 key r ltac:(lia)) as [c Hc]. rewrite Hc. cbn.
  eexists. split; [done|]. destruct (Z.eqb_spec b c) as [->|Hbc].
  - split; [|lia]. split; [by apply (ends_with_prefix_snoc key s c r c Hc)|].
    intros [|k'] Hk'; [lia|]. assert (k' < length key)%nat as [d Hd]%lookup_lt_is_Some_2 by (by destruct Hk').
    destruct (proj1 (ends_with_prefix_snoc key s c k' d Hd) Hk') as [Hdc Hs]. subst d. apply le_n_S, Hrm; done.
  - split; [|lia]. assert (Hr0' : r = 0%nat) by (destruct Hr0; [done|congruence]). subst r.
    split; [split; [lia|]; apply suffix_nil|].
    intros [|k'] Hk'; [lia|]. assert (k' < length key)%nat as [d Hd]%lookup_lt_is_Some_2 by (by destruct Hk').
    destruct (proj1 (ends_with_prefix_snoc key s b k' d Hd) Hk') as [Hdb Hs]. subst d.
    pose proof (Hrm k' Hs Hd). assert (k' = 0)%nat by lia. subst. congruence.
Qed.

Lemma longest_lt key s k : longest key s k → (length s < length key)%nat → (k < length key)%nat.
Proof. intros [[Hk Hs] _] Hl. apply suffix_length in Hs. rewrite length_take in Hs. lia. Qed.

Lemma kmp_table_spec key rest : ∀ fail k done_,
  key = done_ ++ rest → length fail = length done_ → (0 < length done_)%nat →
  table_ok key fail → longest key (drop 1 done_) k →
  ∃ table, kmp_table key rest fail k = Some table ∧ length table = length key ∧ table_ok key table.
Proof.
  induction rest as [|b rest IH]; intros fail k done_ Hkey Hlen Hpos Htab Hk; cbn [kmp_table].
  { exists fail. rewrite app_nil_r in Hkey. subst. by split_and!. }
  assert (Hkl : (k < length done_)%nat).
  { destruct Hk as [[_ Hs] _]. apply suffix_length in Hs. rewrite length_drop, length_take in Hs.
    subst key. rewrite length_app in Hs. lia. }
  assert (Hdl : (length done_ < length key)%nat) by (subst; rewrite length_app; cbn; lia).
  destruct (kmp_step_spec key fail b (drop 1 done_) k) as (r & Hr & Hlong & _); try done; try lia.
  rewrite Hr. cbn.
  assert (Hd : drop 1 done_ ++ [b] = drop 1 (done_ ++ [b])) by (by rewrite drop_app_le by lia).
  rewrite Hd in Hlong.
  destruct (IH (fail ++ [r]) r (done_ ++ [b])) as (table & Ht & Hl & Hok); try done.
  - subst. by rewrite <-app_assoc.
  - rewrite !length_app. cbn. lia.
  - rewrite length_app. cbn. lia.
  - intros i f Hi. destruct (decide (i < length fail)%nat) as [Hlt|Hge].
    + rewrite lookup_app_l in Hi by done. by apply Htab.
    + rewrite lookup_app_r in Hi by lia. apply list_lookup_singleton_Some in Hi as [Hi <-].
      replace (S i) with (length (done_ ++ [b])) by (rewrite length_app; cbn; lia).
      assert (Ht : take (length (done_ ++ [b])) key = done_ ++ [b]).
      { rewrite Hkey. replace (done_ ++ b :: rest) with ((done_ ++ [b]) ++ rest) by (by rewrite <-app_assoc).
        by rewrite take_app_length. }
      by rewrite Ht.
  - by exists table.
Qed.

Lemma kmp_search_spec key fail text : ∀ matched s,
  key ≠ [] → table_ok key fail → length fail = length key →
  longest key s matched → (matched < length key)%nat →
  ∃ b, kmp_search key fail text matched = Some b ∧
    (b = true ↔ ∃ pre post, text = pre ++ post ∧ pre ≠ [] ∧ key `suffix_of` s ++ pre).
Proof.
  induction text as [|c text IH]; intros matched s Hne Htab Hlen Hlong Hlt; cbn [kmp_search].
  { exists false. split; [done|]. split; [done|]. intros (pre & post & Heq & Hp & _).
    destruct pre; [done|]. done. }
  destruct (kmp_step_spec key fail c s matched) as (r & -> & Hr & Hrk); try done; try lia. cbn.
  destruct (Nat.eqb_spec r (length key)) as [->|Hrl].
  - exists true. split; [done|]. split; [|done]. intros _. exists [c], text. split_and!; [done|done|].
    destruct Hr as [[_ Hs] _]. by rewrite firstn_all in Hs.
  - assert (Hrlt : (r < length key)%nat) by (destruct Hr as [[? _] _]; lia).
    destruct (IH r (s ++ [c]) Hne Htab Hlen Hr Hrlt) as (b & -> & Hb). exists b. split; [done|].
    rewrite Hb. split; intros (pre & post & Heq & Hp & Hs).
    + exists (c :: pre), post. rewrite <-app_assoc in Hs. by subst.
    + destruct pre as [|c' pre]; [done|]. injection Heq as <- Heq. destruct pre as [|d pre].
      * exfalso. destruct Hr as [_ Hmax]. assert (ends_with_prefix key (s ++ [c]) (length key)) as Hk%Hmax.
        { split; [done|]. by rewrite firstn_all. }
        lia.
      * exists (d :: pre), post. split_and!; [done|done|]. by rewrite <-app_assoc.
Qed.

(** An occurrence of [key] in [text]. *)
Definition occurs (key text : list Z) : Prop := ∃ pre post, text = pre ++ key ++ post.

Lemma occurs_suffix key text :
  key ≠ [] → occurs key text ↔ ∃ pre post, text = pre ++ post ∧ pre ≠ [] ∧ key `suffix_of` [] ++ pre.
Proof.
  intros Hne. split.
  - intros (pre & post & ->). exists (pre ++ key), post. split_and!; [by rewrite <-app_assoc| |by exists pre].
    by destruct pre.
  - intros (pre & post & -> & _ & [x Hx]). cbn in Hx. subst pre. exists x, post. by rewrite <-app_assoc.
Qed.

Lemma kmp_correct key text :
  key ≠ [] →
  ∃ b, (fail ← kmp_table key (tail key) [0%nat] 0; kmp_search key fail text 0) = Some b ∧
    (b = true ↔ occurs key text).
Proof.
  intros Hne. destruct key as [|c rest]; [done|]. set (key := c :: rest).
  assert (Hzero : longest key [] 0).
  { split; [split; [lia|apply suffix_nil]|]. intros k' [Hk' Hs]. apply suffix_length in Hs.
    rewrite length_take in Hs. cbn in Hs. lia. }
  destruct (kmp_table_spec key rest [0%nat] 0 [c]) as (table & Ht & Hl & Hok); try done.
  - cbn. lia.
  - intros i f Hi. destruct i as [|i]; [|done]. injection Hi as <-. exact Hzero.
  - change (tail key) with rest. rewrite Ht. cbn.
    destruct (kmp_search_spec key table text 0 []) as (b & -> & Hb); try done; [cbn; lia|].
    exists b. split; [done|]. rewrite Hb. symmetry. by apply occurs_suffix.
Qed.

(** The one-pass search of [:contains] never reads outside its table and
    answers exactly whether the key occurs in the text when ASCII case is
    ignored. *)
Theorem contains_ignoring_case_correct (value key : list Z) :
  ∃ b, contains_ignoring_case value key = Some b ∧
    (b = true ↔ occurs (to_ascii_lowercase (as_bytes key)) (to_ascii_lowercase (as_bytes value))).
Proof.
  unfold contains_ignoring_case. set (k := to_ascii_lowercase (as_bytes key)).
  destruct k as [|c rest].
  - exists true. split; [done|]. split; [|done]. intros _. by exists [], (to_ascii_lowercase (as_bytes value)).
  - apply (kmp_correct (c :: rest)). done.
Qed.

(** ** The wildcards match what RFC 5228 says, as short as RFC 5229 asks *)

(** [*] takes any run, [?] any one character, and any other character itself
    with ASCII case ignored; a wildcard captures what it takes. *)
Inductive wild : list Z → list Z → list (list Z) → Prop :=
| wild_nil : wild [] [] []
| wild_char c f p t caps :
    is_wildcard c = false → to_ascii_lowercase_char c = to_ascii_lowercase_char f →
    wild p t caps → wild (c :: p) (f :: t) caps
| wild_one f p t caps : wild p t caps → wild (ONE :: p) (f :: t) ([f] :: caps)
| wild_star run p t caps : wild p t caps → wild (STAR :: p) (run ++ t) (run :: caps).

(** The first list is lexicographically no longer, run for run. *)
Fixpoint lex_le (a b : list nat) : Prop :=
  match a, b with
  | x :: a, y :: b => (x < y)%nat ∨ x = y ∧ lex_le a b
  | [], _ => True
  | _ :: _, [] => False
  end.

Definition span_text (text : list Z) (s : Span) : list Z := take (s.2 - s.1) (drop s.1 text).
Definition span_length (s : Span) : nat := s.2 - s.1.

Definition over_caps (pattern : list Z) : Prop :=
  (MAX_PATTERN_CHARS < length pattern)%nat ∨
  (MAX_WILDCARDS < length (List.filter is_wildcard pattern))%nat.

Lemma lex_le_refl a : lex_le a a.
Proof. induction a; cbn; auto. Qed.

Lemma lex_le_app a b c : lex_le b c → lex_le (a ++ b) (a ++ c).
Proof. induction a; cbn; auto. Qed.

Lemma lex_le_common a : ∀ b c, length a = length b → lex_le a b → lex_le (a ++ c) (b ++ c).
Proof.
  induction a as [|x a IH]; intros [|y b] c Hl Hle; try done; [apply lex_le_refl|].
  cbn in *. destruct Hle as [|[-> Hle]]; [by left|right; split; [done|]; apply IH; auto].
Qed.

#[global] Instance over_caps_dec pattern : Decision (over_caps pattern).
Proof. unfold over_caps. apply _. Defined.

Section Matching.
Context (text : list Z).

(** The same at positions of the text, on a pattern in lower case. *)
Inductive wild_at : list Z → nat → list Span → Prop :=
| wild_at_nil : wild_at [] (length text) []
| wild_at_char c f p pos spans :
    c ≠ STAR → c ≠ ONE → text !! pos = Some f → c = to_ascii_lowercase_char f →
    wild_at p (S pos) spans → wild_at (c :: p) pos spans
| wild_at_one f p pos spans :
    text !! pos = Some f → wild_at p (S pos) spans → wild_at (ONE :: p) pos ((pos, S pos) :: spans)
| wild_at_star q p pos spans :
    (pos ≤ q)%nat → wild_at p q spans → wild_at (STAR :: p) pos ((pos, q) :: spans).

Fixpoint seg_ok (seg : list Z) (pos : nat) : Prop :=
  match seg with
  | [] => True
  | c :: seg => (∃ f, text !! pos = Some f ∧ (c = ONE ∨ c = to_ascii_lowercase_char f)) ∧ seg_ok seg (S pos)
  end.

(** The spans of the [?]s of a segment. *)
Fixpoint ones (seg : list Z) (pos : nat) : list Span :=
  match seg with
  | [] => []
  | c :: seg => if c =? ONE then (pos, S pos) :: ones seg (S pos) else ones seg (S pos)
  end.

Lemma wild_at_le p pos spans : wild_at p pos spans → (pos ≤ length text)%nat.
Proof.
  induction 1; [done| | |lia];
    match goal with H : text !! _ = Some _ |- _ => apply lookup_lt_Some in H; lia end.
Qed.

Lemma seg_ok_le seg : ∀ pos, seg_ok seg pos → seg ≠ [] → (pos + length seg ≤ length text)%nat.
Proof.
  induction seg as [|c seg IH]; intros pos Hok Hne; [done|].
  destruct Hok as [(f & Hf%lookup_lt_Some & _) Hok]. destruct seg as [|d seg]; [cbn; lia|].
  specialize (IH (S pos) Hok ltac:(done)). cbn in *. lia.
Qed.

Lemma place_spec seg : ∀ pos steps spans r st sp,
  place text seg pos steps spans = (r, st, sp) →
  steps ≤ st ∧
  match r with
  | Some e => seg_ok seg pos ∧ e = (pos + length seg)%nat ∧ sp = spans ++ ones seg pos
  | None => ¬ seg_ok seg pos
  end.
Proof.
  induction seg as [|c seg IH]; intros pos steps spans r st sp; cbn [place].
  { intros [= <- <- <-]. cbn. rewrite app_nil_r. auto with lia. }
  destruct (text !! pos) as [f|] eqn:Hf.
  2:{ intros [= <- <- <-]. split; [lia|]. intros [(g & Hg & _) _]. congruence. }
  destruct (Z.eqb_spec c ONE) as [->|Hone]; [|destruct (Z.eqb_spec c (to_ascii_lowercase_char f)) as [Hc|Hc]];
    cbn [negb].
  3:{ intros [= <- <- <-]. split; [lia|]. intros [(g & Hg & Hor) _]. destruct Hor; congruence. }
  all: intros H; apply IH in H as [Hst H]; split; [lia|]; destruct r as [e|].
  all: try (intros [_ Hok]; done).
  all: destruct H as (Hok & -> & ->); split_and!; [split; [eauto|done]|cbn; lia|].
  - cbn [ones]. by rewrite Z.eqb_refl, <-app_assoc.
  - cbn [ones]. by apply Z.eqb_neq in Hone as ->.
Qed.

Lemma wild_at_seg seg p : STAR ∉ seg → ∀ pos spans,
  wild_at (seg ++ p) pos spans ↔
  ∃ rest, seg_ok seg pos ∧ wild_at p (pos + length seg) rest ∧ spans = ones seg pos ++ rest.
Proof.
  intros Hs. induction seg as [|c seg IH]; intros pos spans.
  { cbn. rewrite Nat.add_0_r. split; [by exists spans|by intros (? & _ & ? & ->)]. }
  apply not_elem_of_cons in Hs as [Hc Hs]. specialize (IH Hs). cbn [app seg_ok ones length].
  replace (pos + S (length seg))%nat with (S pos + length seg)%nat by lia. split.
  - intros H. inversion H; subst; [| |done];
      match goal with H : wild_at (seg ++ p) _ _ |- _ => apply IH in H as (rest & Hok & Hrest & ->) end;
      exists rest; (split_and!; [eauto|done|done|]).
    + match goal with |- context [?x =? ONE] => by destruct (Z.eqb_spec x ONE) end.
    + done.
  - intros (rest & [(f & Hf & Hor) Hok] & Hrest & ->). destruct (Z.eqb_spec c ONE) as [->|Hone].
    + econstructor; [done|]. apply IH. eauto.
    + econstructor; [done|done|done|by destruct Hor|]. apply IH. eauto.
Qed.

(** The middle segments one after the other, the last one from [tail]. *)
Inductive chain (tail : nat) : list (list Z) → nat → list Span → Prop :=
| chain_nil pos : (pos ≤ tail)%nat → chain tail [] pos [(pos, tail)]
| chain_cons seg m pos q spans :
    (pos ≤ q)%nat → seg_ok seg q → chain tail m (q + length seg) spans →
    chain tail (seg :: m) pos ((pos, q) :: ones seg q ++ spans).

Lemma chain_le tail m pos spans : chain tail m pos spans → (pos ≤ tail)%nat.
Proof. induction 1; lia. Qed.

Lemma chain_earlier tail m pos pos' spans :
  chain tail m pos spans → (pos' ≤ pos)%nat → ∃ spans', chain tail m pos' spans'.
Proof.
  intros [] Hle; eexists; [constructor; lia|]. eapply chain_cons; [|done|done]. lia.
Qed.

Lemma ones_length seg : ∀ pos pos', length (ones seg pos) = length (ones seg pos').
Proof. induction seg as [|c seg IH]; intros pos pos'; cbn; [done|]. destruct (c =? ONE); cbn; auto. Qed.

Lemma chain_length tail m pos sp : chain tail m pos sp →
  ∀ pos' sp', chain tail m pos' sp' → length sp = length sp'.
Proof.
  induction 1 as [|seg m pos q sp Hq Hok Hch IH]; intros pos' sp' H'; inversion H'; subst; [done|].
  cbn. rewrite !length_app. erewrite (ones_length seg q), IH by done. done.
Qed.

Lemma wild_at_chain m last_ : Forall (λ s, STAR ∉ s) m → STAR ∉ last_ → ∀ pos spans,
  wild_at (concat (map (cons STAR) (m ++ [last_]))) pos spans ↔
  (length last_ ≤ length text)%nat ∧
  ∃ sp, let tail := (length text - length last_)%nat in
    chain tail m pos sp ∧ seg_ok last_ tail ∧ spans = sp ++ ones last_ tail.
Proof.
  intros Hm Hl. induction Hm as [|seg m Hseg Hm IH]; intros pos spans; cbn [app map concat]; cbv zeta.
  - rewrite app_nil_r. split.
    + intros H. inversion H as [| | |q p ? sp Hq Hw]; subst; [done|].
      rewrite <-(app_nil_r last_) in Hw. apply (wild_at_seg _ _ Hl) in Hw as (rest & Hok & Hw & ->).
      inversion Hw as [Hlen| | |]; subst. rewrite app_nil_r.
      split; [lia|]. exists [(pos, q)]. replace (length text - length last_)%nat with q by lia.
      split_and!; [by constructor|done|done].
    + intros (Hle & sp & Hch & Hok & ->). inversion Hch; subst. cbn. constructor; [done|].
      rewrite <-(app_nil_r last_) at 1. apply (wild_at_seg _ _ Hl). exists []. rewrite app_nil_r.
      split_and!; [done| |done].
      replace (length text - length last_ + length last_)%nat with (length text) by lia. constructor.
  - split.
    + intros H. inversion H as [| | |q p ? sp Hq Hw]; subst; [done|].
      apply (wild_at_seg _ _ Hseg) in Hw as (rest & Hok & Hw & ->).
      apply IH in Hw as (Hle & sp & Hch & Hokl & ->). split; [done|].
      exists ((pos, q) :: ones seg q ++ sp). cbn. rewrite <-app_assoc. split_and!; [by constructor|done|done].
    + intros (Hle & sp & Hch & Hokl & ->). inversion Hch; subst. cbn. rewrite <-app_assoc. constructor; [done|].
      apply (wild_at_seg _ _ Hseg). eexists. split_and!; [done| |done]. apply IH. eauto.
Qed.

(** What the search of one segment promises: the leftmost place. *)
Definition found (seg : list Z) (at_ tail : nat) (budget st : Z) (r : option (nat * nat * list Span) + unit) : Prop :=
  match r with
  | inr _ => budget < st
  | inl None => ∀ q, (at_ ≤ q)%nat → seg_ok seg q → (tail < q + length seg)%nat
  | inl (Some (start, e, sp)) =>
      (at_ ≤ start)%nat ∧ seg_ok seg start ∧ e = (start + length seg)%nat ∧ (e ≤ tail)%nat ∧
      sp = ones seg start ∧
      ∀ q, (at_ ≤ q)%nat → seg_ok seg q → (q + length seg ≤ tail)%nat → (start ≤ q)%nat
  end.

Lemma found_later seg at_ tail budget st r :
  ¬ (seg_ok seg at_ ∧ (at_ + length seg ≤ tail)%nat) →
  found seg (S at_) tail budget st r → found seg at_ tail budget st r.
Proof.
  intros Hnot. destruct r as [[[[start e] sp]|]|u]; cbn; [| |done].
  - intros (Hs & Hok & -> & He & Hsp & Hmin). split_and!; try done; [lia|].
    intros q Hq Hokq Hle. destruct (decide (q = at_)) as [->|]; [tauto|]. apply Hmin; auto with lia.
  - intros Hnone q Hq Hok. destruct (decide (q = at_)) as [->|]; [|apply Hnone; auto with lia].
    destruct (decide (at_ + length seg ≤ tail)%nat); [tauto|lia].
Qed.

Lemma find_place_spec seg tail budget fuel : ∀ at_ steps,
  (tail ≤ length text)%nat → (tail ≤ at_ + fuel)%nat →
  ∃ st r, find_place fuel text seg at_ tail steps budget = Some (st, r) ∧ steps ≤ st ∧ found seg at_ tail budget st r.
Proof.
  induction fuel as [|fuel IH]; intros at_ steps Htl Hfuel; cbn [find_place];
    destruct (place text seg at_ steps []) as [[r st] sp] eqn:Hp; apply place_spec in Hp as [Hst Hp];
    match goal with |- context [if budget <? st then ?a else ?b] => set (next := if budget <? st then a else b) end;
    assert (Hnext : ¬ (seg_ok seg at_ ∧ (at_ + length seg ≤ tail)%nat) →
      ∃ st' r', next = Some (st', r') ∧ steps ≤ st' ∧ found seg at_ tail budget st' r').
  2,4: destruct r as [e|]; [|apply Hnext; tauto]; destruct Hp as (Hok & -> & ->);
       destruct (Nat.leb_spec (at_ + length seg) tail); [|apply Hnext; lia];
       do 2 eexists; (split; [done|]); (split; [done|]); cbn; by split_and!.
  all: intros Hnot; subst next; destruct (Z.ltb_spec budget st); [by exists st, (inr tt)|].
  all: destruct (text !! at_) as [c|] eqn:Hc; [destruct (Nat.ltb_spec at_ tail)|].
  all: try lia.
  all: try (exists st, (inl None); split; [done|]; split; [done|]; cbn; intros q Hq Hok;
            try apply lookup_ge_None in Hc; destruct (decide (q = at_)) as [->|]; [|lia];
            destruct (decide (at_ + length seg ≤ tail)%nat); [tauto|lia]).
  destruct (IH (S at_) st) as (st' & r' & -> & Hle & Hf); [done|lia|].
  exists st', r'. split; [done|]. split; [lia|]. by apply found_later.
Qed.

Lemma place_all_spec tail budget m : ∀ pos steps spans,
  (tail ≤ length text)%nat → (pos ≤ tail)%nat →
  ∃ st r, place_all text m pos tail steps budget spans = Some (st, r) ∧ steps ≤ st ∧
    match r with
    | inr _ => budget < st
    | inl None => ∀ sp, ¬ chain tail m pos sp
    | inl (Some (pos', spans')) => ∃ sp, spans' ++ [(pos', tail)] = spans ++ sp ∧ chain tail m pos sp ∧
        ∀ sp', chain tail m pos sp' → lex_le (map span_length sp) (map span_length sp')
    end.
Proof.
  induction m as [|seg m IH]; intros pos steps spans Htl Hpos; cbn [place_all].
  { do 2 eexists. split; [done|]. split; [done|]. exists [(pos, tail)]. split_and!; [done|by constructor|].
    intros sp' Hsp. inversion Hsp; subst. apply lex_le_refl. }
  destruct (find_place_spec seg tail budget (length text) pos steps) as (st & r & -> & Hle & Hf); [done|lia|]. cbn.
  destruct r as [[[[start e] trial]|]|u]; cbn in Hf |- *.
  - destruct Hf as (Hs & Hok & -> & He & -> & Hmin).
    destruct (IH (start + length seg)%nat st (spans ++ (pos, start) :: ones seg start) Htl He)
      as (st' & r' & -> & Hle' & Hr').
    exists st', r'. split; [done|]. split; [lia|]. destruct r' as [[[pos' spans']|]|u]; [| |done].
    + destruct Hr' as (sp & -> & Hch & Hlex). exists ((pos, start) :: ones seg start ++ sp).
      split_and!; [by rewrite <-app_assoc|by constructor|].
      intros sp' Hsp. inversion Hsp as [|? ? ? q sp'' Hq Hokq Hch']; subst. cbn.
      assert (Hsq : (start ≤ q)%nat).
      { apply Hmin; [done|done|]. by apply chain_le in Hch'. }
      destruct (decide (start = q)) as [<-|]; [|left; lia].
      right. split; [done|]. rewrite !map_app. by apply lex_le_app, Hlex.
    + intros sp Hsp. inversion Hsp as [|? ? ? q sp'' Hq Hokq Hch']; subst.
      pose proof (chain_le _ _ _ _ Hch').
      destruct (chain_earlier _ _ _ (start + length seg)%nat _ Hch') as [sp' Hsp']; [|by eapply Hr'].
      pose proof (Hmin q Hq Hokq ltac:(done)). lia.
  - exists st, (inl None). split; [done|]. split; [done|]. intros sp Hsp.
    inversion Hsp as [|? ? ? q sp'' Hq Hokq Hch']; subst. apply chain_le in Hch'.
    specialize (Hf q Hq Hokq). lia.
  - by exists st, (inr u).
Qed.

Lemma lower_wildcard c w : is_wildcard w = true → to_ascii_lowercase_char c = w ↔ c = w.
Proof.
  unfold is_wildcard, to_ascii_lowercase_char, is_ascii_uppercase, in_range, STAR, ONE.
  intros [->%Z.eqb_eq| ->%Z.eqb_eq]%orb_true_iff; repeat case_match; split; intros; lia.
Qed.

Lemma wild_of_wild_at p : ∀ pos spans,
  wild_at (to_ascii_lowercase p) pos spans → wild p (drop pos text) (map (span_text text) spans).
Proof.
  induction p as [|c p IH]; intros pos spans H; cbn in H.
  { inversion H; subst. rewrite drop_all. constructor. }
  inversion H as [|? f ? ? ? Hs Ho Hf Hc Hw|f ? ? sp Hf Hw Hc|q ? ? sp Hq Hw Hc]; subst.
  - erewrite drop_S by done. constructor; [|done|by apply IH].
    apply orb_false_iff. by split; apply Z.eqb_neq; intros ->.
  - symmetry in Hc. apply lower_wildcard in Hc as ->; [|done]. erewrite drop_S by done. cbn [map].
    unfold span_text at 1. cbn [fst snd]. replace (S pos - pos)%nat with 1%nat by lia.
    rewrite (drop_S _ _ _ Hf). cbn. apply wild_one. by apply IH.
  - symmetry in Hc. apply lower_wildcard in Hc as ->; [|done]. cbn [map].
    replace (drop pos text) with (span_text text (pos, q) ++ drop q text).
    + apply wild_star. by apply IH.
    + unfold span_text. cbn [fst snd]. replace (drop q text) with (drop (q - pos) (drop pos text)).
      * apply take_drop.
      * rewrite drop_drop. f_equal. lia.
Qed.

Lemma wild_at_of_wild p t caps : wild p t caps → ∀ pos, (pos ≤ length text)%nat → t = drop pos text →
  ∃ spans, wild_at (to_ascii_lowercase p) pos spans ∧ map span_length spans = map length caps.
Proof.
  assert (Hstep : ∀ f t pos, f :: t = drop pos text → text !! pos = Some f ∧ t = drop (S pos) text ∧ (S pos ≤ length text)%nat).
  { intros f t' pos Heq. assert (Hl : text !! pos = Some f).
    { rewrite <-(Nat.add_0_r pos), <-lookup_drop, <-Heq. done. }
    split; [done|]. pose proof (lookup_lt_Some _ _ _ Hl). erewrite drop_S in Heq by done. by injection Heq. }
  induction 1 as [|c f p t caps Hc Hf Hw IH|f p t caps Hw IH|run p t caps Hw IH]; intros pos Hpos Heq.
  - exists []. split; [|done]. apply (f_equal length) in Heq. rewrite length_drop in Heq. cbn in Heq.
    replace pos with (length text) by lia. constructor.
  - destruct (Hstep _ _ _ Heq) as (Hl & Ht & Hle). destruct (IH (S pos) Hle Ht) as (sp & Hsp & Hlen).
    exists sp. split; [|done]. cbn. eapply wild_at_char; [| |done|done|done];
      intros Hx; rewrite lower_wildcard in Hx by done; by subst.
  - destruct (Hstep _ _ _ Heq) as (Hl & Ht & Hle). destruct (IH (S pos) Hle Ht) as (sp & Hsp & Hlen).
    exists ((pos, S pos) :: sp). split; [by econstructor|]. cbn [map length]. rewrite Hlen.
    unfold span_length. cbn [fst snd]. f_equal. lia.
  - assert (Hrun : (pos + length run ≤ length text)%nat).
    { apply (f_equal length) in Heq. rewrite length_app, length_drop in Heq. lia. }
    destruct (IH (pos + length run)%nat Hrun) as (sp & Hsp & Hlen).
    { rewrite <-drop_drop, <-Heq. by rewrite drop_app_length. }
    exists ((pos, pos + length run)%nat :: sp). split; [constructor; [lia|done]|]. cbn [map]. rewrite Hlen.
    unfold span_length. cbn [fst snd]. f_equal. lia.
Qed.

(** What [glob] promises of an outcome on a lower-cased pattern, whether
    it counted [st] steps. *)
Definition glob_ok (p : list Z) (budget st : Z) (g : Glob) : Prop :=
  match g with
  | GMatch spans => wild_at p 0 spans ∧
      ∀ spans', wild_at p 0 spans' → lex_le (map span_length spans) (map span_length spans')
  | GNoMatch => ∀ spans, ¬ wild_at p 0 spans
  | GOverCaps => False
  | GOutOfBudget => budget < st
  end.

Lemma glob_ok_wild pattern budget st g :
  glob_ok (to_ascii_lowercase pattern) budget st g →
  match g with
  | GMatch spans => wild pattern text (map (span_text text) spans) ∧
      ∀ caps, wild pattern text caps → lex_le (map span_length spans) (map length caps)
  | GNoMatch => ∀ caps, ¬ wild pattern text caps
  | GOverCaps => False
  | GOutOfBudget => budget < st
  end.
Proof.
  assert (Hof : ∀ caps, wild pattern text caps →
    ∃ spans, wild_at (to_ascii_lowercase pattern) 0 spans ∧ map span_length spans = map length caps).
  { intros caps Hw. apply (wild_at_of_wild _ _ _ Hw 0); [lia|done]. }
  destruct g as [spans| | |]; cbn; [| |done|done].
  - intros [Hw Hmin]. split; [by apply (wild_of_wild_at _ 0)|].
    intros caps (sp & Hsp & <-)%Hof. by apply Hmin.
  - intros Hno caps (sp & Hsp & _)%Hof. by eapply Hno.
Qed.

End Matching.

Lemma join_cons c p ps : join c (p :: ps) = p ++ concat (map (cons c) ps).
Proof.
  revert p. induction ps as [|q ps IH]; intros p; [cbn; by rewrite app_nil_r|].
  change (join c (p :: q :: ps)) with (p ++ c :: join c (q :: ps)). by rewrite IH.
Qed.

Lemma lower_filter p :
  length (List.filter is_wildcard (to_ascii_lowercase p)) = length (List.filter is_wildcard p).
Proof.
  induction p as [|c p IH]; [done|]. cbn.
  replace (is_wildcard (to_ascii_lowercase_char c)) with (is_wildcard c).
  { fold (to_ascii_lowercase p). destruct (is_wildcard c); cbn [length]; by rewrite IH. }
  unfold is_wildcard, to_ascii_lowercase_char, is_ascii_uppercase, in_range, STAR, ONE.
  repeat case_match; try done; destruct (Z.eqb_spec c 42), (Z.eqb_spec c 63);
    destruct (Z.eqb_spec (c + 32) 42), (Z.eqb_spec (c + 32) 63); cbn; lia.
Qed.

Lemma glob_caps pattern text steps budget :
  over_caps pattern → glob pattern text steps budget = Some (steps, GOverCaps).
Proof.
  intros Hcaps. unfold glob.
  destruct (Nat.ltb_spec MAX_PATTERN_CHARS (length (to_ascii_lowercase (take (MAX_PATTERN_CHARS + 1) pattern))))
    as [|Hlen]; [done|].
  unfold to_ascii_lowercase in Hlen. rewrite length_map, length_take in Hlen.
  rewrite take_ge by lia. rewrite lower_filter. destruct Hcaps as [|Hw]; [lia|].
  apply Nat.ltb_lt in Hw. by rewrite Hw.
Qed.

(** The part of [glob] behind the caps. *)
Lemma glob_within pattern text steps budget :
  ¬ over_caps pattern →
  ∃ st g, glob pattern text steps budget = Some (st, g) ∧ steps ≤ st ∧
    glob_ok text (to_ascii_lowercase pattern) budget st g.
Proof.
  intros Hcaps. unfold over_caps in Hcaps. unfold glob.
  rewrite take_ge by lia. rewrite lower_filter.
  set (p := to_ascii_lowercase pattern). assert (Hlen : length p = length pattern) by apply length_map.
  rewrite (proj2 (Nat.ltb_ge _ _)), (proj2 (Nat.ltb_ge _ _)) by lia. cbn [orb].
  pose proof (join_split STAR p) as Hjoin. pose proof (split_pieces STAR p) as Hpieces.
  pose proof (split_nonempty STAR p).
  destruct (RustStd.split STAR p) as [|first rest]; [done|]. rewrite join_cons in Hjoin.
  apply Forall_cons in Hpieces as [Hfirst Hrest]. rewrite <-Hjoin. clear Hjoin Hlen.
  destruct (place text first 0 steps []) as [[r st] sp] eqn:Hp; apply place_spec in Hp as [Hst Hp].
  destruct rest as [|s rest].
  - do 2 eexists. split; [done|]. split; [done|]. cbn [map concat].
    assert (Hall : ∀ spans, wild_at text (first ++ []) 0 spans →
      seg_ok text first 0 ∧ length first = length text ∧ spans = ones first 0).
    { intros spans (rst & Hok & Hw & ->)%wild_at_seg; [|done]. inversion Hw; subst. by rewrite app_nil_r. }
    destruct r as [e|]; [|by intros spans (? & _)%Hall]. destruct Hp as (Hok & -> & ->).
    destruct (Nat.eqb_spec (0 + length first) (length text)) as [Heq|Hne]; [|by intros spans (_ & ? & _)%Hall].
    split; [|intros spans (_ & _ & ->)%Hall; apply lex_le_refl].
    apply wild_at_seg; [done|]. exists []. cbn in *. rewrite Heq, app_nil_r. split_and!; [done|constructor|done].
  - destruct (exists_last (l := s :: rest)) as (m & last_ & Hml); [done|]. rewrite Hml in Hrest |- *.
    rewrite last_last, removelast_last. apply Forall_app in Hrest as [Hm Hl]. rewrite Forall_singleton in Hl.
    set (tail := (length text - length last_)%nat).
    assert (Hall : ∀ spans, wild_at text (first ++ concat (map (cons STAR) (m ++ [last_]))) 0 spans ↔
      seg_ok text first 0 ∧ (length last_ ≤ length text)%nat ∧
      ∃ sp, chain text tail m (length first) sp ∧ seg_ok text last_ tail ∧
        spans = ones first 0 ++ sp ++ ones last_ tail).
    { intros spans. rewrite wild_at_seg by done. setoid_rewrite wild_at_chain; [|done|done]. naive_solver. }
    assert (Hno : ∀ st', steps ≤ st' → (∀ spans, ¬ wild_at text (first ++ concat (map (cons STAR) (m ++ [last_]))) 0 spans) →
      ∃ st g, Some (st', GNoMatch) = Some (st, g) ∧ steps ≤ st ∧
        glob_ok text (first ++ concat (map (cons STAR) (m ++ [last_]))) budget st g) by eauto.
    destruct (Nat.ltb_spec (length text) (length last_)) as [|Hlle].
    { apply Hno; [done|]. intros spans (_ & ? & _)%Hall. lia. }
    destruct r as [pos|]; [|apply Hno; [done|]; by intros spans (? & _)%Hall]. destruct Hp as (Hok & -> & ->).
    cbn [plus app]. destruct (Nat.ltb_spec tail (length first)) as [|Hft].
    { apply Hno; [done|]. intros spans (_ & _ & sp & Hch%chain_le & _)%Hall. lia. }
    destruct (place_all_spec text tail budget m (length first) st (ones first 0)) as (st2 & r & -> & Hst2 & Hr);
      [subst tail; lia|done|]. cbn.
    destruct r as [[[pos spans]|]|u]; [| |do 2 eexists; split_and!; [done|lia|done]].
    2:{ apply Hno; [lia|]. intros sp (_ & _ & sp' & Hch & _)%Hall. by eapply Hr. }
    destruct Hr as (sp & Hsp & Hch & Hmin). unfold Span in Hsp |- *. rewrite Hsp.
    match goal with |- context [place text last_ tail st2 ?x] =>
      destruct (place text last_ tail st2 x) as [[r st3] sp3] eqn:Hp end; apply place_spec in Hp as [Hst3 Hp].
    do 2 eexists. split; [done|]. split; [lia|]. destruct r as [e|]; [|by intros sp' (_ & _ & ? & _ & ? & _)%Hall].
    destruct Hp as (Hokl & _ & ->). destruct (Z.ltb_spec budget st3); [done|]. split.
    + apply Hall. rewrite <-app_assoc. split_and!; eauto.
    + intros sp' (_ & _ & sp2 & Hch2 & _ & ->)%Hall. rewrite <-app_assoc, !map_app.
      apply lex_le_app, lex_le_common; [|by apply Hmin].
      rewrite !length_map. by eapply chain_length.
Qed.

(** C33: The [:matches] test decides the wildcards of RFC 5228 and never runs
    out of the model's fuel. It reports a match only when the pattern
    matches, with the text each wildcard takes, and then the runs are
    lexicographically the shortest of all the ways to match, as RFC 5229 asks;
    it reports no match only when there is no way to match; it refuses exactly
    the patterns over the caps; and it gives up only past its budget. *)
Theorem glob_correct (pattern text : list Z) (steps budget : Z) :
  ∃ st g, glob pattern text steps budget = Some (st, g) ∧
    match g with
    | GMatch spans => ¬ over_caps pattern ∧ wild pattern text (map (span_text text) spans) ∧
        ∀ caps, wild pattern text caps → lex_le (map span_length spans) (map length caps)
    | GNoMatch => ¬ over_caps pattern ∧ ∀ caps, ¬ wild pattern text caps
    | GOverCaps => over_caps pattern
    | GOutOfBudget => ¬ over_caps pattern ∧ budget < st
    end.
Proof.
  destruct (decide (over_caps pattern)) as [Hcaps|Hcaps].
  { rewrite glob_caps by done. by do 2 eexists. }
  destruct (glob_within pattern text steps budget Hcaps) as (st & g & -> & _ & Hok%glob_ok_wild).
  exists st, g. split; [done|]. destruct g; [tauto|tauto|done|tauto].
Qed.
