(* ===== verification/SieveLexer.v ===== *)
(** The Sieve lexer (src/src/sieve/lexer/mod.rs): a script into tokens, with
    the offset at which each one starts.

    The source walks an array of characters with a cursor [pos]. Here the
    cursor is the suffix of the script that begins there: the offset is the
    length of the script less the length of that suffix, and reading past the
    end is reading the empty suffix. *)

From Stdlib Require Import Sorted.
From S2P Require Import Prelude RustStd.

Local Open Scope Z_scope.

Inductive Token :=
| TIdentifier (name : list Z)
| TTag (name : list Z)
| TNumber (value : Z)
| TQuotedString (value : list Z)
| TMultiLine (value : list Z)
| TBracketOpen
| TBracketClose
| TParenOpen
| TParenClose
| TBraceOpen
| TBraceClose
| TComma
| TSemicolon.

#[global] Instance Token_eq_dec : EqDecision Token.
Proof. solve_decision. Defined.

Inductive LexError :=
| LexUnterminated
| LexBadNumber
| LexUnexpected (c : Z).

#[global] Instance LexError_eq_dec : EqDecision LexError.
Proof. solve_decision. Defined.

Record Located := { loc_tokens : list Token; loc_starts : list nat }.

(** ** Characters *)

Definition DQUOTE : Z := 34.
Definition HASH : Z := 35.
Definition ASTERISK : Z := 42.
Definition SLASH : Z := 47.
Definition COLON : Z := 58.
Definition BACKSLASH : Z := 92.

Definition is_identifier_start (c : Z) : bool := is_ascii_alphabetic c || (c =? 95).
Definition is_identifier_char (c : Z) : bool := is_ascii_alphanumeric c || (c =? 95).

(** ** Runs of characters *)

(** [while pos < chars.len() && p(chars[pos]) { pos += 1 }]: the characters
    passed over and what follows. *)
Fixpoint span (p : Z → bool) (s : list Z) : list Z * list Z :=
  match s with
  | c :: s' => if p c then let '(a, b) := span p s' in (c :: a, b) else ([], s)
  | [] => ([], [])
  end.

Definition not_lf (c : Z) : bool := negb (c =? LF).

(** The inside of a bracketed comment; [None] is a comment with no end. *)
Fixpoint skip_comment (s : list Z) : option (list Z) :=
  match s with
  | c :: s' =>
      match s' with
      | [] => None
      | d :: s'' => if (c =? ASTERISK) && (d =? SLASH) then Some s'' else skip_comment s'
      end
  | [] => None
  end.

Definition lex_identifier (s : list Z) : list Z * list Z := span is_identifier_char s.

(** From just after the colon. *)
Definition lex_tag (s : list Z) : Token * list Z :=
  let '(name, rest) := lex_identifier s in (TTag name, rest).

(** [u64::checked_mul], an error on overflow. *)
Definition quantified (value unit : Z) (rest : list Z) : result LexError (Token * list Z) :=
  if u64_max <? value * unit then Err LexBadNumber else Ok (TNumber (value * unit), rest).

Definition lex_number (s : list Z) : result LexError (Token * list Z) :=
  let '(digits, rest) := span is_ascii_digit s in
  match parse_uint u64_max digits with
  | None => Err LexBadNumber
  | Some value =>
      match rest with
      | c :: rest' =>
          if (c =? 75) || (c =? 107) then quantified value 1024 rest'
          else if (c =? 77) || (c =? 109) then quantified value (1024 * 1024) rest'
          else if (c =? 71) || (c =? 103) then quantified value (1024 * 1024 * 1024) rest'
          else Ok (TNumber value, rest)
      | [] => Ok (TNumber value, rest)
      end
  end.

(** From just after the opening quote. *)
Fixpoint lex_quoted (s value : list Z) : result LexError (Token * list Z) :=
  match s with
  | c :: s' =>
      if c =? DQUOTE then Ok (TQuotedString value, s')
      else if c =? BACKSLASH then
        match s' with
        | [] => Err LexUnterminated
        | d :: s'' => lex_quoted s'' (value ++ [d])
        end
      else lex_quoted s' (value ++ [c])
  | [] => Err LexUnterminated
  end.

(** [lines.join(sep)]. *)
Fixpoint join_with (sep : list Z) (ps : list (list Z)) : list Z :=
  match ps with
  | [] => []
  | [p] => p
  | p :: ps => p ++ sep ++ join_with sep ps
  end.

(** A line without the [CR] at its end. *)
Definition pop_cr (line : list Z) : list Z := match strip_suffix [CR] line with Some l => l | None => line end.

(** A leading [..] is a leading [.]. *)
Definition unstuff (line : list Z) : list Z :=
  match strip_prefix [DOT; DOT] line with Some rest => DOT :: rest | None => line end.

(** The lines of a multi-line string up to the lone dot; [fuel] bounds the
    lines, and every one but a last takes its newline. *)
Fixpoint multiline_lines (fuel : nat) (s : list Z) (lines : list (list Z))
    : option (result LexError (list (list Z) * list Z)) :=
  let '(text, rest) := span not_lf s in
  let line := pop_cr text in
  let next rest :=
    if str_eqb line [DOT] then Some (Ok (lines, rest))
    else match fuel with
         | O => None
         | S fuel => multiline_lines fuel rest (lines ++ [unstuff line])
         end in
  match rest with
  | _ :: rest' => next rest'
  | [] => if is_empty text then Some (Err LexUnterminated) else next []
  end.

(** From just after [text:]. *)
Definition lex_multiline (s : list Z) : option (result LexError (Token * list Z)) :=
  let rest := tail (snd (span not_lf s)) in
  r ← multiline_lines (S (length rest)) rest [];
  Some (let? ' (lines, rest) := r in Ok (TMultiLine (join_with [CR; LF] lines), rest)).

(** ** The loop *)

(** What one turn of the loop reads: a token or nothing, and the rest. *)
Definition lex_one (c : Z) (s : list Z) : option (result LexError (option Token * list Z)) :=
  let token t := Some (Ok (Some t, s)) in
  let emit (r : result LexError (Token * list Z)) :=
    Some (let? ' (t, rest) := r in Ok (Some t, rest)) in
  if (c =? 32) || (c =? 9) || (c =? CR) || (c =? LF) then Some (Ok (None, s))
  else if c =? HASH then Some (Ok (None, snd (span not_lf s)))
  else if (c =? SLASH) && match s with d :: _ => d =? ASTERISK | [] => false end then
    Some (match skip_comment (tail s) with Some rest => Ok (None, rest) | None => Err LexUnterminated end)
  else if c =? 91 then token TBracketOpen
  else if c =? 93 then token TBracketClose
  else if c =? 40 then token TParenOpen
  else if c =? 41 then token TParenClose
  else if c =? 123 then token TBraceOpen
  else if c =? 125 then token TBraceClose
  else if c =? 44 then token TComma
  else if c =? 59 then token TSemicolon
  else if c =? DQUOTE then emit (lex_quoted s [])
  else if c =? COLON then emit (Ok (lex_tag s))
  else if is_ascii_digit c then emit (lex_number (c :: s))
  else if is_identifier_start c then
    let '(ident, rest) := lex_identifier (c :: s) in
    match rest with
    | d :: rest' =>
        if str_eqb ident (lit "text") && (d =? COLON) then r ← lex_multiline rest'; emit r
        else Some (Ok (Some (TIdentifier ident), rest))
    | [] => Some (Ok (Some (TIdentifier ident), rest))
    end
  else Some (Err (LexUnexpected c)).

(** The turns from [pos]; an error comes with the start of its turn. *)
Fixpoint lex_all (fuel : nat) (pos : nat) (s : list Z) (located : Located)
    : option (result (LexError * nat) Located) :=
  match s with
  | [] => Some (Ok located)
  | c :: s' =>
      match fuel with
      | O => None
      | S fuel =>
          r ← lex_one c s';
          match r with
          | Err e => Some (Err (e, pos))
          | Ok (t, rest) =>
              lex_all fuel (pos + (length s - length rest)) rest
                match t with
                | Some t => {| loc_tokens := loc_tokens located ++ [t];
                               loc_starts := loc_starts located ++ [pos] |}
                | None => located
                end
          end
      end
  end.

(** An error of [lex_all] leaves [start] where the offending turn began. *)
Definition tokenize_located (input : list Z) : option (result (LexError * nat) Located) :=
  lex_all (length input) 0 input {| loc_tokens := []; loc_starts := [] |}.

Definition tokenize (input : list Z) : option (result LexError (list Token)) :=
  r ← tokenize_located input;
  Some match r with Ok located => Ok (loc_tokens located) | Err (e, _) => Err e end.

Definition line_of (input : list Z) (at_ : nat) : nat :=
  1 + length (List.filter (λ c, c =? LF) (take at_ input)).

(** ** The lexical grammar *)

(** What follows a run does not go on with it. *)
Definition stops (p : Z → bool) (s : list Z) : Prop := match s with [] => True | c :: _ => p c = false end.

Definition punctuation (c : Z) : option Token :=
  if c =? 91 then Some TBracketOpen
  else if c =? 93 then Some TBracketClose
  else if c =? 40 then Some TParenOpen
  else if c =? 41 then Some TParenClose
  else if c =? 123 then Some TBraceOpen
  else if c =? 125 then Some TBraceClose
  else if c =? 44 then Some TComma
  else if c =? 59 then Some TSemicolon
  else None.

Definition quantifier (c : Z) : option Z :=
  if (c =? 75) || (c =? 107) then Some 1024
  else if (c =? 77) || (c =? 109) then Some (1024 * 1024)
  else if (c =? 71) || (c =? 103) then Some (1024 * 1024 * 1024)
  else None.

(** A quoted string's value and its spelling between the quotes. *)
Inductive quoted : list Z → list Z → Prop :=
| quoted_nil : quoted [] []
| quoted_plain c v b : c ≠ DQUOTE → c ≠ BACKSLASH → quoted v b → quoted (c :: v) (c :: b)
| quoted_escape c v b : quoted v b → quoted (c :: v) (BACKSLASH :: c :: b).

(** A line of a multi-line string and its spelling, the [LF] apart: a leading
    dot is doubled, or may stand when nothing is read into it, and a [CR]
    before the [LF] is not of the line. *)
Definition stuffed (line d : list Z) : Prop :=
  (∃ r, line = DOT :: r ∧ d = DOT :: DOT :: r) ∨ (line = d ∧ d ≠ [DOT] ∧ starts_with [DOT; DOT] d = false).

Definition line_end (d text : list Z) : Prop :=
  text = d ++ [CR] ∨ (text = d ∧ ends_with [CR] d = false).

Definition spelled_line (line text : list Z) : Prop :=
  LF ∉ text ∧ ∃ d, stuffed line d ∧ line_end d text.

(** The lines up to the lone dot. *)
Inductive multiline : list (list Z) → list Z → list Z → Prop :=
| multiline_end text s : LF ∉ text → line_end [DOT] text → multiline [] (text ++ LF :: s) s
| multiline_eof text : LF ∉ text → line_end [DOT] text → multiline [] text []
| multiline_line l text ls s rest :
    spelled_line l text → multiline ls s rest → multiline (l :: ls) (text ++ LF :: s) rest.

(** One lexical element at the start of a script: a token or none, and what
    follows it. *)
Inductive reads : list Z → option Token → list Z → Prop :=
| reads_space c s : c ∈ [32; 9; CR; LF] → reads (c :: s) None s
| reads_hash body s : LF ∉ body → stops not_lf s → reads (HASH :: body ++ s) None s
| reads_comment body s :
    (∀ a b, body ++ [ASTERISK] ≠ a ++ ASTERISK :: SLASH :: b) →
    reads (SLASH :: ASTERISK :: body ++ ASTERISK :: SLASH :: s) None s
| reads_punctuation c t s : punctuation c = Some t → reads (c :: s) (Some t) s
| reads_quoted v b s : quoted v b → reads (DQUOTE :: b ++ DQUOTE :: s) (Some (TQuotedString v)) s
| reads_tag n s :
    Forall (λ c, is_identifier_char c = true) n → stops is_identifier_char s →
    reads (COLON :: n ++ s) (Some (TTag n)) s
| reads_number ds v s :
    ds ≠ [] → Forall (λ c, is_ascii_digit c = true) ds → parse_uint u64_max ds = Some v →
    stops (λ c, is_ascii_digit c || bool_decide (is_Some (quantifier c))) s →
    reads (ds ++ s) (Some (TNumber v)) s
| reads_quantified ds v q u s :
    ds ≠ [] → Forall (λ c, is_ascii_digit c = true) ds → parse_uint u64_max ds = Some v →
    quantifier q = Some u → v * u ≤ u64_max →
    reads (ds ++ q :: s) (Some (TNumber (v * u))) s
| reads_identifier c n s :
    is_identifier_start c = true → Forall (λ c, is_identifier_char c = true) n →
    stops (λ d, is_identifier_char d || (str_eqb (c :: n) (lit "text") && (d =? COLON))) s →
    reads (c :: n ++ s) (Some (TIdentifier (c :: n))) s
| reads_multiline intro ls s rest :
    LF ∉ intro → multiline ls s rest →
    reads (lit "text:" ++ intro ++ LF :: s) (Some (TMultiLine (join_with [CR; LF] ls))) rest.

(** A whole script and its tokens. *)
Inductive script : list Z → list Token → Prop :=
| script_end : script [] []
| script_blank s rest ts : reads s None rest → script rest ts → script s ts
| script_token s t rest ts : reads s (Some t) rest → script rest ts → script s (t :: ts).

(** ** Runs *)

Lemma span_eq p s : s = (span p s).1 ++ (span p s).2.
Proof. induction s as [|c s IH]; cbn; [done|]. destruct (p c); [|done]. destruct (span p s); cbn in *. by subst. Qed.

Lemma span_spec p a b :
  Forall (λ c, p c = true) a → stops p b → span p (a ++ b) = (a, b).
Proof.
  induction 1 as [|c a Hc Ha IH]; intros Hb; cbn.
  - destruct b as [|c b]; cbn in *; [done|]. by rewrite Hb.
  - by rewrite Hc, IH.
Qed.

Lemma span_inv p s a b : span p s = (a, b) → s = a ++ b ∧ Forall (λ c, p c = true) a ∧ stops p b.
Proof.
  revert a b. induction s as [|c s IH]; intros a b; cbn; [by intros [= <- <-]|].
  destruct (p c) eqn:Hc; [|intros [= <- <-]; by split_and!].
  destruct (span p s) as [a' b']. intros [= <- <-]. destruct (IH a' b' eq_refl) as (-> & ? & ?).
  split_and!; [done|by constructor|done].
Qed.

Lemma Forall_not_lf s : Forall (λ c, not_lf c = true) s ↔ LF ∉ s.
Proof.
  unfold not_lf. induction s as [|c s IH]; [split; [intros _; apply not_elem_of_nil|done]|].
  rewrite Forall_cons, not_elem_of_cons, IH, negb_true_iff, Z.eqb_neq. naive_solver.
Qed.

Lemma stops_not_lf s : stops not_lf s ↔ s = [] ∨ ∃ s', s = LF :: s'.
Proof.
  destruct s as [|c s]; cbn; [naive_solver|]. unfold not_lf. rewrite negb_false_iff, Z.eqb_eq. naive_solver.
Qed.

(** ** Each function reads its part of the grammar *)

Lemma lex_quoted_complete v b : quoted v b → ∀ acc rest,
  lex_quoted (b ++ DQUOTE :: rest) acc = Ok (TQuotedString (acc ++ v), rest).
Proof.
  induction 1 as [|c v b Hq Hb Hqb IH|c v b Hqb IH]; intros acc rest; cbn [app lex_quoted].
  - rewrite Z.eqb_refl, app_nil_r. done.
  - rewrite (proj2 (Z.eqb_neq _ _) Hq), (proj2 (Z.eqb_neq _ _) Hb), IH, <-app_assoc. done.
  - rewrite IH, <-app_assoc. done.
Qed.

Lemma lex_quoted_sound n : ∀ s acc t rest, (length s ≤ n)%nat →
  lex_quoted s acc = Ok (t, rest) →
  ∃ v b, t = TQuotedString (acc ++ v) ∧ s = b ++ DQUOTE :: rest ∧ quoted v b.
Proof.
  induction n as [|n IH]; intros [|c s] acc t rest Hn; cbn in Hn; try lia; cbn [lex_quoted]; try done.
  destruct (Z.eqb_spec c DQUOTE) as [->|Hq].
  { intros [= <- <-]. exists [], []. rewrite app_nil_r. split_and!; [done|done|constructor]. }
  destruct (Z.eqb_spec c BACKSLASH) as [->|Hb].
  - destruct s as [|d s]; [done|]. intros (v & b & -> & -> & Hv)%IH; [|cbn in Hn; lia].
    exists (d :: v), (BACKSLASH :: d :: b). rewrite <-app_assoc. split_and!; [done|done|by constructor].
  - intros (v & b & -> & -> & Hv)%IH; [|lia].
    exists (c :: v), (c :: b). rewrite <-app_assoc. split_and!; [done|done|by constructor].
Qed.

Lemma skip_comment_complete body rest :
  (∀ a b, body ++ [ASTERISK] ≠ a ++ ASTERISK :: SLASH :: b) →
  skip_comment (body ++ ASTERISK :: SLASH :: rest) = Some rest.
Proof.
  induction body as [|c body IH]; intros Hno; [done|]. cbn [app skip_comment].
  assert (Hcons : ∀ d l, body ++ ASTERISK :: SLASH :: rest = d :: l → (c =? ASTERISK) && (d =? SLASH) = false).
  { intros d l Heq. apply andb_false_iff. destruct (Z.eqb_spec c ASTERISK) as [->|]; [|by left].
    right. apply Z.eqb_neq. intros ->. destruct body as [|e body]; [done|]. injection Heq as -> _.
    by apply (Hno [] (body ++ [ASTERISK])). }
  destruct (body ++ ASTERISK :: SLASH :: rest) as [|d l] eqn:E; [by destruct body|].
  rewrite (Hcons d l eq_refl). rewrite <-E in IH |- *. apply IH.
  intros a b Heq. apply (Hno (c :: a) b). cbn. by rewrite Heq.
Qed.

Lemma skip_comment_sound s rest :
  skip_comment s = Some rest →
  ∃ body, s = body ++ ASTERISK :: SLASH :: rest ∧ ∀ a b, body ++ [ASTERISK] ≠ a ++ ASTERISK :: SLASH :: b.
Proof.
  induction s as [|c s IH]; cbn [skip_comment]; [done|]. destruct s as [|d s]; [done|].
  destruct ((c =? ASTERISK) && (d =? SLASH)) eqn:E.
  - apply andb_true_iff in E as [->%Z.eqb_eq ->%Z.eqb_eq]. intros [= <-]. exists []. split; [done|].
    intros a b Heq%(f_equal length). rewrite !length_app in Heq. cbn in Heq. lia.
  - intros H. destruct (IH H) as (body & Heq & Hno). exists (c :: body). cbn. rewrite Heq. split; [done|].
    intros [|x a] b Hab; cbn in Hab; injection Hab as -> Hab.
    + destruct body as [|e body]; cbn in Hab; [done|]. injection Hab as -> _. cbn in Heq.
      injection Heq as -> _. done.
    + by eapply Hno.
Qed.

Lemma ends_with_snoc c d s : ends_with [c] (s ++ [d]) = (c =? d).
Proof. unfold ends_with. rewrite rev_unit. cbn. by rewrite andb_true_r. Qed.

Lemma pop_cr_spec text d : pop_cr text = d ↔ line_end d text.
Proof.
  unfold pop_cr, strip_suffix, line_end. destruct text as [|c text _] using rev_ind.
  { cbn. split; [intros <-; by right|]. intros [H|[<- _]]; [by destruct d|done]. }
  rewrite ends_with_snoc, length_app. cbn [length]. replace (length text + 1 - 1)%nat with (length text) by lia.
  rewrite take_app_length. destruct (Z.eqb_spec CR c) as [<-|Hc].
  - split; [intros <-; by left|]. intros [H|[<- H]]; [by apply app_inj_tail in H as [-> _]|].
    by rewrite ends_with_snoc, Z.eqb_refl in H.
  - split; [intros <-|].
    + right. rewrite ends_with_snoc. by apply Z.eqb_neq in Hc.
    + intros [H|[<- _]]; [|done]. apply app_inj_tail in H as [_ ->]. done.
Qed.

Lemma unstuff_spec d line : d ≠ [DOT] → unstuff d = line ↔ stuffed line d.
Proof.
  intros Hd. unfold unstuff, strip_prefix, stuffed. destruct (starts_with [DOT; DOT] d) eqn:E.
  - destruct d as [|x [|y d]]; cbn [starts_with] in E; try done; [by rewrite andb_false_r in E|].
    rewrite !andb_true_iff in E. destruct E as (<-%Z.eqb_eq & <-%Z.eqb_eq & _). cbn. split; [intros <-; eauto|].
    by intros [(r & -> & [= ->])|(_ & _ & ?)].
  - split; [intros <-; by right|]. intros [(r & -> & ->)|(-> & _)]; [|done]. done.
Qed.

Lemma multiline_length ls s rest : multiline ls s rest → (length rest ≤ length s)%nat.
Proof. induction 1; rewrite ?length_app; cbn; lia. Qed.

Definition multiline_next (fuel : nat) (line : list Z) (lines : list (list Z)) (rest : list Z) :=
  if str_eqb line [DOT] then Some (Ok (lines, rest))
  else match fuel with
       | O => None
       | S fuel => multiline_lines fuel rest (lines ++ [unstuff line])
       end.

Lemma multiline_lines_eq fuel s lines text rest :
  span not_lf s = (text, rest) →
  multiline_lines fuel s lines =
  match rest with
  | _ :: rest' => multiline_next fuel (pop_cr text) lines rest'
  | [] => if is_empty text then Some (Err LexUnterminated) else multiline_next fuel (pop_cr text) lines []
  end.
Proof. intros Hs. destruct fuel; cbn [multiline_lines]; rewrite Hs; done. Qed.

Lemma span_line text s : LF ∉ text → span not_lf (text ++ LF :: s) = (text, LF :: s).
Proof. intros H. apply span_spec; [by apply Forall_not_lf|done]. Qed.

Lemma multiline_lines_complete ls s rest : multiline ls s rest → ∀ fuel acc,
  (length s ≤ fuel)%nat → multiline_lines fuel s acc = Some (Ok (acc ++ ls, rest)).
Proof.
  induction 1 as [text s Hlf He|text Hlf He|l text ls s rest [Hlf (d & Hst & He)] Hm IH]; intros fuel acc Hfuel.
  - rewrite (multiline_lines_eq _ _ _ _ _ (span_line _ _ Hlf)).
    unfold multiline_next. apply pop_cr_spec in He as ->. by rewrite str_eqb_refl, app_nil_r.
  - assert (Hs : span not_lf text = (text, [])).
    { rewrite <-(app_nil_r text) at 1. apply span_spec; [by apply Forall_not_lf|done]. }
    rewrite (multiline_lines_eq _ _ _ _ _ Hs). unfold multiline_next.
    assert (is_empty text = false) as -> by (by destruct He as [->|[-> _]]).
    apply pop_cr_spec in He as ->. by rewrite str_eqb_refl, app_nil_r.
  - rewrite (multiline_lines_eq _ _ _ _ _ (span_line _ _ Hlf)). unfold multiline_next.
    apply pop_cr_spec in He as ->.
    assert (Hd : d ≠ [DOT]) by (by destruct Hst as [(r & _ & ->)|(_ & ? & _)]).
    rewrite str_eqb_neq by done. apply unstuff_spec in Hst as ->; [|done].
    rewrite length_app in Hfuel. cbn in Hfuel. destruct fuel as [|fuel]; [lia|].
    rewrite IH by lia. by rewrite <-app_assoc.
Qed.

Lemma multiline_nil ls rest : ¬ multiline ls [] rest.
Proof.
  intros H. inversion H as [text s Hlf He Heq|text Hlf He|l text ls' s r Hl Hm Heq]; subst;
    [by destruct text| |by destruct text]. by destruct He as [|[]].
Qed.

(** What the turn of a line promises, given what the lines after it do. *)
Definition lines_promise (acc : list (list Z)) (s : list Z)
    (r : option (result LexError (list (list Z) * list Z))) : Prop :=
  match r with
  | None => False
  | Some (Err e) => e = LexUnterminated
  | Some (Ok (lines, rest)) => ∃ ls, lines = acc ++ ls ∧ multiline ls s rest
  end.

Lemma multiline_next_sound fuel acc text s rest :
  LF ∉ text → (pop_cr text = [DOT] → multiline [] s rest) →
  (∀ ls l r, spelled_line l text → multiline ls rest r → multiline (l :: ls) s r) →
  (∀ acc, lines_promise acc rest (multiline_lines fuel rest acc)) →
  lines_promise acc s (multiline_next (S fuel) (pop_cr text) acc rest).
Proof.
  intros Hlf Hdot Hline Hrec. unfold multiline_next. destruct (str_eqb (pop_cr text) [DOT]) eqn:E.
  { apply str_eqb_eq in E. exists []. rewrite app_nil_r. auto. }
  specialize (Hrec (acc ++ [unstuff (pop_cr text)])).
  destruct (multiline_lines _ _ _) as [[[lines rst]|]|]; [|done|done]. destruct Hrec as (ls & -> & Hm).
  exists (unstuff (pop_cr text) :: ls). rewrite <-app_assoc. split; [done|]. apply Hline; [|done].
  split; [done|]. exists (pop_cr text). split; [|by apply pop_cr_spec]. apply unstuff_spec; [|done].
  intros Hx. by rewrite Hx, str_eqb_refl in E.
Qed.

Lemma multiline_lines_sound fuel : ∀ s acc,
  (length s < fuel)%nat → lines_promise acc s (multiline_lines fuel s acc).
Proof.
  induction fuel as [|fuel IH]; intros s acc Hf; [lia|]. destruct (span not_lf s) as [text rest] eqn:Hs;
    rewrite (multiline_lines_eq _ _ _ _ _ Hs); apply span_inv in Hs as (-> & Ht%Forall_not_lf & Hr%stops_not_lf).
  rewrite length_app in Hf. destruct Hr as [->|[rest' ->]].
  - destruct text as [|c text]; cbn [is_empty]; [done|]. rewrite app_nil_r in *.
    apply multiline_next_sound; [done| | |].
    + intros Hd%pop_cr_spec. by apply multiline_eof.
    + by intros ls l r _ ?%multiline_nil.
    + intros acc'. destruct fuel; done.
  - apply multiline_next_sound; [done| | |].
    + intros Hd%pop_cr_spec. by apply multiline_end.
    + intros. by apply multiline_line.
    + intros acc'. apply IH. cbn in Hf. lia.
Qed.

Lemma lex_multiline_complete intro ls s rest :
  LF ∉ intro → multiline ls s rest →
  lex_multiline (intro ++ LF :: s) = Some (Ok (TMultiLine (join_with [CR; LF] ls), rest)).
Proof.
  intros Hlf Hm. unfold lex_multiline. rewrite span_line by done. cbn [snd tail].
  erewrite multiline_lines_complete by (done || lia). done.
Qed.

Lemma lex_multiline_sound s :
  ∃ r, lex_multiline s = Some r ∧
    match r with
    | Ok (t, rest) => ∃ intro s' ls, s = intro ++ LF :: s' ∧ LF ∉ intro ∧ multiline ls s' rest ∧
        t = TMultiLine (join_with [CR; LF] ls)
    | Err e => e = LexUnterminated
    end.
Proof.
  unfold lex_multiline. destruct (span not_lf s) as [intro s'] eqn:Hs.
  apply span_inv in Hs as (-> & Ht%Forall_not_lf & Hr%stops_not_lf). cbn [snd].
  pose proof (multiline_lines_sound (S (length (tail s'))) (tail s') [] ltac:(lia)) as Hp.
  destruct (multiline_lines _ _ _) as [[[lines rest]|e]|]; [| |done]; eexists; (split; [done|]); cbn; [|done].
  destruct Hp as (ls & -> & Hm). destruct Hr as [->|[s'' ->]]; [by apply multiline_nil in Hm|].
  by exists intro, s'', ls.
Qed.

Lemma lex_number_complete ds v s :
  Forall (λ c, is_ascii_digit c = true) ds → parse_uint u64_max ds = Some v →
  stops (λ c, is_ascii_digit c || bool_decide (is_Some (quantifier c))) s →
  lex_number (ds ++ s) = Ok (TNumber v, s).
Proof.
  intros Hds Hv Hs. unfold lex_number. rewrite span_spec; [|done|].
  2:{ destruct s as [|c s]; [done|]. by apply orb_false_iff in Hs as [? _]. }
  rewrite Hv. destruct s as [|c s]; [done|]. apply orb_false_iff in Hs as [_ Hq%bool_decide_eq_false].
  unfold quantifier in Hq. repeat (case_match; [exfalso; eauto|]). done.
Qed.

Lemma lex_number_quantified ds v q u s :
  Forall (λ c, is_ascii_digit c = true) ds → parse_uint u64_max ds = Some v →
  quantifier q = Some u → v * u ≤ u64_max →
  lex_number (ds ++ q :: s) = Ok (TNumber (v * u), s).
Proof.
  intros Hds Hv Hq Hu. unfold lex_number. unfold quantifier in Hq. rewrite span_spec; [|done|].
  2:{ cbn. unfold is_ascii_digit, in_range. repeat case_match; simplify_eq; lia. }
  rewrite Hv. repeat case_match; simplify_eq; unfold quantified; by rewrite (proj2 (Z.ltb_ge _ _) Hu).
Qed.

Lemma lex_number_sound c s t rest :
  is_ascii_digit c = true → lex_number (c :: s) = Ok (t, rest) → reads (c :: s) (Some t) rest.
Proof.
  intros Hc. unfold lex_number. destruct (span is_ascii_digit (c :: s)) as [ds s'] eqn:Hs.
  assert (Hne : ds ≠ []) by (cbn in Hs; rewrite Hc in Hs; destruct (span is_ascii_digit s); by injection Hs as <- <-).
  apply span_inv in Hs as (-> & Hds & Hstop). destruct (parse_uint u64_max ds) as [v|] eqn:Hv; [|done].
  assert (Hplain : (∀ c s'', s' = c :: s'' → quantifier c = None) → reads (ds ++ s') (Some (TNumber v)) s').
  { intros Hq. apply reads_number; try done. destruct s' as [|d s']; [done|]. cbn in *. rewrite Hstop. cbn.
    apply bool_decide_eq_false. intros [u Hu]. by rewrite (Hq d s' eq_refl) in Hu. }
  destruct s' as [|q s']; [intros [= <- <-]; by apply Hplain|].
  assert (Hquant : ∀ u, quantifier q = Some u → quantified v u s' = Ok (t, rest) →
    reads (ds ++ q :: s') (Some t) rest).
  { intros u Hu. unfold quantified. destruct (Z.ltb_spec u64_max (v * u)); [done|]. intros [= <- <-].
    by eapply reads_quantified. }
  unfold quantifier in *. repeat (case_match; [by apply Hquant|]). intros [= <- <-]. apply Hplain.
  intros ? ? [= <- <-]. by repeat (case_match; [congruence|]).
Qed.

(** The tests of the loop's [match] on a character in a known range. *)
Ltac char_tests :=
  unfold is_identifier_start, is_identifier_char, is_ascii_alphanumeric, is_ascii_alphabetic,
    is_ascii_uppercase, is_ascii_lowercase, is_ascii_digit, in_range,
    HASH, SLASH, ASTERISK, DQUOTE, COLON, CR, LF in *;
  repeat match goal with
  | |- context [?a =? ?b] => destruct (Z.eqb_spec a b); [exfalso; lia|]
  end.

Lemma punctuation_cases c t : punctuation c = Some t →
  (c, t) ∈ [(91, TBracketOpen); (93, TBracketClose); (40, TParenOpen); (41, TParenClose);
            (123, TBraceOpen); (125, TBraceClose); (44, TComma); (59, TSemicolon)].
Proof.
  unfold punctuation. intros H. repeat (case_match; [simplify_eq;
    match goal with E : (_ =? _) = true |- _ => apply Z.eqb_eq in E; subst end; set_solver|]). done.
Qed.

Lemma lex_one_digit c s : is_ascii_digit c = true →
  lex_one c s = Some (let? ' (t, rest) := lex_number (c :: s) in Ok (Some t, rest)).
Proof. intros Hc. unfold lex_one. rewrite Hc. char_tests. done. Qed.

Lemma lex_one_identifier c s : is_identifier_start c = true →
  lex_one c s =
    let '(ident, rest) := lex_identifier (c :: s) in
    match rest with
    | d :: rest' =>
        if str_eqb ident (lit "text") && (d =? COLON) then
          r ← lex_multiline rest'; Some (let? ' (t, rest) := r in Ok (Some t, rest))
        else Some (Ok (Some (TIdentifier ident), rest))
    | [] => Some (Ok (Some (TIdentifier ident), rest))
    end.
Proof.
  intros Hc. unfold lex_one. rewrite Hc. destruct (lex_identifier (c :: s)) as [ident rest].
  assert (is_ascii_digit c = false) as ->.
  { unfold is_identifier_start, is_ascii_alphabetic, is_ascii_uppercase, is_ascii_lowercase, is_ascii_digit, in_range in *. lia. }
  repeat match goal with
  | |- context [c =? ?b] => replace (c =? b) with false by
      (symmetry; apply Z.eqb_neq; intros ->; discriminate Hc)
  end. done.
Qed.

Lemma identifier_start_char c : is_identifier_start c = true → is_identifier_char c = true.
Proof.
  unfold is_identifier_start, is_identifier_char, is_ascii_alphanumeric.
  intros [->| ->]%orb_true_iff; by rewrite ?orb_true_r.
Qed.

Lemma lex_one_complete c s t rest : reads (c :: s) t rest → lex_one c s = Some (Ok (t, rest)).
Proof.
  intros H. inversion H as [c' s' Hin|body s' Hlf Hst|body s' Hno|c' t' s' Hp|v b s' Hq|n s' Hn Hst
    |ds v s' Hne Hds Hv Hst Heq|ds v q u s' Hne Hds Hv Hqu Hu Heq|c' n s' Hc Hn Hst|intro ls s' rest' Hlf Hm]; subst.
  - rewrite !elem_of_cons in Hin. by destruct Hin as [->|[->|[->|[->|?%not_elem_of_nil]]]].
  - unfold lex_one. cbn. by rewrite span_spec by (done || by apply Forall_not_lf).
  - unfold lex_one. cbn. by rewrite skip_comment_complete.
  - apply punctuation_cases in Hp. rewrite !elem_of_cons in Hp. naive_solver set_solver.
  - unfold lex_one. cbn. by rewrite (lex_quoted_complete _ _ Hq).
  - unfold lex_one, lex_tag, lex_identifier. cbn. by rewrite span_spec.
  - destruct ds as [|c' ds]; [done|]. injection Heq as -> <-. rewrite lex_one_digit by apply (Forall_inv Hds).
    change (c :: ds ++ rest) with ((c :: ds) ++ rest). by erewrite lex_number_complete.
  - destruct ds as [|c' ds]; [done|]. injection Heq as -> <-. rewrite lex_one_digit by apply (Forall_inv Hds).
    change (c :: ds ++ q :: rest) with ((c :: ds) ++ q :: rest). by erewrite lex_number_quantified.
  - rewrite lex_one_identifier by done. unfold lex_identifier.
    change (c :: n ++ rest) with ((c :: n) ++ rest). rewrite span_spec.
    + destruct rest as [|d rest]; [done|]. cbn in Hst. apply orb_false_iff in Hst as [_ ->]. done.
    + constructor; [by apply identifier_start_char|done].
    + destruct rest as [|d rest]; [done|]. by apply orb_false_iff in Hst as [? _].
  - rewrite lex_one_identifier by done. unfold lex_identifier.
    match goal with |- context [span _ ?x] => change x with (lit "text" ++ COLON :: intro ++ LF :: s') end.
    rewrite span_spec; [|by repeat constructor|done]. cbn [str_eqb andb].
    rewrite str_eqb_refl, Z.eqb_refl. cbn [andb]. by rewrite (lex_multiline_complete _ _ _ _ Hlf Hm).
Qed.

(** A character is in one class, and its class says how the loop reads it. *)
Lemma lex_one_sound c s :
  ∃ r, lex_one c s = Some r ∧
    match r with Ok (t, rest) => reads (c :: s) t rest | Err _ => True end.
Proof.
  destruct (is_ascii_digit c) eqn:Hd.
  { rewrite lex_one_digit by done. eexists. split; [done|].
    destruct (lex_number (c :: s)) as [[t rest]|] eqn:Hn; [|done]. by apply lex_number_sound. }
  destruct (is_identifier_start c) eqn:Hi.
  { rewrite lex_one_identifier by done. unfold lex_identifier.
    destruct (span is_identifier_char (c :: s)) as [ident rest] eqn:Hs.
    assert (∃ n, ident = c :: n) as [n ->].
    { cbn in Hs. rewrite identifier_start_char in Hs by done. destruct (span is_identifier_char s).
      injection Hs as <- <-. eauto. }
    apply span_inv in Hs as (Heq & Hn & Hst). injection Heq as ->.
    apply Forall_cons in Hn as [_ Hn].
    destruct rest as [|d rest]; [eexists; split; [done|]; by apply reads_identifier|].
    destruct (str_eqb (c :: n) (lit "text") && (d =? COLON)) eqn:E.
    - apply andb_true_iff in E as [[= -> ->]%str_eqb_eq ->%Z.eqb_eq].
      destruct (lex_multiline_sound rest) as (r & -> & Hr). eexists. split; [done|].
      destruct r as [[t rest']|]; [|done]. destruct Hr as (intro & s' & ls & -> & Hlf & Hm & ->).
      by apply (reads_multiline intro ls s' rest').
    - eexists; split; [done|]. apply reads_identifier; [done|done|]. cbn in Hst |- *. by rewrite Hst. }
  unfold lex_one. rewrite Hd, Hi.
  destruct ((c =? 32) || (c =? 9) || (c =? CR) || (c =? LF)) eqn:Hsp.
  { eexists; split; [done|]. apply reads_space. rewrite !orb_true_iff, !Z.eqb_eq in Hsp. set_solver. }
  destruct (Z.eqb_spec c HASH) as [->|_].
  { eexists; split; [done|]. cbv beta iota. destruct (span not_lf s) as [body rest] eqn:Hs.
    apply span_inv in Hs as (-> & ?%Forall_not_lf & ?). by apply reads_hash. }
  destruct (_ && _) eqn:Hcm.
  { apply andb_true_iff in Hcm as [->%Z.eqb_eq Hs]. destruct s as [|d s]; [done|]. apply Z.eqb_eq in Hs as ->.
    eexists; split; [done|]. cbn [tail]. destruct (skip_comment s) as [rest|] eqn:Hk; [|done].
    apply skip_comment_sound in Hk as (body & -> & Hno). by apply reads_comment. }
  destruct (punctuation c) as [t|] eqn:Hp.
  { exists (Ok (Some t, s)). split; [|by apply reads_punctuation].
    unfold punctuation in Hp. repeat (case_match; [by simplify_eq|]). done. }
  unfold punctuation in Hp. do 8 (case_match; [done|]). clear Hp.
  destruct (Z.eqb_spec c DQUOTE) as [->|_].
  { eexists; split; [done|]. destruct (lex_quoted s []) as [[t rest]|] eqn:Hq; [|done].
    apply (lex_quoted_sound _ _ _ _ _ (le_n _)) in Hq as (v & b & -> & -> & Hv). by apply reads_quoted. }
  destruct (Z.eqb_spec c COLON) as [->|_]; [|by eexists].
  eexists; split; [done|]. unfold lex_tag, lex_identifier.
  destruct (span is_identifier_char s) as [n rest] eqn:Hs. apply span_inv in Hs as (-> & ? & ?). by apply reads_tag.
Qed.

Lemma multiline_suffix ls s rest : multiline ls s rest → rest `suffix_of` s.
Proof.
  induction 1 as [text s|text|l text ls s rest Hl Hm [k ->]].
  - exists (text ++ [LF]). by rewrite <-app_assoc.
  - exists text. by rewrite app_nil_r.
  - exists (text ++ LF :: k). by rewrite <-app_assoc.
Qed.

Lemma reads_suffix s t rest : reads s t rest → ∃ k, k ≠ [] ∧ s = k ++ rest.
Proof.
  destruct 1 as [c s|body s|body s|c t s|v b s|n s|ds v s Hne|ds v q u s|c n s|intro ls s rest Hlf Hm].
  - by exists [c].
  - by exists (HASH :: body).
  - exists (SLASH :: ASTERISK :: body ++ [ASTERISK; SLASH]). cbn. by rewrite <-app_assoc.
  - by exists [c].
  - exists (DQUOTE :: b ++ [DQUOTE]). cbn. by rewrite <-app_assoc.
  - by exists (COLON :: n).
  - by exists ds.
  - exists (ds ++ [q]). rewrite <-app_assoc. split; [by destruct ds|done].
  - by exists (c :: n).
  - apply multiline_suffix in Hm as [k ->]. exists (lit "text:" ++ intro ++ LF :: k). rewrite <-!app_assoc. done.
Qed.

(** Each token is read at its start, and the starts go up. *)
Definition located_ok (input : list Z) (pos : nat) (ts : list Token) (ps : list nat) : Prop :=
  Forall2 (λ t p, ∃ rest, reads (drop p input) (Some t) rest) ts ps ∧
  StronglySorted lt ps ∧ Forall (λ p, (pos ≤ p < length input)%nat) ps.

Lemma located_ok_later input pos pos' ts ps :
  (pos ≤ pos')%nat → located_ok input pos' ts ps → located_ok input pos ts ps.
Proof. intros Hle (Hf & Hs & Hp). split_and!; [done|done|]. eapply Forall_impl; [done|]. cbn. lia. Qed.

(** What the loop promises of the script from [pos] on. *)
Definition lex_promise (input s : list Z) (pos : nat) (loc : Located)
    (r : option (result (LexError * nat) Located)) : Prop :=
  match r with
  | None => False
  | Some (Ok loc') => ∃ ts ps, script s ts ∧ located_ok input pos ts ps ∧
      loc_tokens loc' = loc_tokens loc ++ ts ∧ loc_starts loc' = loc_starts loc ++ ps
  | Some (Err (e, p)) => (pos ≤ p)%nat ∧ ∃ c s', drop p input = c :: s' ∧ lex_one c s' = Some (Err e)
  end.

Lemma lex_all_spec input fuel : ∀ pos s loc,
  (length s ≤ fuel)%nat → s = drop pos input → (pos ≤ length input)%nat →
  lex_promise input s pos loc (lex_all fuel pos s loc).
Proof.
  assert (Hnil : ∀ pos loc, lex_promise input [] pos loc (Some (Ok loc))).
  { intros pos loc. exists [], []. rewrite !app_nil_r. split_and!; try done; [constructor|].
    by split_and!; constructor. }
  induction fuel as [|fuel IH]; intros pos [|c s] loc Hf Hs Hpos; try (cbn in Hf; lia); try apply Hnil.
  cbn [lex_all]. destruct (lex_one_sound c s) as (r & Hr & Hreads). rewrite Hr. cbn [mbind option_bind].
  destruct r as [[t rest]|e]; [|by cbn; eauto].
  destruct (reads_suffix _ _ _ Hreads) as (k & Hk & Heq).
  assert (Hlen : length (c :: s) = (length k + length rest)%nat) by (rewrite Heq; apply length_app).
  assert (Hkl : (0 < length k)%nat) by (destruct k; [done|cbn; lia]).
  replace (length (c :: s) - length rest)%nat with (length k) by lia.
  assert (Hil : (pos + length k ≤ length input)%nat).
  { apply (f_equal length) in Hs. rewrite length_drop in Hs. lia. }
  match goal with |- lex_promise _ _ _ _ (lex_all _ _ _ ?l) => specialize (IH (pos + length k)%nat rest l) end.
  assert (Hdrop : rest = drop (pos + length k) input).
  { rewrite <-drop_drop, <-Hs, Heq. by rewrite drop_app_length. }
  specialize (IH ltac:(lia) Hdrop Hil).
  destruct (lex_all _ _ _ _) as [[loc'|[e p]]|]; [| |done].
  - destruct IH as (ts & ps & Hscr & Hok & Htoks & Hstarts). destruct t as [t|]; cbn in Htoks, Hstarts.
    + exists (t :: ts), (pos :: ps). rewrite Htoks, Hstarts, <-!app_assoc.
      split_and!; [by eapply script_token| |done|done].
      destruct Hok as (Hf2 & Hsort & Hpos'). split_and!.
      * constructor; [|done]. exists rest. by rewrite <-Hs.
      * constructor; [done|]. eapply Forall_impl; [done|]. cbn. lia.
      * constructor; [lia|]. eapply Forall_impl; [done|]. cbn. lia.
    + exists ts, ps. split_and!; [by eapply script_blank| |done|done]. eapply located_ok_later; [|done]. lia.
  - destruct IH as [Hp IH]. split; [lia|done].
Qed.

Lemma script_functional s ts : script s ts → ∀ fuel pos loc,
  (length s ≤ fuel)%nat →
  ∃ loc', lex_all fuel pos s loc = Some (Ok loc') ∧ loc_tokens loc' = loc_tokens loc ++ ts.
Proof.
  assert (Hturn : ∀ s t rest fuel pos loc, reads s t rest → (length s ≤ fuel)%nat →
    ∃ fuel' pos', (length rest ≤ fuel')%nat ∧ lex_all fuel pos s loc = lex_all fuel' pos' rest
      match t with
      | Some t => {| loc_tokens := loc_tokens loc ++ [t]; loc_starts := loc_starts loc ++ [pos] |}
      | None => loc
      end).
  { intros s' t rest fuel pos loc Hr Hf. destruct (reads_suffix _ _ _ Hr) as (k & Hk & ->).
    rewrite length_app in Hf. destruct k as [|c k]; [done|]. cbn [app] in Hr |- *. cbn [length] in Hf.
    destruct fuel as [|fuel]; [lia|]. cbn [lex_all]. rewrite (lex_one_complete _ _ _ _ Hr). cbn [mbind option_bind].
    do 2 eexists. split; [|done]. lia. }
  induction 1 as [|s rest ts Hr Hscr IH|s t rest ts Hr Hscr IH]; intros fuel pos loc Hf.
  - exists loc. rewrite app_nil_r. by destruct fuel.
  - destruct (Hturn _ _ _ fuel pos loc Hr Hf) as (fuel' & pos' & Hf' & ->). by apply IH.
  - destruct (Hturn _ _ _ fuel pos loc Hr Hf) as (fuel' & pos' & Hf' & ->).
    edestruct (IH fuel' pos') as (loc' & -> & Hl); [done|]. exists loc'. split; [done|].
    rewrite Hl. cbn. by rewrite <-app_assoc.
Qed.

Lemma tokenize_total input : is_Some (tokenize input).
Proof.
  unfold tokenize, tokenize_located.
  pose proof (lex_all_spec input (length input) 0 input {| loc_tokens := []; loc_starts := [] |}
    (le_n _) eq_refl (Nat.le_0_l _)) as Hp.
  destruct (lex_all _ _ _ _) as [r|] eqn:Hl; [|done]. cbn. eauto.
Qed.

(** The lexer accepts exactly the scripts of the lexical grammar and
    returns their tokens, and it always answers. *)
Theorem tokenize_exact (input : list Z) :
  is_Some (tokenize input) ∧ ∀ ts, tokenize input = Some (Ok ts) ↔ script input ts.
Proof.
  unfold tokenize, tokenize_located.
  pose proof (lex_all_spec input (length input) 0 input {| loc_tokens := []; loc_starts := [] |}
    (le_n _) eq_refl (Nat.le_0_l _)) as Hp.
  destruct (lex_all _ _ _ _) as [r|] eqn:Hl; [|done]. cbn. split; [eauto|]. intros ts. split.
  - destruct r as [loc|[e p]]; [|done]. destruct Hp as (ts' & ps & Hscr & _ & Htoks & _).
    intros [= <-]. by rewrite Htoks.
  - intros Hscr. destruct (script_functional _ _ Hscr (length input) 0 {| loc_tokens := []; loc_starts := [] |}
      (le_n _)) as (loc' & Hl' & Htoks). rewrite Hl in Hl'. injection Hl' as ->. by rewrite Htoks.
Qed.

(** Every token comes with the offset at which it is read, the offsets
    go strictly up, and a failure comes with an offset inside the script at
    which no token can be read. *)
Theorem tokenize_located_exact (input : list Z) :
  match tokenize_located input with
  | Some (Ok loc) => located_ok input 0 (loc_tokens loc) (loc_starts loc)
  | Some (Err (e, p)) => (p < length input)%nat ∧ ∀ t rest, ¬ reads (drop p input) t rest
  | None => False
  end.
Proof.
  pose proof (lex_all_spec input (length input) 0 input {| loc_tokens := []; loc_starts := [] |}
    (le_n _) eq_refl (Nat.le_0_l _)) as Hp. unfold tokenize_located.
  destruct (lex_all _ _ _ _) as [[loc|[e p]]|]; [| |done].
  - destruct Hp as (ts & ps & _ & Hok & -> & ->). done.
  - destruct Hp as (_ & c & s' & Hd & He). split.
    + apply (f_equal length) in Hd. rewrite length_drop in Hd. cbn in Hd. lia.
    + intros t rest Hr. rewrite Hd in Hr. apply lex_one_complete in Hr. congruence.
Qed.
