(* ===== verification/SieveParser.v ===== *)
(** The Sieve abstract syntax and its parser (src/src/sieve/ast.rs and
    src/src/sieve/parser.rs).

    The source walks an array of tokens with a cursor [pos]; here the cursor
    is the suffix that begins there. A method of the source's [Parser] is a
    state-passing function whose state survives an error, as the [&mut self]
    of the source does. [None] is the end of the fuel, and never comes. *)

From S2P Require Import Prelude RustStd SieveLexer.

(** ** Abstract syntax *)

Inductive Argument :=
| AStr (value : list Z)
| AStrList (items : list (list Z))
| ANumber (value : Z)
| ATag (name : list Z).

#[global] Instance Argument_eq_dec : EqDecision Argument.
Proof. solve_decision. Defined.

Inductive Test := mkTest { t_name : list Z; t_args : list Argument; t_children : list Test }.

Record Branch (C : Type) := mkBranch { b_test : Test; b_body : list C }.
Arguments mkBranch {C} b_test b_body.
Arguments b_test {C} b.
Arguments b_body {C} b.

Record Conditional (C : Type) := mkConditional { c_branches : list (Branch C); c_otherwise : option (list C) }.
Arguments mkConditional {C} c_branches c_otherwise.
Arguments c_branches {C} c.
Arguments c_otherwise {C} c.

Inductive Command :=
| Action (name : list Z) (args : list Argument)
| If (conditional : Conditional Command).

(** ** Errors and state *)

Definition MAX_NESTING_DEPTH : nat := 64.

Inductive ParseError :=
| UnexpectedEof
| Unexpected (t : Token)
| Expected (what : list Z)
| NestingDepth (depth max : nat).

Record Parser := mkParser { p_rest : list Token; p_depth : nat }.

Definition parser (A : Type) : Type := Parser → option (result ParseError A * Parser).

Definition p_ret {A} (a : A) : parser A := λ st, Some (Ok a, st).
Definition p_fail {A} (e : ParseError) : parser A := λ st, Some (Err e, st).
Definition p_bind {A B} (m : parser A) (k : A → parser B) : parser B := λ st,
  match m st with
  | Some (Ok a, st) => k a st
  | Some (Err e, st) => Some (Err e, st)
  | None => None
  end.

Declare Scope parser_scope.
Delimit Scope parser_scope with parser.
Notation "'let!' x := m 'in' k" := (p_bind m (λ x, k))
  (at level 200, x name, k at level 200) : parser_scope.
Local Open Scope parser_scope.

Definition peek (st : Parser) : option Token := head (p_rest st).

(** [self.pos += 1]. *)
Definition advance : parser unit := λ st, Some (Ok tt, mkParser (tail (p_rest st)) (p_depth st)).

Definition next : parser Token := λ st,
  match p_rest st with
  | t :: rest => Some (Ok t, mkParser rest (p_depth st))
  | [] => Some (Err UnexpectedEof, st)
  end.

Definition eat (expected : Token) (what : list Z) : parser unit := λ st,
  if bool_decide (peek st = Some expected) then advance st else p_fail (Expected what) st.

Definition enter : parser nat := λ st,
  let depth := S (p_depth st) in
  let st := mkParser (p_rest st) depth in
  if (MAX_NESTING_DEPTH <? depth)%nat then p_fail (NestingDepth depth MAX_NESTING_DEPTH) st
  else p_ret depth st.

Definition leave : parser unit := λ st, Some (Ok tt, mkParser (p_rest st) (p_depth st - 1)).

Definition identifier : parser (list Z) :=
  let! t := next in
  match t with
  | TIdentifier name => p_ret name
  | other => p_fail (Unexpected other)
  end.

(** ** Arguments *)

(** The loop of [string_list] on the tokens from the cursor on. *)
Fixpoint string_list_loop (toks : list Token) (items : list (list Z))
    : result ParseError (list (list Z)) * list Token :=
  match toks with
  | [] => (Err UnexpectedEof, [])
  | t :: toks =>
      match t with
      | TQuotedString value | TMultiLine value =>
          match toks with
          | [] => (Err UnexpectedEof, [])
          | TComma :: toks => string_list_loop toks (items ++ [value])
          | TBracketClose :: toks => (Ok (items ++ [value]), toks)
          | other :: toks => (Err (Unexpected other), toks)
          end
      | other => (Err (Unexpected other), toks)
      end
  end.

Definition string_list : parser Argument :=
  let! _ := eat TBracketOpen (lit "'['") in
  λ st,
    let '(r, rest) := string_list_loop (p_rest st) [] in
    Some (let? items := r in Ok (AStrList items), mkParser rest (p_depth st)).

(** [fuel] bounds the arguments, and every one takes a token. *)
Fixpoint arguments_loop (fuel : nat) (args : list Argument) : parser (list Argument) := λ st,
  match fuel with
  | O => None
  | S fuel =>
      match peek st with
      | Some (TTag name) => (let! _ := advance in arguments_loop fuel (args ++ [ATag name])) st
      | Some (TNumber value) => (let! _ := advance in arguments_loop fuel (args ++ [ANumber value])) st
      | Some (TQuotedString value) | Some (TMultiLine value) =>
          (let! _ := advance in arguments_loop fuel (args ++ [AStr value])) st
      | Some TBracketOpen => (let! arg := string_list in arguments_loop fuel (args ++ [arg])) st
      | _ => p_ret args st
      end
  end.

Definition arguments : parser (list Argument) := λ st, arguments_loop (S (length (p_rest st))) [] st.

(** ** Tests *)

Definition out_of_fuel {A} : parser A := λ _, None.

Fixpoint test (fuel : nat) : parser Test :=
  match fuel with
  | O => out_of_fuel
  | S fuel =>
      let! name := identifier in
      if str_eqb name (lit "allof") || str_eqb name (lit "anyof") then
        let! _ := eat TParenOpen (lit "'(' after test list") in
        let! children := test_list fuel in
        let! _ := eat TParenClose (lit "')' after test list") in
        p_ret (mkTest name [] children)
      else if str_eqb name (lit "not") then
        let! _ := enter in
        let! inner := test fuel in
        let! _ := leave in
        p_ret (mkTest name [] [inner])
      else
        let! args := arguments in
        p_ret (mkTest name args [])
  end
with test_list (fuel : nat) : parser (list Test) :=
  match fuel with
  | O => out_of_fuel
  | S fuel =>
      let! _ := enter in
      let! first := test fuel in
      let! tests := more_tests fuel [first] in
      let! _ := leave in
      p_ret tests
  end
(** The [while] of [test_list]. *)
with more_tests (fuel : nat) (tests : list Test) : parser (list Test) :=
  match fuel with
  | O => out_of_fuel
  | S fuel => λ st,
      if bool_decide (peek st = Some TComma) then
        (let! _ := advance in
         let! t := test fuel in
         more_tests fuel (tests ++ [t])) st
      else p_ret tests st
  end.

(** ** Commands *)

Fixpoint commands (fuel : nat) (in_block : bool) : parser (list Command) :=
  match fuel with
  | O => out_of_fuel
  | S fuel =>
      let! _ := enter in
      let! cs := commands_loop fuel in_block [] in
      let! _ := leave in
      p_ret cs
  end
(** The [while] of [commands]. *)
with commands_loop (fuel : nat) (in_block : bool) (cs : list Command) : parser (list Command) :=
  match fuel with
  | O => out_of_fuel
  | S fuel => λ st,
      match peek st with
      | None => p_ret cs st
      | Some t =>
          if in_block && bool_decide (t = TBraceClose) then p_ret cs st
          else (let! c := command fuel in commands_loop fuel in_block (cs ++ [c])) st
      end
  end
with command (fuel : nat) : parser Command :=
  match fuel with
  | O => out_of_fuel
  | S fuel =>
      let! name := identifier in
      if str_eqb name (lit "if") then
        let! c := conditional fuel in p_ret (If c)
      else
        let! args := arguments in
        let! _ := eat TSemicolon (lit "';' after action") in
        p_ret (Action name args)
  end
with conditional (fuel : nat) : parser (Conditional Command) :=
  match fuel with
  | O => out_of_fuel
  | S fuel =>
      let! b := branch fuel in
      let! branches := more_branches fuel [b] in
      λ st,
        if bool_decide (peek st = Some (TIdentifier (lit "else"))) then
          (let! _ := advance in
           let! body := block fuel in
           p_ret (mkConditional branches (Some body))) st
        else p_ret (mkConditional branches None) st
  end
(** The [while] of [conditional]. *)
with more_branches (fuel : nat) (branches : list (Branch Command)) : parser (list (Branch Command)) :=
  match fuel with
  | O => out_of_fuel
  | S fuel => λ st,
      if bool_decide (peek st = Some (TIdentifier (lit "elsif"))) then
        (let! _ := advance in
         let! b := branch fuel in
         more_branches fuel (branches ++ [b])) st
      else p_ret branches st
  end
with branch (fuel : nat) : parser (Branch Command) :=
  match fuel with
  | O => out_of_fuel
  | S fuel =>
      let! t := test fuel in
      let! body := block fuel in
      p_ret (mkBranch t body)
  end
with block (fuel : nat) : parser (list Command) :=
  match fuel with
  | O => out_of_fuel
  | S fuel =>
      let! _ := eat TBraceOpen (lit "'{'") in
      let! body := commands fuel true in
      let! _ := eat TBraceClose (lit "'}'") in
      p_ret body
  end.

(** ** The whole script *)

Definition parse_fuel (tokens : list Token) : nat := 6 * length tokens + 6.

Definition parse_located (tokens : list Token) : option (result (ParseError * nat) (list Command)) :=
  let last := (length tokens - 1)%nat in
  match commands (parse_fuel tokens) false (mkParser tokens 0) with
  | None => None
  | Some (r, st) =>
      let pos := (length tokens - length (p_rest st))%nat in
      Some match r with
           | Err error =>
               let at_ := match error with Unexpected _ => (pos - 1)%nat | _ => pos end in
               Err (error, Nat.min at_ last)
           | Ok cs =>
               match p_rest st with
               | [] => Ok cs
               | t :: _ => Err (Unexpected t, pos)
               end
           end
  end.

Definition parse (tokens : list Token) : option (result ParseError (list Command)) :=
  r ← parse_located tokens;
  Some match r with Ok cs => Ok cs | Err (e, _) => Err e end.

(** ** The grammar

    The tokens of a piece of syntax. A string is spelled quoted or as a
    multi-line string, and the parser does not tell the two apart. *)

Definition unspelled (t : Token) : Token := match t with TMultiLine v => TQuotedString v | t => t end.

(** A list with commas between its pieces. *)
Fixpoint commas (ps : list (list Token)) : list Token :=
  match ps with
  | [] => []
  | [p] => p
  | p :: ps => p ++ TComma :: commas ps
  end.

Definition arg_tokens (a : Argument) : list Token :=
  match a with
  | AStr v => [TQuotedString v]
  | AStrList items => TBracketOpen :: commas (map (λ v, [TQuotedString v]) items) ++ [TBracketClose]
  | ANumber n => [TNumber n]
  | ATag n => [TTag n]
  end.

Definition args_tokens (args : list Argument) : list Token := flat_map arg_tokens args.

Definition is_test_list (name : list Z) : bool := str_eqb name (lit "allof") || str_eqb name (lit "anyof").
Definition is_not (name : list Z) : bool := str_eqb name (lit "not").

Fixpoint test_tokens (t : Test) : list Token :=
  TIdentifier (t_name t) ::
  (if is_test_list (t_name t) then TParenOpen :: commas (map test_tokens (t_children t)) ++ [TParenClose]
   else if is_not (t_name t) then flat_map test_tokens (t_children t)
   else args_tokens (t_args t)).

Definition keyword (first : bool) : list Token := if first then [] else [TIdentifier (lit "elsif")].

Fixpoint command_tokens (c : Command) : list Token :=
  match c with
  | Action name args => TIdentifier name :: args_tokens args ++ [TSemicolon]
  | If cond =>
      let body cs := TBraceOpen :: flat_map command_tokens cs ++ [TBraceClose] in
      TIdentifier (lit "if") ::
      (fix branches (first : bool) (bs : list (Branch Command)) : list Token :=
         match bs with
         | [] => []
         | b :: bs => keyword first ++ test_tokens (b_test b) ++ body (b_body b) ++ branches false bs
         end) true (c_branches cond) ++
      match c_otherwise cond with None => [] | Some cs => TIdentifier (lit "else") :: body cs end
  end.

(** The shapes the grammar has. *)
Definition arg_wf (a : Argument) : bool := match a with AStrList [] => false | _ => true end.

Fixpoint test_wf (t : Test) : bool :=
  if is_test_list (t_name t) then
    bool_decide (t_args t = []) && negb (bool_decide (length (t_children t) = 0%nat)) && forallb test_wf (t_children t)
  else if is_not (t_name t) then
    bool_decide (t_args t = []) && bool_decide (length (t_children t) = 1%nat) && forallb test_wf (t_children t)
  else bool_decide (length (t_children t) = 0%nat) && forallb arg_wf (t_args t).

(** A conditional without [else] takes an [elsif] or an [else] that follows
    it for its own, so no action of that name can follow it. *)
Definition open_ended (c : Command) : bool :=
  match c with If cond => match c_otherwise cond with None => true | Some _ => false end | Action _ _ => false end.

Definition continues_if (name : list Z) : bool := str_eqb name (lit "elsif") || str_eqb name (lit "else").

Definition continuing (c : Command) : bool :=
  match c with Action name _ => continues_if name | If _ => false end.

Fixpoint adjacent (cs : list Command) : bool :=
  match cs with
  | c :: (c' :: _) as cs => negb (open_ended c && continuing c') && adjacent cs
  | _ => true
  end.

Fixpoint command_wf (c : Command) : bool :=
  match c with
  | Action name args => negb (str_eqb name (lit "if")) && forallb arg_wf args
  | If cond =>
      negb (bool_decide (length (c_branches cond) = 0%nat)) &&
      forallb (λ b, test_wf (b_test b) && (adjacent (b_body b) && forallb command_wf (b_body b))) (c_branches cond) &&
      match c_otherwise cond with None => true | Some cs => adjacent cs && forallb command_wf cs end
  end.

Definition script_wf (cs : list Command) : bool := adjacent cs && forallb command_wf cs.

(** The nesting: a test list, a [not] and a block are a level each. *)
Fixpoint test_depth (t : Test) : nat :=
  if is_test_list (t_name t) || is_not (t_name t) then S (max_list (map test_depth (t_children t))) else 0.

Fixpoint command_depth (c : Command) : nat :=
  match c with
  | Action _ _ => 0
  | If cond =>
      Nat.max
        (max_list (map (λ b, Nat.max (test_depth (b_test b)) (S (max_list (map command_depth (b_body b)))))
                       (c_branches cond)))
        match c_otherwise cond with None => 0 | Some cs => S (max_list (map command_depth cs)) end
  end.

Definition block_depth (cs : list Command) : nat := S (max_list (map command_depth cs)).

(** The tokens of the branches after the first. *)
Definition block_tokens (cs : list Command) : list Token :=
  TBraceOpen :: flat_map command_tokens cs ++ [TBraceClose].

Definition branch_tokens (b : Branch Command) : list Token :=
  test_tokens (b_test b) ++ block_tokens (b_body b).

Definition elsif_tokens (b : Branch Command) : list Token := TIdentifier (lit "elsif") :: branch_tokens b.

Definition else_tokens (o : option (list Command)) : list Token :=
  match o with None => [] | Some cs => TIdentifier (lit "else") :: block_tokens cs end.

Ltac app_norm := repeat progress (cbn [app]; rewrite <-?app_assoc).

Lemma command_tokens_if b bs o :
  command_tokens (If (mkConditional (b :: bs) o)) =
  TIdentifier (lit "if") :: branch_tokens b ++ flat_map elsif_tokens bs ++ else_tokens o.
Proof.
  cbn [command_tokens c_branches c_otherwise keyword app]. f_equal.
  match goal with |- context [?f false bs] => assert (f false bs = flat_map elsif_tokens bs) as -> end.
  - induction bs as [|b' bs IH]; [done|]. cbn [flat_map]. rewrite <-IH.
    unfold elsif_tokens, branch_tokens, block_tokens. cbn [keyword]. by app_norm.
  - unfold branch_tokens, block_tokens. by app_norm.
Qed.

(** ** What the parser accepts is of the grammar

    [wp m st Q]: with this state the parser answers, and if it accepts, its
    value and its state satisfy [Q]. *)

Definition wp {A} (m : parser A) (st : Parser) (Q : A → Parser → Prop) : Prop :=
  match m st with
  | None => False
  | Some (Err _, _) => True
  | Some (Ok a, st') => Q a st'
  end.

Lemma peek_Some st t : peek st = Some t → ∃ rest, p_rest st = t :: rest.
Proof. unfold peek. destruct (p_rest st); cbn; [done|]. intros [= ->]. eauto. Qed.

Lemma wp_bind {A B} (m : parser A) (k : A → parser B) st Q :
  wp m st (λ a st', wp (k a) st' Q) → wp (p_bind m k) st Q.
Proof. unfold wp, p_bind. by destruct (m st) as [[[a|e] st']|]. Qed.

Lemma wp_ret {A} (a : A) st (Q : A → Parser → Prop) : Q a st → wp (p_ret a) st Q.
Proof. done. Qed.

Lemma wp_next st (Q : Token → Parser → Prop) :
  (∀ t rest, p_rest st = t :: rest → Q t (mkParser rest (p_depth st))) → wp next st Q.
Proof. unfold wp, next. destruct (p_rest st); eauto. Qed.

Lemma wp_identifier st (Q : list Z → Parser → Prop) :
  (∀ name rest, p_rest st = TIdentifier name :: rest → Q name (mkParser rest (p_depth st))) → wp identifier st Q.
Proof. intros H. apply wp_bind, wp_next. intros t rest Hr. destruct t; try done. apply wp_ret. eauto. Qed.

Lemma wp_eat t what st (Q : unit → Parser → Prop) :
  (∀ rest, p_rest st = t :: rest → Q tt (mkParser rest (p_depth st))) → wp (eat t what) st Q.
Proof.
  intros H. unfold wp, eat, peek. case_bool_decide as E; [|done]. cbn.
  destruct (p_rest st) as [|t' rest]; [done|]. injection E as ->. by apply H.
Qed.

Lemma wp_advance st (Q : unit → Parser → Prop) :
  Q tt (mkParser (tail (p_rest st)) (p_depth st)) → wp advance st Q.
Proof. done. Qed.

Lemma wp_enter st (Q : nat → Parser → Prop) :
  ((S (p_depth st) ≤ MAX_NESTING_DEPTH)%nat → Q (S (p_depth st)) (mkParser (p_rest st) (S (p_depth st)))) →
  wp enter st Q.
Proof. intros H. unfold wp, enter. destruct (Nat.ltb_spec MAX_NESTING_DEPTH (S (p_depth st))); [done|]. by apply H. Qed.

Lemma wp_leave st (Q : unit → Parser → Prop) : Q tt (mkParser (p_rest st) (p_depth st - 1)) → wp leave st Q.
Proof. done. Qed.

Lemma commas_cons p ps : commas (p :: ps) = p ++ concat (map (cons TComma) ps).
Proof.
  revert p. induction ps as [|q ps IH]; intros p; [cbn; by rewrite app_nil_r|].
  change (commas (p :: q :: ps)) with (p ++ TComma :: commas (q :: ps)). by rewrite IH.
Qed.

Lemma unspelled_eq t t' : unspelled t = t' → (∀ v, t' ≠ TQuotedString v) → t = t'.
Proof. destruct t; cbn; intros <- H; try done. by edestruct H. Qed.

Lemma string_list_sound n : ∀ toks items r rest, (length toks ≤ n)%nat →
  string_list_loop toks items = (r, rest) →
  match r with
  | Err _ => True
  | Ok items' => ∃ used v vs, toks = used ++ rest ∧ items' = items ++ v :: vs ∧
      map unspelled used = commas (map (λ v, [TQuotedString v]) (v :: vs)) ++ [TBracketClose]
  end.
Proof.
  induction n as [|n IH]; intros [|t toks] items r rest Hn; cbn in Hn; try lia; try (intros [= <- <-]; done).
  cbn [string_list_loop].
  assert (Hstr : ∀ v, unspelled t = TQuotedString v →
    match toks with
    | [] => (Err UnexpectedEof, [])
    | TComma :: toks => string_list_loop toks (items ++ [v])
    | TBracketClose :: toks => (Ok (items ++ [v]), toks)
    | other :: toks => (Err (Unexpected other), toks)
    end = (r, rest) →
    match r with
    | Err _ => True
    | Ok items' => ∃ used v vs, t :: toks = used ++ rest ∧ items' = items ++ v :: vs ∧
        map unspelled used = commas (map (λ v, [TQuotedString v]) (v :: vs)) ++ [TBracketClose]
    end).
  { intros v Hv. destruct toks as [|[] toks]; try (intros [= <- <-]; done).
    - intros [= <- <-]. exists [t; TBracketClose], v, []. cbn. by rewrite Hv.
    - intros H. apply IH in H; [|cbn in Hn; lia]. destruct r as [items'|]; [|done].
      destruct H as (used & w & ws & -> & -> & Hu). exists (t :: TComma :: used), v, (w :: ws).
      split_and!; [done|by rewrite <-app_assoc|]. cbn [map]. rewrite Hv, Hu. cbn [map]. by rewrite !commas_cons. }
  destruct t; try (intros [= <- <-]; done); by apply Hstr.
Qed.

Definition begins_argument (t : Token) : bool :=
  match t with TTag _ | TNumber _ | TQuotedString _ | TMultiLine _ | TBracketOpen => true | _ => false end.

Definition ends_arguments (rest : list Token) : Prop :=
  match rest with [] => True | t :: _ => begins_argument t = false end.

Lemma wp_string_list st (Q : Argument → Parser → Prop) :
  (∀ a used rest, p_rest st = used ++ rest → map unspelled used = arg_tokens a → arg_wf a = true →
    used ≠ [] → Q a (mkParser rest (p_depth st))) →
  wp string_list st Q.
Proof.
  intros H. apply wp_bind, wp_eat. intros rest Hr. unfold wp. cbn [p_rest p_depth].
  destruct (string_list_loop rest []) as [[items|] rest'] eqn:Hl; cbn; [|done].
  apply (string_list_sound _ _ _ _ _ (le_n _)) in Hl as (used & v & vs & -> & -> & Hu).
  apply (H _ (TBracketOpen :: used)); [done| |done|done]. cbn [map arg_tokens]. by rewrite Hu.
Qed.

Lemma wp_arguments_loop fuel : ∀ args st (Q : list Argument → Parser → Prop),
  (length (p_rest st) < fuel)%nat →
  (∀ more used rest, p_rest st = used ++ rest → map unspelled used = args_tokens more →
    forallb arg_wf more = true → ends_arguments rest → Q (args ++ more) (mkParser rest (p_depth st))) →
  wp (arguments_loop fuel args) st Q.
Proof.
  induction fuel as [|fuel IH]; intros args st Q Hf HQ; [lia|].
  assert (Hnone : ends_arguments (p_rest st) → wp (p_ret args) st Q).
  { intros He. apply wp_ret. rewrite <-(app_nil_r args). destruct st. by apply (HQ [] [] _ eq_refl). }
  assert (Hone : ∀ a used rest, p_rest st = used ++ rest → map unspelled used = arg_tokens a → arg_wf a = true →
    used ≠ [] → wp (arguments_loop fuel (args ++ [a])) (mkParser rest (p_depth st)) Q).
  { intros a used rest Hr Hu Hwf Hne. apply IH.
    - cbn. rewrite Hr, length_app in Hf. destruct used; [done|]. cbn in Hf. lia.
    - cbn. intros more used' rest' -> Hu' Hwf' He. rewrite <-app_assoc.
      apply (HQ (a :: more) (used ++ used')); [by rewrite <-app_assoc| | |done].
      + by rewrite map_app, Hu, Hu'.
      + cbn. by rewrite Hwf, Hwf'. }
  unfold wp. cbn [arguments_loop]. unfold peek. destruct (p_rest st) as [|t rest] eqn:Hr; [by apply Hnone|].
  cbn [head]. destruct t; try (by apply Hnone);
    try (apply wp_bind, wp_advance; rewrite Hr; cbn [tail]; (eapply (Hone _ [_]); [done|done|done|done])).
  apply wp_bind, wp_string_list. intros a used rest' Hr'. by apply Hone; rewrite <-Hr.
Qed.

Lemma wp_arguments st (Q : list Argument → Parser → Prop) :
  (∀ args used rest, p_rest st = used ++ rest → map unspelled used = args_tokens args →
    forallb arg_wf args = true → ends_arguments rest → Q args (mkParser rest (p_depth st))) →
  wp arguments st Q.
Proof. intros H. unfold wp, arguments. apply wp_arguments_loop; [lia|done]. Qed.

(** What a parser of one piece of syntax promises: the tokens it takes are
    those of the piece, which is well formed and not too deep. *)
Definition takes {A} (m : parser A) (st : Parser) (tokens : A → list Token) (good : A → list Token → Prop) : Prop :=
  wp m st (λ a st', p_depth st' = p_depth st ∧ good a (p_rest st') ∧
    ∃ used, p_rest st = used ++ p_rest st' ∧ map unspelled used = tokens a).

Lemma wp_mono {A} (m : parser A) st (P Q : A → Parser → Prop) :
  wp m st P → (∀ a st', P a st' → Q a st') → wp m st Q.
Proof. unfold wp. destruct (m st) as [[[a|e] st']|]; auto. Qed.

Lemma wp_takes {A} (m : parser A) st tokens good (Q : A → Parser → Prop) :
  takes m st tokens good →
  (∀ a used rest, p_rest st = used ++ rest → map unspelled used = tokens a → good a rest →
    Q a (mkParser rest (p_depth st))) →
  wp m st Q.
Proof.
  intros Ht HQ. eapply wp_mono; [exact Ht|]. intros a [rest d] (Hd & Hg & used & Hr & Hu). cbn in *. subst d.
  by eapply HQ.
Qed.

Lemma unspelled_length used l : map unspelled used = l → length used = length l.
Proof. intros <-. by rewrite length_map. Qed.

Definition test_good (d : nat) (t : Test) (_ : list Token) : Prop :=
  test_wf t = true ∧ (d + test_depth t ≤ MAX_NESTING_DEPTH)%nat.

Definition tests_good (d : nat) (ts : list Test) (_ : list Token) : Prop :=
  forallb test_wf ts = true ∧ Forall (λ t, (d + test_depth t ≤ MAX_NESTING_DEPTH)%nat) ts.

Lemma Forall_max_list (l : list nat) d m : (d ≤ m)%nat → Forall (λ n, (d + n ≤ m)%nat) l → (d + max_list l ≤ m)%nat.
Proof. intros Hd. induction 1; cbn; lia. Qed.

Lemma test_tokens_nonempty t : (1 ≤ length (test_tokens t))%nat.
Proof. destruct t. cbn. lia. Qed.

(** The rest after a piece of syntax is shorter by the piece. *)
Ltac used_lengths :=
  repeat match goal with
  | H : map unspelled _ = _ |- _ => apply unspelled_length in H
  | H : p_rest _ = _ |- _ => apply (f_equal (@length Token)) in H
  end;
  repeat match goal with
  | H : context [test_tokens ?t] |- _ =>
      lazymatch goal with
      | _ : (1 ≤ length (test_tokens t))%nat |- _ => fail
      | _ => pose proof (test_tokens_nonempty t)
      end
  end;
  cbn [p_rest p_depth] in *; rewrite ?length_app in *; cbn [length] in *; lia.

Lemma tests_depth d ts :
  (S d ≤ MAX_NESTING_DEPTH)%nat → Forall (λ t, (S d + test_depth t ≤ MAX_NESTING_DEPTH)%nat) ts →
  (d + S (max_list (map test_depth ts)) ≤ MAX_NESTING_DEPTH)%nat.
Proof.
  intros Hd Hts. rewrite Nat.add_succ_r. apply (Forall_max_list _ (S d)); [done|]. by apply Forall_map.
Qed.

Lemma test_sound fuel :
  (∀ st, (p_depth st ≤ MAX_NESTING_DEPTH)%nat → (3 * length (p_rest st) + 1 ≤ fuel)%nat →
     takes (test fuel) st test_tokens (test_good (p_depth st))) ∧
  (∀ st, (3 * length (p_rest st) + 2 ≤ fuel)%nat →
     takes (test_list fuel) st (λ ts, commas (map test_tokens ts))
       (λ ts _, ts ≠ [] ∧ forallb test_wf ts = true ∧
          (p_depth st + S (max_list (map test_depth ts)) ≤ MAX_NESTING_DEPTH)%nat)) ∧
  (∀ st acc, (p_depth st ≤ MAX_NESTING_DEPTH)%nat → (3 * length (p_rest st) + 1 ≤ fuel)%nat →
     wp (more_tests fuel acc) st (λ ts st', ∃ more used, ts = acc ++ more ∧ p_depth st' = p_depth st ∧
       tests_good (p_depth st) more [] ∧ p_rest st = used ++ p_rest st' ∧
       map unspelled used = concat (map (cons TComma) (map test_tokens more)))).
Proof.
  induction fuel as [|fuel (IHt & IHl & IHm)]; [split_and!; intros; lia|]. split_and!.
  - intros st Hdep Hf. cbn [test]. apply wp_bind, wp_identifier. intros name rest Hr.
    fold (is_test_list name) (is_not name). destruct (is_test_list name) eqn:Hl; [|destruct (is_not name) eqn:Hn].
    + apply wp_bind, wp_eat. intros rest1 Hr1. apply wp_bind. eapply wp_takes; [apply IHl; used_lengths|].
      intros ts used rest2 Hr2 Hu (Hne & Hwf & Hd). apply wp_bind, wp_eat. intros rest3 Hr3. apply wp_ret.
      cbn in *. subst. split_and!; [done| |].
      * split; cbn; rewrite Hl; cbn; [|done]. rewrite Hwf. by destruct ts.
      * exists (TIdentifier name :: TParenOpen :: used ++ [TParenClose]). split; [rewrite Hr; by app_norm|].
        cbn. by rewrite map_app, Hu, Hl.
    + apply wp_bind, wp_enter. intros Hd. apply wp_bind. eapply wp_takes; [apply IHt; [done|used_lengths]|].
      intros t used rest1 Hr1 Hu (Hwf & Hdt). apply wp_bind, wp_leave, wp_ret. cbn in *. subst. split_and!; [lia| |].
      * split; cbn; rewrite Hl, Hn; cbn; [by rewrite Hwf|lia].
      * exists (TIdentifier name :: used). split; [by rewrite Hr|]. cbn. by rewrite Hu, Hl, Hn, app_nil_r.
    + apply wp_bind, wp_arguments. intros args used rest1 Hr1 Hu Hwf He. apply wp_ret. cbn in *. subst.
      split_and!; [done| |].
      * split; cbn; rewrite Hl, Hn; cbn; [done|unfold MAX_NESTING_DEPTH in *; lia].
      * exists (TIdentifier name :: used). split; [by rewrite Hr|]. cbn. by rewrite Hu, Hl, Hn.
  - intros st Hf. cbn [test_list]. apply wp_bind, wp_enter. intros Hd. apply wp_bind.
    eapply wp_takes; [apply IHt; [done|used_lengths]|]. intros t used rest Hr Hu (Hwf & Hdt). apply wp_bind.
    eapply wp_mono; [apply IHm; [done|used_lengths]|].
    intros ts st' (more & used' & -> & Hd' & (Hwf' & Hdts) & Hr' & Hu'). apply wp_bind, wp_leave, wp_ret.
    cbn in *. subst rest. split_and!; [lia|done|by rewrite Hwf, Hwf'| |].
    + apply (tests_depth _ (t :: more)); [done|]. by constructor.
    + exists (used ++ used'). split; [by rewrite Hr, app_assoc|]. rewrite map_app, Hu, Hu'.
      symmetry. apply commas_cons.
  - intros st acc Hdep Hf. unfold wp. cbn [more_tests]. case_bool_decide as E.
    + apply wp_bind, wp_advance, wp_bind. apply peek_Some in E as [rest Hr]. rewrite Hr. cbn [tail].
      eapply wp_takes; [apply IHt; [done|used_lengths]|]. intros t used rest1 Hr1 Hu (Hwf & Hdt).
      eapply wp_mono; [apply IHm; [done|used_lengths]|].
      intros ts st' (more & used' & -> & Hd' & (Hwf' & Hdts) & Hr' & Hu'). cbn in *. subst.
      exists (t :: more), (TComma :: used ++ used'). rewrite <-app_assoc. split_and!; try done.
      * split; [cbn; by rewrite Hwf, Hwf'|by constructor].
      * by app_norm.
      * cbn. by rewrite map_app, Hu, Hu'.
    + apply wp_ret. exists [], []. rewrite app_nil_r. by split_and!.
Qed.

Definition no_continue (rest : list Token) : Prop :=
  match rest with TIdentifier name :: _ => continues_if name = false | _ => True end.

Definition within (d depth : nat) : Prop := (d + depth ≤ MAX_NESTING_DEPTH)%nat.

Definition command_good (d : nat) (c : Command) (rest : list Token) : Prop :=
  command_wf c = true ∧ within d (command_depth c) ∧ (open_ended c = true → no_continue rest).

Definition body_good (d : nat) (cs : list Command) (_ : list Token) : Prop :=
  script_wf cs = true ∧ within d (block_depth cs).

Definition branch_wf (b : Branch Command) : bool := test_wf (b_test b) && script_wf (b_body b).
Definition branch_depth (b : Branch Command) : nat := Nat.max (test_depth (b_test b)) (block_depth (b_body b)).

Definition branch_good (d : nat) (b : Branch Command) (_ : list Token) : Prop :=
  branch_wf b = true ∧ within d (branch_depth b).

Definition cond_tokens (c : Conditional Command) : list Token := tail (command_tokens (If c)).

Definition commands_tokens (cs : list Command) : list Token := flat_map command_tokens cs.

Lemma command_tokens_cond c : command_tokens (If c) = TIdentifier (lit "if") :: cond_tokens c.
Proof. done. Qed.

(** The first token of a command tells whether it continues an [if]. *)
Lemma command_head c used rest :
  map unspelled used = command_tokens c → no_continue (used ++ rest) → continuing c = false.
Proof.
  destruct c as [name args|cond]; [|done]. cbn. destruct used as [|t used]; [done|]. cbn.
  intros [= Ht%unspelled_eq _]; [|done]. by subst.
Qed.

Lemma adjacent_cons c cs rest used :
  map unspelled used = commands_tokens cs → adjacent cs = true →
  (open_ended c = true → no_continue (used ++ rest)) → adjacent (c :: cs) = true.
Proof.
  intros Hu Hadj Hopen. destruct cs as [|c' cs]; [done|]. cbn [adjacent]. cbn [adjacent] in Hadj. rewrite Hadj.
  destruct (open_ended c); [|done]. cbn.
  apply map_eq_app in Hu as (u1 & u2 & -> & Hu1 & _). rewrite <-app_assoc in Hopen.
  by rewrite (command_head c' u1 (u2 ++ rest)) by auto.
Qed.

Lemma within_max_list d l : (d ≤ MAX_NESTING_DEPTH)%nat → Forall (within d) l → within d (max_list l).
Proof. apply Forall_max_list. Qed.

Lemma cond_good d b bs o rest :
  (d ≤ MAX_NESTING_DEPTH)%nat → Forall (λ b, branch_wf b = true ∧ within d (branch_depth b)) (b :: bs) →
  match o with
  | None => no_continue rest
  | Some cs => script_wf cs = true ∧ within d (block_depth cs)
  end →
  command_good d (If (mkConditional (b :: bs) o)) rest.
Proof.
  intros Hd Hbs Ho. unfold command_good.
  assert (Hwf : forallb branch_wf (b :: bs) = true).
  { apply forallb_Forall. eapply Forall_impl; [done|]. by intros ? []. }
  assert (Hdep : within d (max_list (map branch_depth (b :: bs)))).
  { apply within_max_list; [done|]. apply Forall_map. eapply Forall_impl; [done|]. by intros ? []. }
  split_and!.
  - change (forallb branch_wf (b :: bs) && match o with None => true | Some cs => script_wf cs end = true).
    rewrite Hwf. destruct o as [cs|]; [by destruct Ho|done].
  - change (within d (Nat.max (max_list (map branch_depth (b :: bs)))
      match o with None => 0 | Some cs => block_depth cs end)).
    unfold within in *. destruct o as [cs|]; [destruct Ho as [_ Ho]|]; lia.
  - cbn. by destruct o.
Qed.

Lemma command_tokens_nonempty c : (1 ≤ length (command_tokens c))%nat.
Proof. destruct c; cbn; lia. Qed.

Ltac lengths := repeat match goal with
  | H : context [command_tokens ?t] |- _ =>
      lazymatch goal with
      | _ : (1 ≤ length (command_tokens t))%nat |- _ => fail
      | _ => pose proof (command_tokens_nonempty t)
      end
  end;
  unfold branch_tokens, elsif_tokens, block_tokens in *; used_lengths.

(** The promise of each method, at some fuel. *)
Definition commands_ok (fuel : nat) : Prop := ∀ st b,
  (6 * length (p_rest st) + 3 ≤ fuel)%nat →
  takes (commands fuel b) st commands_tokens (body_good (p_depth st)).

Definition loop_ok (fuel : nat) : Prop := ∀ st b acc,
  (p_depth st ≤ MAX_NESTING_DEPTH)%nat → (6 * length (p_rest st) + 2 ≤ fuel)%nat →
  wp (commands_loop fuel b acc) st (λ cs st', ∃ more used, cs = acc ++ more ∧ p_depth st' = p_depth st ∧
    script_wf more = true ∧ Forall (λ c, within (p_depth st) (command_depth c)) more ∧
    p_rest st = used ++ p_rest st' ∧ map unspelled used = commands_tokens more).

Definition command_ok (fuel : nat) : Prop := ∀ st,
  (p_depth st ≤ MAX_NESTING_DEPTH)%nat → (6 * length (p_rest st) + 1 ≤ fuel)%nat →
  takes (command fuel) st command_tokens (command_good (p_depth st)).

Definition conditional_ok (fuel : nat) : Prop := ∀ st,
  (p_depth st ≤ MAX_NESTING_DEPTH)%nat → (6 * length (p_rest st) + 3 ≤ fuel)%nat →
  takes (conditional fuel) st cond_tokens (λ c, command_good (p_depth st) (If c)).

Definition more_branches_ok (fuel : nat) : Prop := ∀ st acc,
  (p_depth st ≤ MAX_NESTING_DEPTH)%nat → (6 * length (p_rest st) + 1 ≤ fuel)%nat →
  wp (more_branches fuel acc) st (λ bs st', ∃ more used, bs = acc ++ more ∧ p_depth st' = p_depth st ∧
    Forall (λ b, branch_wf b = true ∧ within (p_depth st) (branch_depth b)) more ∧
    peek st' ≠ Some (TIdentifier (lit "elsif")) ∧
    p_rest st = used ++ p_rest st' ∧ map unspelled used = flat_map elsif_tokens more).

Definition branch_ok (fuel : nat) : Prop := ∀ st,
  (p_depth st ≤ MAX_NESTING_DEPTH)%nat → (6 * length (p_rest st) + 2 ≤ fuel)%nat →
  takes (branch fuel) st branch_tokens (branch_good (p_depth st)).

Definition block_ok (fuel : nat) : Prop := ∀ st,
  (6 * length (p_rest st) + 1 ≤ fuel)%nat →
  takes (block fuel) st block_tokens (body_good (p_depth st)).

Lemma commands_step fuel : loop_ok fuel → commands_ok (S fuel).
Proof.
  intros IHloop st b Hf. cbn [commands]. apply wp_bind, wp_enter. intros Hd. apply wp_bind.
  eapply wp_mono; [apply IHloop; [done|lengths]|].
  intros cs st' (more & used & -> & Hd' & Hwf & Hdep & Hr & Hu). apply wp_bind, wp_leave, wp_ret.
  cbn [p_rest p_depth app] in *. split_and!; [lia| |by exists used]. split; [done|].
  unfold within, block_depth. rewrite Nat.add_succ_r. apply (within_max_list (S (p_depth st))); [done|].
  by apply Forall_map.
Qed.

Lemma loop_step fuel : command_ok fuel → loop_ok fuel → loop_ok (S fuel).
Proof.
  intros IHc IHloop st b acc Hd Hf. unfold wp. cbn [commands_loop].
  assert (Hend : wp (p_ret acc) st (λ cs st', ∃ more used, cs = acc ++ more ∧ p_depth st' = p_depth st ∧
     script_wf more = true ∧ Forall (λ c, within (p_depth st) (command_depth c)) more ∧
     p_rest st = used ++ p_rest st' ∧ map unspelled used = commands_tokens more)).
  { apply wp_ret. exists [], []. rewrite app_nil_r. by split_and!. }
  destruct (peek st) as [t|] eqn:Hp; [|exact Hend]. destruct (b && _); [exact Hend|].
  apply peek_Some in Hp as [rest Hr]. apply wp_bind. eapply wp_takes; [apply IHc; [done|lengths]|].
  intros c used rest1 Hr1 Hu (Hwf & Hdep & Hopen). eapply wp_mono; [apply IHloop; [done|lengths]|].
  intros cs st' (more & used' & -> & Hd' & Hwf' & Hdep' & Hr' & Hu'). cbn [p_rest p_depth] in *. subst rest1.
  exists (c :: more), (used ++ used'). rewrite <-!app_assoc. split_and!; try done.
  - apply andb_true_iff in Hwf' as [Hadj Hall]. apply andb_true_iff. split.
    + by eapply adjacent_cons.
    + cbn. by rewrite Hwf, Hall.
  - by constructor.
  - by rewrite map_app, Hu, Hu'.
Qed.

Lemma command_step fuel : conditional_ok fuel → command_ok (S fuel).
Proof.
  intros IHif st Hd Hf. cbn [command]. apply wp_bind, wp_identifier. intros name rest Hr.
  destruct (str_eqb name (lit "if")) eqn:Hn.
  - apply str_eqb_eq in Hn as ->. apply wp_bind. eapply wp_takes; [apply IHif; [done|lengths]|].
    intros c used rest1 Hr1 Hu Hg. apply wp_ret. cbn [p_rest p_depth] in *. subst rest.
    split_and!; [done|done|]. exists (TIdentifier (lit "if") :: used). split; [done|].
    by rewrite command_tokens_cond, <-Hu.
  - apply wp_bind, wp_arguments. intros args used rest1 Hr1 Hu Hwf _. apply wp_bind, wp_eat. intros rest2 Hr2.
    apply wp_ret. cbn [p_rest p_depth] in *. subst. split_and!; [done| |].
    + split_and!; [cbn; by rewrite Hn|unfold within; cbn [command_depth]; lia|done].
    + exists (TIdentifier name :: used ++ [TSemicolon]). split; [rewrite Hr; by app_norm|].
      cbn. by rewrite map_app, Hu.
Qed.

Lemma conditional_step fuel : branch_ok fuel → more_branches_ok fuel → block_ok fuel → conditional_ok (S fuel).
Proof.
  intros IHb IHmore IHblk st Hd Hf. cbn [conditional]. apply wp_bind.
  eapply wp_takes; [apply IHb; [done|lengths]|]. intros b used rest Hr Hu Hg. apply wp_bind.
  eapply wp_mono; [apply IHmore; [done|lengths]|].
  intros bs st1 (more & used1 & -> & Hd1 & Hbs & Hp & Hr1 & Hu1). cbn [p_rest p_depth] in *. subst rest.
  change ([b] ++ more) with (b :: more). unfold wp. case_bool_decide as E.
  - apply peek_Some in E as [rest Hr2]. apply wp_bind, wp_advance, wp_bind. rewrite Hr2. cbn [tail].
    eapply wp_takes; [apply IHblk; lengths|]. intros body used2 rest2 Hr3 Hu2 Hgb. apply wp_ret.
    cbn [p_rest p_depth] in *. subst rest. rewrite Hd1 in Hgb. split_and!; [done| |].
    + apply cond_good; [done|by constructor|done].
    + exists (used ++ used1 ++ TIdentifier (lit "else") :: used2). split; [rewrite Hr, Hr2; by app_norm|].
      unfold cond_tokens. rewrite command_tokens_if. cbn [tail else_tokens]. by rewrite !map_app, Hu, Hu1, <-Hu2.
  - apply wp_ret. cbn [p_rest p_depth] in *. split_and!; [done| |].
    + apply cond_good; [done|by constructor|]. unfold peek in *. destruct (p_rest st1) as [|[] r]; try done.
      cbn in *. unfold continues_if. rewrite !str_eqb_neq; [done| |]; intros ->; done.
    + exists (used ++ used1). split; [by rewrite Hr, app_assoc|].
      unfold cond_tokens. rewrite command_tokens_if. cbn [tail else_tokens]. by rewrite map_app, app_nil_r, Hu, Hu1.
Qed.

Lemma more_branches_step fuel : branch_ok fuel → more_branches_ok fuel → more_branches_ok (S fuel).
Proof.
  intros IHb IHmore st acc Hd Hf. unfold wp. cbn [more_branches]. case_bool_decide as E.
  - apply peek_Some in E as [rest Hr]. apply wp_bind, wp_advance, wp_bind. rewrite Hr. cbn [tail].
    eapply wp_takes; [apply IHb; [done|lengths]|]. intros b used rest1 Hr1 Hu Hg.
    eapply wp_mono; [apply IHmore; [done|lengths]|].
    intros bs st1 (more & used1 & -> & Hd1 & Hbs & Hp & Hr2 & Hu1). cbn [p_rest p_depth] in *. subst.
    exists (b :: more), (TIdentifier (lit "elsif") :: used ++ used1). rewrite <-app_assoc. split_and!; try done.
    + by constructor.
    + by app_norm.
    + cbn [map flat_map]. by rewrite map_app, Hu, Hu1.
  - apply wp_ret. exists [], []. rewrite app_nil_r. by split_and!.
Qed.

Lemma branch_step fuel : block_ok fuel → branch_ok (S fuel).
Proof.
  intros IHblk st Hd Hf. cbn [branch]. apply wp_bind.
  eapply wp_takes; [apply test_sound; [done|lengths]|]. intros t used rest Hr Hu [Hwf Hdt]. apply wp_bind.
  eapply wp_takes; [apply IHblk; lengths|]. intros body used1 rest1 Hr1 Hu1 [Hwfb Hdb]. apply wp_ret.
  cbn [p_rest p_depth] in *. subst. split_and!; [done| |].
  - split; [unfold branch_wf; cbn [b_test b_body]; by rewrite Hwf, Hwfb|].
    unfold within, branch_depth in *. cbn [b_test b_body]. lia.
  - exists (used ++ used1). split; [by rewrite Hr, app_assoc|]. by rewrite map_app, Hu, Hu1.
Qed.

Lemma block_step fuel : commands_ok fuel → block_ok (S fuel).
Proof.
  intros IHcs st Hf. cbn [block]. apply wp_bind, wp_eat. intros rest Hr. apply wp_bind.
  eapply wp_takes; [apply IHcs; lengths|]. intros body used rest1 Hr1 Hu Hg. apply wp_bind, wp_eat. intros rest2 Hr2.
  apply wp_ret. cbn [p_rest p_depth] in *. subst. split_and!; [done|done|].
  exists (TBraceOpen :: used ++ [TBraceClose]). split; [rewrite Hr; by app_norm|].
  cbn [map]. by rewrite map_app, Hu.
Qed.

Lemma commands_sound fuel :
  commands_ok fuel ∧ loop_ok fuel ∧ command_ok fuel ∧ conditional_ok fuel ∧ more_branches_ok fuel ∧
  branch_ok fuel ∧ block_ok fuel.
Proof.
  induction fuel as [|fuel (? & ? & ? & ? & ? & ? & ?)]; [split_and!; intros ?; intros; lia|].
  split_and!; eauto using commands_step, loop_step, command_step, conditional_step, more_branches_step,
    branch_step, block_step.
Qed.

(** ** What is of the grammar is accepted *)

Lemma bind_ok {A B} (m : parser A) (k : A → parser B) st a st' :
  m st = Some (Ok a, st') → p_bind m k st = k a st'.
Proof. unfold p_bind. by intros ->. Qed.

Lemma identifier_ok name rest d :
  identifier (mkParser (TIdentifier name :: rest) d) = Some (Ok name, mkParser rest d).
Proof. done. Qed.

Lemma eat_ok t what rest d : eat t what (mkParser (t :: rest) d) = Some (Ok tt, mkParser rest d).
Proof. unfold eat. by rewrite bool_decide_eq_true_2. Qed.

Lemma enter_ok rest d :
  (S d ≤ MAX_NESTING_DEPTH)%nat → enter (mkParser rest d) = Some (Ok (S d), mkParser rest (S d)).
Proof. intros H. unfold enter. cbn [p_rest p_depth]. by rewrite (proj2 (Nat.ltb_ge _ _) H). Qed.

Lemma leave_ok rest d : leave (mkParser rest (S d)) = Some (Ok tt, mkParser rest d).
Proof. unfold leave. cbn [p_rest p_depth]. by rewrite Nat.sub_succ, Nat.sub_0_r. Qed.

(** The spelling of a token that is no string is the token. *)
Lemma unspelled_cons used t l :
  map unspelled used = t :: l → (∀ v, t ≠ TQuotedString v) → ∃ used', used = t :: used' ∧ map unspelled used' = l.
Proof.
  destruct used as [|t' used]; [done|]. cbn. intros [= Ht <-] Hne. apply unspelled_eq in Ht as ->; eauto.
Qed.

Lemma unspelled_app used a b :
  map unspelled used = a ++ b → ∃ u v, used = u ++ v ∧ map unspelled u = a ∧ map unspelled v = b.
Proof. intros H. apply map_eq_app in H as (u & v & -> & <- & <-). eauto. Qed.

Lemma string_list_complete v vs : ∀ used items rest,
  map unspelled used = commas (map (λ v, [TQuotedString v]) (v :: vs)) ++ [TBracketClose] →
  string_list_loop (used ++ rest) items = (Ok (items ++ v :: vs), rest).
Proof.
  revert v. induction vs as [|w vs IH]; intros v used items rest Hu.
  - destruct used as [|t used]; [done|]. cbn in Hu. injection Hu as Ht Hu.
    apply unspelled_cons in Hu as (used' & -> & Hn); [|done]. apply map_eq_nil in Hn as ->.
    destruct t; try done; injection Ht as ->; done.
  - cbn [map] in Hu. rewrite commas_cons in Hu. cbn [map concat app] in Hu.
    destruct used as [|t used]; [done|]. cbn in Hu. injection Hu as Ht Hu.
    apply unspelled_cons in Hu as (used' & -> & Hn); [|done].
    assert (Hrec : string_list_loop (used' ++ rest) (items ++ [v]) = (Ok ((items ++ [v]) ++ w :: vs), rest)).
    { apply IH. rewrite Hn. cbn [map]. by rewrite commas_cons. }
    rewrite <-app_assoc in Hrec. destruct t; try done; injection Ht as ->; exact Hrec.
Qed.

Lemma arguments_loop_complete fuel : ∀ args more used rest d,
  (length (used ++ rest) < fuel)%nat → map unspelled used = args_tokens more → forallb arg_wf more = true →
  ends_arguments rest →
  arguments_loop fuel args (mkParser (used ++ rest) d) = Some (Ok (args ++ more), mkParser rest d).
Proof.
  induction fuel as [|fuel IH]; intros args more used rest d Hf Hu Hwf He; [lia|].
  destruct more as [|a more].
  { apply map_eq_nil in Hu as ->. rewrite app_nil_r. cbn [app arguments_loop peek p_rest].
    destruct rest as [|t rest]; [done|]. by destruct t. }
  apply andb_true_iff in Hwf as [Ha Hwf]. change (arg_wf a = true) in Ha. change (forallb arg_wf more = true) in Hwf.
  apply unspelled_app in Hu as (u & v & -> & Hu & Hv). rewrite <-app_assoc in Hf |- *.
  assert (Hrec : (length (v ++ rest) < fuel)%nat →
    arguments_loop fuel (args ++ [a]) (mkParser (v ++ rest) d) = Some (Ok (args ++ a :: more), mkParser rest d)).
  { intros Hlt. rewrite (IH _ more) by done. by rewrite <-app_assoc. }
  destruct a as [s|items|n|n]; cbn [arg_tokens] in Hu.
  - destruct u as [|t [|]]; try done. injection Hu as Ht. cbn in Hf.
    destruct t; try done; injection Ht as ->; apply Hrec; lia.
  - apply unspelled_cons in Hu as (u' & -> & Hu); [|done]. destruct items as [|i items]; [done|].
    cbn [arguments_loop app peek p_rest head]. cbn in Hf. rewrite length_app in Hf.
    erewrite bind_ok; [apply Hrec; lia|]. unfold string_list. erewrite bind_ok by apply eat_ok.
    cbn [p_rest p_depth]. by rewrite (string_list_complete _ _ _ _ _ Hu).
  - apply unspelled_cons in Hu as (u' & -> & ->%map_eq_nil); [|done]. cbn in Hf. apply Hrec. lia.
  - apply unspelled_cons in Hu as (u' & -> & ->%map_eq_nil); [|done]. cbn in Hf. apply Hrec. lia.
Qed.

Lemma arguments_complete args used rest d :
  map unspelled used = args_tokens args → forallb arg_wf args = true → ends_arguments rest →
  arguments (mkParser (used ++ rest) d) = Some (Ok args, mkParser rest d).
Proof. intros. unfold arguments. by rewrite (arguments_loop_complete _ [] args) by (done || cbn; lia). Qed.

Definition test_gives (fuel : nat) : Prop := ∀ t used rest d,
  (3 * length used + 1 ≤ fuel)%nat → map unspelled used = test_tokens t →
  test_wf t = true → within d (test_depth t) → ends_arguments rest →
  test fuel (mkParser (used ++ rest) d) = Some (Ok t, mkParser rest d).

Definition more_tests_gives (fuel : nat) : Prop := ∀ ts acc used rest d,
  (3 * length used + 1 ≤ fuel)%nat → map unspelled used = concat (map (cons TComma) (map test_tokens ts)) →
  forallb test_wf ts = true → Forall (λ t, within d (test_depth t)) ts → ends_arguments rest →
  head rest ≠ Some TComma →
  more_tests fuel acc (mkParser (used ++ rest) d) = Some (Ok (acc ++ ts), mkParser rest d).

Definition test_list_gives (fuel : nat) : Prop := ∀ ts used rest d,
  (3 * length used + 2 ≤ fuel)%nat → map unspelled used = commas (map test_tokens ts) → ts ≠ [] →
  forallb test_wf ts = true → within d (S (max_list (map test_depth ts))) → ends_arguments rest →
  head rest ≠ Some TComma →
  test_list fuel (mkParser (used ++ rest) d) = Some (Ok ts, mkParser rest d).

Lemma within_list d (A : Type) (f : A → nat) l :
  within d (S (max_list (map f l))) → (S d ≤ MAX_NESTING_DEPTH)%nat ∧ Forall (λ a, within (S d) (f a)) l.
Proof.
  unfold within. intros H. split; [lia|]. induction l as [|a l IH]; cbn in *; constructor; [lia|]. apply IH. lia.
Qed.

(** Pieces of a comma list: what follows one ends its arguments. *)
Lemma ends_arguments_commas used ts rest :
  map unspelled used = concat (map (cons TComma) (map test_tokens ts)) → ends_arguments rest →
  ends_arguments (used ++ rest).
Proof.
  destruct ts as [|t ts]; cbn; [by intros ->%map_eq_nil|].
  intros Hu _. apply unspelled_cons in Hu as (u & -> & _); done.
Qed.

Lemma max_list_within d l : within d (max_list l) → Forall (within d) l.
Proof. unfold within. induction l; cbn; constructor; [lia|apply IHl; lia]. Qed.

Lemma more_tests_complete fuel : test_gives fuel → more_tests_gives fuel → more_tests_gives (S fuel).
Proof.
  intros IHt IHm [|t ts] acc used rest d Hf Hu Hwf Hd He Hc; cbn [map concat] in Hu; cbn [more_tests].
  - apply map_eq_nil in Hu as ->. rewrite app_nil_r. by rewrite bool_decide_eq_false_2.
  - apply unspelled_cons in Hu as (u & -> & Hu); [|done]. apply unspelled_app in Hu as (u1 & u2 & -> & Hu1 & Hu2).
    apply andb_true_iff in Hwf as [Hwt Hwf]. apply Forall_cons in Hd as [Hdt Hd].
    cbn [length] in Hf. rewrite length_app in Hf. rewrite bool_decide_eq_true_2 by done. cbn [app].
    erewrite bind_ok by done. cbn [tail p_rest p_depth]. rewrite <-app_assoc.
    erewrite bind_ok by (apply (IHt t); [lia|done|done|done|by eapply ends_arguments_commas]).
    rewrite (IHm ts) by (done || lia). by rewrite <-app_assoc.
Qed.

Lemma test_list_complete fuel : test_gives fuel → more_tests_gives fuel → test_list_gives (S fuel).
Proof.
  intros IHt IHm [|t ts] used rest d Hf Hu Hne Hwf Hd He Hc; [done|]. cbn [map] in Hu. rewrite commas_cons in Hu.
  apply unspelled_app in Hu as (u1 & u2 & -> & Hu1 & Hu2). rewrite length_app in Hf.
  apply andb_true_iff in Hwf as [Hwt Hwf]. apply within_list in Hd as [Hsd [Hdt Hd]%Forall_cons].
  cbn [test_list]. erewrite bind_ok by (by apply enter_ok). rewrite <-app_assoc.
  erewrite bind_ok by (apply (IHt t); [lia|done|done|done|by eapply ends_arguments_commas]).
  erewrite bind_ok by (apply (IHm ts); done || lia). by erewrite bind_ok by apply leave_ok.
Qed.

Lemma test_one_complete fuel : test_gives fuel → test_list_gives fuel → test_gives (S fuel).
Proof.
  intros IHt IHl [name args children] used rest d Hf Hu Hwf Hd He.
  cbn [test_tokens t_name t_children t_args] in Hu. cbn [test_wf t_name t_children t_args] in Hwf.
  cbn [test_depth t_name t_children] in Hd.
  apply unspelled_cons in Hu as (u & -> & Hu); [|done]. cbn [length] in Hf. cbn [test app].
  erewrite bind_ok by apply identifier_ok. fold (is_test_list name) (is_not name).
  destruct (is_test_list name) eqn:Hl; [|destruct (is_not name) eqn:Hn].
  - apply unspelled_cons in Hu as (u' & -> & Hu); [|done]. apply unspelled_app in Hu as (u1 & u2 & -> & Hu1 & Hu2).
    apply unspelled_cons in Hu2 as (u3 & -> & ->%map_eq_nil); [|done].
    rewrite !andb_true_iff, negb_true_iff, bool_decide_eq_true, bool_decide_eq_false in Hwf.
    destruct Hwf as [[-> Hne] Hwf]. cbn [app length] in *. rewrite length_app in Hf. rewrite <-app_assoc.
    erewrite bind_ok by apply eat_ok.
    erewrite bind_ok by (apply (IHl children); [lia|done|by intros ->|done|done|done|done]).
    by erewrite bind_ok by apply eat_ok.
  - rewrite !andb_true_iff, !bool_decide_eq_true in Hwf. destruct Hwf as [[-> Hlen] Hwf].
    destruct children as [|c [|]]; try done. cbn [flat_map] in Hu. rewrite app_nil_r in Hu.
    apply (within_list d _ test_depth [c]) in Hd as [Hsd Hd]. rewrite Forall_singleton in Hd.
    cbn in Hwf. rewrite andb_true_r in Hwf.
    erewrite bind_ok by (by apply enter_ok).
    erewrite bind_ok by (apply (IHt c); done || lia).
    by erewrite bind_ok by apply leave_ok.
  - rewrite !andb_true_iff, !bool_decide_eq_true in Hwf. destruct Hwf as [Hlen%nil_length_inv Hwf]. subst.
    by erewrite bind_ok by (by eapply arguments_complete).
Qed.

Lemma test_complete fuel : test_gives fuel ∧ test_list_gives fuel ∧ more_tests_gives fuel.
Proof.
  induction fuel as [|fuel (? & ? & ?)]; [split_and!; intros ?; intros; lia|].
  split_and!; eauto using test_one_complete, test_list_complete, more_tests_complete.
Qed.

Definition closes (in_block : bool) (rest : list Token) : Prop :=
  rest = [] ∨ in_block = true ∧ head rest = Some TBraceClose.

Definition loop_gives (fuel : nat) : Prop := ∀ more b acc used rest d,
  (6 * length used + 2 ≤ fuel)%nat → map unspelled used = commands_tokens more → script_wf more = true →
  Forall (λ c, within d (command_depth c)) more → closes b rest →
  commands_loop fuel b acc (mkParser (used ++ rest) d) = Some (Ok (acc ++ more), mkParser rest d).

Definition commands_gives (fuel : nat) : Prop := ∀ cs b used rest d,
  (6 * length used + 3 ≤ fuel)%nat → map unspelled used = commands_tokens cs → script_wf cs = true →
  within d (block_depth cs) → closes b rest →
  commands fuel b (mkParser (used ++ rest) d) = Some (Ok cs, mkParser rest d).

Definition command_gives (fuel : nat) : Prop := ∀ c used rest d,
  (6 * length used + 1 ≤ fuel)%nat → map unspelled used = command_tokens c → command_wf c = true →
  within d (command_depth c) → (open_ended c = true → no_continue rest) →
  command fuel (mkParser (used ++ rest) d) = Some (Ok c, mkParser rest d).

Definition conditional_gives (fuel : nat) : Prop := ∀ c used rest d,
  (6 * length used + 3 ≤ fuel)%nat → map unspelled used = cond_tokens c → command_wf (If c) = true →
  within d (command_depth (If c)) → (open_ended (If c) = true → no_continue rest) →
  conditional fuel (mkParser (used ++ rest) d) = Some (Ok c, mkParser rest d).

Definition more_branches_gives (fuel : nat) : Prop := ∀ bs acc used rest d,
  (6 * length used + 1 ≤ fuel)%nat → map unspelled used = flat_map elsif_tokens bs →
  forallb branch_wf bs = true → Forall (λ b, within d (branch_depth b)) bs →
  head rest ≠ Some (TIdentifier (lit "elsif")) →
  more_branches fuel acc (mkParser (used ++ rest) d) = Some (Ok (acc ++ bs), mkParser rest d).

Definition branch_gives (fuel : nat) : Prop := ∀ b used rest d,
  (6 * length used + 2 ≤ fuel)%nat → map unspelled used = branch_tokens b →
  branch_wf b = true → within d (branch_depth b) →
  branch fuel (mkParser (used ++ rest) d) = Some (Ok b, mkParser rest d).

Definition block_gives (fuel : nat) : Prop := ∀ cs used rest d,
  (6 * length used + 1 ≤ fuel)%nat → map unspelled used = block_tokens cs → script_wf cs = true →
  within d (block_depth cs) →
  block fuel (mkParser (used ++ rest) d) = Some (Ok cs, mkParser rest d).

Lemma commands_complete fuel : loop_gives fuel → commands_gives (S fuel).
Proof.
  intros IHloop cs b used rest d Hf Hu Hwf Hd Hc. cbn [commands].
  apply within_list in Hd as [Hsd Hd]. erewrite bind_ok by (by apply enter_ok).
  erewrite bind_ok by (apply (IHloop cs); done || lia). by erewrite bind_ok by apply leave_ok.
Qed.

(** What follows a command does not continue it. *)
Lemma script_no_continue c more used b rest :
  adjacent (c :: more) = true → map unspelled used = commands_tokens more → closes b rest →
  open_ended c = true → no_continue (used ++ rest).
Proof.
  intros Hadj Hu Hc Ho. destruct more as [|c' more].
  - apply map_eq_nil in Hu as ->. destruct Hc as [->|[_ Hh]]; [done|]. destruct rest as [|t rest]; [done|].
    by injection Hh as ->.
  - cbn [adjacent] in Hadj. apply andb_true_iff in Hadj as [Hadj _]. rewrite Ho in Hadj. cbn in Hadj.
    apply negb_true_iff in Hadj. cbn in Hu. destruct c' as [name args|cond].
    + by apply unspelled_cons in Hu as (u & -> & _).
    + rewrite command_tokens_cond in Hu. by apply unspelled_cons in Hu as (u & -> & _).
Qed.

Lemma loop_complete fuel : command_gives fuel → loop_gives fuel → loop_gives (S fuel).
Proof.
  intros IHc IHloop [|c more] b acc used rest d Hf Hu Hwf Hd Hc; cbn [commands_loop].
  - apply map_eq_nil in Hu as ->. rewrite app_nil_r. destruct Hc as [->|[-> Hh]]; [done|].
    cbn [app]. unfold peek. cbn [p_rest]. rewrite Hh. by rewrite bool_decide_eq_true_2.
  - apply unspelled_app in Hu as (u1 & u2 & -> & Hu1 & Hu2). rewrite length_app in Hf.
    apply andb_true_iff in Hwf as [Hadj [Hwc Hwf]%andb_true_iff]. apply Forall_cons in Hd as [Hdc Hd].
    assert (Hlen : (1 ≤ length u1)%nat) by (apply unspelled_length in Hu1 as ->; apply command_tokens_nonempty).
    assert (Hid : ∃ name u, u1 = TIdentifier name :: u).
    { destruct c; rewrite ?command_tokens_cond in Hu1; apply unspelled_cons in Hu1 as (u & -> & _); eauto. }
    rewrite <-app_assoc. unfold peek. cbn [p_rest].
    destruct Hid as (name & u & Hid). rewrite Hid at 1. cbn [app head]. rewrite andb_false_r.
    erewrite bind_ok by (apply (IHc c); [lia|done|done|done|by eapply script_no_continue]).
    rewrite (IHloop more); [by rewrite <-app_assoc|lia|done| |done|done].
    apply andb_true_iff. split; [|exact Hwf]. destruct more; [done|].
    by apply andb_true_iff in Hadj as [_ Hadj].
Qed.

Lemma command_complete fuel : conditional_gives fuel → command_gives (S fuel).
Proof.
  intros IHif [name args|cond] used rest d Hf Hu Hwf Hd Ho; cbn [command].
  - cbn in Hu. apply unspelled_cons in Hu as (u & -> & Hu); [|done].
    apply unspelled_app in Hu as (u1 & u2 & -> & Hu1 & Hu2).
    apply unspelled_cons in Hu2 as (u3 & -> & ->%map_eq_nil); [|done].
    apply andb_true_iff in Hwf as [Hn%negb_true_iff Hwf]. cbn [app]. erewrite bind_ok by apply identifier_ok.
    rewrite Hn, <-app_assoc. erewrite bind_ok by (by eapply arguments_complete). by erewrite bind_ok by apply eat_ok.
  - rewrite command_tokens_cond in Hu. apply unspelled_cons in Hu as (u & -> & Hu); [|done]. cbn [length] in Hf.
    cbn [app]. erewrite bind_ok by apply identifier_ok. rewrite str_eqb_refl.
    by erewrite bind_ok by (apply (IHif cond); done || lia).
Qed.

Lemma more_branches_complete fuel : branch_gives fuel → more_branches_gives fuel → more_branches_gives (S fuel).
Proof.
  intros IHb IHm [|b bs] acc used rest d Hf Hu Hwf Hd Hh; cbn [more_branches].
  - apply map_eq_nil in Hu as ->. rewrite app_nil_r. by rewrite bool_decide_eq_false_2.
  - cbn [flat_map] in Hu. unfold elsif_tokens at 1 in Hu. apply unspelled_cons in Hu as (u & -> & Hu); [|done].
    apply unspelled_app in Hu as (u1 & u2 & -> & Hu1 & Hu2). cbn [length] in Hf. rewrite length_app in Hf.
    apply andb_true_iff in Hwf as [Hwb Hwf]. apply Forall_cons in Hd as [Hdb Hd].
    rewrite bool_decide_eq_true_2 by done. cbn [app]. erewrite bind_ok by done. cbn [tail p_rest p_depth].
    rewrite <-app_assoc. erewrite bind_ok by (apply (IHb b); done || lia).
    rewrite (IHm bs) by (done || lia). by rewrite <-app_assoc.
Qed.

Lemma branch_complete fuel : block_gives fuel → branch_gives (S fuel).
Proof.
  intros IHblk [t body] used rest d Hf Hu Hwf Hd. cbn [branch]. unfold branch_tokens in Hu. cbn [b_test b_body] in Hu.
  apply unspelled_app in Hu as (u1 & u2 & -> & Hu1 & Hu2). rewrite length_app in Hf.
  apply andb_true_iff in Hwf as [Hwt Hwb]. unfold within, branch_depth in Hd. cbn [b_test b_body] in *.
  rewrite <-app_assoc.
  assert (He : ends_arguments (u2 ++ rest)) by (by apply unspelled_cons in Hu2 as (u & -> & _)).
  assert (Hdt : within d (test_depth t)) by (unfold within; lia).
  assert (Hdb : within d (block_depth body)) by (unfold within; lia).
  erewrite bind_ok by (apply test_complete; done || lia).
  by erewrite bind_ok by (apply (IHblk body); done || lia).
Qed.

Lemma block_complete fuel : commands_gives fuel → block_gives (S fuel).
Proof.
  intros IHcs cs used rest d Hf Hu Hwf Hd. cbn [block]. unfold block_tokens in Hu.
  apply unspelled_cons in Hu as (u & -> & Hu); [|done]. apply unspelled_app in Hu as (u1 & u2 & -> & Hu1 & Hu2).
  apply unspelled_cons in Hu2 as (u3 & -> & ->%map_eq_nil); [|done]. cbn [length] in Hf. rewrite length_app in Hf.
  cbn [app]. erewrite bind_ok by apply eat_ok. rewrite <-app_assoc.
  erewrite bind_ok by (apply (IHcs cs); [lia|done|done|done|by right]). by erewrite bind_ok by apply eat_ok.
Qed.

Lemma conditional_complete fuel :
  branch_gives fuel → more_branches_gives fuel → block_gives fuel → conditional_gives (S fuel).
Proof.
  intros IHb IHm IHblk [[|b bs] o] used rest d Hf Hu Hwf Hd Ho; [done|].
  unfold cond_tokens in Hu. rewrite command_tokens_if in Hu. cbn [tail] in Hu.
  change (forallb branch_wf (b :: bs) && match o with None => true | Some cs => script_wf cs end = true) in Hwf.
  change (within d (Nat.max (max_list (map branch_depth (b :: bs)))
      match o with None => 0 | Some cs => block_depth cs end)) in Hd.
  apply andb_true_iff in Hwf as [[Hwb Hwbs]%andb_true_iff Hwo].
  apply unspelled_app in Hu as (u1 & u2 & -> & Hu1 & Hu2). apply unspelled_app in Hu2 as (u2' & u3 & -> & Hu2 & Hu3).
  rewrite !length_app in Hf. rewrite <-!app_assoc. cbn [conditional].
  assert (Hdb : Forall (λ b, within d (branch_depth b)) (b :: bs)).
  { apply (Forall_map branch_depth), (max_list_within d (map branch_depth (b :: bs))). unfold within in *. lia. }
  apply Forall_cons in Hdb as [Hdb Hdbs].
  erewrite bind_ok by (apply (IHb b); done || lia).
  assert (Hh : head (u3 ++ rest) ≠ Some (TIdentifier (lit "elsif"))).
  { destruct o as [cs|]; [by apply unspelled_cons in Hu3 as (u & -> & _)|].
    apply map_eq_nil in Hu3 as ->. cbn in Ho |- *. specialize (Ho eq_refl).
    destruct rest as [|[] rest]; try done. cbn in Ho |- *. intros [= ->]. done. }
  erewrite bind_ok by (apply (IHm bs); done || lia). destruct o as [cs|]; cbn [else_tokens] in Hu3.
  - apply unspelled_cons in Hu3 as (u & -> & Hu); [|done]. rewrite bool_decide_eq_true_2 by done. cbn [app].
    erewrite bind_ok by done. cbn [tail p_rest p_depth length] in *.
    erewrite bind_ok by (apply (IHblk cs); [lia|done|done|unfold within in *; lia]). done.
  - apply map_eq_nil in Hu3 as ->. rewrite bool_decide_eq_false_2; [done|]. specialize (Ho eq_refl).
    unfold peek. cbn in Ho |- *. destruct rest as [|[] rest]; try done. cbn in Ho |- *. intros [= ->]. done.
Qed.

Lemma commands_completeness fuel :
  commands_gives fuel ∧ loop_gives fuel ∧ command_gives fuel ∧ conditional_gives fuel ∧ more_branches_gives fuel ∧
  branch_gives fuel ∧ block_gives fuel.
Proof.
  induction fuel as [|fuel (? & ? & ? & ? & ? & ? & ?)]; [split_and!; intros ?; intros; lia|].
  split_and!; eauto using commands_complete, loop_complete, command_complete, conditional_complete,
    more_branches_complete, branch_complete, block_complete.
Qed.

Lemma parse_total (tokens : list Token) : is_Some (parse tokens).
Proof.
  unfold parse, parse_located, parse_fuel. destruct (commands_sound (6 * length tokens + 6)) as [Hs _].
  specialize (Hs (mkParser tokens 0) false ltac:(cbn [p_rest]; lia)). unfold takes, wp in Hs.
  destruct (commands _ _ _) as [[r st]|] eqn:Hc; [|done]. cbn [mbind option_bind]. eauto.
Qed.

(** C35: The parser accepts exactly the grammar. It always answers, and the
    commands it returns are those whose tokens the script has (a string quoted
    or multi-line), with the shapes of the grammar, no action that an open
    conditional would take for its own, and blocks, test lists and [not]s
    nested at most 64 deep. *)
Theorem parse_exact (tokens : list Token) :
  is_Some (parse tokens) ∧
  ∀ cs, parse tokens = Some (Ok cs) ↔
    map unspelled tokens = commands_tokens cs ∧ script_wf cs = true ∧ (block_depth cs ≤ MAX_NESTING_DEPTH)%nat.
Proof.
  unfold parse, parse_located, parse_fuel.
  destruct (commands_sound (6 * length tokens + 6)) as [Hs _].
  specialize (Hs (mkParser tokens 0) false ltac:(cbn [p_rest]; lia)). unfold takes, wp in Hs.
  destruct (commands _ _ _) as [[r st]|] eqn:Hc; [|done]. cbn [mbind option_bind]. split; [eauto|].
  intros cs. split.
  - destruct r as [cs'|e]; [|done]. destruct (p_rest st) as [|t rest] eqn:Hr; [|done]. intros [= <-].
    destruct Hs as (_ & [Hwf Hd] & used & Hused & Hu). cbn [p_rest p_depth] in *. rewrite app_nil_r in Hused.
    by subst.
  - intros (Hu & Hwf & Hd). destruct (commands_completeness (6 * length tokens + 6)) as [Hg _].
    specialize (Hg cs false tokens [] 0%nat ltac:(lia) Hu Hwf Hd (or_introl eq_refl)).
    rewrite app_nil_r in Hg. rewrite Hg in Hc. by injection Hc as <- <-.
Qed.
