(* ===== verification/SieveEnv.v ===== *)
(** The state and the budget of one run of a Sieve script
    (src/src/sieve/env/mod.rs) and the expansion of its variables
    (src/src/sieve/vars/mod.rs).

    A length of text is its length in octets. [None] is a panic: a [usize]
    that would go under zero. *)

From stdpp Require Import gmap.
From S2P Require Import Prelude RustStd Utf8 SieveMatch.

Local Open Scope Z_scope.

(** ** Limits *)

Definition MAX_VAR_BYTES : Z := 4096.
Definition MAX_VARS_TOTAL_BYTES : Z := 64 * 1024.
Definition MAX_VARS : Z := 128.
Definition MAX_VAR_NAME : Z := 64.
Definition MAX_STEPS : Z := 20000.
Definition MAX_WORK : Z := 256 * 1024 * 1024.
Definition BODY_WINDOW : Z := 1024 * 1024.
Definition HEADER_NAME_VALUES : Z := 1000.
Definition HEADER_NAME_WINDOW : Z := 64 * 1024.
Definition HEADER_NAMES_PER_LOOKUP : Z := 16.
Definition MAX_HEADERS : Z := 10000.

(** ** Text cut at a character boundary *)

(** [str::len]. *)
Definition octets (s : list Z) : Z := Z.of_nat (str_len s).

(** [while !text.is_char_boundary(end) { end -= 1 }; &text[..end]]. *)
Fixpoint floor_boundary (end_ : nat) (text : list Z) : list Z :=
  match split_at_byte end_ text with
  | Some (before, _) => before
  | None => match end_ with O => [] | S end_ => floor_boundary end_ text end
  end.

Definition cut (text : list Z) (limit : Z) : list Z :=
  floor_boundary (Z.to_nat (Z.min (octets text) limit)) text.

(** ** The state of a run *)

Record Env := mkEnv {
  e_vars : gmap (list Z) (list Z);
  e_captures : list (list Z);
  e_var_bytes : Z;
  e_steps : Z;
  e_work : Z;
  e_exhausted : bool;
  e_truncated : bool;
  e_pattern_over_caps : bool
}.

Definition env_default : Env := mkEnv ∅ [] 0 0 0 false false false.

Definition set_exhausted (e : Env) : Env :=
  mkEnv (e_vars e) (e_captures e) (e_var_bytes e) (e_steps e) (e_work e) true (e_truncated e) (e_pattern_over_caps e).

Definition mark_truncated (e : Env) : Env :=
  mkEnv (e_vars e) (e_captures e) (e_var_bytes e) (e_steps e) (e_work e) (e_exhausted e) true (e_pattern_over_caps e).

Definition note_pattern_over_caps (e : Env) : Env :=
  mkEnv (e_vars e) (e_captures e) (e_var_bytes e) (e_steps e) (e_work e) (e_exhausted e) (e_truncated e) true.

(** Count one command or test. *)
Definition step (e : Env) : bool * Env :=
  let steps := saturating_add u32_max (e_steps e) 1 in
  let exhausted := e_exhausted e || (MAX_STEPS <? steps) in
  (negb exhausted,
   mkEnv (e_vars e) (e_captures e) (e_var_bytes e) steps (e_work e) exhausted (e_truncated e) (e_pattern_over_caps e)).

Definition abandon (e : Env) : Env := set_exhausted e.

Definition remaining_work (e : Env) : Z := saturating_sub MAX_WORK (e_work e).

(** Spend [units] of work. *)
Definition charge (units : Z) (e : Env) : bool * Env :=
  let work := saturating_add u64_max (e_work e) units in
  let exhausted := e_exhausted e || (MAX_WORK <? work) in
  (negb exhausted,
   mkEnv (e_vars e) (e_captures e) (e_var_bytes e) (e_steps e) work exhausted (e_truncated e) (e_pattern_over_caps e)).

(** ** Variables *)

(** The match variable a name stands for. *)
Definition capture_index (name : list Z) : option nat :=
  if negb (is_empty name) && (octets name <=? 3) && forallb is_ascii_digit (as_bytes name) then
    Z.to_nat <$> parse_uint usize_max name
  else None.

Definition get (e : Env) (name : list Z) : option (list Z) :=
  match capture_index name with
  | Some index => e_captures e !! index
  | None => e_vars e !! name
  end.

Definition with_captures (captures : list (list Z)) (e : Env) : Env :=
  mkEnv (e_vars e) captures (e_var_bytes e) (e_steps e) (e_work e) (e_exhausted e) (e_truncated e) (e_pattern_over_caps e).

Definition set_captures (whole : list Z) (parts : list (list Z)) (e : Env) : Env :=
  with_captures (cut whole MAX_VAR_BYTES :: map (λ part, cut part MAX_VAR_BYTES) (take MAX_WILDCARDS parts)) e.

(** [Vec::resize] to a length that is not shorter, and a store at an index. *)
Definition store_capture (index : nat) (value : list Z) (captures : list (list Z)) : list (list Z) :=
  let captures :=
    if (length captures <=? index)%nat then captures ++ replicate (index + 1 - length captures) [] else captures in
  <[index := value]> captures.

(** [self.var_bytes - old], which panics under zero. *)
Definition usize_sub (a b : Z) : option Z := if a <? b then None else Some (a - b).

Definition set (name value : list Z) (e : Env) : option Env :=
  let value := cut value MAX_VAR_BYTES in
  match capture_index name with
  | Some index =>
      if (MAX_WILDCARDS <? index)%nat then Some (abandon e)
      else Some (with_captures (store_capture index value (e_captures e)) e)
  | None =>
      let old := match e_vars e !! name with Some v => octets v | None => 0 end in
      let is_new := bool_decide (e_vars e !! name = None) in
      if (MAX_VAR_NAME <? octets name) || (is_new && (MAX_VARS <=? Z.of_nat (size (e_vars e)))) then
        Some (abandon e)
      else
        kept ← usize_sub (e_var_bytes e) old;
        if MAX_VARS_TOTAL_BYTES <? kept + octets value then Some (abandon e)
        else
          Some (mkEnv (<[name := value]> (e_vars e)) (e_captures e) (kept + octets value) (e_steps e) (e_work e)
                  (e_exhausted e) (e_truncated e) (e_pattern_over_caps e))
  end.

(** ** Expansion *)

(** [rest.find("${")]: what is before it and what is after it. *)
Fixpoint find_reference (s : list Z) : option (list Z * list Z) :=
  match s with
  | [] => None
  | c :: s' =>
      match s' with
      | d :: s'' =>
          if (c =? 36) && (d =? 123) then Some ([], s'')
          else match find_reference s' with Some (a, b) => Some (c :: a, b) | None => None end
      | [] => None
      end
  end.

Definition push_bounded (out text : list Z) (limit : Z) : list Z :=
  let room := saturating_sub limit (octets out) in
  out ++ floor_boundary (Z.to_nat (Z.min (octets text) room)) text.

(** The loop of [vars::expand]; [fuel] bounds the references, and every one
    takes three characters. *)
Fixpoint expand_loop (fuel : nat) (lookup : list Z → option (list Z)) (limit : Z) (rest out : list Z)
    : option (list Z) :=
  match find_reference rest with
  | None => Some (push_bounded out rest limit)
  | Some (before, after) =>
      let out := push_bounded out before limit in
      match split_once 125 after with
      | Some (name, more) =>
          let out := push_bounded out (default [] (lookup name)) limit in
          if limit <=? octets out then Some out
          else match fuel with
               | O => None
               | S fuel => expand_loop fuel lookup limit more out
               end
      | None => Some (push_bounded out (36 :: 123 :: after) limit)
      end
  end.

Definition vars_expand (input : list Z) (lookup : list Z → option (list Z)) (limit : Z) : option (list Z) :=
  expand_loop (length input) lookup limit input [].

Definition expand (input : list Z) (e : Env) : option (list Z * Env) :=
  let e := snd (charge (octets input) e) in
  let limit := Z.max (octets input) MAX_VAR_BYTES in
  out ← vars_expand input (get e) limit;
  Some (out, snd (charge (octets out) e)).

(** ** Cutting keeps a prefix within the limit *)

Lemma floor_boundary_spec n text : ∃ more, text = floor_boundary n text ++ more ∧ (str_len (floor_boundary n text) ≤ n)%nat.
Proof.
  induction n as [|n IH]; cbn [floor_boundary].
  - destruct (split_at_byte 0 text) as [[a b]|] eqn:E; [|by exists text; cbn].
    apply split_at_byte_Some in E as [-> Hl]. exists b. split; [done|lia].
  - destruct (split_at_byte (S n) text) as [[a b]|] eqn:E.
    + apply split_at_byte_Some in E as [-> Hl]. exists b. split; [done|lia].
    + destruct IH as (more & Heq & Hl). exists more. split; [done|lia].
Qed.

Lemma octets_nonneg s : 0 ≤ octets s.
Proof. unfold octets. lia. Qed.

Lemma octets_app a b : octets (a ++ b) = octets a + octets b.
Proof. unfold octets, str_len. rewrite map_app, sum_list_with_app. lia. Qed.

Lemma floor_octets n text : 0 ≤ n → octets (floor_boundary (Z.to_nat n) text) ≤ n.
Proof. intros Hn. destruct (floor_boundary_spec (Z.to_nat n) text) as (_ & _ & H). unfold octets. lia. Qed.

Lemma cut_octets text limit : 0 ≤ limit → octets (cut text limit) ≤ limit.
Proof.
  intros Hl. unfold cut. pose proof (octets_nonneg text).
  pose proof (floor_octets (Z.min (octets text) limit) text ltac:(lia)). lia.
Qed.

Lemma push_bounded_octets out text limit :
  octets out ≤ limit → octets out ≤ octets (push_bounded out text limit) ≤ limit.
Proof.
  intros Hl. unfold push_bounded, saturating_sub. rewrite octets_app.
  pose proof (octets_nonneg text). pose proof (octets_nonneg out).
  pose proof (floor_octets (Z.min (octets text) (Z.max (limit - octets out) 0)) text ltac:(lia)).
  pose proof (octets_nonneg (floor_boundary (Z.to_nat (Z.min (octets text) (Z.max (limit - octets out) 0))) text)). lia.
Qed.

(** ** The expansion ends and is bounded *)

Lemma find_reference_Some s a b : find_reference s = Some (a, b) → s = a ++ 36 :: 123 :: b.
Proof.
  revert a b. induction s as [|c s IH]; intros a b; cbn [find_reference]; [done|].
  destruct s as [|d s]; [done|]. destruct ((c =? 36) && (d =? 123)) eqn:E.
  - apply andb_true_iff in E as [->%Z.eqb_eq ->%Z.eqb_eq]. by intros [= <- <-].
  - destruct (find_reference (d :: s)) as [[a' b']|]; [|done]. intros [= <- <-]. by rewrite (IH _ _ eq_refl).
Qed.

Lemma expand_loop_spec fuel lookup limit : ∀ rest out,
  (length rest ≤ fuel)%nat → octets out ≤ limit →
  ∃ r, expand_loop fuel lookup limit rest out = Some r ∧ octets r ≤ limit.
Proof.
  induction fuel as [|fuel IH]; intros rest out Hf Hout; cbn [expand_loop];
    destruct (find_reference rest) as [[before after]|] eqn:Hr;
    try (eexists; split; [done|]; by apply push_bounded_octets);
    apply find_reference_Some in Hr; subst rest; rewrite length_app in Hf; cbn in Hf; [lia|].
  assert (Hout1 : octets (push_bounded out before limit) ≤ limit) by (by apply push_bounded_octets).
  destruct (split_once 125 after) as [[name more]|] eqn:Hs.
  - destruct (Z.leb_spec limit (octets (push_bounded (push_bounded out before limit) (default [] (lookup name)) limit))).
    + eexists. split; [done|]. by apply push_bounded_octets.
    + apply split_once_Some in Hs as [-> _]. rewrite length_app in Hf. cbn in Hf. apply IH; [lia|].
      by apply push_bounded_octets.
  - eexists. split; [done|]. by apply push_bounded_octets.
Qed.

Lemma vars_expand_spec input lookup limit :
  0 ≤ limit → ∃ r, vars_expand input lookup limit = Some r ∧ octets r ≤ limit.
Proof. intros. by apply expand_loop_spec. Qed.

(** ** The invariant of a run *)

Definition total_octets (vars : gmap (list Z) (list Z)) : Z := map_fold (λ _ v acc, octets v + acc) 0 vars.

Record env_ok (e : Env) : Prop := {
  ok_vars : Z.of_nat (size (e_vars e)) ≤ MAX_VARS;
  ok_var : map_Forall (λ name v, octets name ≤ MAX_VAR_NAME ∧ octets v ≤ MAX_VAR_BYTES) (e_vars e);
  ok_total : e_var_bytes e = total_octets (e_vars e);
  ok_bytes : e_var_bytes e ≤ MAX_VARS_TOTAL_BYTES;
  ok_captures : (length (e_captures e) ≤ S MAX_WILDCARDS)%nat;
  ok_capture : Forall (λ v, octets v ≤ MAX_VAR_BYTES) (e_captures e);
  ok_steps : 0 ≤ e_steps e ≤ u32_max;
  ok_work : 0 ≤ e_work e ≤ u64_max;
  ok_exhausted : e_exhausted e = false → e_steps e ≤ MAX_STEPS ∧ e_work e ≤ MAX_WORK
}.

Lemma env_ok_default : env_ok env_default.
Proof. split; cbn; try done; rewrite ?map_size_empty; unfold u32_max, u64_max, MAX_STEPS, MAX_WORK, MAX_VARS; try lia. Qed.

(** The parts of the state an operation leaves alone. *)
Ltac env_same H := destruct H; split; unfold step, charge, set_captures, with_captures;
  cbn [snd e_vars e_captures e_var_bytes e_steps e_work e_exhausted]; try done.

Lemma env_ok_set_exhausted e : env_ok e → env_ok (set_exhausted e).
Proof. intros H. env_same H. Qed.

Lemma env_ok_mark_truncated e : env_ok e → env_ok (mark_truncated e).
Proof. intros H. env_same H. Qed.

Lemma env_ok_note e : env_ok e → env_ok (note_pattern_over_caps e).
Proof. intros H. env_same H. Qed.

Lemma env_ok_step e : env_ok e → env_ok (step e).2.
Proof.
  intros H. env_same H; unfold saturating_add, u32_max in *; [lia|]. rewrite orb_false_iff, Z.ltb_ge. naive_solver.
Qed.

Lemma env_ok_charge units e : 0 ≤ units → env_ok e → env_ok (charge units e).2.
Proof.
  intros Hu H. env_same H; unfold saturating_add, u64_max in *; [lia|]. rewrite orb_false_iff, Z.ltb_ge. naive_solver.
Qed.

Lemma env_ok_set_captures whole parts e : env_ok e → env_ok (set_captures whole parts e).
Proof.
  intros H. env_same H.
  - cbn [length]. rewrite length_map, length_take. lia.
  - constructor; [by apply cut_octets|]. apply Forall_map, Forall_true. intros. by apply cut_octets.
Qed.

Lemma store_capture_ok index value captures :
  (index ≤ MAX_WILDCARDS)%nat → octets value ≤ MAX_VAR_BYTES →
  (length captures ≤ S MAX_WILDCARDS)%nat → Forall (λ v, octets v ≤ MAX_VAR_BYTES) captures →
  (length (store_capture index value captures) ≤ S MAX_WILDCARDS)%nat ∧
  Forall (λ v, octets v ≤ MAX_VAR_BYTES) (store_capture index value captures).
Proof.
  intros Hi Hv Hl Hc. unfold store_capture. rewrite length_insert.
  destruct (Nat.leb_spec (length captures) index).
  - rewrite length_app, length_replicate. split; [lia|]. apply Forall_insert; [|done].
    apply Forall_app. split; [done|]. by apply Forall_replicate.
  - split; [done|]. by apply Forall_insert.
Qed.

Lemma total_octets_insert vars name value :
  total_octets (<[name := value]> vars) =
  total_octets vars - match vars !! name with Some v => octets v | None => 0 end + octets value.
Proof.
  unfold total_octets.
  assert (Hins : ∀ (m : gmap (list Z) (list Z)) k (v : list Z), m !! k = None →
    map_fold (λ _ v acc, octets v + acc) 0 (<[k := v]> m) = octets v + map_fold (λ _ v acc, octets v + acc) 0 m).
  { intros m k v Hk. apply (map_fold_insert_L (λ _ v acc, octets v + acc) 0 k v m); [|done]. intros. lia. }
  destruct (vars !! name) as [old|] eqn:Hold.
  - rewrite <-(insert_delete_eq vars name value). rewrite Hins by apply lookup_delete_eq.
    rewrite <-(insert_id vars name old Hold) at 2. rewrite <-(insert_delete_eq vars name old).
    rewrite Hins by apply lookup_delete_eq. lia.
  - rewrite Hins by done. lia.
Qed.

Lemma total_octets_nonneg vars : 0 ≤ total_octets vars.
Proof.
  unfold total_octets. apply (map_fold_weak_ind (λ r _, 0 ≤ r)); [done|].
  intros. pose proof (octets_nonneg x). lia.
Qed.

Lemma total_octets_lookup vars name :
  match vars !! name with Some v => octets v | None => 0 end ≤ total_octets vars.
Proof.
  destruct (vars !! name) as [v|] eqn:Hv; [|apply total_octets_nonneg].
  rewrite <-(insert_id vars name v Hv), <-insert_delete_eq, total_octets_insert, lookup_delete_eq.
  pose proof (total_octets_nonneg (delete name vars)). lia.
Qed.

(** [set] never goes under zero, and keeps the invariant. *)
Lemma set_ok name value e : env_ok e → ∃ e', set name value e = Some e' ∧ env_ok e'.
Proof.
  intros H. unfold set. pose proof (cut_octets value MAX_VAR_BYTES ltac:(done)) as Hcut.
  destruct (capture_index name) as [index|].
  { destruct (Nat.ltb_spec MAX_WILDCARDS index) as [|Hi]; eexists; (split; [done|]); [by apply env_ok_set_exhausted|].
    destruct (store_capture_ok index (cut value MAX_VAR_BYTES) (e_captures e) Hi Hcut) as [Hl Hc];
      [apply H|apply H|]. env_same H. }
  destruct (Z.ltb_spec MAX_VAR_NAME (octets name)) as [|Hn]; [eexists; split; [done|]; by apply env_ok_set_exhausted|].
  destruct (bool_decide (e_vars e !! name = None) && (MAX_VARS <=? Z.of_nat (size (e_vars e)))) eqn:Hnew;
    cbn [orb]; [eexists; split; [done|]; by apply env_ok_set_exhausted|].
  pose proof (total_octets_lookup (e_vars e) name) as Hle. rewrite <-(ok_total e H) in Hle.
  unfold usize_sub. rewrite (proj2 (Z.ltb_ge _ _) Hle). cbn [mbind option_bind].
  destruct (Z.ltb_spec MAX_VARS_TOTAL_BYTES (e_var_bytes e - match e_vars e !! name with Some v => octets v | None => 0 end
    + octets (cut value MAX_VAR_BYTES))) as [|Hfit]; eexists; (split; [done|]); [by apply env_ok_set_exhausted|].
  env_same H.
  - rewrite map_size_insert. destruct (e_vars e !! name) as [v|]; [done|].
    rewrite bool_decide_eq_true_2 in Hnew by done. cbn in Hnew. apply Z.leb_gt in Hnew. lia.
  - by apply map_Forall_insert_2.
  - rewrite total_octets_insert. lia.
Qed.

Lemma expand_ok input e :
  env_ok e → ∃ r e', expand input e = Some (r, e') ∧ env_ok e' ∧ octets r ≤ Z.max (octets input) MAX_VAR_BYTES.
Proof.
  intros H. unfold expand.
  destruct (vars_expand_spec input (get (charge (octets input) e).2) (Z.max (octets input) MAX_VAR_BYTES))
    as (r & -> & Hr); [pose proof (octets_nonneg input); lia|]. cbn [mbind option_bind].
  do 2 eexists. split_and!; [done| |done]. apply env_ok_charge; [apply octets_nonneg|].
  apply env_ok_charge; [apply octets_nonneg|done].
Qed.
