(* ===== verification/SieveKeySet.v ===== *)
(** The automaton that looks for a list of keys in one pass
    (src/src/sieve/key_set/mod.rs: [Automaton]), after Aho and Corasick.

    A state is the index of its node. [None] is an index out of range, or the
    end of the fuel of a loop, and neither comes. *)

From Stdlib Require Import Sorted.
From S2P Require Import Prelude RustStd Utf8 SieveMatch.

Local Open Scope nat_scope.

Record Node := mkNode { n_next : list (Z * nat); n_fail : nat; n_end : bool }.

Definition fold_byte (fold : bool) (byte : Z) : Z := if fold then to_ascii_lowercase_char byte else byte.

Definition empty_node : Node := mkNode [] 0 false.

Definition MIN_KEYS : nat := 8.
Definition MAX_KEY_BYTES : Z := 64 * 1024.
Definition KEY_COST : Z := 64.

(** [binary_search_by_key] on a sorted list without repeats: the index of the
    byte, or the index at which it would keep the list sorted. *)
Fixpoint search (byte : Z) (next : list (Z * nat)) : nat + nat :=
  match next with
  | [] => inr 0
  | (b, _) :: next =>
      if (b =? byte)%Z then inl 0
      else if (byte <? b)%Z then inr 0
      else match search byte next with inl i => inl (S i) | inr i => inr (S i) end
  end.

Definition go (nodes : list Node) (state : nat) (byte : Z) : option (option nat) :=
  n ← nodes !! state;
  match search byte (n_next n) with
  | inl at_ => t ← n_next n !! at_; Some (Some (snd t))
  | inr _ => Some None
  end.

(** [Vec::insert] at an index. *)
Definition vec_insert {A} (i : nat) (x : A) (l : list A) : list A := take i l ++ x :: drop i l.

(** One byte of a key: the state it leads to, made if there is none. *)
Definition add_byte (nodes : list Node) (state : nat) (byte : Z) : option (list Node * nat) :=
  n ← nodes !! state;
  match search byte (n_next n) with
  | inl at_ => t ← n_next n !! at_; Some (nodes, snd t)
  | inr at_ =>
      let made := length nodes in
      let nodes := nodes ++ [empty_node] in
      Some (<[state := mkNode (vec_insert at_ (byte, made) (n_next n)) (n_fail n) (n_end n)]> nodes, made)
  end.

Fixpoint add_bytes (nodes : list Node) (state : nat) (bytes : list Z) : option (list Node * nat) :=
  match bytes with
  | [] => Some (nodes, state)
  | byte :: bytes => '(nodes, state) ← add_byte nodes state byte; add_bytes nodes state bytes
  end.

Definition set_end (nodes : list Node) (state : nat) : option (list Node) :=
  n ← nodes !! state; Some (<[state := mkNode (n_next n) (n_fail n) true]> nodes).

Fixpoint add_keys (nodes : list Node) (keys : list (list Z)) : option (list Node) :=
  match keys with
  | [] => Some nodes
  | key :: keys =>
      '(nodes, state) ← add_bytes nodes 0 key;
      nodes ← set_end nodes state;
      add_keys nodes keys
  end.

(** Follow the fallbacks from [back] to a state that reads [byte]; [fuel]
    bounds the fallbacks, each to a shorter text. *)
Fixpoint fallback (fuel : nat) (nodes : list Node) (back : nat) (byte : Z) : option nat :=
  found ← go nodes back byte;
  match found with
  | Some found => Some found
  | None =>
      if back =? 0 then Some 0
      else match fuel with
           | O => None
           | S fuel => n ← nodes !! back; fallback fuel nodes (n_fail n) byte
           end
  end.

(** The children of one state: their fallbacks, and the queue with them. *)
Fixpoint link_children (nodes : list Node) (state : nat) (children : list (Z * nat)) (queue : list nat)
    : option (list Node * list nat) :=
  match children with
  | [] => Some (nodes, queue)
  | (byte, child) :: children =>
      n ← nodes !! state;
      target ← fallback (length nodes) nodes (n_fail n) byte;
      t ← nodes !! target;
      c ← nodes !! child;
      let nodes := <[child := mkNode (n_next c) target (n_end c || n_end t)]> nodes in
      link_children nodes state children (queue ++ [child])
  end.

(** Breadth first; [fuel] bounds the states visited. *)
Fixpoint link_loop (fuel : nat) (nodes : list Node) (queue : list nat) : option (list Node) :=
  match queue with
  | [] => Some nodes
  | state :: queue =>
      match fuel with
      | O => None
      | S fuel =>
          n ← nodes !! state;
          '(nodes, queue) ← link_children nodes state (n_next n) queue;
          link_loop fuel nodes queue
      end
  end.

Definition link (nodes : list Node) : option (list Node) :=
  root ← nodes !! 0;
  link_loop (length nodes) nodes (map snd (n_next root)).

(** The automaton of keys whose bytes are folded already. *)
Definition build_folded (keys : list (list Z)) : option (list Node) :=
  nodes ← add_keys [empty_node] keys; link nodes.

Definition build (keys : list (list Z)) (fold : bool) : option (list Node) :=
  build_folded (map (λ key, map (fold_byte fold) (as_bytes key)) keys).

(** The text's bytes one by one, each with the same walk along the fallbacks
    as [link] makes. *)
Fixpoint found_loop (nodes : list Node) (state : nat) (text : list Z) : option bool :=
  match text with
  | [] => Some false
  | byte :: text =>
      state ← fallback (length nodes) nodes state byte;
      n ← nodes !! state;
      if n_end n then Some true else found_loop nodes state text
  end.

Definition found_in (nodes : list Node) (fold : bool) (text : list Z) : option bool :=
  found_loop nodes 0 (map (fold_byte fold) (as_bytes text)).

(** ** Sorted transitions *)

Definition next_of (byte : Z) (next : list (Z * nat)) : option nat :=
  match search byte next with inl i => snd <$> next !! i | inr _ => None end.

Definition sorted (next : list (Z * nat)) : Prop := StronglySorted (λ a b, (a.1 < b.1)%Z) next.

Lemma search_inl byte next i : search byte next = inl i → ∃ t, next !! i = Some (byte, t).
Proof.
  revert i. induction next as [|[b t] next IH]; intros i; cbn [search]; [done|].
  destruct (Z.eqb_spec b byte) as [->|]; [intros [= <-]; eauto|]. destruct (byte <? b)%Z; [done|].
  destruct (search byte next) as [j|j]; [|done]. intros [= <-]. cbn. eauto.
Qed.

Lemma next_of_elem byte next t : sorted next → next_of byte next = Some t ↔ (byte, t) ∈ next.
Proof.
  unfold next_of. induction 1 as [|[b t'] next Hs IH Hall]; cbn [search]; [split; [done|]; by intros ?%not_elem_of_nil|].
  rewrite elem_of_cons. destruct (Z.eqb_spec b byte) as [->|Hne].
  - cbn. split; [intros [= ->]; by left|]. intros [[= ->]|Hin]; [done|].
    rewrite Forall_forall in Hall. specialize (Hall _ Hin). cbn in Hall. lia.
  - destruct (Z.ltb_spec byte b).
    + split; [done|]. intros [[= -> _]|Hin]; [lia|]. rewrite Forall_forall in Hall. specialize (Hall _ Hin). cbn in Hall. lia.
    + destruct (search byte next); cbn in *; rewrite IH; naive_solver.
Qed.

Lemma search_insert byte m next i : sorted next → search byte next = inr i → 
  sorted (vec_insert i (byte, m) next) ∧
  ∀ x, x ∈ vec_insert i (byte, m) next ↔ x = (byte, m) ∨ x ∈ next.
Proof.
  intros Hs. revert i. induction Hs as [|[b t] next Hs IH Hall]; intros i; cbn [search].
  { intros [= <-]. unfold vec_insert. cbn. split; [by repeat constructor|]. intros x. set_solver. }
  destruct (Z.eqb_spec b byte) as [->|Hne]; [done|]. destruct (Z.ltb_spec byte b) as [Hlt|Hge].
  - intros [= <-]. unfold vec_insert. cbn. split; [|intros x; set_solver].
    constructor; [by constructor|]. constructor; [done|]. eapply Forall_impl; [done|]. cbn. intros. lia.
  - destruct (search byte next) as [j|j]; [done|]. intros [= <-]. destruct (IH j eq_refl) as [Hs' Hin].
    unfold vec_insert in *. cbn. split; [|intros x; rewrite !elem_of_cons, Hin; tauto].
    constructor; [done|]. apply Forall_forall. intros x [->|Hx]%Hin; cbn; [lia|].
    rewrite Forall_forall in Hall. by apply Hall.
Qed.

Lemma next_of_insert byte m next i b : sorted next → search byte next = inr i →
  next_of b (vec_insert i (byte, m) next) = if (b =? byte)%Z then Some m else next_of b next.
Proof.
  intros Hs Hi. destruct (search_insert byte m next i Hs Hi) as [Hs' Hin].
  destruct (Z.eqb_spec b byte) as [->|Hne].
  - apply next_of_elem; [done|]. apply Hin. by left.
  - destruct (next_of b next) as [t|] eqn:E.
    + apply next_of_elem; [done|]. apply Hin. right. by apply next_of_elem.
    + destruct (next_of b (vec_insert i (byte, m) next)) as [t|] eqn:E'; [|done].
      apply next_of_elem, Hin in E' as [[= ? _]|E']; [|by apply next_of_elem in E'; congruence|done]. done.
Qed.

(** ** The tree of the keys *)

Definition goto (nodes : list Node) (s : nat) (b : Z) : option nat := n ← nodes !! s; next_of b (n_next n).

(** The state a word leads to. *)
Fixpoint walk (nodes : list Node) (s : nat) (w : list Z) : option nat :=
  match w with [] => Some s | b :: w => t ← goto nodes s b; walk nodes t w end.

Definition path (nodes : list Node) (w : list Z) : option nat := walk nodes 0 w.

Lemma walk_app nodes s u v : walk nodes s (u ++ v) = (t ← walk nodes s u; walk nodes t v).
Proof. revert s. induction u as [|b u IH]; intros s; cbn; [done|]. destruct (goto nodes s b); cbn; [apply IH|done]. Qed.

Lemma path_snoc nodes w b : path nodes (w ++ [b]) = (t ← path nodes w; goto nodes t b).
Proof.
  unfold path. rewrite walk_app. destruct (walk nodes 0 w) as [t|]; cbn; [|done]. by destruct (goto nodes t b).
Qed.

(** The words of the tree are [D], each with a state of its own, and the
    states of the words of [E] are marked. *)
Record trie (nodes : list Node) (D E : list Z → Prop) : Prop := {
  trie_sorted : Forall (λ n, sorted (n_next n)) nodes;
  trie_range w n : path nodes w = Some n → n < length nodes;
  trie_inj u v n : path nodes u = Some n → path nodes v = Some n → u = v;
  trie_words w : is_Some (path nodes w) ↔ D w;
  trie_marked w : E w → D w;
  trie_end w n nd : path nodes w = Some n → nodes !! n = Some nd → n_end nd = true ↔ E w;
  trie_fail n nd : nodes !! n = Some nd → n_fail nd = 0;
  trie_root : 0 < length nodes
}.

Lemma trie_iff nodes D E D' E' : (∀ w, D w ↔ D' w) → (∀ w, E w ↔ E' w) → trie nodes D E → trie nodes D' E'.
Proof.
  intros HD HE []. split; try done.
  - intros w. by rewrite <-HD.
  - intros w. rewrite <-HD, <-HE. auto.
  - intros w n nd Hw Hn. rewrite <-HE. eauto.
Qed.

Lemma go_goto nodes s b : Forall (λ n, sorted (n_next n)) nodes → s < length nodes → go nodes s b = Some (goto nodes s b).
Proof.
  intros Hs Hl. unfold go, goto. destruct (lookup_lt_is_Some_2 nodes s Hl) as [n Hn]. rewrite Hn. cbn.
  unfold next_of. destruct (search b (n_next n)) as [i|i] eqn:E; [|done].
  destruct (search_inl _ _ _ E) as [t Ht]. by rewrite Ht.
Qed.

Lemma path_prefix nodes u v : is_Some (path nodes (u ++ v)) → is_Some (path nodes u).
Proof. unfold path. rewrite walk_app. destruct (walk nodes 0 u); [eauto|]. by intros []. Qed.

Lemma trie_empty : trie [empty_node] (λ w, w = []) (λ _, False).
Proof.
  assert (Hp : ∀ w, path [empty_node] w = if decide (w = []) then Some 0 else None).
  { intros [|b w]; [done|]. unfold path. cbn. done. }
  split.
  - repeat constructor.
  - intros w n. rewrite Hp. case_decide; [|done]. intros [= <-]. cbn. lia.
  - intros u v n. rewrite !Hp. repeat case_decide; naive_solver.
  - intros w. rewrite Hp. case_decide; unfold is_Some; naive_solver.
  - done.
  - intros w n nd. rewrite Hp. case_decide; [|done]. intros [= <-] [= <-]. done.
  - intros [|n] nd; [by intros [= <-]|done].
  - cbn. lia.
Qed.

(** The transitions after [add_byte] made a state. *)
Lemma goto_made nodes s nd b i s' b' :
  Forall (λ n, sorted (n_next n)) nodes → nodes !! s = Some nd → search b (n_next nd) = inr i →
  goto (<[s := mkNode (vec_insert i (b, length nodes) (n_next nd)) (n_fail nd) (n_end nd)]> (nodes ++ [empty_node])) s' b' =
  if decide (s' = s ∧ b' = b) then Some (length nodes) else goto nodes s' b'.
Proof.
  intros Hs Hnd Hi. unfold goto. pose proof (lookup_lt_Some _ _ _ Hnd) as Hl.
  rewrite Forall_lookup in Hs. pose proof (Hs _ _ Hnd) as Hsn.
  destruct (decide (s' = s)) as [->|Hne].
  - rewrite list_lookup_insert_eq by (rewrite length_app; lia). cbn. rewrite next_of_insert by done. rewrite Hnd. cbn.
    destruct (Z.eqb_spec b' b); case_decide; naive_solver.
  - rewrite list_lookup_insert_ne by done. rewrite decide_False by naive_solver.
    destruct (decide (s' < length nodes)).
    + by rewrite lookup_app_l.
    + rewrite lookup_app_r by lia. rewrite (lookup_ge_None_2 nodes) by lia.
      destruct (s' - length nodes) as [|k] eqn:Ek; cbn; [done|]. done.
Qed.

Lemma path_made nodes nodes' D E ws s b :
  trie nodes D E → path nodes ws = Some s → goto nodes s b = None →
  (∀ s' b', goto nodes' s' b' = if decide (s' = s ∧ b' = b) then Some (length nodes) else goto nodes s' b') →
  ∀ w, path nodes' w = if decide (w = ws ++ [b]) then Some (length nodes) else path nodes w.
Proof.
  intros Ht Hws Hnone Hg w. induction w as [|c w IH] using rev_ind.
  - rewrite decide_False; [done|]. by destruct ws.
  - rewrite !path_snoc, IH. destruct (decide (w = ws ++ [b])) as [->|Hw].
    + cbn. rewrite Hg. rewrite decide_False by (intros [Heq _]; apply (trie_range _ _ _ Ht) in Hws; lia).
      assert (Hn : goto nodes (length nodes) c = None).
      { unfold goto. by rewrite lookup_ge_None_2. }
      rewrite Hn. rewrite path_snoc, Hws. cbn. rewrite Hnone. cbn. rewrite decide_False; [done|].
      intros Heq%(f_equal length). rewrite !length_app in Heq. cbn in Heq. lia.
    + destruct (path nodes w) as [t|] eqn:Hp; cbn.
      * rewrite Hg. destruct (decide (t = s ∧ c = b)) as [[-> ->]|Hn].
        -- rewrite (trie_inj _ _ _ Ht _ _ _ Hp Hws). by rewrite decide_True.
        -- rewrite decide_False; [done|]. intros [-> ->]%app_inj_tail. rewrite Hws in Hp. naive_solver.
      * rewrite decide_False; [done|]. intros [-> ->]%app_inj_tail. congruence.
Qed.

Lemma add_byte_ok nodes D E ws s b :
  trie nodes D E → path nodes ws = Some s →
  ∃ nodes' s', add_byte nodes s b = Some (nodes', s') ∧ path nodes' (ws ++ [b]) = Some s' ∧
    trie nodes' (λ w, D w ∨ w = ws ++ [b]) E.
Proof.
  intros Ht Hws. pose proof (trie_range _ _ _ Ht _ _ Hws) as Hl.
  destruct (lookup_lt_is_Some_2 nodes s Hl) as [nd Hnd]. unfold add_byte. rewrite Hnd. cbn.
  pose proof (trie_sorted _ _ _ Ht) as Hsort.
  destruct (search b (n_next nd)) as [i|i] eqn:Hi.
  - destruct (search_inl _ _ _ Hi) as [t Hti]. rewrite Hti. cbn. exists nodes, t. split; [done|].
    assert (Hp : path nodes (ws ++ [b]) = Some t).
    { rewrite path_snoc, Hws. cbn. unfold goto, next_of. rewrite Hnd. cbn. by rewrite Hi, Hti. }
    split; [done|]. eapply trie_iff; [| |exact Ht]; [|done]. intros w. split; [by left|].
    intros [?| ->]; [done|]. apply (trie_words _ _ _ Ht). eauto.
  - assert (Hnone : goto nodes s b = None) by (unfold goto, next_of; rewrite Hnd; cbn; by rewrite Hi).
    pose proof (path_made _ _ _ _ ws s b Ht Hws Hnone (λ s' b', goto_made nodes s nd b i s' b' Hsort Hnd Hi)) as Hp.
    do 2 eexists. split; [done|]. split; [rewrite Hp; by rewrite decide_True|].
    assert (Hnew : path nodes (ws ++ [b]) = None) by (rewrite path_snoc, Hws; done).
    split.
    + apply Forall_insert; [apply Forall_app; split; [done|]; by repeat constructor|]. cbn.
      rewrite Forall_lookup in Hsort. by apply search_insert; [eapply Hsort|].
    + intros w n. rewrite Hp. rewrite length_insert, length_app. cbn. case_decide; [intros [= <-]; lia|].
      intros ?%(trie_range _ _ _ Ht). lia.
    + intros u v n. rewrite !Hp. repeat case_decide; subst; try done.
      * intros [= <-] ?%(trie_range _ _ _ Ht). lia.
      * intros ?%(trie_range _ _ _ Ht) [= <-]. lia.
      * apply (trie_inj _ _ _ Ht).
    + intros w. rewrite Hp. case_decide as Hd; [split; [by right|eauto]|].
      rewrite (trie_words _ _ _ Ht). naive_solver.
    + intros w Hw%(trie_marked _ _ _ Ht). by left.
    + intros w n nd'. rewrite Hp. case_decide as Hd; subst.
      * intros [= <-]. rewrite list_lookup_insert_ne by lia. rewrite lookup_app_r, Nat.sub_diag by lia.
        intros [= <-]. cbn. split; [done|]. intros [? Hd]%(trie_marked _ _ _ Ht)%(trie_words _ _ _ Ht). congruence.
      * intros Hw. pose proof (trie_range _ _ _ Ht _ _ Hw) as Hn. destruct (decide (n = s)) as [->|Hne].
        -- rewrite list_lookup_insert_eq by (rewrite length_app; lia). intros [= <-]. cbn. by eapply trie_end.
        -- rewrite list_lookup_insert_ne by done. rewrite lookup_app_l by done. by eapply trie_end.
    + intros n nd'. destruct (decide (n = s)) as [->|Hne].
      * rewrite list_lookup_insert_eq by (rewrite length_app; lia). intros [= <-]. cbn. by eapply trie_fail.
      * rewrite list_lookup_insert_ne by done. intros [Hn|[_ [_ <-]%list_lookup_singleton_Some]]%lookup_app_Some; [|done].
        by eapply trie_fail.
    + rewrite length_insert, length_app. lia.
Qed.

Lemma add_bytes_ok bytes : ∀ nodes D E ws s,
  trie nodes D E → path nodes ws = Some s →
  ∃ nodes' s', add_bytes nodes s bytes = Some (nodes', s') ∧ path nodes' (ws ++ bytes) = Some s' ∧
    trie nodes' (λ w, D w ∨ ∃ p, p `prefix_of` bytes ∧ w = ws ++ p) E.
Proof.
  induction bytes as [|b bytes IH]; intros nodes D E ws s Ht Hws; cbn [add_bytes].
  - exists nodes, s. rewrite app_nil_r. split_and!; [done|done|]. eapply trie_iff; [| |exact Ht]; [|done].
    intros w. split; [by left|]. intros [?|(p & ->%prefix_nil_inv & ->)]; [done|]. rewrite app_nil_r.
    apply (trie_words _ _ _ Ht). eauto.
  - destruct (add_byte_ok _ _ _ _ _ b Ht Hws) as (nodes1 & s1 & -> & Hp1 & Ht1). cbn.
    destruct (IH _ _ _ _ _ Ht1 Hp1) as (nodes2 & s2 & -> & Hp2 & Ht2). exists nodes2, s2.
    rewrite <-app_assoc in Hp2. split_and!; [done|done|]. eapply trie_iff; [| |exact Ht2]; [|done].
    intros w. split.
    + intros [[?| ->]|(p & Hp & ->)]; [by left| |].
      * right. exists [b]. split; [|done]. by exists bytes.
      * right. exists (b :: p). rewrite <-app_assoc. split; [by apply prefix_cons|done].
    + intros [?|(p & Hp & ->)]; [by do 2 left|]. destruct p as [|c p].
      * left. left. rewrite app_nil_r. apply (trie_words _ _ _ Ht). eauto.
      * pose proof (prefix_cons_inv_1 _ _ _ _ Hp) as ->. apply prefix_cons_inv_2 in Hp. right. exists p.
        by rewrite <-app_assoc.
Qed.

Lemma set_end_ok nodes D E w s :
  trie nodes D E → path nodes w = Some s →
  ∃ nodes', set_end nodes s = Some nodes' ∧ trie nodes' D (λ v, E v ∨ v = w).
Proof.
  intros Ht Hw. pose proof (trie_range _ _ _ Ht _ _ Hw) as Hl.
  destruct (lookup_lt_is_Some_2 nodes s Hl) as [nd Hnd]. unfold set_end. rewrite Hnd. cbn.
  eexists. split; [done|]. set (nodes' := <[s := _]> nodes).
  assert (Hg : ∀ s' b, goto nodes' s' b = goto nodes s' b).
  { intros s' b. unfold goto, nodes'. destruct (decide (s' = s)) as [->|Hne].
    - rewrite list_lookup_insert_eq by done. by rewrite Hnd.
    - by rewrite list_lookup_insert_ne. }
  assert (Hp : ∀ v, path nodes' v = path nodes v).
  { intros v. induction v as [|b v IH] using rev_ind; [done|]. rewrite !path_snoc, IH.
    destruct (path nodes v); cbn; [apply Hg|done]. }
  split.
  - apply Forall_insert; [apply Ht|]. cbn. pose proof (trie_sorted _ _ _ Ht) as Hs. rewrite Forall_lookup in Hs. eauto.
  - intros v n. rewrite Hp. unfold nodes'. rewrite length_insert. apply Ht.
  - intros u v n. rewrite !Hp. apply Ht.
  - intros v. rewrite Hp. apply Ht.
  - intros v [?| ->]; [by apply (trie_marked _ _ _ Ht)|]. apply (trie_words _ _ _ Ht). eauto.
  - intros v n nd'. rewrite Hp. intros Hv. unfold nodes'. destruct (decide (n = s)) as [->|Hne].
    + rewrite list_lookup_insert_eq by done. intros [= <-]. cbn.
      pose proof (trie_inj _ _ _ Ht _ _ _ Hv Hw). naive_solver.
    + rewrite list_lookup_insert_ne by done. intros Hn. rewrite (trie_end _ _ _ Ht _ _ _ Hv Hn).
      split; [by left|]. intros [?| ->]; [done|]. congruence.
  - intros n nd'. unfold nodes'. destruct (decide (n = s)) as [->|Hne].
    + rewrite list_lookup_insert_eq by done. intros [= <-]. cbn. by eapply trie_fail.
    + rewrite list_lookup_insert_ne by done. by eapply trie_fail.
  - unfold nodes'. rewrite length_insert. apply Ht.
Qed.

Lemma add_keys_ok keys : ∀ nodes D E,
  trie nodes D E →
  ∃ nodes', add_keys nodes keys = Some nodes' ∧
    trie nodes' (λ w, D w ∨ ∃ key, key ∈ keys ∧ w `prefix_of` key) (λ w, E w ∨ w ∈ keys).
Proof.
  induction keys as [|key keys IH]; intros nodes D E Ht; cbn [add_keys].
  - exists nodes. split; [done|]. eapply trie_iff; [| |exact Ht]; set_solver.
  - destruct (add_bytes_ok key _ _ _ [] 0 Ht eq_refl) as (nodes1 & s & -> & Hp & Ht1). cbn.
    destruct (set_end_ok _ _ _ _ _ Ht1 Hp) as (nodes2 & -> & Ht2). cbn.
    destruct (IH _ _ _ Ht2) as (nodes3 & -> & Ht3). exists nodes3. split; [done|].
    eapply trie_iff; [| |exact Ht3]; set_solver.
Qed.

(** Different words have different states. *)
Lemma trie_count nodes D E ws : trie nodes D E → NoDup ws → Forall D ws → length ws ≤ length nodes.
Proof.
  intros Ht Hnd Hall. rewrite Forall_forall in Hall.
  assert (Hpath : ∀ w, w ∈ ws → ∃ n, path nodes w = Some n).
  { intros w Hw. by apply (trie_words _ _ _ Ht), Hall. }
  set (states := map (λ v, default 0 (path nodes v)) ws).
  assert (Hnds : NoDup states).
  { apply NoDup_fmap_2_strong; [|done]. intros u v Hu Hv Heq.
    destruct (Hpath u Hu) as [n Hn], (Hpath v Hv) as [m Hm]. rewrite Hn, Hm in Heq. cbn in Heq. subst m.
    by apply (trie_inj _ _ _ Ht u v n). }
  assert (Hsub : states ⊆ seq 0 (length nodes)).
  { intros n (v & -> & Hv)%list_elem_of_fmap. destruct (Hpath v Hv) as [n Hn]. rewrite Hn. cbn.
    apply (trie_range _ _ _ Ht) in Hn. apply elem_of_seq. lia. }
  pose proof (submseteq_length _ _ (NoDup_submseteq _ _ Hnds Hsub)) as Hle.
  unfold states in Hle. by rewrite length_seq, length_map in Hle.
Qed.

(** A word is shorter than the number of states: its starts have one each. *)
Lemma trie_depth nodes D E w : trie nodes D E → D w → length w < length nodes.
Proof.
  intros Ht Hw. set (starts := map (λ i, take i w) (seq 0 (S (length w)))).
  assert (Hlen : length starts = S (length w)) by (unfold starts; by rewrite length_map, length_seq).
  pose proof (trie_count nodes D E starts Ht) as Hc. rewrite Hlen in Hc. apply Hc.
  - apply NoDup_fmap_2_strong; [|apply NoDup_seq]. intros i j Hi Hj Heq.
    apply elem_of_seq in Hi, Hj. apply (f_equal length) in Heq. rewrite !length_take in Heq. lia.
  - apply Forall_forall. intros v (i & -> & _)%list_elem_of_fmap. apply (trie_words _ _ _ Ht).
    apply (path_prefix nodes (take i w) (drop i w)). rewrite take_drop. by apply (trie_words _ _ _ Ht).
Qed.

(** ** The fallbacks *)

Section Linking.
Context (base : list Node) (D E : list Z → Prop) (Ht : trie base D E).

(** The nodes of the tree with other fallbacks and marks. *)
Definition same_next (nodes : list Node) : Prop := ∀ i, n_next <$> nodes !! i = n_next <$> base !! i.

(** The longest word of the tree that ends [s]. *)
Definition longest_word (s v : list Z) : Prop :=
  v `suffix_of` s ∧ D v ∧ ∀ u, u `suffix_of` s → D u → length u ≤ length v.

(** The fallback and the mark of a word's state are right. *)
Definition linked (nodes : list Node) (w : list Z) : Prop :=
  ∃ n nd v, path base w = Some n ∧ nodes !! n = Some nd ∧
    longest_word (tail w) v ∧ path base v = Some (n_fail nd) ∧
    (¬ E [] → n_end nd = true ↔ ∃ k, E k ∧ k `suffix_of` w).

Lemma same_next_length nodes : same_next nodes → length nodes = length base.
Proof.
  intros Hs. assert (Hi : ∀ i, is_Some (nodes !! i) ↔ is_Some (base !! i)).
  { intros i. rewrite <-!(fmap_is_Some n_next). by rewrite Hs. }
  apply Nat.le_antisymm; apply Nat.nlt_ge; intros Hlt; apply lookup_lt_is_Some_2 in Hlt; apply Hi in Hlt;
    apply lookup_lt_is_Some_1 in Hlt; lia.
Qed.

Lemma same_next_goto nodes s b : same_next nodes → goto nodes s b = goto base s b.
Proof.
  intros Hs. unfold goto. specialize (Hs s). destruct (nodes !! s), (base !! s); cbn in *; try done. by injection Hs as ->.
Qed.

Lemma same_next_sorted nodes : same_next nodes → Forall (λ n, sorted (n_next n)) nodes.
Proof.
  intros Hs. apply Forall_lookup. intros i n Hi. specialize (Hs i). rewrite Hi in Hs.
  destruct (base !! i) as [m|] eqn:Hm; [|done]. injection Hs as ->.
  pose proof (trie_sorted _ _ _ Ht) as Hf. rewrite Forall_lookup in Hf. eauto.
Qed.

Lemma same_next_go nodes w s b : same_next nodes → path base w = Some s → go nodes s b = Some (path base (w ++ [b])).
Proof.
  intros Hs Hw. rewrite go_goto.
  - by rewrite same_next_goto, path_snoc, Hw.
  - by apply same_next_sorted.
  - rewrite (same_next_length _ Hs). by apply (trie_range _ _ _ Ht w).
Qed.

Lemma word_prefix v b : D (v ++ [b]) → D v.
Proof. rewrite <-!(trie_words _ _ _ Ht). apply path_prefix. Qed.

Lemma root_word : D [].
Proof. apply (trie_words _ _ _ Ht). by exists 0. Qed.

Lemma path_word w : D w → ∃ n, path base w = Some n.
Proof. intros Hw. by apply (trie_words _ _ _ Ht). Qed.

Lemma suffix_tail (u v : list Z) : u `suffix_of` v → u ≠ v → u `suffix_of` tail v.
Proof.
  intros [[|x k] ->] Hne; [done|]. cbn. by exists k.
Qed.

Lemma fallback_spec nodes s b fuel : ∀ u back,
  same_next nodes → path base u = Some back → u `suffix_of` s →
  (∀ v, v `suffix_of` s → D (v ++ [b]) → length v ≤ length u) →
  (∀ v, D v → v ≠ [] → length v ≤ length u → linked nodes v) → length u ≤ fuel →
  ∃ r n, fallback fuel nodes back b = Some n ∧ path base r = Some n ∧ longest_word (s ++ [b]) r.
Proof.
  induction fuel as [|fuel IH]; intros u back Hsame Hu Hus Hmax Hlinked Hfuel; cbn [fallback];
    rewrite (same_next_go nodes u back b Hsame Hu); cbn [mbind option_bind].
  all: destruct (path base (u ++ [b])) as [n|] eqn:Hub.
  1,3: exists (u ++ [b]), n; split_and!; [done|done|]; split_and!;
    [by apply suffix_snoc|apply (trie_words _ _ _ Ht); eauto|];
    intros v Hv Hd; destruct v as [|c v _] using rev_ind; [cbn; lia|];
    apply suffix_snoc in Hv as [-> Hv]; rewrite !length_app; cbn; specialize (Hmax v Hv Hd); lia.
  all: assert (Hno : ¬ D (u ++ [b])) by (intros [? ?]%(trie_words _ _ _ Ht); congruence).
  all: destruct (decide (u = [])) as [->|Hne].
  1,3: injection Hu as <-; exists [], 0; split_and!; [done|done|]; split_and!; [apply suffix_nil|apply root_word|];
    intros v Hv Hd; destruct v as [|c v _] using rev_ind; [done|];
    apply suffix_snoc in Hv as [-> Hv]; specialize (Hmax v Hv Hd); destruct v; [done|cbn in Hmax; lia].
  { destruct u; [done|cbn in Hfuel; lia]. }
  destruct (Nat.eqb_spec back 0) as [->|_].
  { exfalso. apply Hne. by apply (trie_inj _ _ _ Ht u [] 0). }
  destruct (Hlinked u) as (n & nd & v & Hn & Hnd & (Hv & Hdv & Hvmax) & Hf & _);
    [apply (trie_words _ _ _ Ht); eauto|done|lia|].
  rewrite Hu in Hn. injection Hn as <-. rewrite Hnd. cbn [mbind option_bind].
  assert (Hvu : length v < length u).
  { apply suffix_length in Hv. destruct u; [done|]. cbn in *. lia. }
  apply (IH v); try done; [| | |lia].
  - transitivity (tail u); [done|]. transitivity u; [|done]. destruct u as [|x u]; [done|]. cbn. by exists [x].
  - intros v' Hv' Hd'. apply Hvmax; [|by apply word_prefix in Hd'].
    apply suffix_tail; [|intros ->; done]. apply (suffix_of_both _ _ s); [done|done|]. by apply Hmax.
  - intros v' ? ? ?. apply Hlinked; [done|done|lia].
Qed.

(** ** Breadth first *)

Definition strictly_starts (u w : list Z) : Prop := ∃ c k, w = u ++ c :: k.

(** [Q] are the words queued and [L] the words linked; [cs] are the children
    of [q] still to link. The words not linked go on from one queued or from
    a child still to link, and no linked word does. *)
Record bfs (nodes : list Node) (Q L : list (list Z)) (q : list Z) (cs : list (Z * nat)) : Prop := {
  bfs_same : same_next nodes;
  bfs_root nd : nodes !! 0 = Some nd → n_end nd = true ↔ E [];
  bfs_nodup : NoDup L;
  bfs_nodup_queue : NoDup Q;
  bfs_queued w : w ∈ Q → w ∈ L;
  bfs_linked w : w ∈ L → D w ∧ w ≠ [] ∧ linked nodes w;
  bfs_untouched w n : w ∉ L → path base w = Some n → nodes !! n = base !! n;
  bfs_cover w : D w → w ≠ [] →
    w ∈ L ∨ (∃ u, u ∈ Q ∧ strictly_starts u w) ∨ (∃ b t, (b, t) ∈ cs ∧ (q ++ [b]) `prefix_of` w);
  bfs_ahead w u : w ∈ L → u ∈ Q → ¬ strictly_starts u w;
  bfs_children w b t : w ∈ L → (b, t) ∈ cs → ¬ (q ++ [b]) `prefix_of` w
}.

(** With the words queued no shorter than [q], all words up to its length are
    linked. *)
Lemma bfs_short nodes Q L q cs v :
  bfs nodes Q L q cs → Forall (λ u, length q ≤ length u) Q → D v → v ≠ [] → length v ≤ length q → linked nodes v.
Proof.
  intros Hb HQ Hd Hne Hl. destruct (bfs_cover _ _ _ _ _ Hb v Hd Hne) as [Hin|[(u & Hu & c & k & ->)|(b & t & _ & Hp)]].
  - by apply (bfs_linked _ _ _ _ _ Hb).
  - rewrite Forall_forall in HQ. specialize (HQ u Hu). rewrite length_app in Hl. cbn in Hl. lia.
  - apply prefix_length in Hp. rewrite length_app in Hp. cbn in Hp. lia.
Qed.

Lemma linked_insert nodes w c n nd' :
  linked nodes w → path base c = Some n → w ≠ c → linked (<[n := nd']> nodes) w.
Proof.
  intros (m & nd & v & Hm & Hnd & Hrest) Hn Hne. exists m, nd, v. split; [done|]. split; [|done].
  rewrite list_lookup_insert_ne; [done|]. intros ->. apply Hne. by apply (trie_inj _ _ _ Ht w c m).
Qed.

Lemma word_suffixes c r k :
  c ≠ [] → longest_word (tail c) r → ¬ E [] → (E k ∧ k `suffix_of` c) ↔ (k = c ∧ E c) ∨ (E k ∧ k `suffix_of` r).
Proof.
  intros Hc (Hr & Hdr & Hmax) Hemp. split.
  - intros [Hk Hks]. destruct (decide (k = c)) as [->|Hne]; [by left|]. right. split; [done|].
    apply suffix_tail in Hks; [|done]. apply (suffix_of_both _ _ (tail c)); [done|done|].
    apply Hmax; [done|]. by apply (trie_marked _ _ _ Ht).
  - intros [[-> Hk]|[Hk Hks]]; [done|]. split; [done|]. transitivity r; [done|]. transitivity (tail c); [done|].
    destruct c as [|x c]; [done|]. by exists [x].
Qed.

(** The target of a child, and the node it gets. *)
Lemma link_target nodes Q L q b child cs s n :
  bfs nodes Q L q ((b, child) :: cs) → Forall (λ u, length q ≤ length u) Q →
  q ∈ L → path base q = Some s → nodes !! s = Some n → path base (q ++ [b]) = Some child →
  ∃ target t c,
    fallback (length nodes) nodes (n_fail n) b = Some target ∧ nodes !! target = Some t ∧ nodes !! child = Some c ∧
    same_next (<[child := mkNode (n_next c) target (n_end c || n_end t)]> nodes) ∧
    linked (<[child := mkNode (n_next c) target (n_end c || n_end t)]> nodes) (q ++ [b]).
Proof.
  intros Hb HQ Hq Hs Hn Hchild. pose proof (bfs_same _ _ _ _ _ Hb) as Hsame.
  destruct (bfs_linked _ _ _ _ _ Hb q Hq) as (Hdq & Hqne & s' & n' & v & Hs' & Hn' & Hv & Hpv & _).
  rewrite Hs in Hs'. injection Hs' as <-. rewrite Hn in Hn'. injection Hn' as <-.
  pose proof (same_next_length _ Hsame) as Hlen. destruct Hv as (Hvs & Hvd & Hvmax).
  assert (Hvq : length v ≤ length q) by (apply suffix_length in Hvs; destruct q; cbn in *; lia).
  destruct (fallback_spec nodes (tail q) b (length nodes) v (n_fail n)) as (r & target & Hfb & Hr & Hlong); try done.
  { intros u Hu Hd. apply Hvmax; [done|]. by apply word_prefix in Hd. }
  { intros u Hd Hne Hle. eapply bfs_short; [done|done|done|done|lia]. }
  { rewrite Hlen. pose proof (trie_depth _ _ _ _ Ht Hvd). lia. }
  replace (tail q ++ [b]) with (tail (q ++ [b])) in Hlong by (by destruct q).
  assert (Hrl : length r ≤ length q).
  { destruct Hlong as [Hrs _]. apply suffix_length in Hrs. destruct q; [done|]. cbn in *. rewrite length_app in Hrs.
    cbn in Hrs. lia. }
  destruct (lookup_lt_is_Some_2 nodes target) as [t Ht'].
  { rewrite Hlen. by apply (trie_range _ _ _ Ht r). }
  destruct (lookup_lt_is_Some_2 nodes child) as [c Hc].
  { rewrite Hlen. by apply (trie_range _ _ _ Ht (q ++ [b])). }
  exists target, t, c. split_and!; [done|done|done| |].
  { intros i. destruct (decide (i = child)) as [->|Hne].
    - rewrite list_lookup_insert_eq by (by eapply lookup_lt_Some). rewrite <-Hsame, Hc. done.
    - rewrite list_lookup_insert_ne by done. apply Hsame. }
  exists child, (mkNode (n_next c) target (n_end c || n_end t)), r. split_and!; [done| |done|done|].
  { apply list_lookup_insert_eq. by eapply lookup_lt_Some. }
  intros Hemp. cbn [n_end]. assert (Hcend : n_end c = true ↔ E (q ++ [b])).
  { assert (Hcl : q ++ [b] ∉ L) by (intros Hin; eapply (bfs_children _ _ _ _ _ Hb _ b child Hin); [by left|done]).
    rewrite (bfs_untouched _ _ _ _ _ Hb _ _ Hcl Hchild) in Hc. by apply (trie_end _ _ _ Ht _ child). }
  assert (Htend : n_end t = true ↔ ∃ k, E k ∧ k `suffix_of` r).
  { destruct (decide (r = [])) as [->|Hne].
    - injection Hr as <-. rewrite (bfs_root _ _ _ _ _ Hb _ Ht'). split; [done|].
      intros (k & Hk & ->%suffix_nil_inv). done.
    - destruct (bfs_short _ _ _ _ _ r Hb HQ) as (m & nd & v' & Hm & Hnd & _ & _ & Hmark); [apply Hlong|done|done|].
      rewrite Hr in Hm. injection Hm as <-. rewrite Ht' in Hnd. injection Hnd as <-. by apply Hmark. }
  assert (Hcne : q ++ [b] ≠ []) by (by destruct q).
  pose proof (λ k, word_suffixes (q ++ [b]) r k Hcne Hlong Hemp) as Hsuf.
  rewrite orb_true_iff, Hcend, Htend. split.
  - intros [He|(k & Hk)]; [exists (q ++ [b])|exists k]; apply Hsuf; auto.
  - intros (k & [[-> He]|Hk]%Hsuf); [by left|right; eauto].
Qed.

(** One child. *)
Lemma link_child_ok nodes Q L q b child cs c target mark :
  bfs nodes Q L q ((b, child) :: cs) → sorted ((b, child) :: cs) →
  q ∈ L → q ∉ Q → path base (q ++ [b]) = Some child →
  same_next (<[child := mkNode (n_next c) target mark]> nodes) →
  linked (<[child := mkNode (n_next c) target mark]> nodes) (q ++ [b]) →
  bfs (<[child := mkNode (n_next c) target mark]> nodes) (Q ++ [q ++ [b]]) ((q ++ [b]) :: L) q cs.
Proof.
  intros Hb Hsort Hq HqQ Hchild Hsame Hlink.
  assert (Hcl : q ++ [b] ∉ L) by (intros Hin; eapply (bfs_children _ _ _ _ _ Hb _ b child Hin); [by left|done]).
  assert (Hne : q ++ [b] ≠ []) by (by destruct q).
  assert (Hbytes : ∀ b' t, (b', t) ∈ cs → b' ≠ b).
  { intros b' t Hin ->. inversion Hsort as [|? ? _ Hall]; subst. rewrite Forall_forall in Hall.
    specialize (Hall _ Hin). cbn in Hall. lia. }
  split; [done| | | | | | | | |].
  - intros nd. rewrite list_lookup_insert_ne; [apply (bfs_root _ _ _ _ _ Hb)|]. intros ->.
    apply Hne. by apply (trie_inj _ _ _ Ht (q ++ [b]) [] 0).
  - constructor; [done|]. apply (bfs_nodup _ _ _ _ _ Hb).
  - apply NoDup_app. split_and!; [apply (bfs_nodup_queue _ _ _ _ _ Hb)| |apply NoDup_singleton].
    intros w Hw ->%list_elem_of_singleton. by apply Hcl, (bfs_queued _ _ _ _ _ Hb).
  - intros w [Hw|Hw]%elem_of_app; [right; by apply (bfs_queued _ _ _ _ _ Hb)|].
    apply list_elem_of_singleton in Hw as ->. by left.
  - intros w [->|Hw]%elem_of_cons.
    + split_and!; [|done|done]. apply (trie_words _ _ _ Ht). eauto.
    + destruct (bfs_linked _ _ _ _ _ Hb w Hw) as (? & ? & Hwl). split_and!; [done|done|].
      eapply linked_insert; [done|done|]. intros ->. done.
  - intros w n [Hwc Hw]%not_elem_of_cons Hn. rewrite list_lookup_insert_ne; [by apply (bfs_untouched _ _ _ _ _ Hb w)|].
    intros ->. apply Hwc. by apply (trie_inj _ _ _ Ht w (q ++ [b]) n).
  - intros w Hd Hwne. destruct (bfs_cover _ _ _ _ _ Hb w Hd Hwne) as [?|[(u & Hu & Hs)|(b' & t & Hin & Hp)]].
    + left. by right.
    + right. left. exists u. split; [|done]. apply elem_of_app. by left.
    + apply elem_of_cons in Hin as [[= -> ->]|Hin]; [|right; right; eauto].
      destruct Hp as [[|x k] ->]; [left; rewrite app_nil_r; by left|]. right. left. exists (q ++ [b]).
      split; [apply elem_of_app; right; by left|]. by exists x, k.
  - intros w u [->|Hw]%elem_of_cons [Hu| ->%list_elem_of_singleton]%elem_of_app (x & k & Heq).
    + destruct k as [|y k _] using rev_ind.
      * apply app_inj_tail in Heq as [-> _]. done.
      * change (x :: k ++ [y]) with ((x :: k) ++ [y]) in Heq. rewrite (app_assoc u (x :: k) [y]) in Heq. apply app_inj_tail in Heq as [-> _].
        eapply (bfs_ahead _ _ _ _ _ Hb); [exact Hq|exact Hu|by exists x, k].
    + apply (f_equal length) in Heq. rewrite !length_app in Heq. cbn in Heq. lia.
    + by eapply (bfs_ahead _ _ _ _ _ Hb); [exact Hw|exact Hu|exists x, k].
    + eapply (bfs_children _ _ _ _ _ Hb _ b child Hw); [by left|]. by exists (x :: k).
  - intros w b' t [->|Hw]%elem_of_cons Hin Hp.
    + destruct Hp as [k Hk]. rewrite <-app_assoc in Hk. apply app_inv_head in Hk. injection Hk as -> _.
      by eapply Hbytes.
    + eapply (bfs_children _ _ _ _ _ Hb _ b' t Hw); [by right|done].
Qed.

Definition queue_of (Q : list (list Z)) (queue : list nat) : Prop := Forall2 (λ w n, path base w = Some n) Q queue.

Lemma link_children_ok q s cs : ∀ nodes Q L queue,
  bfs nodes Q L q cs → Forall (λ u, length q ≤ length u) Q → sorted cs → q ∈ L → q ∉ Q →
  path base q = Some s → (∀ b t, (b, t) ∈ cs → path base (q ++ [b]) = Some t) → queue_of Q queue →
  ∃ nodes' queue' C L', link_children nodes s cs queue = Some (nodes', queue') ∧
    bfs nodes' (Q ++ C) L' q [] ∧ queue_of (Q ++ C) queue' ∧ Forall (λ w, length w = S (length q)) C ∧
    length L' = length L + length C.
Proof.
  induction cs as [|[b child] cs IH]; intros nodes Q L queue Hb HQ Hsort Hq HqQ Hs Hcs Hqueue; cbn [link_children].
  { exists nodes, queue, [], L. rewrite app_nil_r. split_and!; try done; cbn; lia. }
  assert (Hchild : path base (q ++ [b]) = Some child) by (apply Hcs; by left).
  destruct (lookup_lt_is_Some_2 nodes s) as [n Hn].
  { rewrite (same_next_length _ (bfs_same _ _ _ _ _ Hb)). by apply (trie_range _ _ _ Ht q). }
  destruct (link_target _ _ _ _ _ _ _ _ _ Hb HQ Hq Hs Hn Hchild) as (target & t & c & Hfb & Ht' & Hc & Hsame & Hlink).
  rewrite Hn. cbn [mbind option_bind]. rewrite Hfb. cbn [mbind option_bind]. rewrite Ht'. cbn [mbind option_bind].
  rewrite Hc. cbn [mbind option_bind].
  pose proof (link_child_ok _ _ _ _ _ _ _ c target (n_end c || n_end t) Hb Hsort Hq HqQ Hchild Hsame Hlink) as Hb'.
  destruct (IH _ _ _ (queue ++ [child]) Hb') as (nodes' & queue' & C & L' & Heq & Hbfs & Hqo & Hlen & HL); try done.
  - apply Forall_app. split; [done|]. apply Forall_singleton. rewrite length_app. lia.
  - by inversion Hsort.
  - by right.
  - intros [?|Hin%list_elem_of_singleton]%elem_of_app; [done|]. apply (f_equal length) in Hin.
    rewrite length_app in Hin. cbn in Hin. lia.
  - intros b' t' Hin. apply Hcs. by right.
  - apply Forall2_app; [done|]. by repeat constructor.
  - rewrite <-app_assoc in *. exists nodes', queue', ([q ++ [b]] ++ C), L'. split_and!; try done.
    + constructor; [rewrite length_app; cbn; lia|done].
    + rewrite HL. cbn. lia.
Qed.

(** The queue holds one level and then a part of the next. *)
Definition levels (Q : list (list Z)) : Prop :=
  ∃ d Q1 Q2, Q = Q1 ++ Q2 ∧ Forall (λ w, length w = d) Q1 ∧ Forall (λ w, length w = S d) Q2.

Lemma levels_pop q Q C : levels (q :: Q) → Forall (λ w, length w = S (length q)) C →
  levels (Q ++ C) ∧ Forall (λ u, length q ≤ length u) Q.
Proof.
  intros (d & Q1 & Q2 & Heq & H1 & H2) HC. destruct Q1 as [|q' Q1]; cbn in Heq.
  - subst Q2. apply Forall_cons in H2 as [Hq H2]. split.
    + exists (S d), Q, C. rewrite Hq in HC. done.
    + eapply Forall_impl; [done|]. cbn. lia.
  - injection Heq as <- ->. apply Forall_cons in H1 as [Hq H1]. split.
    + exists d, Q1, (Q2 ++ C). rewrite <-app_assoc. split_and!; [done|done|]. apply Forall_app. by rewrite Hq in HC.
    + apply Forall_app. split; (eapply Forall_impl; [done|]); cbn; lia.
Qed.

(** Taking a word off the queue leaves its children to link. *)
Lemma bfs_pop nodes q Q L q0 s n :
  bfs nodes (q :: Q) L q0 [] → path base q = Some s → nodes !! s = Some n →
  bfs nodes Q L q (n_next n) ∧ ∀ b t, (b, t) ∈ n_next n → path base (q ++ [b]) = Some t.
Proof.
  intros Hb Hs Hn. pose proof (bfs_same _ _ _ _ _ Hb) as Hsame.
  assert (Hsort : sorted (n_next n)).
  { pose proof (same_next_sorted _ Hsame) as Hf. rewrite Forall_lookup in Hf. eauto. }
  assert (Hnext : ∀ b, path base (q ++ [b]) = next_of b (n_next n)).
  { intros b. rewrite path_snoc, Hs. cbn. rewrite <-(same_next_goto nodes) by done. unfold goto. by rewrite Hn. }
  split; [|intros b t Hin; rewrite Hnext; by apply next_of_elem].
  destruct Hb as [_ Hroot Hnd Hndq Hqd Hlk Hun Hcov Hah Hch]. apply NoDup_cons in Hndq as [_ Hndq].
  split; try done.
  - intros w Hw. apply Hqd. by right.
  - intros w Hd Hne. destruct (Hcov w Hd Hne) as [?|[(u & [->|Hu]%elem_of_cons & Hst)|(? & ? & []%not_elem_of_nil & _)]].
    + by left.
    + right. right. destruct Hst as (b & k & ->).
      destruct (path_word (q ++ [b])) as [t Hbt].
      { apply (trie_words _ _ _ Ht), (path_prefix base (q ++ [b]) k). rewrite <-app_assoc.
        by apply (trie_words _ _ _ Ht). }
      exists b, t. split; [apply next_of_elem; [done|]; by rewrite <-Hnext|]. exists k. by rewrite <-app_assoc.
    + right. left. eauto.
  - intros w u Hw Hu. apply Hah; [done|by right].
  - intros w b t Hw _ [k Hk]. apply (Hah w q Hw); [by left|]. exists b, k. by rewrite Hk, <-app_assoc.
Qed.

Lemma link_loop_ok fuel : ∀ nodes Q L queue q0,
  bfs nodes Q L q0 [] → levels Q → queue_of Q queue → length base + length Q ≤ fuel + length L + 1 →
  ∃ nodes' L' q', link_loop fuel nodes queue = Some nodes' ∧ bfs nodes' [] L' q' [].
Proof.
  induction fuel as [|fuel IH]; intros nodes Q L queue q0 Hb Hlev Hqueue Hfuel;
    inversion Hqueue as [|q s Q' queue' Hs Hqueue']; subst; cbn [link_loop]; try (by exists nodes, L, q0).
  all: assert (HL : S (length L) ≤ length base) by
    (apply (trie_count base D E ([] :: L) Ht);
     [constructor; [intros Hin; by destruct (bfs_linked _ _ _ _ _ Hb [] Hin) as (_ & ? & _)|apply (bfs_nodup _ _ _ _ _ Hb)]
     |constructor; [apply root_word|]; apply Forall_forall; intros w Hw; apply (bfs_linked _ _ _ _ _ Hb w Hw)]).
  { cbn in Hfuel. lia. }
  destruct (lookup_lt_is_Some_2 nodes s) as [n Hn].
  { rewrite (same_next_length _ (bfs_same _ _ _ _ _ Hb)). by apply (trie_range _ _ _ Ht q). }
  rewrite Hn. cbn [mbind option_bind].
  destruct (bfs_pop _ _ _ _ _ _ _ Hb Hs Hn) as [Hb' Hchildren].
  destruct (levels_pop q Q' [] Hlev) as [_ HQ]; [done|].
  destruct (link_children_ok q s (n_next n) nodes Q' L queue' Hb' HQ) as (nodes1 & queue1 & C & L1 & -> & Hb1 & Hq1 & HC & HL1);
    try done.
  - pose proof (same_next_sorted _ (bfs_same _ _ _ _ _ Hb)) as Hf. rewrite Forall_lookup in Hf. eauto.
  - apply (bfs_queued _ _ _ _ _ Hb). by left.
  - pose proof (bfs_nodup_queue _ _ _ _ _ Hb) as Hnd. by apply NoDup_cons in Hnd as [? _].
  - cbn [mbind option_bind]. apply (IH nodes1 (Q' ++ C) L1 queue1 q); [done| |done|].
    + apply (levels_pop q Q' C Hlev HC).
    + rewrite length_app. cbn in Hfuel. lia.
Qed.

(** The first level: the children of the root fall back to it. *)
Lemma bfs_start root :
  base !! 0 = Some root → bfs base (map (λ c, [c.1]) (n_next root)) (map (λ c, [c.1]) (n_next root)) [] [].
Proof.
  intros Hroot.
  assert (Hsort : sorted (n_next root)).
  { pose proof (trie_sorted _ _ _ Ht) as Hf. rewrite Forall_lookup in Hf. eauto. }
  assert (Hone : ∀ b, path base [b] = next_of b (n_next root)).
  { intros b. rewrite <-(app_nil_l [b]), path_snoc. cbn. unfold goto. by rewrite Hroot. }
  assert (Hin : ∀ w, w ∈ map (λ c : Z * nat, [c.1]) (n_next root) ↔ ∃ b, w = [b] ∧ D [b]).
  { intros w. rewrite list_elem_of_fmap. split.
    - intros ([b t] & -> & Hbt). exists b. split; [done|]. apply (trie_words _ _ _ Ht). rewrite Hone.
      exists t. by apply next_of_elem.
    - intros (b & -> & [t Hbt]%(trie_words _ _ _ Ht)). exists (b, t). split; [done|]. rewrite Hone in Hbt.
      by apply next_of_elem. }
  assert (Hnd : NoDup (map (λ c : Z * nat, [c.1]) (n_next root))).
  { clear -Hsort. induction Hsort as [|[b t] next Hs IH Hall]; cbn; constructor; [|done].
    intros ([b' t'] & [= ->] & Hin)%list_elem_of_fmap. rewrite Forall_forall in Hall. specialize (Hall _ Hin).
    cbn in Hall. lia. }
  split; try done.
  - intros nd Hnd'. by apply (trie_end _ _ _ Ht [] 0).
  - intros w (b & -> & Hd)%Hin. split_and!; [done|done|]. destruct (path_word [b] Hd) as [n Hn].
    pose proof (trie_range _ _ _ Ht _ _ Hn) as Hl. apply lookup_lt_is_Some_2 in Hl as [nd Hnd'].
    exists n, nd, []. split_and!; [done|done| | |].
    + split_and!; [done|apply root_word|]. by intros u ->%suffix_nil_inv.
    + by rewrite (trie_fail _ _ _ Ht _ _ Hnd').
    + intros Hemp. rewrite (trie_end _ _ _ Ht _ _ _ Hn Hnd'). split; [by exists [b]|].
      intros (k & Hk & [[|x y] Hx]); [cbn in Hx; by subst|]. injection Hx as _ Hx. symmetry in Hx.
      by apply app_eq_nil in Hx as [_ ->].
  - intros w Hd Hne. destruct w as [|b k]; [done|].
    assert (Hdb : D [b]).
    { apply (trie_words _ _ _ Ht), (path_prefix base [b] k). by apply (trie_words _ _ _ Ht). }
    destruct k as [|c k]; [left; apply Hin; eauto|]. right. left. exists [b].
    split; [apply Hin; eauto|]. by exists c, k.
  - intros w u (b & -> & _)%Hin (b' & -> & _)%Hin (c & k & Heq). done.
  - by intros w b t _ ?%not_elem_of_nil.
Qed.

(** All fallbacks and marks are right. *)
Definition automaton_ok (nodes : list Node) : Prop :=
  same_next nodes ∧ (∀ nd, nodes !! 0 = Some nd → n_end nd = true ↔ E []) ∧
  ∀ v, D v → v ≠ [] → linked nodes v.

Lemma link_ok : ∃ nodes, link base = Some nodes ∧ automaton_ok nodes.
Proof.
  unfold link. destruct (lookup_lt_is_Some_2 base 0 (trie_root _ _ _ Ht)) as [root Hroot]. rewrite Hroot.
  cbn [mbind option_bind]. pose proof (bfs_start root Hroot) as Hb.
  set (Q := map (λ c : Z * nat, [c.1]) (n_next root)) in *.
  destruct (link_loop_ok (length base) base Q Q (map snd (n_next root)) [] Hb) as (nodes & L & q & Heq & Hb').
  - exists 1, Q, []. rewrite app_nil_r. split_and!; [done| |done]. by apply Forall_map, Forall_true.
  - unfold queue_of, Q. apply Forall2_fmap. apply Forall_Forall2_diag, Forall_forall. intros [b t] Hin. cbn [fst snd].
    rewrite <-(app_nil_l [b]), path_snoc. cbn. unfold goto. rewrite Hroot. cbn. apply next_of_elem; [|done].
    pose proof (trie_sorted _ _ _ Ht) as Hf. rewrite Forall_lookup in Hf. eauto.
  - lia.
  - exists nodes. split; [done|]. split_and!; [apply Hb'|apply Hb'|]. intros v Hd Hne.
    destruct (bfs_cover _ _ _ _ _ Hb' v Hd Hne) as [Hin|[(u & []%not_elem_of_nil & _)|(? & ? & []%not_elem_of_nil & _)]].
    by apply (bfs_linked _ _ _ _ _ Hb').
Qed.

Lemma found_loop_ok nodes text : automaton_ok nodes → ¬ E [] → ∀ s u n,
  path base u = Some n → longest_word s u →
  ∃ b, found_loop nodes n text = Some b ∧
    (b = true ↔ ∃ pre post k, text = pre ++ post ∧ pre ≠ [] ∧ E k ∧ k `suffix_of` s ++ pre).
Proof.
  intros (Hsame & Hroot & Hlinked) Hemp. induction text as [|c text IH]; intros s u n Hu (Hus & Hdu & Hmax);
    cbn [found_loop].
  { exists false. split; [done|]. split; [done|]. intros (pre & post & k & Heq & Hne & _). by destruct pre. }
  destruct (fallback_spec nodes s c (length nodes) u n) as (r & m & -> & Hr & Hlong); try done.
  { intros v Hv Hd. apply Hmax; [done|]. by apply word_prefix in Hd. }
  { intros v Hd Hne _. by apply Hlinked. }
  { rewrite (same_next_length _ Hsame). pose proof (trie_depth _ _ _ _ Ht Hdu). lia. }
  cbn [mbind option_bind].
  destruct (lookup_lt_is_Some_2 nodes m) as [nd Hnd].
  { rewrite (same_next_length _ Hsame). by apply (trie_range _ _ _ Ht r). }
  rewrite Hnd. cbn [mbind option_bind].
  assert (Hmark : n_end nd = true ↔ ∃ k, E k ∧ k `suffix_of` s ++ [c]).
  { transitivity (∃ k, E k ∧ k `suffix_of` r).
    - destruct (decide (r = [])) as [->|Hne].
      + injection Hr as <-. rewrite (Hroot _ Hnd). split; [done|]. by intros (k & Hk & ->%suffix_nil_inv).
      + destruct (Hlinked r) as (m' & nd' & v & Hm & Hnd' & _ & _ & Hend); [apply Hlong|done|].
        rewrite Hr in Hm. injection Hm as <-. rewrite Hnd in Hnd'. injection Hnd' as <-. by apply Hend.
    - destruct Hlong as (Hrs & _ & Hrmax). split; intros (k & Hk & Hks); exists k; (split; [done|]).
      + by transitivity r.
      + apply (suffix_of_both _ _ (s ++ [c])); [done|done|]. apply Hrmax; [done|]. by apply (trie_marked _ _ _ Ht). }
  destruct (n_end nd) eqn:Hend.
  - exists true. split; [done|]. split; [|done]. intros _. destruct (proj1 Hmark eq_refl) as (k & Hk & Hks).
    by exists [c], text, k.
  - destruct (IH (s ++ [c]) r m Hr Hlong) as (b & -> & Hb). exists b. split; [done|]. rewrite Hb. split.
    + intros (pre & post & k & -> & Hne & Hk & Hks). rewrite <-app_assoc in Hks. by exists (c :: pre), post, k.
    + intros (pre & post & k & Heq & Hne & Hk & Hks). destruct pre as [|c' [|d pre]]; [done| |].
      * injection Heq as <- <-. exfalso. assert (false = true) by (apply Hmark; eauto). done.
      * injection Heq as <- Heq. exists (d :: pre), post, k. by rewrite <-app_assoc.
Qed.

End Linking.

Lemma build_folded_ok keys :
  ∃ nodes, build_folded keys = Some nodes ∧
    ([] ∉ keys → ∀ text, ∃ b, found_loop nodes 0 text = Some b ∧ (b = true ↔ ∃ key, key ∈ keys ∧ occurs key text)).
Proof.
  unfold build_folded. destruct (add_keys_ok keys _ _ _ trie_empty) as (base & -> & Ht). cbn [mbind option_bind].
  destruct (link_ok base _ _ Ht) as (nodes & -> & Hok). exists nodes. split; [done|]. intros Hne text.
  destruct (found_loop_ok base _ _ Ht nodes text Hok) with (s := @nil Z) (u := @nil Z) (n := 0) as (b & -> & Hb); [|done| |].
  - by intros [?|?].
  - split_and!; [done|by left|]. by intros u ->%suffix_nil_inv.
  - exists b. split; [done|]. rewrite Hb. split.
    + intros (pre & post & k & -> & _ & [[]|Hk] & [x Hx]). exists k. split; [done|].
      cbn in Hx. subst pre. exists x, post. by rewrite <-app_assoc.
    + intros (k & Hk & pre & post & ->). exists (pre ++ k), post, k. split_and!; [by rewrite <-app_assoc| |by right|].
      * intros [_ ->]%app_eq_nil. done.
      * by exists pre.
Qed.

Definition folded (fold : bool) (text : list Z) : list Z := map (fold_byte fold) (as_bytes text).

Lemma as_bytes_empty s : as_bytes s = [] → s = [].
Proof.
  destruct s as [|c s]; [done|]. unfold as_bytes. cbn. unfold encode_utf8. by repeat case_match.
Qed.

(** C34: The automaton for a list of keys is always built, and when no key is
    empty one pass of it over a text answers exactly whether some key occurs
    in the text, with ASCII case ignored or not as asked. *)
Theorem key_set_correct (keys : list (list Z)) (fold : bool) (text : list Z) :
  ∃ nodes, build keys fold = Some nodes ∧
    ([] ∉ keys → ∃ b, found_in nodes fold text = Some b ∧
       (b = true ↔ ∃ key, key ∈ keys ∧ occurs (folded fold key) (folded fold text))).
Proof.
  unfold build. destruct (build_folded_ok (map (folded fold) keys)) as (nodes & Hbuild & Hfound).
  exists nodes. split; [done|]. intros Hne. destruct (Hfound) with (text := folded fold text) as (b & Hb & Hiff).
  - intros (key & Heq & Hin)%list_elem_of_fmap. apply Hne. symmetry in Heq. apply map_eq_nil in Heq.
    by apply as_bytes_empty in Heq as ->.
  - exists b. split; [done|]. rewrite Hiff. split.
    + intros (k & (key & -> & Hin)%list_elem_of_fmap & Ho). eauto.
    + intros (key & Hin & Ho). exists (folded fold key). split; [by apply list_elem_of_fmap; eauto|done].
Qed.
