(* ===== verification/SieveMessage.v ===== *)
(** The message a Sieve script looks at (src/src/sieve/message/mod.rs): the
    headers it reads, unfolded and within their limits, an index of their
    names, and a window of the body. *)

From stdpp Require Import gmap.
From S2P Require Import Prelude RustStd Utf8 Slices HeaderBlock SieveMatch SieveEnv.

Local Open Scope Z_scope.

Definition MAX_NAME : Z := 998.
Definition QUESTION : Z := 63.

(** Text from octets, a [?] for each octet of a character that is not
    completed and each other stray octet. *)
Fixpoint decode (l : list Z) : list Z :=
  match l with
  | [] => []
  | b0 :: r0 =>
      if in_range 0 0x7F b0 then b0 :: decode r0
      else if in_range 0xC2 0xDF b0 then
        match r0 with
        | b1 :: r1 => if is_cont b1 then char2 b0 b1 :: decode r1 else QUESTION :: decode r0
        | [] => [QUESTION]
        end
      else if in_range 0xE0 0xEF b0 then
        match r0 with
        | b1 :: r1 =>
            if second_of_three b0 b1 then
              match r1 with
              | b2 :: r2 =>
                  if is_cont b2 then char3 b0 b1 b2 :: decode r2 else QUESTION :: QUESTION :: decode r1
              | [] => [QUESTION; QUESTION]
              end
            else QUESTION :: decode r0
        | [] => [QUESTION]
        end
      else if in_range 0xF0 0xF4 b0 then
        match r0 with
        | b1 :: r1 =>
            if second_of_four b0 b1 then
              match r1 with
              | b2 :: r2 =>
                  if is_cont b2 then
                    match r2 with
                    | b3 :: r3 =>
                        if is_cont b3 then char4 b0 b1 b2 b3 :: decode r3
                        else QUESTION :: QUESTION :: QUESTION :: decode r2
                    | [] => [QUESTION; QUESTION; QUESTION]
                    end
                  else QUESTION :: QUESTION :: decode r1
              | [] => [QUESTION; QUESTION]
              end
            else QUESTION :: decode r0
        | [] => [QUESTION]
        end
      else QUESTION :: decode r0
  end.

(** ** A header being read *)

Record Field := mkField { f_name : list Z; f_value : list Z; f_blank : bool }.

Definition is_space_or_tab (c : Z) : bool := (c =? 32) || (c =? 9).

Definition named (name : list Z) : Field := mkField (trim_end_matches is_space_or_tab (decode name)) [] false.

(** The characters of one piece of a line; [true] when the value is full. *)
Fixpoint feed_loop (cs : list Z) (value : list Z) (blank : bool) : bool * list Z * bool :=
  match cs with
  | [] => (false, value, blank)
  | c :: cs =>
      if is_whitespace c then feed_loop cs value (negb (is_empty value))
      else
        let room := Z.of_nat (len_utf8 c) + (if blank then 1 else 0) in
        if HEADER_NAME_WINDOW <? octets value + room then (true, value, blank)
        else feed_loop cs (value ++ (if blank then [32] else []) ++ [c]) false
  end.

Definition feed (field : Field) (text : list Z) : bool * Field :=
  let '(full, value, blank) := feed_loop (decode text) (f_value field) (f_blank field) in
  (full, mkField (f_name field) value blank).

Definition push_into (field : Field) (headers : list (list Z * list Z)) : list (list Z * list Z) :=
  headers ++ [(f_name field, f_value field)].

Definition push_current (current : option Field) (headers : list (list Z * list Z)) : list (list Z * list Z) :=
  match current with Some field => push_into field headers | None => headers end.

(** ** The headers *)

Record Reading := mkReading {
  r_headers : list (list Z * list Z);
  r_headers_cut : bool;
  r_values_cut : bool
}.

(** The loop of [parse] over the lines of the block. *)
Fixpoint read_headers (lines : list (list Z)) (headers : list (list Z * list Z)) (values_cut : bool)
    (current : option Field) : Reading :=
  match lines with
  | [] => mkReading (push_current current headers) false values_cut
  | line :: lines =>
      if negb (begins_field line) then
        match current with
        | Some field =>
            let '(full, field) := feed field line in
            read_headers lines headers (values_cut || full) (Some field)
        | None => read_headers lines headers values_cut None
        end
      else
        let headers := push_current current headers in
        if MAX_HEADERS <=? Z.of_nat (length headers) then mkReading headers true values_cut
        else
          let head := take (Z.to_nat (Z.min (Z.of_nat (length line)) (MAX_NAME + 1))) line in
          match position (λ b, b =? 58) head with
          | Some colon =>
              let '(full, field) := feed (named (take colon line)) (drop (colon + 1) line) in
              read_headers lines headers (values_cut || full) (Some field)
          | None => read_headers lines headers (values_cut || (MAX_NAME <? Z.of_nat (length line))) None
          end
  end.

(** The index: where each name in lower case occurs. *)
Fixpoint index_headers (position : nat) (headers : list (list Z * list Z)) (index : gmap (list Z) (list nat))
    : gmap (list Z) (list nat) :=
  match headers with
  | [] => index
  | (name, _) :: headers =>
      let key := to_ascii_lowercase name in
      index_headers (S position) headers (<[key := default [] (index !! key) ++ [position]]> index)
  end.

(** ** The message *)

Record Message := mkMessage {
  m_headers : list (list Z * list Z);
  m_index : gmap (list Z) (list nat);
  m_headers_cut : bool;
  m_values_cut : bool;
  m_size : Z;
  m_body : list Z;
  m_body_cut : bool;
  m_envelope_from : option (list Z);
  m_envelope_to : list (list Z);
  m_now : option Z;
  m_mailboxes : option (list (list Z))
}.

Definition parse (raw : list Z) : Message :=
  let '(block, whole_body) := split_block raw in
  let kept := take (Z.to_nat (Z.min (Z.of_nat (length whole_body)) (BODY_WINDOW + 4))) whole_body in
  let reading := read_headers (header_lines block) [] false None in
  {| m_headers := r_headers reading;
     m_index := index_headers 0 (r_headers reading) ∅;
     m_headers_cut := r_headers_cut reading;
     m_values_cut := r_values_cut reading;
     m_size := Z.of_nat (length raw);
     m_body := from_utf8_lossy kept;
     m_body_cut := (length kept <? length whole_body)%nat;
     m_envelope_from := None;
     m_envelope_to := [];
     m_now := None;
     m_mailboxes := None |}.

Definition with_envelope (from : list Z) (to : list (list Z)) (m : Message) : Message :=
  {| m_headers := m_headers m; m_index := m_index m; m_headers_cut := m_headers_cut m;
     m_values_cut := m_values_cut m; m_size := m_size m; m_body := m_body m; m_body_cut := m_body_cut m;
     m_envelope_from := Some from; m_envelope_to := to; m_now := m_now m; m_mailboxes := m_mailboxes m |}.

Definition with_now (now : Z) (m : Message) : Message :=
  {| m_headers := m_headers m; m_index := m_index m; m_headers_cut := m_headers_cut m;
     m_values_cut := m_values_cut m; m_size := m_size m; m_body := m_body m; m_body_cut := m_body_cut m;
     m_envelope_from := m_envelope_from m; m_envelope_to := m_envelope_to m; m_now := Some now;
     m_mailboxes := m_mailboxes m |}.

(** [slice::sort] of strings, by their octets. *)
Fixpoint insert_sorted (x : list Z) (l : list (list Z)) : list (list Z) :=
  match l with
  | [] => [x]
  | y :: l => match lex_compare (as_bytes x) (as_bytes y) with Gt => y :: insert_sorted x l | _ => x :: y :: l end
  end.

Definition sort_strings (l : list (list Z)) : list (list Z) := foldr insert_sorted [] l.

Definition with_mailboxes (mailboxes : list (list Z)) (m : Message) : Message :=
  {| m_headers := m_headers m; m_index := m_index m; m_headers_cut := m_headers_cut m;
     m_values_cut := m_values_cut m; m_size := m_size m; m_body := m_body m; m_body_cut := m_body_cut m;
     m_envelope_from := m_envelope_from m; m_envelope_to := m_envelope_to m; m_now := m_now m;
     m_mailboxes := Some (sort_strings mailboxes) |}.

(** The index is looked up in lower case either way. *)
Definition positions (m : Message) (name : list Z) : list nat :=
  default [] (if existsb is_ascii_uppercase (as_bytes name) then m_index m !! to_ascii_lowercase name
              else m_index m !! name).

Definition has_header (m : Message) (name : list Z) : bool := negb (bool_decide (positions m name = [])).

Definition window (text : list Z) (limit : Z) : list Z :=
  floor_boundary (Z.to_nat (Z.min (octets text) limit)) text.

(** ** What a lookup sees *)

Record Visible := mkVisible {
  v_values : list (list Z);
  v_count : Z;
  v_truncated : bool;
  v_headers_cut : bool
}.

(** The values of one name: those read so far, and whether any was cut;
    [None] is an index out of range. *)
Fixpoint show_values (m : Message) (positions : list nat) (taken room : Z) (values : list (list Z)) (truncated : bool)
    : option (list (list Z) * bool) :=
  match positions with
  | [] => Some (values, truncated)
  | position :: positions =>
      if (HEADER_NAME_VALUES <=? taken) || (room =? 0) then Some (values, true)
      else
        header ← m_headers m !! position;
        let value := snd header in
        let shown := window value room in
        left ← usize_sub room (octets shown);
        show_values m positions (taken + 1) left (values ++ [shown]) (truncated || (octets shown <? octets value))
  end.

Fixpoint show_names (m : Message) (n : Z) (names : list (list Z)) (seen : Visible) : option Visible :=
  match names with
  | [] => Some seen
  | name :: names =>
      let found := positions m name in
      let count := v_count seen + Z.of_nat (length found) in
      if HEADER_NAMES_PER_LOOKUP <=? n then
        show_names m (n + 1) names
          (mkVisible (v_values seen) count (v_truncated seen || negb (bool_decide (found = []))) (v_headers_cut seen))
      else
        '(values, truncated) ← show_values m found 0 HEADER_NAME_WINDOW (v_values seen) (v_truncated seen);
        show_names m (n + 1) names (mkVisible values count truncated (v_headers_cut seen))
  end.

Definition visible_headers (m : Message) (names : list (list Z)) : option Visible :=
  show_names m 0 names (mkVisible [] 0 (m_headers_cut m || m_values_cut m) (m_headers_cut m)).

Definition body_window (m : Message) : list Z * bool :=
  let shown := window (m_body m) BODY_WINDOW in
  (shown, m_body_cut m || (octets shown <? octets (m_body m))).

(** ** What is kept of a header *)

Definition word (w : list Z) : Prop := w ≠ [] ∧ Forall (λ c, is_whitespace c = false) w.

(** Words with one space between them and none at the ends. *)
Definition spaced (v : list Z) : Prop := ∃ ws, v = join 32 ws ∧ Forall word ws.

Lemma join_snoc c ws w : ws ≠ [] → join c (ws ++ [w]) = join c ws ++ c :: w.
Proof.
  induction ws as [|p ws IH]; [done|]. intros _. destruct ws as [|q ws]; [done|].
  change (join c ((p :: q :: ws) ++ [w])) with (p ++ c :: join c ((q :: ws) ++ [w])).
  rewrite IH by done. change (join c (p :: q :: ws)) with (p ++ c :: join c (q :: ws)).
  rewrite <-app_assoc. done.
Qed.

Lemma join_snoc_extend c ws w x : join c (ws ++ [w ++ [x]]) = join c (ws ++ [w]) ++ [x].
Proof.
  destruct ws as [|p ws]; [done|]. rewrite !join_snoc by done. by rewrite <-app_assoc.
Qed.

Lemma spaced_blank v c : spaced v → v ≠ [] → is_whitespace c = false → spaced (v ++ [32] ++ [c]).
Proof.
  intros (ws & -> & Hws) Hne Hc. exists (ws ++ [[c]]). rewrite join_snoc by (by intros ->). split; [done|].
  apply Forall_app. split; [done|]. repeat constructor; auto.
Qed.

Lemma spaced_char v c : spaced v → is_whitespace c = false → spaced (v ++ [c]).
Proof.
  intros (ws & -> & Hws) Hc. destruct ws as [|w ws _] using rev_ind.
  - exists [[c]]. split; [done|]. repeat constructor; auto.
  - exists (ws ++ [w ++ [c]]). rewrite join_snoc_extend. split; [done|].
    apply Forall_app in Hws as [Hws [[Hw Hww] _]%Forall_cons]. apply Forall_app. split; [done|].
    constructor; [|done]. split; [by destruct w|]. apply Forall_app. auto.
Qed.

Definition value_ok (v : list Z) : Prop := spaced v ∧ octets v ≤ HEADER_NAME_WINDOW.

Definition field_ok (f : Field) : Prop := value_ok (f_value f) ∧ (f_blank f = true → f_value f ≠ []).

Lemma str_octets_cons c s : octets (c :: s) = Z.of_nat (len_utf8 c) + octets s.
Proof. unfold octets, str_len. cbn. lia. Qed.

Lemma feed_loop_ok cs : ∀ value blank full value' blank',
  value_ok value → (blank = true → value ≠ []) → feed_loop cs value blank = (full, value', blank') →
  value_ok value' ∧ (blank' = true → value' ≠ []).
Proof.
  induction cs as [|c cs IH]; intros value blank full value' blank' Hv Hb; cbn [feed_loop].
  { intros [= <- <- <-]. done. }
  destruct (is_whitespace c) eqn:Hc.
  { apply IH; [done|]. by destruct value. }
  destruct (Z.ltb_spec HEADER_NAME_WINDOW (octets value + (Z.of_nat (len_utf8 c) + (if blank then 1 else 0))))
    as [|Hroom]; [intros [= <- <- <-]; done|].
  apply IH; [|done]. destruct Hv as [Hsp Hlen]. split.
  - destruct blank; [apply spaced_blank|apply spaced_char]; auto.
  - destruct blank; cbn [app]; rewrite octets_app, !str_octets_cons; cbn in *; unfold octets in *; cbn in *; lia.
Qed.

Lemma named_ok name : field_ok (named name).
Proof. repeat split; [|done|done]. by exists []. Qed.

Lemma feed_ok f text : field_ok f → field_ok (feed f text).2.
Proof.
  intros [Hv Hb]. unfold feed. destruct (feed_loop _ _ _) as [[full value] blank] eqn:E.
  by apply feed_loop_ok in E.
Qed.

Definition headers_ok (headers : list (list Z * list Z)) : Prop := Forall (λ h, value_ok h.2) headers.

Lemma push_current_ok current headers :
  headers_ok headers → (∀ f, current = Some f → field_ok f) → headers_ok (push_current current headers).
Proof.
  intros Hh Hc. destruct current as [f|]; [|done]. apply Forall_app. split; [done|]. constructor; [|done].
  by apply (Hc f).
Qed.

Lemma push_current_length current (headers : list (list Z * list Z)) :
  Z.of_nat (length (push_current current headers)) = Z.of_nat (length headers) + (if current then 1 else 0).
Proof. destruct current; unfold push_current, push_into; rewrite ?length_app; cbn [length]; lia. Qed.

Lemma read_headers_ok lines : ∀ headers values_cut current,
  headers_ok headers → (∀ f, current = Some f → field_ok f) →
  Z.of_nat (length headers) + (if current then 1 else 0) ≤ MAX_HEADERS →
  headers_ok (r_headers (read_headers lines headers values_cut current)) ∧
  Z.of_nat (length (r_headers (read_headers lines headers values_cut current))) ≤ MAX_HEADERS.
Proof.
  induction lines as [|line lines IH]; intros headers values_cut current Hh Hc Hl; cbn [read_headers].
  { cbn. split; [by apply push_current_ok|]. by rewrite push_current_length. }
  assert (Hpush : headers_ok (push_current current headers)) by (by apply push_current_ok).
  assert (Hplen : Z.of_nat (length (push_current current headers)) ≤ MAX_HEADERS)
    by (by rewrite push_current_length).
  destruct (negb (begins_field line)).
  - destruct current as [f|]; [|by apply IH].
    pose proof (feed_ok f line (Hc f eq_refl)) as Hf. destruct (feed f line) as [full f']. apply IH; [done| |done].
    by intros ? [= <-].
  - destruct (Z.leb_spec MAX_HEADERS (Z.of_nat (length (push_current current headers)))) as [|Hlt]; [done|].
    destruct (position _ _) as [colon|]; [|apply IH; [done|done|lia]].
    pose proof (feed_ok (named (take colon line)) (drop (colon + 1) line) (named_ok _)) as Hf.
    destruct (feed _ _) as [full f']. apply IH; [done| |lia]. by intros ? [= <-].
Qed.

(** ** The index *)

(** Where a name occurs, ignoring case. *)
Fixpoint occurrences (i : nat) (headers : list (list Z * list Z)) (key : list Z) : list nat :=
  match headers with
  | [] => []
  | (name, _) :: headers =>
      (if bool_decide (to_ascii_lowercase name = key) then [i] else []) ++ occurrences (S i) headers key
  end.

Lemma index_headers_spec headers key : ∀ i index,
  default [] (index_headers i headers index !! key) = default [] (index !! key) ++ occurrences i headers key.
Proof.
  induction headers as [|[name value] headers IH]; intros i index; cbn [index_headers occurrences].
  { by rewrite app_nil_r. }
  rewrite IH. case_bool_decide as Hk.
  - subst key. rewrite lookup_insert_eq. cbn. by rewrite <-app_assoc.
  - by rewrite lookup_insert_ne.
Qed.

Lemma lower_id name : existsb is_ascii_uppercase (as_bytes name) = false → to_ascii_lowercase name = name.
Proof.
  induction name as [|c name IH]; [done|]. unfold as_bytes. cbn [flat_map]. rewrite existsb_app, orb_false_iff.
  intros [Hc Hn]. cbn. f_equal; [|by apply IH]. unfold to_ascii_lowercase_char.
  destruct (is_ascii_uppercase c) eqn:Hu; [|done]. unfold is_ascii_uppercase, in_range in Hu. exfalso.
  unfold encode_utf8 in Hc. destruct (Z.ltb_spec c 0x80); [|lia].
  cbn [existsb] in Hc. unfold is_ascii_uppercase, in_range in Hc. rewrite Hu in Hc. done.
Qed.

(** ** The invariant of a message *)

Record message_ok (m : Message) : Prop := {
  mo_headers : headers_ok (m_headers m);
  mo_count : Z.of_nat (length (m_headers m)) ≤ MAX_HEADERS;
  mo_index key : default [] (m_index m !! key) = occurrences 0 (m_headers m) key
}.

Lemma parse_ok raw : message_ok (parse raw).
Proof.
  unfold parse. destruct (split_block raw) as [block body].
  destruct (read_headers_ok (header_lines block) [] false None) as [Hh Hl]; [by constructor|done|done|].
  split; cbn [m_headers m_index]; [done|done|]. intros key. by rewrite index_headers_spec.
Qed.

Lemma with_envelope_ok from to m : message_ok m → message_ok (with_envelope from to m).
Proof. by intros []. Qed.

Lemma with_mailboxes_ok mailboxes m : message_ok m → message_ok (with_mailboxes mailboxes m).
Proof. by intros []. Qed.

Lemma positions_spec m name :
  message_ok m → positions m name = occurrences 0 (m_headers m) (to_ascii_lowercase name).
Proof.
  intros Hm. unfold positions. destruct (existsb is_ascii_uppercase (as_bytes name)) eqn:Hu.
  - apply (mo_index _ Hm).
  - rewrite (mo_index _ Hm). by rewrite (lower_id name Hu).
Qed.

(** The values of the headers called [name], ignoring case, in order. *)
Definition called (m : Message) (name : list Z) : list (list Z) :=
  map snd (List.filter (λ h, bool_decide (to_ascii_lowercase h.1 = to_ascii_lowercase name)) (m_headers m)).

Definition values_at (headers : list (list Z * list Z)) (ps : list nat) : list (list Z) :=
  map (λ p, default [] (snd <$> headers !! p)) ps.

Lemma occurrences_values key headers : ∀ before,
  values_at (before ++ headers) (occurrences (length before) headers key) =
  map snd (List.filter (λ h, bool_decide (to_ascii_lowercase h.1 = key)) headers).
Proof.
  induction headers as [|[name value] headers IH]; intros before; cbn [occurrences]; [done|].
  replace (before ++ (name, value) :: headers) with ((before ++ [(name, value)]) ++ headers) by (by rewrite <-app_assoc).
  replace (S (length before)) with (length (before ++ [(name, value)])) by (rewrite length_app; cbn; lia).
  unfold values_at in *. rewrite map_app, IH. cbn [List.filter fst]. case_bool_decide; [|done]. cbn. f_equal.
  rewrite <-app_assoc. cbn. by rewrite lookup_app_r, Nat.sub_diag by lia.
Qed.

Lemma occurrences_range key headers : ∀ i, Forall (λ p, (i ≤ p < i + length headers)%nat) (occurrences i headers key).
Proof.
  induction headers as [|[name value] headers IH]; intros i; cbn [occurrences]; [constructor|].
  apply Forall_app. split.
  - case_bool_decide; repeat constructor; cbn; lia.
  - eapply Forall_impl; [apply (IH (S i))|]. cbn. intros. lia.
Qed.

Lemma called_positions m name : message_ok m →
  values_at (m_headers m) (positions m name) = called m name ∧
  Forall (λ p, (p < length (m_headers m))%nat) (positions m name).
Proof.
  intros Hm. rewrite positions_spec by done. split.
  - apply (occurrences_values _ _ []).
  - eapply Forall_impl; [apply occurrences_range|]. cbn. lia.
Qed.

(** ** What a lookup sees *)

Lemma octets_zero s : octets s = 0 → s = [].
Proof. destruct s as [|c s]; [done|]. unfold octets, str_len. cbn. unfold len_utf8. repeat case_match; lia. Qed.

Lemma window_ok text limit : 0 ≤ limit →
  octets (window text limit) ≤ limit ∧ (octets (window text limit) <? octets text = false → window text limit = text).
Proof.
  intros Hl. unfold window. pose proof (octets_nonneg text).
  pose proof (floor_octets (Z.min (octets text) limit) text ltac:(lia)). split; [lia|].
  destruct (floor_boundary_spec (Z.to_nat (Z.min (octets text) limit)) text) as (more & Heq & _).
  set (shown := floor_boundary _ text) in *. intros Hge%Z.ltb_ge. rewrite Heq, octets_app in Hge.
  pose proof (octets_nonneg more). assert (Hm : octets more = 0) by lia. apply octets_zero in Hm as ->.
  by rewrite app_nil_r in Heq.
Qed.

Definition total (values : list (list Z)) : Z := foldr (λ v n, octets v + n) 0 values.

Lemma total_app a b : total (a ++ b) = total a + total b.
Proof. induction a as [|v a IH]; cbn; [done|]. fold (total a) (total (a ++ b)). lia. Qed.

Lemma show_values_ok m ps : Forall (λ p, (p < length (m_headers m))%nat) ps → ∀ taken room values truncated,
  0 ≤ room → 0 ≤ taken ≤ HEADER_NAME_VALUES →
  ∃ shown tr, show_values m ps taken room values truncated = Some (values ++ shown, tr) ∧
    total shown ≤ room ∧ taken + Z.of_nat (length shown) ≤ HEADER_NAME_VALUES ∧
    (tr = false → truncated = false ∧ shown = values_at (m_headers m) ps).
Proof.
  induction 1 as [|p ps Hp Hps IH]; intros taken room values truncated Hroom Htaken; cbn [show_values].
  { exists [], truncated. rewrite app_nil_r. cbn. split_and!; [done|lia|lia|done]. }
  destruct (Z.leb_spec HEADER_NAME_VALUES taken) as [|Hlt]; cbn [orb].
  { exists [], true. rewrite app_nil_r. cbn. split_and!; [done|lia|lia|done]. }
  destruct (Z.eqb_spec room 0) as [->|Hne].
  { exists [], true. rewrite app_nil_r. cbn. split_and!; [done|lia|lia|done]. }
  destruct (lookup_lt_is_Some_2 _ _ Hp) as [[name value] Hh]. rewrite Hh. cbn [mbind option_bind snd].
  destruct (window_ok value room Hroom) as [Hw Hfull]. unfold usize_sub.
  rewrite (proj2 (Z.ltb_ge _ _) Hw). cbn [mbind option_bind].
  destruct (IH (taken + 1) (room - octets (window value room)) (values ++ [window value room])
    (truncated || (octets (window value room) <? octets value))) as (shown & tr & -> & Ht & Hl & Htr); [lia|lia|].
  exists (window value room :: shown), tr. rewrite <-app_assoc. split_and!; [done| | |].
  - cbn. fold (total shown). lia.
  - cbn [length]. lia.
  - intros Hf. destruct (Htr Hf) as [[-> Hno]%orb_false_iff ->]. split; [done|]. cbn. rewrite Hh. cbn.
    by rewrite (Hfull Hno).
Qed.

Lemma show_names_ok m names : message_ok m → ∀ n seen,
  0 ≤ n →
  ∃ shown count tr,
    show_names m n names seen = Some (mkVisible (v_values seen ++ shown) count tr (v_headers_cut seen)) ∧
    count = v_count seen + Z.of_nat (length (concat (map (called m) names))) ∧
    total shown ≤ Z.max 0 (HEADER_NAMES_PER_LOOKUP - n) * HEADER_NAME_WINDOW ∧
    Z.of_nat (length shown) ≤ Z.max 0 (HEADER_NAMES_PER_LOOKUP - n) * HEADER_NAME_VALUES ∧
    (tr = false → v_truncated seen = false ∧ shown = concat (map (called m) names)).
Proof.
  intros Hm. induction names as [|name names IH]; intros n [values count0 tr0 cut0] Hn; cbn [show_names].
  { exists [], count0, tr0. cbn. rewrite app_nil_r.
    unfold HEADER_NAMES_PER_LOOKUP, HEADER_NAME_WINDOW, HEADER_NAME_VALUES. split_and!; [done|lia|lia|lia|done]. }
  destruct (called_positions m name Hm) as [Hcalled Hrange].
  assert (Hlen : length (positions m name) = length (called m name)).
  { rewrite <-Hcalled. unfold values_at. by rewrite length_map. }
  cbn [v_values v_count v_truncated v_headers_cut map concat]. rewrite length_app.
  destruct (Z.leb_spec HEADER_NAMES_PER_LOOKUP n) as [Hge|Hlt].
  - edestruct (IH (n + 1)) as (shown & count & tr & -> & -> & Ht & Hl & Htr); [lia|].
    cbn [v_values v_count v_truncated v_headers_cut] in *. do 3 eexists. split_and!; [done|lia| | |].
    + unfold HEADER_NAMES_PER_LOOKUP, HEADER_NAME_WINDOW in *. lia.
    + unfold HEADER_NAMES_PER_LOOKUP, HEADER_NAME_VALUES in *. lia.
    + intros Hf. destruct (Htr Hf) as [[-> Hpos]%orb_false_iff ->]. split; [done|].
      apply negb_false_iff, bool_decide_eq_true in Hpos. rewrite Hpos in Hcalled. by rewrite <-Hcalled.
  - destruct (show_values_ok m _ Hrange 0 HEADER_NAME_WINDOW values tr0) as (shown1 & tr1 & -> & Ht1 & Hl1 & Htr1);
      [done|done|]. cbn [mbind option_bind].
    edestruct (IH (n + 1)) as (shown & count & tr & -> & -> & Ht & Hl & Htr); [lia|].
    cbn [v_values v_count v_truncated v_headers_cut] in *.
    exists (shown1 ++ shown). do 2 eexists. rewrite <-app_assoc. split_and!; [done|lia| | |].
    + rewrite total_app. unfold HEADER_NAMES_PER_LOOKUP, HEADER_NAME_WINDOW in *. lia.
    + rewrite length_app. unfold HEADER_NAMES_PER_LOOKUP, HEADER_NAME_VALUES in *. lia.
    + intros Hf. destruct (Htr Hf) as [Hf1 ->]. destruct (Htr1 Hf1) as [-> ->]. split; [done|].
      by rewrite Hcalled.
Qed.

(** Whatever the message, a lookup of headers answers from a fixed
    window: at most 1 MiB and 16,000 values. It counts every header of the
    names that was read, and unless it says that it was truncated it shows
    exactly the values of the headers called those names, ignoring case, in
    order, each with its folding undone: words with one space between them. *)
Theorem visible_headers_exact (raw : list Z) (names : list (list Z)) :
  let m := parse raw in
  Forall (λ h, spaced h.2) (m_headers m) ∧
  ∃ seen, visible_headers m names = Some seen ∧
    total (v_values seen) ≤ 1024 * 1024 ∧ Z.of_nat (length (v_values seen)) ≤ 16000 ∧
    v_count seen = Z.of_nat (length (concat (map (called m) names))) ∧
    (v_truncated seen = false → v_headers_cut seen = false ∧ v_values seen = concat (map (called m) names)).
Proof.
  intros m. pose proof (parse_ok raw) as Hm. fold m in Hm. split.
  { eapply Forall_impl; [apply (mo_headers _ Hm)|]. by intros h [? _]. }
  unfold visible_headers.
  destruct (show_names_ok m names Hm 0 (mkVisible [] 0 (m_headers_cut m || m_values_cut m) (m_headers_cut m)))
    as (shown & count & tr & -> & -> & Ht & Hl & Htr); [done|].
  eexists. split; [done|]. cbn [v_values v_count v_truncated v_headers_cut app] in *.
  unfold HEADER_NAMES_PER_LOOKUP, HEADER_NAME_WINDOW, HEADER_NAME_VALUES in *. split_and!; [lia|lia|lia|].
  intros Hf. destruct (Htr Hf) as [[-> _]%orb_false_iff ->]. done.
Qed.
