(* ===== verification/SieveDate.v ===== *)
(** Dates for the Sieve [date] and [currentdate] tests
    (src/src/sieve/date/mod.rs). *)

From S2P Require Import Prelude RustStd SieveLexer.

Local Open Scope Z_scope.

Record Civil := mkCivil {
  c_year : Z; c_month : Z; c_day : Z; c_hour : Z; c_minute : Z; c_second : Z
}.

(** [as u32]. *)
Definition as_u32 (n : Z) : Z := n mod 2 ^ 32.

(** The divisions of the source are of numbers that are not negative, except
    the one it takes care of. *)
Definition civil_from_unix (secs : Z) : Civil :=
  let days := secs / 86400 in
  let sod := secs mod 86400 in
  let z := days + 719468 in
  let era := Z.quot (if 0 <=? z then z else z - 146096) 146097 in
  let doe := z - era * 146097 in
  let yoe := (doe - doe / 1460 + doe / 36524 - doe / 146096) / 365 in
  let doy := doe - (365 * yoe + yoe / 4 - yoe / 100) in
  let mp := (5 * doy + 2) / 153 in
  let day := as_u32 (doy - (153 * mp + 2) / 5 + 1) in
  let month := as_u32 (if mp <? 10 then mp + 3 else mp - 9) in
  let year := as_u32 (yoe + era * 400 + (if month <=? 2 then 1 else 0)) in
  mkCivil year month day (as_u32 (sod / 3600)) (as_u32 (sod mod 3600 / 60)) (as_u32 (sod mod 60)).

(** [format!("{n:0width}")]. *)
Definition padded (width : nat) (n : Z) : list Z :=
  let d := decimal n in replicate (width - length d) 48 ++ d.

Definition format_part (c : Civil) (part : list Z) : option (list Z) :=
  let p := to_ascii_lowercase part in
  if str_eqb p (lit "year") then Some (padded 4 (c_year c))
  else if str_eqb p (lit "month") then Some (padded 2 (c_month c))
  else if str_eqb p (lit "day") then Some (padded 2 (c_day c))
  else if str_eqb p (lit "hour") then Some (padded 2 (c_hour c))
  else if str_eqb p (lit "minute") then Some (padded 2 (c_minute c))
  else if str_eqb p (lit "second") then Some (padded 2 (c_second c))
  else if str_eqb p (lit "date") then
    Some (padded 4 (c_year c) ++ lit "-" ++ padded 2 (c_month c) ++ lit "-" ++ padded 2 (c_day c))
  else if str_eqb p (lit "time") then
    Some (padded 2 (c_hour c) ++ lit ":" ++ padded 2 (c_minute c) ++ lit ":" ++ padded 2 (c_second c))
  else None.

Definition MONTHS : list (list Z) :=
  [lit "jan"; lit "feb"; lit "mar"; lit "apr"; lit "may"; lit "jun";
   lit "jul"; lit "aug"; lit "sep"; lit "oct"; lit "nov"; lit "dec"].

(** [Iterator::position] of a string. *)
Fixpoint index_of (key : list Z) (l : list (list Z)) : option nat :=
  match l with
  | [] => None
  | m :: l => if str_eqb m key then Some O else S <$> index_of key l
  end.

Definition month_number (name : list Z) : option Z :=
  '(head, _) ← split_at_byte 3 name;
  i ← index_of (to_ascii_lowercase head) MONTHS;
  Some (Z.of_nat i + 1).

Definition parse_u32 (s : list Z) : option Z := parse_uint u32_max s.

(** [[Day, ]D Mon YYYY HH:MM:SS [zone]]. *)
Definition parse_date (value : list Z) : option Civil :=
  let tokens := split_whitespace value in
  let tokens := match tokens with t :: rest => if ends_with [44] t then rest else tokens | [] => [] end in
  match tokens with
  | day :: month :: year :: time :: _ =>
      day ← parse_u32 day;
      month ← month_number month;
      year ← parse_u32 year;
      match RustStd.split 58 time with
      | hour :: minute :: more =>
          hour ← parse_u32 hour;
          minute ← parse_u32 minute;
          second ← parse_u32 (match more with s :: _ => s | [] => lit "0" end);
          if (day <=? 31) && (month <=? 12) && (hour <? 24) && (minute <? 60) && (second <? 61)
          then Some (mkCivil year month day hour minute second) else None
      | _ => None
      end
  | _ => None
  end.

Definition extract_part (header_value part : list Z) : option (list Z) :=
  c ← parse_date header_value; format_part c part.

Definition extract_part_from_unix (now : Z) (part : list Z) : option (list Z) :=
  format_part (civil_from_unix now) part.

(** ** The Gregorian calendar *)

Definition leap (y : Z) : bool := ((y mod 4 =? 0) && negb (y mod 100 =? 0)) || (y mod 400 =? 0).

Definition month_days (y m : Z) : Z :=
  if m =? 2 then (if leap y then 29 else 28)
  else if (m =? 4) || (m =? 6) || (m =? 9) || (m =? 11) then 30 else 31.

(** Days of the year before month [m]. *)
Fixpoint days_before (y : Z) (m : nat) : Z :=
  match m with O => 0 | S m => days_before y m + (if (m =? 0)%nat then 0 else month_days y (Z.of_nat m)) end.

(** Days before year [y], of the years from 1 on. *)
Definition year_start (y : Z) : Z := 365 * (y - 1) + (y - 1) / 4 - (y - 1) / 100 + (y - 1) / 400.

(** The number of a date, 1 January of the year 1 being day 1. *)
Definition date_number (y m d : Z) : Z := year_start y + days_before y (Z.to_nat m) + d.

Definition valid_date (y m d : Z) : bool := (1 <=? m) && (m <=? 12) && (1 <=? d) && (d <=? month_days y m).

(** 1 January 1970. *)
Definition EPOCH : Z := date_number 1970 1 1.

(** ** The conversion is the Gregorian calendar *)

Lemma leap_era y e : leap (y + 400 * e) = leap y.
Proof.
  unfold leap. replace ((y + 400 * e) mod 4) with (y mod 4).
  2:{ replace (y + 400 * e) with (y + 100 * e * 4) by lia. by rewrite Z_mod_plus_full. }
  replace ((y + 400 * e) mod 100) with (y mod 100).
  2:{ replace (y + 400 * e) with (y + 4 * e * 100) by lia. by rewrite Z_mod_plus_full. }
  replace ((y + 400 * e) mod 400) with (y mod 400); [done|].
  replace (y + 400 * e) with (y + e * 400) by lia. by rewrite Z_mod_plus_full.
Qed.

Lemma month_days_era y e m : month_days (y + 400 * e) m = month_days y m.
Proof. unfold month_days. by rewrite leap_era. Qed.

Lemma days_before_era y e m : days_before (y + 400 * e) m = days_before y m.
Proof. induction m as [|m IH]; cbn [days_before]; [done|]. by rewrite IH, month_days_era. Qed.

Lemma year_start_era y e : year_start (y + 400 * e) = year_start y + 146097 * e.
Proof.
  unfold year_start. replace (y + 400 * e - 1) with (y - 1 + 400 * e) by lia.
  replace ((y - 1 + 400 * e) / 4) with ((y - 1) / 4 + 100 * e).
  2:{ rewrite <-Z.div_add by lia. f_equal. lia. }
  replace ((y - 1 + 400 * e) / 100) with ((y - 1) / 100 + 4 * e).
  2:{ rewrite <-Z.div_add by lia. f_equal. lia. }
  replace ((y - 1 + 400 * e) / 400) with ((y - 1) / 400 + e); [lia|].
  rewrite <-Z.div_add by lia. f_equal. lia.
Qed.

(** The year, month and day of a day of an era of 400 years, from 1 March of
    its first year. *)
Definition era_date (doe : Z) : Z * Z * Z :=
  let yoe := (doe - doe / 1460 + doe / 36524 - doe / 146096) / 365 in
  let doy := doe - (365 * yoe + yoe / 4 - yoe / 100) in
  let mp := (5 * doy + 2) / 153 in
  let month := if mp <? 10 then mp + 3 else mp - 9 in
  (yoe + (if month <=? 2 then 1 else 0), month, doy - (153 * mp + 2) / 5 + 1).

Definition era_date_ok (doe : Z) : bool :=
  let '(y, m, d) := era_date doe in
  valid_date y m d && (date_number y m d =? doe - 305) && (0 <=? y) && (y <=? 400).

(** [p] holds of the [n] numbers from [z] on. *)
Fixpoint all_from (n : nat) (p : Z → bool) (z : Z) : bool :=
  match n with O => true | S n => p z && all_from n p (z + 1) end.

Lemma all_from_spec n p z : all_from n p z = true → ∀ x, z ≤ x < z + Z.of_nat n → p x = true.
Proof.
  revert z. induction n as [|n IH]; intros z H x Hx; [lia|]. cbn [all_from] in H.
  apply andb_true_iff in H as [Hz H]. destruct (Z.eqb_spec x z) as [->|]; [done|]. apply (IH (z + 1)); [done|lia].
Qed.

(** The first and the last day of a year of an era, which begins in March. *)
Definition first_day (yoe : Z) : Z := 365 * yoe + yoe / 4 - yoe / 100.
Definition last_day (yoe : Z) : Z := if yoe =? 399 then 146096 else first_day (yoe + 1) - 1.

Definition year_of (doe : Z) : Z := (doe - doe / 1460 + doe / 36524 - doe / 146096) / 365.

(** The years of an era, one by one. *)
Definition year_ok (yoe : Z) : bool :=
  (year_of (first_day yoe) =? yoe) && (year_of (last_day yoe) =? yoe) &&
  (last_day yoe - first_day yoe <=? 365) &&
  ((last_day yoe - first_day yoe <? 365) || leap (yoe + 1)) &&
  (date_number yoe 3 1 =? first_day yoe - 305) && (date_number (yoe + 1) 1 1 =? first_day yoe + 1).

Lemma year_all yoe : 0 ≤ yoe < 400 → year_ok yoe = true.
Proof. intros H. apply (all_from_spec 400 year_ok 0); [vm_compute; reflexivity|lia]. Qed.

(** Days of the year from March before month [m]. *)
Definition from_march (m : Z) : Z :=
  if m <=? 2 then days_before 1 (Z.to_nat m) + 306 else days_before 1 (Z.to_nat m) - 59.

(** The days of a year, one by one. *)
Definition day_ok (doy : Z) : bool :=
  let mp := (5 * doy + 2) / 153 in
  let m := if mp <? 10 then mp + 3 else mp - 9 in
  let d := doy - (153 * mp + 2) / 5 + 1 in
  (1 <=? m) && (m <=? 12) && (1 <=? d) && (from_march m + d - 1 =? doy) &&
  (if m =? 2 then (d <=? 28) || (d =? 29) && (doy =? 365) else d <=? month_days 1 m).

Lemma day_all doy : 0 ≤ doy ≤ 365 → day_ok doy = true.
Proof. intros H. apply (all_from_spec 366 day_ok 0); [vm_compute; reflexivity|lia]. Qed.

Lemma year_of_mono a b : 0 ≤ a ≤ b → year_of a ≤ year_of b.
Proof.
  intros [Ha Hab]. assert (Hn : ∀ n : nat, year_of a ≤ year_of (a + Z.of_nat n)).
  { induction n as [|n IH]; [rewrite Z.add_0_r; lia|]. etransitivity; [exact IH|]. apply Z.div_le_mono; [lia|].
    set (c := a + Z.of_nat n). replace (a + Z.of_nat (S n)) with (c + 1) by lia.
    assert (0 ≤ c) by lia. clearbody c. Z.to_euclidean_division_equations; lia. }
  specialize (Hn (Z.to_nat (b - a))). by replace (a + Z.of_nat (Z.to_nat (b - a))) with b in Hn by lia.
Qed.

(** Each day of an era is in one of its years. *)
Lemma day_in_year doe : 0 ≤ doe < 146097 → ∃ yoe, 0 ≤ yoe < 400 ∧ first_day yoe ≤ doe ≤ last_day yoe.
Proof.
  intros Hd. assert (Hn : ∀ n : nat, (n ≤ 399)%nat → doe ≤ last_day (Z.of_nat n) →
    ∃ yoe, 0 ≤ yoe < 400 ∧ first_day yoe ≤ doe ≤ last_day yoe).
  { induction n as [|n IH]; intros Hn Hle.
    - exists 0. change (first_day 0) with 0. change (last_day 0) with (last_day (Z.of_nat 0)). lia.
    - destruct (Z.le_gt_cases (first_day (Z.of_nat (S n))) doe); [exists (Z.of_nat (S n)); lia|].
      apply IH; [lia|]. unfold last_day. destruct (Z.eqb_spec (Z.of_nat n) 399); [lia|].
      replace (Z.of_nat n + 1) with (Z.of_nat (S n)) by lia. lia. }
  apply (Hn 399%nat); [lia|]. change (last_day (Z.of_nat 399)) with 146096. lia.
Qed.

(** The months from March on have the same days every year. *)
Lemma days_before_march y m : 3 ≤ m ≤ 12 →
  days_before y (Z.to_nat m) = days_before y 3 + from_march m.
Proof.
  intros Hm. assert (Hcases : m ∈ [3; 4; 5; 6; 7; 8; 9; 10; 11; 12]) by (rewrite !elem_of_cons; lia).
  rewrite !elem_of_cons in Hcases.
  destruct_or! Hcases; subst; try (by apply not_elem_of_nil in Hcases);
    match goal with |- context [from_march ?k] =>
      let v := eval vm_compute in (from_march k) in change (from_march k) with v
    end; cbv -[leap]; by destruct (leap y).
Qed.

Lemma days_before_two y m : 1 ≤ m ≤ 2 → days_before y (Z.to_nat m) = from_march m - 306.
Proof. intros Hm. assert (m = 1 ∨ m = 2) as [-> | ->] by lia; done. Qed.

Lemma month_days_any y m : m ≠ 2 → month_days y m = month_days 1 m.
Proof. intros Hm. unfold month_days. by apply Z.eqb_neq in Hm as ->. Qed.

Lemma era_date_all doe : 0 ≤ doe < 146097 → era_date_ok doe = true.
Proof.
  intros Hd. destruct (day_in_year doe Hd) as (yoe & Hy & Hfirst & Hlast).
  pose proof (year_all yoe Hy) as Hyear. unfold year_ok in Hyear. rewrite !andb_true_iff, !orb_true_iff in Hyear.
  destruct Hyear as (((((H1%Z.eqb_eq & H2%Z.eqb_eq) & H3%Z.leb_le) & H4) & H5%Z.eqb_eq) & H6%Z.eqb_eq).
  assert (Hf0 : 0 ≤ first_day yoe) by (unfold first_day; Z.to_euclidean_division_equations; lia).
  assert (Hyo : year_of doe = yoe).
  { pose proof (year_of_mono (first_day yoe) doe ltac:(lia)). pose proof (year_of_mono doe (last_day yoe) ltac:(lia)). lia. }
  unfold era_date_ok, era_date. fold (year_of doe). rewrite Hyo. fold (first_day yoe).
  set (doy := doe - first_day yoe). pose proof (day_all doy ltac:(lia)) as Hday. unfold day_ok in Hday.
  set (mp := (5 * doy + 2) / 153) in *. set (m := if mp <? 10 then mp + 3 else mp - 9) in *.
  set (d := doy - (153 * mp + 2) / 5 + 1) in *. clearbody d m. clear mp.
  rewrite !andb_true_iff in Hday. destruct Hday as ((((Hm1%Z.leb_le & Hm12%Z.leb_le) & Hd1) & Hfm%Z.eqb_eq) & Hdm).
  rewrite !andb_true_iff, Z.eqb_eq, !Z.leb_le.
  assert (Hnum : date_number (yoe + (if m <=? 2 then 1 else 0)) m d = doe - 305).
  { unfold date_number in *. destruct (Z.leb_spec m 2).
    - rewrite days_before_two by lia. rewrite (days_before_two _ 1) in H6 by lia. change (from_march 1 - 306) with 0 in H6. lia.
    - rewrite days_before_march by lia. replace (yoe + 0) with yoe by lia. change (Z.to_nat 3) with 3%nat in H5. lia. }
  assert (Hval : valid_date (yoe + (if m <=? 2 then 1 else 0)) m d = true).
  { unfold valid_date. rewrite Hd1, (proj2 (Z.leb_le _ _) Hm1), (proj2 (Z.leb_le _ _) Hm12). cbn [andb].
    destruct (Z.eqb_spec m 2) as [->|Hne].
    - cbn [Z.leb Z.compare Pos.compare Pos.compare_cont]. unfold month_days. cbn [Z.eqb Pos.eqb]. apply orb_true_iff in Hdm as [Hle|Hle].
      + destruct (leap (yoe + 1)); lia.
      + apply andb_true_iff in Hle as [->%Z.eqb_eq Hdoy%Z.eqb_eq].
        assert (leap (yoe + 1) = true) as ->; [|done]. destruct H4 as [?|?]; [lia|done].
    - by rewrite month_days_any. }
  destruct (Z.leb_spec m 2); split_and!; try done; lia.
Qed.

Lemma civil_from_unix_days secs :
  0 ≤ secs < 2 ^ 56 →
  let z := secs / 86400 + 719468 in
  let '(y, m, d) := era_date (z mod 146097) in
  let c := civil_from_unix secs in
  c_year c = y + 400 * (z / 146097) ∧ c_month c = m ∧ c_day c = d.
Proof.
  intros Hs z. set (days := secs / 86400) in z.
  assert (Hdays : 0 ≤ days < 2 ^ 40) by (unfold days; Z.to_euclidean_division_equations; lia).
  assert (Hz : 0 ≤ z) by lia.
  unfold civil_from_unix. fold days. fold z. rewrite (proj2 (Z.leb_le 0 z) Hz), Z.quot_div_nonneg by lia.
  replace (z - z / 146097 * 146097) with (z mod 146097) by (rewrite Z.mod_eq by lia; lia).
  pose proof (era_date_all (z mod 146097) (Z.mod_pos_bound z 146097 ltac:(lia))) as Hok.
  unfold era_date_ok in Hok. destruct (era_date (z mod 146097)) as [[y m] d] eqn:He.
  unfold era_date in He. injection He as Hy Hm Hd. cbn [c_year c_month c_day].
  rewrite Hd, Hm. rewrite !andb_true_iff in Hok. destruct Hok as [[[Hv _] Hy0] Hy4].
  unfold valid_date in Hv. rewrite !andb_true_iff in Hv. destruct Hv as [[[Hm1 Hm12] Hd1] Hd31].
  assert (Hdm : d ≤ 31) by (unfold month_days in Hd31; repeat case_match; lia).
  unfold as_u32. rewrite (Z.mod_small m) by lia. rewrite (Z.mod_small d) by lia.
  rewrite Hm in Hy. split_and!; [|done|done].
  rewrite Z.mod_small; [lia|]. assert (z / 146097 < 2 ^ 23) by (Z.to_euclidean_division_equations; lia).
  assert (0 ≤ z / 146097) by (apply Z.div_pos; lia). lia.
Qed.

Lemma civil_from_unix_spec (secs : Z) (H : 0 ≤ secs < 2 ^ 56) :
  let c := civil_from_unix secs in
  valid_date (c_year c) (c_month c) (c_day c) = true ∧
  (date_number (c_year c) (c_month c) (c_day c) - EPOCH) * 86400
    + c_hour c * 3600 + c_minute c * 60 + c_second c = secs ∧
  0 ≤ c_hour c < 24 ∧ 0 ≤ c_minute c < 60 ∧ 0 ≤ c_second c < 60.
Proof.
  intros c. pose proof (civil_from_unix_days secs H) as Hd. cbv zeta in Hd.
  set (z := secs / 86400 + 719468) in Hd.
  pose proof (era_date_all (z mod 146097) (Z.mod_pos_bound z 146097 ltac:(lia))) as Hok.
  unfold era_date_ok in Hok. destruct (era_date (z mod 146097)) as [[y m] d].
  destruct Hd as (Hy & Hm & Hday). fold c in Hy, Hm, Hday. rewrite Hy, Hm, Hday.
  rewrite !andb_true_iff in Hok. destruct Hok as [[[Hv Hn%Z.eqb_eq] _] _].
  assert (Hnum : date_number (y + 400 * (z / 146097)) m d = z - 305).
  { unfold date_number in *. rewrite year_start_era, days_before_era.
    pose proof (Z.div_mod z 146097 ltac:(lia)). lia. }
  assert (Htime : c_hour c = secs mod 86400 / 3600 ∧ c_minute c = secs mod 86400 mod 3600 / 60 ∧
    c_second c = secs mod 86400 mod 60).
  { unfold c, civil_from_unix. cbn [c_hour c_minute c_second]. unfold as_u32.
    split_and!; apply Z.mod_small; Z.to_euclidean_division_equations; lia. }
  destruct Htime as (-> & -> & ->). split_and!; try (Z.to_euclidean_division_equations; lia).
  - unfold valid_date in *. by rewrite month_days_era.
  - rewrite Hnum. change EPOCH with 719163. unfold z. Z.to_euclidean_division_equations; lia.
Qed.

(** [currentdate] uses the Gregorian calendar: for every time before the
    year two billion, the year, month and day are a date of the calendar, the
    one as many days after 1 January 1970 as whole days passed, and the hour,
    minute and second are those of the rest. *)
Theorem civil_from_unix_gregorian (secs : Z) (H : 0 ≤ secs < 2 ^ 56) :
  let c := civil_from_unix secs in
  valid_date (c_year c) (c_month c) (c_day c) = true ∧
  (date_number (c_year c) (c_month c) (c_day c) - EPOCH) * 86400
    + c_hour c * 3600 + c_minute c * 60 + c_second c = secs ∧
  0 ≤ c_hour c < 24 ∧ 0 ≤ c_minute c < 60 ∧ 0 ≤ c_second c < 60.
Proof. by apply civil_from_unix_spec. Qed.

(** 29 February 2024, 12:34:56 UTC. *)
Lemma civil_from_unix_gregorian_witness :
  let c := civil_from_unix 1709210096 in
  (c_year c, c_month c, c_day c, c_hour c, c_minute c, c_second c) = (2024, 2, 29, 12, 34, 56) ∧
  valid_date (c_year c) (c_month c) (c_day c) = true.
Proof.
  split; [vm_compute; reflexivity|]. apply (civil_from_unix_gregorian 1709210096). lia.
Defined.
