(* ===== verification/UtcDate.v ===== *)
(** The dates of a vacation: days and civil dates in both directions
    (src/src/webdav/rrule/mod.rs), the UTCDate of JMAP and the window of the
    setting (src/src/storage/vacation_store/mod.rs). *)

From S2P Require Import Prelude RustStd SieveDate.

Local Open Scope Z_scope.

(** ** Days and civil dates *)

Definition DAY : Z := 86400.

(** The divisions of the source round towards zero, of numbers that are not
    negative except the two it takes care of. *)
Definition days_from_civil (year month day : Z) : Z :=
  let y := if month <=? 2 then year - 1 else year in
  let era := Z.quot (if 0 <=? y then y else y - 399) 400 in
  let yoe := y - era * 400 in
  let doy := (153 * (if 2 <? month then month - 3 else month + 9) + 2) / 5 + day - 1 in
  let doe := yoe * 365 + yoe / 4 - yoe / 100 + doy in
  era * 146097 + doe - 719468.

Definition civil_from_secs (secs : Z) : Z * Z * Z :=
  let days := secs / DAY in
  let z := days + 719468 in
  let era := Z.quot (if 0 <=? z then z else z - 146096) 146097 in
  let doe := z - era * 146097 in
  let yoe := (doe - doe / 1460 + doe / 36524 - doe / 146096) / 365 in
  let year := yoe + era * 400 in
  let doy := doe - (365 * yoe + yoe / 4 - yoe / 100) in
  let mp := (5 * doy + 2) / 153 in
  let day := doy - (153 * mp + 2) / 5 + 1 in
  let month := if mp <? 10 then mp + 3 else mp - 9 in
  (if month <=? 2 then year + 1 else year, month, day).

(** ** UTCDate *)

(** [as u64]. *)
Definition as_u64 (n : Z) : Z := n mod 2 ^ 64.

Definition separators_ok (clock : list Z) : bool :=
  forallb (λ p : nat * Z, bool_decide (clock !! p.1 = Some p.2)) [(4%nat, 45); (7%nat, 45); (10%nat, 84); (13%nat, 58); (16%nat, 58)].

Definition digits_at (clock : list Z) (from to : nat) : option Z := parse_u32 (drop from (take to clock)).

(** The seconds of a clock text: the checks on its fields, the date it rolls
    to and the sum. *)
Definition clock_secs (clock : list Z) : option Z :=
  y ← digits_at clock 0 4;
  m ← digits_at clock 5 7;
  d ← digits_at clock 8 10;
  h ← digits_at clock 11 13;
  min ← digits_at clock 14 16;
  s ← digits_at clock 17 19;
  if negb ((1 <=? m) && (m <=? 12)) || negb ((1 <=? d) && (d <=? 31)) || (23 <? h) || (59 <? min) || (59 <? s)
  then None
  else
    let days := days_from_civil y m d in
    if bool_decide (civil_from_secs (days * DAY) = (y, m, d)) then Some (days * DAY + h * 3600 + min * 60 + s)
    else None.

(** The fraction, up to nine digits, is less than a second. *)
Definition frac_secs (fraction : list Z) : option Z :=
  if is_empty fraction then Some 0
  else
    nanos ← parse_uint u64_max fraction;
    Some (saturating_mul u64_max nanos (10 ^ (9 - Z.of_nat (length fraction))) / 1000000000).

Definition utc_date_to_unix_secs (text : list Z) : option Z :=
  body ← strip_suffix [90] text;
  let '(clock, fraction) := default (body, []) (split_once 46 body) in
  if (9 <? str_len fraction)%nat || negb (forallb is_ascii_digit fraction) then None
  else if negb (str_len clock =? 19)%nat || negb (forallb is_ascii clock) then None
  else if negb (separators_ok clock) then None
  else
    secs ← clock_secs clock;
    frac ← frac_secs fraction;
    let total := saturating_add u64_max (as_u64 secs) frac in
    if total =? u64_max then None else Some total.

(** ** The setting *)

Record VacationSetting := mkSetting {
  is_enabled : bool;
  from_date : option (list Z);
  to_date : option (list Z);
  vs_subject : option (list Z);
  text_body : option (list Z);
  html_body : option (list Z)
}.

Definition disabled_setting : VacationSetting := mkSetting false None None None None None.

Definition is_within_window (v : VacationSetting) (now : Z) : bool :=
  match from_date v ≫= utc_date_to_unix_secs with
  | Some secs => negb (now <? secs)
  | None => true
  end &&
  match to_date v ≫= utc_date_to_unix_secs with
  | Some secs => negb (secs <? now)
  | None => true
  end.

(** ** The two directions agree with the calendar *)

Lemma quot_era z n : 0 < n → Z.quot (if 0 <=? z then z else z - (n - 1)) n = z / n.
Proof.
  intros Hn. destruct (Z.leb_spec 0 z); [by apply Z.quot_div_nonneg|].
  replace (z - (n - 1)) with (- (- z + (n - 1))) by lia. rewrite Z.quot_opp_l, Z.quot_div_nonneg by lia.
  Z.to_euclidean_division_equations; nia.
Qed.

Lemma from_march_days m : 1 ≤ m ≤ 12 → (153 * (if 2 <? m then m - 3 else m + 9) + 2) / 5 = from_march m.
Proof.
  intros Hm. apply Z.eqb_eq. revert m Hm.
  assert (H : all_from 12 (λ m, (153 * (if 2 <? m then m - 3 else m + 9) + 2) / 5 =? from_march m) 1 = true) by done.
  intros m Hm. apply (all_from_spec _ _ _ H). lia.
Qed.

(** 1 March of a year, by the leap days before it. *)
Lemma march_first y : year_start y + days_before y 3 = 365 * y + y / 4 - y / 100 + y / 400 - 306.
Proof.
  assert (H : all_from 400 (λ y, year_start y + days_before y 3 =? 365 * y + y / 4 - y / 100 + y / 400 - 306) 0 = true) by done.
  pose proof (all_from_spec _ _ _ H (y mod 400) ltac:(Z.to_euclidean_division_equations; lia)) as Hr. apply Z.eqb_eq in Hr.
  rewrite (Z.div_mod y 400 ltac:(lia)) at 1 2. rewrite (Z.add_comm (400 * _)), year_start_era, days_before_era.
  assert (y mod 400 / 4 = y / 4 - 100 * (y / 400) ∧ y mod 400 / 100 = y / 100 - 4 * (y / 400) ∧ y mod 400 / 400 = 0)
    as (H4 & H100 & H400) by (Z.to_euclidean_division_equations; lia).
  rewrite H4, H100, H400 in Hr. pose proof (Z.div_mod y 400 ltac:(lia)). lia.
Qed.

Lemma days_from_civil_number y m d :
  1 ≤ m ≤ 12 → days_from_civil y m d = date_number y m d - EPOCH.
Proof.
  intros Hm. unfold days_from_civil. rewrite (quot_era _ 400), from_march_days by lia. change EPOCH with 719163.
  set (y' := if m <=? 2 then y - 1 else y). set (q := y' / 400).
  assert (Hdiv : (y' - q * 400) / 4 - (y' - q * 400) / 100 = y' / 4 - y' / 100 - 96 * q).
  { unfold q. Z.to_euclidean_division_equations; lia. }
  unfold date_number. subst y'. destruct (Z.leb_spec m 2).
  - rewrite days_before_two by lia. unfold year_start. fold q. lia.
  - rewrite days_before_march by lia. pose proof (march_first y) as Hmar. fold q in Hmar. lia.
Qed.

Lemma civil_from_secs_date days :
  let '(y, m, d) := civil_from_secs (days * DAY) in valid_date y m d = true ∧ date_number y m d = days + EPOCH.
Proof.
  unfold civil_from_secs. rewrite Z.div_mul by done. set (z := days + 719468). rewrite (quot_era _ 146097) by lia.
  replace (z - z / 146097 * 146097) with (z mod 146097) by (rewrite Z.mod_eq by lia; lia).
  pose proof (era_date_all (z mod 146097) (Z.mod_pos_bound z 146097 ltac:(lia))) as Hok. unfold era_date_ok in Hok.
  destruct (era_date (z mod 146097)) as [[y m] d] eqn:He. unfold era_date in He. injection He as Hy Hm Hd.
  rewrite Hd, Hm. rewrite Hm in Hy. rewrite !andb_true_iff in Hok. destruct Hok as [[[Hv Hn%Z.eqb_eq] _] _].
  match goal with |- context [valid_date ?year m d] => assert (Hyear : year = y + 400 * (z / 146097)) end.
  { destruct (m <=? 2); lia. }
  rewrite Hyear. split; [unfold valid_date in *; by rewrite month_days_era|].
  unfold date_number in *. rewrite year_start_era, days_before_era. change EPOCH with 719163.
  pose proof (Z.div_mod z 146097 ltac:(lia)). lia.
Qed.

Lemma month_days_pos y m : 28 ≤ month_days y m.
Proof. unfold month_days. repeat case_match; lia. Qed.

Lemma days_before_mono y (m n : nat) : (m ≤ n)%nat → days_before y m ≤ days_before y n.
Proof.
  induction 1 as [|n Hn IH]; [done|]. cbn [days_before]. pose proof (month_days_pos y (Z.of_nat n)). case_match; lia.
Qed.

Lemma valid_date_bounds y m d :
  valid_date y m d = true → 1 ≤ m ≤ 12 ∧ 1 ≤ d ∧ days_before y (Z.to_nat m) + d ≤ days_before y (S (Z.to_nat m)).
Proof.
  unfold valid_date. rewrite !andb_true_iff, !Z.leb_le. intros (((? & ?) & ?) & ?). split_and!; try lia.
  cbn [days_before]. destruct (Nat.eqb_spec (Z.to_nat m) 0); [lia|]. rewrite Z2Nat.id by lia. lia.
Qed.

Lemma year_days y : days_before y 13 = year_start (y + 1) - year_start y.
Proof.
  assert (H : all_from 400 (λ y, days_before y 13 =? year_start (y + 1) - year_start y) 0 = true) by done.
  pose proof (all_from_spec _ _ _ H (y mod 400) ltac:(Z.to_euclidean_division_equations; lia)) as Hr. apply Z.eqb_eq in Hr.
  rewrite (Z.div_mod y 400 ltac:(lia)). rewrite (Z.add_comm (400 * _)), days_before_era.
  replace (y mod 400 + 400 * (y / 400) + 1) with (y mod 400 + 1 + 400 * (y / 400)) by lia. rewrite !year_start_era. lia.
Qed.

Lemma date_number_year y m d :
  valid_date y m d = true → year_start y < date_number y m d ≤ year_start (y + 1).
Proof.
  intros (Hm & Hd & Hle)%valid_date_bounds. unfold date_number. pose proof (year_days y).
  pose proof (days_before_mono y 0 (Z.to_nat m) ltac:(lia)). cbn [days_before] in *.
  pose proof (days_before_mono y (S (Z.to_nat m)) 13 ltac:(lia)). cbn [days_before] in *. lia.
Qed.

Lemma year_start_mono a b : a ≤ b → year_start a ≤ year_start b.
Proof. unfold year_start. intros H. Z.to_euclidean_division_equations. lia. Qed.

(** A day has one date. *)
Lemma date_number_inj y m d y' m' d' :
  valid_date y m d = true → valid_date y' m' d' = true → date_number y m d = date_number y' m' d' →
  (y, m, d) = (y', m', d').
Proof.
  intros Hv Hv' Heq. assert (y = y') as <-.
  { pose proof (date_number_year _ _ _ Hv). pose proof (date_number_year _ _ _ Hv').
    destruct (Z.lt_trichotomy y y') as [Hlt|[|Hlt]]; [|done|].
    - pose proof (year_start_mono (y + 1) y' ltac:(lia)). lia.
    - pose proof (year_start_mono (y' + 1) y ltac:(lia)). lia. }
  apply valid_date_bounds in Hv as (Hm & Hd & Hle), Hv' as (Hm' & Hd' & Hle'). unfold date_number in Heq.
  assert (m = m') as <-; [|f_equal; lia]. destruct (Z.lt_trichotomy m m') as [Hlt|[|Hlt]]; [|done|].
  - pose proof (days_before_mono y (S (Z.to_nat m)) (Z.to_nat m') ltac:(lia)). lia.
  - pose proof (days_before_mono y (S (Z.to_nat m')) (Z.to_nat m) ltac:(lia)). lia.
Qed.

(** The way back is the date itself exactly for dates of the calendar. *)
Lemma civil_round_trip y m d :
  1 ≤ m ≤ 12 → civil_from_secs (days_from_civil y m d * DAY) = (y, m, d) ↔ valid_date y m d = true.
Proof.
  intros Hm. pose proof (civil_from_secs_date (days_from_civil y m d)) as Hc.
  destruct (civil_from_secs _) as [[y' m'] d']. destruct Hc as [Hv Hn]. rewrite days_from_civil_number in Hn by done.
  split; [by intros [= -> -> ->]|]. intros Hv'. apply date_number_inj; [done|done|lia].
Qed.

(** ** The text of a date *)

Definition clock_text (y m d h min s : list Z) : list Z :=
  y ++ 45 :: m ++ 45 :: d ++ 84 :: h ++ 58 :: min ++ 58 :: s.

Definition utc_text (c : Civil) : list Z :=
  clock_text (padded 4 (c_year c)) (padded 2 (c_month c)) (padded 2 (c_day c)) (padded 2 (c_hour c))
    (padded 2 (c_minute c)) (padded 2 (c_second c)) ++ [90].

Definition civil_secs (c : Civil) : Z :=
  (date_number (c_year c) (c_month c) (c_day c) - EPOCH) * DAY + c_hour c * 3600 + c_minute c * 60 + c_second c.

(** A date of the calendar with a time of the day. *)
Record civil_ok (c : Civil) : Prop := {
  co_year : 0 ≤ c_year c ≤ 9999;
  co_date : valid_date (c_year c) (c_month c) (c_day c) = true;
  co_hour : 0 ≤ c_hour c ≤ 23;
  co_minute : 0 ≤ c_minute c ≤ 59;
  co_second : 0 ≤ c_second c ≤ 59
}.

Lemma decimal_fuel_length fuel n acc k :
  (0 < k)%nat → 0 ≤ n < 10 ^ Z.of_nat k → (length (decimal_fuel fuel n acc) ≤ length acc + k)%nat.
Proof.
  revert n acc k. induction fuel as [|fuel IH]; intros n acc k Hk Hn; cbn [decimal_fuel]; [lia|].
  destruct (Z.ltb_spec n 10); [cbn [length]; lia|]. destruct k as [|[|k]]; [lia|cbn in Hn; lia|].
  specialize (IH (n / 10) ((48 + n mod 10) :: acc) (S k) ltac:(lia)). cbn [length] in IH.
  rewrite (Nat2Z.inj_succ (S k)), Z.pow_succ_r in Hn by lia.
  assert (0 ≤ n / 10 < 10 ^ Z.of_nat (S k)) by (Z.to_euclidean_division_equations; lia). specialize (IH ltac:(done)). lia.
Qed.

Lemma digits_value_zeros k d : digits_value 0 (replicate k 48 ++ d) = digits_value 0 d.
Proof. induction k as [|k IH]; [done|]. cbn [replicate app digits_value]. by cbn. Qed.

Lemma padded_spec w n :
  (0 < w)%nat → 0 ≤ n < 10 ^ Z.of_nat w → n ≤ u32_max →
  length (padded w n) = w ∧ Forall (λ c, is_ascii_digit c = true) (padded w n) ∧ parse_u32 (padded w n) = Some n.
Proof.
  intros Hw Hn Hmax. unfold padded.
  pose proof (decimal_fuel_length (S (Z.to_nat (Z.log2 n))) n [] w Hw Hn) as Hl. fold (decimal n) in Hl. cbn [length] in Hl.
  pose proof (decimal_nonempty n) as Hne. assert (Hdig : Forall (λ c, is_ascii_digit c = true) (replicate (w - length (decimal n)) 48 ++ decimal n)).
  { apply Forall_app. split; [by apply Forall_replicate|apply decimal_digits]. }
  split_and!; [rewrite length_app, length_replicate; lia|done|].
  unfold parse_u32, parse_uint. pose proof (digits_value_zeros (w - length (decimal n)) (decimal n)) as Hv.
  rewrite (digits_value_decimal n) in Hv by lia.
  destruct (replicate _ 48 ++ decimal n) as [|c l] eqn:Hcl.
  { apply app_eq_nil in Hcl as [_ ?]. done. }
  apply Forall_cons in Hdig as [Hc _]. apply is_ascii_digit_spec in Hc.
  assert (Hplus : (match c :: l with 43 :: d => d | _ => c :: l end) = c :: l).
  { destruct c as [|p|p]; try done. repeat (destruct p as [p|p|]; try done; try lia). }
  rewrite Hplus, Hv. by rewrite (proj2 (Z.leb_le n u32_max)).
Qed.

Lemma clock_fields y m d h min s :
  length y = 4%nat → Forall (λ l, length l = 2%nat) [m; d; h; min; s] →
  let clock := clock_text y m d h min s in
  length clock = 19%nat ∧ separators_ok clock = true ∧
  digits_at clock 0 4 = parse_u32 y ∧ digits_at clock 5 7 = parse_u32 m ∧ digits_at clock 8 10 = parse_u32 d ∧
  digits_at clock 11 13 = parse_u32 h ∧ digits_at clock 14 16 = parse_u32 min ∧ digits_at clock 17 19 = parse_u32 s.
Proof.
  intros Hy Hl. repeat (apply Forall_cons in Hl as [? Hl]).
  repeat match goal with H : length ?l = S _ |- _ => destruct l; [done|]; injection H as H
                       | H : length ?l = 0%nat |- _ => apply nil_length_inv in H; subst l end.
  done.
Qed.

Lemma str_len_ascii_text s : Forall (λ c, is_ascii c = true) s → str_len s = length s.
Proof.
  induction 1 as [|c s Hc Hs IH]; [done|]. rewrite str_len_cons, IH. cbn [length].
  unfold is_ascii, in_range in Hc. unfold len_utf8. destruct (Z.ltb_spec c 0x80); [lia|lia].
Qed.

Lemma clock_chars y m d h min s :
  Forall (Forall (λ c, is_ascii_digit c = true)) [y; m; d; h; min; s] →
  Forall (λ c, is_ascii c = true ∧ c ≠ 46) (clock_text y m d h min s).
Proof.
  intros Hl. repeat (apply Forall_cons in Hl as [? Hl]). unfold clock_text.
  assert (Hd : ∀ l, Forall (λ c, is_ascii_digit c = true) l → Forall (λ c, is_ascii c = true ∧ c ≠ 46) l).
  { intros l Hl'. eapply Forall_impl; [exact Hl'|]. intros c Hc%is_ascii_digit_spec. unfold is_ascii, in_range. lia. }
  repeat first [apply Forall_app; split | apply Forall_cons; split]; auto; by split.
Qed.

Lemma strip_suffix_last s c : strip_suffix [c] (s ++ [c]) = Some s.
Proof.
  unfold strip_suffix, ends_with. rewrite rev_app_distr. cbn [rev app starts_with]. rewrite Z.eqb_refl. cbn [andb].
  rewrite length_app. cbn [length]. replace (length s + 1 - 1)%nat with (length s) by lia. by rewrite take_app_length.
Qed.

Lemma civil_ok_texts c :
  civil_ok c →
  let clock := clock_text (padded 4 (c_year c)) (padded 2 (c_month c)) (padded 2 (c_day c)) (padded 2 (c_hour c))
    (padded 2 (c_minute c)) (padded 2 (c_second c)) in
  Forall (λ c, is_ascii c = true ∧ c ≠ 46) clock ∧ length clock = 19%nat ∧ separators_ok clock = true ∧
  clock_secs clock = Some (civil_secs c).
Proof.
  intros [Hy Hd Hh Hmi Hs]. pose proof (valid_date_bounds _ _ _ Hd) as (Hm & Hd1 & _).
  assert (Hd31 : c_day c ≤ 31).
  { unfold valid_date in Hd. rewrite !andb_true_iff, !Z.leb_le in Hd. destruct Hd as [_ Hd].
    unfold month_days in Hd. repeat case_match; lia. }
  unfold u32_max in *.
  destruct (padded_spec 4 (c_year c)) as (Ly & Fy & Py); [lia|lia|unfold u32_max; lia|].
  destruct (padded_spec 2 (c_month c)) as (Lm & Fm & Pm); [lia|lia|unfold u32_max; lia|].
  destruct (padded_spec 2 (c_day c)) as (Ld & Fd & Pd); [lia|lia|unfold u32_max; lia|].
  destruct (padded_spec 2 (c_hour c)) as (Lh & Fh & Ph); [lia|lia|unfold u32_max; lia|].
  destruct (padded_spec 2 (c_minute c)) as (Li & Fi & Pi); [lia|lia|unfold u32_max; lia|].
  destruct (padded_spec 2 (c_second c)) as (Ls & Fs & Ps); [lia|lia|unfold u32_max; lia|].
  edestruct (clock_fields (padded 4 (c_year c)) (padded 2 (c_month c)) (padded 2 (c_day c)) (padded 2 (c_hour c))
    (padded 2 (c_minute c)) (padded 2 (c_second c)) Ly) as (Hlen & Hsep & Dy & Dm & Dd & Dh & Di & Ds);
    [by repeat constructor|].
  cbv zeta in *. set (clock := clock_text _ _ _ _ _ _) in *.
  split_and!; [apply clock_chars; by repeat constructor|done|done|]. unfold clock_secs. rewrite Dy, Py, Dm, Pm, Dd, Pd, Dh, Ph, Di, Pi, Ds, Ps.
  cbn [mbind option_bind].
  replace (negb ((1 <=? c_month c) && (c_month c <=? 12)) || negb ((1 <=? c_day c) && (c_day c <=? 31)) ||
    (23 <? c_hour c) || (59 <? c_minute c) || (59 <? c_second c)) with false by lia.
  rewrite bool_decide_true by (by apply civil_round_trip). rewrite days_from_civil_number by done. done.
Qed.

Lemma utc_date_text c :
  civil_ok c →
  utc_date_to_unix_secs (utc_text c) =
    let total := as_u64 (civil_secs c) in if total =? u64_max then None else Some total.
Proof.
  intros Hc. destruct (civil_ok_texts c Hc) as (Hchars & Hlen & Hsep & Hsecs). cbv zeta in *.
  unfold utc_date_to_unix_secs, utc_text. rewrite strip_suffix_last. cbn [mbind option_bind].
  set (clock := clock_text _ _ _ _ _ _) in *. assert (Hdot : split_once 46 clock = None).
  { apply split_once_None. intros Hin. rewrite Forall_forall in Hchars. by destruct (Hchars 46 Hin). }
  rewrite Hdot. cbn [default from_option id]. change (str_len []) with 0%nat. cbn [forallb Nat.ltb Nat.leb negb orb].
  assert (Hasc : Forall (λ c, is_ascii c = true) clock) by (eapply Forall_impl; [exact Hchars|by intros ? []]).
  rewrite str_len_ascii_text, Hlen, Hsep, Hsecs by done. apply forallb_Forall in Hasc. rewrite Hasc.
  cbn [Nat.eqb negb orb mbind option_bind frac_secs is_empty]. unfold saturating_add. rewrite Z.add_0_r, Z.min_l; [done|].
  unfold as_u64. pose proof (Z.mod_pos_bound (civil_secs c) (2 ^ 64) ltac:(lia)). unfold u64_max. lia.
Qed.

Lemma civil_secs_bounds c :
  civil_ok c → - 2 ^ 37 < civil_secs c < 2 ^ 40 ∧ (0 ≤ civil_secs c ↔ 1970 ≤ c_year c).
Proof.
  intros [Hy Hd Hh Hmi Hs]. pose proof (date_number_year _ _ _ Hd) as Hn. unfold civil_secs, DAY.
  pose proof (year_start_mono 0 (c_year c) ltac:(lia)) as H0. pose proof (year_start_mono (c_year c + 1) 10000 ltac:(lia)) as H1.
  change (year_start 0) with (-366) in H0. change (year_start 10000) with 3652059 in H1. change EPOCH with 719163.
  split; [lia|]. destruct (Z.le_gt_cases 1970 (c_year c)) as [Hle|Hlt].
  - pose proof (year_start_mono 1970 (c_year c) Hle) as H2. change (year_start 1970) with 719162 in H2. split; [done|lia].
  - pose proof (year_start_mono (c_year c + 1) 1970 ltac:(lia)) as H2. change (year_start 1970) with 719162 in H2. lia.
Qed.

(** A time has one date and time of the day. *)
Lemma civil_secs_inj c c' :
  valid_date (c_year c) (c_month c) (c_day c) = true → valid_date (c_year c') (c_month c') (c_day c') = true →
  0 ≤ c_hour c < 24 → 0 ≤ c_minute c < 60 → 0 ≤ c_second c < 60 →
  0 ≤ c_hour c' < 24 → 0 ≤ c_minute c' < 60 → 0 ≤ c_second c' < 60 →
  civil_secs c = civil_secs c' → c = c'.
Proof.
  intros Hd Hd' Hh Hm Hs Hh' Hm' Hs' Heq. unfold civil_secs, DAY in Heq.
  assert (date_number (c_year c) (c_month c) (c_day c) = date_number (c_year c') (c_month c') (c_day c')) as Hn by lia.
  pose proof (date_number_inj _ _ _ _ _ _ Hd Hd' Hn) as [= Hy Hmo Hda].
  destruct c, c'. cbn in *. f_equal; lia.
Qed.

(** A UTCDate from 1970 on, down to the second, is read as the number
    of seconds of its date and time in the Gregorian calendar, and the time
    stamp gives the date back. *)
Theorem utc_date_round_trip (c : Civil) (H : civil_ok c) (Hy : 1970 ≤ c_year c) :
  utc_date_to_unix_secs (utc_text c) = Some (civil_secs c) ∧ civil_from_unix (civil_secs c) = c.
Proof.
  destruct (civil_secs_bounds c H) as [Hb Hpos]. apply Hpos in Hy as H0. split.
  - rewrite utc_date_text by done. cbv zeta. unfold as_u64. rewrite Z.mod_small by lia.
    unfold u64_max. destruct (Z.eqb_spec (civil_secs c) (2 ^ 64 - 1)); [lia|done].
  - destruct (civil_from_unix_spec (civil_secs c) ltac:(lia)) as (Hv & Hsecs & Hh & Hm & Hs). destruct H as [_ Hd ? ? ?].
    apply civil_secs_inj; try done; lia.
Qed.

Lemma utc_date_round_trip_witness :
  let c := mkCivil 2030 2 28 23 59 59 in
  utc_text c = lit "2030-02-28T23:59:59Z" ∧ utc_date_to_unix_secs (utc_text c) = Some 1898553599.
Proof.
  split; [by vm_compute|]. apply (utc_date_round_trip (mkCivil 2030 2 28 23 59 59)); [constructor; cbn; by try lia|by cbn; lia].
Defined.

(** A vacation that starts before 1970 never starts: the seconds of
    its first day, which are negative, are read as a time in the far
    future, so that no time is within the window. *)
Theorem vacation_before_epoch_never_starts (c : Civil) (v : VacationSetting) (now : Z)
    (H : civil_ok c) (Hy : c_year c < 1970) (Hs : civil_secs c ≠ -1)
    (Hv : from_date v = Some (utc_text c)) (Hnow : 0 ≤ now < 2 ^ 63) :
  is_within_window v now = false.
Proof.
  destruct (civil_secs_bounds c H) as [Hb Hpos]. assert (Hneg : civil_secs c < 0) by lia.
  unfold is_within_window. rewrite Hv. cbn [mbind option_bind]. rewrite utc_date_text by done. cbv zeta.
  assert (as_u64 (civil_secs c) = civil_secs c + 2 ^ 64) as ->.
  { unfold as_u64. rewrite <-(Z_mod_plus_full (civil_secs c) 1 (2 ^ 64)). rewrite Z.mod_small by lia. lia. }
  unfold u64_max. destruct (Z.eqb_spec (civil_secs c + 2 ^ 64) (2 ^ 64 - 1)); [lia|].
  by rewrite (proj2 (Z.ltb_lt now (civil_secs c + 2 ^ 64))) by lia.
Qed.

Lemma vacation_before_epoch_never_starts_witness :
  is_within_window (mkSetting true (Some (lit "1969-12-31T00:00:00Z")) None None (Some (lit "Away.")) None) 1900000000 = false.
Proof.
  apply (vacation_before_epoch_never_starts (mkCivil 1969 12 31 0 0 0)); [constructor; cbn; by try lia|by cbn; lia|done|done|lia].
Defined.
