(* ===== verification/Vacation.v ===== *)
(** Automatic replies: the header values they read and write
    (src/src/util/header/mod.rs), the message identifiers they refer to
    (src/src/sieve/vacation/mod.rs) and the record of who was answered
    (src/src/storage/vacation_markers/mod.rs). *)

From stdpp Require Import gmap.
From S2P Require Import Prelude RustStd Utf8 Slices MailboxPath.

Local Open Scope Z_scope.

(** ** Header values *)

Definition MAX_HEADER_VALUE_LEN : nat := 998.

Fixpoint sanitize_loop (result : list Z) (value : list Z) : list Z :=
  match value with
  | [] => result
  | c :: value =>
      let replacement := if is_control c then 32 else c in
      if (MAX_HEADER_VALUE_LEN <? str_len result + len_utf8 replacement)%nat then result
      else sanitize_loop (result ++ [replacement]) value
  end.

Definition sanitize_header_value (value : list Z) : list Z := sanitize_loop [] value.

(** [str::lines]. *)
Definition line_content (line : list Z) : list Z :=
  match strip_suffix [10] line with
  | None => line
  | Some line => default line (strip_suffix [13] line)
  end.

Definition str_lines (s : list Z) : list (list Z) := map line_content (split_inclusive 10 s).

Definition folds (line : list Z) : bool := match line with c :: _ => (c =? 32) || (c =? 9) | [] => false end.

(** The continuation lines of a value. *)
Fixpoint unfold_value (value : list Z) (lines : list (list Z)) : list Z :=
  match lines with
  | line :: lines => if folds line then unfold_value (value ++ 32 :: trim line) lines else value
  | [] => value
  end.

Fixpoint header_value_loop (lines : list (list Z)) (name : list Z) : option (list Z) :=
  match lines with
  | [] => None
  | line :: rest =>
      if is_empty line then None
      else if folds line then header_value_loop rest name
      else match split_once 58 line with
           | Some (key, value) =>
               if eq_ignore_ascii_case (trim key) name then Some (unfold_value (trim value) rest)
               else header_value_loop rest name
           | None => header_value_loop rest name
           end
  end.

Definition header_value (headers name : list Z) : option (list Z) := header_value_loop (str_lines headers) name.

(** ** Message identifiers *)

Definition is_ascii_graphic (b : Z) : bool := in_range 33 126 b.

(** One segment after a [<]: the identifier in it, with its brackets. *)
Definition message_id_of (segment : list Z) : option (list Z) :=
  '(inner, _) ← split_once 62 segment;
  let clean := negb (is_empty inner) && (str_len inner <=? 248)%nat && forallb is_ascii_graphic (as_bytes inner) in
  if clean then Some (60 :: inner ++ [62]) else None.

Definition message_ids (value : list Z) : list (list Z) := omap message_id_of (tail (split 60 value)).

Definition MAX_REFERENCES : nat := 20.

(** The references of a reply: the last ones of the original, then its own
    identifier. *)
Definition reply_references (references : option (list Z)) (id : list Z) : list (list Z) :=
  let ids := match references with Some value => message_ids value | None => [] end in
  drop (length ids - MAX_REFERENCES) ids ++ [id].

(** ** Who was answered *)

Definition MAX_MARKERS : nat := 4096.
Definition MIN_DAYS : Z := 1.
Definition MAX_DAYS : Z := 365.

(** The markers of an account: a file for each sender, by its name, with the
    time of the last reply in nanoseconds. *)
Notation Markers := (gmap (list Z) Z).

Definition period (days : Z) : Z := Z.min (Z.max days MIN_DAYS) MAX_DAYS * 86400 * 1000000000.

(** What the file system and the digest do: whether a marker can be looked
    up, the directory listed, a marker written or removed. *)
Class MarkerStore := {
  digest : list Z → list Z;
  readable : list Z → bool;
  listable : bool;
  writable : list Z → bool;
  removable : list Z → bool
}.

Section markers.
Context `{MarkerStore}.

Definition marker_name (sender : list Z) : list Z := digest (to_ascii_lowercase sender).

(** [at.elapsed()] is an error for a time to come. *)
Definition elapsed (now at_ : Z) : option Z := if at_ <=? now then Some (now - at_) else None.

Definition expired (now p at_ : Z) : bool := match elapsed now at_ with Some age => p <=? age | None => false end.

(** What is left, and whether one more fits. *)
Definition make_room (now p : Z) (m : Markers) : Markers * bool :=
  if negb listable then (m, false)
  else if (size m <? MAX_MARKERS)%nat then (m, true)
  else
    let left := filter (λ kv, ¬ (expired now p kv.2 = true ∧ removable kv.1 = true)) m in
    (left, (size left <? MAX_MARKERS)%nat).

Definition claim (now : Z) (account sender : list Z) (days : Z) (m : Markers) : bool * Markers :=
  let p := period days in
  if negb (is_plain_component account) then (false, m)
  else
    let marker := marker_name sender in
    let write m := if writable marker then (true, <[marker := now]> m) else (false, m) in
    if negb (readable marker) then (false, m)
    else match m !! marker with
    | Some at_ =>
        match elapsed now at_ with
        | None => (false, m)
        | Some age => if age <? p then (false, m) else write m
        end
    | None => let '(m, room) := make_room now p m in if room then write m else (false, m)
    end.

(** Replies asked for one after the other: the time, the sender and the days
    of each. *)
Definition claims (account : list Z) (l : list (Z * list Z * Z)) (m : Markers) : Markers :=
  fold_left (λ m q, (claim q.1.1 account q.1.2 q.2 m).2) l m.

End markers.

(** ** Values are safe to write *)

Lemma sanitize_loop_spec result value :
  Forall (λ c, is_control c = false) result → (str_len result ≤ MAX_HEADER_VALUE_LEN)%nat →
  let out := sanitize_loop result value in
  Forall (λ c, is_control c = false) out ∧ (str_len out ≤ MAX_HEADER_VALUE_LEN)%nat.
Proof.
  revert result. induction value as [|c value IH]; intros result Hc Hl; cbn [sanitize_loop]; [done|].
  set (r := if is_control c then 32 else c).
  destruct (Nat.ltb_spec MAX_HEADER_VALUE_LEN (str_len result + len_utf8 r)); [done|]. apply IH.
  - apply Forall_app. split; [done|]. constructor; [|done]. subst r. by destruct (is_control c) eqn:E.
  - rewrite str_len_app. change (str_len [r]) with (len_utf8 r + 0)%nat. lia.
Qed.

Lemma sanitize_loop_id result value :
  Forall (λ c, is_control c = false) value → (str_len result + str_len value ≤ MAX_HEADER_VALUE_LEN)%nat →
  sanitize_loop result value = result ++ value.
Proof.
  intros Hc. revert result. induction Hc as [|c value Hc Hv IH]; intros result Hl; cbn [sanitize_loop]; [by rewrite app_nil_r|].
  rewrite Hc, str_len_cons in *. destruct (Nat.ltb_spec MAX_HEADER_VALUE_LEN (str_len result + len_utf8 c)); [lia|].
  rewrite IH; [by rewrite <-app_assoc|]. rewrite str_len_app. change (str_len [c]) with (len_utf8 c + 0)%nat. lia.
Qed.

(** What is written into a header has no control character, fits a line, and
    is its own sanitized form. *)
Lemma sanitize_header_value_ok value :
  let out := sanitize_header_value value in
  Forall (λ c, is_control c = false) out ∧ (str_len out ≤ MAX_HEADER_VALUE_LEN)%nat ∧ sanitize_header_value out = out.
Proof.
  destruct (sanitize_loop_spec [] value) as [Hc Hl]; [constructor|cbn; lia|]. cbv zeta. fold (sanitize_header_value value) in *.
  split_and!; [done|done|]. unfold sanitize_header_value at 1. by apply (sanitize_loop_id []).
Qed.

Lemma message_ids_safe value :
  Forall (λ id, ∃ inner, id = 60 :: inner ++ [62] ∧ Forall (λ b, is_ascii_graphic b = true) (as_bytes inner)) (message_ids value).
Proof.
  unfold message_ids. apply Forall_forall. intros id Hid. apply list_elem_of_omap in Hid as (segment & _ & Hs).
  unfold message_id_of in Hs. destruct (split_once 62 segment) as [[inner rest]|]; [|done]. cbn [mbind option_bind] in Hs.
  destruct (_ && _) eqn:Hc; [|done]. injection Hs as <-. exists inner. split; [done|].
  apply andb_prop in Hc as [_ Hc]. by apply forallb_Forall.
Qed.

(** ** One reply in a period *)

Section rate.
Context `{MarkerStore}.

Lemma period_pos days : 0 < period days.
Proof. unfold period, MIN_DAYS, MAX_DAYS. lia. Qed.

Lemma period_mono a b : a ≤ b → period a ≤ period b.
Proof. unfold period, MIN_DAYS, MAX_DAYS. lia. Qed.

Lemma expired_spec now p t : expired now p t = true ↔ t ≤ now ∧ p ≤ now - t.
Proof. unfold expired, elapsed. destruct (Z.leb_spec t now); [|naive_solver lia]. rewrite Z.leb_le. naive_solver. Qed.

Lemma make_room_lookup now p m k t :
  m !! k = Some t → (make_room now p m).1 !! k = Some t ∨ p ≤ now - t.
Proof.
  intros Hk. unfold make_room. destruct listable; cbn [negb fst]; [|by left]. destruct (_ <? _)%nat; [by left|]. cbn [fst].
  destruct (decide (expired now p t = true ∧ removable k = true)) as [[He _]|Hn].
  - right. apply expired_spec in He. lia.
  - left. by apply map_lookup_filter_Some.
Qed.

(** A marker outlives whatever is claimed, unless its period is over. *)
Lemma claim_lookup now account sender days m k t :
  m !! k = Some t →
  let '(ok, m') := claim now account sender days m in
  m' !! k = Some t ∨ period days ≤ now - t ∨ (m' !! k = Some now ∧ period days ≤ now - t).
Proof.
  intros Hk. unfold claim. destruct (is_plain_component account); cbn [negb]; [|by left].
  destruct (readable _); cbn [negb]; [|by left].
  destruct (m !! marker_name sender) as [t'|] eqn:Hm.
  - unfold elapsed. destruct (Z.leb_spec t' now); [|by left]. destruct (Z.ltb_spec (now - t') (period days)); [by left|].
    destruct (writable _); [|by left]. destruct (decide (k = marker_name sender)) as [->|Hne].
    + rewrite Hk in Hm. injection Hm as <-. right. left. lia.
    + left. by rewrite lookup_insert_ne.
  - destruct (make_room now (period days) m) as [m1 room] eqn:Hroom.
    pose proof (make_room_lookup now (period days) m k t Hk) as Hl. rewrite Hroom in Hl. cbn [fst] in Hl.
    destruct room; [|naive_solver]. destruct (writable _); [|naive_solver].
    destruct (decide (k = marker_name sender)) as [->|Hne]; [congruence|].
    rewrite lookup_insert_ne by done. naive_solver.
Qed.

Lemma claim_true now account sender days m m' :
  claim now account sender days m = (true, m') →
  m' !! marker_name sender = Some now ∧ ∀ t, m !! marker_name sender = Some t → t ≤ now ∧ period days ≤ now - t.
Proof.
  unfold claim. destruct (is_plain_component account); cbn [negb]; [|done]. destruct (readable _); cbn [negb]; [|done].
  destruct (m !! marker_name sender) as [t'|].
  - unfold elapsed. destruct (Z.leb_spec t' now); [|done]. destruct (Z.ltb_spec (now - t') (period days)); [done|].
    destruct (writable _); [|done]. intros [= <-]. rewrite lookup_insert_eq. naive_solver.
  - destruct (make_room _ _ _) as [m1 room]. destruct room; [|done]. destruct (writable _); [|done].
    intros [= <-]. rewrite lookup_insert_eq. naive_solver.
Qed.

Lemma claims_lookup account l m k t d last :
  m !! k = Some t → Forall (λ q, d ≤ q.2 ∧ q.1.1 ≤ last) l →
  (claims account l m !! k = Some t ∨ period d ≤ last - t).
Proof.
  intros Hk Hl. revert m Hk. induction Hl as [|[[now sender] days] l [Hd Hlast] Hl IH]; intros m Hk; cbn [claims fold_left]; [by left|].
  cbn [fst snd] in *. pose proof (claim_lookup now account sender days m k t Hk) as Hc.
  destruct (claim now account sender days m) as [ok m']. cbn [snd]. pose proof (period_mono d days Hd).
  destruct Hc as [Hc|[Hc|[_ Hc]]]; [by apply IH|right; lia|right; lia].
Qed.

Lemma make_room_size now p m : (make_room now p m).2 = true → (size (make_room now p m).1 < MAX_MARKERS)%nat.
Proof.
  unfold make_room. destruct listable; cbn [negb]; [|done]. destruct (Nat.ltb_spec (size m) MAX_MARKERS); cbn [fst snd]; [done|].
  by intros Hs%Nat.ltb_lt.
Qed.

Lemma make_room_le now p m : (size (make_room now p m).1 ≤ size m)%nat.
Proof.
  unfold make_room. destruct listable; cbn [negb fst]; [|done]. destruct (_ <? _)%nat; cbn [fst]; [done|].
  apply map_size_filter.
Qed.

Lemma claim_size now account sender days m :
  (size m ≤ MAX_MARKERS)%nat → (size (claim now account sender days m).2 ≤ MAX_MARKERS)%nat.
Proof.
  intros Hm. unfold claim. destruct (is_plain_component account); cbn [negb]; [|done]. destruct (readable _); cbn [negb]; [|done].
  destruct (m !! marker_name sender) as [t'|] eqn:Hk.
  - destruct (elapsed _ _); [|done]. destruct (_ <? _); [done|]. destruct (writable _); cbn [snd]; [|done].
    by rewrite map_size_insert_Some by done.
  - pose proof (make_room_size now (period days) m) as Hs. pose proof (make_room_le now (period days) m) as Hle.
    destruct (make_room _ _ _) as [m1 room]. cbn [fst snd] in *.
    destruct room; cbn [snd]; [|lia]. destruct (writable _); cbn [snd]; [|lia].
    specialize (Hs eq_refl). destruct (m1 !! marker_name sender) eqn:E.
    + rewrite map_size_insert_Some by eauto. lia.
    + rewrite map_size_insert_None by done. lia.
Qed.

(** C30: however the mail comes in, an account answers a sender, in whatever
    case the address is written, at most once in a period: between two
    replies lies at least the shortest period any of the messages between
    them asked for. And it never keeps more than 4,096 markers. *)
Theorem vacation_once_per_period account l1 l2 t1 s1 d1 t2 s2 d2 d m1 m2
    (H1 : claim t1 account s1 d1 (claims account l1 ∅) = (true, m1))
    (H2 : claim t2 account s2 d2 (claims account l2 m1) = (true, m2))
    (Hsame : eq_ignore_ascii_case s1 s2 = true)
    (Hbetween : Forall (λ q, d ≤ q.2 ∧ q.1.1 ≤ t2) l2) (Hd : d ≤ d2) :
  period d ≤ t2 - t1 ∧ (size m2 ≤ MAX_MARKERS)%nat.
Proof.
  apply eq_ignore_ascii_case_spec in Hsame. split.
  - destruct (claim_true _ _ _ _ _ _ H1) as [Hk _]. destruct (claim_true _ _ _ _ _ _ H2) as [_ Hage].
    assert (Hname : marker_name s2 = marker_name s1) by (unfold marker_name; by rewrite Hsame). rewrite Hname in Hage.
    destruct (claims_lookup account l2 m1 _ _ d t2 Hk Hbetween) as [Hl|Hl]; [|lia].
    apply Hage in Hl as [_ Hl]. pose proof (period_mono d d2 Hd). lia.
  - assert (Hsize : ∀ l m, (size m ≤ MAX_MARKERS)%nat → (size (claims account l m) ≤ MAX_MARKERS)%nat).
    { induction l as [|q l IH]; intros m Hm; [done|]. cbn [claims fold_left]. apply IH. by apply claim_size. }
    assert (size m1 ≤ MAX_MARKERS)%nat.
    { change m1 with (true, m1).2. rewrite <-H1. apply claim_size, Hsize. rewrite map_size_empty. unfold MAX_MARKERS. lia. }
    change m2 with (true, m2).2. rewrite <-H2. by apply claim_size, Hsize.
Qed.

End rate.

(** A week apart, with a message of the same sender refused in between. *)
Lemma vacation_once_per_period_witness :
  let _ := {| digest := λ s, s; readable := λ _, true; listable := true; writable := λ _, true; removable := λ _, true |} in
  period 7 ≤ 604800000000000 - 0.
Proof.
  intros store.
  eapply (vacation_once_per_period (lit "alice") [] [(86400000000000, lit "bob@example.org", 7)] 0 (lit "bob@example.org") 7
    604800000000000 (lit "Bob@example.org") 7 7); [by vm_compute|by vm_compute|by vm_compute| |done].
  repeat constructor; done.
Defined.
