(* ===== verification/SieveEval.v ===== *)
(** The tests of a Sieve script: the comparisons of
    src/src/sieve/compare/mod.rs on a run's budget, the key lists of
    src/src/sieve/key_set/mod.rs, and src/src/sieve/eval.rs.

    A function that has the run's state as [&mut Env] is a state-passing
    function here. [None] is a panic or the end of a loop's fuel, and never
    comes. The clock that [currentdate] reads when the message has no time of
    its own is an argument. *)

From S2P Require Import Prelude RustStd Utf8 Slices Mutf7 SieveMatch SieveLexer SieveParser.
From S2P Require Import SieveEnv SieveKeySet SieveMessage SieveDate.

Local Open Scope Z_scope.

(** ** State passing *)

Definition run (A : Type) : Type := Env → option (A * Env).

Definition r_ret {A} (a : A) : run A := λ e, Some (a, e).
Definition r_bind {A B} (m : run A) (k : A → run B) : run B := λ e,
  match m e with Some (a, e) => k a e | None => None end.
(** A change of the state. *)
Definition r_do (f : Env → Env) : run unit := λ e, Some (tt, f e).
(** A computation that may panic. *)
Definition r_lift {A} (o : option A) : run A := λ e, match o with Some a => Some (a, e) | None => None end.
Definition r_charge (units : Z) : run bool := λ e, Some (charge units e).
Definition r_step : run bool := λ e, Some (step e).
Definition r_when (b : bool) (m : run unit) : run unit := if b then m else r_ret tt.

Declare Scope run_scope.
Delimit Scope run_scope with run.
Notation "'let*' x := m 'in' k" := (r_bind m (λ x, k)) (at level 200, x name, k at level 200) : run_scope.
Local Open Scope run_scope.

(** [Iterator::any] and [Iterator::all], which stop at an answer. *)
Section Iterators.
Context {A : Type} (f : A → run bool).

Fixpoint any_of (l : list A) : run bool :=
  match l with
  | [] => r_ret false
  | x :: l => let* b := f x in if b then r_ret true else any_of l
  end.

Fixpoint all_of (l : list A) : run bool :=
  match l with
  | [] => r_ret true
  | x :: l => let* b := f x in if b then all_of l else r_ret false
  end.
End Iterators.

(** ** Arguments *)

Definition has_tag (args : list Argument) (tag : list Z) : bool :=
  existsb (λ a, match a with ATag t => str_eqb t tag | _ => false end) args.

(** All bare strings, flattening string lists. *)
Definition strings (args : list Argument) : list (list Z) :=
  flat_map (λ a, match a with AStr s => [s] | AStrList l => l | _ => [] end) args.

(** The string that follows a tag; the argument after a tag of that name is
    passed over when it is no string. *)
Fixpoint tag_arg (args : list Argument) (name : list Z) : option (list Z) :=
  match args with
  | [] => None
  | a :: args =>
      match a with
      | ATag tag =>
          if eq_ignore_ascii_case tag name then
            match args with
            | [] => None
            | AStr value :: _ => Some value
            | _ :: args => tag_arg args name
            end
          else tag_arg args name
      | _ => tag_arg args name
      end
  end.

Definition consumes_string (tag : list Z) : bool :=
  let t := to_ascii_lowercase tag in
  str_eqb t (lit "comparator") || str_eqb t (lit "value") || str_eqb t (lit "count").

Fixpoint positional_loop (args : list Argument) (skip : bool) : list (list (list Z)) :=
  match args with
  | [] => []
  | a :: args =>
      match a with
      | ATag tag => positional_loop args (consumes_string tag)
      | AStr value => if skip then positional_loop args false else [value] :: positional_loop args false
      | AStrList l => l :: positional_loop args false
      | ANumber _ => positional_loop args false
      end
  end.

Definition positional_groups (args : list Argument) : list (list (list Z)) := positional_loop args false.

Definition positional_strings (args : list Argument) : list (list Z) := concat (positional_groups args).

Definition split_names_keys (args : list Argument) : option (list (list Z) * list (list Z)) :=
  match positional_groups args with
  | names :: (_ :: _) as keys => Some (names, concat keys)
  | _ => None
  end.

(** ** Comparisons *)

Inductive MatchType := MIs | MContains | MMatches | MValue (rel : Rel) | MCount (rel : Rel).

Record MatchSpec := mkMatchSpec { s_type : MatchType; s_collation : Collation }.

Definition tag_rel (args : list Argument) (name : list Z) : option Rel := r ← tag_arg args name; rel_parse r.

Definition match_spec (args : list Argument) : MatchSpec :=
  let collation :=
    match tag_arg args (lit "comparator") with Some name => collation_from_name name | None => AsciiCasemap end in
  let match_type :=
    match tag_rel args (lit "count") with
    | Some rel => MCount rel
    | None =>
        match tag_rel args (lit "value") with
        | Some rel => MValue rel
        | None =>
            if has_tag args (lit "contains") then MContains
            else if has_tag args (lit "matches") then MMatches
            else MIs
        end
    end in
  mkMatchSpec match_type collation.

Definition count_rel (spec : MatchSpec) : option Rel := match s_type spec with MCount rel => Some rel | _ => None end.

Definition contains_fold (spec : MatchSpec) : option bool :=
  match s_type spec with
  | MContains => Some match s_collation spec with AsciiCasemap => true | _ => false end
  | _ => None
  end.

Definition count_matches (spec : MatchSpec) (rel : Rel) (count : Z) (key : list Z) : bool :=
  rel_test rel (order (s_collation spec) (decimal count) key).

Definition COMPARISON_COST : Z := 64.

Definition lowercase_prefix (text : list Z) (limit : Z) : list Z :=
  to_ascii_lowercase (floor_boundary (Z.to_nat (Z.min (octets text) limit)) text).

Definition glob_match (pattern text : list Z) : option bool :=
  '(_, g) ← glob pattern text 0 MAX_WORK;
  Some match g with GMatch _ => true | _ => false end.

Definition test_simple (spec : MatchSpec) (value key : list Z) : option bool :=
  match s_type spec with
  | MIs => Some match order (s_collation spec) value key with Eq => true | _ => false end
  | MContains => collation_contains (s_collation spec) value key
  | MValue rel => Some (rel_test rel (order (s_collation spec) value key))
  | MMatches => glob_match key value
  | MCount _ => Some false
  end.

Definition compare (spec : MatchSpec) (value key : list Z) : run bool :=
  match s_type spec with
  | MMatches => λ e,
      match glob key value 0 (remaining_work e) with
      | None => None
      | Some (steps, outcome) =>
          (let* paid := r_charge steps in
           if negb paid then r_ret false
           else
             match outcome with
             | GMatch spans =>
                 let parts := map (λ s, lowercase_prefix (span_text value s) MAX_VAR_BYTES) spans in
                 let* _ := r_do (set_captures value parts) in r_ret true
             | GNoMatch => r_ret false
             | GOverCaps => let* _ := r_do note_pattern_over_caps in r_ret false
             | GOutOfBudget => let* _ := r_do abandon in r_ret false
             end) e
      end
  | _ => r_lift (test_simple spec value key)
  end.

Definition test (spec : MatchSpec) (value key : list Z) : run bool :=
  let* paid := r_charge (octets value + octets key + COMPARISON_COST) in
  if negb paid then r_ret false else compare spec value key.

Definition test_read (spec : MatchSpec) (value key : list Z) : run bool :=
  let pass := match s_type spec with MContains | MMatches => octets value / 4 | _ => 0 end in
  let* paid := r_charge (pass + octets key + COMPARISON_COST) in
  if negb paid then r_ret false else compare spec value key.

(** ** Lists of keys *)

Record Keys := mkKeys { k_keys : list (list Z); k_set : option (list Node * bool); k_empty_key : bool }.

Definition sum_octets (l : list (list Z)) : Z := foldr (λ s n, octets s + n) 0 l.

Definition keys_new (spec : MatchSpec) (keys : list (list Z)) : run Keys :=
  let prepared := mkKeys keys None false in
  match contains_fold spec with
  | None => r_ret prepared
  | Some fold =>
      let bytes := sum_octets keys in
      if (length keys <? MIN_KEYS)%nat || (MAX_KEY_BYTES <? bytes) then r_ret prepared
      else
        let* paid := r_charge (bytes + KEY_COST * Z.of_nat (length keys)) in
        if negb paid then r_ret prepared
        else
          let* nodes := r_lift (build keys fold) in
          r_ret (mkKeys keys (Some (nodes, fold)) (existsb is_empty keys))
  end.

Definition keys_any (keys : Keys) (spec : MatchSpec) (value : list Z) : run bool :=
  match k_set keys with
  | None => any_of (test_read spec value) (k_keys keys)
  | Some (nodes, fold) =>
      let* paid := r_charge (octets value + KEY_COST) in
      if negb paid then r_ret false
      else if k_empty_key keys then r_ret true
      else r_lift (found_in nodes fold value)
  end.

(** ** Parts of addresses *)

Inductive AddressPart := PAll | PLocal | PDomain | PUser | PDetail.

Definition SUBADDRESS_SEPARATOR : Z := 43.

Definition address_part (args : list Argument) : AddressPart :=
  if has_tag args (lit "localpart") then PLocal
  else if has_tag args (lit "domain") then PDomain
  else if has_tag args (lit "user") then PUser
  else if has_tag args (lit "detail") then PDetail
  else PAll.

Definition part_of (part : AddressPart) (addr : list Z) : option (list Z) :=
  let local := match rsplit_once 64 addr with Some (local, _) => local | None => addr end in
  match part with
  | PAll => Some addr
  | PLocal => fst <$> rsplit_once 64 addr
  | PDomain => snd <$> rsplit_once 64 addr
  | PUser => Some match split_once SUBADDRESS_SEPARATOR local with Some (user, _) => user | None => local end
  | PDetail => snd <$> split_once SUBADDRESS_SEPARATOR local
  end.

(** What is between the last [<] and the next [>], else the value trimmed. *)
Definition addr_spec (value : list Z) : list Z :=
  match rsplit_once 60 value with
  | Some (_, after) =>
      match split_once 62 after with
      | Some (inner, _) => trim inner
      | None => trim value
      end
  | None => trim value
  end.

(** ** Tests *)

Definition lookup_cost (name : list Z) : Z := 64 + octets name.

Definition mark_if (b : bool) : run unit := r_when b (r_do mark_truncated).

Definition exists_test (t : Test) (m : Message) : run bool :=
  let* _ := mark_if (m_headers_cut m) in
  all_of (λ name, let* paid := r_charge (lookup_cost name) in r_ret (paid && has_header m name)) (strings (t_args t)).

Definition mailbox_exists (name : list Z) (mailboxes : list (list Z)) : bool :=
  eq_ignore_ascii_case name (lit "INBOX") || existsb (str_eqb (Mutf7.encode name)) mailboxes.

Definition mailboxexists_test (t : Test) (m : Message) : bool :=
  match m_mailboxes m with
  | None => false
  | Some mailboxes => forallb (λ name, mailbox_exists name mailboxes) (positional_strings (t_args t))
  end.

(** Test extracted values against keys, honoring [:count]. *)
Definition match_values (spec : MatchSpec) (values keys : list (list Z)) : run bool :=
  match count_rel spec with
  | Some rel => r_ret (existsb (count_matches spec rel (Z.of_nat (length values))) keys)
  | None =>
      let* keys := keys_new spec keys in
      any_of (keys_any keys spec) values
  end.

(** The charge for each name looked up. *)
Definition charge_names (names : list (list Z)) : run bool := all_of (λ name, r_charge (lookup_cost name)) names.

Definition header_test (t : Test) (m : Message) : run bool :=
  let spec := match_spec (t_args t) in
  match split_names_keys (t_args t) with
  | None => r_ret false
  | Some (names, keys) =>
      let* paid := charge_names names in
      if negb paid then r_ret false
      else
        let* seen := r_lift (visible_headers m names) in
        match count_rel spec with
        | Some rel =>
            let* _ := mark_if (v_headers_cut seen) in
            r_ret (existsb (count_matches spec rel (v_count seen)) keys)
        | None =>
            let* _ := mark_if (v_truncated seen) in
            let* keys := keys_new spec keys in
            (fix values (l : list (list Z)) : run bool :=
               match l with
               | [] => r_ret false
               | value :: l =>
                   let* paid := r_charge (octets value) in
                   if negb paid then r_ret false
                   else
                     let* found := keys_any keys spec value in
                     if found then r_ret true else values l
               end) (v_values seen)
        end
  end.

(** The parts of the addresses in header values, each paid for first; [None]
    is a run out of work. *)
Fixpoint extract_parts (part : AddressPart) (values extracted : list (list Z)) : run (option (list (list Z))) :=
  match values with
  | [] => r_ret (Some extracted)
  | value :: values =>
      let* paid := r_charge (octets value) in
      if negb paid then r_ret None
      else
        extract_parts part values
          (extracted ++ match part_of part (addr_spec value) with Some p => [p] | None => [] end)
  end.

Definition address_test (t : Test) (m : Message) : run bool :=
  let spec := match_spec (t_args t) in
  match split_names_keys (t_args t) with
  | None => r_ret false
  | Some (names, keys) =>
      let part := address_part (t_args t) in
      let* paid := charge_names names in
      if negb paid then r_ret false
      else
        let* seen := r_lift (visible_headers m names) in
        let* _ := mark_if (v_truncated seen) in
        let* extracted := extract_parts part (v_values seen) [] in
        match extracted with
        | None => r_ret false
        | Some extracted => match_values spec extracted keys
        end
  end.

Definition envelope_values (m : Message) (which : list Z) : list (list Z) :=
  let w := to_ascii_lowercase which in
  if str_eqb w (lit "from") then match m_envelope_from m with Some f => [f] | None => [] end
  else if str_eqb w (lit "to") then m_envelope_to m
  else [].

Definition envelope_test (t : Test) (m : Message) : run bool :=
  let spec := match_spec (t_args t) in
  match split_names_keys (t_args t) with
  | None => r_ret false
  | Some (parts, keys) =>
      let part := address_part (t_args t) in
      let extracted := omap (λ address, part_of part (addr_spec address)) (flat_map (envelope_values m) parts) in
      let* paid := r_charge (sum_octets extracted) in
      if negb paid then r_ret false else match_values spec extracted keys
  end.

Definition body_test (t : Test) (m : Message) : run bool :=
  let spec := match_spec (t_args t) in
  let '(body, truncated) := body_window m in
  let* _ := mark_if truncated in
  let* paid := r_charge (octets body) in
  if negb paid then r_ret false
  else
    let* keys := keys_new spec (positional_strings (t_args t)) in
    keys_any keys spec body.

Definition number_arg (args : list Argument) : option Z :=
  head (flat_map (λ a, match a with ANumber n => [n] | _ => [] end) args).

Definition size_test (t : Test) (m : Message) : bool :=
  match number_arg (t_args t) with
  | None => false
  | Some limit =>
      if has_tag (t_args t) (lit "over") then limit <? m_size m
      else if has_tag (t_args t) (lit "under") then m_size m <? limit
      else false
  end.

Definition date_test (t : Test) (m : Message) : run bool :=
  let spec := match_spec (t_args t) in
  match positional_strings (t_args t) with
  | header :: part :: (_ :: _) as keys =>
      let* paid := r_charge (lookup_cost header) in
      if negb paid then r_ret false
      else
        let* seen := r_lift (visible_headers m [header]) in
        let* _ := mark_if (v_truncated seen) in
        (fix values (l : list (list Z)) : run bool :=
           match l with
           | [] => r_ret false
           | value :: l =>
               let* paid := r_charge (octets value) in
               if negb paid then r_ret false
               else
                 match extract_part value part with
                 | Some extracted =>
                     let* found := any_of (test spec extracted) keys in
                     if found then r_ret true else values l
                 | None => values l
                 end
           end) (v_values seen)
  | _ => r_ret false
  end.

Definition currentdate_test (clock : Z) (t : Test) (m : Message) : run bool :=
  let spec := match_spec (t_args t) in
  match positional_strings (t_args t) with
  | part :: (_ :: _) as keys =>
      let now := default clock (m_now m) in
      match extract_part_from_unix now part with
      | None => r_ret false
      | Some extracted => any_of (test spec extracted) keys
      end
  | _ => r_ret false
  end.

Fixpoint eval_test (clock : Z) (m : Message) (t : Test) : run bool :=
  let* going := r_step in
  if negb going then r_ret false
  else
    let is_ name := str_eqb (t_name t) name in
    if is_ (lit "true") then r_ret true
    else if is_ (lit "false") then r_ret false
    else if is_ (lit "not") then
      match t_children t with
      | c :: _ => let* b := eval_test clock m c in r_ret (negb b)
      | [] => r_ret true
      end
    else if is_ (lit "allof") then all_of (eval_test clock m) (t_children t)
    else if is_ (lit "anyof") then any_of (eval_test clock m) (t_children t)
    else if is_ (lit "exists") then exists_test t m
    else if is_ (lit "header") then header_test t m
    else if is_ (lit "address") then address_test t m
    else if is_ (lit "envelope") then envelope_test t m
    else if is_ (lit "body") then body_test t m
    else if is_ (lit "size") then r_ret (size_test t m)
    else if is_ (lit "date") then date_test t m
    else if is_ (lit "currentdate") then currentdate_test clock t m
    else if is_ (lit "mailboxexists") then r_ret (mailboxexists_test t m)
    else r_ret false.

(** ** What every test keeps

    A computation that is [good] answers, keeps the invariant of the run,
    does not take back that the run is exhausted, and, if it is [safe], notes
    no pattern over the caps. *)

Definition good {A} (safe : Prop) (m : run A) : Prop := ∀ e, env_ok e →
  ∃ a e', m e = Some (a, e') ∧ env_ok e' ∧ (e_exhausted e = true → e_exhausted e' = true) ∧
    (safe → e_pattern_over_caps e' = e_pattern_over_caps e).

Create HintDb sieve.

Lemma good_ret {A} safe (a : A) : good safe (r_ret a).
Proof. intros e He. by exists a, e. Qed.

Lemma good_bind {A B} safe (m : run A) (k : A → run B) : good safe m → (∀ a, good safe (k a)) → good safe (r_bind m k).
Proof.
  intros Hm Hk e He. destruct (Hm e He) as (a & e1 & Heq & He1 & Hx1 & Hc1).
  destruct (Hk a e1 He1) as (b & e2 & Heq2 & He2 & Hx2 & Hc2). exists b, e2. unfold r_bind. rewrite Heq, Heq2.
  split_and!; auto. intros Hs. rewrite Hc2, Hc1; auto.
Qed.

Lemma good_charge safe units : 0 ≤ units → good safe (r_charge units).
Proof.
  intros Hu e He. unfold r_charge. destruct (charge units e) as [b e'] eqn:Hc. exists b, e'. split; [done|].
  pose proof (env_ok_charge units e Hu He) as Hok. rewrite Hc in Hok. injection Hc as <- <-.
  split_and!; [done| |done]. by intros ->.
Qed.

Lemma good_step safe : good safe r_step.
Proof.
  intros e He. unfold r_step. destruct (step e) as [b e'] eqn:Hc. exists b, e'. split; [done|].
  pose proof (env_ok_step e He) as Hok. rewrite Hc in Hok. injection Hc as <- <-. split_and!; [done| |done]. by intros ->.
Qed.

Lemma good_do safe f :
  (∀ e, env_ok e → env_ok (f e)) → (∀ e, e_exhausted e = true → e_exhausted (f e) = true) →
  (safe → ∀ e, e_pattern_over_caps (f e) = e_pattern_over_caps e) → good safe (r_do f).
Proof. intros H1 H2 H3 e He. exists tt, (f e). split_and!; auto. Qed.

Lemma good_lift {A} safe (o : option A) : is_Some o → good safe (r_lift o).
Proof. intros [a ->] e He. by exists a, e. Qed.

Lemma good_when safe b m : good safe m → good safe (r_when b m).
Proof. destruct b; [done|]. intros _. apply good_ret. Qed.

Lemma good_any {A} safe (f : A → run bool) l : Forall (λ x, good safe (f x)) l → good safe (any_of f l).
Proof.
  induction 1 as [|x l Hx Hl IH]; cbn [any_of]; [apply good_ret|]. apply good_bind; [done|]. intros []; [apply good_ret|done].
Qed.

Lemma good_all {A} safe (f : A → run bool) l : Forall (λ x, good safe (f x)) l → good safe (all_of f l).
Proof.
  induction 1 as [|x l Hx Hl IH]; cbn [all_of]; [apply good_ret|]. apply good_bind; [done|]. intros []; [done|apply good_ret].
Qed.

Lemma good_mark safe b : good safe (mark_if b).
Proof. apply good_when, good_do; [apply env_ok_mark_truncated|done|done]. Qed.

Lemma sum_octets_nonneg l : 0 ≤ sum_octets l.
Proof. induction l as [|s l IH]; cbn; [done|]. fold (sum_octets l). pose proof (octets_nonneg s). lia. Qed.

Lemma lookup_cost_nonneg name : 0 ≤ lookup_cost name.
Proof. unfold lookup_cost. pose proof (octets_nonneg name). lia. Qed.

#[export] Hint Resolve good_ret good_bind good_charge good_step good_mark octets_nonneg sum_octets_nonneg
  lookup_cost_nonneg : sieve.

(** ** Comparisons *)

Lemma glob_total pattern text steps budget : 0 ≤ steps →
  ∃ st g, glob pattern text steps budget = Some (st, g) ∧ 0 ≤ st ∧ (g = GOverCaps → over_caps pattern).
Proof.
  intros Hs. destruct (decide (over_caps pattern)) as [Hc|Hc].
  - rewrite glob_caps by done. by exists steps, GOverCaps.
  - destruct (glob_within pattern text steps budget Hc) as (st & g & -> & Hle & Hok). exists st, g.
    split_and!; [done|lia|]. by intros ->.
Qed.

Lemma contains_total value key : is_Some (contains_ignoring_case value key).
Proof.
  unfold contains_ignoring_case. destruct (to_ascii_lowercase (as_bytes key)) as [|c rest] eqn:E; [eauto|].
  destruct (kmp_correct (c :: rest) (to_ascii_lowercase (as_bytes value))) as (b & Hb & _); [done|]. cbn [tail] in Hb.
  rewrite Hb. eauto.
Qed.

Lemma test_simple_total spec value key : is_Some (test_simple spec value key).
Proof.
  unfold test_simple. destruct (s_type spec); try (by eexists).
  - unfold collation_contains. destruct (s_collation spec); [apply contains_total|eauto|eauto].
  - unfold glob_match. destruct (glob_total key value 0 MAX_WORK) as (st & g & -> & _); [done|]. cbn. eauto.
Qed.

Definition key_safe (spec : MatchSpec) (key : list Z) : Prop := s_type spec = MMatches → ¬ over_caps key.

Lemma good_compare spec value key : good (key_safe spec key) (compare spec value key).
Proof.
  unfold compare, key_safe. destruct (s_type spec) eqn:Ht; try (apply good_lift, test_simple_total).
  intros e He. destruct (glob_total key value 0 (remaining_work e)) as (st & g & Hg & Hst & Hover); [done|].
  rewrite Hg. revert e He Hg. enough (Hgood : good (MMatches = MMatches → ¬ over_caps key)
    (let* paid := r_charge st in
     if negb paid then r_ret false
     else match g with
          | GMatch spans =>
              let* _ := r_do (set_captures value (map (λ s, lowercase_prefix (span_text value s) MAX_VAR_BYTES) spans))
              in r_ret true
          | GNoMatch => r_ret false
          | GOverCaps => let* _ := r_do note_pattern_over_caps in r_ret false
          | GOutOfBudget => let* _ := r_do abandon in r_ret false
          end)) by (intros e He _; by apply Hgood).
  apply good_bind; [by apply good_charge|]. intros []; cbn [negb]; [|apply good_ret].
  destruct g; [| apply good_ret | |]; (apply good_bind; [|intros; apply good_ret]); apply good_do; try done.
  - intros. by apply env_ok_set_captures.
  - apply env_ok_note.
  - intros Hsafe. exfalso. by apply Hsafe, Hover.
  - apply env_ok_set_exhausted.
Qed.

Lemma good_paid {A} safe units (a : A) m : 0 ≤ units → good safe m →
  good safe (let* paid := r_charge units in if negb paid then r_ret a else m).
Proof. intros Hu Hm. apply good_bind; [by apply good_charge|]. intros []; [done|apply good_ret]. Qed.

Lemma good_test spec value key : good (key_safe spec key) (test spec value key).
Proof.
  apply good_paid; [|apply good_compare].
  pose proof (octets_nonneg value). pose proof (octets_nonneg key). unfold COMPARISON_COST. lia.
Qed.

Lemma good_test_read spec value key : good (key_safe spec key) (test_read spec value key).
Proof.
  apply good_paid; [|apply good_compare].
  pose proof (octets_nonneg value). pose proof (octets_nonneg key). unfold COMPARISON_COST.
  assert (0 ≤ octets value / 4) by (apply Z.div_pos; lia). destruct (s_type spec); lia.
Qed.

Definition keys_safe (spec : MatchSpec) (keys : list (list Z)) : Prop := Forall (key_safe spec) keys.

Lemma good_weaken {A} (safe safe' : Prop) (m : run A) : (safe' → safe) → good safe m → good safe' m.
Proof. intros Hs Hm e He. destruct (Hm e He) as (a & e' & ? & ? & ? & ?). exists a, e'. split_and!; auto. Qed.

Lemma good_any_keys spec keys (f : list Z → run bool) :
  (∀ key, good (key_safe spec key) (f key)) → good (keys_safe spec keys) (any_of f keys).
Proof.
  intros Hf. apply good_any, Forall_forall. intros key Hin. eapply good_weaken; [|apply Hf].
  unfold keys_safe. rewrite Forall_forall. eauto.
Qed.

(** The automaton answers whatever was prepared. *)
Definition keys_ok (spec : MatchSpec) (keys : list (list Z)) (k : Keys) : Prop :=
  k_keys k = keys ∧
  match k_set k with
  | None => True
  | Some (nodes, fold) => ∀ value, k_empty_key k = false → is_Some (found_in nodes fold value)
  end.

Lemma good_with {A} (P : A → Prop) safe (m : run A) :
  (∀ e a e', m e = Some (a, e') → P a) → good safe m → ∀ B (k : A → run B), (∀ a, P a → good safe (k a)) →
  good safe (r_bind m k).
Proof.
  intros HP Hm B k Hk e He. destruct (Hm e He) as (a & e1 & Heq & He1 & Hx1 & Hc1).
  destruct (Hk a (HP _ _ _ Heq) e1 He1) as (b & e2 & Heq2 & He2 & Hx2 & Hc2). exists b, e2. unfold r_bind.
  rewrite Heq, Heq2. split_and!; auto. intros Hs. rewrite Hc2, Hc1; auto.
Qed.

Lemma build_total keys fold : ∃ nodes, build keys fold = Some nodes ∧
  (existsb is_empty keys = false → ∀ value, is_Some (found_in nodes fold value)).
Proof.
  destruct (build_folded_ok (map (folded fold) keys)) as (nodes & Hb & Hf). exists nodes. split; [done|].
  intros Hne value. destruct (Hf) with (text := folded fold value) as (b & Hb' & _); [|by exists b].
  intros (key & Heq & Hin)%list_elem_of_fmap. symmetry in Heq. apply map_eq_nil, as_bytes_empty in Heq as ->.
  apply existsb_false_Forall in Hne. rewrite Forall_forall in Hne. by specialize (Hne _ Hin).
Qed.

Lemma keys_new_ok safe spec keys :
  good safe (keys_new spec keys) ∧ ∀ e k e', keys_new spec keys e = Some (k, e') → keys_ok spec keys k.
Proof.
  unfold keys_new. destruct (contains_fold spec) as [fold|].
  2:{ split; [apply good_ret|]. by intros e k e' [= <- <-]. }
  destruct (_ || _). { split; [apply good_ret|]. by intros e k e' [= <- <-]. }
  destruct (build_total keys fold) as (nodes & Hb & Hf). rewrite Hb. split.
  - apply good_paid; [|apply good_bind; [by apply good_lift|intros; apply good_ret]].
    pose proof (sum_octets_nonneg keys). unfold KEY_COST. lia.
  - intros e k e'. unfold r_bind, r_charge. destruct (charge _ e) as [[] e1]; cbn; intros [= <- <-]; [|done].
    split; [done|]. cbn. auto.
Qed.

Lemma good_keys_any spec keys k value : keys_ok spec keys k → good (keys_safe spec keys) (keys_any k spec value).
Proof.
  intros [<- Hset]. unfold keys_any. destruct (k_set k) as [[nodes fold]|].
  - apply good_paid; [pose proof (octets_nonneg value); unfold KEY_COST; lia|].
    destruct (k_empty_key k) eqn:Hk; [apply good_ret|]. by apply good_lift, Hset.
  - apply good_any_keys. intros. apply good_test_read.
Qed.

Lemma good_keys spec keys B (f : Keys → run B) :
  (∀ k, keys_ok spec keys k → good (keys_safe spec keys) (f k)) →
  good (keys_safe spec keys) (let* k := keys_new spec keys in f k).
Proof. intros Hf. destruct (keys_new_ok (keys_safe spec keys) spec keys) as [Hg Hok]. by eapply good_with. Qed.

(** ** Tests *)

(** No [:matches] key of the arguments is over the caps. *)
Definition args_safe (args : list Argument) : Prop :=
  has_tag args (lit "matches") = true → Forall (λ key, ¬ over_caps key) (strings args).

Fixpoint test_safe (t : Test) : Prop :=
  args_safe (t_args t) ∧ foldr (λ c P, test_safe c ∧ P) True (t_children t).

Lemma match_spec_matches args : s_type (match_spec args) = MMatches → has_tag args (lit "matches") = true.
Proof.
  unfold match_spec. cbn [s_type]. repeat (case_match; try done).
Qed.

Lemma positional_strings_incl args skip : concat (positional_loop args skip) ⊆ strings args.
Proof.
  revert skip. induction args as [|a args IH]; intros skip; [done|]. unfold strings. cbn [positional_loop flat_map].
  fold (strings args). pose proof (IH false). pose proof (λ b, IH b).
  destruct a as [v|l|n|t]; cbn; [destruct skip; cbn| | |specialize (IH (consumes_string t))]; set_solver.
Qed.

Lemma positional_safe args keys :
  args_safe args → keys ⊆ concat (positional_groups args) → keys_safe (match_spec args) keys.
Proof.
  intros Hs Hin. apply Forall_forall. intros key Hkey Ht. apply match_spec_matches in Ht. specialize (Hs Ht).
  rewrite Forall_forall in Hs. apply Hs, (positional_strings_incl args false), Hin, Hkey.
Qed.

Lemma split_safe args names keys :
  split_names_keys args = Some (names, keys) → args_safe args → keys_safe (match_spec args) keys.
Proof.
  unfold split_names_keys. destruct (positional_groups args) as [|ns [|g gs]] eqn:Hg; try done.
  intros [= <- <-] Hs. apply positional_safe; [done|]. rewrite Hg. cbn. set_solver.
Qed.

Section Message.
Context (m : Message) (Hm : message_ok m).

Lemma visible_total names : is_Some (visible_headers m names).
Proof.
  unfold visible_headers. edestruct (show_names_ok m names Hm 0) as (shown & count & tr & -> & _); [done|]. eauto.
Qed.

Lemma good_charge_names safe names : good safe (charge_names names).
Proof. apply good_all, Forall_true. intros. apply good_charge, lookup_cost_nonneg. Qed.

Lemma good_exists safe t : good safe (exists_test t m).
Proof.
  apply good_bind; [apply good_mark|]. intros _. apply good_all, Forall_true. intros name.
  apply good_bind; [apply good_charge, lookup_cost_nonneg|]. intros. apply good_ret.
Qed.

Lemma good_match_values spec values keys : good (keys_safe spec keys) (match_values spec values keys).
Proof.
  unfold match_values. destruct (count_rel spec); [apply good_ret|]. apply good_keys. intros k Hk.
  apply good_any, Forall_true. intros. by apply good_keys_any.
Qed.

Lemma good_guard {A} safe (c : run bool) (a : A) k : good safe c → good safe k →
  good safe (let* paid := c in if negb paid then r_ret a else k).
Proof. intros Hc Hk. apply good_bind; [done|]. intros []; [done|apply good_ret]. Qed.

Lemma good_header t : good (args_safe (t_args t)) (header_test t m).
Proof.
  unfold header_test. destruct (split_names_keys (t_args t)) as [[names keys]|] eqn:Hs; [|apply good_ret].
  eapply good_weaken; [intros Hsafe; exact (split_safe _ _ _ Hs Hsafe)|].
  apply good_guard; [apply good_charge_names|]. apply good_bind; [apply good_lift, visible_total|]. intros seen.
  destruct (count_rel _) as [rel|]; (apply good_bind; [apply good_mark|]; intros _); [apply good_ret|].
  apply good_keys. intros k Hk. induction (v_values seen) as [|value l IH]; [apply good_ret|].
  apply good_paid; [apply octets_nonneg|]. apply good_bind; [by apply good_keys_any|]. intros []; [apply good_ret|done].
Qed.

Lemma good_extract safe part values : ∀ extracted, good safe (extract_parts part values extracted).
Proof.
  induction values as [|value values IH]; intros extracted; cbn [extract_parts]; [apply good_ret|].
  apply good_paid; [apply octets_nonneg|apply IH].
Qed.

Lemma good_address t : good (args_safe (t_args t)) (address_test t m).
Proof.
  unfold address_test. destruct (split_names_keys (t_args t)) as [[names keys]|] eqn:Hs; [|apply good_ret].
  eapply good_weaken; [intros Hsafe; exact (split_safe _ _ _ Hs Hsafe)|].
  apply good_guard; [apply good_charge_names|]. apply good_bind; [apply good_lift, visible_total|]. intros seen.
  apply good_bind; [apply good_mark|]. intros _. apply good_bind; [apply good_extract|].
  intros [extracted|]; [apply good_match_values|apply good_ret].
Qed.

Lemma good_envelope t : good (args_safe (t_args t)) (envelope_test t m).
Proof.
  unfold envelope_test. destruct (split_names_keys (t_args t)) as [[parts keys]|] eqn:Hs; [|apply good_ret].
  eapply good_weaken; [intros Hsafe; exact (split_safe _ _ _ Hs Hsafe)|].
  apply good_paid; [apply sum_octets_nonneg|apply good_match_values].
Qed.

Lemma good_body t : good (args_safe (t_args t)) (body_test t m).
Proof.
  unfold body_test. destruct (body_window m) as [body truncated].
  eapply good_weaken; [intros Hsafe; by apply (positional_safe (t_args t) (positional_strings (t_args t)))|].
  apply good_bind; [apply good_mark|]. intros _. apply good_paid; [apply octets_nonneg|].
  apply good_keys. intros k Hk. by apply good_keys_any.
Qed.

Lemma good_date t : good (args_safe (t_args t)) (date_test t m).
Proof.
  unfold date_test. destruct (positional_strings (t_args t)) as [|header [|part [|key keys]]] eqn:Hs; try apply good_ret.
  eapply good_weaken; [intros Hsafe; apply (positional_safe (t_args t) (key :: keys) Hsafe);
    unfold positional_strings in Hs; rewrite Hs; set_solver|].
  apply good_paid; [apply lookup_cost_nonneg|]. apply good_bind; [apply good_lift, visible_total|]. intros seen.
  apply good_bind; [apply good_mark|]. intros _. induction (v_values seen) as [|value l IH]; [apply good_ret|].
  apply good_paid; [apply octets_nonneg|]. destruct (extract_part value part) as [extracted|]; [|done].
  apply good_bind; [apply good_any_keys; intros; apply good_test|]. intros []; [apply good_ret|done].
Qed.

Lemma good_currentdate clock t : good (args_safe (t_args t)) (currentdate_test clock t m).
Proof.
  unfold currentdate_test. destruct (positional_strings (t_args t)) as [|part [|key keys]] eqn:Hs; try apply good_ret.
  eapply good_weaken; [intros Hsafe; apply (positional_safe (t_args t) (key :: keys) Hsafe);
    unfold positional_strings in Hs; rewrite Hs; set_solver|].
  destruct (extract_part_from_unix _ part) as [extracted|]; [|apply good_ret]. apply good_any_keys.
  intros. apply good_test.
Qed.

Lemma good_eval clock : ∀ t, good (test_safe t) (eval_test clock m t).
Proof.
  fix IH 1. intros [name args children]. cbn [eval_test].
  assert (Hsub : Forall (λ c, good (foldr (λ c P, test_safe c ∧ P) True children) (eval_test clock m c)) children).
  { clear -IH. induction children as [|c children IHc]; [constructor|]. constructor.
    - eapply good_weaken; [|apply IH]. by intros [? _].
    - eapply Forall_impl; [exact IHc|]. cbn. intros c' Hc'. eapply good_weaken; [|exact Hc']. by intros [_ ?]. }
  assert (Hkids : ∀ A (r : run A), good (foldr (λ c P, test_safe c ∧ P) True children) r →
    good (test_safe (mkTest name args children)) r).
  { intros A r. apply good_weaken. by intros [_ ?]. }
  assert (Hargs : ∀ A (r : run A), good (args_safe args) r → good (test_safe (mkTest name args children)) r).
  { intros A r. apply good_weaken. by intros [? _]. }
  apply good_guard; [apply good_step|]. cbn [t_name t_children].
  repeat match goal with |- good _ (if ?b then _ else _) => destruct b end; try apply good_ret.
  - destruct children as [|c children]; [apply good_ret|]. apply Hkids.
    apply Forall_cons in Hsub as [Hc _]. apply good_bind; [exact Hc|]. intros. apply good_ret.
  - apply Hkids. by apply good_all.
  - apply Hkids. by apply good_any.
  - apply good_exists.
  - apply Hargs. apply (good_header (mkTest name args children)).
  - apply Hargs. apply (good_address (mkTest name args children)).
  - apply Hargs. apply (good_envelope (mkTest name args children)).
  - apply Hargs. apply (good_body (mkTest name args children)).
  - apply Hargs. apply (good_date (mkTest name args children)).
  - apply Hargs. apply (good_currentdate clock (mkTest name args children)).
Qed.

End Message.
