(* ===== verification/SieveInterp.v ===== *)
(** The Sieve interpreter (src/src/sieve/interp.rs) and what is said of a
    script without running it (src/src/sieve/analysis.rs). *)

From stdpp Require Import gmap.
From S2P Require Import Prelude RustStd Utf8 SieveMatch SieveLexer SieveParser SieveEnv SieveMessage SieveEval.

Local Open Scope Z_scope.
Local Open Scope run_scope.

Definition MAX_REDIRECTS : nat := 4.
Definition MAX_FILEINTO : nat := 8.
Definition MAX_FLAGS : nat := 32.
Definition MAX_FLAG_BYTES : Z := 64.

Record Dropped := mkDropped { d_redirects : nat; d_reject : bool; d_vacation : bool }.

Definition dropped_any (d : Dropped) : bool := (0 <? d_redirects d)%nat || d_reject d || d_vacation d.

Record VacationRequest := mkVacation {
  vr_reason : list Z;
  vr_subject : option (list Z);
  vr_from : option (list Z);
  vr_days : Z
}.

Record Outcome := mkOutcome {
  o_keep : bool;
  o_fileinto : list (list Z);
  o_fileinto_creates : gset (list Z);
  o_redirects : list (list Z);
  o_discarded : bool;
  o_flags : list (list Z);
  o_reject : option (list Z);
  o_vacation : option VacationRequest;
  o_aborted : bool;
  o_inspection_truncated : bool;
  o_pattern_over_caps : bool;
  o_dropped : Dropped;
  o_redirects_over_limit : Z;
  o_fileinto_over_limit : Z
}.

Definition outcome_default : Outcome :=
  mkOutcome false [] ∅ [] false [] None None false false false (mkDropped 0 false false) 0 0.

Record Cancel := mkCancel { k_local : bool; k_external : bool }.

(** What a run changes: the decision, and which actions cancelled the
    implicit keep. *)
Record Verdict := mkVerdict { x_outcome : Outcome; x_cancel : Cancel }.

(** ** Assignments to a field of the outcome *)

Definition set_keep (o : Outcome) : Outcome :=
  mkOutcome true (o_fileinto o) (o_fileinto_creates o) (o_redirects o) (o_discarded o) (o_flags o) (o_reject o)
    (o_vacation o) (o_aborted o) (o_inspection_truncated o) (o_pattern_over_caps o) (o_dropped o)
    (o_redirects_over_limit o) (o_fileinto_over_limit o).

Definition set_discarded (o : Outcome) : Outcome :=
  mkOutcome (o_keep o) (o_fileinto o) (o_fileinto_creates o) (o_redirects o) true (o_flags o) (o_reject o)
    (o_vacation o) (o_aborted o) (o_inspection_truncated o) (o_pattern_over_caps o) (o_dropped o)
    (o_redirects_over_limit o) (o_fileinto_over_limit o).

Definition set_reject (reason : list Z) (o : Outcome) : Outcome :=
  mkOutcome (o_keep o) (o_fileinto o) (o_fileinto_creates o) (o_redirects o) (o_discarded o) (o_flags o)
    (Some reason) (o_vacation o) (o_aborted o) (o_inspection_truncated o) (o_pattern_over_caps o) (o_dropped o)
    (o_redirects_over_limit o) (o_fileinto_over_limit o).

Definition set_vacation (v : option VacationRequest) (o : Outcome) : Outcome :=
  mkOutcome (o_keep o) (o_fileinto o) (o_fileinto_creates o) (o_redirects o) (o_discarded o) (o_flags o) (o_reject o)
    v (o_aborted o) (o_inspection_truncated o) (o_pattern_over_caps o) (o_dropped o)
    (o_redirects_over_limit o) (o_fileinto_over_limit o).

Definition set_fileinto (f : list (list Z)) (creates : gset (list Z)) (over : Z) (o : Outcome) : Outcome :=
  mkOutcome (o_keep o) f creates (o_redirects o) (o_discarded o) (o_flags o) (o_reject o)
    (o_vacation o) (o_aborted o) (o_inspection_truncated o) (o_pattern_over_caps o) (o_dropped o)
    (o_redirects_over_limit o) over.

Definition set_redirects (r : list (list Z)) (over : Z) (o : Outcome) : Outcome :=
  mkOutcome (o_keep o) (o_fileinto o) (o_fileinto_creates o) r (o_discarded o) (o_flags o) (o_reject o)
    (o_vacation o) (o_aborted o) (o_inspection_truncated o) (o_pattern_over_caps o) (o_dropped o)
    over (o_fileinto_over_limit o).

Definition set_flags (f : list (list Z)) (o : Outcome) : Outcome :=
  mkOutcome (o_keep o) (o_fileinto o) (o_fileinto_creates o) (o_redirects o) (o_discarded o) f (o_reject o)
    (o_vacation o) (o_aborted o) (o_inspection_truncated o) (o_pattern_over_caps o) (o_dropped o)
    (o_redirects_over_limit o) (o_fileinto_over_limit o).

(** ** Arguments *)

Definition first_str (args : list Argument) : option (list Z) :=
  head (flat_map (λ a, match a with AStr s => [s] | _ => [] end) args).

Definition flag_list (args : list Argument) : list (list Z) := flat_map split_whitespace (strings args).

(** A flag once however it is cased, none too long, and not too many. *)
Fixpoint add_flags (flags tokens : list (list Z)) : list (list Z) :=
  match tokens with
  | [] => flags
  | token :: tokens =>
      if (MAX_FLAGS <=? length flags)%nat then flags
      else if (octets token <=? MAX_FLAG_BYTES) && negb (existsb (λ f, eq_ignore_ascii_case f token) flags)
      then add_flags (flags ++ [token]) tokens
      else add_flags flags tokens
  end.

(** [iter.next()] after a tag takes the argument whatever it is. *)
Fixpoint vacation_args (args : list Argument) (reason subject from : option (list Z)) (days : Z)
    : option VacationRequest :=
  let request := (λ r, mkVacation r subject from days) <$> reason in
  match args with
  | [] => request
  | a :: rest =>
      match a with
      | ATag tag =>
          if str_eqb tag (lit "days") then
            match rest with
            | ANumber n :: rest => vacation_args rest reason subject from n
            | _ :: rest => vacation_args rest reason subject from days
            | [] => request
            end
          else if str_eqb tag (lit "subject") then
            match rest with
            | AStr v :: rest => vacation_args rest reason (Some v) from days
            | _ :: rest => vacation_args rest reason subject from days
            | [] => request
            end
          else if str_eqb tag (lit "from") then
            match rest with
            | AStr v :: rest => vacation_args rest reason subject (Some v) days
            | _ :: rest => vacation_args rest reason subject from days
            | [] => request
            end
          else if str_eqb tag (lit "handle") || str_eqb tag (lit "addresses") then
            match rest with
            | _ :: rest => vacation_args rest reason subject from days
            | [] => request
            end
          else vacation_args rest reason subject from days
      | AStr v => vacation_args rest (Some v) subject from days
      | _ => vacation_args rest reason subject from days
      end
  end.

Definition parse_vacation (args : list Argument) : option VacationRequest := vacation_args args None None None 7.

(** ** The commands *)

Definition going (x : Verdict) : run (bool * Verdict) := r_ret (false, x).
Definition stopped (x : Verdict) : run (bool * Verdict) := r_ret (true, x).

(** [let text = vars.expand(text); if vars.exhausted() { return true }]. *)
Definition expanding (text : list Z) (x : Verdict) (k : list Z → run (bool * Verdict)) : run (bool * Verdict) :=
  let* text := expand text in
  λ e, if e_exhausted e then stopped x e else k text e.

Definition on_outcome (f : Outcome → Outcome) (x : Verdict) : Verdict := mkVerdict (f (x_outcome x)) (x_cancel x).
Definition cancel_local (x : Verdict) : Verdict := mkVerdict (x_outcome x) (mkCancel true (k_external (x_cancel x))).
Definition cancel_external (x : Verdict) : Verdict := mkVerdict (x_outcome x) (mkCancel (k_local (x_cancel x)) true).

Definition discard_action (x : Verdict) : run (bool * Verdict) := λ e,
  if e_pattern_over_caps e then going (on_outcome set_keep x) e
  else going (cancel_local (on_outcome set_discarded x)) e.

Definition reject_action (args : list Argument) (x : Verdict) : run (bool * Verdict) := λ e,
  if e_pattern_over_caps e then going (on_outcome set_keep x) e
  else match first_str args with
       | Some reason =>
           expanding reason x (λ reason, going (cancel_external (on_outcome (set_reject reason) x))) e
       | None => going x e
       end.

Definition set_action (args : list Argument) (x : Verdict) : run (bool * Verdict) :=
  match strings args with
  | name :: value :: _ =>
      expanding value x (λ value e, match set name value e with Some e => going x e | None => None end)
  | _ => going x
  end.

Definition file (folder : list Z) (create : bool) (o : Outcome) : Outcome :=
  let known := existsb (str_eqb folder) (o_fileinto o) in
  let fileinto :=
    if negb known && (length (o_fileinto o) <? MAX_FILEINTO)%nat then o_fileinto o ++ [folder] else o_fileinto o in
  let over :=
    if negb known && negb (length (o_fileinto o) <? MAX_FILEINTO)%nat
    then o_fileinto_over_limit o + 1 else o_fileinto_over_limit o in
  let creates :=
    if create && existsb (str_eqb folder) fileinto then {[folder]} ∪ o_fileinto_creates o else o_fileinto_creates o in
  set_fileinto fileinto creates over o.

Definition fileinto_action (args : list Argument) (x : Verdict) : run (bool * Verdict) :=
  match first_str args with
  | Some target =>
      expanding target x (λ folder,
        let x := on_outcome (file folder (has_tag args (lit "create"))) x in
        going (if has_tag args (lit "copy") then x else cancel_local x))
  | None => going x
  end.

Definition forward (target : list Z) (o : Outcome) : Outcome :=
  if existsb (λ t, eq_ignore_ascii_case t target) (o_redirects o) then o
  else if (length (o_redirects o) <? MAX_REDIRECTS)%nat
  then set_redirects (o_redirects o ++ [target]) (o_redirects_over_limit o) o
  else set_redirects (o_redirects o) (o_redirects_over_limit o + 1) o.

Definition redirect_action (args : list Argument) (x : Verdict) : run (bool * Verdict) :=
  match first_str args with
  | Some target =>
      expanding target x (λ target,
        let x := on_outcome (forward target) x in
        going (if has_tag args (lit "copy") then x else cancel_external x))
  | None => going x
  end.

Definition flags_action (name : list Z) (args : list Argument) (x : Verdict) : run (bool * Verdict) :=
  let tokens := flag_list args in
  let* paid := r_charge (foldr (λ t n, octets t + 8 + n) 0 tokens) in
  if negb paid then stopped x
  else
    going (on_outcome (λ o,
      set_flags
        (if str_eqb name (lit "setflag") then add_flags [] tokens
         else if str_eqb name (lit "addflag") then add_flags (o_flags o) tokens
         else List.filter (λ flag, negb (existsb (λ t, eq_ignore_ascii_case t flag) tokens)) (o_flags o)) o) x).

(** One action, after its step is counted. *)
Definition action (name : list Z) (args : list Argument) (x : Verdict) : run (bool * Verdict) :=
  let is_ n := str_eqb name n in
  if is_ (lit "keep") then going (on_outcome set_keep x)
  else if is_ (lit "discard") then discard_action x
  else if is_ (lit "reject") || is_ (lit "ereject") then reject_action args x
  else if is_ (lit "set") then set_action args x
  else if is_ (lit "vacation") then going (on_outcome (set_vacation (parse_vacation args)) x)
  else if is_ (lit "fileinto") then fileinto_action args x
  else if is_ (lit "redirect") then redirect_action args x
  else if is_ (lit "stop") then stopped x
  else if is_ (lit "setflag") || is_ (lit "addflag") || is_ (lit "removeflag") then flags_action name args x
  else going x.

(** The loop of [run] over commands, given what one command does. *)
Section Loop.
Context (one : Command → Verdict → run (bool * Verdict)).

Fixpoint run_all (cs : list Command) (x : Verdict) : run (bool * Verdict) :=
  match cs with
  | [] => going x
  | c :: cs =>
      let* alive := r_step in
      if negb alive then stopped x
      else
        let* r := one c x in
        if fst r then stopped (snd r) else run_all cs (snd r)
  end.

(** The branches of a conditional: the first whose test holds, else the
    [else]. *)
Section Branches.
Context (clock : Z) (m : Message) (otherwise : option (list Command)).

Fixpoint run_branches (bs : list (Branch Command)) (x : Verdict) : run (bool * Verdict) :=
  match bs with
  | [] => match otherwise with Some body => run_all body x | None => going x end
  | b :: bs =>
      let* holds := eval_test clock m (b_test b) in
      if holds then run_all (b_body b) x else run_branches bs x
  end.
End Branches.
End Loop.

Fixpoint run_command (clock : Z) (m : Message) (c : Command) (x : Verdict) : run (bool * Verdict) :=
  match c with
  | Action name args => action name args x
  | If cond => run_branches (run_command clock m) clock m (c_otherwise cond) (c_branches cond) x
  end.

Definition run_commands (clock : Z) (m : Message) (cs : list Command) (x : Verdict) : run (bool * Verdict) :=
  run_all (run_command clock m) cs x.

Definition finish (x : Verdict) (e : Env) : Outcome :=
  let o := x_outcome x in
  let aborted := e_exhausted e in
  let dropped :=
    if aborted then mkDropped (length (o_redirects o)) (bool_decide (is_Some (o_reject o))) (bool_decide (is_Some (o_vacation o)))
    else o_dropped o in
  let o' keep redirects discarded reject vacation :=
    mkOutcome keep (o_fileinto o) (o_fileinto_creates o) redirects discarded (o_flags o) reject vacation
      aborted (e_truncated e) (e_pattern_over_caps e) dropped (o_redirects_over_limit o) (o_fileinto_over_limit o) in
  if aborted && dropped_any dropped then o' true [] false None None
  else
    let keep := if k_local (x_cancel x) || k_external (x_cancel x) then o_keep o else true in
    o' keep (o_redirects o) (o_discarded o) (o_reject o) (o_vacation o).

Definition evaluate (clock : Z) (script : list Command) (m : Message) : option Outcome :=
  '(_, x, e) ← run_commands clock m script (mkVerdict outcome_default (mkCancel false false)) env_default;
  Some (finish x e).

(** ** Analysis *)

(** The loop over tests: [fuel] bounds the tests. *)
Fixpoint walk_tests {S} (fuel : nat) (test : S → Test → S) (tests : list Test) (s : S) : option S :=
  match tests with
  | [] => Some s
  | next :: tests =>
      match fuel with
      | O => None
      | Datatypes.S fuel => walk_tests fuel test (rev (t_children next) ++ tests) (test s next)
      end
  end.

(** The commands of one block: the stacks, their tops first. *)
Fixpoint walk_block {S} (action : S → list Z → list Argument → S) (block : list Command) (blocks : list (list Command))
    (tests : list Test) (s : S) : list (list Command) * list Test * S :=
  match block with
  | [] => (blocks, tests, s)
  | c :: block =>
      match c with
      | Action name args => walk_block action block blocks tests (action s name args)
      | If cond =>
          let blocks := rev (map b_body (c_branches cond)) ++ blocks in
          let blocks := match c_otherwise cond with Some body => body :: blocks | None => blocks end in
          walk_block action block blocks (rev (map b_test (c_branches cond)) ++ tests) s
      end
  end.

Fixpoint walk_loop {S} (fuel : nat) (action : S → list Z → list Argument → S) (test : S → Test → S)
    (blocks : list (list Command)) (s : S) : option S :=
  match blocks with
  | [] => Some s
  | block :: blocks =>
      match fuel with
      | O => None
      | Datatypes.S fuel =>
          let '(blocks, tests, s) := walk_block action block blocks [] s in
          s ← walk_tests fuel test tests s;
          walk_loop fuel action test blocks s
      end
  end.

(** The blocks and tests of a script, which bound the walk. *)
Fixpoint test_count (t : Test) : nat := S (sum_list (map test_count (t_children t))).

Fixpoint command_count (c : Command) : nat :=
  match c with
  | Action _ _ => 0
  | If cond =>
      sum_list (map (λ b, test_count (b_test b) + S (sum_list (map command_count (b_body b))))%nat (c_branches cond)) +
      match c_otherwise cond with None => 0 | Some cs => S (sum_list (map command_count cs)) end
  end%nat.

Definition block_count (cs : list Command) : nat := S (sum_list (map command_count cs)).

Definition walk {S} (commands : list Command) (action : S → list Z → list Argument → S) (test : S → Test → S) (s : S)
    : option S :=
  walk_loop (block_count commands) action test [commands] s.

(** The keys of one test, until one is a problem. *)
Fixpoint keys_problem (keys : list (list Z)) : option (list Z) :=
  match keys with
  | [] => None
  | key :: keys =>
      let wildcards := length (List.filter is_wildcard key) in
      if (MAX_PATTERN_CHARS <? length key)%nat then Some (lit "a :matches key is longer than 256 characters")
      else if (MAX_WILDCARDS <? wildcards)%nat then Some (lit "a :matches key has more than 32 wildcards")
      else keys_problem keys
  end.

Definition test_problem (problem : option (list Z)) (t : Test) : option (list Z) :=
  match problem with
  | Some p => Some p
  | None => if negb (has_tag (t_args t) (lit "matches")) then None else keys_problem (strings (t_args t))
  end.

Definition pattern_problem (commands : list Command) : option (option (list Z)) :=
  walk commands (λ p _ _, p) test_problem None.

Definition sending (name : list Z) : bool :=
  existsb (λ a, eq_ignore_ascii_case name a) [lit "redirect"; lit "vacation"; lit "reject"; lit "ereject"].

Definition sends_mail (script : list Z) : option bool :=
  r ← tokenize script;
  match r with
  | Err _ => Some false
  | Ok tokens =>
      r ← SieveParser.parse tokens;
      match r with
      | Err _ => Some false
      | Ok commands => walk commands (λ sends name _, sends || sending name) (λ sends _, sends) false
      end
  end.

(** ** What every command keeps *)

(** [f] answers, and keeps [P] of the verdict and the invariant of the run. *)
Definition preserves (safe : Prop) (P : Verdict → Prop) (f : Verdict → run (bool * Verdict)) : Prop :=
  ∀ x, P x → ∀ e, env_ok e →
  ∃ b x' e', f x e = Some ((b, x'), e') ∧ P x' ∧ env_ok e' ∧
    (e_exhausted e = true → e_exhausted e' = true) ∧ (safe → e_pattern_over_caps e' = e_pattern_over_caps e).

(** Every action, and every test with those in it. *)
Fixpoint every_test (T : Test → Prop) (t : Test) : Prop :=
  T t ∧ foldr (λ c P, every_test T c ∧ P) True (t_children t).

Fixpoint every_command (A : list Z → list Argument → Prop) (T : Test → Prop) (c : Command) : Prop :=
  match c with
  | Action name args => A name args
  | If cond =>
      foldr (λ b P, (every_test T (b_test b) ∧ foldr (λ c P, every_command A T c ∧ P) True (b_body b)) ∧ P) True
        (c_branches cond) ∧
      match c_otherwise cond with None => True | Some cs => foldr (λ c P, every_command A T c ∧ P) True cs end
  end.

Lemma foldr_Forall {A} (P : A → Prop) l : foldr (λ a Q, P a ∧ Q) True l ↔ Forall P l.
Proof. induction l as [|a l IH]; cbn; [done|]. by rewrite IH, Forall_cons. Qed.

Section Preservation.
Context (safe : Prop) (P : Verdict → Prop).

Lemma preserves_going f : (∀ x, P x → P (f x)) → preserves safe P (λ x, going (f x)).
Proof. intros Hf x Hx e He. exists false, (f x), e. split_and!; auto. Qed.

Lemma preserves_stopped : preserves safe P stopped.
Proof. intros x Hx e He. by exists true, x, e. Qed.

Lemma preserves_bind {A} (m : run A) (k : Verdict → A → run (bool * Verdict)) :
  good safe m → (∀ a, preserves safe P (λ x, k x a)) → preserves safe P (λ x, let* a := m in k x a).
Proof.
  intros Hm Hk x Hx e He. destruct (Hm e He) as (a & e1 & Heq & He1 & Hs1 & Hc1).
  destruct (Hk a x Hx e1 He1) as (b & x' & e2 & Heq2 & Hx' & He2 & Hs2 & Hc2). exists b, x', e2. unfold r_bind.
  rewrite Heq, Heq2. split_and!; auto. intros Hsafe. rewrite Hc2, Hc1; auto.
Qed.

Lemma preserves_if (c : Env → bool) f g :
  preserves safe P f → preserves safe P g → preserves safe P (λ x e, if c e then f x e else g x e).
Proof. intros Hf Hg x Hx e He. destruct (c e); [by apply Hf|by apply Hg]. Qed.

Lemma good_expand text : good safe (expand text).
Proof.
  intros e He. destruct (expand_ok text e He) as (r & e' & Heq & Hok & _). exists r, e'. split; [done|].
  unfold expand in Heq. destruct (vars_expand _ _ _) as [out|]; [|done]. cbn [mbind option_bind] in Heq.
  injection Heq as <- <-. split_and!; [done| |done]. cbn. by intros ->.
Qed.

Lemma preserves_expanding text k :
  (∀ r, preserves safe P (λ x, k x r)) → preserves safe P (λ x, expanding text x (k x)).
Proof.
  intros Hk. apply preserves_bind; [apply good_expand|]. intros r. apply preserves_if; [apply preserves_stopped|apply Hk].
Qed.

Lemma preserves_all one cs : Forall (λ c, preserves safe P (one c)) cs → preserves safe P (run_all one cs).
Proof.
  induction 1 as [|c cs Hc Hcs IH]; cbn [run_all]; [by apply (preserves_going (λ x, x))|].
  apply preserves_bind; [apply good_step|]. intros []; cbn [negb]; [|apply preserves_stopped].
  intros x Hx e He. destruct (Hc x Hx e He) as (b & x1 & e1 & Heq & Hx1 & He1 & Hs1 & Hc1). unfold r_bind.
  rewrite Heq. cbn [fst snd]. destruct b.
  - exists true, x1, e1. by split_and!.
  - destruct (IH x1 Hx1 e1 He1) as (b & x2 & e2 & -> & Hx2 & He2 & Hs2 & Hc2). exists b, x2, e2.
    split_and!; auto. intros Hsafe. rewrite Hc2, Hc1; auto.
Qed.

Lemma preserves_branches one clock m otherwise bs :
  message_ok m → Forall (λ b, (safe → test_safe (b_test b)) ∧ Forall (λ c, preserves safe P (one c)) (b_body b)) bs →
  match otherwise with None => True | Some cs => Forall (λ c, preserves safe P (one c)) cs end →
  preserves safe P (run_branches one clock m otherwise bs).
Proof.
  intros Hm Hbs Ho. induction Hbs as [|b bs [Ht Hb] Hbs IH]; cbn [run_branches].
  { destruct otherwise; [by apply preserves_all|by apply (preserves_going (λ x, x))]. }
  apply preserves_bind; [eapply good_weaken; [exact Ht|by apply good_eval]|].
  intros []; [by apply preserves_all|done].
Qed.

Lemma preserves_command (A : list Z → list Argument → Prop) clock m :
  message_ok m → (∀ name args, A name args → preserves safe P (action name args)) →
  ∀ c, every_command A (λ t, safe → args_safe (t_args t)) c → preserves safe P (run_command clock m c).
Proof.
  intros Hm HA.
  assert (Htest : ∀ t, every_test (λ t, safe → args_safe (t_args t)) t → safe → test_safe t).
  { fix IH 1. intros [name args children] [Hargs Hkids] Hs. split; [by apply Hargs|]. cbn [t_children] in *.
    clear -IH Hkids Hs. induction children as [|c children IHc]; [done|]. destruct Hkids as [Hc Hkids].
    split; [by apply IH|by apply IHc]. }
  fix IH 1. intros [name args|[bs otherwise]] Hc; cbn [run_command]; [by apply HA|]. cbn [c_branches c_otherwise].
  destruct Hc as [Hbs Ho]. cbn [c_branches c_otherwise] in Hbs, Ho.
  assert (Hbody : ∀ cs, foldr (λ c P, every_command A (λ t, safe → args_safe (t_args t)) c ∧ P) True cs →
    Forall (λ c, preserves safe P (run_command clock m c)) cs).
  { clear -IH. induction cs as [|c cs IHcs]; [constructor|]. intros [Hc Hcs]. constructor; [by apply IH|by apply IHcs]. }
  apply preserves_branches; [done| |].
  - clear -Hbs Hbody Htest. induction bs as [|b bs IHbs]; [constructor|]. destruct Hbs as [[Ht Hb] Hbs].
    constructor; [split; [by apply Htest|by apply Hbody]|by apply IHbs].
  - destruct otherwise; [by apply Hbody|done].
Qed.

End Preservation.

(** ** The shape of an outcome *)

Definition same_spelling (a b : list Z) : Prop := eq_ignore_ascii_case a b = true.

(** No string of the list is another one in other letters' cases. *)
Definition distinct (l : list (list Z)) : Prop :=
  ∀ i j a b, l !! i = Some a → l !! j = Some b → same_spelling a b → i = j.

Record outcome_ok (o : Outcome) : Prop := {
  oo_redirects : (length (o_redirects o) ≤ MAX_REDIRECTS)%nat;
  oo_redirects_once : distinct (o_redirects o);
  oo_fileinto : (length (o_fileinto o) ≤ MAX_FILEINTO)%nat;
  oo_fileinto_once : NoDup (o_fileinto o);
  oo_creates : ∀ folder, folder ∈ o_fileinto_creates o → folder ∈ o_fileinto o;
  oo_flags : (length (o_flags o) ≤ MAX_FLAGS)%nat;
  oo_flags_once : distinct (o_flags o);
  oo_flags_short : Forall (λ flag, octets flag ≤ MAX_FLAG_BYTES) (o_flags o)
}.

Lemma same_spelling_sym a b : same_spelling a b → same_spelling b a.
Proof. unfold same_spelling. rewrite !eq_ignore_ascii_case_spec. done. Qed.

Lemma distinct_nil : distinct [].
Proof. by intros i j a b Ha. Qed.

Lemma distinct_snoc l x : distinct l → existsb (λ y, eq_ignore_ascii_case y x) l = false → distinct (l ++ [x]).
Proof.
  intros Hl Hx. assert (Hfresh : ∀ i a, l !! i = Some a → ¬ same_spelling a x).
  { intros i a Ha Hs. apply not_true_iff_false in Hx. apply Hx, existsb_exists. exists a. split; [|exact Hs].
    apply list_elem_of_In, list_elem_of_lookup. by exists i. }
  intros i j a b Ha Hb Hs. apply lookup_snoc_Some in Ha as [[Hi Ha]|[-> <-]];
    apply lookup_snoc_Some in Hb as [[Hj Hb]|[-> <-]]; [by eapply Hl| | |done].
  - by destruct (Hfresh _ _ Ha).
  - by destruct (Hfresh _ _ Hb (same_spelling_sym _ _ Hs)).
Qed.

Lemma distinct_sublist k l : sublist k l → distinct l → distinct k.
Proof.
  assert (Hmap : ∀ k l, sublist k l → distinct l →
    (∀ i a, k !! i = Some a → ∃ j, l !! j = Some a) ∧ distinct k).
  { clear. induction 1 as [|x k l Hs IH|x k l Hs IH]; intros Hl; [done| |].
    - assert (Hl' : distinct l). { intros i j a b Ha Hb Hab. cut (S i = S j); [lia|]. by eapply (Hl (S i) (S j)). }
      destruct (IH Hl') as [Hin Hk]. split.
      + intros [|i] a Ha; [by exists 0%nat|]. destruct (Hin i a Ha) as [j Hj]. by exists (S j).
      + intros [|i] [|j] a b Ha Hb Hab; [done| | |].
        * destruct (Hin j b Hb) as [j' Hj']. by assert (0%nat = S j') by (by eapply (Hl 0%nat (S j'))).
        * destruct (Hin i a Ha) as [i' Hi']. by assert (S i' = 0%nat) by (by eapply (Hl (S i') 0%nat)).
        * f_equal. by eapply Hk.
    - assert (Hl' : distinct l). { intros i j a b Ha Hb Hab. cut (S i = S j); [lia|]. by eapply (Hl (S i) (S j)). }
      destruct (IH Hl') as [Hin Hk]. split; [|done]. intros i a Ha. destruct (Hin i a Ha) as [j Hj]. by exists (S j). }
  intros Hs Hl. by apply (Hmap k l).
Qed.

Lemma filter_sublist {A} (f : A → bool) l : sublist (List.filter f l) l.
Proof. induction l as [|a l IH]; cbn; [constructor|]. destruct (f a); by constructor. Qed.

Definition flags_ok (flags : list (list Z)) : Prop :=
  (length flags ≤ MAX_FLAGS)%nat ∧ distinct flags ∧ Forall (λ flag, octets flag ≤ MAX_FLAG_BYTES) flags.

Lemma add_flags_ok tokens flags : flags_ok flags → flags_ok (add_flags flags tokens).
Proof.
  revert flags. induction tokens as [|t tokens IH]; intros flags Hf; cbn [add_flags]; [done|].
  destruct (Nat.leb_spec MAX_FLAGS (length flags)) as [|Hlen]; [done|].
  destruct (_ && _) eqn:Hc; [|by apply IH]. apply andb_prop in Hc as [Hshort Hnew%negb_true_iff].
  apply Z.leb_le in Hshort. destruct Hf as (Hl & Hd & Hs). apply IH. split_and!.
  - rewrite length_app. cbn. lia.
  - by apply distinct_snoc.
  - apply Forall_app. by split; [|constructor].
Qed.

Lemma filter_flags_ok f flags : flags_ok flags → flags_ok (List.filter f flags).
Proof.
  intros (Hl & Hd & Hs). pose proof (filter_sublist f flags) as Hsub. split_and!.
  - pose proof (sublist_length _ _ Hsub). lia.
  - by eapply distinct_sublist.
  - apply Forall_forall. intros a Ha. rewrite Forall_forall in Hs. apply Hs. by eapply elem_of_sublist.
Qed.

Lemma existsb_str_eqb x l : existsb (str_eqb x) l = true ↔ x ∈ l.
Proof.
  rewrite existsb_exists. split.
  - intros (y & Hy & Heq%str_eqb_eq). subst. by apply list_elem_of_In.
  - intros Hx. exists x. split; [by apply list_elem_of_In|by apply str_eqb_eq].
Qed.

(** What was decided, and why the implicit keep was cancelled. *)
Record verdict_ok (x : Verdict) : Prop := {
  vo_outcome : outcome_ok (x_outcome x);
  vo_local : k_local (x_cancel x) = true → o_discarded (x_outcome x) = true ∨ o_fileinto (x_outcome x) ≠ [];
  vo_external : k_external (x_cancel x) = true → o_redirects (x_outcome x) ≠ [] ∨ is_Some (o_reject (x_outcome x))
}.

Lemma app_single_not_nil {A} (l : list A) a : l ++ [a] ≠ [].
Proof. by destruct l. Qed.

Lemma file_ok folder create o : outcome_ok o → outcome_ok (file folder create o).
Proof.
  intros []. unfold file.
  set (fileinto := if _ && (_ <? _)%nat then _ else _).
  assert (Hf : (length fileinto ≤ MAX_FILEINTO)%nat ∧ NoDup fileinto ∧ ∀ f, f ∈ o_fileinto o → f ∈ fileinto).
  { subst fileinto. destruct (existsb _ (o_fileinto o)) eqn:Hk; cbn [negb andb]; [done|].
    destruct (Nat.ltb_spec (length (o_fileinto o)) MAX_FILEINTO); [|done]. split_and!.
    - rewrite length_app. cbn. lia.
    - apply NoDup_app. split_and!; [done| |apply NoDup_singleton]. intros f Hf ->%list_elem_of_singleton.
      apply not_true_iff_false in Hk. by apply Hk, existsb_str_eqb.
    - set_solver. }
  clearbody fileinto. destruct Hf as (Hlen & Hdup & Hin). constructor; cbn; try done.
  intros f Hf. destruct (create && existsb _ fileinto) eqn:Hc; [|auto].
  apply elem_of_union in Hf as [->%elem_of_singleton|Hf]; [|auto].
  apply andb_prop in Hc as [_ Hc]. by apply existsb_str_eqb.
Qed.

Lemma file_not_empty folder create o : o_fileinto (file folder create o) ≠ [].
Proof.
  unfold file. cbn [o_fileinto set_fileinto]. destruct (existsb _ _) eqn:Hk; cbn [negb andb].
  - apply existsb_str_eqb in Hk. by destruct (o_fileinto o); [set_solver|].
  - destruct (Nat.ltb_spec (length (o_fileinto o)) MAX_FILEINTO); [apply app_single_not_nil|].
    destruct (o_fileinto o); [unfold MAX_FILEINTO in *; cbn in *; lia|done].
Qed.

Lemma forward_ok target o : outcome_ok o → outcome_ok (forward target o).
Proof.
  intros []. unfold forward. destruct (existsb _ _) eqn:Hk; [done|].
  destruct (Nat.ltb_spec (length (o_redirects o)) MAX_REDIRECTS); constructor; cbn; try done.
  - rewrite length_app. cbn. lia.
  - by apply distinct_snoc.
Qed.

Lemma forward_not_empty target o : o_redirects (forward target o) ≠ [].
Proof.
  unfold forward. destruct (existsb _ _) eqn:Hk; [by destruct (o_redirects o)|].
  destruct (Nat.ltb_spec (length (o_redirects o)) MAX_REDIRECTS); cbn; [apply app_single_not_nil|].
  destruct (o_redirects o); [unfold MAX_REDIRECTS in *; cbn in *; lia|done].
Qed.

(** [P] is kept by what an action does to the verdict: the first four always,
    the others where the action may send. *)
Record stable (A : list Z → list Argument → Prop) (P : Verdict → Prop) : Prop := {
  st_keep x : P x → P (on_outcome set_keep x);
  st_discard x : P x → P (cancel_local (on_outcome set_discarded x));
  st_file folder create (copy : bool) x :
    P x → let x' := on_outcome (file folder create) x in P (if copy then x' else cancel_local x');
  st_flags (f : list (list Z) → list (list Z)) x :
    (∀ flags, flags_ok flags → flags_ok (f flags)) → P x → P (on_outcome (λ o, set_flags (f (o_flags o)) o) x);
  st_reject args reason x :
    A (lit "reject") args ∨ A (lit "ereject") args → P x → P (cancel_external (on_outcome (set_reject reason) x));
  st_vacation args x : A (lit "vacation") args → P x → P (on_outcome (set_vacation (parse_vacation args)) x);
  st_redirect args target (copy : bool) x :
    A (lit "redirect") args →
    P x → let x' := on_outcome (forward target) x in P (if copy then x' else cancel_external x')
}.

Lemma flag_work_nonneg tokens : 0 ≤ foldr (λ t n, octets t + 8 + n) 0 tokens.
Proof. induction tokens as [|t l IH]; cbn; [done|]. pose proof (octets_nonneg t). lia. Qed.

Lemma flags_ok_nil : flags_ok [].
Proof. split_and!; [cbn; lia|apply distinct_nil|constructor]. Qed.

Lemma set_keeps name value e e' :
  set name value e = Some e' →
  (e_exhausted e = true → e_exhausted e' = true) ∧ e_pattern_over_caps e' = e_pattern_over_caps e.
Proof.
  unfold set. destruct (capture_index name); [by destruct (_ <? _)%nat; intros [= <-]|].
  destruct (_ || _); [by intros [= <-]|]. destruct (usize_sub _ _); [|done]. cbn [mbind option_bind].
  by destruct (_ <? _); intros [= <-].
Qed.

Section Actions.
Context (safe : Prop) (A : list Z → list Argument → Prop) (P : Verdict → Prop) (HP : stable A P).

Lemma preserves_discard : preserves safe P discard_action.
Proof. apply preserves_if; apply preserves_going; [apply HP|apply HP]. Qed.

Lemma preserves_reject args :
  A (lit "reject") args ∨ A (lit "ereject") args → preserves safe P (reject_action args).
Proof.
  intros HA. apply preserves_if; [apply preserves_going, HP|].
  destruct (first_str args) as [reason|]; [|by apply (preserves_going _ _ (λ x, x))].
  apply preserves_expanding. intros r. apply preserves_going. intros x. by eapply HP.
Qed.

Lemma preserves_set args : preserves safe P (set_action args).
Proof.
  unfold set_action. destruct (strings args) as [|name [|value l]]; try by apply (preserves_going _ _ (λ x, x)).
  apply preserves_expanding. intros r x Hx e He. destruct (set_ok name r e He) as (e' & Heq & He').
  destruct (set_keeps _ _ _ _ Heq) as [Hs Hc]. rewrite Heq.
  exists false, x, e'. split_and!; auto.
Qed.

Lemma preserves_fileinto args : preserves safe P (fileinto_action args).
Proof.
  unfold fileinto_action. destruct (first_str args); [|by apply (preserves_going _ _ (λ x, x))].
  apply preserves_expanding. intros r. cbv zeta. apply preserves_going.
  intros x Hx. by apply (st_file _ _ HP r).
Qed.

Lemma preserves_redirect args : A (lit "redirect") args → preserves safe P (redirect_action args).
Proof.
  intros HA. unfold redirect_action. destruct (first_str args); [|by apply (preserves_going _ _ (λ x, x))].
  apply preserves_expanding. intros r. cbv zeta. apply preserves_going.
  intros x Hx. by eapply (st_redirect _ _ HP).
Qed.

Lemma preserves_flags name args : preserves safe P (flags_action name args).
Proof.
  unfold flags_action. apply preserves_bind; [apply good_charge, flag_work_nonneg|].
  intros []; cbn [negb]; [|apply preserves_stopped]. apply preserves_going. intros x Hx.
  set (f flags := if str_eqb name (lit "setflag") then add_flags [] (flag_list args)
    else if str_eqb name (lit "addflag") then add_flags flags (flag_list args)
    else List.filter (λ flag, negb (existsb (λ t, eq_ignore_ascii_case t flag) (flag_list args))) flags).
  apply (st_flags _ _ HP f); [|done]. intros flags Hf. subst f. cbn beta.
  destruct (str_eqb name (lit "setflag")); [apply add_flags_ok, flags_ok_nil|].
  destruct (str_eqb name (lit "addflag")); [by apply add_flags_ok|by apply filter_flags_ok].
Qed.

Lemma preserves_action name args : A name args → preserves safe P (action name args).
Proof.
  intros HA. unfold action. cbv zeta.
  destruct (str_eqb name (lit "keep")); [apply preserves_going, HP|].
  destruct (str_eqb name (lit "discard")); [apply preserves_discard|].
  destruct (str_eqb name (lit "reject") || str_eqb name (lit "ereject")) eqn:Hr.
  { apply preserves_reject. by apply orb_prop in Hr as [->%str_eqb_eq | ->%str_eqb_eq]; [left|right]. }
  destruct (str_eqb name (lit "set")); [apply preserves_set|].
  destruct (str_eqb name (lit "vacation")) eqn:Hv.
  { apply str_eqb_eq in Hv as ->. apply preserves_going. intros x. by apply HP. }
  destruct (str_eqb name (lit "fileinto")); [apply preserves_fileinto|].
  destruct (str_eqb name (lit "redirect")) eqn:Hd.
  { apply str_eqb_eq in Hd as ->. by apply preserves_redirect. }
  destruct (str_eqb name (lit "stop")); [apply preserves_stopped|].
  destruct (str_eqb name (lit "setflag") || _ || _); [apply preserves_flags|by apply (preserves_going _ _ (λ x, x))].
Qed.

Lemma preserves_run clock m cs :
  message_ok m → Forall (every_command A (λ t, safe → args_safe (t_args t))) cs →
  preserves safe P (run_commands clock m cs).
Proof.
  intros Hm Hcs. apply preserves_all. eapply Forall_impl; [exact Hcs|]. cbn. intros c Hc.
  eapply preserves_command; [done| |exact Hc]. apply preserves_action.
Qed.

End Actions.

Lemma stable_verdict_ok : stable (λ _ _, True) verdict_ok.
Proof.
  split.
  - intros x [[] Hl He]. constructor; [by constructor|done|done].
  - intros x [[] Hl He]. constructor; [by constructor|by left|done].
  - intros folder create copy x [Ho Hl He]. cbv zeta.
    assert (Hx : verdict_ok (on_outcome (file folder create) x)).
    { constructor; [by apply file_ok| |done]. intros _. right. apply file_not_empty. }
    destruct copy; [done|]. constructor; [apply Hx| |apply Hx]. intros _. right. apply file_not_empty.
  - intros f x Hf [[] Hl He]. destruct (Hf (o_flags (x_outcome x))) as (? & ? & ?); [done|].
    constructor; [by constructor|done|done].
  - intros args reason x _ [[] Hl He]. constructor; [by constructor|done|]. intros _. right. by eexists.
  - intros args x _ [[] Hl He]. constructor; [by constructor|done|done].
  - intros args target copy x _ [Ho Hl He]. cbv zeta.
    assert (Hne := forward_not_empty target (x_outcome x)).
    assert (Hx : verdict_ok (on_outcome (forward target) x)).
    { constructor; [by apply forward_ok| |by left]. cbn. unfold forward. intros Hk. specialize (Hl Hk).
      by repeat case_match. }
    destruct copy; [done|]. constructor; [apply Hx|apply Hx|by left].
Qed.

Lemma verdict_ok_start : verdict_ok (mkVerdict outcome_default (mkCancel false false)).
Proof.
  constructor; [|done|done]. constructor; cbn; try lia; try apply distinct_nil; try constructor; set_solver.
Qed.

Lemma every_command_any c : every_command (λ _ _, True) (λ t, False → args_safe (t_args t)) c.
Proof.
  assert (Ht : ∀ t, every_test (λ t, False → args_safe (t_args t)) t).
  { fix IH 1. intros [name args children]. split; [done|]. cbn [t_children].
    induction children as [|t l IHl]; [done|]. split; [apply IH|exact IHl]. }
  revert c. fix IH 1. intros [|[bs otherwise]]; [done|].
  assert (Hcs : ∀ cs, foldr (λ c P, every_command (λ _ _, True) (λ t, False → args_safe (t_args t)) c ∧ P) True cs).
  { induction cs as [|c cs IHcs]; [done|]. split; [apply IH|exact IHcs]. }
  split; cbn [c_branches c_otherwise]; [|by destruct otherwise].
  induction bs as [|b bs IHbs]; [done|]. split; [split; [apply Ht|apply Hcs]|exact IHbs].
Qed.

(** Every run of a script answers, with a verdict in shape. *)
Lemma run_result clock m cs :
  message_ok m →
  ∃ b x e, run_commands clock m cs (mkVerdict outcome_default (mkCancel false false)) env_default = Some ((b, x), e) ∧
    verdict_ok x ∧ env_ok e.
Proof.
  intros Hm. destruct (preserves_run False _ _ stable_verdict_ok clock m cs Hm) with (x := mkVerdict outcome_default (mkCancel false false))
    (e := env_default) as (b & x & e & Heq & Hx & He & _).
  - apply Forall_forall. intros c _. apply every_command_any.
  - apply verdict_ok_start.
  - apply env_ok_default.
  - by exists b, x, e.
Qed.

Lemma finish_ok x e : verdict_ok x → outcome_ok (finish x e).
Proof.
  intros [[] _ _]. unfold finish. destruct (_ && _); constructor; cbn; try done; first [lia|apply distinct_nil].
Qed.

(** A message parsed for delivery, as the interpreter gets it. *)
Definition delivered_message (raw : list Z) (from : list Z) (to mailboxes : list (list Z)) : Message :=
  with_mailboxes mailboxes (with_envelope from to (SieveMessage.parse raw)).

Lemma delivered_message_ok raw from to mailboxes : message_ok (delivered_message raw from to mailboxes).
Proof. apply with_mailboxes_ok, with_envelope_ok, parse_ok. Qed.

(** Whatever the script and the message, however large, a run answers,
    and its outcome has the shape the delivery relies on: at most four
    forwards, no two the same address in other cases; at most eight folders,
    each once, and [:create] only for folders that are filed into; at most
    32 flags of at most 64 octets, none twice. *)
Theorem evaluate_well_formed clock script raw from to mailboxes :
  ∃ o, evaluate clock script (delivered_message raw from to mailboxes) = Some o ∧ outcome_ok o.
Proof.
  destruct (run_result clock _ script (delivered_message_ok raw from to mailboxes)) as (b & x & e & Heq & Hx & _).
  exists (finish x e). split; [|by apply finish_ok]. unfold evaluate. by rewrite Heq.
Qed.

(** What a finished run has decided: the message goes somewhere, or a
    [discard] ran. *)
Definition accounted (o : Outcome) : Prop :=
  o_keep o = true ∨ o_discarded o = true ∨ o_fileinto o ≠ [] ∨ o_redirects o ≠ [] ∨ is_Some (o_reject o).

Definition sends_nothing (o : Outcome) : Prop := o_redirects o = [] ∧ o_reject o = None ∧ o_vacation o = None.

Lemma finish_accounted x e : verdict_ok x → accounted (finish x e).
Proof.
  intros [Ho Hl He]. unfold finish. destruct (_ && _) eqn:Hd; [by left|].
  unfold accounted. cbn. destruct (k_local (x_cancel x)) eqn:Hkl; cbn [orb].
  - destruct (Hl eq_refl); auto.
  - destruct (k_external (x_cancel x)) eqn:Hke; [|by left]. destruct (He eq_refl); auto.
Qed.

Lemma finish_aborted x e :
  let o := finish x e in
  o_aborted o = true → sends_nothing o ∧ (dropped_any (o_dropped o) = true → o_keep o = true ∧ o_discarded o = false).
Proof.
  unfold finish. cbv zeta. destruct (e_exhausted e) eqn:Ha; cbn [andb]; [|by destruct (o_dropped (x_outcome x))].
  destruct (dropped_any _) eqn:Hd; cbn; [done|]. intros _. split; [|by rewrite Hd].
  unfold dropped_any in Hd. cbn in Hd. apply orb_false_iff in Hd as [[Hr Hj]%orb_false_iff Hv].
  apply bool_decide_eq_false in Hj, Hv. split_and!.
  - by cbn; destruct (o_redirects (x_outcome x)).
  - by apply eq_None_not_Some.
  - by apply eq_None_not_Some.
Qed.

(** C31: no run loses mail: the message is kept, filed, forwarded or
    rejected, or the script discarded it. A run stopped at its limits sends
    nothing, neither forward nor bounce nor reply, and if it had decided to
    send something the message is kept and no [discard] stands. *)
Theorem evaluate_never_loses clock script raw from to mailboxes :
  ∃ o, evaluate clock script (delivered_message raw from to mailboxes) = Some o ∧
  accounted o ∧
  (o_aborted o = true →
   sends_nothing o ∧ (dropped_any (o_dropped o) = true → o_keep o = true ∧ o_discarded o = false)).
Proof.
  destruct (run_result clock _ script (delivered_message_ok raw from to mailboxes)) as (b & x & e & Heq & Hx & _).
  exists (finish x e). unfold evaluate. rewrite Heq.
  split_and!; [done|by apply finish_accounted|by apply finish_aborted].
Qed.

(** The same for any message in shape. *)
Lemma evaluate_ok clock script m :
  message_ok m → ∃ o, evaluate clock script m = Some o ∧ outcome_ok o ∧ accounted o.
Proof.
  intros Hm. destruct (run_result clock m script Hm) as (b & x & e & Heq & Hx & _). exists (finish x e).
  unfold evaluate. rewrite Heq. split_and!; [done|by apply finish_ok|by apply finish_accounted].
Qed.

(** ** The walk *)

Section Walk.
Context {S : Type} (action : S → list Z → list Argument → S) (test : S → Test → S).
Context (A : list Z → list Argument → Prop) (T : Test → Prop) (fine : S → Prop).

(** A state that ends fine only met what it may meet. *)
Context (Haction : ∀ s name args, fine (action s name args) → fine s ∧ A name args).
Context (Htest : ∀ s t, fine (test s t) → fine s ∧ T t).

Let block_fine (cs : list Command) : Prop := Forall (every_command A T) cs.

Lemma walk_tests_fine fuel tests s s' :
  walk_tests fuel test tests s = Some s' → fine s' → fine s ∧ Forall (every_test T) tests.
Proof.
  revert tests s. induction fuel as [|fuel IH]; intros [|t tests] s; cbn; try done; try by intros [= <-].
  intros Hw Hf. destruct (IH _ _ Hw Hf) as [[Hs Ht]%Htest [Hkids Htests]%Forall_app]. split; [done|].
  constructor; [|done]. destruct t as [name args children]. split; [done|]. apply foldr_Forall.
  by apply Forall_rev in Hkids; rewrite rev_involutive in Hkids.
Qed.

Lemma walk_block_fine block blocks tests s blocks' tests' s' :
  walk_block action block blocks tests s = (blocks', tests', s') →
  fine s' → Forall block_fine blocks' → Forall (every_test T) tests' →
  fine s ∧ block_fine block ∧ Forall block_fine blocks ∧ Forall (every_test T) tests.
Proof.
  revert blocks tests s. induction block as [|c block IH]; intros blocks tests s; cbn [walk_block].
  { intros [= <- <- <-] Hs Hb Ht. split_and!; [done|constructor|done|done]. }
  destruct c as [name args|[bs otherwise]]; cbn [c_branches c_otherwise]; intros Hw Hs Hb Ht;
    destruct (IH _ _ _ Hw Hs Hb Ht) as (Hf & Hblock & Hblocks & Htests).
  { apply Haction in Hf as [Hf Ha]. split_and!; [done|by constructor|done|done]. }
  apply Forall_app in Htests as [Hbt Htests].
  assert (Ho : Forall block_fine blocks ∧ Forall block_fine (rev (map b_body bs)) ∧
    match otherwise with None => True | Some cs => block_fine cs end).
  { destruct otherwise as [cs|]; [apply Forall_cons in Hblocks as [Hcs Hblocks]|];
      apply Forall_app in Hblocks as [Hbb Hblocks]; by split_and!. }
  destruct Ho as (Hblocks' & Hbb & Ho). split_and!; [done| |done|done]. constructor; [|done].
  apply Forall_rev in Hbt, Hbb. rewrite rev_involutive, Forall_map in Hbt, Hbb.
  split; cbn [c_branches c_otherwise].
  - apply foldr_Forall. rewrite Forall_forall in Hbt, Hbb |- *. intros b Hin. split; [by apply Hbt|].
    by apply foldr_Forall, (Hbb b).
  - destruct otherwise; [by apply foldr_Forall|done].
Qed.

Lemma walk_loop_fine fuel blocks s s' :
  walk_loop fuel action test blocks s = Some s' → fine s' → fine s ∧ Forall block_fine blocks.
Proof.
  revert blocks s. induction fuel as [|fuel IH]; intros [|block blocks] s; cbn [walk_loop]; try done; try by intros [= <-].
  destruct (walk_block action block blocks [] s) as [[blocks' tests] s1] eqn:Hb.
  destruct (walk_tests fuel test tests s1) as [s2|] eqn:Ht; [|done]. cbn [mbind option_bind]. intros Hl Hf.
  destruct (IH _ _ Hl Hf) as [Hs2 Hblocks]. destruct (walk_tests_fine _ _ _ _ Ht Hs2) as [Hs1 Htests].
  destruct (walk_block_fine _ _ _ _ _ _ _ Hb Hs1 Hblocks Htests) as (? & ? & ? & _). by split; [|constructor].
Qed.

Lemma walk_fine commands s s' :
  walk commands action test s = Some s' → fine s' → Forall (every_command A T) commands.
Proof. intros Hw Hf. destruct (walk_loop_fine _ _ _ _ Hw Hf) as [_ Hb]. by apply Forall_cons in Hb as [Hb _]. Qed.

End Walk.

(** The walk answers: each block and each test is met once. *)
Definition tests_count (tests : list Test) : nat := sum_list (map test_count tests).
Definition blocks_count (blocks : list (list Command)) : nat := sum_list (map block_count blocks).

Lemma sum_map_app {A} (f : A → nat) k l : sum_list (map f (k ++ l)) = (sum_list (map f k) + sum_list (map f l))%nat.
Proof. rewrite map_app. induction (map f k) as [|n ns IH]; cbn; [done|]. rewrite IH. lia. Qed.

Lemma sum_map_rev {A} (f : A → nat) l : sum_list (map f (rev l)) = sum_list (map f l).
Proof. induction l as [|a l IH]; cbn; [done|]. rewrite sum_map_app, IH. cbn. lia. Qed.

Lemma branches_count bs :
  sum_list (map (λ b, test_count (b_test b) + S (sum_list (map command_count (b_body b))))%nat bs) =
  (blocks_count (map b_body bs) + tests_count (map b_test bs))%nat.
Proof.
  unfold blocks_count, tests_count, block_count. induction bs as [|b bs IH]; cbn; [done|]. rewrite IH. lia.
Qed.

Lemma walk_tests_total {S} fuel (test : S → Test → S) tests s :
  (tests_count tests ≤ fuel)%nat → is_Some (walk_tests fuel test tests s).
Proof.
  unfold tests_count. revert tests s. induction fuel as [|fuel IH]; intros [|[name args children] tests] s;
    cbn [walk_tests map sum_list]; try done; cbn; intros Hf; [lia|].
  apply IH. rewrite sum_map_app, sum_map_rev. lia.
Qed.

Lemma walk_block_count {S} (action : S → list Z → list Argument → S) block blocks tests s blocks' tests' s' :
  walk_block action block blocks tests s = (blocks', tests', s') →
  (blocks_count blocks' + tests_count tests' =
   sum_list (map command_count block) + blocks_count blocks + tests_count tests)%nat.
Proof.
  revert blocks tests s. induction block as [|c block IH]; intros blocks tests s; cbn [walk_block].
  { intros [= <- <- <-]. done. }
  destruct c as [name args|[bs otherwise]]; cbn [c_branches c_otherwise]; intros Hw; rewrite (IH _ _ _ Hw); [done|].
  cbn [map sum_list command_count c_branches c_otherwise]. rewrite branches_count. unfold blocks_count, tests_count.
  rewrite sum_map_app, sum_map_rev.
  destruct otherwise; cbn [map sum_list]; rewrite sum_map_app, sum_map_rev; unfold block_count; cbn; lia.
Qed.

Lemma walk_loop_total {S} fuel (action : S → list Z → list Argument → S) test blocks s :
  (blocks_count blocks ≤ fuel)%nat → is_Some (walk_loop fuel action test blocks s).
Proof.
  revert blocks s. induction fuel as [|fuel IH]; intros [|block blocks] s; cbn [walk_loop]; try done;
    intros Hf; unfold blocks_count in Hf; cbn [map sum_list] in Hf; unfold block_count at 1 in Hf; cbn in Hf; [lia|].
  destruct (walk_block action block blocks [] s) as [[blocks' tests] s1] eqn:Hb.
  apply walk_block_count in Hb. unfold blocks_count, tests_count in Hb. cbn [map sum_list] in Hb.
  destruct (walk_tests_total fuel test tests s1) as [s2 ->]; [unfold tests_count; lia|].
  apply IH. unfold blocks_count. lia.
Qed.

Lemma walk_total {S} commands (action : S → list Z → list Argument → S) test s :
  is_Some (walk commands action test s).
Proof. apply walk_loop_total. unfold blocks_count. cbn [map]. unfold sum_list, sum_list_with, id. lia. Qed.

(** ** Scripts that send nothing *)

Lemma stable_quiet : stable (λ name _, sending name = false) (λ x, sends_nothing (x_outcome x)).
Proof.
  split.
  - done.
  - done.
  - intros folder create copy x Hx. by destruct copy.
  - done.
  - by intros args reason x [Hs|Hs].
  - done.
  - done.
Qed.

Lemma every_test_impl (T T' : Test → Prop) t : (∀ t, T t → T' t) → every_test T t → every_test T' t.
Proof.
  intros HT. revert t. fix IH 1. intros [name args children] [Ht Hkids]. split; [by apply HT|]. cbn [t_children] in *.
  clear -IH Hkids. induction children as [|t l IHl]; [done|]. destruct Hkids as [Ht Hl]. split; [by apply IH|by apply IHl].
Qed.

Lemma every_command_impl (A A' : list Z → list Argument → Prop) (T T' : Test → Prop) c :
  (∀ name args, A name args → A' name args) → (∀ t, T t → T' t) → every_command A T c → every_command A' T' c.
Proof.
  intros HA HT. revert c. fix IH 1. intros [name args|[bs otherwise]]; [apply HA|].
  assert (Hcs : ∀ cs, foldr (λ c P, every_command A T c ∧ P) True cs → foldr (λ c P, every_command A' T' c ∧ P) True cs).
  { induction cs as [|c cs IHcs]; [done|]. intros [Hc Hcs]. split; [by apply IH|by apply IHcs]. }
  intros [Hbs Ho]. split; cbn [c_branches c_otherwise] in *; [|by destruct otherwise; [apply Hcs|]].
  clear -Hbs Hcs HT. induction bs as [|b bs IHbs]; [done|]. destruct Hbs as [[Ht Hb] Hbs].
  split; [split; [by eapply every_test_impl|by apply Hcs]|by apply IHbs].
Qed.

Lemma run_quiet clock m cs b x e :
  message_ok m → Forall (every_command (λ name _, sending name = false) (λ _, True)) cs →
  run_commands clock m cs (mkVerdict outcome_default (mkCancel false false)) env_default = Some ((b, x), e) →
  sends_nothing (x_outcome x).
Proof.
  intros Hm Hcs Hrun.
  destruct (preserves_run False _ _ stable_quiet clock m cs Hm) with (x := mkVerdict outcome_default (mkCancel false false))
    (e := env_default) as (b' & x' & e' & Heq & Hx & _).
  - eapply Forall_impl; [exact Hcs|]. cbn. intros c. by apply every_command_impl.
  - done.
  - apply env_ok_default.
  - rewrite Hrun in Heq. by injection Heq as <- <- <-.
Qed.

Lemma finish_quiet x e : sends_nothing (x_outcome x) → sends_nothing (finish x e).
Proof. intros Hx. unfold finish. by destruct (_ && _). Qed.

(** C32: what is said of a script before it runs is right: [sends_mail]
    always answers, and a script it answers [false] for never asks for a
    forward, a bounce or a reply, on any message. *)
Theorem sends_mail_sound (script : list Z) :
  ∃ sends, sends_mail script = Some sends ∧
  (sends = false → ∀ tokens commands,
   tokenize script = Some (Ok tokens) → SieveParser.parse tokens = Some (Ok commands) →
   ∀ clock raw from to mailboxes o,
   evaluate clock commands (delivered_message raw from to mailboxes) = Some o → sends_nothing o).
Proof.
  unfold sends_mail. destruct (tokenize_total script) as [r Hr]. rewrite Hr. cbn [mbind option_bind].
  destruct r as [tokens|e]; [|exists false; split; [done|]; by intros _ ts cs [=]].
  destruct (parse_total tokens) as [r Hp]. rewrite Hp. cbn [mbind option_bind].
  destruct r as [commands|e]; [|exists false; split; [done|]; intros _ ts cs [= ->]; congruence].
  destruct (walk_total commands (λ sends name (_ : list Argument), sends || sending name) (λ sends (_ : Test), sends) false)
    as [sends Hw]. rewrite Hw. exists sends. split; [done|]. intros -> ts cs [= <-] Hcs. rewrite Hp in Hcs.
  injection Hcs as <-. intros clock raw from to mailboxes o Ho.
  eapply (walk_fine _ _ (λ name _, sending name = false) (λ _, True) (λ s, s = false)) in Hw;
    [|by intros s name args [-> ->]%orb_false_iff|done|done].
  unfold evaluate in Ho. destruct (run_commands _ _ _ _ _) as [[[b x] e]|] eqn:Hrun; [|done]. injection Ho as <-.
  eapply finish_quiet, run_quiet, Hrun; [apply delivered_message_ok|exact Hw].
Qed.

(** ** Scripts within the caps *)

Lemma keys_problem_none keys : keys_problem keys = None → Forall (λ key, ¬ over_caps key) keys.
Proof.
  induction keys as [|key keys IH]; cbn [keys_problem]; [constructor|].
  destruct (Nat.ltb_spec MAX_PATTERN_CHARS (length key)); [done|].
  destruct (Nat.ltb_spec MAX_WILDCARDS (length (List.filter is_wildcard key))); [done|].
  intros Hk. constructor; [unfold over_caps; lia|by apply IH].
Qed.

Lemma test_problem_none p t : test_problem p t = None → p = None ∧ args_safe (t_args t).
Proof.
  unfold test_problem, args_safe. destruct p; [done|]. destruct (has_tag _ _); cbn [negb]; [|done].
  intros Hk. split; [done|]. intros _. by apply keys_problem_none.
Qed.

Lemma stable_any : stable (λ _ _, True) (λ _, True).
Proof. by split. Qed.

(** A script the upload check finds no fault with never meets a key
    over the caps when it runs, so that no [discard] or [reject] of it is
    turned into a keep; the check always answers. *)
Theorem pattern_problem_sound (commands : list Command) :
  ∃ problem, pattern_problem commands = Some problem ∧
  (problem = None → ∀ clock raw from to mailboxes o,
   evaluate clock commands (delivered_message raw from to mailboxes) = Some o → o_pattern_over_caps o = false).
Proof.
  destruct (walk_total commands (λ p _ _, p) test_problem None) as [problem Hw].
  exists problem. split; [done|]. intros -> clock raw from to mailboxes o Ho.
  eapply (walk_fine _ _ (λ _ _, True) (λ t, args_safe (t_args t)) (λ s, s = None)) in Hw;
    [|done|exact test_problem_none|done].
  unfold evaluate in Ho. destruct (run_commands _ _ _ _ _) as [[[b x] e]|] eqn:Hrun; [|done]. injection Ho as <-.
  destruct (preserves_run True _ _ stable_any clock (delivered_message raw from to mailboxes) commands)
    with (x := mkVerdict outcome_default (mkCancel false false)) (e := env_default)
    as (b' & x' & e' & Heq & _ & _ & _ & Hcaps); [apply delivered_message_ok| |done|apply env_ok_default|].
  - eapply Forall_impl; [exact Hw|]. cbn. intros c. by apply every_command_impl.
  - rewrite Hrun in Heq. injection Heq as <- <- <-. unfold finish. destruct (_ && _); cbn; by apply Hcaps.
Qed.
