(* ===== verification/Address.v ===== *)
(** Mail domains and addresses: src/src/domain/mod.rs, src/src/smtp/address/mod.rs,
    src/src/util/address.rs and the character classes of
    src/src/util/validation/mod.rs.

    The Unicode tables the sources consult (the crates idna and
    unicode_security, and [str::to_lowercase]) are the class [Unicode]; what
    the theorems rely on is the class [UnicodeLaws]. *)

From S2P Require Import Prelude RustStd.

Local Open Scope Z_scope.

Class Unicode := {
  (** [str::to_lowercase] *)
  to_lowercase : list Z → list Z;
  (** [idna::domain_to_ascii_strict] *)
  domain_to_ascii_strict : list Z → option (list Z);
  (** [idna::punycode::decode_to_string] *)
  punycode_decode : list Z → option (list Z);
  (** [MixedScript::is_single_script] *)
  is_single_script : list Z → bool;
  (** [confusable_detection::skeleton] *)
  skeleton : list Z → list Z
}.

(** ** Validation constants and classes *)

Definition ATEXT : list Z := lit "!#$%&'*+-/=?^_`{|}~".

Definition is_atext (c : Z) : bool :=
  is_ascii_alphanumeric c || contains c ATEXT ||
  (negb (is_ascii c) && negb (is_control c) && negb ((c =? 0x2028) || (c =? 0x2029))).

Definition MAX_ADDRESS : nat := 254.
Definition MAX_LOCAL_PART : nat := 64.
Definition MAX_DOMAIN : nat := 253.
Definition MAX_LABEL : nat := 63.

Definition HYPHEN : Z := 45.
Definition AT : Z := 64.

(** ** Domains *)

Inductive DomainError := DomainInvalid | DomainConfusable.

Section domain.
Context `{Unicode}.

Definition check_label (label : list Z) : result DomainError unit :=
  if is_empty label then Ok tt
  else
    let lower := to_ascii_lowercase label in
    let check unicode :=
      if negb (is_single_script unicode) then Err DomainConfusable
      else if negb (forallb is_ascii unicode) && forallb is_ascii (skeleton unicode)
      then Err DomainConfusable
      else Ok tt in
    match strip_prefix (lit "xn--") lower with
    | Some body =>
        match punycode_decode body with
        | Some unicode => check unicode
        | None => Err DomainInvalid
        end
    | None => if forallb is_ascii label then Ok tt else check label
    end.

Definition check_confusables (raw : list Z) : result DomainError unit :=
  try_fold (λ _ label, check_label label) tt (split DOT raw).

Definition label_char (b : Z) : bool :=
  is_ascii_lowercase b || is_ascii_digit b || (b =? HYPHEN).

Definition bad_label (label : list Z) : bool :=
  is_empty label || (MAX_LABEL <? str_len label)%nat || starts_with [HYPHEN] label ||
  ends_with [HYPHEN] label || negb (forallb label_char label).

Definition check_dns_shape (ascii : list Z) : result DomainError unit :=
  if negb (contains DOT ascii) || (MAX_DOMAIN <? str_len ascii)%nat then Err DomainInvalid
  else if existsb bad_label (split DOT ascii) then Err DomainInvalid
  else Ok tt.

(** [domain::normalize]. *)
Definition normalize_name (raw : list Z) : result DomainError (list Z) :=
  if is_empty raw || existsb is_ascii_whitespace raw || existsb is_control raw
  then Err DomainInvalid
  else
    let? _ := check_confusables raw in
    let? ascii := ok_or DomainInvalid (domain_to_ascii_strict raw) in
    let ascii := to_ascii_lowercase ascii in
    let? _ := check_dns_shape ascii in
    Ok ascii.

(** ** Addresses *)

Record Address := mkAddress { local_part : list Z; domain : list Z }.

Inductive AddressError :=
  TooLong | MissingAtSign | InvalidLocalPart | InvalidDomain | ConfusableDomain.

Definition validate_local_part (local_part : list Z) : result AddressError unit :=
  if is_empty local_part || (MAX_LOCAL_PART <? str_len local_part)%nat then Err InvalidLocalPart
  else if existsb (λ atom, is_empty atom || negb (forallb is_atext atom)) (split DOT local_part)
  then Err InvalidLocalPart
  else Ok tt.

(** [Address::parse]. *)
Definition parse_address (raw : list Z) : result AddressError Address :=
  if (MAX_ADDRESS <? str_len raw)%nat then Err TooLong
  else
    let? parts := ok_or MissingAtSign (rsplit_once AT raw) in
    let? _ := validate_local_part parts.1 in
    match normalize_name parts.2 with
    | Ok domain => Ok (mkAddress parts.1 domain)
    | Err DomainInvalid => Err InvalidDomain
    | Err DomainConfusable => Err ConfusableDomain
    end.

(** [Address::to_string]. *)
Definition display_address (a : Address) : list Z := local_part a ++ AT :: domain a.

(** [util::address::normalize_domain] and [util::address::normalize]: the
    stored form of a domain and of an address. *)
Definition normalize_domain (raw : list Z) : list Z :=
  let raw := trim raw in
  match normalize_name raw with
  | Ok domain => domain
  | Err _ => to_lowercase raw
  end.

Definition normalize (raw : list Z) : list Z :=
  let raw := trim raw in
  match rsplit_once AT raw with
  | Some (local, domain) => to_lowercase local ++ AT :: normalize_domain domain
  | None => to_lowercase raw
  end.

End domain.

#[export] Instance Address_eq_dec : EqDecision Address.
Proof. solve_decision. Defined.

(** What is documented of the Unicode functions: on ASCII, lowercasing is
    ASCII lowercasing, and the strict UTS 46 mapping ignores the case of an ASCII
    name and leaves alone a name of the DNS shape without an encoded label. *)
Class UnicodeLaws `{Unicode} := {
  to_lowercase_ascii s : forallb is_ascii s = true → to_lowercase s = to_ascii_lowercase s;
  to_ascii_strict_ldh s :
    check_dns_shape s = Ok tt →
    existsb (starts_with (lit "xn--")) (split DOT s) = false →
    domain_to_ascii_strict s = Some s;
  to_ascii_strict_case s s' :
    forallb is_ascii s = true → forallb is_ascii s' = true →
    to_ascii_lowercase s = to_ascii_lowercase s' →
    domain_to_ascii_strict s = domain_to_ascii_strict s'
}.

(** ** Lemmas *)

Lemma split_elem c s x : x ∈ s → x = c ∨ Exists (λ p, x ∈ p) (split c s).
Proof.
  induction s as [|y s IH]; [by intros []%not_elem_of_nil|]. cbn [split].
  intros [->|Hx]%elem_of_cons.
  - destruct (Z.eqb_spec y c) as [->|]; [by left|]. right.
    destruct (split c s); constructor; set_solver.
  - specialize (IH Hx) as [->|IH]; [by left|]. right. destruct (Z.eqb_spec y c); [by constructor 2|].
    destruct (split c s) as [|p ps]; [by inversion IH|].
    inversion IH; subst; [constructor 1; by right|by constructor 2].
Qed.

Lemma split_sub c s p x : p ∈ split c s → x ∈ p → x ∈ s.
Proof.
  revert p. induction s as [|y s IH]; intros p; cbn [split].
  - intros ->%list_elem_of_singleton. done.
  - destruct (y =? c).
    + intros [->|Hp]%elem_of_cons Hx; [by apply not_elem_of_nil in Hx|]. right. by eapply IH.
    + destruct (split c s) as [|q qs] eqn:E.
      * intros ->%list_elem_of_singleton Hx. apply list_elem_of_singleton in Hx as ->. by left.
      * intros [->|Hp]%elem_of_cons Hx.
        -- apply elem_of_cons in Hx as [->|Hx]; [by left|]. right. eapply IH; [by left|done].
        -- right. eapply IH; [by right|done].
Qed.

(** The characters an envelope address must not bring into a command or a
    header: controls, ASCII white space and the specials of RFC 5322. *)
Definition structural (c : Z) : bool :=
  is_control c || is_ascii_whitespace c || (c =? AT) || contains c (lit "<>()[],;:\") || (c =? 34).

Lemma ascii_chars_forall (P Q : Z → bool) :
  forallb (λ n, implb (P (Z.of_nat n)) (Q (Z.of_nat n))) (seq 0 128) = true →
  ∀ c, 0 ≤ c < 128 → P c = true → Q c = true.
Proof.
  intros Hall c Hc HP. rewrite forallb_forall in Hall.
  specialize (Hall (Z.to_nat c)). rewrite Z2Nat.id in Hall by lia.
  rewrite HP in Hall. apply Hall. apply in_seq. lia.
Qed.

Lemma is_ascii_spec c : is_ascii c = true ↔ 0 ≤ c < 128.
Proof. unfold is_ascii, in_range. rewrite andb_true_iff, !Z.leb_le. lia. Qed.

Lemma structural_high c : ¬ (0 ≤ c < 128) → is_control c = false → structural c = false.
Proof.
  intros Hc Hn. unfold structural, is_ascii_whitespace, AT. rewrite Hn. simpl.
  unfold contains. cbv [lit Ascii.N_of_ascii existsb].
  repeat match goal with |- context [?x =? ?y] => destruct (Z.eqb_spec x y); [vm_compute in *; lia|] end.
  repeat (rewrite (proj2 (Z.eqb_neq _ _)) by (vm_compute; lia)). done.
Qed.

Lemma is_atext_not_structural c : is_atext c = true → structural c = false.
Proof.
  intros Ha. destruct (is_ascii c) eqn:E.
  - apply is_ascii_spec in E. apply negb_true_iff.
    revert c E Ha. apply (ascii_chars_forall is_atext (λ c, negb (structural c))).
    vm_compute. reflexivity.
  - assert (¬ 0 ≤ c < 128) as Hc by (rewrite <- is_ascii_spec; congruence).
    unfold is_atext in Ha. rewrite E in Ha. cbn [negb andb] in Ha.
    assert (Halnum : is_ascii_alphanumeric c = false).
    { unfold is_ascii_alphanumeric, is_ascii_alphabetic, is_ascii_uppercase, is_ascii_lowercase,
        is_ascii_digit, in_range. rewrite !orb_false_iff, !andb_false_iff, !Z.leb_gt. lia. }
    assert (Hcont : contains c ATEXT = false).
    { apply contains_false. intros Hin. apply Hc.
      assert (Hall : Forall (λ x, 0 ≤ x < 128) ATEXT)
        by (unfold ATEXT; vm_compute; repeat (constructor; [split; congruence|]); constructor).
      rewrite Forall_forall in Hall. by apply Hall. }
    rewrite Halnum, Hcont in Ha. simpl in Ha. apply andb_true_iff in Ha as [Ha _].
    apply negb_true_iff in Ha. by apply structural_high.
Qed.

Lemma label_char_not_structural c : label_char c = true → structural c = false.
Proof.
  intros Hl. assert (Hc : 0 ≤ c < 128).
  { unfold label_char, is_ascii_lowercase, is_ascii_digit, in_range, HYPHEN in Hl.
    rewrite !orb_true_iff, !andb_true_iff, !Z.leb_le, Z.eqb_eq in Hl. lia. }
  apply negb_true_iff. revert c Hc Hl.
  apply (ascii_chars_forall label_char (λ c, negb (structural c))). vm_compute. reflexivity.
Qed.

Lemma check_dns_shape_spec s :
  check_dns_shape s = Ok tt ↔
  DOT ∈ s ∧ (str_len s ≤ MAX_DOMAIN)%nat ∧ Forall (λ l, bad_label l = false) (split DOT s).
Proof.
  unfold check_dns_shape. rewrite <- existsb_false_Forall.
  rewrite <- contains_true, <- Nat.ltb_ge.
  destruct (contains DOT s); simpl; [|naive_solver].
  destruct (MAX_DOMAIN <? str_len s)%nat; simpl; [naive_solver|].
  destruct (existsb bad_label (split DOT s)); naive_solver.
Qed.

Lemma dns_shape_chars s : check_dns_shape s = Ok tt → Forall (λ c, label_char c = true ∨ c = DOT) s.
Proof.
  intros (_ & _ & H)%check_dns_shape_spec. apply Forall_forall. intros c Hc.
  destruct (split_elem DOT s c Hc) as [->|Hp]; [by right|left].
  apply Exists_exists in Hp as (p & Hp & Hcp). rewrite Forall_forall in H. specialize (H p Hp).
  unfold bad_label in H. rewrite !orb_false_iff, negb_false_iff in H. destruct H as [_ H].
  rewrite forallb_Forall, Forall_forall in H. by apply H.
Qed.

Lemma validate_local_part_spec s :
  validate_local_part s = Ok tt ↔
  s ≠ [] ∧ (str_len s ≤ MAX_LOCAL_PART)%nat ∧
  Forall (λ a, a ≠ [] ∧ Forall (λ c, is_atext c = true) a) (split DOT s).
Proof.
  unfold validate_local_part. rewrite <- Nat.ltb_ge.
  assert (He : existsb (λ a, is_empty a || negb (forallb is_atext a)) (split DOT s) = false ↔
    Forall (λ a, a ≠ [] ∧ Forall (λ c, is_atext c = true) a) (split DOT s)).
  { rewrite existsb_false_Forall. apply Forall_iff. intros a.
    rewrite orb_false_iff, negb_false_iff, forallb_Forall. destruct a; naive_solver. }
  rewrite <- He. destruct s as [|x s]; [simpl; naive_solver|].
  cbn [is_empty orb]. destruct (MAX_LOCAL_PART <? str_len (x :: s))%nat; [naive_solver|].
  destruct (existsb _ _); naive_solver.
Qed.

Lemma local_part_chars s :
  validate_local_part s = Ok tt → Forall (λ c, is_atext c = true ∨ c = DOT) s.
Proof.
  intros (_ & _ & H)%validate_local_part_spec. apply Forall_forall. intros c Hc.
  destruct (split_elem DOT s c Hc) as [->|Hp]; [by right|left].
  apply Exists_exists in Hp as (p & Hp & Hcp). rewrite Forall_forall in H.
  destruct (H p Hp) as [_ Ha]. rewrite Forall_forall in Ha. by apply Ha.
Qed.

Section parsed.
Context `{Unicode}.

Lemma normalize_name_shape raw d : normalize_name raw = Ok d → check_dns_shape d = Ok tt.
Proof.
  unfold normalize_name. destruct (_ || _); [done|].
  destruct (check_confusables raw); [|done]. destruct (domain_to_ascii_strict raw); [|done]. simpl.
  destruct (check_dns_shape _) as [[]|] eqn:E; [|done]. simpl. by intros [= <-].
Qed.

Lemma parse_address_spec raw a :
  parse_address raw = Ok a →
  (str_len raw ≤ MAX_ADDRESS)%nat ∧ validate_local_part (local_part a) = Ok tt ∧
  check_dns_shape (domain a) = Ok tt ∧
  ∃ d, raw = local_part a ++ AT :: d ∧ AT ∉ d ∧ normalize_name d = Ok (domain a).
Proof.
  unfold parse_address. destruct (Nat.ltb_spec MAX_ADDRESS (str_len raw)); [done|].
  destruct (rsplit_once AT raw) as [[l d]|] eqn:Er; [|done]. simpl.
  destruct (validate_local_part l) as [[]|] eqn:El; [|done]. simpl.
  destruct (normalize_name d) as [dom|[]] eqn:Ed; try done. intros [= <-]. simpl.
  apply rsplit_once_Some in Er as [-> Hd]. split_and!; [lia|done|by eapply normalize_name_shape|].
  by exists d.
Qed.

End parsed.

Lemma label_char_lower c : label_char c = true ∨ c = DOT → to_ascii_lowercase_char c = c ∧ is_ascii c = true ∧ structural c = false.
Proof.
  intros Hl. assert (Hc : 0 ≤ c < 128).
  { destruct Hl as [Hl| ->]; [|done].
    unfold label_char, is_ascii_lowercase, is_ascii_digit, in_range, HYPHEN in Hl.
    rewrite !orb_true_iff, !andb_true_iff, !Z.leb_le, Z.eqb_eq in Hl. lia. }
  split_and!.
  - destruct Hl as [Hl| ->]; [|done].
    unfold to_ascii_lowercase_char, label_char, is_ascii_uppercase, is_ascii_lowercase,
      is_ascii_digit, in_range, HYPHEN in *.
    destruct ((65 <=? c) && (c <=? 90)) eqn:E; [|done].
    rewrite !orb_true_iff, !andb_true_iff, !Z.leb_le, Z.eqb_eq in *. lia.
  - by apply is_ascii_spec.
  - destruct Hl as [Hl| ->]; [by apply label_char_not_structural|by vm_compute].
Qed.

Lemma dns_shape_lower s : check_dns_shape s = Ok tt → to_ascii_lowercase s = s.
Proof.
  intros Hs%dns_shape_chars. induction Hs as [|c s Hc _ IH]; [done|].
  unfold to_ascii_lowercase in *. simpl. rewrite IH. by destruct (label_char_lower c Hc) as [-> _].
Qed.

Lemma structural_control c : structural c = false → is_control c = false ∧ is_ascii_whitespace c = false.
Proof. unfold structural. rewrite !orb_false_iff. naive_solver. Qed.

Section roundtrip.
Context `{UnicodeLaws}.

Definition encoded_labels (d : list Z) : bool := existsb (starts_with (lit "xn--")) (split DOT d).

Lemma normalize_name_fixed d :
  check_dns_shape d = Ok tt → encoded_labels d = false → normalize_name d = Ok d.
Proof.
  intros Hs Hx. pose proof (dns_shape_chars d Hs) as Hchars.
  pose proof (proj1 (check_dns_shape_spec d) Hs) as (Hdot & _ & Hlab).
  unfold normalize_name.
  assert (Hne : is_empty d = false) by (destruct d; [by apply not_elem_of_nil in Hdot|done]).
  assert (Hws : existsb is_ascii_whitespace d = false ∧ existsb is_control d = false).
  { rewrite !existsb_false_Forall. split; (eapply Forall_impl; [exact Hchars|]);
      intros c Hc; cbv beta in Hc; destruct (label_char_lower c Hc) as (_ & _ & Hst);
      apply (structural_control c Hst). }
  destruct Hws as [-> ->]. rewrite Hne. cbn [orb].
  assert (Hconf : check_confusables d = Ok tt).
  { unfold check_confusables. apply existsb_false_Forall in Hx.
    assert (Hsub : ∀ l, l ∈ split DOT d → Forall (λ c, label_char c = true ∨ c = DOT) l).
    { intros l Hl. apply Forall_forall. intros c Hc. rewrite Forall_forall in Hchars.
      apply Hchars. by eapply split_sub. }
    revert Hx Hsub. generalize (split DOT d) as ls. induction ls as [|l ls IH]; [done|].
    intros [Hl Hx]%Forall_cons Hsub. cbn [try_fold].
    assert (Hcl : check_label l = Ok tt); [|rewrite Hcl; apply IH; set_solver].
    pose proof (Hsub l ltac:(by left)) as Hcs.
    assert (Hlow : to_ascii_lowercase l = l).
    { clear -Hcs. induction Hcs as [|c l Hc _ IH]; [done|]. unfold to_ascii_lowercase in *. simpl.
      rewrite IH. by destruct (label_char_lower c Hc) as [-> _]. }
    unfold check_label. rewrite Hlow. unfold strip_prefix. rewrite Hl.
    assert (Hasc : forallb is_ascii l = true).
    { apply forallb_Forall. eapply Forall_impl; [exact Hcs|]. intros c Hc. by apply label_char_lower. }
    rewrite Hasc. by destruct (is_empty l). }
  rewrite Hconf. rewrite (to_ascii_strict_ldh d Hs Hx). cbn [result_bind ok_or].
  rewrite (dns_shape_lower d Hs), Hs. done.
Qed.

End roundtrip.

Lemma display_split `{Unicode} raw a :
  parse_address raw = Ok a → rsplit_once AT (display_address a) = Some (local_part a, domain a).
Proof.
  intros (_ & _ & Hd & _)%parse_address_spec. apply rsplit_once_app. intros Hat.
  pose proof (dns_shape_chars _ Hd) as Hdc. rewrite Forall_forall in Hdc. specialize (Hdc _ Hat).
  apply label_char_lower in Hdc as (_ & _ & Hs). by vm_compute in Hs.
Qed.

(** The tables restricted to ASCII, on which the model can be evaluated. *)
Definition ascii_unicode : Unicode := {|
  to_lowercase := to_ascii_lowercase;
  domain_to_ascii_strict s :=
    if forallb is_ascii s && negb (existsb (starts_with (lit "xn--")) (split DOT (to_ascii_lowercase s)))
    then Some (to_ascii_lowercase s) else None;
  punycode_decode _ := None;
  is_single_script _ := true;
  skeleton s := s
|}.

Lemma ascii_unicode_laws : @UnicodeLaws ascii_unicode.
Proof.
  split; [done| |].
  - intros s Hs Hx. cbn [domain_to_ascii_strict ascii_unicode].
    rewrite dns_shape_lower by done. rewrite Hx.
    assert (Ha : forallb is_ascii s = true); [|by rewrite Ha].
    apply forallb_Forall. eapply Forall_impl; [by apply dns_shape_chars|].
    intros c Hc. by apply label_char_lower.
  - intros s s' Hs Hs' He. cbn [domain_to_ascii_strict ascii_unicode]. by rewrite Hs, Hs', He.
Qed.

(** ** Properties *)

(** An address the server accepts cannot carry structure into a command,
    a header or a file name: its local part is dot-separated non-empty atoms of
    at most 64 octets, its domain has the DNS shape, and no character of either
    is a control, white space, an at sign, a quote or one of the separators of
    RFC 5322. *)
Theorem parsed_address_safe `{Unicode} (raw : list Z) (a : Address) :
  parse_address raw = Ok a →
  (str_len (local_part a) ≤ 64)%nat ∧ (str_len (domain a) ≤ 253)%nat ∧
  Forall (λ atom, atom ≠ []) (split DOT (local_part a)) ∧
  Forall (λ label, label ≠ [] ∧ (str_len label ≤ 63)%nat) (split DOT (domain a)) ∧
  Forall (λ c, structural c = false) (local_part a ++ domain a) ∧
  to_ascii_lowercase (domain a) = domain a ∧
  rsplit_once AT (display_address a) = Some (local_part a, domain a).
Proof.
  intros Hp. pose proof Hp as (_ & Hl & Hd & _)%parse_address_spec.
  pose proof (local_part_chars _ Hl) as Hlc. pose proof (dns_shape_chars _ Hd) as Hdc.
  pose proof (proj1 (validate_local_part_spec _) Hl) as (_ & Hll & Hla).
  pose proof (proj1 (check_dns_shape_spec _) Hd) as (_ & Hdl & Hdb).
  split_and!; [done|done| | | |by apply dns_shape_lower|by eapply display_split].
  - eapply Forall_impl; [exact Hla|]. naive_solver.
  - eapply Forall_impl; [exact Hdb|]. intros l Hb. unfold bad_label in Hb. cbv beta in Hb.
    rewrite !orb_false_iff in Hb. destruct Hb as [[[[He Hlen] _] _] _].
    apply Nat.ltb_ge in Hlen. by destruct l.
  - apply Forall_app. split.
    + eapply Forall_impl; [exact Hlc|]. intros c [Hc| ->]; [by apply is_atext_not_structural|by vm_compute].
    + eapply Forall_impl; [exact Hdc|]. intros c Hc. by apply label_char_lower.
Qed.

Lemma parsed_address_safe_witness :
  let a := mkAddress (lit "Bob.X") (lit "example.org") in
  @parse_address ascii_unicode (lit "Bob.X@Example.ORG") = Ok a ∧
  Forall (λ c, structural c = false) (local_part a ++ domain a).
Proof.
  intros a. assert (Hp : @parse_address ascii_unicode (lit "Bob.X@Example.ORG") = Ok a)
    by (vm_compute; reflexivity).
  split; [exact Hp|]. apply (@parsed_address_safe ascii_unicode _ a Hp).
Defined.

(** An accepted address whose domain needs no encoding survives being
    stored as text: printed and parsed again, it is the same address. *)
Theorem address_roundtrip `{UnicodeLaws} (raw : list Z) (a : Address) :
  parse_address raw = Ok a → (str_len (display_address a) ≤ 254)%nat →
  encoded_labels (domain a) = false → parse_address (display_address a) = Ok a.
Proof.
  intros Hp Hlen Hx. pose proof (display_split raw a Hp) as Hsplit.
  apply parse_address_spec in Hp as (_ & Hl & Hd & _). unfold parse_address.
  destruct (Nat.ltb_spec MAX_ADDRESS (str_len (display_address a))); [unfold MAX_ADDRESS in *; lia|].
  rewrite Hsplit. cbn [ok_or result_bind fst snd]. rewrite Hl. cbn [result_bind].
  rewrite normalize_name_fixed by done. by destruct a.
Qed.

Lemma address_roundtrip_witness :
  let a := mkAddress (lit "bob") (lit "example.org") in
  @parse_address ascii_unicode (display_address a) = Ok a.
Proof.
  intros a. apply (@address_roundtrip ascii_unicode ascii_unicode_laws (lit "bob@EXAMPLE.org") a).
  - vm_compute. reflexivity.
  - vm_compute. lia.
  - vm_compute. reflexivity.
Defined.
