(* ===== verification/Srs.v ===== *)
(** Sender rewriting for forwarded mail (src/src/queue/srs/mod.rs): the signed
    address a forward is sent from, and the way back of a bounce. *)

From S2P Require Import Prelude RustStd Utf8 Address.

Local Open Scope Z_scope.

Definition EQUALS : Z := 61.

Definition BASE32 : list Z := lit "ABCDEFGHIJKLMNOPQRSTUVWXYZ234567".
Definition TS_MODULUS : Z := 1024.

(** ** The time stamp *)

(** [BASE32[i]]; the callers mask the index to five bits. *)
Definition base32_char (i : Z) : Z := default 0 (BASE32 !! Z.to_nat i).

Definition encode_timestamp (days : Z) : list Z :=
  let value := days mod TS_MODULUS in
  [base32_char (Z.land (Z.shiftr value 5) 31); base32_char (Z.land value 31)].

(** The first index at which the letter is, whatever its case. *)
Fixpoint position_of (b : Z) (l : list Z) : option Z :=
  match l with
  | [] => None
  | x :: l => if x =? b then Some 0 else Z.succ <$> position_of b l
  end.

Definition base32_value (c : Z) : option Z := position_of (to_ascii_uppercase_char c) BASE32.

Definition decode_timestamp (ts : list Z) : option Z :=
  match as_bytes ts with
  | [b0; b1] =>
      hi ← base32_value b0;
      lo ← base32_value b1;
      Some (hi * 32 + lo)
  | _ => None
  end.

Definition timestamp_age (stamp now_days : Z) : Z :=
  let now := now_days mod TS_MODULUS in
  (now + TS_MODULUS - stamp) mod TS_MODULUS.

(** ** Text *)

(** The outer [None] is the panic of [text[..n]] when the prefix ends inside a
    character. *)
Definition strip_prefix_ci (text prefix : list Z) : option (option (list Z)) :=
  if (str_len text <? str_len prefix)%nat then Some None
  else
    '(start, rest) ← split_at_byte (str_len prefix) text;
    Some (if eq_ignore_ascii_case start prefix then Some rest else None).

Definition constant_time_eq (a b : list Z) : bool :=
  if negb (length a =? length b)%nat then false
  else foldl (λ diff p, Z.lor diff (Z.lxor p.1 p.2)) 0 (zip a b) =? 0.

(** [str::splitn]: at most [n] pieces, the last one the rest. *)
Fixpoint splitn (n : nat) (c : Z) (s : list Z) : list (list Z) :=
  match n with
  | O => []
  | S O => [s]
  | S n => match split_once c s with Some (a, b) => a :: splitn n c b | None => [s] end
  end.

(** ** Rewriting *)

(** The key: the base64 text of the HMAC-SHA256 of some bytes under it. *)
Class SrsKey := { hmac_base64 : list Z → list Z }.

(** The digest has 32 octets, so its base64 text has 44 characters of which
    only the last is padding. *)
Class SrsKeyLaws `{SrsKey} := {
  hmac_base64_length data : length (hmac_base64 data) = 44%nat;
  hmac_base64_chars data :
    Forall (λ c, is_ascii_alphanumeric c || (c =? 43) || (c =? 47) = true) (take 43 (hmac_base64 data))
}.

Section srs.
Context `{SK : SrsKey}.

Definition srs_hash (ts domain local : list Z) : list Z :=
  let data := to_ascii_lowercase (ts ++ EQUALS :: domain ++ EQUALS :: local) in
  take 4 (hmac_base64 (as_bytes data)).

(** The local part of the address, and the address. *)
Definition srs_local (local domain : list Z) (now_days : Z) : list Z :=
  let ts := encode_timestamp now_days in
  let hash := srs_hash ts domain local in
  lit "SRS0=" ++ hash ++ EQUALS :: ts ++ EQUALS :: domain ++ EQUALS :: local.

Definition forward (local domain our_domain : list Z) (now_days : Z) : list Z :=
  srs_local local domain now_days ++ AT :: our_domain.

Definition reverse (srs_local : list Z) (now_days max_age_days : Z) : option (option (list Z * list Z)) :=
  stripped ← strip_prefix_ci srs_local (lit "SRS0=");
  match stripped with
  | None => Some None
  | Some rest =>
      match splitn 4 EQUALS rest with
      | [hash; ts; domain; local] =>
          if is_empty domain || is_empty local then Some None
          else
            let expected := srs_hash ts domain local in
            if negb (constant_time_eq (as_bytes expected) (as_bytes hash)) then Some None
            else
              match decode_timestamp ts with
              | None => Some None
              | Some stamp =>
                  if max_age_days <? timestamp_age stamp now_days then Some None else Some (Some (local, domain))
              end
      | _ => Some None
      end
  end.

End srs.

(** ** The time stamp comes back *)

Lemma base32_round_trip :
  forallb (λ n, bool_decide (base32_value (base32_char (Z.of_nat n)) = Some (Z.of_nat n)) && is_ascii (base32_char (Z.of_nat n))
    && negb (base32_char (Z.of_nat n) =? EQUALS)) (seq 0 32) = true.
Proof. vm_compute. reflexivity. Qed.

Lemma base32_char_ok i :
  0 ≤ i < 32 →
  base32_value (base32_char i) = Some i ∧ 0 ≤ base32_char i < 0x80 ∧ base32_char i ≠ EQUALS.
Proof.
  intros Hi. pose proof base32_round_trip as H. rewrite forallb_forall in H.
  specialize (H (Z.to_nat i) ltac:(apply in_seq; lia)). rewrite Z2Nat.id in H by lia.
  rewrite !andb_true_iff, negb_true_iff, bool_decide_eq_true, Z.eqb_neq in H. destruct H as [[Hv Ha] Hne].
  split_and!; [done|..|done]; unfold is_ascii, in_range in Ha; lia.
Qed.

Lemma timestamp_digits v :
  0 ≤ v < TS_MODULUS →
  0 ≤ Z.land (Z.shiftr v 5) 31 < 32 ∧ 0 ≤ Z.land v 31 < 32 ∧ Z.land (Z.shiftr v 5) 31 * 32 + Z.land v 31 = v.
Proof.
  intros Hv. change 31 with (Z.ones 5). rewrite !Z.land_ones, Z.shiftr_div_pow2 by lia. change (2 ^ 5) with 32.
  unfold TS_MODULUS in Hv. Z.to_euclidean_division_equations; lia.
Qed.

Lemma encode_timestamp_ok days :
  let ts := encode_timestamp days in
  Forall (λ c, 0 ≤ c < 0x80) ts ∧ EQUALS ∉ ts ∧ decode_timestamp ts = Some (days mod TS_MODULUS).
Proof.
  unfold encode_timestamp. cbv zeta. pose proof (Z.mod_pos_bound days TS_MODULUS eq_refl) as Hv.
  set (v := days mod TS_MODULUS) in *. destruct (timestamp_digits v Hv) as (H1 & H2 & Hsum).
  destruct (base32_char_ok _ H1) as (Hd1 & Ha1 & Hn1), (base32_char_ok _ H2) as (Hd2 & Ha2 & Hn2).
  assert (Ha : Forall (λ c, 0 ≤ c < 0x80) [base32_char (Z.land (Z.shiftr v 5) 31); base32_char (Z.land v 31)]) by (constructor; [exact Ha1|constructor; [exact Ha2|constructor]]).
  split_and!; [done| |].
  - rewrite !elem_of_cons. intros [?|[?|?%elem_of_nil]]; congruence.
  - unfold decode_timestamp. rewrite as_bytes_ascii by exact Ha. rewrite Hd1, Hd2. cbn. by rewrite Hsum.
Qed.

(** A stamp reads as its age, as long as it is younger than the modulus. *)
Lemma timestamp_age_days sent now :
  0 ≤ sent ≤ now → now - sent < TS_MODULUS → timestamp_age (sent mod TS_MODULUS) now = now - sent.
Proof.
  intros H1 H2. unfold timestamp_age, TS_MODULUS in *. Z.to_euclidean_division_equations; lia.
Qed.

(** ** Text *)

Lemma constant_time_eq_spec a b : constant_time_eq a b = true ↔ a = b.
Proof.
  unfold constant_time_eq.
  assert (H : ∀ a b d, length a = length b → foldl (λ diff p, Z.lor diff (Z.lxor p.1 p.2)) d (zip a b) = 0 ↔ d = 0 ∧ a = b).
  { clear. intros a. induction a as [|x a IH]; intros [|y b] d Hl; cbn in *; try lia; [naive_solver|].
    rewrite IH by lia. rewrite Z.lor_eq_0_iff, Z.lxor_eq_0_iff. naive_solver. }
  destruct (Nat.eqb_spec (length a) (length b)) as [Hl|Hl]; cbn [negb].
  - rewrite Z.eqb_eq, H by done. naive_solver.
  - split; [done|]. by intros ->.
Qed.

Lemma splitn_four c s h t d l :
  splitn 4 c s = [h; t; d; l] ↔ s = h ++ c :: t ++ c :: d ++ c :: l ∧ c ∉ h ∧ c ∉ t ∧ c ∉ d.
Proof.
  cbn [splitn]. split.
  - destruct (split_once c s) as [[a s1]|] eqn:E1; [|done]. destruct (split_once c s1) as [[b s2]|] eqn:E2; [|done].
    destruct (split_once c s2) as [[e s3]|] eqn:E3; [|done]. intros [= <- <- <- <-].
    apply split_once_Some in E1 as [-> ?], E2 as [-> ?], E3 as [-> ?]. done.
  - intros (-> & Hh & Ht & Hd). by rewrite !split_once_app.
Qed.

Lemma strip_prefix_ci_Some text prefix rest :
  strip_prefix_ci text prefix = Some (Some rest) ↔
  ∃ start, text = start ++ rest ∧ str_len start = str_len prefix ∧ eq_ignore_ascii_case start prefix = true.
Proof.
  unfold strip_prefix_ci. destruct (Nat.ltb_spec (str_len text) (str_len prefix)) as [Hlt|Hge].
  - split; [done|]. intros (start & -> & Hl & _). rewrite str_len_app in Hlt. lia.
  - split.
    + destruct (split_at_byte _ text) as [[a b]|] eqn:E; cbn; [|done]. apply split_at_byte_Some in E as [-> Hl].
      destruct (eq_ignore_ascii_case a prefix) eqn:Ee; [|done]. intros [= <-]. by exists a.
    + intros (start & -> & Hl & He). rewrite <-Hl, split_at_byte_prefix. cbn. by rewrite He.
Qed.

Lemma len_utf8_lowercase c : len_utf8 (to_ascii_lowercase_char c) = len_utf8 c.
Proof.
  unfold to_ascii_lowercase_char, is_ascii_uppercase, in_range. destruct (_ && _) eqn:E; [|done].
  unfold len_utf8. rewrite !(proj2 (Z.ltb_lt _ _)) by lia. done.
Qed.

Lemma str_len_ignore_case a b : eq_ignore_ascii_case a b = true → str_len a = str_len b.
Proof.
  intros H%eq_ignore_ascii_case_spec.
  assert (Hl : ∀ s, str_len (to_ascii_lowercase s) = str_len s).
  { intros s. induction s as [|c s IH]; [done|]. change (to_ascii_lowercase (c :: s)) with (to_ascii_lowercase_char c :: to_ascii_lowercase s).
    by rewrite !str_len_cons, IH, len_utf8_lowercase. }
  by rewrite <-(Hl a), <-(Hl b), H.
Qed.

(** ** What is reversed *)

Section theory.
Context `{SK : SrsKey}.

(** A local part this key signed, for a sender and a day. *)
Record signed (l local domain : list Z) (stamp : Z) (prefix hash ts : list Z) : Prop := {
  signed_text : l = prefix ++ hash ++ EQUALS :: ts ++ EQUALS :: domain ++ EQUALS :: local;
  signed_prefix : eq_ignore_ascii_case prefix (lit "SRS0=") = true;
  signed_fields : EQUALS ∉ hash ∧ EQUALS ∉ ts ∧ EQUALS ∉ domain;
  signed_sender : domain ≠ [] ∧ local ≠ [];
  signed_hash : as_bytes hash = as_bytes (srs_hash ts domain local);
  signed_stamp : decode_timestamp ts = Some stamp
}.

(** The way back takes exactly the addresses this key signed and whose stamp
    reads as young enough: no address can be made without the key. *)
Theorem srs_reverse_exact l now max local domain :
  reverse l now max = Some (Some (local, domain)) ↔
  ∃ prefix hash ts stamp, signed l local domain stamp prefix hash ts ∧ timestamp_age stamp now ≤ max.
Proof.
  unfold reverse. split.
  - destruct (strip_prefix_ci l _) as [[rest|]|] eqn:Ep; cbn [mbind option_bind]; try done.
    apply strip_prefix_ci_Some in Ep as (prefix & -> & _ & Hp). destruct (splitn 4 EQUALS rest) as [|h [|t [|d [|lo [|? ?]]]]] eqn:Es; try done.
    apply splitn_four in Es as (-> & Hh & Ht & Hd). destruct (is_empty d || is_empty lo) eqn:Ee; [done|].
    destruct (constant_time_eq _ _) eqn:Ec; cbn [negb]; [|done]. apply constant_time_eq_spec in Ec.
    destruct (decode_timestamp t) as [stamp|] eqn:Et; [|done]. destruct (Z.ltb_spec max (timestamp_age stamp now)); [done|].
    intros [= <- <-]. exists prefix, h, t, stamp. split; [|done]. apply orb_false_iff in Ee as [??]. by destruct d, lo.
  - intros (prefix & h & t & stamp & [-> Hp (Hh & Ht & Hd) [Hd0 Hl0] Hhash Hs] & Hage).
    rewrite (proj2 (strip_prefix_ci_Some _ _ (h ++ EQUALS :: t ++ EQUALS :: domain ++ EQUALS :: local)));
      [|exists prefix; split_and!; [done|by apply str_len_ignore_case|done]].
    cbn [mbind option_bind]. rewrite (proj2 (splitn_four _ _ h t domain local)) by done.
    destruct domain, local; try done. cbn [is_empty orb].
    rewrite (proj2 (constant_time_eq_spec _ _)) by done. cbn [negb]. rewrite Hs.
    by rewrite (proj2 (Z.ltb_ge _ _)) by done.
Qed.

(** Reversing an address panics exactly when a character lies across
    the fifth byte of its local part, whether it is a rewritten address or
    not. *)
Theorem srs_reverse_fails_iff l now max :
  reverse l now max = None ↔ ∃ a c b, l = a ++ c :: b ∧ (str_len a < 5 < str_len a + len_utf8 c)%nat.
Proof.
  unfold reverse, strip_prefix_ci. change (str_len (lit "SRS0=")) with 5%nat.
  destruct (Nat.ltb_spec (str_len l) 5) as [Hlt|Hge].
  - split; [done|]. intros (a & c & b & -> & H). rewrite str_len_app, str_len_cons in Hlt. lia.
  - rewrite <-split_at_byte_None by done. destruct (split_at_byte 5 l) as [[a b]|]; cbn [mbind option_bind]; [|done].
    split; [|done]. destruct (eq_ignore_ascii_case a _); [|done].
    destruct (splitn 4 EQUALS b) as [|? [|? [|? [|? [|? ?]]]]]; try done. by repeat case_match.
Qed.

Context `{SL : !SrsKeyLaws}.

Lemma srs_hash_ok ts domain local :
  Forall (λ c, 0 ≤ c < 0x80) (srs_hash ts domain local) ∧ EQUALS ∉ srs_hash ts domain local ∧ AT ∉ srs_hash ts domain local ∧
  length (srs_hash ts domain local) = 4%nat.
Proof.
  unfold srs_hash. set (data := as_bytes _). pose proof (hmac_base64_chars data) as H. pose proof (hmac_base64_length data) as Hl.
  assert (H4 : Forall (λ c, is_ascii_alphanumeric c || (c =? 43) || (c =? 47) = true) (take 4 (hmac_base64 data))).
  { change (take 4 (hmac_base64 data)) with (take (4 `min` 43) (hmac_base64 data)). rewrite <-take_take. by apply Forall_take. }
  assert (Hc : ∀ c, is_ascii_alphanumeric c || (c =? 43) || (c =? 47) = true → 0 ≤ c < 0x80 ∧ c ≠ EQUALS ∧ c ≠ AT).
  { intros c. unfold is_ascii_alphanumeric, is_ascii_alphabetic, is_ascii_uppercase, is_ascii_lowercase, is_ascii_digit, in_range, EQUALS, AT. lia. }
  split_and!.
  - eapply Forall_impl; [exact H4|]. intros c Hx. apply (Hc c Hx).
  - intros Hin. rewrite Forall_forall in H4. by apply H4, Hc in Hin as (_ & ? & _).
  - intros Hin. rewrite Forall_forall in H4. by apply H4, Hc in Hin as (_ & _ & ?).
  - rewrite length_take. lia.
Qed.

Lemma srs_reversed local domain sent now max :
  local ≠ [] → domain ≠ [] → EQUALS ∉ domain → 0 ≤ sent ≤ now → now - sent < TS_MODULUS →
  reverse (srs_local local domain sent) now max = Some (if now - sent <=? max then Some (local, domain) else None).
Proof.
  intros Hl Hd Heq Hsent Hnow.
  unfold srs_local. destruct (encode_timestamp_ok sent) as (Ha & Hts & Hdec). set (ts := encode_timestamp sent) in *.
  destruct (srs_hash_ok ts domain local) as (Hha & Hhe & _ & _). unfold reverse.
  rewrite (proj2 (strip_prefix_ci_Some _ _ (srs_hash ts domain local ++ EQUALS :: ts ++ EQUALS :: domain ++ EQUALS :: local)))
    by (by exists (lit "SRS0=")).
  cbn [mbind option_bind]. rewrite (proj2 (splitn_four _ _ (srs_hash ts domain local) ts domain local)) by done.
  destruct domain as [|x domain], local as [|y local]; try done. cbn [is_empty orb].
  rewrite (proj2 (constant_time_eq_spec _ _)) by done. cbn [negb]. rewrite Hdec, timestamp_age_days by done.
  rewrite Z.leb_antisym. by destruct (max <? now - sent).
Qed.

(** C29: a bounce finds its way back: for any sender and domain, the address
    a forward is sent from is reversed to them for [max] days from the day it
    was written, and on no later day until its stamp comes round again. *)
Theorem srs_round_trip local domain our_domain sent now max
    (Hl : local ≠ []) (Hd : domain ≠ []) (Heq : EQUALS ∉ domain) (Hat : AT ∉ our_domain)
    (Hsent : 0 ≤ sent ≤ now) (Hnow : now - sent < TS_MODULUS) :
  ∃ l, rsplit_once AT (forward local domain our_domain sent) = Some (l, our_domain) ∧
    reverse l now max = Some (if now - sent <=? max then Some (local, domain) else None).
Proof.
  exists (srs_local local domain sent). split; [by apply rsplit_once_app|by apply srs_reversed].
Qed.

(** The address is no address this server takes itself when the sender's is
    longer than fifty octets, the sign left out: the local part passes the
    limit of 64. *)
Theorem srs_long_sender `{UC : Unicode} local domain our_domain sent a
    (Hat : AT ∉ our_domain) (Hlong : (50 < str_len local + str_len domain)%nat) :
  parse_address (forward local domain our_domain sent) ≠ Ok a.
Proof.
  unfold parse_address, forward. destruct (_ <? _)%nat; [done|]. rewrite rsplit_once_app by done. cbn.
  destruct (validate_local_part _) as [[]|e] eqn:Ev; [|done]. apply validate_local_part_spec in Ev as (_ & Hlen & _).
  exfalso. revert Hlen. unfold srs_local. destruct (srs_hash_ok (encode_timestamp sent) domain local) as (_ & _ & _ & H4).
  pose proof (length_le_str_len (srs_hash (encode_timestamp sent) domain local)).
  pose proof (length_le_str_len (encode_timestamp sent)) as Ht. change (length (encode_timestamp sent)) with 2%nat in Ht.
  rewrite !str_len_app, str_len_cons, str_len_app, str_len_cons, str_len_app, str_len_cons.
  change (str_len (lit "SRS0=")) with 5%nat. change (len_utf8 EQUALS) with 1%nat. unfold MAX_LOCAL_PART. lia.
Qed.

End theory.

(** ** A key *)

Definition example_key : SrsKey := {| hmac_base64 data := repeat 65 43 ++ [EQUALS] |}.

#[local] Instance example_key_laws : @SrsKeyLaws example_key.
Proof.
  refine (@Build_SrsKeyLaws example_key _ _); intros data; [done|]. apply Forall_forall. intros c Hc.
  change (take 43 (@hmac_base64 example_key data)) with (repeat 65 43) in Hc. by apply list_elem_of_In, repeat_spec in Hc as ->.
Defined.

Lemma srs_round_trip_witness :
  ∃ l, rsplit_once AT (@forward example_key (lit "bob") (lit "example.net") (lit "mail.example.org") 20000) = Some (l, lit "mail.example.org") ∧
    @reverse example_key l 20010 14 = Some (Some (lit "bob", lit "example.net")).
Proof.
  apply (@srs_round_trip example_key example_key_laws (lit "bob") (lit "example.net") (lit "mail.example.org") 20000 20010 14);
    try done; apply (bool_decide_unpack _); vm_compute; exact I.
Defined.
