(* ===== verification/Directory.v ===== *)
(** The directory: which account receives an address, which addresses an
    account may send as, and which accounts may sign in
    (src/src/smtp/directory/mod.rs, resolve.rs and gate.rs).

    The maps are finite maps on strings.  Rust's [HashMap] iterates in an
    unspecified order; the functions that iterate take it from the class
    [MapOrder]. *)

From S2P Require Import Prelude RustStd Address.

Local Open Scope Z_scope.

Inductive Protocol :=
  Smtp | Submission | Submissions | Api | Imaps | Imap | Pop3s | ManageSieve | WebDav.
#[export] Instance Protocol_eq_dec : EqDecision Protocol.
Proof. solve_decision. Defined.

Inductive Resolution :=
| NotLocal
| UnknownUser
| Account (account : list Z)
| Alias (accounts : list (list Z)).
#[export] Instance Resolution_eq_dec : EqDecision Resolution.
Proof. solve_decision. Defined.

(** What proved the identity that asks to be admitted. *)
Inductive Proof_of := Password | Scram | Federated | Bearer.

Record AliasSpec := mkAliasSpec {
  members : list (list Z);
  senders : list (list Z);
  hidden : bool;
  list_id : option (list Z)
}.

(** The iteration order of a [HashMap<String, String>]. *)
Class MapOrder := {
  iter : gmap (list Z) (list Z) → list (list Z * list Z);
  iter_perm m : iter m ≡ₚ map_to_list m
}.

Module Directory.

(** The fields of [Directory] that resolution, ownership, quotas, limits and
    admission read. *)
Record t := mk {
  domains : gset (list Z);
  accounts_by_address : gmap (list Z) (list Z);
  password_hashes : gmap (list Z) (list Z);
  subaddress_separators : list Z;
  catch_all : gmap (list Z) (list Z);
  domain_aliases : gmap (list Z) (list Z);
  disabled_domains : gset (list Z);
  totp : gmap (list Z) (list Z);
  disabled : gset (list Z);
  account_quotas : gmap (list Z) Z;
  domain_quotas : gmap (list Z) Z;
  domain_submission_limits : gmap (list Z) Z;
  aliases : gmap (list Z) AliasSpec;
  masked_by_address : gmap (list Z) (list Z);
  masked_paused : gset (list Z);
  allowed_protocols : gmap (list Z) (list Protocol)
}.

Section directory.
Context `{Unicode}.

(** [collect] into a map: a later entry replaces an earlier one. *)
Definition collect_map {A} (f : list Z → list Z) (l : list (list Z * A)) : gmap (list Z) A :=
  fold_left (λ m kv, <[f kv.1 := kv.2]> m) l ∅.

Definition new (domains : list (list Z)) (address_accounts : list (list Z * list Z)) : t :=
  mk (list_to_set (map to_ascii_lowercase domains)) (collect_map normalize address_accounts)
    ∅ [43] ∅ ∅ ∅ ∅ ∅ ∅ ∅ ∅ ∅ ∅ ∅ ∅.

Definition with_masked (d : t) (entries : list (list Z * list Z)) : t :=
  mk (domains d) (accounts_by_address d) (password_hashes d) (subaddress_separators d)
    (catch_all d) (domain_aliases d) (disabled_domains d) (totp d) (disabled d)
    (account_quotas d) (domain_quotas d) (domain_submission_limits d) (aliases d)
    (collect_map normalize entries) (masked_paused d) (allowed_protocols d).

Definition with_masked_paused (d : t) (entries : list (list Z)) : t :=
  mk (domains d) (accounts_by_address d) (password_hashes d) (subaddress_separators d)
    (catch_all d) (domain_aliases d) (disabled_domains d) (totp d) (disabled d)
    (account_quotas d) (domain_quotas d) (domain_submission_limits d) (aliases d)
    (masked_by_address d) (list_to_set (map normalize entries)) (allowed_protocols d).

Definition with_aliases (d : t) (l : list (list Z * AliasSpec)) : t :=
  mk (domains d) (accounts_by_address d) (password_hashes d) (subaddress_separators d)
    (catch_all d) (domain_aliases d) (disabled_domains d) (totp d) (disabled d)
    (account_quotas d) (domain_quotas d) (domain_submission_limits d) (collect_map normalize l)
    (masked_by_address d) (masked_paused d) (allowed_protocols d).

Definition with_disabled (d : t) (names : list (list Z)) : t :=
  mk (domains d) (accounts_by_address d) (password_hashes d) (subaddress_separators d)
    (catch_all d) (domain_aliases d) (disabled_domains d) (totp d)
    (list_to_set (map to_ascii_lowercase names))
    (account_quotas d) (domain_quotas d) (domain_submission_limits d) (aliases d)
    (masked_by_address d) (masked_paused d) (allowed_protocols d).

Definition with_allowed_protocols (d : t) (entries : list (list Z * list Protocol)) : t :=
  mk (domains d) (accounts_by_address d) (password_hashes d) (subaddress_separators d)
    (catch_all d) (domain_aliases d) (disabled_domains d) (totp d) (disabled d)
    (account_quotas d) (domain_quotas d) (domain_submission_limits d) (aliases d)
    (masked_by_address d) (masked_paused d) (collect_map to_ascii_lowercase entries).

Definition with_totp (d : t) (entries : list (list Z * list Z)) : t :=
  mk (domains d) (accounts_by_address d) (password_hashes d) (subaddress_separators d)
    (catch_all d) (domain_aliases d) (disabled_domains d) (collect_map to_ascii_lowercase entries)
    (disabled d) (account_quotas d) (domain_quotas d) (domain_submission_limits d) (aliases d)
    (masked_by_address d) (masked_paused d) (allowed_protocols d).

Definition with_disabled_domains (d : t) (l : list (list Z)) : t :=
  mk (domains d) (accounts_by_address d) (password_hashes d) (subaddress_separators d)
    (catch_all d) (domain_aliases d) (list_to_set (map to_ascii_lowercase l)) (totp d) (disabled d)
    (account_quotas d) (domain_quotas d) (domain_submission_limits d) (aliases d)
    (masked_by_address d) (masked_paused d) (allowed_protocols d).

Definition with_domain_aliases (d : t) (l : list (list Z * list Z)) : t :=
  mk (domains d) (accounts_by_address d) (password_hashes d) (subaddress_separators d)
    (catch_all d)
    (collect_map to_ascii_lowercase (map (λ kv, (kv.1, to_ascii_lowercase kv.2)) l))
    (disabled_domains d) (totp d) (disabled d)
    (account_quotas d) (domain_quotas d) (domain_submission_limits d) (aliases d)
    (masked_by_address d) (masked_paused d) (allowed_protocols d).

Definition with_catch_all (d : t) (l : list (list Z * list Z)) : t :=
  mk (domains d) (accounts_by_address d) (password_hashes d) (subaddress_separators d)
    (collect_map to_ascii_lowercase l) (domain_aliases d) (disabled_domains d) (totp d) (disabled d)
    (account_quotas d) (domain_quotas d) (domain_submission_limits d) (aliases d)
    (masked_by_address d) (masked_paused d) (allowed_protocols d).

Definition with_password_hashes (d : t) (l : list (list Z * list Z)) : t :=
  mk (domains d) (accounts_by_address d) (collect_map id l) (subaddress_separators d)
    (catch_all d) (domain_aliases d) (disabled_domains d) (totp d) (disabled d)
    (account_quotas d) (domain_quotas d) (domain_submission_limits d) (aliases d)
    (masked_by_address d) (masked_paused d) (allowed_protocols d).

(** ** Resolution *)

Definition real_domain (d : t) (domain : list Z) : list Z := default domain (domain_aliases d !! domain).

Definition key_of (local domain : list Z) : list Z := normalize (local ++ AT :: domain).

Definition domain_disabled (d : t) (domain : list Z) : bool :=
  bool_decide (to_ascii_lowercase domain ∈ disabled_domains d).

Definition resolve_exact (d : t) (a : Address) : option (list Z) :=
  let domain := real_domain d (domain a) in
  if negb (bool_decide (domain ∈ domains d)) || bool_decide (domain ∈ disabled_domains d) then None
  else accounts_by_address d !! key_of (local_part a) domain.

Definition is_paused (d : t) (a : Address) : bool :=
  let domain := real_domain d (domain a) in
  bool_decide (domain ∈ disabled_domains d) ||
  bool_decide (key_of (local_part a) domain ∈ masked_paused d).

(** The characters before the first [sep]; [local.find(sep)]. *)
Fixpoint before (sep : Z) (s : list Z) : option (list Z) :=
  match s with
  | [] => None
  | c :: s => if c =? sep then Some [] else cons c <$> before sep s
  end.

(** The prefix up to the earliest separator: [filter_map(find).min()]. *)
Definition earliest (seps local : list Z) : option (list Z) :=
  fold_left
    (λ best sep,
      match best, before sep local with
      | Some b, Some p => Some (if (length p <? length b)%nat then p else b)
      | Some b, None => Some b
      | None, p => p
      end) seps None.

Definition strip_subaddress (d : t) (local domain : list Z) : option (list Z) :=
  base ← earliest (subaddress_separators d) local;
  if is_empty base then None else Some (key_of base domain).

Definition alias_accounts (d : t) (spec : AliasSpec) : list (list Z) :=
  omap (λ member, accounts_by_address d !! normalize member) (members spec).

Definition resolve (d : t) (a : Address) : Resolution :=
  let local := local_part a in
  let domain := real_domain d (domain a) in
  if negb (bool_decide (domain ∈ domains d)) then NotLocal
  else if bool_decide (domain ∈ disabled_domains d) then UnknownUser
  else
    let key := key_of local domain in
    match accounts_by_address d !! key with
    | Some account => Account account
    | None =>
        match aliases d !! key with
        | Some spec => Alias (alias_accounts d spec)
        | None =>
            match masked_by_address d !! key with
            | Some account => Account account
            | None =>
                match (base ← strip_subaddress d local domain; accounts_by_address d !! base) with
                | Some account => Account account
                | None =>
                    match catch_all d !! domain with
                    | Some account => Account account
                    | None => UnknownUser
                    end
                end
            end
        end
    end.

Definition final_recipients (d : t) (a : Address) : option (list (list Z * list Z)) :=
  match resolve d a with
  | Account account => Some [(account, normalize (display_address a))]
  | Alias _ =>
      let domain := real_domain d (domain a) in
      spec ← aliases d !! key_of (local_part a) domain;
      Some (omap (λ member,
        let member := normalize member in
        account ← accounts_by_address d !! member; Some (account, member)) (members spec))
  | NotLocal | UnknownUser => None
  end.

(** ** Ownership and logins *)

Definition owns_address (d : t) (account : list Z) (a : Address) : bool :=
  if domain_disabled d (domain a) then false
  else
    let key := normalize (display_address a) in
    match accounts_by_address d !! key with
    | Some owner => str_eqb owner account
    | None =>
        match aliases d !! key with
        | Some spec =>
            let permitted := match senders spec with [] => members spec | s => s end in
            existsb (λ addr,
              match accounts_by_address d !! normalize addr with
              | Some owner => str_eqb owner account
              | None => false
              end) permitted
        | None =>
            match masked_by_address d !! key with
            | Some owner => str_eqb owner account
            | None => false
            end
        end
    end.

Definition credentials (d : t) (login : list Z) : option (list Z * list Z) :=
  account ← (if contains AT login then
               match parse_address login with
               | Ok a => match resolve d a with Account account => Some account | _ => None end
               | Err _ => None
               end
             else
               let login := to_ascii_lowercase login in
               if bool_decide (is_Some (password_hashes d !! login)) then Some login else None);
  hash ← password_hashes d !! account;
  Some (account, hash).

Definition named_account (d : t) (name : list Z) : option (list Z) :=
  let name := to_ascii_lowercase name in
  if bool_decide (is_Some (password_hashes d !! name)) then Some name else None.

Definition is_disabled (d : t) (account : list Z) : bool :=
  bool_decide (to_ascii_lowercase account ∈ disabled d).

Definition is_protocol_allowed (d : t) (account : list Z) (protocol : Protocol) : bool :=
  match allowed_protocols d !! to_ascii_lowercase account with
  | Some set => bool_decide (protocol ∈ set)
  | None => true
  end.

Definition admit_login (d : t) (account : list Z) (protocol : Protocol) (proof : Proof_of) : bool :=
  let account := to_ascii_lowercase account in
  if bool_decide (account ∈ disabled d) then false
  else if negb (is_protocol_allowed d account protocol) then false
  else
    let needs_code :=
      match proof with Scram | Bearer => true | Password | Federated => false end &&
      bool_decide (is_Some (totp d !! account)) in
    negb needs_code.

(** ** Quotas and limits *)

Context `{MapOrder}.

Definition address_domain (addr : list Z) : option (list Z) := snd <$> rsplit_once AT addr.

(** The domains of an account's addresses, in iteration order. *)
Definition account_domains (d : t) (account : list Z) : list (list Z) :=
  omap (λ kv, if eq_ignore_ascii_case kv.2 account then address_domain kv.1 else None)
    (iter (accounts_by_address d)).

Definition quota_for (d : t) (account : list Z) : option Z :=
  let account := to_ascii_lowercase account in
  match account_quotas d !! account with
  | Some bytes => Some bytes
  | None =>
      if bool_decide (domain_quotas d = ∅) then None
      else head (omap (λ domain, domain_quotas d !! domain) (account_domains d account))
  end.

(** [Iterator::min]. *)
Definition minimum (l : list Z) : option Z :=
  match l with
  | [] => None
  | x :: l => Some (fold_left Z.min l x)
  end.

Definition submission_limit_for (d : t) (account : list Z) : option Z :=
  if bool_decide (domain_submission_limits d = ∅) then None
  else minimum (omap (λ domain, domain_submission_limits d !! domain) (account_domains d account)).

Definition addresses_for (d : t) (account : list Z) : list (list Z) :=
  omap (λ kv, if eq_ignore_ascii_case kv.2 account then Some kv.1 else None)
    (iter (accounts_by_address d)).

End directory.
End Directory.

(** ** Spelling *)

Lemma lower_char_ascii c : is_ascii c = true → is_ascii (to_ascii_lowercase_char c) = true.
Proof.
  intros H%is_ascii_spec. apply is_ascii_spec. unfold to_ascii_lowercase_char, is_ascii_uppercase, in_range.
  destruct ((65 <=? c) && (c <=? 90)) eqn:E; [|done]. rewrite andb_true_iff, !Z.leb_le in E. lia.
Qed.

(** Visible characters are not trimmed. *)
Lemma ascii_atext_not_whitespace c :
  is_ascii c = true → is_atext c = true ∨ c = DOT → is_whitespace c = false.
Proof.
  intros Hc%is_ascii_spec Ha. apply negb_true_iff. destruct Ha as [Ha| ->]; [|by vm_compute].
  revert c Hc Ha. apply (ascii_chars_forall is_atext (λ c, negb (is_whitespace c))).
  vm_compute. reflexivity.
Qed.

Lemma label_char_not_whitespace c : label_char c = true ∨ c = DOT → is_whitespace c = false.
Proof.
  intros Hl. destruct (label_char_lower c Hl) as (_ & Hc%is_ascii_spec & _).
  apply negb_true_iff. destruct Hl as [Hl| ->]; [|by vm_compute]. revert c Hc Hl.
  apply (ascii_chars_forall label_char (λ c, negb (is_whitespace c))). vm_compute. reflexivity.
Qed.

Section spelling.
Context `{UnicodeLaws}.

(** A local part of ASCII atoms. *)
Definition plain_local (l : list Z) : Prop :=
  l ≠ [] ∧ Forall (λ c, is_ascii c = true ∧ (is_atext c = true ∨ c = DOT)) l.

Lemma trim_plain l dom :
  plain_local l → check_dns_shape dom = Ok tt → trim (l ++ AT :: dom) = l ++ AT :: dom.
Proof.
  intros [Hne Hl] Hd. apply dns_shape_chars in Hd as Hdc. apply check_dns_shape_spec in Hd as (Hdot & _ & _).
  destruct l as [|x l]; [done|]. apply Forall_cons in Hl as [[Hx1 Hx2] _].
  apply trim_id; cbn [app].
  - by apply ascii_atext_not_whitespace.
  - assert (∃ y, last (x :: l ++ AT :: dom) = Some y ∧ y ∈ dom) as (y & -> & Hy).
    { destruct (last dom) as [y|] eqn:E.
      - exists y. split; [|by apply last_Some_elem_of].
        change (x :: l ++ AT :: dom) with ((x :: l) ++ ([AT] ++ dom)).
        rewrite app_assoc, last_app, E. done.
      - apply last_None in E as ->. by apply not_elem_of_nil in Hdot. }
    apply label_char_not_whitespace. rewrite Forall_forall in Hdc. by apply Hdc.
Qed.

Lemma key_of_plain l dom :
  plain_local l → check_dns_shape dom = Ok tt →
  Directory.key_of l dom = to_ascii_lowercase l ++ AT :: normalize_domain dom.
Proof.
  intros Hl Hd. unfold Directory.key_of, normalize. rewrite trim_plain by done.
  rewrite rsplit_once_app.
  - rewrite to_lowercase_ascii; [done|]. apply forallb_Forall. destruct Hl as [_ Hl].
    eapply Forall_impl; [exact Hl|]. by intros c [? _].
  - apply dns_shape_chars in Hd. intros Hat. rewrite Forall_forall in Hd.
    apply Hd in Hat. apply label_char_lower in Hat as (_ & _ & Hs). by vm_compute in Hs.
Qed.

Lemma before_spelling sep l1 l2 :
  is_ascii_alphabetic sep = false → to_ascii_lowercase l1 = to_ascii_lowercase l2 →
  option_Forall2 (λ p1 p2, to_ascii_lowercase p1 = to_ascii_lowercase p2)
    (Directory.before sep l1) (Directory.before sep l2).
Proof.
  intros Hsep. revert l2. induction l1 as [|c1 l1 IH]; intros [|c2 l2] He; try done; [constructor|].
  unfold to_ascii_lowercase in He. cbn [map] in He. injection He as Hc Hl. simpl.
  assert (Heq : (c1 =? sep) = (c2 =? sep)).
  { apply eq_iff_eq_true. rewrite !Z.eqb_eq.
    unfold is_ascii_alphabetic in Hsep. apply orb_false_iff in Hsep as [Hu Hlo].
    unfold to_ascii_lowercase_char, is_ascii_uppercase, is_ascii_lowercase, in_range in *.
    rewrite !andb_false_iff, !Z.leb_gt in Hu, Hlo.
    destruct ((65 <=? c1) && (c1 <=? 90)) eqn:E1, ((65 <=? c2) && (c2 <=? 90)) eqn:E2;
      rewrite ?andb_true_iff, ?andb_false_iff, ?Z.leb_le, ?Z.leb_gt in E1, E2; lia. }
  rewrite Heq. destruct (c2 =? sep); [by constructor|].
  specialize (IH l2 Hl). destruct IH; simpl; constructor. unfold to_ascii_lowercase in *. simpl. congruence.
Qed.

Lemma earliest_spelling seps l1 l2 :
  Forall (λ sep, is_ascii_alphabetic sep = false) seps →
  to_ascii_lowercase l1 = to_ascii_lowercase l2 →
  option_Forall2 (λ p1 p2, to_ascii_lowercase p1 = to_ascii_lowercase p2)
    (Directory.earliest seps l1) (Directory.earliest seps l2).
Proof.
  intros Hseps He. unfold Directory.earliest.
  assert (Hgen : ∀ b1 b2, option_Forall2 (λ p1 p2, to_ascii_lowercase p1 = to_ascii_lowercase p2) b1 b2 →
    option_Forall2 (λ p1 p2, to_ascii_lowercase p1 = to_ascii_lowercase p2)
      (fold_left (λ best sep, match best, Directory.before sep l1 with
         | Some b, Some p => Some (if (length p <? length b)%nat then p else b)
         | Some b, None => Some b | None, p => p end) seps b1)
      (fold_left (λ best sep, match best, Directory.before sep l2 with
         | Some b, Some p => Some (if (length p <? length b)%nat then p else b)
         | Some b, None => Some b | None, p => p end) seps b2)); [|apply Hgen; constructor].
  induction Hseps as [|sep seps Hsep _ IH]; intros b1 b2 Hb; [done|]. cbn [fold_left]. apply IH.
  pose proof (before_spelling sep l1 l2 Hsep He) as Hbef.
  destruct Hb as [b1 b2 Hb|], Hbef as [p1 p2 Hp|]; try (by constructor).
  constructor. apply (f_equal length) in Hb as Hlb. apply (f_equal length) in Hp as Hlp.
  unfold to_ascii_lowercase in Hlb, Hlp. rewrite !length_map in Hlb, Hlp. rewrite Hlb, Hlp.
  by destruct (_ <? _)%nat.
Qed.

Lemma before_prefix sep l p : Directory.before sep l = Some p → p `prefix_of` l.
Proof.
  revert p. induction l as [|c l IH]; simpl; intros p; [done|]. destruct (c =? sep).
  - intros [= <-]. apply prefix_nil.
  - destruct (Directory.before sep l) as [q|]; [|done]. intros [= <-]. by apply prefix_cons, IH.
Qed.

Lemma earliest_prefix seps l p : Directory.earliest seps l = Some p → p `prefix_of` l.
Proof.
  unfold Directory.earliest.
  assert (Hgen : ∀ b, (∀ q, b = Some q → q `prefix_of` l) → ∀ q,
    fold_left (λ best sep, match best, Directory.before sep l with
         | Some b, Some p => Some (if (length p <? length b)%nat then p else b)
         | Some b, None => Some b | None, p => p end) seps b = Some q → q `prefix_of` l);
    [|by apply Hgen].
  induction seps as [|sep seps IH]; intros b Hb q; [by apply Hb|]. cbn [fold_left]. apply IH.
  intros q'. destruct b as [b|], (Directory.before sep l) as [p'|] eqn:E; intros Hq; simplify_eq.
  - destruct (_ <? _)%nat; [by eapply before_prefix|by apply Hb].
  - by apply Hb.
  - by eapply before_prefix.
Qed.

Lemma plain_local_spelling l1 l2 :
  to_ascii_lowercase l1 = to_ascii_lowercase l2 → l1 = [] ↔ l2 = [].
Proof. intros He. destruct l1, l2; naive_solver. Qed.

Lemma resolve_spelling d l1 l2 dom :
  plain_local l1 → plain_local l2 → to_ascii_lowercase l1 = to_ascii_lowercase l2 →
  check_dns_shape (Directory.real_domain d dom) = Ok tt →
  Forall (λ sep, is_ascii_alphabetic sep = false) (Directory.subaddress_separators d) →
  Directory.resolve d (mkAddress l1 dom) = Directory.resolve d (mkAddress l2 dom).
Proof.
  intros H1 H2 He Hd Hseps. unfold Directory.resolve. cbn [local_part domain].
  rewrite !key_of_plain by done. rewrite He.
  assert (Hs : Directory.strip_subaddress d l1 (Directory.real_domain d dom) =
               Directory.strip_subaddress d l2 (Directory.real_domain d dom)); [|by rewrite Hs].
  unfold Directory.strip_subaddress.
  pose proof (earliest_spelling _ l1 l2 Hseps He) as Hea.
  pose proof (earliest_prefix (Directory.subaddress_separators d) l1) as Hp1.
  pose proof (earliest_prefix (Directory.subaddress_separators d) l2) as Hp2.
  destruct Hea as [p1 p2 Hp|]; [|done]. simpl.
  specialize (Hp1 p1 eq_refl). specialize (Hp2 p2 eq_refl).
  pose proof (plain_local_spelling p1 p2 Hp) as Hnil.
  destruct p1 as [|x1 p1], p2 as [|x2 p2]; try (by naive_solver). cbn [is_empty].
  f_equal. rewrite !key_of_plain; [by rewrite Hp| |done| |done].
  - split; [done|]. destruct Hp2 as [k ->]. destruct H2 as [_ H2]. by apply Forall_app in H2 as [? _].
  - split; [done|]. destruct Hp1 as [k ->]. destruct H1 as [_ H1]. by apply Forall_app in H1 as [? _].
Qed.

End spelling.

Lemma lower_at c : to_ascii_lowercase_char c = AT ↔ c = AT.
Proof.
  unfold to_ascii_lowercase_char, is_ascii_uppercase, in_range, AT.
  destruct ((65 <=? c) && (c <=? 90)) eqn:E; [|done]. rewrite andb_true_iff, !Z.leb_le in E. lia.
Qed.

Lemma lower_split l d : AT ∉ d →
  rsplit_once AT (to_ascii_lowercase (l ++ AT :: d)) = Some (to_ascii_lowercase l, to_ascii_lowercase d).
Proof.
  intros Hd. unfold to_ascii_lowercase. rewrite map_app. cbn [map].
  rewrite (proj2 (lower_at AT)) by done. apply rsplit_once_app.
  intros (c & Hc & Hin)%list_elem_of_fmap. symmetry in Hc. apply lower_at in Hc as ->. done.
Qed.

Section parsed_spelling.
Context `{UnicodeLaws}.

Lemma parse_spelling raw1 raw2 a1 a2 :
  forallb is_ascii raw1 = true → forallb is_ascii raw2 = true →
  to_ascii_lowercase raw1 = to_ascii_lowercase raw2 →
  parse_address raw1 = Ok a1 → parse_address raw2 = Ok a2 →
  domain a1 = domain a2 ∧ check_dns_shape (domain a1) = Ok tt ∧
  to_ascii_lowercase (local_part a1) = to_ascii_lowercase (local_part a2) ∧
  plain_local (local_part a1) ∧ plain_local (local_part a2).
Proof.
  intros Hr1 Hr2 He (_ & Hl1 & Hd1 & d1 & -> & Hat1 & Hn1)%parse_address_spec
    (_ & Hl2 & Hd2 & d2 & -> & Hat2 & Hn2)%parse_address_spec.
  apply (f_equal (rsplit_once AT)) in He. rewrite !lower_split in He by done. injection He as Hll Hdd.
  rewrite forallb_app in Hr1, Hr2. cbn [forallb] in Hr1, Hr2.
  apply andb_true_iff in Hr1 as [Hr1 [_ Hs1]%andb_true_iff].
  apply andb_true_iff in Hr2 as [Hr2 [_ Hs2]%andb_true_iff].
  assert (Hplain : ∀ l, forallb is_ascii l = true → validate_local_part l = Ok tt → plain_local l).
  { intros l Ha Hv. split; [by apply validate_local_part_spec in Hv as (? & _)|].
    apply Forall_and. split; [by apply forallb_Forall|by apply local_part_chars]. }
  split_and!; auto.
  assert (Hnorm : ∀ d x, normalize_name d = Ok x →
    ∃ y, domain_to_ascii_strict d = Some y ∧ x = to_ascii_lowercase y).
  { intros d x. unfold normalize_name. destruct (_ || _); [done|].
    destruct (check_confusables d); [|done]. destruct (domain_to_ascii_strict d) as [y|]; [|done]. simpl.
    destruct (check_dns_shape (to_ascii_lowercase y)); [|done]. simpl. intros [= <-]. by exists y. }
  apply Hnorm in Hn1 as (y1 & Hy1 & ->). apply Hnorm in Hn2 as (y2 & Hy2 & ->).
  rewrite (to_ascii_strict_case d1 d2) in Hy1 by done. congruence.
Qed.

End parsed_spelling.

(** ** Properties *)

(** The case in which a correspondent types an address never decides
    where its mail lands nor who may send as it: two ASCII spellings that
    differ only in case resolve alike and have the same owners, sub-addresses,
    aliases, masks and catch-alls included. *)
Theorem recipient_spelling_irrelevant `{UnicodeLaws} (d : Directory.t) (raw1 raw2 : list Z)
    (a1 a2 : Address) :
  forallb is_ascii raw1 = true → forallb is_ascii raw2 = true →
  eq_ignore_ascii_case raw1 raw2 = true →
  parse_address raw1 = Ok a1 → parse_address raw2 = Ok a2 →
  Forall (λ sep, is_ascii_alphabetic sep = false) (Directory.subaddress_separators d) →
  check_dns_shape (Directory.real_domain d (domain a1)) = Ok tt →
  Directory.resolve d a1 = Directory.resolve d a2 ∧
  ∀ account, Directory.owns_address d account a1 = Directory.owns_address d account a2.
Proof.
  intros Hr1 Hr2 He Hp1 Hp2 Hseps Hreal. apply str_eqb_eq in He.
  destruct (parse_spelling raw1 raw2 a1 a2 Hr1 Hr2 He Hp1 Hp2) as (Hdom & Hsh & Hl & Hpl1 & Hpl2).
  destruct a1 as [l1 d1], a2 as [l2 d2]. simpl in *. subst d2. split.
  - by apply resolve_spelling.
  - intros account. unfold Directory.owns_address. cbn [domain].
    change (normalize (display_address (mkAddress l1 d1))) with (Directory.key_of l1 d1).
    change (normalize (display_address (mkAddress l2 d1))) with (Directory.key_of l2 d1).
    by rewrite !key_of_plain, Hl.
Qed.

(** What an account may send as comes back to this server: an address
    of a hosted domain that is not itself an alias domain and that [account]
    owns resolves to that very account, or is a multi-target alias one of whose
    permitted senders it is. *)
Theorem owned_address_comes_back `{Unicode} (d : Directory.t) (account : list Z) (a : Address) :
  Directory.owns_address d account a = true →
  domain a ∈ Directory.domains d → Directory.domain_aliases d !! domain a = None →
  to_ascii_lowercase (domain a) = domain a →
  Directory.resolve d a = Account account ∨
  ∃ spec, Directory.aliases d !! normalize (display_address a) = Some spec ∧
    Directory.resolve d a = Alias (Directory.alias_accounts d spec) ∧
    ∃ sender, sender ∈ (if senders spec then members spec else senders spec) ∧
      Directory.accounts_by_address d !! normalize sender = Some account.
Proof.
  intros Ho Hdom Hali Hlow. unfold Directory.owns_address, Directory.domain_disabled in Ho.
  rewrite Hlow in Ho. unfold Directory.resolve, Directory.real_domain. rewrite Hali. cbn [default].
  rewrite (bool_decide_true (domain a ∈ Directory.domains d)) by done. cbn [negb].
  destruct (bool_decide (domain a ∈ Directory.disabled_domains d)); [done|].
  change (Directory.key_of (local_part a) (domain a)) with (normalize (display_address a)).
  destruct (Directory.accounts_by_address d !! normalize (display_address a)) as [owner|].
  { apply str_eqb_eq in Ho as ->. by left. }
  destruct (Directory.aliases d !! normalize (display_address a)) as [spec|].
  - right. exists spec. split_and!; [done|done|].
    apply existsb_exists in Ho as (sender & Hin & Hs). exists sender.
    split; [apply list_elem_of_In; by destruct (senders spec)|].
    destruct (_ !! normalize sender) as [owner|]; [|done]. by apply str_eqb_eq in Hs as ->.
  - destruct (Directory.masked_by_address d !! normalize (display_address a)) as [owner|]; [|done].
    apply str_eqb_eq in Ho as ->. by left.
Qed.

(** A directory with one domain, two accounts, an alias and a mask. *)
Definition example_directory `{Unicode} : Directory.t :=
  Directory.with_masked
    (Directory.with_aliases
      (Directory.new [lit "Example.org"]
         [(lit "Bob@example.org", lit "bob"); (lit "eve@example.org", lit "eve")])
      [(lit "team@example.org", mkAliasSpec [lit "bob@example.org"; lit "eve@example.org"] [] false None)])
    [(lit "x1@example.org", lit "eve")].

Lemma recipient_spelling_irrelevant_witness :
  @Directory.resolve ascii_unicode (@example_directory ascii_unicode)
    (mkAddress (lit "bob+Tag") (lit "example.org")) = Account (lit "bob").
Proof.
  destruct (@recipient_spelling_irrelevant ascii_unicode ascii_unicode_laws
    (@example_directory ascii_unicode) (lit "bob+Tag@example.org") (lit "BOB+tag@Example.ORG")
    (mkAddress (lit "bob+Tag") (lit "example.org")) (mkAddress (lit "BOB+tag") (lit "example.org")))
    as [-> _]; try (vm_compute; reflexivity).
  vm_compute. repeat constructor.
Defined.

Lemma owned_address_comes_back_witness :
  ∃ account a, @Directory.owns_address ascii_unicode (@example_directory ascii_unicode) account a = true ∧
    (@Directory.resolve ascii_unicode (@example_directory ascii_unicode) a = Account account ∨
     ∃ spec, @Directory.resolve ascii_unicode (@example_directory ascii_unicode) a =
       Alias (Directory.alias_accounts (H := ascii_unicode) (@example_directory ascii_unicode) spec)).
Proof.
  exists (lit "eve"), (mkAddress (lit "X1") (lit "example.org")).
  assert (Ho : @Directory.owns_address ascii_unicode (@example_directory ascii_unicode) (lit "eve")
    (mkAddress (lit "X1") (lit "example.org")) = true) by (vm_compute; reflexivity).
  split; [exact Ho|].
  destruct (@owned_address_comes_back ascii_unicode _ _ _ Ho) as [H|(spec & _ & H & _)].
  - apply (bool_decide_unpack (lit "example.org" ∈ _)). vm_compute. reflexivity.
  - vm_compute. reflexivity.
  - vm_compute. reflexivity.
  - by left.
  - right. by exists spec.
Defined.

(** A domain switched off is closed in every direction and answers like
    a domain nobody ever used: every address of it, and of any alias domain of
    it, gets the same refusal, opens no account to a certificate or a login by
    address, and is nobody's to send as. *)
Theorem disabled_domain_closed `{Unicode} (d : Directory.t) (a : Address) :
  Directory.real_domain d (domain a) ∈ Directory.disabled_domains d →
  (∀ l, Directory.resolve d (mkAddress l (domain a)) = Directory.resolve d a) ∧
  (Directory.resolve d a = UnknownUser ∨ Directory.resolve d a = NotLocal) ∧
  Directory.resolve_exact d a = None ∧ Directory.final_recipients d a = None ∧
  (∀ login, contains AT login = true → parse_address login = Ok a →
     Directory.credentials d login = None) ∧
  (Directory.domain_aliases d !! domain a = None → to_ascii_lowercase (domain a) = domain a →
   ∀ account, Directory.owns_address d account a = false).
Proof.
  intros Hdis.
  assert (Hres : ∀ l, Directory.resolve d (mkAddress l (domain a)) =
    if bool_decide (Directory.real_domain d (domain a) ∈ Directory.domains d) then UnknownUser else NotLocal).
  { intros l. unfold Directory.resolve. cbn [domain]. rewrite (bool_decide_true (_ ∈ Directory.disabled_domains d)) by done.
    by destruct (bool_decide _). }
  assert (Ha : Directory.resolve d a =
    if bool_decide (Directory.real_domain d (domain a) ∈ Directory.domains d) then UnknownUser else NotLocal)
    by (rewrite <- (Hres (local_part a)); by destruct a).
  split_and!.
  - intros l. by rewrite Hres, Ha.
  - rewrite Ha. case_bool_decide; auto.
  - unfold Directory.resolve_exact. rewrite (bool_decide_true (_ ∈ Directory.disabled_domains d)) by done.
    by rewrite orb_true_r.
  - unfold Directory.final_recipients. rewrite Ha. by case_bool_decide.
  - intros login Hat Hp. unfold Directory.credentials. rewrite Hat, Hp, Ha. by case_bool_decide.
  - intros Hali Hlow account. unfold Directory.owns_address, Directory.domain_disabled. rewrite Hlow.
    unfold Directory.real_domain in Hdis. rewrite Hali in Hdis. cbn [default] in Hdis.
    by rewrite bool_decide_true.
Qed.

Lemma disabled_domain_closed_witness :
  let d := @Directory.with_disabled_domains (@example_directory ascii_unicode) [lit "EXAMPLE.org"] in
  @Directory.resolve ascii_unicode d (mkAddress (lit "bob") (lit "example.org")) = UnknownUser.
Proof.
  intros d.
  assert (Hdis : Directory.real_domain d (lit "example.org") ∈ Directory.disabled_domains d).
  { apply (bool_decide_unpack (_ ∈ _)). vm_compute. reflexivity. }
  destruct (@disabled_domain_closed ascii_unicode d (mkAddress (lit "bob") (lit "example.org")) Hdis)
    as (H & _). rewrite <- (H (lit "nobody")). vm_compute. reflexivity.
Defined.



(** ** Iteration order *)

Lemma minimum_spec l m :
  Directory.minimum l = Some m ↔ m ∈ l ∧ ∀ x, x ∈ l → m ≤ x.
Proof.
  destruct l as [|x l]; simpl; [split; [done|]; by intros [[]%not_elem_of_nil _]|].
  assert (Hf : ∀ y, fold_left Z.min l y ∈ y :: l ∧ ∀ z, z ∈ y :: l → fold_left Z.min l y ≤ z).
  { induction l as [|z l IH]; intros y; simpl; [set_solver by lia|].
    destruct (IH (Z.min y z)) as [Hin Hle]. split.
    - apply elem_of_cons in Hin as [->|Hin]; [|set_solver].
      destruct (Z.min_spec y z) as [[_ ->]|[_ ->]]; set_solver.
    - intros w [->|[->|Hw]%elem_of_cons]%elem_of_cons.
      + specialize (Hle (Z.min y z) ltac:(by left)). lia.
      + specialize (Hle (Z.min y z) ltac:(by left)). lia.
      + apply Hle. by right. }
  destruct (Hf x) as [Hin Hle]. split.
  - intros [= <-]. done.
  - intros [Hm Hmin]. f_equal. specialize (Hmin _ Hin). specialize (Hle _ Hm). lia.
Qed.

Lemma minimum_perm l1 l2 : (∀ x, x ∈ l1 ↔ x ∈ l2) → Directory.minimum l1 = Directory.minimum l2.
Proof.
  intros Hp. apply option_eq. intros m. rewrite !minimum_spec. by setoid_rewrite Hp.
Qed.

(** The directory's maps iterated in the order of the model's finite maps,
    and in the opposite order. *)
Definition map_order : MapOrder := {| iter := map_to_list; iter_perm m := Permutation_refl _ |}.
Definition reverse_order : MapOrder :=
  {| iter m := reverse (map_to_list m); iter_perm m := reverse_Permutation _ |}.

Lemma account_domains_spec (o : MapOrder) d account domain :
  domain ∈ @Directory.account_domains o d account ↔
  ∃ addr owner, Directory.accounts_by_address d !! addr = Some owner ∧
    eq_ignore_ascii_case owner account = true ∧ Directory.address_domain addr = Some domain.
Proof.
  unfold Directory.account_domains. rewrite list_elem_of_omap. split.
  - intros ([addr owner] & Hin & Hd). rewrite iter_perm, elem_of_map_to_list in Hin.
    simpl in Hd. destruct (eq_ignore_ascii_case owner account) eqn:E; [|done]. eauto.
  - intros (addr & owner & Hl & He & Hd). exists (addr, owner).
    rewrite iter_perm, elem_of_map_to_list. split; [done|]. simpl. by rewrite He.
Qed.

(** an account with addresses in several limited domains gets the
    strictest of their limits, whatever order the directory is iterated in. *)
Theorem submission_limit_strictest (o : MapOrder) (d : Directory.t) (account : list Z) (m : Z) :
  @Directory.submission_limit_for o d account = Some m ↔
  let limits_of m := ∃ addr owner domain,
    Directory.accounts_by_address d !! addr = Some owner ∧
    eq_ignore_ascii_case owner account = true ∧ Directory.address_domain addr = Some domain ∧
    Directory.domain_submission_limits d !! domain = Some m in
  limits_of m ∧ ∀ m', limits_of m' → m ≤ m'.
Proof.
  cbv zeta. unfold Directory.submission_limit_for.
  assert (Hin : ∀ x, x ∈ omap (λ domain, Directory.domain_submission_limits d !! domain)
      (@Directory.account_domains o d account) ↔
    ∃ addr owner domain, Directory.accounts_by_address d !! addr = Some owner ∧
      eq_ignore_ascii_case owner account = true ∧ Directory.address_domain addr = Some domain ∧
      Directory.domain_submission_limits d !! domain = Some x).
  { intros x. rewrite list_elem_of_omap. setoid_rewrite account_domains_spec. naive_solver. }
  case_bool_decide as He.
  - split; [done|]. intros [(? & ? & ? & _ & _ & _ & Hl) _]. by rewrite He, lookup_empty in Hl.
  - rewrite minimum_spec. by setoid_rewrite Hin.
Qed.

(** The storage quota an account inherits is not determined by the
    configuration: with addresses in two domains of different quotas, the
    iteration order of the directory's map decides which applies. *)
Theorem quota_depends_on_iteration_order :
  ∃ (d : Directory.t) (account : list Z) (q1 q2 : Z),
    @Directory.quota_for map_order d account = Some q1 ∧
    @Directory.quota_for reverse_order d account = Some q2 ∧ q1 ≠ q2.
Proof.
  set (d0 := @Directory.new ascii_unicode [lit "a.org"; lit "b.org"]
               [(lit "bob@a.org", lit "bob"); (lit "bob@b.org", lit "bob")]).
  set (d := Directory.mk (Directory.domains d0) (Directory.accounts_by_address d0) ∅ [] ∅ ∅ ∅ ∅ ∅ ∅
              {[lit "a.org" := 10; lit "b.org" := 99]} ∅ ∅ ∅ ∅ ∅).
  destruct (@Directory.quota_for map_order d (lit "bob")) as [q1|] eqn:E1;
    [|vm_compute in E1; discriminate].
  destruct (@Directory.quota_for reverse_order d (lit "bob")) as [q2|] eqn:E2;
    [|vm_compute in E2; discriminate].
  exists d, (lit "bob"), q1, q2. split_and!; [done|done|].
  vm_compute in E1, E2. congruence.
Qed.
