(* ===== verification/IpNet.v ===== *)
(** * IP addresses, CIDR blocks and client keys

    The standard library's [IpAddr] with its parser, [src/src/cidr/mod.rs],
    and [client_key] of [src/src/smtp/per_ip/mod.rs]. An address is the
    big-endian integer of its octets. *)
From S2P Require Import Prelude RustStd.
Open Scope Z_scope.

(** ** The standard library's address type *)

Inductive IpAddr :=
| V4 (bits : Z)
| V6 (bits : Z).

#[export] Instance IpAddr_eq_dec : EqDecision IpAddr.
Proof. solve_decision. Defined.
#[export] Instance IpAddr_countable : Countable IpAddr.
Proof.
  refine (inj_countable'
    (λ a, match a with V4 b => inl b | V6 b => inr b end)
    (λ s, match s with inl b => V4 b | inr b => V6 b end) _).
  by intros [].
Defined.

Definition ip_valid (a : IpAddr) : Prop :=
  match a with
  | V4 b => 0 ≤ b < 2 ^ 32
  | V6 b => 0 ≤ b < 2 ^ 128
  end.

(** [IpAddr::to_canonical]: [::ffff:a.b.c.d] becomes [a.b.c.d]. *)
Definition to_canonical (a : IpAddr) : IpAddr :=
  match a with
  | V4 b => V4 b
  | V6 b => if Z.shiftr b 32 =? 65535 then V4 (Z.land b (2 ^ 32 - 1)) else V6 b
  end.

(** ** Parsing, as [core::net::parser] does it *)

Definition to_digit (radix c : Z) : option Z :=
  let d :=
    if is_ascii_digit c then c - 48
    else if is_ascii_lowercase c then c - 97 + 10
    else if is_ascii_uppercase c then c - 65 + 10
    else radix in
  if d <? radix then Some d else None.

(** [read_number]: the value fits [max], has one digit at least, no more than
    [max_digits], and a leading zero only when allowed or alone. *)
Fixpoint read_digits (radix max : Z) (max_digits count : nat) (acc : Z) (s : list Z)
    : option (nat * Z * list Z) :=
  match s with
  | [] => Some (count, acc, [])
  | c :: s' =>
      match to_digit radix c with
      | None => Some (count, acc, s)
      | Some d =>
          let acc := acc * radix + d in
          if max <? acc then None
          else if (max_digits <? S count)%nat then None
          else read_digits radix max max_digits (S count) acc s'
      end
  end.

Definition read_number (radix max : Z) (max_digits : nat) (allow_zero_prefix : bool) (s : list Z)
    : option (Z * list Z) :=
  let leading_zero := match s with 48 :: _ => true | _ => false end in
  match read_digits radix max max_digits 0 0 s with
  | Some (count, n, rest) =>
      if (count =? 0)%nat then None
      else if negb allow_zero_prefix && leading_zero && (1 <? count)%nat then None
      else Some (n, rest)
  | None => None
  end.

Definition read_given_char (c : Z) (s : list Z) : option (list Z) :=
  match s with
  | x :: s => if x =? c then Some s else None
  | [] => None
  end.

(** [read_separator]: the separator comes before every element but the first. *)
Definition read_separator {A} (sep : Z) (i : nat) (p : list Z → option (A * list Z)) (s : list Z)
    : option (A * list Z) :=
  match i with
  | O => p s
  | S _ => match read_given_char sep s with Some s => p s | None => None end
  end.

Definition read_octet (s : list Z) : option (Z * list Z) := read_number 10 255 3 false s.

Definition read_ipv4_addr (s : list Z) : option (Z * list Z) :=
  match read_octet s with
  | None => None
  | Some (a, s) =>
  match read_separator DOT 1 read_octet s with
  | None => None
  | Some (b, s) =>
  match read_separator DOT 1 read_octet s with
  | None => None
  | Some (c, s) =>
  match read_separator DOT 1 read_octet s with
  | None => None
  | Some (d, s) => Some (((a * 256 + b) * 256 + c) * 256 + d, s)
  end end end end.

Definition COLON : Z := 58.

(** [read_groups]: up to [left] groups, the [i]-th next; the groups read, and
    whether an IPv4 tail ended them. *)
Fixpoint read_groups (left i : nat) (s : list Z) : list Z * bool * list Z :=
  match left with
  | O => ([], false, s)
  | S left' =>
      let v4 := match left' with
                | O => None
                | S _ => read_separator COLON i read_ipv4_addr s
                end in
      match v4 with
      | Some (v4, s) => ([Z.shiftr v4 16; Z.land v4 65535], true, s)
      | None =>
          match read_separator COLON i (read_number 16 65535 4 true) s with
          | Some (g, s) =>
              let '(gs, tail, s) := read_groups left' (S i) s in (g :: gs, tail, s)
          | None => ([], false, s)
          end
      end
  end.

Definition of_groups (gs : list Z) : Z := fold_left (λ acc g, acc * 65536 + g) gs 0.

Definition read_ipv6_addr (s : list Z) : option (Z * list Z) :=
  let '(head, head_v4, s) := read_groups 8 0 s in
  if (length head =? 8)%nat then Some (of_groups head, s)
  else if head_v4 then None
  else
    match read_given_char COLON s with
    | None => None
    | Some s =>
    match read_given_char COLON s with
    | None => None
    | Some s =>
        let '(tail, _, s) := read_groups (7 - length head) 0 s in
        Some (of_groups (head ++ repeat 0 (8 - length head - length tail) ++ tail), s)
    end end.

(** [str::parse::<IpAddr>]: all the input is one address. *)
Definition parse_ip (s : list Z) : option IpAddr :=
  match read_ipv4_addr s with
  | Some (b, []) => Some (V4 b)
  | Some (_, _ :: _) => None
  | None =>
      match read_ipv6_addr s with
      | Some (b, []) => Some (V6 b)
      | _ => None
      end
  end.

(** [Display] of an IPv4 address. *)
Definition display_v4 (b : Z) : list Z :=
  decimal (b / 2 ^ 24) ++ DOT :: decimal (b / 2 ^ 16 mod 256) ++ DOT ::
  decimal (b / 2 ^ 8 mod 256) ++ DOT :: decimal (b mod 256).

(** [{:x}] of a 16-bit segment. *)
Definition hex_digit (d : Z) : Z := if d <? 10 then 48 + d else 87 + d.
Definition hex16 (n : Z) : list Z :=
  let digits := [n / 4096; n / 256 mod 16; n / 16 mod 16; n mod 16] in
  map hex_digit
    (if n <? 16 then drop 3 digits else if n <? 256 then drop 2 digits
     else if n <? 4096 then drop 1 digits else digits).

Definition segments (b : Z) : list Z :=
  map (λ i, Z.land (Z.shiftr b (16 * i)) 65535) [7; 6; 5; 4; 3; 2; 1; 0].

(** The first longest run of zero segments: (start, length). *)
Fixpoint longest_run (i : nat) (cur best : nat * nat) (segs : list Z) : nat * nat :=
  match segs with
  | [] => best
  | s :: segs =>
      if s =? 0 then
        let cur := if (cur.2 =? 0)%nat then (i, 1%nat) else (cur.1, S cur.2) in
        longest_run (S i) cur (if (best.2 <? cur.2)%nat then cur else best) segs
      else longest_run (S i) (0, 0)%nat best segs
  end.

Definition colon_join (segs : list Z) : list Z :=
  match segs with
  | [] => []
  | s :: segs => hex16 s ++ flat_map (λ s, COLON :: hex16 s) segs
  end.

(** [Display] of an IPv6 address: an IPv4-mapped one ends in dotted form, and
    the first longest run of at least two zero segments is elided. *)
Definition display_v6 (b : Z) : list Z :=
  if Z.shiftr b 32 =? 65535 then lit "::ffff:" ++ display_v4 (Z.land b (2 ^ 32 - 1))
  else
    let segs := segments b in
    let '(start, len) := longest_run 0 (0, 0)%nat (0, 0)%nat segs in
    if (1 <? len)%nat
    then colon_join (take start segs) ++ lit "::" ++ colon_join (drop (start + len) segs)
    else colon_join segs.

Definition display_ip (ip : IpAddr) : list Z :=
  match ip with V4 b => display_v4 b | V6 b => display_v6 b end.

(** ** CIDR blocks *)

Module Cidr.

Record t := mk { base : IpAddr; prefix : Z }.

Definition u128_max : Z := 2 ^ 128 - 1.

(** [u128::MAX << host_bits] drops the bits shifted out. *)
Definition apply_mask_u128 (value prefix width : Z) : Z :=
  if prefix =? 0 then 0
  else if width <=? prefix then value
  else
    let host_bits := width - prefix in
    let netmask := Z.land (Z.shiftl u128_max host_bits) u128_max in
    Z.land value netmask.

Definition mask (addr : IpAddr) (prefix : Z) : IpAddr :=
  match addr with
  | V4 bits => V4 (Z.land (apply_mask_u128 bits prefix 32) (2 ^ 32 - 1))
  | V6 bits => V6 (apply_mask_u128 bits prefix 128)
  end.

Definition max_prefix (addr : IpAddr) : Z :=
  match addr with V4 _ => 32 | V6 _ => 128 end.

Definition parse (spec : list Z) : option t :=
  let spec := trim spec in
  let '(addr_part, prefix_part) :=
    match split_once 47 spec with
    | Some (addr, prefix) => (addr, Some prefix)
    | None => (spec, None)
    end in
  match parse_ip addr_part with
  | None => None
  | Some addr =>
      let max := max_prefix addr in
      match prefix_part with
      | Some text =>
          match parse_uint u8_max text with
          | Some value => if max <? value then None else Some (mk (mask addr value) value)
          | None => None
          end
      | None => Some (mk (mask addr max) max)
      end
  end.

Definition contains (c : t) (ip : IpAddr) : bool :=
  match base c, ip with
  | V4 _, V4 _ | V6 _, V6 _ => bool_decide (mask ip (prefix c) = base c)
  | _, _ => false
  end.

Definition is_host (c : t) : bool :=
  match base c with
  | V4 _ => prefix c =? 32
  | V6 _ => prefix c =? 128
  end.

End Cidr.

(** ** The key a client is counted under *)

Definition client_key (ip : IpAddr) : IpAddr :=
  match to_canonical ip with
  | V6 v6 => V6 (Z.land v6 (Z.lxor Cidr.u128_max u64_max))
  | v4 => v4
  end.

(** ** Theory of masks *)

(** The number of bits of an address's family, and its value. *)
Definition ip_width (a : IpAddr) : Z := Cidr.max_prefix a.
Definition ip_bits (a : IpAddr) : Z := match a with V4 b => b | V6 b => b end.
Definition same_family (a b : IpAddr) : bool :=
  match a, b with V4 _, V4 _ | V6 _, V6 _ => true | _, _ => false end.

Lemma testbit_ones n i : 0 ≤ n → Z.testbit (2 ^ n - 1) i = (0 <=? i) && (i <? n).
Proof.
  intros Hn. replace (2 ^ n - 1) with (Z.ones n) by (rewrite Z.ones_equiv; lia).
  by apply Z.testbit_ones.
Qed.

Lemma testbit_high v w i : 0 ≤ v < 2 ^ w → w ≤ i → Z.testbit v i = false.
Proof.
  intros [Hv Hlt] Hi. destruct (Z.eq_dec v 0) as [->|Hne]; [apply Z.bits_0|].
  apply Z.bits_above_log2; [done|]. apply Z.log2_lt_pow2 in Hlt; lia.
Qed.

(** Masking keeps the top [p] of [w] bits and clears the others. *)
Lemma apply_mask_testbit v p w i :
  0 ≤ w ≤ 128 → 0 ≤ v < 2 ^ w → 0 ≤ p ≤ w → 0 ≤ i →
  Z.testbit (Cidr.apply_mask_u128 v p w) i = Z.testbit v i && (w - p <=? i).
Proof.
  intros Hw Hv Hp Hi. unfold Cidr.apply_mask_u128.
  destruct (Z.eqb_spec p 0) as [->|Hp0].
  - rewrite Z.bits_0. destruct (Z.leb_spec (w - 0) i); [|by rewrite andb_false_r].
    by rewrite (testbit_high v w) by lia.
  - destruct (Z.leb_spec w p).
    + replace (w - p) with 0 by lia. destruct (Z.leb_spec 0 i); [|lia]. by rewrite andb_true_r.
    + rewrite !Z.land_spec, Z.shiftl_spec by lia. unfold Cidr.u128_max.
      rewrite !testbit_ones by lia. destruct (Z.ltb_spec i 128).
      * replace (0 <=? i) with true by lia. replace (i - (w - p) <? 128) with true by lia.
        rewrite !andb_true_r. f_equal. lia.
      * rewrite (testbit_high v w) by lia. done.
Qed.

Lemma mask_bits a p i :
  ip_valid a → 0 ≤ p ≤ ip_width a → 0 ≤ i →
  Z.testbit (ip_bits (Cidr.mask a p)) i = Z.testbit (ip_bits a) i && (ip_width a - p <=? i).
Proof.
  destruct a as [b|b]; unfold ip_width; cbn [ip_valid Cidr.max_prefix ip_bits Cidr.mask];
    intros Hb Hp Hi.
  - rewrite Z.land_spec, apply_mask_testbit, testbit_ones by lia.
    destruct (Z.ltb_spec i 32).
    + replace (0 <=? i) with true by lia. by rewrite andb_true_r.
    + by rewrite (testbit_high b 32) by lia.
  - by apply apply_mask_testbit.
Qed.

Lemma mask_family a p : same_family (Cidr.mask a p) a = true.
Proof. by destruct a. Qed.

Lemma ip_bits_inj a b : same_family a b = true → ip_bits a = ip_bits b → a = b.
Proof. destruct a, b; simpl; congruence. Qed.

(** Two addresses agree on their top [p] bits. *)
Definition agree_on_prefix (p : Z) (a b : IpAddr) : Prop :=
  ∀ i, ip_width a - p ≤ i < ip_width a → Z.testbit (ip_bits a) i = Z.testbit (ip_bits b) i.

Lemma mask_eq_iff a b p :
  ip_valid a → ip_valid b → same_family a b = true → 0 ≤ p ≤ ip_width a →
  Cidr.mask b p = Cidr.mask a p ↔ agree_on_prefix p a b.
Proof.
  intros Ha Hb Hf Hp. assert (Hw : ip_width b = ip_width a) by (by destruct a, b).
  split.
  - intros Heq i Hi. apply (f_equal (λ a, Z.testbit (ip_bits a) i)) in Heq. simpl in Heq.
    rewrite !mask_bits in Heq by (unfold ip_width in *; destruct a, b; simpl in *; done || lia).
    rewrite Hw in Heq. replace (ip_width a - p <=? i) with true in Heq by lia.
    by rewrite !andb_true_r in Heq.
  - intros Hag. apply ip_bits_inj; [by destruct a, b|].
    apply Z.bits_inj'. intros i Hi. rewrite !mask_bits by (done || lia). rewrite Hw.
    destruct (Z.leb_spec (ip_width a - p) i); [|by rewrite !andb_false_r].
    rewrite !andb_true_r. destruct (decide (i < ip_width a)) as [Hlt|Hge].
    + symmetry. apply Hag. lia.
    + rewrite (testbit_high (ip_bits b) (ip_width a)), (testbit_high (ip_bits a) (ip_width a));
        [done| |lia| |lia]; unfold ip_width; destruct a, b; done.
Qed.

(** ** Theory of address parsing *)

Lemma to_digit_decimal c : is_ascii_digit c = true → to_digit 10 c = Some (c - 48).
Proof.
  intros H. unfold to_digit. rewrite H. apply is_ascii_digit_spec in H.
  by destruct (Z.ltb_spec (c - 48) 10); [|lia].
Qed.

Lemma to_digit_not_digit c : is_ascii_digit c = false → is_ascii_alphabetic c = false →
  to_digit 10 c = None.
Proof.
  unfold to_digit, is_ascii_alphabetic. intros -> [-> ->]%orb_false_iff. done.
Qed.

Lemma read_digits_run max k count acc ds v rest :
  Forall (λ c, is_ascii_digit c = true) ds → 0 ≤ acc →
  digits_value acc ds = Some v → v ≤ max → (count + length ds ≤ k)%nat →
  match rest with [] => True | c :: _ => to_digit 10 c = None end →
  read_digits 10 max k count acc (ds ++ rest) = Some ((count + length ds)%nat, v, rest).
Proof.
  intros Hds. revert count acc. induction Hds as [|c ds Hc Hds IH]; intros count acc Hacc Hv Hmax Hk Hr.
  - simpl in *. simplify_eq. rewrite Nat.add_0_r.
    destruct rest as [|c rest]; [done|]. simpl. by rewrite Hr.
  - cbn [digits_value] in Hv. rewrite Hc in Hv. simpl. rewrite to_digit_decimal by done.
    assert (Hle : acc * 10 + (c - 48) ≤ v).
    { clear -Hv Hacc Hc. apply is_ascii_digit_spec in Hc. revert Hv.
      generalize (acc * 10 + (c - 48)), (ltac:(lia) : 0 ≤ acc * 10 + (c - 48)).
      induction ds as [|d ds IH]; intros x Hx; simpl; [intros [= ->]; lia|].
      destruct (is_ascii_digit d) eqn:Hd; [|done]. apply is_ascii_digit_spec in Hd.
      intros Hv. etransitivity; [|eapply (IH (x * 10 + (d - 48))); [lia|exact Hv]]. lia. }
    destruct (Z.ltb_spec max (acc * 10 + (c - 48))); [lia|]. simpl in Hk.
    destruct (Nat.ltb_spec k (S count)); [lia|].
    apply is_ascii_digit_spec in Hc. rewrite IH; try done; try lia.
    do 3 f_equal. simpl. lia.
Qed.

Lemma decimal_small n : 0 ≤ n ≤ 255 →
  (length (decimal n) ≤ 3)%nat ∧ (∀ s, decimal n = 48 :: s → s = []).
Proof.
  intros Hn. unfold decimal.
  assert (Hb : forallb (λ n, let d := decimal (Z.of_nat n) in
    (length d <=? 3)%nat && match d with 48 :: _ :: _ => false | _ => true end) (seq 0 256) = true)
    by reflexivity.
  rewrite forallb_forall in Hb. specialize (Hb (Z.to_nat n)).
  rewrite Z2Nat.id in Hb by lia. cbv zeta in Hb. unfold decimal in Hb.
  specialize (Hb ltac:(apply in_seq; lia)). apply andb_prop in Hb as [H1 H2].
  split; [by apply Nat.leb_le|]. intros s Hs. rewrite Hs in H2. by destruct s.
Qed.

Lemma read_octet_decimal n rest :
  0 ≤ n ≤ 255 → match rest with [] => True | c :: _ => to_digit 10 c = None end →
  read_octet (decimal n ++ rest) = Some (n, rest).
Proof.
  intros Hn Hr. unfold read_octet, read_number.
  destruct (decimal_small n Hn) as [Hlen Hz].
  rewrite (read_digits_run _ _ _ _ _ n); auto using decimal_digits; try lia.
  2: { by apply digits_value_decimal; lia. }
  pose proof (decimal_nonempty n). destruct (decimal n) as [|c s] eqn:Hd; [done|].
  simpl. destruct (Z.eq_dec c 48) as [->|Hne].
  - by rewrite (Hz s).
  - assert (E : match c with 48 => true | _ => false end = false).
    { destruct c as [|q|q]; try done. do 6 (destruct q as [q|q|]; try done). }
    rewrite E. by destruct (length s).
Qed.

Lemma read_ipv4_display b rest :
  0 ≤ b < 2 ^ 32 → match rest with [] => True | c :: _ => to_digit 10 c = None end →
  read_ipv4_addr (display_v4 b ++ rest) = Some (b, rest).
Proof.
  intros Hb Hr. unfold read_ipv4_addr, display_v4.
  pose proof (Z.mod_pos_bound (b / 2 ^ 16) 256 ltac:(lia)).
  pose proof (Z.mod_pos_bound (b / 2 ^ 8) 256 ltac:(lia)).
  pose proof (Z.mod_pos_bound b 256 ltac:(lia)).
  assert (0 ≤ b / 2 ^ 24 ≤ 255).
  { split; [apply Z.div_pos; lia|]. apply Z.lt_succ_r. apply Z.div_lt_upper_bound; lia. }
  rewrite <- !app_assoc. cbn [app].
  rewrite read_octet_decimal by (done || lia). unfold read_separator, read_given_char.
  rewrite Z.eqb_refl, <- !app_assoc. cbn [app]. rewrite read_octet_decimal by (done || lia).
  rewrite Z.eqb_refl, <- !app_assoc. cbn [app]. rewrite read_octet_decimal by (done || lia).
  rewrite Z.eqb_refl, read_octet_decimal by (done || lia). do 2 f_equal.
  change 256 with (2 ^ 8).
  pose proof (Z.div_mod b (2 ^ 8) ltac:(lia)).
  pose proof (Z.div_mod (b / 2 ^ 8) (2 ^ 8) ltac:(lia)) as E2.
  pose proof (Z.div_mod (b / 2 ^ 16) (2 ^ 8) ltac:(lia)) as E3.
  rewrite Z.div_div in E2, E3 by lia. change (2 ^ 8 * 2 ^ 8) with (2 ^ 16) in E2.
  change (2 ^ 16 * 2 ^ 8) with (2 ^ 24) in E3. lia.
Qed.

Lemma to_digit_range radix c d : 0 < radix → to_digit radix c = Some d → 0 ≤ d < radix.
Proof.
  unfold to_digit. intros Hr H. destruct (Z.ltb_spec
    (if is_ascii_digit c then c - 48 else if is_ascii_lowercase c then c - 97 + 10
     else if is_ascii_uppercase c then c - 65 + 10 else radix) radix) as [Hlt|]; [|done].
  simplify_eq. split; [|done].
  destruct (is_ascii_digit c) eqn:H1; [apply is_ascii_digit_spec in H1; lia|].
  destruct (is_ascii_lowercase c) eqn:H2; [unfold is_ascii_lowercase, in_range in H2; lia|].
  destruct (is_ascii_uppercase c) eqn:H3; [unfold is_ascii_uppercase, in_range in H3; lia|]. lia.
Qed.

Lemma read_digits_range radix max k count acc s n v rest :
  0 < radix → 0 ≤ acc ≤ max → read_digits radix max k count acc s = Some (n, v, rest) →
  0 ≤ v ≤ max.
Proof.
  intros Hr. revert count acc. induction s as [|c s IH]; intros count acc Hacc; simpl.
  - intros [= <- <- <-]. done.
  - destruct (to_digit radix c) as [d|] eqn:Hd; [|by intros [= <- <- <-]].
    apply to_digit_range in Hd; [|done].
    destruct (Z.ltb_spec max (acc * radix + d)); [done|]. case_match; [done|].
    apply IH. nia.
Qed.

Lemma read_number_range radix max k z s n rest :
  0 < radix → 0 ≤ max → read_number radix max k z s = Some (n, rest) → 0 ≤ n ≤ max.
Proof.
  intros Hr Hm. unfold read_number.
  destruct (read_digits radix max k 0 0 s) as [[[count v] r]|] eqn:Hd; [|done].
  apply read_digits_range in Hd; [|done|lia]. destruct (count =? 0)%nat; [done|].
  destruct (negb z && _ && _); [done|]. by intros [= <- <-].
Qed.

Lemma read_ipv4_range s b rest : read_ipv4_addr s = Some (b, rest) → 0 ≤ b < 2 ^ 32.
Proof.
  unfold read_ipv4_addr, read_separator. intros H.
  repeat (case_match; simplify_eq/=).
  repeat match goal with H : read_octet _ = Some _ |- _ =>
    apply read_number_range in H; [|lia..] end. lia.
Qed.

Lemma read_groups_range left i s gs v4 rest :
  read_groups left i s = (gs, v4, rest) →
  Forall (λ g, 0 ≤ g ≤ 65535) gs ∧ (length gs ≤ left)%nat.
Proof.
  revert i s gs v4 rest. induction left as [|left IH]; intros i s gs v4 rest; cbn [read_groups].
  { intros [= <- <- <-]. by split; [constructor|]. }
  cbv zeta.
  destruct (match left with O => None | S _ => read_separator COLON i read_ipv4_addr s end)
    as [[b s1]|] eqn:H4.
  - intros [= <- <- <-]. destruct left as [|left]; [done|].
    assert (Hb : 0 ≤ b < 2 ^ 32).
    { destruct i; simpl in H4; [by eapply read_ipv4_range|].
      destruct (read_given_char COLON s); [by eapply read_ipv4_range|done]. }
    split; [|simpl; lia]. constructor; [|constructor; [|constructor]]; split.
    + apply Z.shiftr_nonneg. lia.
    + rewrite Z.shiftr_div_pow2 by lia. apply Z.lt_succ_r. apply Z.div_lt_upper_bound; lia.
    + apply Z.land_nonneg; lia.
    + change 65535 with (Z.ones 16). rewrite Z.land_ones by lia.
      pose proof (Z.mod_pos_bound b (2 ^ 16)). change (Z.ones 16) with (2 ^ 16 - 1). lia.
  - destruct (read_separator COLON i (read_number 16 65535 4 true) s) as [[g s1]|] eqn:Hg.
    + destruct (read_groups left (S i) s1) as [[gs' t'] s'] eqn:Hgs. intros [= <- <- <-].
      apply IH in Hgs as [Hgs Hlen]. split; [|simpl; lia]. constructor; [|done].
      destruct i; simpl in Hg; [eapply read_number_range; [| |exact Hg]; lia|].
      destruct (read_given_char COLON s); [|done]. eapply read_number_range; [| |exact Hg]; lia.
    + intros [= <- <- <-]. split; [constructor|simpl; lia].
Qed.

Lemma of_groups_range gs :
  Forall (λ g, 0 ≤ g ≤ 65535) gs → 0 ≤ of_groups gs < 65536 ^ Z.of_nat (length gs).
Proof.
  unfold of_groups. intros Hgs.
  assert (H : ∀ acc k, 0 ≤ acc < 65536 ^ Z.of_nat k →
    0 ≤ fold_left (λ acc g, acc * 65536 + g) gs acc < 65536 ^ Z.of_nat (k + length gs)).
  { induction Hgs as [|g gs Hg Hgs IH]; intros acc k Hacc; simpl; [by rewrite Nat.add_0_r|].
    rewrite <- Nat.add_succ_comm. apply IH. rewrite Nat2Z.inj_succ, Z.pow_succ_r by lia. lia. }
  apply (H 0 0%nat). simpl. lia.
Qed.

Lemma read_ipv6_range s b rest : read_ipv6_addr s = Some (b, rest) → 0 ≤ b < 2 ^ 128.
Proof.
  unfold read_ipv6_addr. destruct (read_groups 8 0 s) as [[head v4] s1] eqn:Hh.
  apply read_groups_range in Hh as [Hh Hlen]. change (2 ^ 128) with (65536 ^ 8).
  destruct (Nat.eqb_spec (length head) 8) as [H8|H8].
  { intros [= <- <-]. apply of_groups_range in Hh. by rewrite H8 in Hh. }
  destruct v4; [done|]. destruct (read_given_char COLON s1) as [s2|]; [|done].
  destruct (read_given_char COLON s2) as [s3|]; [|done].
  destruct (read_groups (7 - length head) 0 s3) as [[tail tv] s4] eqn:Ht.
  apply read_groups_range in Ht as [Ht Htl]. intros [= <- <-].
  change (65536 ^ 8) with (65536 ^ Z.of_nat 8).
  assert (Hgs : length (head ++ repeat 0 (8 - length head - length tail) ++ tail) = 8%nat)
    by (rewrite !length_app, repeat_length; lia).
  rewrite <- Hgs at 3. apply of_groups_range. rewrite !Forall_app. split_and!; [done| |done].
  apply Forall_forall. intros g Hg%list_elem_of_In%repeat_spec. lia.
Qed.

Lemma parse_ip_valid s a : parse_ip s = Some a → ip_valid a.
Proof.
  unfold parse_ip. destruct (read_ipv4_addr s) as [[b [|c r]]|] eqn:H4; [| done |].
  - intros [= <-]. by eapply read_ipv4_range.
  - destruct (read_ipv6_addr s) as [[b [|c r]]|] eqn:H6; [|done|done].
    intros [= <-]. by eapply read_ipv6_range.
Qed.

Lemma cidr_parse_mask spec c :
  Cidr.parse spec = Some c →
  ∃ a p, ip_valid a ∧ 0 ≤ p ≤ ip_width a ∧ c = Cidr.mk (Cidr.mask a p) p.
Proof.
  unfold Cidr.parse. intros H. destruct (match split_once 47 (trim spec) with
    | Some (addr, prefix) => (addr, Some prefix) | None => (trim spec, None) end) as [ap pp].
  destruct (parse_ip ap) as [a|] eqn:Ha; [|done]. apply parse_ip_valid in Ha.
  assert (0 ≤ Cidr.max_prefix a) by (by destruct a).
  destruct pp as [t|].
  - destruct (parse_uint u8_max t) as [v|] eqn:Hv; [|done]. apply parse_uint_bounds in Hv.
    destruct (Z.ltb_spec (Cidr.max_prefix a) v); [done|]. simplify_eq.
    exists a, v. unfold ip_width. split_and!; try done; lia.
  - simplify_eq. exists a, (Cidr.max_prefix a). unfold ip_width. split_and!; try done; lia.
Qed.

Lemma cidr_contains_iff a p b :
  ip_valid a → ip_valid b → 0 ≤ p ≤ ip_width a →
  Cidr.contains (Cidr.mk (Cidr.mask a p) p) b = true ↔
  same_family a b = true ∧ agree_on_prefix p a b.
Proof.
  intros Ha Hb Hp.
  destruct (same_family a b) eqn:Hf.
  - rewrite <- mask_eq_iff by done.
    destruct a, b; simpl in Hf; try done; unfold Cidr.contains; cbn [Cidr.base Cidr.mask];
      rewrite bool_decide_eq_true; tauto.
  - destruct a, b; simpl in Hf; try done; split; try done; by intros [].
Qed.

(** ** Properties *)

(** An accepted CIDR spec denotes a set of addresses by their top bits:
    there is an address [a] the block was written with such that an address is
    contained exactly when it is of the same family and agrees with [a] on the
    first [prefix] bits; host bits in the spec do not matter and [a] itself is
    in the block. *)
Theorem cidr_denotes_prefix (spec : list Z) (c : Cidr.t) (Hc : Cidr.parse spec = Some c) :
  ∃ a, ip_valid a ∧ 0 ≤ Cidr.prefix c ≤ ip_width a ∧ Cidr.contains c a = true ∧
    ∀ ip, ip_valid ip →
      Cidr.contains c ip = true ↔
      same_family a ip = true ∧ agree_on_prefix (Cidr.prefix c) a ip.
Proof.
  apply cidr_parse_mask in Hc as (a & p & Ha & Hp & ->). exists a. cbn [Cidr.prefix].
  split; [done|]. split; [done|]. split; [|by intros; apply cidr_contains_iff].
  apply cidr_contains_iff; try done. by destruct a.
Qed.

Lemma cidr_denotes_prefix_witness :
  ∃ a, ip_valid a ∧ 0 ≤ 24 ≤ ip_width a ∧
    Cidr.contains (Cidr.mk (V4 3405803776) 24) a = true ∧
    ∀ ip, ip_valid ip →
      Cidr.contains (Cidr.mk (V4 3405803776) 24) ip = true ↔
      same_family a ip = true ∧ agree_on_prefix 24 a ip.
Proof.
  apply (cidr_denotes_prefix (lit "203.0.113.77/24") (Cidr.mk (V4 3405803776) 24)).
  vm_compute. reflexivity.
Defined.

(** two connections are counted as one client exactly when they come from
    the same IPv4 address, however it arrived, or from the same IPv6 /64. *)
Theorem client_key_same_client (a b : IpAddr) (Ha : ip_valid a) (Hb : ip_valid b) :
  client_key a = client_key b ↔
  match to_canonical a, to_canonical b with
  | V4 x, V4 y => x = y
  | V6 x, V6 y => Z.shiftr x 64 = Z.shiftr y 64
  | _, _ => False
  end.
Proof.
  assert (Hkey : ∀ x, 0 ≤ x < 2 ^ 128 →
    Z.land x (Z.lxor Cidr.u128_max u64_max) = Z.shiftl (Z.shiftr x 64) 64).
  { intros x Hx. apply Z.bits_inj'. intros i Hi.
    rewrite Z.land_spec, Z.lxor_spec, Z.shiftl_spec by done.
    unfold Cidr.u128_max, u64_max. rewrite !testbit_ones by lia.
    destruct (Z.ltb_spec i 64).
    - rewrite (Z.testbit_neg_r _ (i - 64)) by lia. replace (i <? 128) with true by lia.
      by rewrite xorb_nilpotent, andb_false_r.
    - rewrite Z.shiftr_spec by lia. replace (i - 64 + 64) with i by lia.
      destruct (Z.ltb_spec i 128); [|by rewrite (testbit_high x 128) by lia].
      replace (0 <=? i) with true by lia. by rewrite andb_true_r. }
  assert (Hcan : ∀ c, ip_valid c → ip_valid (to_canonical c)).
  { intros [c|c] Hc; unfold to_canonical; [exact Hc|]. destruct (_ =? 65535); [|exact Hc].
    unfold ip_valid. replace (2 ^ 32 - 1) with (Z.ones 32) by reflexivity.
    rewrite Z.land_ones by lia. apply Z.mod_pos_bound. lia. }
  unfold client_key. apply Hcan in Ha, Hb.
  destruct (to_canonical a) as [x|x], (to_canonical b) as [y|y]; unfold ip_valid in Ha, Hb.
  - naive_solver.
  - split; [by intros [=]|done].
  - split; [by intros [=]|done].
  - rewrite !Hkey by done. split; [|by intros ->].
    intros [= H]. apply (f_equal (λ z, Z.shiftr z 64)) in H.
    by rewrite !Z.shiftr_shiftl_l, !Z.shiftl_0_r in H by lia.
Qed.

Lemma client_key_same_client_witness :
  client_key (V6 281470698652420) = client_key (V4 16909060) ↔ 16909060 = 16909060.
Proof. apply (client_key_same_client (V6 281470698652420) (V4 16909060)); simpl; lia. Defined.
