(* ===== verification/SpfRecord.v ===== *)
(** SPF records (src/src/spf/record/mod.rs) and the macro strings of their
    domains (src/src/spf/evaluator/mod.rs). *)

From S2P Require Import Prelude RustStd Slices IpNet.

Local Open Scope Z_scope.

(** ** Records *)

Inductive Qualifier := QPass | QFail | QSoftFail | QNeutral.

Inductive Mechanism :=
| All
| Ip4 (network prefix : Z)
| Ip6 (network prefix : Z)
| A (domain : option (list Z)) (prefix4 prefix6 : Z)
| Mx (domain : option (list Z)) (prefix4 prefix6 : Z)
| Include (domain : list Z)
| Exists (domain : list Z)
| Ptr (domain : option (list Z)).

Record SpfRecord := mkRecord { directives : list (Qualifier * Mechanism); redirect : option (list Z) }.

Inductive RecordError := recordError (text : list Z).

Definition EQUALS : Z := 61.
Definition SLASH : Z := 47.
Definition QUOTE : Z := 34.

Definition parse_prefix (text : list Z) (max : Z) : result RecordError Z :=
  match parse_uint u8_max text with
  | None => Err (recordError (lit "invalid prefix " ++ [QUOTE] ++ text ++ [QUOTE]))
  | Some prefix =>
      if max <? prefix
      then Err (recordError (lit "prefix /" ++ decimal prefix ++ lit " exceeds /" ++ decimal max))
      else Ok prefix
  end.

Definition split_cidr (value : list Z) (max : Z) : result RecordError (list Z * Z) :=
  match split_once SLASH value with
  | Some (addr, prefix) => let? p := parse_prefix prefix max in Ok (addr, p)
  | None => Ok (value, max)
  end.

(** [split_once("//")]. *)
Definition split_once_slashes (s : list Z) : option (list Z * list Z) :=
  match window_position [SLASH; SLASH] s with
  | Some at_ => Some (take at_ s, drop (at_ + 2) s)
  | None => None
  end.

(** [filter(|d| !d.is_empty())]. *)
Definition non_empty (d : option (list Z)) : option (list Z) :=
  match d with Some [] => None | d => d end.

Definition parse_domain_spec (tail : list Z) : result RecordError (option (list Z) * Z * Z) :=
  let '(domain_part, cidr_part) :=
    match split_once SLASH tail with
    | Some (before, after) => (before, SLASH :: after)
    | None => (tail, [])
    end in
  let domain := non_empty (strip_prefix [COLON] domain_part) in
  if negb (is_empty domain_part) && bool_decide (domain = None)
  then Err (recordError (lit "malformed domain spec " ++ [QUOTE] ++ tail ++ [QUOTE]))
  else
    match cidr_part with
    | [] => Ok (domain, 32, 128)
    | _ :: cidr =>
        let '(four, six) :=
          match strip_prefix [SLASH] cidr with
          | Some rest => ([], Some rest)
          | None =>
              match split_once_slashes cidr with
              | Some (four, six) => (four, Some six)
              | None => (cidr, None)
              end
          end in
        let? prefix4 := (if is_empty four then Ok 32 else parse_prefix four 32) in
        let? prefix6 := (match six with Some six => parse_prefix six 128 | None => Ok 128 end) in
        Ok (domain, prefix4, prefix6)
    end.

(** [str::parse::<Ipv4Addr>] and [str::parse::<Ipv6Addr>]: all the input. *)
Definition parse_v4 (s : list Z) : option Z :=
  match read_ipv4_addr s with Some (b, []) => Some b | _ => None end.
Definition parse_v6 (s : list Z) : option Z :=
  match read_ipv6_addr s with Some (b, []) => Some b | _ => None end.

Definition parse_mechanism (body : list Z) : result RecordError Mechanism :=
  let lower := to_ascii_lowercase body in
  if str_eqb lower (lit "all") then Ok All
  else match strip_prefix (lit "ip4:") lower with
  | Some value =>
      let? ' (addr, prefix) := split_cidr value 32 in
      let? network := ok_or (recordError (lit "invalid ip4 address " ++ addr)) (parse_v4 addr) in
      Ok (Ip4 network prefix)
  | None =>
  match strip_prefix (lit "ip6:") lower with
  | Some value =>
      let? ' (addr, prefix) := split_cidr value 128 in
      let? network := ok_or (recordError (lit "invalid ip6 address " ++ addr)) (parse_v6 addr) in
      Ok (Ip6 network prefix)
  | None =>
  match strip_prefix (lit "include:") lower with
  | Some value => if is_empty value then Err (recordError (lit "include without domain")) else Ok (Include value)
  | None =>
  if str_eqb lower (lit "a") || starts_with (lit "a:") lower || starts_with (lit "a/") lower then
    let? ' (domain, prefix4, prefix6) := parse_domain_spec (drop 1 lower) in Ok (A domain prefix4 prefix6)
  else if str_eqb lower (lit "mx") || starts_with (lit "mx:") lower || starts_with (lit "mx/") lower then
    let? ' (domain, prefix4, prefix6) := parse_domain_spec (drop 2 lower) in Ok (Mx domain prefix4 prefix6)
  else
  match strip_prefix (lit "exists:") lower with
  | Some value => if is_empty value then Err (recordError (lit "exists without domain")) else Ok (Exists value)
  | None =>
  if str_eqb lower (lit "ptr") || starts_with (lit "ptr:") lower
  then Ok (Ptr (non_empty (strip_prefix (lit "ptr:") lower)))
  else Err (recordError (lit "unsupported mechanism " ++ [QUOTE] ++ body ++ [QUOTE]))
  end end end end.

Definition qualified (term : list Z) : Qualifier * list Z :=
  match term with
  | c :: rest =>
      if c =? 43 then (QPass, rest)
      else if c =? 45 then (QFail, rest)
      else if c =? 126 then (QSoftFail, rest)
      else if c =? 63 then (QNeutral, rest)
      else (QPass, term)
  | [] => (QPass, term)
  end.

Definition parse_term (record : SpfRecord) (term : list Z) : result RecordError SpfRecord :=
  match split_once EQUALS term with
  | Some (name, value) =>
      if eq_ignore_ascii_case name (lit "redirect") then
        match redirect record with
        | Some _ => Err (recordError (lit "duplicate redirect modifier"))
        | None => Ok (mkRecord (directives record) (Some (to_ascii_lowercase value)))
        end
      else Ok record
  | None =>
      let '(qualifier, body) := qualified term in
      let? mechanism := parse_mechanism body in
      Ok (mkRecord (directives record ++ [(qualifier, mechanism)]) (redirect record))
  end.

Definition parse (text : list Z) : result RecordError SpfRecord :=
  match split_ascii_whitespace text with
  | version :: terms =>
      if str_eqb version (lit "v=spf1") then try_fold parse_term (mkRecord [] None) terms
      else Err (recordError (lit "missing v=spf1 version tag"))
  | [] => Err (recordError (lit "missing v=spf1 version tag"))
  end.

(** ** Outcomes *)

Inductive SpfOutcome := None_ | Neutral | Pass | Fail_ | SoftFail | TempError | PermError.

#[export] Instance SpfOutcome_eq_dec : EqDecision SpfOutcome.
Proof. solve_decision. Defined.

Definition as_str (o : SpfOutcome) : list Z :=
  match o with
  | None_ => lit "none"
  | Neutral => lit "neutral"
  | Pass => lit "pass"
  | Fail_ => lit "fail"
  | SoftFail => lit "softfail"
  | TempError => lit "temperror"
  | PermError => lit "permerror"
  end.

(** ** Macros *)

Definition PERCENT : Z := 37.

(** [find(|c| !c.is_ascii_digit())]: the digits and the rest. *)
Fixpoint span_digits (s : list Z) : list Z * list Z :=
  match s with
  | c :: s' => if is_ascii_digit c then let '(d, r) := span_digits s' in (c :: d, r) else ([], s)
  | [] => ([], [])
  end.

Definition parse_macro_transformers (s : list Z) : result SpfOutcome (option Z * bool * list Z) :=
  let '(digits, rest) := span_digits s in
  let? count :=
    (match digits with
     | [] => Ok None
     | _ => match parse_uint usize_max digits with Some n => Ok (Some n) | None => Err PermError end
     end) in
  let reverse := match rest with c :: _ => (c =? 114) || (c =? 82) | [] => false end in
  let delimiters_str := if reverse then drop 1 rest else rest in
  if is_empty delimiters_str then Ok (count, reverse, [DOT])
  else if forallb (λ d, contains d (lit ".+-,/_=")) delimiters_str then Ok (count, reverse, delimiters_str)
  else Err PermError.

Definition nibbles (b : Z) : list Z :=
  map (λ i, Z.land (Z.shiftr b (4 * Z.of_nat (31 - i))) 15) (seq 0 32).

Definition ip_to_macro_str (ip : IpAddr) : list Z :=
  match ip with
  | V4 b => display_v4 b
  | V6 b => join DOT (map (λ n, [hex_digit n]) (nibbles b))
  end.

(** [str::split] on a set of characters. *)
Fixpoint split_any (cs s : list Z) : list (list Z) :=
  match s with
  | [] => [[]]
  | x :: s =>
      if contains x cs then [] :: split_any cs s
      else match split_any cs s with
           | p :: ps => (x :: p) :: ps
           | [] => [[x]]
           end
  end.

Definition expand_macro_inner (inner : list Z) (ip : IpAddr) (current_domain sender helo : list Z)
    : result SpfOutcome (list Z) :=
  match inner with
  | [] => Err PermError
  | c :: transformers =>
      let letter := to_ascii_lowercase_char c in
      let? ' (count, reverse, delimiters) := parse_macro_transformers transformers in
      let? raw :=
        (if letter =? 115 then Ok sender
         else if letter =? 108 then
           Ok (match split_once 64 sender with Some (local, _) => local | None => sender end)
         else if letter =? 111 then
           Ok (match rsplit_once 64 sender with Some (_, domain) => domain | None => sender end)
         else if letter =? 100 then Ok current_domain
         else if letter =? 105 then Ok (ip_to_macro_str ip)
         else if letter =? 118 then Ok (match ip with V4 _ => lit "in-addr" | V6 _ => lit "ip6" end)
         else if letter =? 104 then Ok helo
         else Err PermError) in
      let parts := split_any delimiters raw in
      let parts := if reverse : bool then rev parts else parts in
      let parts :=
        match count with
        | Some n => drop (Z.to_nat (saturating_sub (Z.of_nat (length parts)) n)) parts
        | None => parts
        end in
      Ok (join DOT parts)
  end.

(** The loop of [expand_macro]; [fuel] bounds the iterations, and every one
    consumes a percent sign. *)
Fixpoint expand_loop (fuel : nat) (ip : IpAddr) (current_domain sender helo rest result_ : list Z)
    : option (result SpfOutcome (list Z)) :=
  match split_once PERCENT rest with
  | None => Some (Ok (result_ ++ rest))
  | Some (before, rest) =>
      match fuel with
      | O => None
      | S fuel =>
          let result_ := result_ ++ before in
          let continue_ rest added := expand_loop fuel ip current_domain sender helo rest (result_ ++ added) in
          match rest with
          | [] => Some (Err PermError)
          | ch :: tail =>
              if ch =? PERCENT then continue_ tail [PERCENT]
              else if ch =? 95 then continue_ tail [32]
              else if ch =? 45 then continue_ tail (lit "%20")
              else if ch =? 123 then
                match split_once 125 tail with
                | None => Some (Err PermError)
                | Some (inner, rest) =>
                    match expand_macro_inner inner ip current_domain sender helo with
                    | Ok text => continue_ rest text
                    | Err e => Some (Err e)
                    end
                end
              else Some (Err PermError)
          end
      end
  end.

Definition expand_macro (spec : list Z) (ip : IpAddr) (current_domain sender helo : list Z)
    : option (result SpfOutcome (list Z)) :=
  if negb (contains PERCENT spec) then Some (Ok spec)
  else expand_loop (length spec) ip current_domain sender helo spec [].

(** ** Expansion always ends *)

Lemma expand_loop_total fuel ip d s h rest acc :
  (length rest ≤ fuel)%nat → is_Some (expand_loop fuel ip d s h rest acc).
Proof.
  revert rest acc. induction fuel as [|fuel IH]; intros rest acc Hf; cbn [expand_loop].
  { destruct rest; [by eexists|cbn in Hf; lia]. }
  destruct (split_once PERCENT rest) as [[before after]|] eqn:Es; [|by eexists].
  apply split_once_Some in Es as [-> _]. rewrite length_app in Hf. cbn in Hf.
  destruct after as [|ch tail]; [by eexists|]. cbn in Hf.
  repeat case_match; try (by eexists); try (apply IH; cbn in *; lia).
  match goal with H : split_once 125 _ = _ |- _ => apply split_once_Some in H as [-> _] end.
  apply IH. rewrite length_app in Hf. cbn in Hf. lia.
Qed.

Lemma expand_macro_total spec ip d s h : is_Some (expand_macro spec ip d s h).
Proof. unfold expand_macro. destruct (negb _); [by eexists|]. by apply expand_loop_total. Qed.

(** ** Parsed records are within range *)

Definition mechanism_valid (m : Mechanism) : Prop :=
  match m with
  | Ip4 n p => 0 ≤ n < 2 ^ 32 ∧ 0 ≤ p ≤ 32
  | Ip6 n p => 0 ≤ n < 2 ^ 128 ∧ 0 ≤ p ≤ 128
  | A _ p4 p6 | Mx _ p4 p6 => 0 ≤ p4 ≤ 32 ∧ 0 ≤ p6 ≤ 128
  | _ => True
  end.

Lemma parse_prefix_range text max p : parse_prefix text max = Ok p → 0 ≤ p ≤ max.
Proof.
  unfold parse_prefix. destruct (parse_uint u8_max text) as [n|] eqn:E; [|done].
  apply parse_uint_bounds in E. destruct (Z.ltb_spec max n); [done|]. intros [= <-]. lia.
Qed.

Lemma split_cidr_range value max addr p : 0 ≤ max → split_cidr value max = Ok (addr, p) → 0 ≤ p ≤ max.
Proof.
  intros Hm. unfold split_cidr. destruct (split_once SLASH value) as [[a t]|].
  - destruct (parse_prefix t max) as [q|] eqn:E; cbn; [|done]. intros [= <- <-]. by apply parse_prefix_range in E.
  - intros [= <- <-]. lia.
Qed.

Lemma parse_domain_spec_range tail d p4 p6 :
  parse_domain_spec tail = Ok (d, p4, p6) → 0 ≤ p4 ≤ 32 ∧ 0 ≤ p6 ≤ 128.
Proof.
  unfold parse_domain_spec. destruct (match split_once SLASH tail with Some _ => _ | None => _ end) as [dp cp].
  destruct (_ && _); [done|]. destruct cp as [|c cidr]; [intros [= <- <- <-]; lia|].
  destruct (match strip_prefix [SLASH] cidr with Some _ => _ | None => _ end) as [four six].
  assert (H4 : ∀ q, (if is_empty four then Ok 32 else parse_prefix four 32) = Ok q → 0 ≤ q ≤ 32).
  { intros q. destruct (is_empty four); [intros [= <-]; lia|apply parse_prefix_range]. }
  assert (H6 : ∀ q, (match six with Some six => parse_prefix six 128 | None => Ok 128 end) = Ok q → 0 ≤ q ≤ 128).
  { intros q. destruct six; [apply parse_prefix_range|intros [= <-]; lia]. }
  destruct (if is_empty four then _ else _) as [q4|]; cbn; [|done].
  destruct (match six with Some _ => _ | None => _ end) as [q6|]; cbn; [|done].
  intros [= <- <- <-]. split; [by apply H4|by apply H6].
Qed.

Lemma parse_mechanism_valid body m : parse_mechanism body = Ok m → mechanism_valid m.
Proof.
  unfold parse_mechanism. destruct (str_eqb _ (lit "all")); [by intros [= <-]|].
  destruct (strip_prefix (lit "ip4:") _) as [v|].
  { destruct (split_cidr v 32) as [[addr p]|] eqn:Ec; cbn; [|done].
    destruct (parse_v4 addr) as [n|] eqn:En; cbn; [|done]. intros [= <-]. cbn.
    apply split_cidr_range in Ec; [|lia]. unfold parse_v4 in En.
    destruct (read_ipv4_addr addr) as [[b [|]]|] eqn:Er; [|done..]. injection En as <-.
    by apply read_ipv4_range in Er. }
  destruct (strip_prefix (lit "ip6:") _) as [v|].
  { destruct (split_cidr v 128) as [[addr p]|] eqn:Ec; cbn; [|done].
    destruct (parse_v6 addr) as [n|] eqn:En; cbn; [|done]. intros [= <-]. cbn.
    apply split_cidr_range in Ec; [|lia]. unfold parse_v6 in En.
    destruct (read_ipv6_addr addr) as [[b [|]]|] eqn:Er; [|done..]. injection En as <-.
    by apply read_ipv6_range in Er. }
  destruct (strip_prefix (lit "include:") _) as [v|]; [destruct (is_empty v); [done|by intros [= <-]]|].
  destruct (_ || _).
  { destruct (parse_domain_spec _) as [[[d p4] p6]|] eqn:E; cbn; [|done]. intros [= <-].
    by apply parse_domain_spec_range in E. }
  destruct (_ || _).
  { destruct (parse_domain_spec _) as [[[d p4] p6]|] eqn:E; cbn; [|done]. intros [= <-].
    by apply parse_domain_spec_range in E. }
  destruct (strip_prefix (lit "exists:") _) as [v|]; [destruct (is_empty v); [done|by intros [= <-]]|].
  destruct (_ || _); [by intros [= <-]|done].
Qed.

Lemma parse_valid text r : parse text = Ok r → Forall (λ d, mechanism_valid d.2) (directives r).
Proof.
  unfold parse. destruct (split_ascii_whitespace text) as [|v terms]; [done|].
  destruct (str_eqb v _); [|done].
  apply (try_fold_ind (λ r, Forall (λ d, mechanism_valid d.2) (directives r))); [|by constructor].
  intros st term st' _ Ht Hst. unfold parse_term in Ht. destruct (split_once EQUALS term) as [[n value]|].
  - destruct (eq_ignore_ascii_case n _); [|by injection Ht as <-].
    destruct (redirect st); [done|]. by injection Ht as <-.
  - destruct (qualified term) as [q body]. destruct (parse_mechanism body) as [m|] eqn:Em; cbn in Ht; [|done].
    injection Ht as <-. cbn. apply Forall_app. split; [done|]. constructor; [|done]. by eapply parse_mechanism_valid.
Qed.
