(* ===== verification/Spf.v ===== *)
(** The evaluation of SPF (src/src/spf/evaluator/mod.rs).

    The resolver is an argument, [DnsLookup]: it answers from the history of
    the queries before, so that nothing is assumed of two equal queries.
    [None] is a temporary failure. Every query is logged with whether its
    answer was empty. *)

From S2P Require Import Prelude RustStd IpNet SpfRecord.

Local Open Scope Z_scope.

(** ** The resolver *)

Inductive Query := QTxt (name : list Z) | QAddresses (name : list Z) | QMx (name : list Z).

Definition Log : Type := list (Query * bool).

Record DnsLookup := mkDns {
  txt : Log → list Z → option (list (list Z));
  addresses : Log → list Z → option (list IpAddr);
  mx : Log → list Z → option (list (list Z));
}.

(** ** The evaluation *)

Definition MAX_DNS_MECHANISMS : Z := 10.
Definition MAX_VOID_LOOKUPS : Z := 2.
Definition MAX_DEPTH : Z := 10.

Record Budget := mkBudget { remaining : Z; voids : Z; depth : Z }.

Definition default_budget : Budget := mkBudget MAX_DNS_MECHANISMS 0 0.

Record CheckContext := mkContext { dns : DnsLookup; ip : IpAddr; sender : list Z; helo : list Z }.

Definition consume (b : Budget) : option Budget :=
  if remaining b =? 0 then None else Some (mkBudget (remaining b - 1) (voids b) (depth b)).

Definition count_void (b : Budget) : Budget * option SpfOutcome :=
  let b := mkBudget (remaining b) (voids b + 1) (depth b) in
  (b, if MAX_VOID_LOOKUPS <? voids b then Some PermError else None).

(** Count an empty answer, and say whether that ends the evaluation. *)
Definition count_if_empty {T} (answer : list T) (b : Budget) : Budget * option SpfOutcome :=
  match answer with [] => count_void b | _ => (b, None) end.

Definition empty_answer {T} (answer : option (list T)) : bool :=
  match answer with Some [] => true | _ => false end.

Definition shift_mask (width prefix : Z) : Z :=
  if prefix =? 0 then 0 else Z.land (Z.shiftl (2 ^ width - 1) (width - prefix)) (2 ^ width - 1).

Definition v4_in_network (ip network prefix : Z) : bool :=
  Z.land ip (shift_mask 32 prefix) =? Z.land network (shift_mask 32 prefix).
Definition v6_in_network (ip network prefix : Z) : bool :=
  Z.land ip (shift_mask 128 prefix) =? Z.land network (shift_mask 128 prefix).

Definition address_matches (ip candidate : IpAddr) (prefix4 prefix6 : Z) : bool :=
  match ip, candidate with
  | V4 ip, V4 candidate => v4_in_network ip candidate prefix4
  | V6 ip, V6 candidate => v6_in_network ip candidate prefix6
  | _, _ => false
  end.

Definition is_spf (text : list Z) : bool := str_eqb text (lit "v=spf1") || starts_with (lit "v=spf1 ") text.

Definition fetch_record (dns : DnsLookup) (domain : list Z) (b : Budget) (log : Log)
    : Budget * Log * result SpfOutcome (option SpfRecord) :=
  let answer := txt dns log domain in
  let log := log ++ [(QTxt domain, empty_answer answer)] in
  match answer with
  | None => (b, log, Err TempError)
  | Some texts =>
      let '(b, stop) := count_if_empty texts b in
      match stop with
      | Some permerror => (b, log, Err permerror)
      | None =>
          (b, log,
           match List.filter is_spf texts with
           | [] => Ok None
           | [text] => match parse text with Ok r => Ok (Some r) | Err _ => Err PermError end
           | _ => Err PermError
           end)
      end
  end.

(** What a mechanism gives: a verdict that ends the evaluation, or whether it
    matched. *)
Definition Matched : Type := SpfOutcome + bool.

(** One lookup of addresses, and what it says. *)
Definition look_up (ctx : CheckContext) (name : list Z) (judge : list IpAddr → bool) (b : Budget) (log : Log)
    : Budget * Log * Matched :=
  let answer := addresses (dns ctx) log name in
  let log := log ++ [(QAddresses name, empty_answer answer)] in
  match answer with
  | None => (b, log, inl TempError)
  | Some found =>
      let '(b, stop) := count_if_empty found b in
      match stop with
      | Some permerror => (b, log, inl permerror)
      | None => (b, log, inr (judge found))
      end
  end.

Fixpoint mx_loop (ctx : CheckContext) (exchangers : list (list Z)) (judge : list IpAddr → bool)
    (b : Budget) (log : Log) : Budget * Log * Matched :=
  match exchangers with
  | [] => (b, log, inr false)
  | exchanger :: exchangers =>
      match look_up ctx exchanger judge b log with
      | (b, log, inr false) => mx_loop ctx exchangers judge b log
      | stop => stop
      end
  end.

Section inner.
Context (check : CheckContext → list Z → Budget → Log → option (Budget * Log * SpfOutcome)).

(** A nested evaluation, one level deeper, with the caller's counts. *)
Definition descend (ctx : CheckContext) (target : list Z) (b : Budget) (log : Log)
    : option (Budget * Log * SpfOutcome) :=
  check ctx target (mkBudget (remaining b) (voids b) (depth b + 1)) log.

Definition eval_mechanism (ctx : CheckContext) (domain : list Z) (m : Mechanism) (b : Budget) (log : Log)
    : option (Budget * Log * Matched) :=
  let charged (k : Budget → option (Budget * Log * Matched)) :=
    match consume b with None => Some (b, log, inl PermError) | Some b => k b end in
  let expanded spec b (k : list Z → option (Budget * Log * Matched)) :=
    match expand_macro spec (ip ctx) domain (sender ctx) (helo ctx) with
    | None => None
    | Some (Err e) => Some (b, log, inl e)
    | Some (Ok name) => k name
    end in
  match m with
  | All => Some (b, log, inr true)
  | Ip4 network prefix =>
      Some (b, log, inr (match ip ctx with V4 v4 => v4_in_network v4 network prefix | V6 _ => false end))
  | Ip6 network prefix =>
      Some (b, log, inr (match ip ctx with V6 v6 => v6_in_network v6 network prefix | V4 _ => false end))
  | A target prefix4 prefix6 =>
      charged (λ b, expanded (default domain target) b (λ name,
        Some (look_up ctx name (existsb (λ a, address_matches (ip ctx) a prefix4 prefix6)) b log)))
  | Mx target prefix4 prefix6 =>
      charged (λ b, expanded (default domain target) b (λ name,
        let answer := mx (dns ctx) log name in
        let log := log ++ [(QMx name, empty_answer answer)] in
        match answer with
        | None => Some (b, log, inl TempError)
        | Some exchangers =>
            let '(b, stop) := count_if_empty exchangers b in
            match stop with
            | Some permerror => Some (b, log, inl permerror)
            | None =>
                Some (mx_loop ctx (take 10 exchangers)
                  (existsb (λ a, address_matches (ip ctx) a prefix4 prefix6)) b log)
            end
        end))
  | Include spec =>
      charged (λ b, expanded spec b (λ included,
        '(nested, log, outcome) ← descend ctx included b log;
        let b' := mkBudget (remaining nested) (voids nested) (depth b) in
        Some (match outcome with
              | Pass => (b', log, inr true)
              | Fail_ | SoftFail | Neutral => (b', log, inr false)
              | None_ => (b, log, inl PermError)
              | TempError | PermError => (b, log, inl outcome)
              end)))
  | Exists name =>
      charged (λ b, Some (look_up ctx name (λ found, negb (bool_decide (found = []))) b log))
  | Ptr _ => charged (λ b, Some (b, log, inr false))
  end.

Definition qualified_outcome (q : Qualifier) : SpfOutcome :=
  match q with QPass => Pass | QFail => Fail_ | QSoftFail => SoftFail | QNeutral => Neutral end.

(** The directives in turn; [inr tt] when none decides. *)
Fixpoint eval_directives (ctx : CheckContext) (domain : list Z) (ds : list (Qualifier * Mechanism))
    (b : Budget) (log : Log) : option (Budget * Log * (SpfOutcome + unit)) :=
  match ds with
  | [] => Some (b, log, inr tt)
  | (q, m) :: ds =>
      '(b, log, r) ← eval_mechanism ctx domain m b log;
      match r with
      | inl outcome => Some (b, log, inl outcome)
      | inr true => Some (b, log, inl (qualified_outcome q))
      | inr false => eval_directives ctx domain ds b log
      end
  end.

Definition eval_redirect (ctx : CheckContext) (domain : list Z) (redirect : option (list Z))
    (b : Budget) (log : Log) : option (Budget * Log * SpfOutcome) :=
  match redirect with
  | None => Some (b, log, Neutral)
  | Some spec =>
      match consume b with
      | None => Some (b, log, PermError)
      | Some b =>
          match expand_macro spec (ip ctx) domain (sender ctx) (helo ctx) with
          | None => None
          | Some (Err e) => Some (b, log, e)
          | Some (Ok target) =>
              '(nested, log, outcome) ← descend ctx target b log;
              Some (mkBudget (remaining nested) (voids nested) (depth b), log,
                    if decide (outcome = None_) then PermError else outcome)
          end
      end
  end.

End inner.

(** [None] is a run out of [fuel], the nesting the model can follow. *)
Fixpoint check_host_inner (fuel : nat) (ctx : CheckContext) (domain : list Z) (b : Budget) (log : Log)
    : option (Budget * Log * SpfOutcome) :=
  if MAX_DEPTH <=? depth b then Some (b, log, PermError)
  else
    match fuel with
    | O => None
    | S fuel =>
        match fetch_record (dns ctx) domain b log with
        | (b, log, Err outcome) => Some (b, log, outcome)
        | (b, log, Ok None) => Some (b, log, None_)
        | (b, log, Ok (Some record)) =>
            '(b, log, r) ← eval_directives (check_host_inner fuel) ctx domain (directives record) b log;
            match r with
            | inl outcome => Some (b, log, outcome)
            | inr _ => eval_redirect (check_host_inner fuel) ctx domain (redirect record) b log
            end
        end
    end.

(** The verdict with the queries made for it. *)
Definition check_host (dns : DnsLookup) (ip : IpAddr) (domain sender helo : list Z)
    : option (Log * SpfOutcome) :=
  '(_, log, outcome) ← check_host_inner (Z.to_nat MAX_DEPTH) (mkContext dns ip sender helo) domain default_budget [];
  Some (log, outcome).

(** ** The limits *)

Definition void_count (log : Log) : nat := length (List.filter snd log).

(** An evaluation still going: the counters are those of the log. *)
Definition running (b : Budget) (log : Log) : Prop :=
  0 ≤ remaining b ∧ voids b = Z.of_nat (void_count log) ∧ (void_count log ≤ 2)%nat.

(** What is spent and what may still be spent: a term costs its mail
    exchanger lookup and ten address lookups at most. *)
Definition potential (b : Budget) (log : Log) : Z := Z.of_nat (length log) + 11 * remaining b.

Definition is_error (o : SpfOutcome) : bool :=
  match o with TempError | PermError => true | _ => false end.

(** The state a step leaves: still going, with nothing gained, or stopped by
    an error within the limits. *)
Definition went_on (b : Budget) (log : Log) (b' : Budget) (log' : Log) : Prop :=
  running b' log' ∧ depth b' = depth b ∧ potential b' log' ≤ potential b log.
Definition stopped (b : Budget) (log log' : Log) (o : SpfOutcome) : Prop :=
  is_error o = true ∧ Z.of_nat (length log') ≤ potential b log ∧ (void_count log' ≤ 3)%nat.

Lemma void_count_snoc log q v : void_count (log ++ [(q, v)]) = (void_count log + if v : bool then 1 else 0)%nat.
Proof. unfold void_count. rewrite List.filter_app, length_app. by destruct v. Qed.

Lemma length_snoc {T} (l : list T) x : Z.of_nat (length (l ++ [x])) = Z.of_nat (length l) + 1.
Proof. rewrite length_app. cbn. lia. Qed.

(** An answer is counted as void exactly when it is logged as one. *)
Lemma count_if_empty_spec {T} (answer : list T) b log q b' stop :
  running b log → count_if_empty answer b = (b', stop) →
  let log' := log ++ [(q, empty_answer (Some answer))] in
  remaining b' = remaining b ∧ depth b' = depth b ∧
  match stop with
  | Some o => o = PermError ∧ (void_count log' ≤ 3)%nat
  | None => running b' log'
  end.
Proof.
  intros (Hr & Hv & Hle) Heq log'. subst log'. rewrite void_count_snoc.
  destruct answer as [|x answer]; cbn in Heq; injection Heq as <- <-; cbn [remaining depth voids empty_answer].
  - split; [done|]. split; [done|]. unfold MAX_VOID_LOOKUPS. destruct (Z.ltb_spec 2 (voids b + 1)).
    + split; [done|]. lia.
    + unfold running. cbn [remaining voids]. rewrite void_count_snoc. cbn. lia.
  - split; [done|]. split; [done|]. unfold running. rewrite void_count_snoc. cbn. lia.
Qed.

Lemma look_up_spec ctx name judge b log b' log' r :
  running b log → look_up ctx name judge b log = (b', log', r) →
  length log' = S (length log) ∧ remaining b' = remaining b ∧ depth b' = depth b ∧
  match r with
  | inl o => is_error o = true ∧ (void_count log' ≤ 3)%nat
  | inr _ => running b' log'
  end.
Proof.
  intros Hr. unfold look_up. destruct (addresses (dns ctx) log name) as [found|].
  - destruct (count_if_empty found b) as [b1 stop] eqn:Ec.
    apply (count_if_empty_spec found b log (QAddresses name)) in Ec; [|done].
    destruct Ec as (H1 & H2 & H3). destruct stop as [o|]; intros [= <- <- <-];
      (split; [rewrite length_app; cbn; lia|]); split_and!; try done; try apply H3.
    by destruct H3 as [-> _].
  - intros [= <- <- <-]. split; [rewrite length_app; cbn; lia|]. split_and!; try done.
    rewrite void_count_snoc. destruct Hr as (_ & _ & ?). cbn. lia.
Qed.

Lemma mx_loop_spec ctx exchangers judge : ∀ b log b' log' r,
  running b log → mx_loop ctx exchangers judge b log = (b', log', r) →
  (length log' ≤ length log + length exchangers)%nat ∧ remaining b' = remaining b ∧ depth b' = depth b ∧
  match r with
  | inl o => is_error o = true ∧ (void_count log' ≤ 3)%nat
  | inr _ => running b' log'
  end.
Proof.
  induction exchangers as [|e exchangers IH]; intros b log b' log' r Hr; cbn [mx_loop].
  { intros [= <- <- <-]. split; [cbn; lia|done]. }
  destruct (look_up ctx e judge b log) as [[b1 log1] r1] eqn:El.
  apply look_up_spec in El as (Hl & Hrem & Hd & Hcase); [|done].
  destruct r1 as [o|[]].
  - intros [= <- <- <-]. split; [cbn; lia|done].
  - intros [= <- <- <-]. split; [cbn; lia|done].
  - intros Heq. apply IH in Heq as (H1 & H2 & H3 & H4); [|done]. split; [cbn; lia|]. split; [lia|].
    split; [lia|done].
Qed.

Lemma expand_error fuel ip d s h rest acc e :
  expand_loop fuel ip d s h rest acc = Some (Err e) → e = PermError.
Proof.
  revert rest acc. induction fuel as [|fuel IH]; intros rest acc; cbn [expand_loop].
  { by destruct (split_once PERCENT rest) as [[]|]. }
  destruct (split_once PERCENT rest) as [[before [|ch tail]]|]; [by intros [= <-]| |done].
  destruct (_ =? _); [apply IH|]. destruct (_ =? _); [apply IH|]. destruct (_ =? _); [apply IH|].
  destruct (_ =? _); [|by intros [= <-]]. destruct (split_once 125 tail) as [[inner rest']|]; [|by intros [= <-]].
  destruct (expand_macro_inner inner ip d s h) as [text|e'] eqn:Ei; [apply IH|]. intros [= <-].
  revert Ei. unfold expand_macro_inner, parse_macro_transformers.
  destruct inner as [|c inner]; [congruence|]. destruct (span_digits inner) as [digits tl].
  assert (Hc : ∀ x, match digits with [] => Ok None
      | _ => match parse_uint usize_max digits with Some n => Ok (Some n) | None => Err PermError end end = Err x →
      x = PermError) by (intros x; destruct digits; [done|]; destruct (parse_uint _ _); congruence).
  destruct (match digits with [] => _ | _ => _ end) as [count|x]; cbn; [|intros [= <-]; by apply Hc].
  repeat (case_match; cbn; try congruence).
Qed.

Lemma expand_macro_error spec ip d s h e : expand_macro spec ip d s h = Some (Err e) → e = PermError.
Proof. unfold expand_macro. destruct (negb _); [done|]. apply expand_error. Qed.

(** What an evaluation gives: a verdict that is no error leaves the counters
    those of the log; [own] queries come on top of the potential. *)
Definition evaluated (own : Z) (b : Budget) (log : Log) (r : option (Budget * Log * SpfOutcome)) : Prop :=
  ∃ b' log' o, r = Some (b', log', o) ∧
    Z.of_nat (length log') ≤ potential b log + own ∧ (void_count log' ≤ 3)%nat ∧
    (is_error o = false → running b' log' ∧ potential b' log' ≤ potential b log + own).

Section limits.
Context (check : CheckContext → list Z → Budget → Log → option (Budget * Log * SpfOutcome)).
Context (level : Z).
Hypothesis check_spec : ∀ ctx domain b log,
  running b log → depth b = level + 1 → evaluated 1 b log (check ctx domain b log).

Lemma consume_spec b b' :
  consume b = Some b' → 0 ≤ remaining b →
  remaining b = remaining b' + 1 ∧ 0 ≤ remaining b' ∧ voids b' = voids b ∧ depth b' = depth b.
Proof. unfold consume. destruct (Z.eqb_spec (remaining b) 0); [done|]. intros [= <-]. cbn. lia. Qed.

Lemma running_consumed b b' log : consume b = Some b' → running b log → running b' log.
Proof.
  intros Hc (Hr & Hv & Hle). destruct (consume_spec _ _ Hc Hr) as (? & ? & ? & ?). unfold running. lia.
Qed.

Lemma descend_spec ctx target b log :
  running b log → depth b = level → evaluated 1 b log (descend check ctx target b log).
Proof.
  intros Hr Hd. refine (check_spec ctx target (mkBudget (remaining b) (voids b) (depth b + 1)) log Hr _).
  cbn. by rewrite Hd.
Qed.

(** The charge and the expansion stop with an error, or go on. *)
Lemma stopped_here b log : running b log → stopped b log log PermError.
Proof. intros (Hr & Hv & Hle). unfold stopped, potential. split; [done|]. lia. Qed.

Lemma eval_mechanism_spec ctx domain m b log :
  running b log → depth b = level →
  ∃ b' log' r, eval_mechanism check ctx domain m b log = Some (b', log', r) ∧
    match r with inl o => stopped b log log' o | inr _ => went_on b log b' log' end.
Proof.
  intros Hrun Hd. pose proof Hrun as (Hrem & Hv & Hle).
  assert (Hid : went_on b log b log) by (unfold went_on; split; [done|]; split; [done|lia]).
  destruct m as [|n p|n p|target p4 p6|target p4 p6|spec|name|target]; cbn [eval_mechanism];
    try (by eexists _, _, _; split; [done|]).
  all: destruct (consume b) as [b1|] eqn:Ec;
    [|eexists _, _, _; split; [done|]; by apply stopped_here].
  all: pose proof (running_consumed _ _ _ Ec Hrun) as Hrun1.
  all: pose proof (consume_spec _ _ Ec Hrem) as (Hr1 & Hr1' & _ & Hd1).
  all: assert (Hstop : stopped b log log PermError) by (by apply stopped_here).
  1, 2, 3: match goal with |- context [expand_macro ?s ?i ?d ?sd ?h] =>
    destruct (expand_macro_total s i d sd h) as [[name|e] He]; rewrite He;
    [|apply expand_macro_error in He as ->; eexists _, _, _; by split] end.
  - (* a *)
    destruct (look_up ctx name _ b1 log) as [[b2 log2] r] eqn:El. eexists _, _, _; split; [done|].
    apply look_up_spec in El as (Hl & Hr2 & Hd2 & Hcase); [|done]. destruct r as [o|m].
    + unfold stopped, potential in *. destruct Hcase. split; [done|]. lia.
    + unfold went_on, potential. split; [done|]. lia.
  - (* mx *)
    destruct (mx (dns ctx) log name) as [exchangers|].
    2: { eexists _, _, _; split; [done|]. unfold stopped, potential. rewrite length_snoc, void_count_snoc.
         split; [done|]. cbn. lia. }
    destruct (count_if_empty exchangers b1) as [b2 stop] eqn:Ee.
    apply (count_if_empty_spec _ _ log (QMx name)) in Ee as (Hr2 & Hd2 & Hcase); [|done].
    destruct stop as [o|].
    + eexists _, _, _; split; [done|]. destruct Hcase as [-> Hvc]. unfold stopped, potential.
      rewrite length_snoc. split; [done|]. split; [lia|done].
    + destruct (mx_loop ctx (take 10 exchangers) _ b2 _) as [[b3 log3] r] eqn:Em.
      eexists _, _, _; split; [done|]. apply mx_loop_spec in Em as (Hl & Hr3 & Hd3 & Hcase3); [|done].
      rewrite length_app in Hl. cbn [length] in Hl.
      assert (length (take 10 exchangers) ≤ 10)%nat by (rewrite length_take; lia).
      destruct r as [o|m].
      * unfold stopped, potential. destruct Hcase3. split; [done|]. split; [lia|done].
      * unfold went_on, potential. split; [done|]. lia.
  - (* include *)
    destruct (descend_spec ctx name b1 log Hrun1 ltac:(lia)) as (b2 & log2 & o & -> & Hl & Hvc & Hok).
    cbn [mbind option_bind]. unfold potential in *.
    destruct o; eexists _, _, _; (split; [done|]);
      first [ unfold stopped, potential; split; [done|]; split; [lia|done]
            | destruct (Hok eq_refl) as [(? & ? & ?) ?]; unfold went_on, running, potential;
              cbn [remaining voids depth]; lia ].
  - (* exists *)
    destruct (look_up ctx name _ b1 log) as [[b2 log2] r] eqn:El. eexists _, _, _; split; [done|].
    apply look_up_spec in El as (Hl & Hr2 & Hd2 & Hcase); [|done]. destruct r as [o|m].
    + unfold stopped, potential in *. destruct Hcase. split; [done|]. lia.
    + unfold went_on, potential. split; [done|]. lia.
  - (* ptr *)
    eexists _, _, _; split; [done|]. unfold went_on, potential. split; [done|]. lia.
Qed.

Lemma eval_directives_spec ctx domain ds : ∀ b log,
  running b log → depth b = level →
  ∃ b' log' r, eval_directives check ctx domain ds b log = Some (b', log', r) ∧
    match r with
    | inl o => stopped b log log' o ∨ is_error o = false ∧ went_on b log b' log'
    | inr _ => went_on b log b' log'
    end.
Proof.
  induction ds as [|[q m] ds IH]; intros b log Hrun Hd; cbn [eval_directives].
  { eexists _, _, _; split; [done|]. unfold went_on. split; [done|]. split; [done|lia]. }
  destruct (eval_mechanism_spec ctx domain m b log Hrun Hd) as (b1 & log1 & r & -> & Hr). cbn [mbind option_bind].
  destruct r as [o|[]].
  - eexists _, _, _; split; [done|]. by left.
  - eexists _, _, _; split; [done|]. right. split; [by destruct q|done].
  - destruct Hr as (Hrun1 & Hd1 & Hp1). destruct (IH b1 log1 Hrun1 ltac:(lia)) as (b2 & log2 & r & -> & Hr).
    eexists _, _, _; split; [done|]. unfold stopped, went_on in *.
    destruct r as [o|]; [destruct Hr as [(? & ? & ?)|(? & ? & ? & ?)]|destruct Hr as (? & ? & ?)].
    + left. split; [done|]. split; [lia|done].
    + right. split; [done|]. split; [done|]. lia.
    + split; [done|]. lia.
Qed.

Lemma eval_redirect_spec ctx domain target b log :
  running b log → depth b = level →
  evaluated 0 b log (eval_redirect check ctx domain target b log).
Proof.
  intros Hrun Hd. pose proof Hrun as (Hrem & Hv & Hle). unfold evaluated.
  destruct target as [spec|]; cbn [eval_redirect].
  2: { eexists _, _, _; split; [done|]. unfold potential. split; [lia|]. split; [lia|]. intros _. split; [done|lia]. }
  destruct (consume b) as [b1|] eqn:Ec.
  2: { eexists _, _, _; split; [done|]. unfold potential. split; [lia|]. split; [lia|done]. }
  pose proof (running_consumed _ _ _ Ec Hrun) as Hrun1.
  pose proof (consume_spec _ _ Ec Hrem) as (Hr1 & Hr1' & _ & Hd1).
  destruct (expand_macro_total spec (ip ctx) domain (sender ctx) (helo ctx)) as [[name|e] He]; rewrite He.
  2: { apply expand_macro_error in He as ->. eexists _, _, _; split; [done|]. unfold potential.
       split; [lia|]. split; [lia|done]. }
  destruct (descend_spec ctx name b1 log Hrun1 ltac:(lia)) as (b2 & log2 & o & -> & Hl & Hvc & Hok).
  cbn [mbind option_bind]. eexists _, _, _; split; [done|]. unfold potential in *.
  split; [lia|]. split; [done|]. intros Herr.
  assert (Ho : is_error o = false) by (by destruct o).
  destruct (Hok Ho) as [(? & ? & ?) ?]. unfold running. cbn [remaining voids]. lia.
Qed.

End limits.

Lemma check_host_inner_spec fuel : ∀ ctx domain b log,
  running b log → MAX_DEPTH ≤ Z.of_nat fuel + depth b →
  evaluated 1 b log (check_host_inner fuel ctx domain b log).
Proof.
  induction fuel as [|fuel IH]; intros ctx domain b log Hrun Hf; cbn [check_host_inner];
    pose proof Hrun as (Hrem & Hv & Hle); unfold evaluated.
  all: destruct (Z.leb_spec MAX_DEPTH (depth b)) as [Hd|Hd];
    [eexists _, _, _; split; [done|]; unfold potential; split; [lia|]; split; [lia|done]|].
  { lia. }
  assert (Hcheck : ∀ ctx domain b1 log1, running b1 log1 → depth b1 = depth b + 1 →
    evaluated 1 b1 log1 (check_host_inner fuel ctx domain b1 log1)).
  { intros ctx1 d1 b1 log1 Hr1 Hd1. apply IH; [done|lia]. }
  unfold fetch_record. destruct (txt (dns ctx) log domain) as [texts|].
  2: { eexists _, _, _; split; [done|]. unfold potential. rewrite length_snoc, void_count_snoc.
       split; [lia|]. split; [cbn; lia|done]. }
  destruct (count_if_empty texts b) as [b1 stop] eqn:Ec.
  apply (count_if_empty_spec _ _ log (QTxt domain)) in Ec as (Hr1 & Hd1 & Hcase); [|done].
  set (log1 := log ++ [(QTxt domain, empty_answer (Some texts))]) in *.
  assert (Hlen1 : Z.of_nat (length log1) = Z.of_nat (length log) + 1) by apply length_snoc.
  destruct stop as [o|].
  { destruct Hcase as [-> Hvc]. eexists _, _, _; split; [done|]. unfold potential. split; [lia|done]. }
  pose proof Hcase as (_ & _ & Hle1).
  destruct (match List.filter is_spf texts with [] => _ | _ => _ end) as [[record|]|o] eqn:Er.
  - destruct (eval_directives_spec _ (depth b) Hcheck ctx domain (directives record) b1 log1 Hcase Hd1)
      as (b2 & log2 & r & -> & Hr). cbn [mbind option_bind].
    destruct r as [o|].
    + eexists _, _, _; split; [done|]. unfold stopped, went_on, potential in *.
      destruct Hr as [(He & Hl & Hvc)|(He & Hrun2 & Hd2 & Hp)].
      * split; [lia|]. split; [done|]. congruence.
      * pose proof Hrun2 as (? & ? & ?). split; [lia|]. split; [lia|]. intros _. split; [done|lia].
    + destruct Hr as (Hrun2 & Hd2 & Hp).
      destruct (eval_redirect_spec _ (depth b) Hcheck ctx domain (redirect record) b2 log2 Hrun2 ltac:(lia))
        as (b3 & log3 & o & -> & Hl & Hvc & Hok).
      eexists _, _, _; split; [done|]. unfold potential in *. split; [lia|]. split; [done|].
      intros He. destruct (Hok He) as [? ?]. split; [done|lia].
  - eexists _, _, _; split; [done|]. unfold potential. split; [lia|]. split; [lia|]. intros _. split; [done|lia].
  - eexists _, _, _; split; [done|]. unfold potential. split; [lia|]. split; [lia|]. intros He.
    destruct (List.filter is_spf texts) as [|t [|]]; [done| |by injection Er as <-].
    destruct (parse t); [done|by injection Er as <-].
Qed.

(** C24: An SPF evaluation always ends, whatever the resolver answers and
    however its records include and redirect to each other, with a verdict,
    after at most 111 queries of which at most three had an empty answer. *)
Theorem spf_lookups_bounded (dns : DnsLookup) (ip : IpAddr) (domain sender helo : list Z) :
  ∃ log outcome, check_host dns ip domain sender helo = Some (log, outcome) ∧
    (length log ≤ 111)%nat ∧ (void_count log ≤ 3)%nat.
Proof.
  destruct (check_host_inner_spec (Z.to_nat MAX_DEPTH) (mkContext dns ip sender helo) domain default_budget [])
    as (b & log & outcome & Heq & Hl & Hv & _).
  - unfold running. split; [done|]. split; [done|]. cbn. lia.
  - by vm_compute.
  - exists log, outcome. unfold check_host. rewrite Heq. split; [done|]. split; [|done].
    change (potential default_budget []) with 110 in Hl. lia.
Qed.

(** ** What a record means

    A reading of a domain's policy with no limits and no order of lookups: who
    a record says may send. [Zone] is what the resolver answers, always. *)

Record Zone := mkZone {
  zone_txt : list Z → option (list (list Z));
  zone_addresses : list Z → option (list IpAddr);
  zone_mx : list Z → option (list (list Z));
}.

Definition still (z : Zone) : DnsLookup :=
  mkDns (λ _, zone_txt z) (λ _, zone_addresses z) (λ _, zone_mx z).

Definition zone_valid (z : Zone) : Prop :=
  ∀ name found a, zone_addresses z name = Some found → a ∈ found → ip_valid a.

(** The addresses of a block agree with its base on the prefix bits. *)
Definition in_block (a base : IpAddr) (prefix4 prefix6 : Z) : Prop :=
  same_family a base = true ∧ agree_on_prefix (match a with V4 _ => prefix4 | V6 _ => prefix6 end) a base.

Section meaning.
Context (z : Zone) (ip : IpAddr) (sender helo : list Z).

Definition names (domain spec name : list Z) : Prop :=
  expand_macro spec ip domain sender helo = Some (Ok name).

Definition published (domain : list Z) (r : SpfRecord) : Prop :=
  ∃ texts text, zone_txt z domain = Some texts ∧ List.filter is_spf texts = [text] ∧ parse text = Ok r.

Inductive verdict : list Z → SpfOutcome → Prop :=
| verdict_none domain texts :
    zone_txt z domain = Some texts → List.filter is_spf texts = [] → verdict domain None_
| verdict_directive domain r o :
    published domain r → decided domain (directives r) (Some o) → verdict domain o
| verdict_redirect domain r spec target o :
    published domain r → decided domain (directives r) None → redirect r = Some spec →
    names domain spec target → verdict target o → o ≠ None_ → verdict domain o
| verdict_default domain r :
    published domain r → decided domain (directives r) None → redirect r = None → verdict domain Neutral
with decided : list Z → list (Qualifier * Mechanism) → option SpfOutcome → Prop :=
| decided_nil domain : decided domain [] None
| decided_hit domain q m ds :
    holds domain m true → decided domain ((q, m) :: ds) (Some (qualified_outcome q))
| decided_miss domain q m ds o :
    holds domain m false → decided domain ds o → decided domain ((q, m) :: ds) o
with holds : list Z → Mechanism → bool → Prop :=
| holds_all domain : holds domain All true
| holds_ip4 domain n p b : (b = true ↔ in_block ip (V4 n) p p) → holds domain (Ip4 n p) b
| holds_ip6 domain n p b : (b = true ↔ in_block ip (V6 n) p p) → holds domain (Ip6 n p) b
| holds_a domain target p4 p6 name found b :
    names domain (default domain target) name → zone_addresses z name = Some found →
    (b = true ↔ ∃ a, a ∈ found ∧ in_block ip a p4 p6) → holds domain (A target p4 p6) b
| holds_mx domain target p4 p6 name exchangers b :
    names domain (default domain target) name → zone_mx z name = Some exchangers →
    (b = true ↔ ∃ e found a, e ∈ take 10 exchangers ∧ zone_addresses z e = Some found ∧
       a ∈ found ∧ in_block ip a p4 p6) → holds domain (Mx target p4 p6) b
| holds_include domain spec target o :
    names domain spec target → verdict target o → o ≠ None_ → is_error o = false →
    holds domain (Include spec) (bool_decide (o = Pass))
| holds_exists domain spec name found :
    names domain spec name → zone_addresses z name = Some found →
    holds domain (Exists spec) (negb (bool_decide (found = [])))
| holds_ptr domain target : holds domain (Ptr target) false.

Scheme verdict_mut := Induction for verdict Sort Prop
with decided_mut := Induction for decided Sort Prop
with holds_mut := Induction for holds Sort Prop.

Lemma published_det domain r r' : published domain r → published domain r' → r = r'.
Proof. intros (ts & t & H1 & H2 & H3) (ts' & t' & H1' & H2' & H3'). congruence. Qed.

Lemma published_some domain r texts :
  published domain r → zone_txt z domain = Some texts → List.filter is_spf texts ≠ [].
Proof. intros (ts & t & H1 & H2 & _) Ht. congruence. Qed.

Lemma iff_true_eq (b b' : bool) (P : Prop) : (b = true ↔ P) → (b' = true ↔ P) → b = b'.
Proof. destruct b, b'; intuition congruence. Qed.

(** A policy has one meaning. *)
Lemma verdict_det domain o : verdict domain o → ∀ o', verdict domain o' → o = o'.
Proof.
  apply (verdict_mut
    (λ domain o _, ∀ o', verdict domain o' → o = o')
    (λ domain ds r _, ∀ r', decided domain ds r' → r = r')
    (λ domain m b _, ∀ b', holds domain m b' → b = b')); clear domain o.
  - intros domain texts Ht Hf o' Hv. inversion Hv as [| ? r ? Hp| ? r ? ? ? Hp| ? r Hp]; subst; [done|..];
      by destruct (published_some _ _ _ Hp Ht).
  - intros domain r o Hp Hd IH o' Hv.
    inversion Hv as [? texts Ht Hf|? r' ? Hp' Hd'|? r' ? ? ? Hp' Hd'|? r' Hp' Hd']; subst.
    1: by destruct (published_some _ _ _ Hp Ht).
    all: rewrite (published_det _ _ _ Hp' Hp) in *; apply IH in Hd'; congruence.
  - intros domain r spec target o Hp Hd IH Hr Hn Hv IHv Hne o' Hv'.
    inversion Hv' as [? texts Ht Hf|? r' ? Hp' Hd'|? r' spec' target' ? Hp' Hd' Hr' Hn' Hv2|? r' Hp' Hd' Hr']; subst.
    1: by destruct (published_some _ _ _ Hp Ht).
    all: rewrite (published_det _ _ _ Hp' Hp) in *; try (apply IH in Hd'; congruence).
    assert (spec' = spec) by congruence. subst. unfold names in *. assert (target' = target) by congruence. subst.
    by apply IHv.
  - intros domain r Hp Hd IH Hr o' Hv'.
    inversion Hv' as [? texts Ht Hf|? r' ? Hp' Hd'|? r' spec' target' ? Hp' Hd' Hr'|? r' Hp' Hd' Hr']; subst; [|..|done].
    1: by destruct (published_some _ _ _ Hp Ht).
    all: rewrite (published_det _ _ _ Hp' Hp) in *; apply IH in Hd'; congruence.
  - intros domain r' Hd. by inversion Hd.
  - intros domain q m ds Hh IH r' Hd. inversion Hd as [|? ? ? ? Hh'|? ? ? ? ? Hh']; subst; [done|].
    by apply IH in Hh'.
  - intros domain q m ds o Hh IH Hd IHd r' Hd'. inversion Hd' as [|? ? ? ? Hh'|? ? ? ? ? Hh' Hd2]; subst.
    + by apply IH in Hh'.
    + by apply IHd.
  - intros domain b' Hh. by inversion Hh.
  - intros domain n p b Hb b' Hh. inversion Hh; subst. by eapply iff_true_eq.
  - intros domain n p b Hb b' Hh. inversion Hh; subst. by eapply iff_true_eq.
  - intros domain target p4 p6 name found b Hn Hf Hb b' Hh. inversion Hh as [| | |? ? ? ? ? ? ? Hn' Hf'| | | |]; subst.
    unfold names in *. simplify_eq. by eapply iff_true_eq.
  - intros domain target p4 p6 name exchangers b Hn Hf Hb b' Hh.
    inversion Hh as [| | | |? ? ? ? ? ? ? Hn' Hf'| | |]; subst. unfold names in *. simplify_eq. by eapply iff_true_eq.
  - intros domain spec target o Hn Hv IH Hne He b' Hh. inversion Hh as [| | | | |? ? ? o' Hn' Hv'| |]; subst.
    unfold names in *. simplify_eq. by rewrite (IH o').
  - intros domain spec name found Hn Hf b' Hh. inversion Hh; subst. unfold names in *. by simplify_eq.
  - intros domain target b' Hh. by inversion Hh.
Qed.

End meaning.

(** ** Masks *)

Lemma shift_mask_testbit w p v i :
  0 ≤ p ≤ w → 0 ≤ v < 2 ^ w → 0 ≤ i →
  Z.testbit (Z.land v (shift_mask w p)) i = Z.testbit v i && (w - p <=? i).
Proof.
  intros Hp Hv Hi. unfold shift_mask. destruct (Z.eqb_spec p 0) as [->|Hp0].
  - rewrite Z.land_0_r, Z.bits_0. destruct (Z.leb_spec (w - 0) i); [|by rewrite andb_false_r].
    by rewrite (testbit_high v w) by lia.
  - rewrite !Z.land_spec, Z.shiftl_spec by lia. destruct (Z.ltb_spec i w) as [Hlt|Hge].
    + rewrite !testbit_ones by lia. rewrite (proj2 (Z.leb_le 0 i)), (proj2 (Z.ltb_lt i w)) by lia.
      cbn [andb]. rewrite andb_true_r. f_equal.
      rewrite (proj2 (Z.ltb_lt (i - (w - p)) w)) by lia. rewrite andb_true_r. lia.
    + by rewrite (testbit_high v w) by lia.
Qed.

Lemma shift_mask_agree w p a b :
  0 ≤ p ≤ w → 0 ≤ a < 2 ^ w → 0 ≤ b < 2 ^ w →
  (Z.land a (shift_mask w p) =? Z.land b (shift_mask w p)) = true ↔
    ∀ i, w - p ≤ i < w → Z.testbit a i = Z.testbit b i.
Proof.
  intros Hp Ha Hb. rewrite Z.eqb_eq. split.
  - intros Heq i Hi. apply (f_equal (λ v, Z.testbit v i)) in Heq. cbn in Heq.
    rewrite !shift_mask_testbit in Heq by lia. rewrite (proj2 (Z.leb_le _ _)) in Heq by lia.
    by rewrite !andb_true_r in Heq.
  - intros Hag. apply Z.bits_inj'. intros i Hi. rewrite !shift_mask_testbit by lia.
    destruct (Z.leb_spec (w - p) i); [|by rewrite !andb_false_r]. rewrite !andb_true_r.
    destruct (decide (i < w)) as [Hlt|Hge]; [apply Hag; lia|]. by rewrite !(testbit_high _ w) by lia.
Qed.

Lemma address_matches_spec a base p4 p6 :
  ip_valid a → ip_valid base → 0 ≤ p4 ≤ 32 → 0 ≤ p6 ≤ 128 →
  address_matches a base p4 p6 = true ↔ in_block a base p4 p6.
Proof.
  unfold in_block, agree_on_prefix, ip_width. intros Ha Hb H4 H6.
  destruct a as [a|a], base as [b|b]; cbn [address_matches same_family Cidr.max_prefix ip_bits ip_valid] in *.
  - unfold v4_in_network. rewrite shift_mask_agree by done. naive_solver.
  - naive_solver.
  - naive_solver.
  - unfold v6_in_network. rewrite shift_mask_agree by done. naive_solver.
Qed.

(** ** The evaluation finds the meaning *)

(** Only errors end the evaluation of a mechanism early. *)
Lemma count_if_empty_error {T} (answer : list T) b b' o : count_if_empty answer b = (b', Some o) → o = PermError.
Proof. destruct answer; [|done]. unfold count_if_empty, count_void. case_match; congruence. Qed.

Lemma look_up_error ctx name judge b log b' log' o :
  look_up ctx name judge b log = (b', log', inl o) → is_error o = true.
Proof.
  unfold look_up. destruct (addresses (dns ctx) log name) as [found|]; [|by intros [= _ _ <-]].
  destruct (count_if_empty found b) as [b1 [o1|]] eqn:Ec; [|done]. apply count_if_empty_error in Ec as ->.
  by intros [= _ _ <-].
Qed.

Lemma mx_loop_error ctx exchangers judge : ∀ b log b' log' o,
  mx_loop ctx exchangers judge b log = (b', log', inl o) → is_error o = true.
Proof.
  induction exchangers as [|e exchangers IH]; intros b log b' log' o; cbn [mx_loop]; [done|].
  destruct (look_up ctx e judge b log) as [[b1 log1] [o1|[]]] eqn:El; [|done|apply IH].
  intros [= _ _ <-]. by eapply look_up_error.
Qed.

Lemma eval_mechanism_error check ctx domain m b log b' log' o :
  eval_mechanism check ctx domain m b log = Some (b', log', inl o) → is_error o = true.
Proof.
  destruct m as [|n p|n p|target p4 p6|target p4 p6|spec|spec|target]; cbn [eval_mechanism]; try done.
  all: destruct (consume b) as [b1|]; [|by intros [= _ _ <-]].
  1, 2, 3: match goal with |- context [expand_macro ?s ?i ?d ?sd ?h] =>
    destruct (expand_macro s i d sd h) as [[name|e]|] eqn:He;
    [|apply expand_macro_error in He as ->; by intros [= _ _ <-]|done] end.
  - intros [= Hl]. by eapply look_up_error.
  - destruct (mx (dns ctx) log name) as [exchangers|]; [|by intros [= _ _ <-]].
    destruct (count_if_empty exchangers b1) as [b2 [o1|]] eqn:Ec.
    + apply count_if_empty_error in Ec as ->. by intros [= _ _ <-].
    + intros [= Hl]. by eapply mx_loop_error.
  - destruct (descend check ctx name b1 log) as [[[b2 log2] []]|]; cbn; try done; by intros [= _ _ <-].
  - intros [= Hl]. by eapply look_up_error.
  - done.
Qed.

Section refinement.
Context (z : Zone) (ip0 : IpAddr) (sender0 helo0 : list Z).
Context (Hzone : zone_valid z) (Hip : ip_valid ip0).

(** No [exists] of a published record has a macro in its domain. *)
Definition plain_exists : Prop :=
  ∀ domain r q spec, published z domain r → (q, Exists spec) ∈ directives r → contains PERCENT spec = false.

Let ctx := mkContext (still z) ip0 sender0 helo0.

Lemma look_up_meaning name judge b log b' log' r :
  look_up ctx name judge b log = (b', log', inr r) →
  ∃ found, zone_addresses z name = Some found ∧ r = judge found.
Proof.
  unfold look_up. cbn [dns ctx still addresses]. destruct (zone_addresses z name) as [found|]; [|done].
  destruct (count_if_empty found b) as [b1 [o|]]; [done|]. intros [= _ _ <-]. by exists found.
Qed.

Lemma mx_loop_meaning exchangers judge : ∀ b log b' log' r,
  mx_loop ctx exchangers judge b log = (b', log', inr r) →
  r = true ↔ ∃ e found, e ∈ exchangers ∧ zone_addresses z e = Some found ∧ judge found = true.
Proof.
  induction exchangers as [|e exchangers IH]; intros b log b' log' r; cbn [mx_loop].
  { intros [= _ _ <-]. split; [done|]. set_solver. }
  destruct (look_up ctx e judge b log) as [[b1 log1] [o|[]]] eqn:El; [done|..];
    apply look_up_meaning in El as (found & Hf & Hj).
  - intros [= _ _ <-]. split; [|done]. intros _. exists e, found. split; [set_solver|]. by split.
  - intros Hl. rewrite (IH _ _ _ _ _ Hl). split; intros (e' & found' & Hin & Hf' & Hj').
    + exists e', found'. split; [set_solver|done].
    + apply elem_of_cons in Hin as [->|Hin]; [simplify_eq; congruence|]. by exists e', found'.
Qed.

Lemma judge_meaning name found p4 p6 :
  zone_addresses z name = Some found → 0 ≤ p4 ≤ 32 → 0 ≤ p6 ≤ 128 →
  existsb (λ a, address_matches ip0 a p4 p6) found = true ↔ ∃ a, a ∈ found ∧ in_block ip0 a p4 p6.
Proof.
  intros Hf H4 H6. rewrite existsb_exists. setoid_rewrite <-list_elem_of_In.
  split; intros (a & Ha & Hm); exists a; (split; [done|]); apply address_matches_spec in Hm || apply address_matches_spec;
    try done; by eapply Hzone.
Qed.

Context (check : CheckContext → list Z → Budget → Log → option (Budget * Log * SpfOutcome)).
Hypothesis check_meaning : ∀ domain b log b' log' o,
  check ctx domain b log = Some (b', log', o) → is_error o = false → verdict z ip0 sender0 helo0 domain o.

Lemma eval_mechanism_meaning domain m b log b' log' r :
  mechanism_valid m → (∀ spec, m = Exists spec → contains PERCENT spec = false) →
  eval_mechanism check ctx domain m b log = Some (b', log', inr r) →
  holds z ip0 sender0 helo0 domain m r.
Proof.
  intros Hm Hex. destruct m as [|n p|n p|target p4 p6|target p4 p6|spec|spec|target]; cbn [eval_mechanism].
  1: intros [= _ _ <-]; constructor.
  1: { intros [= _ _ <-]. constructor. cbn in Hm. cbn [ip ctx]. destruct ip0 as [v4|v6].
       - exact (address_matches_spec (V4 v4) (V4 n) p 128 Hip (proj1 Hm) (proj2 Hm) ltac:(lia)).
       - split; [done|]. by intros [? _]. }
  1: { intros [= _ _ <-]. constructor. cbn in Hm. cbn [ip ctx]. destruct ip0 as [v4|v6].
       - split; [done|]. by intros [? _].
       - exact (address_matches_spec (V6 v6) (V6 n) 32 p Hip (proj1 Hm) ltac:(lia) (proj2 Hm)). }
  all: destruct (consume b) as [b1|]; [|done]; cbn [ip sender helo ctx].
  1, 2, 3: match goal with |- context [expand_macro ?s ?i ?d ?sd ?h] =>
    destruct (expand_macro s i d sd h) as [[name|e]|] eqn:He; [|done..] end.
  - cbn in Hm. intros Heq. injection Heq as Hl. apply look_up_meaning in Hl as (found & Hf & ->).
    eapply holds_a; [done|done|]. exact (judge_meaning name found p4 p6 Hf (proj1 Hm) (proj2 Hm)).
  - cbn in Hm. change (mx (dns ctx) log name) with (zone_mx z name). destruct (zone_mx z name) as [exchangers|] eqn:Emx; [|done].
    destruct (count_if_empty exchangers b1) as [b2 [o|]]; [done|]. intros Heq. injection Heq as Hl.
    apply mx_loop_meaning in Hl. eapply holds_mx; [done|done|]. rewrite Hl. split.
    + intros (e & found & Hin & Hf & Hj). apply (judge_meaning e found p4 p6 Hf (proj1 Hm) (proj2 Hm)) in Hj as (a & Ha & Hb).
      by exists e, found, a.
    + intros (e & found & a & Hin & Hf & Ha & Hb). exists e, found. split; [done|]. split; [done|].
      apply (judge_meaning e found p4 p6 Hf (proj1 Hm) (proj2 Hm)). by exists a.
  - unfold descend. destruct (check _ _ _ _) as [[[b2 log2] o]|] eqn:Ec; cbn; [|done].
    intros Heq. assert (Hr : is_error o = false ∧ o ≠ None_ ∧ r = bool_decide (o = Pass)).
    { by destruct o; simplify_eq. }
    destruct Hr as (Ho & Hne & ->). eapply holds_include; [done| |done|done]. by eapply check_meaning.
  - intros Heq. injection Heq as Hl. apply look_up_meaning in Hl as (found & Hf & ->).
    eapply holds_exists; [|done]. unfold names, expand_macro. by rewrite (Hex spec eq_refl).
  - intros [= _ _ <-]. constructor.
Qed.

Lemma eval_directives_meaning domain ds : ∀ b log b' log' r,
  Forall (λ d, mechanism_valid d.2) ds → (∀ q spec, (q, Exists spec) ∈ ds → contains PERCENT spec = false) →
  eval_directives check ctx domain ds b log = Some (b', log', r) →
  match r with
  | inl o => is_error o = false → decided z ip0 sender0 helo0 domain ds (Some o)
  | inr _ => decided z ip0 sender0 helo0 domain ds None
  end.
Proof.
  induction ds as [|[q m] ds IH]; intros b log b' log' r Hv Hex; cbn [eval_directives].
  { intros [= _ _ <-]. constructor. }
  apply Forall_cons in Hv as [Hm Hv].
  destruct (eval_mechanism check ctx domain m b log) as [[[b1 log1] r1]|] eqn:Em; cbn [mbind option_bind]; [|done].
  assert (Hex1 : ∀ spec, m = Exists spec → contains PERCENT spec = false).
  { intros spec ->. apply (Hex q). set_solver. }
  destruct r1 as [o|[]].
  - apply eval_mechanism_error in Em. intros [= _ _ <-]. congruence.
  - intros [= _ _ <-] _. constructor. by eapply eval_mechanism_meaning.
  - intros Hl. apply IH in Hl; [|done|intros q' spec Hin; apply (Hex q'); set_solver].
    apply eval_mechanism_meaning in Em; [|done..].
    destruct r as [o|]; [intros Ho|]; eapply decided_miss; eauto.
Qed.

End refinement.

Lemma check_host_inner_meaning z ip0 sender0 helo0 fuel : zone_valid z → ip_valid ip0 → plain_exists z →
  ∀ domain b log b' log' o,
  check_host_inner fuel (mkContext (still z) ip0 sender0 helo0) domain b log = Some (b', log', o) →
  is_error o = false → verdict z ip0 sender0 helo0 domain o.
Proof.
  intros Hz Hip Hplain. induction fuel as [|fuel IH]; intros domain b log b' log' o; cbn [check_host_inner].
  { destruct (_ <=? _); [|done]. by intros [= _ _ <-]. }
  destruct (_ <=? _); [by intros [= _ _ <-]|]. unfold fetch_record. cbn [dns still txt].
  destruct (zone_txt z domain) as [texts|] eqn:Et; [|by intros [= _ _ <-]].
  destruct (count_if_empty texts b) as [b1 [stop|]] eqn:Ec.
  { apply count_if_empty_error in Ec as ->. by intros [= _ _ <-]. }
  destruct (List.filter is_spf texts) as [|text [|]] eqn:Ef;
    [intros [= _ _ <-] _; by eapply verdict_none| |by intros [= _ _ <-]].
  destruct (parse text) as [record|] eqn:Ep; [|by intros [= _ _ <-]].
  assert (Hpub : published z domain record) by (by exists texts, text).
  destruct (eval_directives _ _ _ _ _ _) as [[[b2 log2] r]|] eqn:Ed; cbn [mbind option_bind]; [|done].
  apply (eval_directives_meaning z ip0 sender0 helo0 Hz Hip _ IH) in Ed;
    [|by eapply parse_valid|intros q spec Hin; by eapply Hplain].
  destruct r as [o1|[]].
  - intros [= _ _ <-] Ho. eapply verdict_directive; [done|]. by apply Ed.
  - unfold eval_redirect. destruct (redirect record) as [spec|] eqn:Er.
    2: { intros [= _ _ <-] _. by eapply verdict_default. }
    destruct (consume b2) as [b3|]; [|by intros [= _ _ <-]]. cbn [ip sender helo].
    destruct (expand_macro _ _ _ _ _) as [[target|e]|] eqn:He;
      [|apply expand_macro_error in He as ->; by intros [= _ _ <-]|done].
    unfold descend. destruct (check_host_inner _ _ _ _ _) as [[[b4 log4] o2]|] eqn:En; cbn [mbind option_bind]; [|done].
    intros [= _ _ <-]. destruct (decide (o2 = None_)) as [|Hne]; [done|]. intros Ho.
    eapply verdict_redirect; try done. by eapply IH.
Qed.


(** ** Examples *)

Definition example_zone (text : list Z) (known : list Z) : Zone :=
  mkZone (λ _, Some [text]) (λ name, Some (if str_eqb name known then [V4 1] else [])) (λ _, Some []).

Lemma example_zone_valid text known : zone_valid (example_zone text known).
Proof.
  intros name found a [= <-]. destruct (str_eqb name known); intros Ha; [|set_solver].
  apply list_elem_of_singleton in Ha as ->. cbn. lia.
Qed.

Definition EXAMPLE_POLICY : list Z := lit "v=spf1 ip4:192.0.2.0/24 -all".

Lemma example_policy_plain : plain_exists (example_zone EXAMPLE_POLICY []).
Proof.
  intros domain r q spec (texts & text & Ht & Hf & Hp) Hin. injection Ht as <-.
  assert (Heq : List.filter is_spf [EXAMPLE_POLICY] = [EXAMPLE_POLICY]) by (vm_compute; reflexivity).
  rewrite Heq in Hf. injection Hf as <-.
  assert (Hr : parse EXAMPLE_POLICY = Ok (mkRecord [(QPass, Ip4 3221225984 24); (QFail, All)] None))
    by (vm_compute; reflexivity).
  rewrite Hr in Hp. injection Hp as <-. cbn in Hin. rewrite !elem_of_cons in Hin.
  destruct Hin as [?|[?|?%elem_of_nil]]; done.
Qed.


(** A policy that authorises its senders by [exists] on their address, and
    what is looked up for it: the macro as it stands. The policy passes the
    sender, and the evaluation fails them. *)
Theorem exists_macro_not_expanded :
  let text := lit "v=spf1 exists:%{i}.ok.example -all" in
  let z := example_zone text (lit "192.0.2.1.ok.example") in
  (∃ log, check_host (still z) (V4 3221225985) (lit "example.org") [] [] = Some (log, Fail_) ∧
    (QAddresses (lit "%{i}.ok.example"), true) ∈ log) ∧
  verdict z (V4 3221225985) [] [] (lit "example.org") Pass.
Proof.
  intros text z. split.
  - eexists. split; [vm_compute; reflexivity|]. vm_compute. set_solver.
  - assert (Hp : parse text = Ok (mkRecord [(QPass, Exists (lit "%{i}.ok.example")); (QFail, All)] None))
      by (vm_compute; reflexivity).
    eapply verdict_directive.
    + exists [text], text. split; [done|]. split; [vm_compute; reflexivity|exact Hp].
    + cbn [directives]. apply (decided_hit z (V4 3221225985) [] [] (lit "example.org") QPass).
      apply (holds_exists z (V4 3221225985) [] [] (lit "example.org") _ (lit "192.0.2.1.ok.example") [V4 1]);
        vm_compute; reflexivity.
Qed.
