(* ===== verification/Admission.v ===== *)
(** * Shared counters with guards

    The counters that bound what one client or one account can hold, each
    released by dropping a guard: [PerIp] (src/src/smtp/per_ip/mod.rs),
    [PerAccount] (src/src/net/per_account_conn/mod.rs), [Listener]
    (src/src/net/conn_limit/mod.rs) and [MemoryBudget]
    (src/src/smtp/memory_budget/mod.rs). Each is verified against the list of
    guards alive: the counters are exactly what the guards hold, never pass
    their caps, and are empty once every guard is gone. A mutex makes each
    operation one step, so an interleaving of connections is a sequence of
    steps. *)
From S2P Require Import Prelude RustStd IpNet.
Open Scope Z_scope.

(** ** Counts kept in a map *)

Section counts.
Context {K : Type} `{Countable K}.

(** What the map says of [k]. *)
Definition count_of (m : gmap K Z) (k : K) : Z := default 0 (m !! k).

(** [counts.insert(k, current + w)]. *)
Definition bump (m : gmap K Z) (k : K) (w : Z) : gmap K Z := <[k := count_of m k + w]> m.

(** The release every guard does: subtract, and forget a count of zero. *)
Definition unbump (m : gmap K Z) (k : K) (w : Z) : gmap K Z :=
  match m !! k with
  | Some n =>
      let n := saturating_sub n w in
      if n =? 0 then delete k m else <[k := n]> m
  | None => m
  end.

End counts.

(** ** Connections per client *)

Module PerIp.

Record State := mkState { cap : Z; counts : gmap IpAddr Z }.

(** [Slot]: the client counted, [None] for a trusted peer. *)
Record Slot := mkSlot { slot_ip : option IpAddr }.

Definition new (cap : Z) : State := mkState (Z.max cap 1) ∅.

Definition try_acquire (s : State) (ip : IpAddr) (trusted : list Cidr.t) : option (Slot * State) :=
  if existsb (λ cidr, Cidr.contains cidr ip) trusted then Some (mkSlot None, s)
  else
    let ip := client_key ip in
    let current := count_of (counts s) ip in
    if cap s <=? current then None
    else Some (mkSlot (Some ip), mkState (cap s) (bump (counts s) ip 1)).

Definition drop_slot (s : State) (slot : Slot) : State :=
  match slot_ip slot with
  | None => s
  | Some ip => mkState (cap s) (unbump (counts s) ip 1)
  end.

End PerIp.

(** ** Connections per account *)

Module PerAccount.

Inductive Refusal := PerAccountPerIp | PerAccountTotal.

Record State := mkState {
  per_ip_cap : Z;
  total_cap : Z;
  by_pair : gmap (list Z * IpAddr) Z;
  by_account : gmap (list Z) Z
}.

Record Slot := mkSlot { slot_account : list Z; slot_ip : option IpAddr }.

Definition new (per_ip_cap total_cap : Z) : State :=
  mkState (Z.max per_ip_cap 1) (Z.max total_cap 1) ∅ ∅.

Definition try_acquire (s : State) (account : list Z) (ip : IpAddr)
    : result Refusal (Slot * State) :=
  let current_pair := count_of (by_pair s) (account, ip) in
  if per_ip_cap s <=? current_pair then Err PerAccountPerIp
  else
    let current_total := count_of (by_account s) account in
    if total_cap s <=? current_total then Err PerAccountTotal
    else Ok (mkSlot account (Some ip),
             mkState (per_ip_cap s) (total_cap s)
               (bump (by_pair s) (account, ip) 1) (bump (by_account s) account 1)).

Definition drop_slot (s : State) (slot : Slot) : State :=
  match slot_ip slot with
  | None => s
  | Some ip =>
      mkState (per_ip_cap s) (total_cap s)
        (unbump (by_pair s) (slot_account slot, ip) 1)
        (unbump (by_account s) (slot_account slot) 1)
  end.

End PerAccount.

(** ** A listener's two caps *)

Module Listener.

Inductive Refusal := ListenerFull | ClientFull.

(** The permits left of the listener's semaphore, and the per-client counter. *)
Record State := mkState { permits : Z; clients : PerIp.State }.

Record AdmittedConn := mkAdmitted { admitted_slot : PerIp.Slot }.

Definition MAX_CONNECTIONS : Z := 1000000.

Definition connection_semaphore (requested : Z) : Z := Z.min requested MAX_CONNECTIONS.

Definition new (listener per_client : Z) : State :=
  mkState (connection_semaphore listener) (PerIp.new per_client).

(** A refusal by the per-client cap drops the permit taken just before. *)
Definition admit_peer (s : State) (peer : IpAddr) : result Refusal (AdmittedConn * State) :=
  if permits s <=? 0 then Err ListenerFull
  else
    match PerIp.try_acquire (clients s) peer [] with
    | None => Err ClientFull
    | Some (slot, clients) => Ok (mkAdmitted slot, mkState (permits s - 1) clients)
    end.

Definition drop_admitted (s : State) (a : AdmittedConn) : State :=
  mkState (permits s + 1) (PerIp.drop_slot (clients s) (admitted_slot a)).

End Listener.

(** ** The memory budget for message bodies *)

Module MemoryBudget.

(** [MemoryBudget] with its [Usage]. *)
Record t := mk {
  cap : Z;
  client_share : Z;
  used : Z;
  per_client : gmap IpAddr Z
}.

Definition with_cap (cap : Z) : t := mk cap cap 0 ∅.
Definition unlimited : t := with_cap 0.

Definition with_client_share (b : t) (share : Z) : t :=
  mk (cap b) (Z.min share (cap b)) (used b) (per_client b).

Definition try_reserve_for (b : t) (client : option IpAddr) (bytes : Z) : result Z t :=
  if cap b =? 0 then Ok b
  else if cap b <? saturating_add u64_max (used b) bytes then Err bytes
  else
    match client with
    | Some client =>
        let held := count_of (per_client b) client in
        if client_share b <? saturating_add u64_max held bytes then Err bytes
        else Ok (mk (cap b) (client_share b) (used b + bytes)
                   (bump (per_client b) client bytes))
    | None => Ok (mk (cap b) (client_share b) (used b + bytes) (per_client b))
    end.

Definition release_for (b : t) (client : option IpAddr) (bytes : Z) : t :=
  if (cap b =? 0) || (bytes =? 0) then b
  else
    mk (cap b) (client_share b) (saturating_sub (used b) bytes)
      (match client with
       | Some client => unbump (per_client b) client bytes
       | None => per_client b
       end).

(** [Reservation]; [attached] says whether it holds its [Arc<MemoryBudget>]. *)
Record Reservation := mkReservation { attached : bool; client : option IpAddr; bytes : Z }.

Definition none : Reservation := mkReservation false None 0.

Definition try_grow (b : t) (r : Reservation) (peer : option IpAddr) (n : Z)
    : result Z (t * Reservation) :=
  let key := client_key <$> peer in
  let? b := try_reserve_for b key n in
  Ok (b, mkReservation true (if attached r then client r else key)
           (saturating_add u64_max (bytes r) n)).

(** [self.absorb(other)]; the emptied [other] is dropped holding nothing. *)
Definition absorb (self other : Reservation) : Reservation :=
  mkReservation (attached self || attached other)
    (if attached self then client self else client other)
    (saturating_add u64_max (bytes self) (bytes other)).

(** [Drop]. *)
Definition drop_reservation (b : t) (r : Reservation) : t :=
  if attached r then release_for b (client r) (bytes r) else b.

End MemoryBudget.

(** ** Theory: a map tracks what guards hold *)

Section tracks.
Context {K : Type} `{Countable K}.
Implicit Types (m : gmap K Z) (hs : list (K * Z)).

(** What a list of holdings gives [k] in total. *)
Fixpoint held hs (k : K) : Z :=
  match hs with
  | [] => 0
  | (k', w) :: hs => (if decide (k' = k) then w else 0) + held hs k
  end.

Definition tracks m hs : Prop := ∀ k, count_of m k = held hs k.

(** No count of zero is remembered. *)
Definition positive m : Prop := ∀ k n, m !! k = Some n → 0 < n.

Lemma held_app hs1 hs2 k : held (hs1 ++ hs2) k = held hs1 k + held hs2 k.
Proof. induction hs1 as [|[k' w] hs1 IH]; simpl; [done|]. rewrite IH. lia. Qed.

Lemma held_nonneg hs k : Forall (λ h, 0 ≤ h.2) hs → 0 ≤ held hs k.
Proof. induction 1 as [|[k' w] hs Hw _ IH]; simpl in *; [lia|]. case_decide; lia. Qed.

Lemma tracks_nil : tracks ∅ [].
Proof. intros k. unfold count_of. by rewrite lookup_empty. Qed.

Lemma tracks_bump m hs k w : tracks m hs → tracks (bump m k w) ((k, w) :: hs).
Proof.
  intros Ht k'. unfold bump, count_of. simpl. case_decide as Hk.
  - subst k'. rewrite lookup_insert_eq. simpl. rewrite <- Ht. unfold count_of. lia.
  - rewrite lookup_insert_ne by done. apply Ht.
Qed.

Lemma positive_bump m k w : positive m → 0 < w → positive (bump m k w).
Proof.
  intros Hp Hw k' n. unfold bump. rewrite lookup_insert. case_decide; [|apply Hp].
  intros [= <-]. unfold count_of. destruct (m !! k) as [x|] eqn:E; simpl; [|lia].
  apply Hp in E. lia.
Qed.

Lemma tracks_unbump m hs1 hs2 k w :
  Forall (λ h, 0 ≤ h.2) (hs1 ++ (k, w) :: hs2) → tracks m (hs1 ++ (k, w) :: hs2) →
  tracks (unbump m k w) (hs1 ++ hs2).
Proof.
  intros Hnn Ht k'. pose proof (Ht k') as Hk'. pose proof (Ht k) as Hk.
  rewrite held_app in *. simpl in *. rewrite decide_True in Hk by done.
  assert (Hnn' : 0 ≤ held hs1 k + held hs2 k ∧ 0 ≤ w).
  { apply Forall_app in Hnn as [H1 H2]. apply Forall_cons in H2 as [H2 H3]. simpl in H2.
    pose proof (held_nonneg hs1 k H1). pose proof (held_nonneg hs2 k H3). lia. }
  unfold unbump. destruct (m !! k) as [n|] eqn:Hm; unfold count_of in *; rewrite ?Hm in Hk; simpl in Hk.
  - cbv zeta. unfold saturating_sub. case_decide as Hkk.
    + subst k'. rewrite Hm in Hk'. simpl in Hk'. destruct (Z.eqb_spec (Z.max (n - w) 0) 0).
      * rewrite lookup_delete_eq. simpl. lia.
      * rewrite lookup_insert_eq. simpl. lia.
    + destruct (Z.eqb_spec (Z.max (n - w) 0) 0).
      * rewrite lookup_delete_ne by done. lia.
      * rewrite lookup_insert_ne by done. lia.
  - case_decide as Hkk; [subst k'; rewrite Hm in *; simpl in *|]; lia.
Qed.

Lemma positive_unbump m k w : positive m → positive (unbump m k w).
Proof.
  intros Hp k' n. unfold unbump. destruct (m !! k) as [x|]; [|apply Hp]. cbv zeta.
  destruct (Z.eqb_spec (saturating_sub x w) 0).
  - rewrite lookup_delete_Some. intros [_ ?]. by eapply Hp.
  - rewrite lookup_insert. case_decide; [|apply Hp]. intros [= <-].
    unfold saturating_sub in *. lia.
Qed.

Lemma tracks_empty m : tracks m [] → positive m → m = ∅.
Proof.
  intros Ht Hp. apply map_eq. intros k. rewrite lookup_empty.
  destruct (m !! k) as [n|] eqn:E; [|done]. exfalso. specialize (Ht k).
  unfold count_of in Ht. rewrite E in Ht. simpl in Ht. apply Hp in E. lia.
Qed.

Lemma bump_other m k w k' : k ≠ k' → count_of (bump m k w) k' = count_of m k'.
Proof. intros Hne. unfold count_of, bump. by rewrite lookup_insert_ne. Qed.

Lemma bump_same m k w : count_of (bump m k w) k = count_of m k + w.
Proof. unfold count_of at 1, bump. by rewrite lookup_insert_eq. Qed.

End tracks.

(** ** Connections per client: the counter is the live slots *)

Section per_ip.
Import PerIp.
Context (cap0 : Z) (trusted : list Cidr.t).

(** A listener and the slots its connections hold. *)
Definition world : Type := State * list Slot.

Inductive per_ip_step : world → world → Prop :=
| step_accept s slots ip slot s' :
    try_acquire s ip trusted = Some (slot, s') →
    per_ip_step (s, slots) (s', slot :: slots)
| step_refuse s slots ip :
    try_acquire s ip trusted = None → per_ip_step (s, slots) (s, slots)
| step_close s slots1 slot slots2 :
    per_ip_step (s, slots1 ++ slot :: slots2) (drop_slot s slot, slots1 ++ slots2).

Definition per_ip_reachable (w : world) : Prop :=
  rtc per_ip_step (new cap0, []) w.

Definition slot_holdings (slots : list Slot) : list (IpAddr * Z) :=
  omap (λ s, (λ ip, (ip, 1)) <$> slot_ip s) slots.

(** The live slots counted for the client [k]. *)
Definition live (slots : list Slot) (k : IpAddr) : Z := held (slot_holdings slots) k.

Definition per_ip_inv (w : world) : Prop :=
  cap w.1 = Z.max cap0 1 ∧ tracks (counts w.1) (slot_holdings w.2) ∧
  positive (counts w.1) ∧ ∀ k, live w.2 k ≤ cap w.1.

Lemma slot_holdings_nonneg slots : Forall (λ h, 0 ≤ h.2) (slot_holdings slots).
Proof.
  induction slots as [|[[ip|]] slots IH]; simpl; [constructor| |done].
  constructor; [simpl; lia|done].
Qed.

Lemma slot_holdings_app s1 s2 :
  slot_holdings (s1 ++ s2) = slot_holdings s1 ++ slot_holdings s2.
Proof. apply omap_app. Qed.

Lemma try_acquire_spec s ip slot s' :
  try_acquire s ip trusted = Some (slot, s') →
  s' = s ∧ slot = mkSlot None ∧ existsb (λ c, Cidr.contains c ip) trusted = true ∨
  existsb (λ c, Cidr.contains c ip) trusted = false ∧
  count_of (counts s) (client_key ip) < cap s ∧ slot = mkSlot (Some (client_key ip)) ∧
  s' = mkState (cap s) (bump (counts s) (client_key ip) 1).
Proof.
  unfold try_acquire. destruct (existsb _ trusted) eqn:E; [intros [= <- <-]; auto|].
  cbv zeta. destruct (Z.leb_spec (cap s) (count_of (counts s) (client_key ip))); [done|].
  intros [= <- <-]. right. split_and!; done.
Qed.

Lemma per_ip_step_inv w w' : per_ip_step w w' → per_ip_inv w → per_ip_inv w'.
Proof.
  intros Hstep (Hcap & Ht & Hp & Hle). destruct Hstep as [s slots ip slot s' Ha| |s sl1 slot sl2];
    simpl in *; [|done|].
  - apply try_acquire_spec in Ha as [(-> & -> & _)|(_ & Hlt & -> & ->)]; [done|].
    split_and!; simpl; [done|by apply tracks_bump|by apply positive_bump|].
    intros k. unfold live in *. simpl. specialize (Hle k). rewrite (Ht (client_key ip)) in Hlt.
    case_decide as Hk; [subst k|]; lia.
  - unfold live in Hle. rewrite slot_holdings_app in Ht. setoid_rewrite slot_holdings_app in Hle.
    unfold per_ip_inv, live. simpl. setoid_rewrite slot_holdings_app.
    destruct slot as [[ip|]]; simpl in *; [|done].
    split_and!; simpl; [done| |by apply positive_unbump|].
    + eapply tracks_unbump; [|exact Ht]. apply Forall_app; split; [apply slot_holdings_nonneg|].
      constructor; [simpl; lia|apply slot_holdings_nonneg].
    + intros k. specialize (Hle k). rewrite held_app in *. simpl in *. case_decide; lia.
Qed.

Lemma per_ip_reachable_inv w : per_ip_reachable w → per_ip_inv w.
Proof.
  intros Hr. unfold per_ip_reachable in Hr.
  refine (rtc_ind_r (λ w, per_ip_inv w) (new cap0, []) _ _ w Hr).
  - split_and!; simpl; [done|apply tracks_nil|by intros k n; rewrite lookup_empty|].
    intros k. unfold live. simpl. lia.
  - intros w1 w2 _ Hs. by apply per_ip_step_inv.
Qed.

End per_ip.

(** ** Connections per account: both counters are the live slots *)

Section per_account.
Import PerAccount.
Context (per_ip0 total0 : Z).

Definition account_world : Type := State * list Slot.

Inductive per_account_step : account_world → account_world → Prop :=
| account_login s slots account ip slot s' :
    try_acquire s account ip = Ok (slot, s') →
    per_account_step (s, slots) (s', slot :: slots)
| account_refuse s slots account ip r :
    try_acquire s account ip = Err r → per_account_step (s, slots) (s, slots)
| account_close s slots1 slot slots2 :
    per_account_step (s, slots1 ++ slot :: slots2) (drop_slot s slot, slots1 ++ slots2).

Definition per_account_reachable (w : account_world) : Prop :=
  rtc per_account_step (new per_ip0 total0, []) w.

Definition pair_holdings (slots : list Slot) : list (list Z * IpAddr * Z) :=
  omap (λ s, (λ ip, (slot_account s, ip, 1)) <$> slot_ip s) slots.
Definition account_holdings (slots : list Slot) : list (list Z * Z) :=
  omap (λ s, (λ _, (slot_account s, 1)) <$> slot_ip s) slots.

Definition live_pair (slots : list Slot) (account : list Z) (ip : IpAddr) : Z :=
  held (pair_holdings slots) (account, ip).
Definition live_account (slots : list Slot) (account : list Z) : Z :=
  held (account_holdings slots) account.

Definition per_account_inv (w : account_world) : Prop :=
  per_ip_cap w.1 = Z.max per_ip0 1 ∧ total_cap w.1 = Z.max total0 1 ∧
  tracks (by_pair w.1) (pair_holdings w.2) ∧ positive (by_pair w.1) ∧
  tracks (by_account w.1) (account_holdings w.2) ∧ positive (by_account w.1) ∧
  (∀ account ip, live_pair w.2 account ip ≤ per_ip_cap w.1) ∧
  (∀ account, live_account w.2 account ≤ total_cap w.1).

Lemma pair_holdings_app s1 s2 :
  pair_holdings (s1 ++ s2) = pair_holdings s1 ++ pair_holdings s2.
Proof. apply omap_app. Qed.
Lemma account_holdings_app s1 s2 :
  account_holdings (s1 ++ s2) = account_holdings s1 ++ account_holdings s2.
Proof. apply omap_app. Qed.

Lemma pair_holdings_nonneg slots : Forall (λ h, 0 ≤ h.2) (pair_holdings slots).
Proof.
  induction slots as [|[a [ip|]] slots IH]; simpl; [constructor| |done].
  constructor; [simpl; lia|done].
Qed.
Lemma account_holdings_nonneg slots : Forall (λ h, 0 ≤ h.2) (account_holdings slots).
Proof.
  induction slots as [|[a [ip|]] slots IH]; simpl; [constructor| |done].
  constructor; [simpl; lia|done].
Qed.

Lemma account_acquire_spec s account ip slot s' :
  try_acquire s account ip = Ok (slot, s') →
  count_of (by_pair s) (account, ip) < per_ip_cap s ∧
  count_of (by_account s) account < total_cap s ∧ slot = mkSlot account (Some ip) ∧
  s' = mkState (per_ip_cap s) (total_cap s)
         (bump (by_pair s) (account, ip) 1) (bump (by_account s) account 1).
Proof. unfold try_acquire. cbv zeta. repeat int_test; intros [= <- <-]; done. Qed.

Lemma per_account_step_inv w w' :
  per_account_step w w' → per_account_inv w → per_account_inv w'.
Proof.
  intros Hstep (Hc1 & Hc2 & Hp & Hpp & Ha & Hpa & Hl1 & Hl2).
  destruct Hstep as [s slots account ip slot s' Hacq| |s sl1 slot sl2]; simpl in *; [|done|].
  - apply account_acquire_spec in Hacq as (Hlt1 & Hlt2 & -> & ->).
    rewrite (Hp (account, ip)) in Hlt1. rewrite (Ha account) in Hlt2.
    split_and!; simpl; try done; try (by apply tracks_bump); try (by apply positive_bump).
    + intros a i. specialize (Hl1 a i). unfold live_pair in *. simpl.
      case_decide as Hk; [injection Hk as <- <-|]; lia.
    + intros a. specialize (Hl2 a). unfold live_account in *. simpl.
      case_decide as Hk; [subst a|]; lia.
  - unfold live_pair, live_account in *.
    rewrite pair_holdings_app in Hp. rewrite account_holdings_app in Ha.
    setoid_rewrite pair_holdings_app in Hl1. setoid_rewrite account_holdings_app in Hl2.
    unfold per_account_inv, live_pair, live_account. simpl.
    setoid_rewrite pair_holdings_app. setoid_rewrite account_holdings_app.
    destruct slot as [account [ip|]]; simpl in *; [|by split_and!].
    split_and!; simpl; try done; try (by apply positive_unbump).
    + eapply tracks_unbump; [|exact Hp]. apply Forall_app; split; [apply pair_holdings_nonneg|].
      constructor; [simpl; lia|apply pair_holdings_nonneg].
    + eapply tracks_unbump; [|exact Ha]. apply Forall_app; split; [apply account_holdings_nonneg|].
      constructor; [simpl; lia|apply account_holdings_nonneg].
    + intros a i. specialize (Hl1 a i). rewrite held_app in *. simpl in *. case_decide; lia.
    + intros a. specialize (Hl2 a). rewrite held_app in *. simpl in *. case_decide; lia.
Qed.

Lemma per_account_reachable_inv w : per_account_reachable w → per_account_inv w.
Proof.
  intros Hr. unfold per_account_reachable in Hr.
  refine (rtc_ind_r (λ w, per_account_inv w) (new per_ip0 total0, []) _ _ w Hr).
  - split_and!; simpl; try done; try apply tracks_nil; try (by intros k n; rewrite lookup_empty).
    + intros a i. unfold live_pair. simpl. lia.
    + intros a. unfold live_account. simpl. lia.
  - intros w1 w2 _ Hs. by apply per_account_step_inv.
Qed.

End per_account.

(** ** The memory budget: what is used is what the reservations hold *)

Section memory.
Import MemoryBudget.

(** A reservation of the session whose client connects from the peer. *)
Notation claim := (option IpAddr * Reservation)%type.
Definition budget_world : Type := t * list claim.

(** What sessions do with their reservations, one mutex-protected call at a
    time: take an empty one, grow one with the session's own peer address,
    merge a chunk's into the body's, and drop one. *)
Inductive budget_step : budget_world → budget_world → Prop :=
| budget_open b cs peer : budget_step (b, cs) (b, (peer, none) :: cs)
| budget_grow b cs1 peer r cs2 n b' r' :
    0 ≤ n → try_grow b r peer n = Ok (b', r') →
    budget_step (b, cs1 ++ (peer, r) :: cs2) (b', cs1 ++ (peer, r') :: cs2)
| budget_refuse b cs1 peer r cs2 n e :
    0 ≤ n → try_grow b r peer n = Err e →
    budget_step (b, cs1 ++ (peer, r) :: cs2) (b, cs1 ++ (peer, r) :: cs2)
| budget_absorb b cs1 peer r1 cs2 r2 cs3 :
    budget_step (b, cs1 ++ (peer, r1) :: cs2 ++ (peer, r2) :: cs3)
                (b, cs1 ++ (peer, absorb r1 r2) :: cs2 ++ cs3)
| budget_drop b cs1 peer r cs2 :
    budget_step (b, cs1 ++ (peer, r) :: cs2) (drop_reservation b r, cs1 ++ cs2).

Context (cap0 share : Z).

Definition budget_reachable (w : budget_world) : Prop :=
  rtc budget_step (with_client_share (with_cap cap0) share, []) w.

(** Octets held in total and by one client. *)
Definition total_bytes (cs : list claim) : Z := foldr (λ c acc, bytes c.2 + acc) 0 cs.
Definition client_bytes (cs : list claim) (k : IpAddr) : Z :=
  foldr (λ c acc, (if decide (client_key <$> c.1 = Some k) then bytes c.2 else 0) + acc) 0 cs.

Lemma total_bytes_app cs1 cs2 : total_bytes (cs1 ++ cs2) = total_bytes cs1 + total_bytes cs2.
Proof. induction cs1 as [|c cs1 IH]; simpl; [done|]. unfold total_bytes in *. simpl. lia. Qed.

Lemma client_bytes_app cs1 cs2 k :
  client_bytes (cs1 ++ cs2) k = client_bytes cs1 k + client_bytes cs2 k.
Proof. induction cs1 as [|c cs1 IH]; simpl; [done|]. unfold client_bytes in *. simpl. lia. Qed.

(** A reservation is accounted to its session's client, or holds nothing. *)
Definition claim_ok (c : claim) : Prop :=
  0 ≤ bytes c.2 ∧
  (if attached c.2 then client c.2 = client_key <$> c.1 else bytes c.2 = 0).

Definition budget_inv (w : budget_world) : Prop :=
  cap w.1 = cap0 ∧ client_share w.1 = Z.min share cap0 ∧
  Forall claim_ok w.2 ∧ used w.1 = total_bytes w.2 ∧ used w.1 ≤ cap0 ∧
  ∀ k, count_of (per_client w.1) k = client_bytes w.2 k ∧ client_bytes w.2 k ≤ Z.min share cap0.

Lemma total_bytes_nonneg cs : Forall claim_ok cs → 0 ≤ total_bytes cs.
Proof. induction 1 as [|c cs [Hc _] _ IH]; simpl; [done|]. unfold total_bytes in *. simpl. lia. Qed.

Lemma client_bytes_nonneg cs k : Forall claim_ok cs → 0 ≤ client_bytes cs k.
Proof.
  induction 1 as [|c cs [Hc _] _ IH]; simpl; [done|]. unfold client_bytes in *. simpl.
  case_decide; lia.
Qed.

Lemma client_bytes_le_total cs k : Forall claim_ok cs → client_bytes cs k ≤ total_bytes cs.
Proof.
  induction 1 as [|c cs [Hc _] _ IH]; simpl; [done|]. unfold client_bytes, total_bytes in *. simpl.
  case_decide; lia.
Qed.

Lemma client_bytes_cons c cs k :
  client_bytes (c :: cs) k =
    (if decide (client_key <$> c.1 = Some k) then bytes c.2 else 0) + client_bytes cs k.
Proof. done. Qed.
Lemma total_bytes_cons c cs : total_bytes (c :: cs) = bytes c.2 + total_bytes cs.
Proof. done. Qed.

Lemma total_bytes_perm cs1 cs2 : cs1 ≡ₚ cs2 → total_bytes cs1 = total_bytes cs2.
Proof. induction 1; rewrite ?total_bytes_cons in *; lia. Qed.

Lemma client_bytes_perm cs1 cs2 k : cs1 ≡ₚ cs2 → client_bytes cs1 k = client_bytes cs2 k.
Proof. induction 1; rewrite ?client_bytes_cons in *; lia. Qed.

Lemma budget_inv_perm b cs1 cs2 : cs1 ≡ₚ cs2 → budget_inv (b, cs1) → budget_inv (b, cs2).
Proof.
  intros Hp (Hcap & Hshare & Hok & Hused & Hle & Hcl). cbn [fst snd] in *.
  split_and!; cbn [fst snd]; try done.
  - by rewrite <-Hp.
  - by rewrite <-(total_bytes_perm _ _ Hp).
  - intros k. rewrite <-(client_bytes_perm _ _ k Hp). apply Hcl.
Qed.

Lemma budget_inv_none b peer cs : budget_inv (b, (peer, none) :: cs) ↔ budget_inv (b, cs).
Proof.
  unfold budget_inv. cbn [fst snd]. rewrite Forall_cons, total_bytes_cons. cbn [snd none bytes].
  assert (Hk : ∀ k, client_bytes ((peer, none) :: cs) k = client_bytes cs k).
  { intros k. rewrite client_bytes_cons. cbn [fst snd none bytes]. case_decide; lia. }
  assert (Hn : claim_ok (peer, none)) by (by split).
  setoid_rewrite Hk. rewrite Z.add_0_l. tauto.
Qed.

Hypothesis cap_range : 0 < cap0 < u64_max.

Lemma claim_ok_le_total cs1 c cs2 :
  Forall claim_ok (cs1 ++ c :: cs2) → 0 ≤ bytes c.2 ≤ total_bytes (cs1 ++ c :: cs2).
Proof.
  intros H. rewrite total_bytes_app. apply Forall_app in H as [H1 H2].
  apply Forall_cons in H2 as [[Hc _] H2]. simpl.
  pose proof (total_bytes_nonneg _ H1). pose proof (total_bytes_nonneg _ H2).
  unfold total_bytes in *. simpl. lia.
Qed.

Lemma try_grow_spec b r peer n b' r' :
  cap b = cap0 → client_share b ≤ cap0 → 0 ≤ n → try_grow b r peer n = Ok (b', r') →
  used b + n ≤ cap0 ∧
  (∀ k, client_key <$> peer = Some k → count_of (per_client b) k + n ≤ client_share b) ∧
  b' = mk (cap b) (client_share b) (used b + n)
         (match client_key <$> peer with
          | Some k => bump (per_client b) k n
          | None => per_client b
          end) ∧
  r' = mkReservation true (if attached r then client r else client_key <$> peer)
         (saturating_add u64_max (bytes r) n).
Proof.
  intros Hcap Hshare Hn. unfold try_grow, try_reserve_for, saturating_add. rewrite Hcap.
  destruct (cap0 =? 0) eqn:E0; [apply Z.eqb_eq in E0; lia|].
  destruct (cap0 <? Z.min (used b + n) u64_max) eqn:E1; [done|]. apply Z.ltb_ge in E1.
  destruct (client_key <$> peer) as [k|]; cbv zeta; simpl.
  - destruct (client_share b <? _) eqn:E2; [done|]. apply Z.ltb_ge in E2.
    intros [= <- <-]. split_and!; [lia| |done|done]. intros k' [= <-]. lia.
  - intros [= <- <-]. split_and!; [lia|done|done|done].
Qed.

Lemma budget_grow_inv b cs1 peer r cs2 n b' r' :
  0 ≤ n → try_grow b r peer n = Ok (b', r') →
  budget_inv (b, cs1 ++ (peer, r) :: cs2) → budget_inv (b', cs1 ++ (peer, r') :: cs2).
Proof.
  intros Hn Hgrow (Hcap & Hshare & Hok & Hused & Hle & Hcl). simpl in *.
  apply try_grow_spec in Hgrow as (Hfit & Hfits & -> & ->); [|done|lia|done].
  pose proof (claim_ok_le_total _ _ _ Hok) as Hb. simpl in Hb.
  assert (Hsat : saturating_add u64_max (bytes r) n = bytes r + n)
    by (unfold saturating_add; lia).
  rewrite Hsat. apply Forall_app in Hok as [Hok1 Hok2]. apply Forall_cons in Hok2 as [Hr Hok2].
  destruct Hr as [Hr0 Hr1]. simpl in Hr0, Hr1.
  rewrite total_bytes_app, total_bytes_cons in Hused.
  split_and!; simpl; try done; try lia.
  - apply Forall_app; split; [done|]. apply Forall_cons; split; [|done].
    split; simpl; [lia|]. destruct (attached r); done.
  - rewrite total_bytes_app, total_bytes_cons. simpl in *. lia.
  - intros k. destruct (Hcl k) as [Hk1 Hk2].
    rewrite client_bytes_app, client_bytes_cons in *. simpl in *.
    destruct (decide (client_key <$> peer = Some k)) as [Hp|Hp].
    + rewrite Hp, bump_same. specialize (Hfits k Hp). lia.
    + destruct (client_key <$> peer) as [k'|]; [|lia].
      rewrite bump_other by congruence. lia.
Qed.

Lemma budget_absorb_inv b cs1 peer r1 cs2 r2 cs3 :
  budget_inv (b, cs1 ++ (peer, r1) :: cs2 ++ (peer, r2) :: cs3) →
  budget_inv (b, cs1 ++ (peer, absorb r1 r2) :: cs2 ++ cs3).
Proof.
  intros (Hcap & Hshare & Hok & Hused & Hle & Hcl). simpl in *.
  assert (Hsum : bytes r1 + bytes r2 ≤ total_bytes (cs1 ++ (peer, r1) :: cs2 ++ (peer, r2) :: cs3)).
  { rewrite total_bytes_app, total_bytes_cons, total_bytes_app, total_bytes_cons. simpl.
    rewrite !Forall_app, !Forall_cons, Forall_app, Forall_cons in Hok.
    destruct Hok as (H1 & _ & H2 & _ & H3).
    apply total_bytes_nonneg in H1, H2, H3. lia. }
  rewrite Forall_app, Forall_cons, Forall_app, Forall_cons in Hok.
  destruct Hok as (H1 & [Hr1 Ha1] & H2 & [Hr2 Ha2] & H3). simpl in Hr1, Ha1, Hr2, Ha2.
  assert (Hsat : bytes (absorb r1 r2) = bytes r1 + bytes r2)
    by (unfold absorb, saturating_add; simpl; lia).
  rewrite total_bytes_app, total_bytes_cons, total_bytes_app, total_bytes_cons in Hused.
  simpl in Hused.
  split_and!; simpl; try done.
  - rewrite Forall_app, Forall_cons, Forall_app. split_and!; try done.
    split; cbn [fst snd]; [rewrite Hsat; lia|]. rewrite Hsat. unfold absorb. simpl.
    destruct (attached r1), (attached r2); simpl; try done. lia.
  - rewrite total_bytes_app, total_bytes_cons, total_bytes_app. cbn [snd]. lia.
  - intros k. destruct (Hcl k) as [Hk1 Hk2].
    rewrite client_bytes_app, client_bytes_cons, client_bytes_app in Hk1, Hk2 |- *.
    rewrite client_bytes_cons in Hk1, Hk2. cbn [fst snd] in *. rewrite Hsat.
    case_decide; lia.
Qed.

Lemma count_unbump_other m (k k' : IpAddr) w :
  k ≠ k' → count_of (unbump m k w) k' = count_of m k'.
Proof.
  intros Hne. unfold unbump, count_of. case_match; [|done].
  cbv zeta. case_match; [by rewrite lookup_delete_ne|by rewrite lookup_insert_ne].
Qed.

Lemma count_unbump_same m (k : IpAddr) w :
  0 ≤ w ≤ count_of m k → count_of (unbump m k w) k = count_of m k - w.
Proof.
  unfold unbump, count_of, saturating_sub. destruct (m !! k) as [n|] eqn:E; simpl; intros Hw.
  - destruct (Z.max (n - w) 0 =? 0) eqn:Ez; simplify_map_eq; int_tests; lia.
  - rewrite E. simpl. lia.
Qed.

Lemma budget_drop_inv b cs1 peer r cs2 :
  budget_inv (b, cs1 ++ (peer, r) :: cs2) → budget_inv (drop_reservation b r, cs1 ++ cs2).
Proof.
  intros (Hcap & Hshare & Hok & Hused & Hle & Hcl). simpl in *.
  pose proof (claim_ok_le_total _ _ _ Hok) as Hb. simpl in Hb.
  rewrite Forall_app, Forall_cons in Hok. destruct Hok as (H1 & [Hr Ha] & H2).
  simpl in Hr, Ha. rewrite total_bytes_app, total_bytes_cons in Hused. cbn [snd] in Hused.
  assert (Hcap_nz : (cap b =? 0) = false) by (apply Z.eqb_neq; lia).
  pose proof (total_bytes_nonneg _ H1). pose proof (total_bytes_nonneg _ H2).
  unfold budget_inv. cbn [fst snd]. rewrite Forall_app. unfold drop_reservation, release_for.
  rewrite Hcap_nz. simpl.
  destruct (attached r && negb (bytes r =? 0)) eqn:E.
  - apply andb_true_iff in E as [E1 E2]. apply negb_true_iff in E2. rewrite E1, E2 in *. simpl.
    split_and!; try done; unfold saturating_sub; rewrite ?total_bytes_app; try lia.
    intros k. destruct (Hcl k) as [Hk1 Hk2].
    rewrite client_bytes_app in *. rewrite client_bytes_cons in *. cbn [fst snd] in *.
    pose proof (client_bytes_nonneg _ k H1). pose proof (client_bytes_nonneg _ k H2).
    rewrite Ha. destruct (decide (client_key <$> peer = Some k)) as [Hp|Hp].
    + rewrite Hp, count_unbump_same; lia.
    + destruct (client_key <$> peer) as [k'|]; [rewrite count_unbump_other by congruence|]; lia.
  - assert (Hz : bytes r = 0).
    { destruct (attached r); [|done]. simpl in E. apply negb_false_iff, Z.eqb_eq in E. done. }
    assert (Hsame : (if attached r then if bytes r =? 0 then b else
      mk (cap b) (client_share b) (saturating_sub (used b) (bytes r))
        (match client r with Some c => unbump (per_client b) c (bytes r) | None => per_client b end)
      else b) = b) by (rewrite Hz; by destruct (attached r)).
    rewrite Hsame. split_and!; try done; [rewrite total_bytes_app; lia|].
    intros k. destruct (Hcl k) as [Hk1 Hk2].
    rewrite client_bytes_app in *. rewrite client_bytes_cons in *. cbn [fst snd] in *.
    case_decide; lia.
Qed.

Lemma budget_reachable_inv w : 0 ≤ share → budget_reachable w → budget_inv w.
Proof.
  intros Hs Hr. unfold budget_reachable in Hr.
  refine (rtc_ind_r (λ w, budget_inv w) _ _ _ w Hr).
  - unfold budget_inv, client_bytes, total_bytes. simpl. split_and!; try done; [lia|].
    intros k. unfold count_of. rewrite lookup_empty. simpl. lia.
  - intros w1 w2 _ Hstep Hinv. destruct Hstep.
    + by apply budget_inv_none.
    + by eapply budget_grow_inv.
    + done.
    + by apply budget_absorb_inv.
    + by eapply budget_drop_inv.
Qed.

End memory.

(** ** A listener: its two caps together *)

Section listener.
Import Listener.
Context (listener0 per_client0 : Z).

Definition listener_world : Type := State * list AdmittedConn.

Inductive listener_step : listener_world → listener_world → Prop :=
| listener_admit s cs peer c s' :
    admit_peer s peer = Ok (c, s') → listener_step (s, cs) (s', c :: cs)
| listener_refuse s cs peer r :
    admit_peer s peer = Err r → listener_step (s, cs) (s, cs)
| listener_close s cs1 c cs2 :
    listener_step (s, cs1 ++ c :: cs2) (drop_admitted s c, cs1 ++ cs2).

Definition listener_reachable (w : listener_world) : Prop :=
  rtc listener_step (new listener0 per_client0, []) w.

Definition slots_of (cs : list AdmittedConn) : list PerIp.Slot := map admitted_slot cs.

Lemma listener_step_per_ip w w' :
  listener_step w w' →
  rtc (per_ip_step []) (clients w.1, slots_of w.2) (clients w'.1, slots_of w'.2) ∧
  permits w'.1 + Z.of_nat (length w'.2) = permits w.1 + Z.of_nat (length w.2) ∧
  (0 ≤ permits w.1 → 0 ≤ permits w'.1).
Proof.
  destruct 1 as [s cs peer c s' H| |s cs1 c cs2]; simpl.
  - unfold admit_peer in H. destruct (Z.leb_spec (permits s) 0); [done|].
    destruct (PerIp.try_acquire _ _ _) as [[slot cl]|] eqn:E; [|done].
    injection H as <- <-. simpl. split; [|lia]. apply rtc_once. by econstructor.
  - done.
  - unfold slots_of. rewrite !map_app. simpl. rewrite !length_app. simpl. split; [|lia].
    apply rtc_once. constructor.
Qed.

Lemma listener_reachable_inv w :
  0 ≤ listener0 → listener_reachable w →
  per_ip_inv per_client0 (clients w.1, slots_of w.2) ∧
  permits w.1 + Z.of_nat (length w.2) = connection_semaphore listener0 ∧ 0 ≤ permits w.1.
Proof.
  intros H0 Hr. unfold listener_reachable in Hr.
  assert (per_ip_reachable per_client0 [] (clients w.1, slots_of w.2) ∧
    permits w.1 + Z.of_nat (length w.2) = connection_semaphore listener0 ∧ 0 ≤ permits w.1) as (Hp & H).
  { refine (rtc_ind_r (λ w, per_ip_reachable per_client0 [] (clients w.1, slots_of w.2) ∧
      permits w.1 + Z.of_nat (length w.2) = connection_semaphore listener0 ∧ 0 ≤ permits w.1) _ _ _ w Hr).
    - simpl. split_and!; [apply rtc_refl|lia|unfold connection_semaphore, MAX_CONNECTIONS; lia].
    - intros w1 w2 _ Hs (Hp & Hsum & Hnn). apply listener_step_per_ip in Hs as (Hs & ? & ?).
      split_and!; [unfold per_ip_reachable in *; by etrans|lia|auto]. }
  split; [by eapply per_ip_reachable_inv|done].
Qed.

End listener.

(** ** Properties *)

(** Whatever sequence of connections a listener admits, refuses and
    closes, the connections alive never exceed its cap (itself at most a
    million) nor a client's share of it; a connection is refused exactly when
    one of the two is used up, with the reason that says which; and once every
    connection has ended, however it ended, the listener's state is the initial
    one. *)
Theorem listener_within_caps (listener per_client : Z) (w : listener_world) :
  0 ≤ listener → listener_reachable listener per_client w →
  let alive := Z.of_nat (length w.2) in
  let share k := live (slots_of w.2) k in
  alive ≤ Z.min listener 1000000 ∧ (∀ k, share k ≤ Z.max per_client 1) ∧
  (∀ peer, Listener.admit_peer w.1 peer = Err Listener.ListenerFull ↔
     alive = Z.min listener 1000000) ∧
  (∀ peer, Listener.admit_peer w.1 peer = Err Listener.ClientFull ↔
     alive < Z.min listener 1000000 ∧ share (client_key peer) = Z.max per_client 1) ∧
  (w.2 = [] → w.1 = Listener.new listener per_client).
Proof.
  intros H0 Hr. apply listener_reachable_inv in Hr as ((Hcap & Ht & Hp & Hle) & Hsum & Hnn); [|done].
  unfold Listener.connection_semaphore, Listener.MAX_CONNECTIONS in Hsum. cbn [fst snd] in *. cbv zeta.
  rewrite Hcap in Hle.
  assert (Hadmit : ∀ peer, Listener.admit_peer w.1 peer =
    if decide (Z.of_nat (length w.2) = Z.min listener 1000000) then Err Listener.ListenerFull
    else if decide (live (slots_of w.2) (client_key peer) = Z.max per_client 1)
    then Err Listener.ClientFull else Listener.admit_peer w.1 peer).
  { intros peer. specialize (Hle (client_key peer)).
    unfold Listener.admit_peer. destruct (Z.leb_spec (Listener.permits w.1) 0);
      (case_decide; [lia || done|]); [lia|]. case_decide as Hk; [|done].
    unfold PerIp.try_acquire. simpl. rewrite (Ht (client_key peer)), Hcap.
    unfold live in Hk. rewrite Hk, Z.leb_refl. done. }
  assert (Hok : ∀ peer e, Z.of_nat (length w.2) ≠ Z.min listener 1000000 →
    live (slots_of w.2) (client_key peer) ≠ Z.max per_client 1 →
    Listener.admit_peer w.1 peer ≠ Err e).
  { intros peer e H1 H2. specialize (Hle (client_key peer)). unfold Listener.admit_peer.
    destruct (Z.leb_spec (Listener.permits w.1) 0); [lia|].
    unfold PerIp.try_acquire. simpl. rewrite (Ht (client_key peer)), Hcap.
    fold (live (slots_of w.2) (client_key peer)).
    destruct (Z.leb_spec (Z.max per_client 1) (live (slots_of w.2) (client_key peer))); [lia|done]. }
  split_and!; [lia|done| | |].
  - intros peer. rewrite Hadmit. repeat case_decide; try naive_solver.
  - intros peer. rewrite Hadmit. repeat case_decide; try naive_solver lia.
  - destruct w as [[permits [cap counts]] conns]. simpl in *. intros ->.
    unfold Listener.new, PerIp.new, Listener.connection_semaphore, Listener.MAX_CONNECTIONS.
    f_equal; [simpl in Hsum; lia|]. f_equal; [done|]. by apply tracks_empty.
Qed.

Lemma listener_within_caps_witness :
  ∃ w : listener_world, length w.2 = 2%nat ∧ listener_reachable 5 1 w ∧
    Listener.admit_peer w.1 (V4 7) = Err Listener.ClientFull.
Proof.
  set (s1 := Listener.mkState 4 (PerIp.mkState 1 (bump ∅ (V4 7) 1))).
  set (s2 := Listener.mkState 3 (PerIp.mkState 1 (bump (bump ∅ (V4 7) 1) (V4 9) 1))).
  set (c a := Listener.mkAdmitted (PerIp.mkSlot (Some (V4 a)))).
  assert (Hr : listener_reachable 5 1 (s2, [c 9; c 7])).
  { eapply (rtc_l _ _ (s1, [c 7])); [apply (listener_admit _ _ (V4 7)); vm_compute; reflexivity|].
    apply rtc_once. apply (listener_admit _ _ (V4 9)). vm_compute. reflexivity. }
  exists (s2, [c 9; c 7]). split_and!; [done|done|].
  apply (listener_within_caps 5 1 (s2, [c 9; c 7])); [lia|exact Hr|].
  vm_compute. done.
Defined.

(** The sessions an account has open never exceed its cap from one
    address nor its cap from all addresses, a login is refused exactly when one
    of the two is reached, and closing every session leaves both tables empty. *)
Theorem account_within_caps (per_ip total : Z) (w : account_world) :
  per_account_reachable per_ip total w →
  (∀ account ip, live_pair w.2 account ip ≤ Z.max per_ip 1) ∧
  (∀ account, live_account w.2 account ≤ Z.max total 1) ∧
  (∀ account ip,
     is_ok (PerAccount.try_acquire w.1 account ip) = false ↔
     live_pair w.2 account ip = Z.max per_ip 1 ∨ live_account w.2 account = Z.max total 1) ∧
  (w.2 = [] → w.1 = PerAccount.new per_ip total).
Proof.
  intros Hr. apply per_account_reachable_inv in Hr as (Hc1 & Hc2 & Hp & Hpp & Ha & Hpa & Hl1 & Hl2).
  rewrite Hc1 in Hl1. rewrite Hc2 in Hl2. split_and!; [done|done| |].
  - intros account ip. specialize (Hl1 account ip). specialize (Hl2 account).
    unfold PerAccount.try_acquire. cbv zeta. rewrite Hc1, Hc2, (Hp (account, ip)), (Ha account).
    unfold live_pair, live_account in *.
    destruct (Z.leb_spec (Z.max per_ip 1) (held (pair_holdings w.2) (account, ip))); [simpl; split; [lia|done]|].
    destruct (Z.leb_spec (Z.max total 1) (held (account_holdings w.2) account)); simpl; split;
      done || lia.
  - destruct w as [[c1 c2 pairs accounts] slots]. simpl in *. intros ->.
    unfold PerAccount.new. f_equal; try done; by apply tracks_empty.
Qed.

Lemma account_within_caps_witness :
  ∃ w : account_world, per_account_reachable 1 3 w ∧
    is_ok (PerAccount.try_acquire w.1 (lit "bob") (V4 7)) = false.
Proof.
  set (w := (PerAccount.mkState 1 3 (bump ∅ (lit "bob", V4 7) 1) (bump ∅ (lit "bob") 1),
             [PerAccount.mkSlot (lit "bob") (Some (V4 7))]) : account_world).
  assert (Hr : per_account_reachable 1 3 w).
  { apply rtc_once. apply (account_login _ _ (lit "bob") (V4 7)). vm_compute. reflexivity. }
  exists w. split; [exact Hr|].
  apply (account_within_caps 1 3 w Hr). left. vm_compute. reflexivity.
Defined.

(** With a positive cap, the octets every session holds sum to what the
    budget counts and never pass the cap, no client's sum passes its share,
    a chunk is refused exactly when it would break one of the two, and when
    the last reservation is dropped nothing is left counted. *)
Theorem memory_budget_never_exceeded (cap share : Z) (w : budget_world) :
  0 < cap < u64_max → 0 ≤ share → budget_reachable cap share w →
  MemoryBudget.used w.1 = total_bytes w.2 ∧ total_bytes w.2 ≤ cap ∧
  (∀ k, client_bytes w.2 k ≤ Z.min share cap) ∧
  (∀ r peer n, 0 ≤ n →
     is_ok (MemoryBudget.try_grow w.1 r peer n) = true ↔
     total_bytes w.2 + n ≤ cap ∧
     ∀ k, client_key <$> peer = Some k → client_bytes w.2 k + n ≤ Z.min share cap) ∧
  (w.2 = [] → MemoryBudget.used w.1 = 0 ∧ ∀ k, count_of (MemoryBudget.per_client w.1) k = 0).
Proof.
  intros Hcap Hshare Hr. apply budget_reachable_inv in Hr as (Hc & Hs & Hok & Hu & Hle & Hcl); [|done|done].
  split_and!; [done|lia|intros k; apply Hcl| |].
  - intros r peer n Hn. unfold MemoryBudget.try_grow, MemoryBudget.try_reserve_for, saturating_add.
    rewrite Hc, Hs. destruct (Z.eqb_spec cap 0); [lia|].
    destruct (Z.ltb_spec cap (Z.min (MemoryBudget.used w.1 + n) u64_max));
      [simpl; split; [done|lia]|].
    destruct (client_key <$> peer) as [k|]; [|simpl; split; [intros _; split; [lia|done]|done]].
    cbv zeta. destruct (Hcl k) as [Hk1 Hk2]. rewrite Hk1.
    destruct (Z.ltb_spec (Z.min share cap) (Z.min (client_bytes w.2 k + n) u64_max)); simpl.
    + split; [done|]. intros [_ H1]. specialize (H1 k eq_refl). lia.
    + split; [|done]. intros _. split; [lia|]. intros k' [= <-]. lia.
  - intros Hnil. rewrite Hnil in *. split; [done|]. intros k. apply Hcl.
Qed.

Lemma memory_budget_never_exceeded_witness :
  ∃ w : budget_world, total_bytes w.2 = 60 ∧
    is_ok (MemoryBudget.try_grow w.1 MemoryBudget.none (Some (V4 7)) 1) = false ∧
    is_ok (MemoryBudget.try_grow w.1 MemoryBudget.none (Some (V4 8)) 40) = true.
Proof.
  set (w := (MemoryBudget.mk 100 60 60 (bump ∅ (V4 7) 60),
             [(Some (V4 7), MemoryBudget.mkReservation true (Some (V4 7)) 60)]) : budget_world).
  assert (Hr : budget_reachable 100 60 w).
  { eapply rtc_l; [apply (budget_open _ _ (Some (V4 7)))|]. apply rtc_once.
    apply (budget_grow _ [] (Some (V4 7)) MemoryBudget.none [] 60); [lia|]. vm_compute. reflexivity. }
  assert (Hspec := memory_budget_never_exceeded 100 60 w ltac:(unfold u64_max; lia) ltac:(lia) Hr).
  destruct Hspec as (_ & _ & _ & Hgrow & _).
  exists w. split_and!; [done| |].
  - apply not_true_iff_false. rewrite (Hgrow _ _ 1) by lia. intros [_ H].
    specialize (H (V4 7) ltac:(vm_compute; reflexivity)). vm_compute in H. by apply H.
  - apply (Hgrow _ _ 40); [lia|]. split; [vm_compute; done|].
    intros k Hk. vm_compute in Hk. injection Hk as <-. vm_compute. done.
Defined.
