(* ===== verification/RateLimit.v ===== *)
(** The fixed-window rate limiter (src/src/smtp/ratelimit/mod.rs) and the
    submission budget charged against several limiters at once
    (src/src/smtp/submission_budget/mod.rs).

    A [WindowLimiter] is a map from keys to (window start, events in the
    window) and a queue of the windows started, both behind one mutex: each
    operation is one atomic state change, so concurrent use is a sequence of
    operations.  A [Budget] names limiters by [Arc], modelled by identifiers in
    a store of limiters, so that two limits of one budget, or two budgets, can
    share a limiter. *)

From S2P Require Import Prelude RustStd.

Local Open Scope Z_scope.

(** ** The limiter *)

Module WindowLimiter.

Definition MAX_ENTRIES : Z := 10000.

Notation key := (list Z).

(** [WindowLimiter] with its [StateInner]. *)
Record t := mk {
  window_secs : Z;
  authenticated_keys : bool;
  entries : gmap key (Z * Z);
  windows : list (key * Z)
}.

Definition new (window_secs : Z) : t := mk (Z.max window_secs 1) false ∅ [].

Definition for_authenticated_keys (window_secs : Z) : t := mk (Z.max window_secs 1) true ∅ [].

(** A record is live while its key's entry still has that window start. *)
Definition live (entries : gmap key (Z * Z)) (r : key * Z) : bool :=
  match entries !! r.1 with
  | Some entry => entry.1 =? r.2
  | None => false
  end.

Definition size_of (entries : gmap key (Z * Z)) : Z := Z.of_nat (size entries).
Definition count_of (windows : list (key * Z)) : Z := Z.of_nat (length windows).

Definition record_window (s : t) (key : key) (start : Z) : t :=
  let windows := windows s ++ [(key, start)] in
  mk (window_secs s) (authenticated_keys s) (entries s)
    (if 2 * Z.max (size_of (entries s)) MAX_ENTRIES <? count_of windows
     then List.filter (live (entries s)) windows
     else windows).

(** The [loop] of [free_slot] pops a record at each turn, so it is structural
    on the queue. *)
Fixpoint free_slot_loop (entries : gmap key (Z * Z)) (windows : list (key * Z))
    (now window_secs : Z) (evict_active : bool)
    : gmap key (Z * Z) * list (key * Z) * bool :=
  match windows with
  | [] => (entries, [], false)
  | (key, start) :: rest =>
      if negb (live entries (key, start))
      then free_slot_loop entries rest now window_secs evict_active
      else if (saturating_sub now start <? window_secs) && negb evict_active
      then (entries, windows, false)
      else (delete key entries, rest, true)
  end.

Definition free_slot (s : t) (now : Z) (evict_active : bool) : t * bool :=
  let '(entries, windows, freed) :=
    free_slot_loop (entries s) (windows s) now (window_secs s) evict_active in
  (mk (window_secs s) (authenticated_keys s) entries windows, freed).

(** [entry.1 = used + count] on [u32]. *)
Definition u32_add (a b : Z) : Z := (a + b) mod 2 ^ 32.

Definition with_entry (s : t) (key : key) (entry : Z * Z) : t :=
  mk (window_secs s) (authenticated_keys s) (<[key := entry]> (entries s)) (windows s).

Definition check_n (s : t) (key : key) (count limit now : Z) : t * bool :=
  if (limit =? 0) || (count =? 0) then (s, true)
  else
    let key_lc := to_ascii_lowercase key in
    match entries s !! key_lc with
    | Some entry =>
        let restart := window_secs s <=? saturating_sub now entry.1 in
        let used := if restart then 0 else entry.2 in
        if limit <? saturating_add u32_max used count then (s, false)
        else if restart
        then (record_window (with_entry s key_lc (now, count)) key_lc now, true)
        else (with_entry s key_lc (entry.1, u32_add used count), true)
    | None =>
        if limit <? count then (s, false)
        else
          let '(s, freed) :=
            if MAX_ENTRIES <=? size_of (entries s)
            then free_slot s now (negb (authenticated_keys s))
            else (s, true) in
          if negb freed && negb (authenticated_keys s) then (s, false)
          else (record_window (with_entry s key_lc (now, count)) key_lc now, true)
    end.

Definition check (s : t) (key : key) (limit now : Z) : t * bool := check_n s key 1 limit now.

Definition has_room (s : t) (key : key) (count limit now : Z) : bool :=
  if (limit =? 0) || (count =? 0) then true
  else
    let used :=
      match entries s !! to_ascii_lowercase key with
      | Some (start, used) => if saturating_sub now start <? window_secs s then used else 0
      | None => 0
      end in
    saturating_add u32_max used count <=? limit.

Definition refund (s : t) (key : key) (count now : Z) : t :=
  let key_lc := to_ascii_lowercase key in
  match entries s !! key_lc with
  | Some entry =>
      if (entry.1 <=? now) && (saturating_sub now entry.1 <? window_secs s)
      then with_entry s key_lc (entry.1, saturating_sub entry.2 count)
      else s
  | None => s
  end.

End WindowLimiter.

(** ** The submission budget *)

Module SubmissionBudget.

(** The limiters of the process, by the identity of their [Arc]. *)
Notation store := (gmap nat WindowLimiter.t).

Record Limit := mkLimit { limiter : nat; key : list Z; per_min : Z }.

Record Budget := mkBudget { limits : list Limit }.

Record Charge := mkCharge { charged : list (nat * list Z); count : Z; now : Z }.

(** [for_account], given the (limiter, key, cap) of the tenants that own one
    of the account's addresses ([TenantLimits::submission_limiters]). *)
Definition for_account (account : list Z) (account_limit : option (nat * Z))
    (tenants : list (nat * list Z * Z)) : Budget :=
  mkBudget
    ((match account_limit with
      | Some (limiter, per_min) => [mkLimit limiter account per_min]
      | None => []
      end) ++
     map (λ '(limiter, key, per_min), mkLimit limiter key per_min) tenants).

Definition has_room (st : store) (b : Budget) (now : Z) : bool :=
  forallb (λ l, match st !! limiter l with
                | Some s => WindowLimiter.has_room s (key l) 1 (per_min l) now
                | None => true
                end) (limits b).

Definition refund_one (count now : Z) (st : store) (c : nat * list Z) : store :=
  match st !! c.1 with
  | Some s => <[c.1 := WindowLimiter.refund s c.2 count now]> st
  | None => st
  end.

(** [Charge::refund]. *)
Definition refund (st : store) (c : Charge) : store :=
  fold_left (refund_one (count c) (now c)) (charged c) st.

Fixpoint charge_loop (st : store) (c : Charge) (limits : list Limit) : store * option Charge :=
  match limits with
  | [] => (st, Some c)
  | l :: rest =>
      match st !! limiter l with
      | Some s =>
          match WindowLimiter.check_n s (key l) (count c) (per_min l) (now c) with
          | (s', false) => (refund (<[limiter l := s']> st) c, None)
          | (s', true) =>
              charge_loop (<[limiter l := s']> st)
                (mkCharge (charged c ++ [(limiter l, key l)]) (count c) (now c)) rest
          end
      | None => charge_loop st c rest
      end
  end.

(** [Budget::charge]; [None] is [Err(OverLimit)]. *)
Definition charge (st : store) (b : Budget) (recipients now : Z) : store * option Charge :=
  charge_loop st (mkCharge [] recipients now) (limits b).

(** [PendingCharge]: dropped unaccepted, it gives the charge back. *)
Definition PendingCharge := option Charge.
Definition accept (_ : PendingCharge) : PendingCharge := None.
Definition drop_pending (st : store) (p : PendingCharge) : store :=
  match p with
  | Some c => refund st c
  | None => st
  end.

End SubmissionBudget.

(** ** The queue and the map agree *)

Section queue.
Import WindowLimiter.
Implicit Types (es : gmap key (Z * Z)) (ws : list (key * Z)) (k : key).

(** The window starts recorded for a key, oldest first. *)
Definition starts k ws : list Z := omap (λ r, if decide (r.1 = k) then Some r.2 else None) ws.

Fixpoint ascending (l : list Z) : Prop :=
  match l with
  | [] => True
  | x :: l => Forall (λ y, x < y) l ∧ ascending l
  end.

(** Every entry's window is the last one recorded for its key, the older
    records of the key are of earlier windows, and a key without an entry has
    no record. *)
Definition queue_wf es ws : Prop :=
  ∀ k, match es !! k with
       | Some e => ascending (starts k ws) ∧ last (starts k ws) = Some e.1
       | None => starts k ws = []
       end.

Lemma starts_app k ws1 ws2 : starts k (ws1 ++ ws2) = starts k ws1 ++ starts k ws2.
Proof. apply omap_app. Qed.

Lemma starts_cons_same k s ws : starts k ((k, s) :: ws) = s :: starts k ws.
Proof. unfold starts. simpl. by rewrite decide_True. Qed.
Lemma starts_cons_other k k' s ws : k' ≠ k → starts k ((k', s) :: ws) = starts k ws.
Proof. intros. unfold starts. simpl. by rewrite decide_False. Qed.

#[local] Arguments starts : simpl never.

Lemma ascending_snoc l x y :
  ascending l → last l = Some x → x < y → ascending (l ++ [y]).
Proof.
  induction l as [|z l IH]; [done|]. intros [Hz Ha] Hl Hxy. simpl. destruct l as [|z' l].
  - simpl in Hl. injection Hl as ->. simpl. split; [by constructor|done].
  - rewrite last_cons_cons in Hl. split; [|by apply IH].
    apply Forall_app; split; [done|]. constructor; [|done].
    apply last_Some_elem_of in Hl. rewrite Forall_forall in Hz. specialize (Hz x Hl). lia.
Qed.

Lemma queue_wf_push es ws k e :
  queue_wf es ws → (∀ e0, es !! k = Some e0 → e0.1 < e.1) →
  queue_wf (<[k := e]> es) (ws ++ [(k, e.1)]).
Proof.
  intros H Hlt k'. specialize (H k'). rewrite starts_app.
  destruct (decide (k = k')) as [<-|Hne].
  - rewrite lookup_insert_eq, (starts_cons_same k e.1 []). change (starts k []) with (@nil Z).
    destruct (es !! k) as [e0|] eqn:E.
    + destruct H as [Ha Hl]. split; [|by rewrite last_snoc].
      eapply ascending_snoc; [done|done|by apply Hlt].
    + rewrite H. simpl. split; [by split|done].
  - rewrite lookup_insert_ne by done. rewrite starts_cons_other by done.
    change (starts k' []) with (@nil Z). by rewrite app_nil_r.
Qed.

Lemma queue_wf_count es ws k e c :
  queue_wf es ws → es !! k = Some e → queue_wf (<[k := (e.1, c)]> es) ws.
Proof.
  intros H E k'. specialize (H k'). destruct (decide (k = k')) as [<-|Hne].
  - rewrite E in H. by rewrite lookup_insert_eq.
  - by rewrite lookup_insert_ne.
Qed.

Lemma queue_wf_pop_dead es k s ws :
  queue_wf es ((k, s) :: ws) → live es (k, s) = false → queue_wf es ws.
Proof.
  intros H Hd k'. specialize (H k'). destruct (decide (k = k')) as [<-|Hne].
  - rewrite starts_cons_same in H. unfold live in Hd. simpl in Hd.
    destruct (es !! k) as [e|]; [|done]. destruct H as [[_ Ha] Hl]. split; [done|].
    destruct (starts k ws) as [|s' l]; [|by rewrite last_cons_cons in Hl].
    simpl in Hl. injection Hl as Hs. apply Z.eqb_neq in Hd. by rewrite Hs in Hd.
  - by rewrite starts_cons_other in H.
Qed.

Lemma queue_wf_pop_live es k s ws :
  queue_wf es ((k, s) :: ws) → live es (k, s) = true → queue_wf (delete k es) ws.
Proof.
  intros H Hd k'. specialize (H k'). destruct (decide (k = k')) as [<-|Hne].
  - rewrite lookup_delete_eq. rewrite starts_cons_same in H. unfold live in Hd. simpl in Hd.
    destruct (es !! k) as [e|]; [|done]. apply Z.eqb_eq in Hd as Hs.
    destruct H as [[Hlt _] Hl]. destruct (starts k ws) as [|s' l]; [done|].
    rewrite last_cons_cons in Hl. apply last_Some_elem_of in Hl.
    rewrite Forall_forall in Hlt. specialize (Hlt _ Hl). lia.
  - rewrite lookup_delete_ne by done. by rewrite starts_cons_other in H.
Qed.

(** Compaction leaves one record per entry. *)
Lemma starts_filter_live es ws k :
  starts k (List.filter (live es) ws) =
  match es !! k with
  | Some e => List.filter (λ s, e.1 =? s) (starts k ws)
  | None => []
  end.
Proof.
  induction ws as [|[k' s] ws IH]; simpl; [by destruct (es !! k)|].
  destruct (decide (k' = k)) as [->|Hne].
  - unfold live at 1. simpl. rewrite starts_cons_same. destruct (es !! k) as [e|]; [|done].
    simpl. destruct (e.1 =? s); [|done]. by rewrite starts_cons_same, IH.
  - rewrite (starts_cons_other k k') by done. destruct (live es (k', s)); [|done].
    by rewrite starts_cons_other.
Qed.

Lemma filter_last_ascending l x :
  ascending l → last l = Some x → List.filter (λ s, x =? s) l = [x].
Proof.
  induction l as [|z l IH]; [done|]. intros [Hz Ha] Hl. destruct l as [|z' l].
  - simpl in *. injection Hl as ->. by rewrite Z.eqb_refl.
  - rewrite last_cons_cons in Hl. simpl List.filter at 1.
    assert (x ≠ z) as Hne.
    { apply last_Some_elem_of in Hl. rewrite Forall_forall in Hz. specialize (Hz x Hl). lia. }
    apply Z.eqb_neq in Hne. rewrite Hne. by apply IH.
Qed.

Lemma starts_compact es ws k :
  queue_wf es ws →
  starts k (List.filter (live es) ws) = match es !! k with Some e => [e.1] | None => [] end.
Proof.
  intros H. rewrite starts_filter_live. specialize (H k). destruct (es !! k) as [e|]; [|done].
  destruct H. by apply filter_last_ascending.
Qed.

Lemma queue_wf_compact es ws : queue_wf es ws → queue_wf es (List.filter (live es) ws).
Proof.
  intros H k. pose proof (starts_compact es ws k H) as E.
  destruct (es !! k) as [e|]; rewrite E; [|done]. simpl. split; [by split|done].
Qed.

Lemma starts_nil_notin k ws : starts k ws = [] → k ∉ map fst ws.
Proof.
  induction ws as [|[k' s] ws IH]; simpl; [intros _; apply not_elem_of_nil|].
  destruct (decide (k' = k)) as [->|Hne]; [by rewrite starts_cons_same|].
  rewrite starts_cons_other by done. intros H. apply not_elem_of_cons. split; [done|auto].
Qed.

Lemma compact_length es ws :
  queue_wf es ws → count_of (List.filter (live es) ws) = size_of es.
Proof.
  intros H. set (l := List.filter (live es) ws).
  assert (Hl : ∀ k, starts k l = match es !! k with Some e => [e.1] | None => [] end)
    by (intros; by apply starts_compact).
  assert (Hnd : ∀ l, (∀ k, (length (starts k l) ≤ 1)%nat) → NoDup (map fst l)).
  { clear. induction l as [|[k s] l IH]; simpl; intros Hl; constructor.
    - apply starts_nil_notin. specialize (Hl k). rewrite starts_cons_same in Hl. simpl in Hl.
      destruct (starts k l); [done|simpl in Hl; lia].
    - apply IH. intros k'. specialize (Hl k'). destruct (decide (k = k')) as [<-|Hne];
        [rewrite starts_cons_same in Hl; simpl in Hl; lia|by rewrite starts_cons_other in Hl]. }
  assert (Hdom : dom es = list_to_set (map fst l)).
  { apply set_eq. intros k. rewrite elem_of_dom, elem_of_list_to_set. specialize (Hl k).
    destruct (es !! k) as [e|] eqn:E.
    - split; [intros _|done]. clear -Hl. induction l as [|[k' s] l IH]; [done|].
      simpl. destruct (decide (k' = k)) as [->|Hne]; [by left|].
      rewrite starts_cons_other in Hl by done. right. by apply IH.
    - split; [by intros []|]. intros Hin. by apply starts_nil_notin in Hl. }
  unfold size_of, count_of. rewrite <-size_dom, Hdom, size_list_to_set.
  - by rewrite length_map.
  - apply Hnd. intros k. rewrite Hl. destruct (es !! k); simpl; lia.
Qed.

End queue.

(** ** The limiter's invariant *)

Section limiter.
Import WindowLimiter.

Definition limiter_wf (s : t) : Prop :=
  0 < window_secs s ∧ queue_wf (entries s) (windows s) ∧
  (∀ k e, entries s !! k = Some e → 0 ≤ e.2 ≤ u32_max) ∧
  count_of (windows s) ≤ 2 * Z.max (size_of (entries s)) MAX_ENTRIES ∧
  (authenticated_keys s = false → size_of (entries s) ≤ MAX_ENTRIES).

Lemma free_slot_loop_spec es ws now w ev es' ws' freed :
  queue_wf es ws → free_slot_loop es ws now w ev = (es', ws', freed) →
  queue_wf es' ws' ∧ count_of ws' ≤ count_of ws ∧
  (if freed
   then ∃ k e, es !! k = Some e ∧ es' = delete k es ∧ (ev = true ∨ w ≤ saturating_sub now e.1)
   else es' = es ∧ (ev = true → es = ∅)).
Proof.
  unfold count_of. induction ws as [|[k s] ws IH]; cbn [free_slot_loop]; intros Hwf.
  - intros [= <- <- <-]. split_and!; [done|simpl; lia|done|]. intros _. apply map_eq. intros k.
    specialize (Hwf k). destruct (es !! k) as [e|]; [by destruct Hwf|by rewrite lookup_empty].
  - destruct (live es (k, s)) eqn:El; cbn [negb].
    + destruct (_ && _) eqn:Ec.
      * intros [= <- <- <-]. apply andb_true_iff in Ec as [_ Ev]. split_and!; [done|simpl; lia|done|].
        intros ->. done.
      * intros [= <- <- <-]. split_and!; [by eapply queue_wf_pop_live|simpl; lia|].
        unfold live in El. simpl in El. destruct (es !! k) as [e|] eqn:E; [|done].
        exists k, e. split_and!; [done|done|]. apply Z.eqb_eq in El as ->.
        apply andb_false_iff in Ec as [Ec|Ec]; [right; by apply Z.ltb_ge in Ec|].
        left. by destruct ev.
    + intros Hf. apply IH in Hf as (H1 & H2 & H3); [|by eapply queue_wf_pop_dead].
      split_and!; [done|simpl; lia|done].
Qed.

Lemma record_window_fields s k start :
  window_secs (record_window s k start) = window_secs s ∧
  authenticated_keys (record_window s k start) = authenticated_keys s ∧
  entries (record_window s k start) = entries s.
Proof. done. Qed.

(** Starting a window for a key keeps the invariant. *)
Lemma limiter_wf_start s k now c :
  0 < window_secs s → queue_wf (entries s) (windows s) →
  (∀ k e, entries s !! k = Some e → 0 ≤ e.2 ≤ u32_max) →
  (∀ e, entries s !! k = Some e → e.1 < now) → 0 ≤ c ≤ u32_max →
  (authenticated_keys s = false → size_of (<[k := (now, c)]> (entries s)) ≤ MAX_ENTRIES) →
  limiter_wf (record_window (with_entry s k (now, c)) k now).
Proof.
  intros Hw Hq Hr Hlt Hc Hsz.
  assert (Hq' : queue_wf (<[k := (now, c)]> (entries s)) (windows s ++ [(k, now)]))
    by (by apply (queue_wf_push _ _ k (now, c))).
  split_and!; cbn [window_secs authenticated_keys entries windows record_window with_entry]; [done| | | |done].
  - case_match; [by apply queue_wf_compact|done].
  - intros k' e. destruct (decide (k = k')) as [<-|Hne].
    + rewrite lookup_insert_eq. by intros [= <-].
    + rewrite lookup_insert_ne by done. apply Hr.
  - destruct (Z.ltb_spec (2 * Z.max (size_of (<[k:=(now, c)]> (entries s))) MAX_ENTRIES)
      (count_of (windows s ++ [(k, now)]))); [|done].
    rewrite compact_length by done. unfold MAX_ENTRIES. lia.
Qed.

Lemma limiter_wf_count s k e c :
  limiter_wf s → entries s !! k = Some e → 0 ≤ c ≤ u32_max →
  limiter_wf (with_entry s k (e.1, c)).
Proof.
  intros (Hw & Hq & Hr & Hn & Hsz) E Hc.
  assert (Hs : size_of (<[k := (e.1, c)]> (entries s)) = size_of (entries s)).
  { unfold size_of. by rewrite map_size_insert_Some. }
  split_and!; cbn [window_secs authenticated_keys entries windows with_entry]; rewrite ?Hs; try done.
  - by apply queue_wf_count.
  - intros k' e'. destruct (decide (k = k')) as [<-|Hne].
    + rewrite lookup_insert_eq. by intros [= <-].
    + rewrite lookup_insert_ne by done. apply Hr.
Qed.

(** The entry a key's running window has at [now]. *)
Definition view (s : t) (now : Z) (k : key) : option (Z * Z) :=
  e ← entries s !! k; if saturating_sub now e.1 <? window_secs s then Some e else None.

Definition used (s : t) (now : Z) (k : key) : Z := from_option snd 0 (view s now k).

Lemma has_room_used s key count limit now :
  0 < limit → 0 < count →
  has_room s key count limit now =
    (saturating_add u32_max (used s now (to_ascii_lowercase key)) count <=? limit).
Proof.
  intros Hl Hc. unfold has_room, used, view.
  destruct (Z.eqb_spec limit 0); [lia|]. destruct (Z.eqb_spec count 0); [lia|]. simpl.
  destruct (entries s !! _) as [[start u]|]; simpl; [|done]. by destruct (_ <? _).
Qed.

(** What one call does: a refusal changes nothing and happens exactly when
    the running window has no room; a charge is added to the running window or
    starts one, and the only other change is one entry dropped to make room. *)
Definition charged (s s' : t) (k : key) (count now : Z) : Prop :=
  window_secs s' = window_secs s ∧ authenticated_keys s' = authenticated_keys s ∧
  ∃ es, (es = entries s ∨
         ∃ k0 e0, entries s !! k0 = Some e0 ∧ es = delete k0 (entries s) ∧ entries s !! k = None ∧
                  (authenticated_keys s = true → window_secs s ≤ saturating_sub now e0.1)) ∧
  entries s' = <[k := match view s now k with
                      | Some e => (e.1, e.2 + count)
                      | None => (now, count)
                      end]> es.

Lemma check_n_free s key count limit now :
  limit = 0 ∨ count = 0 → check_n s key count limit now = (s, true).
Proof.
  unfold check_n. intros [->| ->]; [done|]. by rewrite orb_true_r.
Qed.

Lemma size_of_insert_new es (k : key) (e : Z * Z) :
  es !! k = None → size_of (<[k := e]> es) = size_of es + 1.
Proof. intros E. unfold size_of. rewrite map_size_insert_None by done. lia. Qed.

Lemma size_of_delete es (k : key) (e : Z * Z) :
  es !! k = Some e → size_of (delete k es) = size_of es - 1.
Proof.
  intros E. unfold size_of. rewrite map_size_delete_Some by eauto.
  assert (size es ≠ 0%nat); [|lia]. intros H0. apply map_size_empty_inv in H0. subst es.
  by rewrite lookup_empty in E.
Qed.

(** An unseen key: a slot is freed when the map is full. *)
Lemma check_n_unseen s key count limit now s' ok :
  limiter_wf s → 0 < limit → 0 < count ≤ u32_max →
  let k := to_ascii_lowercase key in
  entries s !! k = None → check_n s key count limit now = (s', ok) →
  limiter_wf s' ∧ ok = (count <=? limit) ∧
  if ok then charged s s' k count now else s' = s.
Proof.
  intros Hwf Hl Hc k E. pose proof Hwf as (Hw & Hq & Hr & Hn & Hsz).
  unfold check_n. destruct (Z.eqb_spec limit 0); [lia|]. destruct (Z.eqb_spec count 0); [lia|].
  cbn [orb]. cbv zeta. fold k. rewrite E. rewrite (Z.leb_antisym limit count).
  destruct (Z.ltb_spec limit count); cbn [negb]; [by intros [= <- <-]|].
  assert (Hv : view s now k = None) by (unfold view; by rewrite E).
  destruct (Z.leb_spec MAX_ENTRIES (size_of (entries s))) as [Hfull|Hroom].
  - unfold free_slot. destruct (free_slot_loop _ _ _ _ _) as [[es ws] freed] eqn:Ef.
    apply free_slot_loop_spec in Ef as (Hq' & Hws & Hf); [|done].
    destruct freed; cbn [negb andb].
    + destruct Hf as (k0 & e0 & E0 & -> & Hover). intros [= <- <-].
      assert (Hne : k0 ≠ k) by congruence.
      assert (Ek : delete k0 (entries s) !! k = None) by (by rewrite lookup_delete_ne).
      split_and!; [|done|].
      * apply limiter_wf_start; cbn [window_secs authenticated_keys entries windows]; try done.
        -- intros k1 e1 [_ H1]%lookup_delete_Some. by apply (Hr k1).
        -- intros e. by rewrite Ek.
        -- lia.
        -- intros Hna. rewrite size_of_insert_new by done. rewrite (size_of_delete _ _ e0) by done.
           specialize (Hsz Hna). lia.
      * split; [done|]. split; [done|]. exists (delete k0 (entries s)). split.
        -- right. exists k0, e0. split_and!; try done. intros Ha. rewrite Ha in Hover.
           by destruct Hover.
        -- by rewrite Hv.
    + destruct Hf as [-> Hne]. destruct (authenticated_keys s) eqn:Ea; cbn [negb] in *.
      * intros [= <- <-]. split_and!; [|done|].
        -- apply limiter_wf_start; cbn [window_secs authenticated_keys entries windows]; try done; [|lia].
           intros e. by rewrite E.
        -- split; [done|]. split; [done|]. exists (entries s). split; [by left|by rewrite Hv].
      * rewrite Hne in Hfull by done. done.
  - cbn [negb andb]. intros [= <- <-]. split_and!; [|done|].
    + apply limiter_wf_start; try done; [intros e; by rewrite E|lia|].
      intros Hna. rewrite size_of_insert_new by done. lia.
    + split; [done|]. split; [done|]. exists (entries s). split; [by left|by rewrite Hv].
Qed.

(** A key with an entry. *)
Lemma check_n_seen s key count limit now s' ok e :
  limiter_wf s → 0 < limit < u32_max → 0 < count ≤ u32_max →
  let k := to_ascii_lowercase key in
  entries s !! k = Some e → check_n s key count limit now = (s', ok) →
  limiter_wf s' ∧ ok = (used s now k + count <=? limit) ∧
  if ok then charged s s' k count now else s' = s.
Proof.
  intros Hwf Hl Hc k E. pose proof Hwf as (Hw & Hq & Hr & Hn & Hsz). pose proof (Hr _ _ E) as He.
  unfold check_n, saturating_add. destruct (Z.eqb_spec limit 0); [lia|].
  destruct (Z.eqb_spec count 0); [lia|]. cbn [orb]. cbv zeta. fold k. rewrite E.
  rewrite (Z.leb_antisym _ (used s now k + count)).
  assert (Hu : used s now k = if window_secs s <=? saturating_sub now e.1 then 0 else e.2).
  { unfold used, view. rewrite E. simpl. rewrite Z.ltb_antisym. by destruct (_ <=? _). }
  assert (Hrange : 0 ≤ used s now k) by (rewrite Hu; destruct (_ <=? _); lia).
  rewrite <- Hu. replace (limit <? (used s now k + count) `min` u32_max) with
    (limit <? used s now k + count)
    by (apply eq_iff_eq_true; rewrite !Z.ltb_lt; lia).
  destruct (Z.ltb_spec limit (used s now k + count)); cbn [negb]; [by intros [= <- <-]|].
  destruct (window_secs s <=? saturating_sub now e.1) eqn:Er.
  - intros [= <- <-]. apply Z.leb_le in Er. unfold saturating_sub in Er. split_and!; [|done|].
    + apply limiter_wf_start; try done; [|lia|].
      * intros e'. rewrite E. intros [= <-]. lia.
      * intros Hna. unfold size_of. rewrite map_size_insert_Some by done. by apply Hsz.
    + split; [done|]. split; [done|]. exists (entries s). split; [by left|].
      unfold view. rewrite E. simpl. destruct (Z.ltb_spec (saturating_sub now e.1) (window_secs s));
        [unfold saturating_sub in *; lia|done].
  - intros [= <- <-]. assert (Hadd : u32_add (used s now k) count = e.2 + count).
    { unfold u32_add. rewrite Hu. apply Z.mod_small. unfold u32_max in *. lia. }
    rewrite Hadd. split_and!; [|done|].
    + apply limiter_wf_count; [done..|]. lia.
    + split; [done|]. split; [done|]. exists (entries s). split; [by left|].
      unfold view. rewrite E. simpl. by rewrite Z.ltb_antisym, Er.
Qed.

Lemma check_n_spec s key count limit now s' ok :
  limiter_wf s → 0 < limit < u32_max → 0 < count ≤ u32_max →
  check_n s key count limit now = (s', ok) →
  limiter_wf s' ∧ ok = (used s now (to_ascii_lowercase key) + count <=? limit) ∧
  if ok then charged s s' (to_ascii_lowercase key) count now else s' = s.
Proof.
  intros Hwf Hl Hc H. destruct (entries s !! to_ascii_lowercase key) as [e|] eqn:E.
  - by eapply check_n_seen.
  - eapply check_n_unseen in H; [|done|lia|done|done].
    unfold used, view. by rewrite E.
Qed.

Lemma refund_wf s key count now : 0 ≤ count → limiter_wf s → limiter_wf (refund s key count now).
Proof.
  intros Hc Hwf. unfold refund. cbv zeta.
  destruct (entries s !! to_ascii_lowercase key) as [e|] eqn:E; [|done].
  destruct (_ && _); [|done]. apply limiter_wf_count; [done|done|].
  destruct Hwf as (_ & _ & Hr & _). specialize (Hr _ _ E). unfold saturating_sub. lia.
Qed.

Lemma new_wf w : limiter_wf (new w).
Proof.
  split_and!; simpl; [lia| | |unfold MAX_ENTRIES, count_of, size_of; simpl; lia|
    unfold MAX_ENTRIES, size_of; simpl; by rewrite map_size_empty].
  - intros k. by rewrite lookup_empty.
  - intros k e. by rewrite lookup_empty.
Qed.

Lemma for_authenticated_keys_wf w : limiter_wf (for_authenticated_keys w).
Proof. destruct (new_wf w) as (H1 & H2 & H3 & H4 & _). by split_and!. Qed.

End limiter.

(** ** Sequences of calls *)

Section runs.
Import WindowLimiter.

(** A call at the wall clock [at]; a refund carries the time of its charge. *)
Inductive call :=
| Check_n (k : list Z) (count limit : Z)
| Refund_n (k : list Z) (count charged_at : Z).

Definition call_ok (c : Z * call) : Prop :=
  match c.2 with
  | Check_n _ count limit => 0 ≤ count ≤ u32_max ∧ 0 ≤ limit < u32_max
  | Refund_n _ count charged_at => 0 ≤ count ≤ u32_max ∧ charged_at ≤ c.1
  end.

Definition do_call (s : t) (c : Z * call) : t * bool :=
  match c.2 with
  | Check_n k count limit => check_n s k count limit c.1
  | Refund_n k count charged_at => (refund s k count charged_at, true)
  end.

Fixpoint answers {S} (f : S → Z * call → S * bool) (s : S) (cs : list (Z * call)) : S * list bool :=
  match cs with
  | [] => (s, [])
  | c :: cs => let '(s, b) := f s c in let '(s, bs) := answers f s cs in (s, b :: bs)
  end.

(** The wall clock does not run backwards. *)
Fixpoint clocked (t0 : Z) (cs : list (Z * call)) : Prop :=
  match cs with
  | [] => True
  | c :: cs => t0 ≤ c.1 ∧ clocked c.1 cs
  end.

Lemma do_call_wf s c : limiter_wf s → call_ok c → limiter_wf (do_call s c).1.
Proof.
  intros Hwf Hc. destruct c as [at_ [k count limit|k count charged_at]]; unfold do_call; cbn in *.
  - destruct (decide (limit = 0 ∨ count = 0)) as [H0|H0]; [by rewrite check_n_free|].
    destruct (check_n s k count limit at_) as [s' ok] eqn:E.
    by apply check_n_spec in E as (? & _); [|done|lia|lia].
  - apply refund_wf; [lia|done].
Qed.

Lemma do_call_authenticated s c :
  limiter_wf s → call_ok c → authenticated_keys (do_call s c).1 = authenticated_keys s ∧
  window_secs (do_call s c).1 = window_secs s.
Proof.
  intros Hwf Hc. destruct c as [at_ [k count limit|k count charged_at]]; unfold do_call; cbn in *.
  - destruct (decide (limit = 0 ∨ count = 0)) as [H0|H0]; [by rewrite check_n_free|].
    destruct (check_n s k count limit at_) as [s' ok] eqn:E.
    apply check_n_spec in E as (_ & _ & E); [|done|lia|lia]. simpl.
    destruct ok; [|by subst]. by destruct E as (? & ? & _).
  - unfold refund. cbv zeta. destruct (entries s !! _); [|done]. by destruct (_ && _).
Qed.

Lemma answers_wf s cs :
  limiter_wf s → Forall call_ok cs →
  limiter_wf (answers do_call s cs).1 ∧
  authenticated_keys (answers do_call s cs).1 = authenticated_keys s ∧
  window_secs (answers do_call s cs).1 = window_secs s.
Proof.
  intros Hwf Hcs. revert s Hwf. induction Hcs as [|c cs Hc _ IH]; intros s Hwf; simpl; [done|].
  pose proof (do_call_wf s c Hwf Hc) as Hwf'. pose proof (do_call_authenticated s c Hwf Hc) as [Ha Hw].
  destruct (do_call s c) as [s1 b]. simpl in *. specialize (IH s1 Hwf').
  destruct (answers do_call s1 cs) as [s2 bs]. simpl in *. by rewrite <- Ha, <- Hw.
Qed.

(** ** The ideal limiter: a fixed window per key, nothing ever dropped *)

Definition ideal_view (w : Z) (m : gmap (list Z) (Z * Z)) (k : list Z) (now : Z) : option (Z * Z) :=
  e ← m !! k; if now - e.1 <? w then Some e else None.

Definition ideal_call (w : Z) (m : gmap (list Z) (Z * Z)) (c : Z * call)
    : gmap (list Z) (Z * Z) * bool :=
  match c.2 with
  | Check_n k count limit =>
      let k := to_ascii_lowercase k in
      let '(start, n) := default (c.1, 0) (ideal_view w m k c.1) in
      if (limit =? 0) || (count =? 0) then (m, true)
      else if n + count <=? limit then (<[k := (start, n + count)]> m, true) else (m, false)
  | Refund_n k count charged_at =>
      let k := to_ascii_lowercase k in
      (match m !! k with
       | Some (start, n) =>
           if (start <=? charged_at) && (charged_at <? start + w)
           then <[k := (start, Z.max (n - count) 0)]> m else m
       | None => m
       end, true)
  end.

(** The limiter holds the ideal's entries, except windows that are over. *)
Definition simulates (w now : Z) (s : t) (m : gmap (list Z) (Z * Z)) : Prop :=
  limiter_wf s ∧ authenticated_keys s = true ∧ window_secs s = w ∧
  ∀ k, match entries s !! k with
       | Some e => m !! k = Some e ∧ e.1 ≤ now
       | None => ∀ e, m !! k = Some e → w ≤ now - e.1
       end.

Lemma simulates_later w now now' s m : now ≤ now' → simulates w now s m → simulates w now' s m.
Proof.
  intros Hle (Hwf & Ha & Hw & H). split_and!; try done. intros k. specialize (H k).
  destruct (entries s !! k) as [e|]; [split; [apply H|lia]|]. intros e He. specialize (H e He). lia.
Qed.

Lemma simulates_view w now s m k : simulates w now s m → ideal_view w m k now = view s now k.
Proof.
  intros (Hwf & Ha & Hw & H). specialize (H k). unfold ideal_view, view. rewrite Hw.
  destruct Hwf as (Hpos & _). destruct (entries s !! k) as [e|].
  - destruct H as [-> He]. simpl. unfold saturating_sub. by replace (Z.max (now - e.1) 0) with (now - e.1) by lia.
  - destruct (m !! k) as [e|]; [|done]. simpl. specialize (H e eq_refl).
    by destruct (Z.ltb_spec (now - e.1) w); [lia|].
Qed.

Lemma simulates_check w s m at_ k count limit :
  simulates w at_ s m → call_ok (at_, Check_n k count limit) →
  simulates w at_ (do_call s (at_, Check_n k count limit)).1 (ideal_call w m (at_, Check_n k count limit)).1 ∧
  (do_call s (at_, Check_n k count limit)).2 = (ideal_call w m (at_, Check_n k count limit)).2.
Proof.
  intros Hsim Hok. pose proof Hsim as (Hwf & Ha & Hw & H).
  pose proof (do_call_wf s _ Hwf Hok) as Hwf'.
  pose proof (do_call_authenticated s _ Hwf Hok) as [Ha' Hw'].
  unfold do_call, ideal_call in *. cbn [fst snd] in *. cbv zeta.
  rewrite (simulates_view w at_ s m _ Hsim).
  destruct (decide (limit = 0 ∨ count = 0)) as [H0|H0].
  { rewrite check_n_free by done. destruct (default _ _) as [start n].
    by destruct H0 as [->| ->]; rewrite ?orb_true_r. }
  destruct (check_n s k count limit at_) as [s' ok] eqn:E.
  destruct Hok as [Hc Hl]. apply check_n_spec in E as (_ & Hv & E); [|done|lia|lia].
  cbn [fst snd] in *. set (lk := to_ascii_lowercase k) in *.
  destruct (Z.eqb_spec limit 0); [lia|]. destruct (Z.eqb_spec count 0); [lia|]. cbn [orb].
  assert (Hn : (default (at_, 0) (view s at_ lk)).2 = used s at_ lk).
  { unfold used. by destruct (view s at_ lk). }
  destruct (default (at_, 0) (view s at_ lk)) as [start u] eqn:Ed. cbn [snd] in Hn. rewrite Hn, <- Hv.
  destruct ok; cbn [fst snd]; [|by subst s'].
  split; [|done]. split_and!; [done|congruence|congruence|].
  destruct E as (_ & _ & es & Hes & E). rewrite E.
  assert (Hentry : match view s at_ lk with Some e => (e.1, e.2 + count) | None => (at_, count) end =
    (start, used s at_ lk + count)).
  { unfold used. destruct (view s at_ lk) as [e|]; simpl in *; [by subst|]. by simplify_eq. }
  rewrite Hentry. intros k'. specialize (H k').
  destruct (decide (lk = k')) as [<-|Hne].
  - rewrite !lookup_insert_eq. split; [done|]. cbn [fst].
    destruct (view s at_ lk) as [e|] eqn:Ev; simpl in Ed; [|simplify_eq; lia].
    subst e. unfold view in Ev. destruct (entries s !! lk) as [e|]; [|done]. simpl in Ev.
    destruct (_ <? _); [|done]. injection Ev as ->. by destruct H.
  - rewrite !lookup_insert_ne by done. destruct Hes as [->|(k0 & e0 & E0 & -> & _ & Hover)]; [done|].
    destruct (decide (k0 = k')) as [->|Hne0].
    + rewrite lookup_delete_eq. rewrite E0 in H. destruct H as [-> Hle]. intros e [= <-].
      specialize (Hover Ha). unfold saturating_sub in Hover. destruct Hwf as (Hpos & _). lia.
    + by rewrite lookup_delete_ne.
Qed.

Lemma simulates_refund w s m at_ k count charged_at :
  simulates w at_ s m → call_ok (at_, Refund_n k count charged_at) →
  simulates w at_ (do_call s (at_, Refund_n k count charged_at)).1
    (ideal_call w m (at_, Refund_n k count charged_at)).1.
Proof.
  intros Hsim Hok. pose proof Hsim as (Hwf & Ha & Hw & H).
  pose proof (do_call_wf s _ Hwf Hok) as Hwf'.
  pose proof (do_call_authenticated s _ Hwf Hok) as [Ha' Hw'].
  unfold do_call, ideal_call in *. cbn [fst snd] in *. cbv zeta.
  split_and!; [done|congruence|congruence|]. intros k'.
  unfold refund. cbv zeta. set (lk := to_ascii_lowercase k) in *.
  pose proof (H lk) as Hk. specialize (H k'). destruct (entries s !! lk) as [e|] eqn:E.
  - destruct Hk as [Hm Hle]. rewrite Hm. destruct e as [start n]. cbn [fst snd] in *.
    assert (Hc : ((start <=? charged_at) && (saturating_sub charged_at start <? window_secs s)) =
                 ((start <=? charged_at) && (charged_at <? start + w))).
    { unfold saturating_sub. rewrite Hw. destruct (Z.leb_spec start charged_at); [|done]. simpl.
      apply eq_iff_eq_true. rewrite !Z.ltb_lt. destruct Hwf as (Hpos & _). lia. }
    rewrite Hc. clear Hc. destruct (_ && _); [|done]. unfold with_entry, saturating_sub. cbn [entries].
    destruct (decide (lk = k')) as [<-|Hne].
    + rewrite !lookup_insert_eq. done.
    + by rewrite !lookup_insert_ne.
  - destruct (m !! lk) as [[start n]|] eqn:Em; [|done].
    destruct (_ && _); [|done]. destruct (decide (lk = k')) as [<-|Hne].
    + rewrite E in *. rewrite lookup_insert_eq. intros e [= <-]. by apply (Hk (start, n)).
    + by rewrite lookup_insert_ne.
Qed.

Lemma simulates_answers w s m t0 cs :
  simulates w t0 s m → Forall call_ok cs → clocked t0 cs →
  (answers do_call s cs).2 = (answers (ideal_call w) m cs).2.
Proof.
  intros Hsim Hok. revert s m t0 Hsim.
  induction Hok as [|c cs Hc _ IH]; intros s m t0 Hsim Hclk; [done|].
  destruct Hclk as [Hle Hclk]. apply (simulates_later _ _ c.1) in Hsim; [|done].
  assert (simulates w c.1 (do_call s c).1 (ideal_call w m c).1 ∧
    (do_call s c).2 = (ideal_call w m c).2) as [Hs' Hb].
  { destruct c as [at_ [k count limit|k count charged_at]].
    - by apply simulates_check.
    - split; [by apply simulates_refund|done]. }
  cbn [answers]. destruct (do_call s c) as [s1 b1], (ideal_call w m c) as [m1 b2].
  cbn [fst snd] in *. specialize (IH s1 m1 c.1 Hs' Hclk).
  destruct (answers do_call s1 cs), (answers (ideal_call w) m1 cs). simpl in *. congruence.
Qed.

End runs.

(** ** Charging several limits: all or none *)

Section budget.
Import SubmissionBudget.
Context (now c : Z).
Hypothesis c_range : 0 < c ≤ u32_max.

(** A limiter of accounts or tenants whose windows all began by [now]. *)
Definition submission_limiter (s : WindowLimiter.t) : Prop :=
  limiter_wf s ∧ WindowLimiter.authenticated_keys s = true ∧
  ∀ k e, WindowLimiter.entries s !! k = Some e → e.1 ≤ now.

Definition occurrences (l : list (nat * list Z)) (id : nat) (k : list Z) : Z :=
  Z.of_nat (length (filter (λ x, x.1 = id ∧ to_ascii_lowercase x.2 = k) l)).

(** [v] is the running window [v0] with [n] more events; a window that was
    not running has started at [now]. *)
Definition lifts (v0 : option (Z * Z)) (n : Z) (v : option (Z * Z)) : Prop :=
  match v0 with
  | Some e => v = Some (e.1, e.2 + n)
  | None => v = Some (now, n) ∨ v = None ∧ n = 0
  end.

(** [s] is [s0] with [n k] more events on each key. *)
Definition limiter_lifts (s0 s : WindowLimiter.t) (n : list Z → Z) : Prop :=
  submission_limiter s ∧ WindowLimiter.window_secs s = WindowLimiter.window_secs s0 ∧
  ∀ k, lifts (view s0 now k) (n k) (view s now k).

Lemma used_later s k t :
  submission_limiter s → now ≤ t →
  used s t k = match view s now k with
               | Some e => if t - e.1 <? WindowLimiter.window_secs s then e.2 else 0
               | None => 0
               end.
Proof.
  intros (Hwf & _ & Hs) Ht. unfold used, view. specialize (Hs k).
  destruct (WindowLimiter.entries s !! k) as [e|]; [|done]. simpl. specialize (Hs e eq_refl).
  unfold saturating_sub. replace (Z.max (t - e.1) 0) with (t - e.1) by lia.
  replace (Z.max (now - e.1) 0) with (now - e.1) by lia.
  destruct (Z.ltb_spec (now - e.1) (WindowLimiter.window_secs s)); simpl; [by destruct (_ <? _)|].
  destruct (Z.ltb_spec (t - e.1) (WindowLimiter.window_secs s)); [lia|done].
Qed.

Lemma lifts_used s0 s n k :
  0 ≤ n k → limiter_lifts s0 s n → used s now k = used s0 now k + n k.
Proof.
  intros Hn (_ & _ & H). specialize (H k). unfold used, lifts in *.
  destruct (view s0 now k) as [e|]; [by rewrite H|]. destruct H as [->|[-> H]]; simpl; lia.
Qed.

Lemma lifts_zero_used s0 s n k t :
  submission_limiter s0 → limiter_lifts s0 s n → n k = 0 → now ≤ t → used s t k = used s0 t k.
Proof.
  intros Hs0 (Hs & Hw & H) Hn Ht. rewrite !used_later by done. rewrite Hw. specialize (H k).
  unfold lifts in H. rewrite Hn in H. destruct (view s0 now k) as [e|].
  - rewrite H. simpl. by rewrite Z.add_0_r.
  - destruct H as [->|[-> _]]; [|done]. simpl. by destruct (_ <? _).
Qed.

Lemma view_insert s s' k e k' :
  WindowLimiter.window_secs s' = WindowLimiter.window_secs s →
  WindowLimiter.entries s' = <[k := e]> (WindowLimiter.entries s) → k ≠ k' →
  view s' now k' = view s now k'.
Proof. intros Hw He Hne. unfold view. by rewrite He, Hw, lookup_insert_ne. Qed.

(** A charge lifts the key it names and no other. *)
Lemma charge_lifts s0 s s' n key limit :
  limiter_lifts s0 s n → 0 < limit < u32_max →
  WindowLimiter.check_n s key c limit now = (s', true) →
  limiter_lifts s0 s' (λ k, n k + if decide (to_ascii_lowercase key = k) then c else 0) ∧
  used s now (to_ascii_lowercase key) + c ≤ limit.
Proof.
  intros (Hs & Hw & H) Hl Hch. destruct Hs as (Hwf & Ha & Hst).
  apply check_n_spec in Hch as (Hwf' & Hok & Hw' & Ha' & es & Hes & He); [|done..].
  split; [|by apply Z.leb_le]. set (k0 := to_ascii_lowercase key) in *.
  set (e' := match view s now k0 with Some e => (e.1, e.2 + c) | None => (now, c) end) in *.
  assert (He' : e'.1 ≤ now).
  { unfold e', view. specialize (Hst k0). destruct (_ !! k0) as [e|]; simpl; [|lia].
    destruct (_ <? _); simpl; [by apply Hst|lia]. }
  assert (Hes_le : ∀ k e, es !! k = Some e → e.1 ≤ now).
  { intros k e. destruct Hes as [->|(k1 & e1 & _ & -> & _)]; [apply Hst|].
    intros [_ Hk]%lookup_delete_Some. by apply (Hst k). }
  split_and!; [split_and!; [done|congruence|]|congruence|].
  - intros k e. rewrite He. destruct (decide (k0 = k)) as [<-|Hne].
    + rewrite lookup_insert_eq. by intros [= <-].
    + rewrite lookup_insert_ne by done. apply Hes_le.
  - intros k. specialize (H k). destruct (decide (k0 = k)) as [<-|Hne].
    + assert (Hv' : view s' now k0 = Some e').
      { unfold view. rewrite He, lookup_insert_eq. simpl. rewrite Hw'.
        destruct (Z.ltb_spec (saturating_sub now e'.1) (WindowLimiter.window_secs s)) as [|Hge];
          [done|exfalso].
        revert Hge. unfold e', view. destruct Hwf as (Hpos & _).
        destruct (_ !! k0) as [e|]; simpl; [|unfold saturating_sub; lia].
        destruct (Z.ltb_spec (saturating_sub now e.1) (WindowLimiter.window_secs s)); simpl;
          unfold saturating_sub in *; lia. }
      rewrite Hv'. unfold e', lifts in *. destruct (view s0 now k0) as [e|].
      * rewrite H. simpl. do 2 f_equal. lia.
      * destruct H as [->|[-> ->]]; simpl; [|by left]. by left.
    + rewrite Z.add_0_r. assert (Hv : view s' now k = view s now k); [|by rewrite Hv].
      unfold view. rewrite He, Hw', lookup_insert_ne by done.
      destruct Hes as [->|(k1 & e1 & E1 & -> & _ & Hover)]; [done|].
      destruct (decide (k1 = k)) as [->|Hne1]; [|by rewrite lookup_delete_ne].
      rewrite lookup_delete_eq, E1. simpl. specialize (Hover Ha).
      by destruct (Z.ltb_spec (saturating_sub now e1.1) (WindowLimiter.window_secs s)); [lia|].
Qed.

(** A refund lowers a key that was lifted. *)
Lemma refund_lifts s0 s n key :
  limiter_lifts s0 s n → (∀ k, view s0 now k = None → 0 ≤ n k) →
  (∀ k e, view s0 now k = Some e → 0 ≤ e.2) → c ≤ n (to_ascii_lowercase key) →
  limiter_lifts s0 (WindowLimiter.refund s key c now)
    (λ k, n k - if decide (to_ascii_lowercase key = k) then c else 0).
Proof.
  intros (Hs & Hw & H) Hn0 Hpos Hc. destruct Hs as (Hwf & Ha & Hst).
  pose proof (refund_wf s key c now ltac:(lia) Hwf) as Hwf'. revert Hwf'.
  unfold WindowLimiter.refund. cbv zeta. set (k0 := to_ascii_lowercase key) in *.
  pose proof (H k0) as Hk0. pose proof (Hst k0) as Hst0.
  destruct (WindowLimiter.entries s !! k0) as [e|] eqn:E.
  - specialize (Hst0 e eq_refl). destruct (Z.leb_spec e.1 now) as [_|]; [|lia]. simpl.
    assert (Hv : view s now k0 = if saturating_sub now e.1 <? WindowLimiter.window_secs s
                                 then Some e else None) by (unfold view; by rewrite E).
    destruct (saturating_sub now e.1 <? WindowLimiter.window_secs s) eqn:Er.
    + intros Hwf'. split_and!; [split_and!; [done|done|]|done|].
      * intros k e'. simpl. destruct (decide (k0 = k)) as [<-|Hne].
        -- rewrite lookup_insert_eq. by intros [= <-].
        -- rewrite lookup_insert_ne by done. apply Hst.
      * intros k. destruct (decide (k0 = k)) as [<-|Hne].
        -- assert (Hv' : view (WindowLimiter.with_entry s k0 (e.1, saturating_sub e.2 c)) now k0 =
             Some (e.1, saturating_sub e.2 c)).
           { unfold view. simpl. rewrite lookup_insert_eq. simpl. by rewrite Er. }
           rewrite Hv'. rewrite Hv in Hk0. unfold lifts, saturating_sub in *.
           specialize (Hpos k0). destruct (view s0 now k0) as [e0|].
           ++ injection Hk0 as ->. simpl. specialize (Hpos e0 eq_refl). do 2 f_equal. lia.
           ++ destruct Hk0 as [[= ->]|[? _]]; [|done]. left. simpl. do 2 f_equal. lia.
        -- rewrite Z.sub_0_r. 
           rewrite (view_insert s (WindowLimiter.with_entry s k0 (e.1, saturating_sub e.2 c))
             k0 (e.1, saturating_sub e.2 c) k); [apply H|done|done|done].
    + exfalso. rewrite Hv in Hk0. unfold lifts in Hk0. specialize (Hpos k0).
      destruct (view s0 now k0); [done|]. destruct Hk0 as [?|[_ ?]]; [done|lia].
  - exfalso. assert (Hv : view s now k0 = None) by (unfold view; by rewrite E).
    rewrite Hv in Hk0. unfold lifts in Hk0.
    destruct (view s0 now k0); [done|]. destruct Hk0 as [?|[_ ?]]; [done|lia].
Qed.

(** The store lifted by the charges of the list [l]. *)
Definition store_lifts (st0 st : store) (l : list (nat * list Z)) : Prop :=
  ∀ id, match st0 !! id, st !! id with
        | Some s0, Some s => limiter_lifts s0 s (λ k, c * occurrences l id k)
        | None, None => True
        | _, _ => False
        end.

Definition store_ok (st : store) : Prop := map_Forall (λ _ s, submission_limiter s) st.

Lemma limiter_lifts_ext s0 s n n' :
  (∀ k, n k = n' k) → limiter_lifts s0 s n → limiter_lifts s0 s n'.
Proof. intros He (Hs & Hw & H). split_and!; try apply Hs; try done. intros k. by rewrite <- He. Qed.

Lemma occurrences_nonneg l id k : 0 ≤ occurrences l id k.
Proof. unfold occurrences. lia. Qed.

Lemma occurrences_snoc l id key id' k :
  occurrences (l ++ [(id, key)]) id' k =
    occurrences l id' k + if decide (id = id' ∧ to_ascii_lowercase key = k) then 1 else 0.
Proof.
  unfold occurrences. rewrite filter_app, length_app. destruct (decide _) as [[<- <-]|Hne].
  - rewrite filter_cons_True by done. simpl. lia.
  - rewrite filter_cons_False by done. simpl. lia.
Qed.

Lemma occurrences_cons l id key id' k :
  occurrences ((id, key) :: l) id' k =
    occurrences l id' k + if decide (id = id' ∧ to_ascii_lowercase key = k) then 1 else 0.
Proof.
  unfold occurrences. destruct (decide _) as [[<- <-]|Hne].
  - rewrite filter_cons_True by done. simpl. lia.
  - rewrite filter_cons_False by done. simpl. lia.
Qed.

Lemma view_count_nonneg s k e : limiter_wf s → view s now k = Some e → 0 ≤ e.2.
Proof.
  intros (_ & _ & Hr & _). unfold view. specialize (Hr k).
  destruct (_ !! k) as [e'|]; simpl; [|done]. destruct (_ <? _); [|done]. intros [= <-].
  by apply Hr.
Qed.

Lemma store_lifts_refl st : store_ok st → store_lifts st st [].
Proof.
  intros Hok id. destruct (st !! id) as [s|] eqn:E; [|done].
  split_and!; try apply (Hok _ _ E); [done|]. intros k. unfold lifts, occurrences. simpl.
  rewrite Z.mul_0_r. destruct (view s now k) as [[s1 n]|]; [|by right]. by rewrite Z.add_0_r.
Qed.

Lemma store_lifts_charge st0 st l id key limit s s' :
  store_lifts st0 st l → st !! id = Some s → 0 < limit < u32_max →
  WindowLimiter.check_n s key c limit now = (s', true) →
  store_lifts st0 (<[id := s']> st) (l ++ [(id, key)]) ∧
  used s now (to_ascii_lowercase key) + c ≤ limit.
Proof.
  intros H Es Hl Hch. pose proof (H id) as Hid. rewrite Es in Hid.
  destruct (st0 !! id) as [s0|] eqn:E0; [|done].
  destruct (charge_lifts s0 s s' _ key limit Hid Hl Hch) as [Hlift Hle]. split; [|done].
  intros id'. destruct (decide (id = id')) as [<-|Hne].
  - rewrite E0, lookup_insert_eq. eapply limiter_lifts_ext; [|exact Hlift]. intros k. simpl.
    rewrite occurrences_snoc. repeat case_decide; naive_solver lia.
  - rewrite lookup_insert_ne by done. specialize (H id').
    destruct (st0 !! id'), (st !! id'); try done. eapply limiter_lifts_ext; [|exact H].
    intros k. simpl. rewrite occurrences_snoc, decide_False by naive_solver. lia.
Qed.

Lemma store_lifts_refund st0 l : ∀ st,
  store_ok st0 → store_lifts st0 st l →
  store_lifts st0 (fold_left (refund_one c now) l st) [].
Proof.
  induction l as [|[id key] l IH]; intros st Hok H; simpl; [done|]. apply IH; [done|].
  pose proof (H id) as Hid. unfold refund_one. cbn [fst snd].
  destruct (st0 !! id) as [s0|] eqn:E0, (st !! id) as [s|] eqn:E; try done.
  - pose proof (Hok _ _ E0) as (Hwf0 & _).
    assert (Hr := refund_lifts s0 s _ key Hid). simpl in Hr.
    intros id'. destruct (decide (id = id')) as [<-|Hne].
    + rewrite E0, lookup_insert_eq. eapply limiter_lifts_ext; [|apply Hr].
      * intros k. simpl. rewrite occurrences_cons. repeat case_decide; naive_solver lia.
      * intros k _. pose proof (occurrences_nonneg ((id, key) :: l) id k). nia.
      * intros k e. by apply view_count_nonneg.
      * rewrite occurrences_cons, decide_True by done.
        pose proof (occurrences_nonneg l id (to_ascii_lowercase key)). nia.
    + rewrite lookup_insert_ne by done. specialize (H id').
      destruct (st0 !! id'), (st !! id'); try done. eapply limiter_lifts_ext; [|exact H].
      intros k. simpl. rewrite occurrences_cons, decide_False by naive_solver. lia.
  - intros id'. destruct (decide (id = id')) as [<-|Hne]; [by rewrite E0, E|].
    specialize (H id'). destruct (st0 !! id'), (st !! id'); try done.
    eapply limiter_lifts_ext; [|exact H]. intros k. simpl.
    rewrite occurrences_cons, decide_False by naive_solver. lia.
Qed.

Definition limits_ok (ls : list Limit) : Prop := Forall (λ l, 0 < per_min l < u32_max) ls.

Definition names (ls : list Limit) : list (nat * list Z) := map (λ x, (limiter x, key x)) ls.

Lemma occurrences_app l1 l2 id k :
  occurrences (l1 ++ l2) id k = occurrences l1 id k + occurrences l2 id k.
Proof. unfold occurrences. rewrite filter_app, length_app. lia. Qed.

(** The events a limit's key has in its running window before the charge. *)
Definition used_by (st0 : store) (x : Limit) : Z :=
  match st0 !! limiter x with
  | Some s0 => used s0 now (to_ascii_lowercase (key x))
  | None => 0
  end.

Definition demand (l : list (nat * list Z)) (x : Limit) : Z :=
  c * occurrences l (limiter x) (to_ascii_lowercase (key x)).

Lemma charge_loop_spec st0 ls : ∀ st l st' r,
  store_ok st0 → limits_ok ls → (∀ x, x ∈ ls → is_Some (st0 !! limiter x)) →
  store_lifts st0 st l →
  charge_loop st (mkCharge l c now) ls = (st', r) →
  match r with
  | Some ch =>
      ch = mkCharge (l ++ names ls) c now ∧ store_lifts st0 st' (l ++ names ls) ∧
      Forall (λ x, used_by st0 x + c ≤ per_min x) ls
  | None =>
      store_lifts st0 st' [] ∧
      Exists (λ x, per_min x < used_by st0 x + demand (l ++ names ls) x) ls
  end.
Proof.
  induction ls as [|x ls IH]; intros st l st' r Hok Hls Hdom H; cbn [charge_loop].
  { intros [= <- <-]. simpl. by rewrite app_nil_r. }
  apply Forall_cons in Hls as [Hx Hls]. cbn [count SubmissionBudget.now charged].
  pose proof (H (limiter x)) as Hid. destruct (Hdom x ltac:(by left)) as [s0 E0]. rewrite E0 in Hid.
  destruct (st !! limiter x) as [s|] eqn:E; [|done].
  assert (Hused : used s now (to_ascii_lowercase (key x)) = used_by st0 x + demand l x).
  { unfold used_by. rewrite E0. apply lifts_used with (n := λ k, c * occurrences l (limiter x) k); [|done].
    pose proof (occurrences_nonneg l (limiter x) (to_ascii_lowercase (key x))). nia. }
  pose proof (occurrences_nonneg l (limiter x) (to_ascii_lowercase (key x))) as Hocc.
  assert (Hsplit : l ++ names (x :: ls) = (l ++ [(limiter x, key x)]) ++ names ls)
    by (by rewrite <- app_assoc).
  destruct (WindowLimiter.check_n s (key x) c (per_min x) now) as [s' [|]] eqn:Ech.
  - intros Hrec. destruct (store_lifts_charge st0 st l _ _ _ s s' H E Hx Ech) as [H' Hfit].
    apply IH in Hrec; [|done|done|intros y Hy; apply Hdom; by right|done].
    rewrite Hsplit. destruct r as [ch|].
    + destruct Hrec as (? & ? & ?). split_and!; [done|done|]. constructor; [|done].
      unfold demand in Hused. nia.
    + destruct Hrec as [? ?]. split; [done|]. by constructor 2.
  - intros [= <- <-]. destruct Hid as (Hsl & _).
    apply check_n_spec in Ech as (_ & Hno & ->); [|apply Hsl|done|done].
    rewrite insert_id by done. split; [by apply store_lifts_refund|].
    constructor 1. symmetry in Hno. apply Z.leb_gt in Hno. unfold demand in *.
    change (names (x :: ls)) with ((limiter x, key x) :: names ls).
    rewrite occurrences_app, occurrences_cons, decide_True by done.
    pose proof (occurrences_nonneg (names ls) (limiter x) (to_ascii_lowercase (key x))). nia.
Qed.

End budget.

(** ** Properties *)

(** After any sequence of calls on a limiter keyed by network addresses,
    however the clock behaves, the map holds at most 10,000 keys and the queue
    at most 20,000 records; and the next call is accepted exactly when the
    events it brings fit under its limit in the key's running window: a full
    map never refuses an unseen key, and [has_room] predicts the verdict. *)
Theorem network_limiter_bounded_and_exact (w : Z) (cs : list (Z * call)) :
  Forall call_ok cs →
  let s := (answers do_call (WindowLimiter.new w) cs).1 in
  Z.of_nat (size (WindowLimiter.entries s)) ≤ 10000 ∧
  Z.of_nat (length (WindowLimiter.windows s)) ≤ 20000 ∧
  ∀ key count limit now, 0 < count ≤ u32_max → 0 < limit < u32_max →
    (WindowLimiter.check_n s key count limit now).2 =
      (used s now (to_ascii_lowercase key) + count <=? limit) ∧
    (WindowLimiter.check_n s key count limit now).2 =
      WindowLimiter.has_room s key count limit now.
Proof.
  intros Hcs s. destruct (answers_wf (WindowLimiter.new w) cs) as (Hwf & Ha & _);
    [apply new_wf|done|]. fold s in Hwf, Ha.
  pose proof Hwf as (_ & _ & Hr & Hq & Hsz). specialize (Hsz Ha).
  unfold WindowLimiter.size_of, WindowLimiter.count_of, WindowLimiter.MAX_ENTRIES in *.
  split_and!; [done|lia|]. intros key count limit now Hc Hl.
  destruct (WindowLimiter.check_n s key count limit now) as [s' ok] eqn:E.
  apply check_n_spec in E as (_ & -> & _); [|done..]. split; [done|]. simpl.
  rewrite has_room_used by lia. unfold saturating_add. apply eq_iff_eq_true.
  rewrite !Z.leb_le. lia.
Qed.

Lemma network_limiter_bounded_and_exact_witness :
  let s := (answers do_call (WindowLimiter.new 60) [(5, Check_n (lit "A") 2 3)]).1 in
  (WindowLimiter.check_n s (lit "a") 2 3 6).2 = false ∧
  (WindowLimiter.check_n s (lit "a") 2 3 65).2 = true.
Proof.
  assert (Hok : Forall call_ok [(5, Check_n (lit "A") 2 3)]).
  { repeat constructor; simpl; unfold u32_max; lia. }
  destruct (network_limiter_bounded_and_exact 60 _ Hok) as (_ & _ & H). cbv zeta in *. split.
  - destruct (H (lit "a") 2 3 6) as [-> _]; [unfold u32_max; lia..|]. vm_compute. reflexivity.
  - destruct (H (lit "a") 2 3 65) as [-> _]; [unfold u32_max; lia..|]. vm_compute. reflexivity.
Defined.



(** Charging a submission against several limits is all or none.  A
    refused charge leaves every key of every limiter with the events it had, at
    this and every later time, and happens only when some limit is exceeded by
    the demand on its key; an accepted charge adds one unit per recipient for
    each limit naming the key, had room in every limit, and dropped before it
    is accepted gives everything back. *)
Theorem charge_all_or_none (st : gmap nat WindowLimiter.t) (b : SubmissionBudget.Budget)
    (recipients now : Z) :
  0 < recipients ≤ u32_max → store_ok now st → limits_ok (SubmissionBudget.limits b) →
  (∀ x, x ∈ SubmissionBudget.limits b → is_Some (st !! SubmissionBudget.limiter x)) →
  let ls := SubmissionBudget.limits b in
  let same st' := ∀ id s k t, st !! id = Some s → now ≤ t →
                    ∃ s', st' !! id = Some s' ∧ used s' t k = used s t k in
  match SubmissionBudget.charge st b recipients now with
  | (st', None) =>
      same st' ∧
      Exists (λ x, SubmissionBudget.per_min x < used_by now st x + demand recipients (names ls) x) ls
  | (st', Some ch) =>
      Forall (λ x, used_by now st x + recipients ≤ SubmissionBudget.per_min x) ls ∧
      (∀ id s k, st !! id = Some s → ∃ s', st' !! id = Some s' ∧
         used s' now k = used s now k + recipients * occurrences (names ls) id k) ∧
      same (SubmissionBudget.drop_pending st' (Some ch)) ∧
      SubmissionBudget.drop_pending st' (SubmissionBudget.accept (Some ch)) = st'
  end.
Proof.
  intros Hn Hok Hls Hdom ls same.
  assert (Hsame : ∀ st', store_lifts now recipients st st' [] → same st').
  { intros st' H id s k t E Ht. specialize (H id). rewrite E in H.
    destruct (st' !! id) as [s'|]; [|done]. exists s'. split; [done|].
    eapply lifts_zero_used; [by apply (Hok id)|exact H| |done].
    unfold occurrences. simpl. lia. }
  destruct (SubmissionBudget.charge st b recipients now) as [st' r] eqn:E.
  unfold SubmissionBudget.charge in E.
  apply (charge_loop_spec now recipients Hn st) in E; [|done..|by apply store_lifts_refl].
  destruct r as [ch|]; [|destruct E; auto].
  destruct E as (-> & Hl & Hfit). split_and!; [done| | |done].
  - intros id s k Es. pose proof (Hl id) as H. rewrite Es in H.
    destruct (st' !! id) as [s'|]; [|done]. exists s'. split; [done|].
    eapply lifts_used with (n := λ k, recipients * occurrences (names ls) id k); [|exact H].
    pose proof (occurrences_nonneg (names ls) id k). nia.
  - apply Hsame. by apply store_lifts_refund.
Qed.

Lemma charge_all_or_none_witness :
  let st : gmap nat WindowLimiter.t :=
    {[ 0%nat := WindowLimiter.for_authenticated_keys 60; 1%nat := WindowLimiter.for_authenticated_keys 60 ]} in
  let b := SubmissionBudget.for_account (lit "bob") (Some (0%nat, 9)) [(1%nat, lit "acme", 3)] in
  (SubmissionBudget.charge st b 5 100).2 = None ∧
  ∀ s, st !! 0%nat = Some s → ∃ s', (SubmissionBudget.charge st b 5 100).1 !! 0%nat = Some s' ∧
    used s' 130 (lit "bob") = used s 130 (lit "bob").
Proof.
  intros st b.
  assert (Hok : store_ok 100 st).
  { intros id s Hs. assert (s = WindowLimiter.for_authenticated_keys 60) as ->.
    { apply lookup_insert_Some in Hs as [[_ <-]|[_ Hs]]; [done|].
      by apply lookup_singleton_Some in Hs as [_ <-]. }
    split_and!; [apply for_authenticated_keys_wf|done|]. intros k e. simpl. by rewrite lookup_empty. }
  assert (Hls : limits_ok (SubmissionBudget.limits b))
    by (repeat constructor; simpl; unfold u32_max; lia).
  assert (Hdom : ∀ x, x ∈ SubmissionBudget.limits b → is_Some (st !! SubmissionBudget.limiter x)).
  { intros x Hx. simpl in Hx. rewrite !elem_of_cons, elem_of_nil in Hx.
    destruct Hx as [->|[->|[]]]; eexists; reflexivity. }
  pose proof (charge_all_or_none st b 5 100 ltac:(unfold u32_max; lia) Hok Hls Hdom) as H.
  cbv zeta in H. assert (Hr : (SubmissionBudget.charge st b 5 100).2 = None) by (vm_compute; reflexivity).
  destruct (SubmissionBudget.charge st b 5 100) as [st' r]. simpl in Hr. subst r.
  split; [done|]. destruct H as [H _]. intros s Hs. apply H; [done|lia].
Defined.
