(* ===== verification/LineFraming.v ===== *)
(** * Strict CRLF line framing (src/src/smtp/line/mod.rs)

    [LineCheck] is the per-byte automaton shared by the DATA line decoder and
    the BDAT body check; [LineDecoder] is the incremental decoder over received
    bytes. The theorems relate both to a declarative grammar of CRLF-framed
    text ([well_framed]) and show that no way of cutting the stream into reads
    or BDAT chunks changes the verdict. *)
From S2P Require Import Prelude.

(** ** The program *)

Definition MAX_LINE_LENGTH : nat := 998.

Inductive LineError :=
| BareControlCharacter
| TooLong
| NulByte.

Inductive Step :=
| More
| EndOfLine.

#[export] Instance LineError_eq_dec : EqDecision LineError.
Proof. solve_decision. Defined.
#[export] Instance Step_eq_dec : EqDecision Step.
Proof. solve_decision. Defined.

Module LineCheck.

Record t := mk {
  len : nat;          (** octets of the current line, a pending CR not counted *)
  cr : bool;          (** the last byte was a CR waiting for its LF *)
  escape_dot : bool   (** a leading dot counts as two octets *)
}.

Definition new : t := mk 0 false false.

Definition stored : t := mk 0 false true.

Definition resume (n : nat) : t := mk n false false.

Definition step (c : t) (byte : Z) (max_line : nat) : t * result LineError Step :=
  if cr c then
    if negb (byte =? LF)%Z then (c, Err BareControlCharacter)
    else
      let n := len c in
      (mk 0 false (escape_dot c),
       if max_line <? n then Err TooLong else Ok EndOfLine)
  else if (byte =? NUL)%Z then (c, Err NulByte)
  else if (byte =? LF)%Z then (c, Err BareControlCharacter)
  else if (byte =? CR)%Z then (mk (len c) true (escape_dot c), Ok More)
  else
    (mk (len c + if escape_dot c && (len c =? 0) && (byte =? DOT)%Z then 2 else 1)
        (cr c) (escape_dot c), Ok More).

(** The [for] loop of [feed]: stops at the first violation. *)
Fixpoint steps (c : t) (bytes : list Z) (max_line : nat) : t * result LineError unit :=
  match bytes with
  | [] => (c, Ok tt)
  | byte :: bytes =>
      match step c byte max_line with
      | (c, Ok _) => steps c bytes max_line
      | (c, Err e) => (c, Err e)
      end
  end.

Definition check_open (c : t) (max_line : nat) : result LineError unit :=
  if max_line + 1 <? len c + Nat.b2n (cr c) then Err TooLong else Ok tt.

Definition feed (c : t) (bytes : list Z) (max_line : nat) : t * result LineError unit :=
  match steps c bytes max_line with
  | (c, Ok _) => (c, check_open c max_line)
  | (c, Err e) => (c, Err e)
  end.

Definition finish (c : t) (max_line : nat) : result LineError unit :=
  if cr c then Err BareControlCharacter
  else if max_line <? len c then Err TooLong
  else Ok tt.

End LineCheck.

Module LineDecoder.

Record t := mk {
  buffer : list Z;
  max_line : nat;
  scanned : nat   (** bytes at the front of [buffer] known to hold no CR, LF or NUL *)
}.

Definition with_limit (max_line : nat) : t := mk [] max_line 0.

Definition new : t := with_limit MAX_LINE_LENGTH.

Definition feed (d : t) (bytes : list Z) : t :=
  mk (buffer d ++ bytes) (max_line d) (scanned d).

Definition take_buffered (d : t) (max : nat) : t * list Z :=
  let take := length (buffer d) `min` max in
  (mk (drop take (buffer d)) (max_line d) 0, list.take take (buffer d)).

Definition discard_buffered (d : t) (max : nat) : t * nat :=
  let take := length (buffer d) `min` max in
  (mk (drop take (buffer d)) (max_line d) 0, take).

(** The [for] loop of [next_line] over [buffer[i..]]: the error of a step, the
    index of the LF that ended the line, or the check when bytes ran out. *)
Inductive Scan :=
| Failed (e : LineError)
| Found (i : nat)
| Exhausted (c : LineCheck.t).

Fixpoint scan (c : LineCheck.t) (max_line i : nat) (rest : list Z) : Scan :=
  match rest with
  | [] => Exhausted c
  | byte :: rest =>
      match LineCheck.step c byte max_line with
      | (_, Err e) => Failed e
      | (_, Ok EndOfLine) => Found i
      | (c, Ok More) => scan c max_line (S i) rest
      end
  end.

Definition next_line (d : t) : t * result LineError (option (list Z)) :=
  let check := LineCheck.resume (scanned d) in
  match scan check (max_line d) (scanned d) (drop (scanned d) (buffer d)) with
  | Failed e => (d, Err e)
  | Found i =>
      (mk (drop (S i) (buffer d)) (max_line d) 0, Ok (Some (take (i - 1) (buffer d))))
  | Exhausted check =>
      let d := mk (buffer d) (max_line d) (LineCheck.len check) in
      (d, let? _ := LineCheck.check_open check (max_line d) in Ok None)
  end.

End LineDecoder.

(** ** Declarative framing *)

(** A byte that may appear inside a line. *)
Definition clean_byte (b : Z) : bool :=
  negb (b =? CR)%Z && negb (b =? LF)%Z && negb (b =? NUL)%Z.

Definition clean (line : list Z) : Prop := Forall (λ b, clean_byte b = true) line.

(** Octets counted once [line] follows [n] octets of the same line. *)
Definition octets (escape : bool) (n : nat) (line : list Z) : nat :=
  n + length line +
    match line with
    | b :: _ => if escape && (n =? 0) && (b =? DOT)%Z then 1 else 0
    | [] => 0
    end.

Definition CRLF : list Z := [CR; LF].

(** Lines as they cross the wire. *)
Definition wire (lines : list (list Z)) : list Z := concat (map (λ l, l ++ CRLF) lines).

(** CRLF-framed text after [n] octets of its first line: complete lines and
    a last line that may be open, all within [max] octets. *)
Inductive well_framed (escape : bool) (max : nat) : nat → list Z → Prop :=
| framed_open n line :
    clean line → octets escape n line ≤ max → well_framed escape max n line
| framed_line n line rest :
    clean line → octets escape n line ≤ max → well_framed escape max 0 rest →
    well_framed escape max n (line ++ CRLF ++ rest).

(** ** Theory of the per-byte check *)

Section check.
Import LineCheck.
Context (max : nat).

Lemma step_clean c b :
  cr c = false → clean_byte b = true →
  step c b max = (mk (octets (escape_dot c) (len c) [b]) false (escape_dot c), Ok More).
Proof.
  intros Hcr Hb. unfold clean_byte in Hb. unfold step, octets. rewrite Hcr.
  destruct (b =? NUL)%Z, (b =? LF)%Z, (b =? CR)%Z; try done.
  do 2 f_equal. simpl. case_match; lia.
Qed.

Lemma octets_cons e n b l :
  octets e (octets e n [b]) l = octets e n (b :: l).
Proof.
  unfold octets. simpl.
  assert (Hnz : (n + 1 + (if e && (n =? 0) && (b =? DOT)%Z then 1 else 0) =? 0) = false).
  { apply Nat.eqb_neq. case_match; lia. }
  destruct l as [|b' l]; [simpl; lia|].
  rewrite Hnz, andb_false_r. simpl. lia.
Qed.

Lemma steps_app c l1 l2 :
  steps c (l1 ++ l2) max =
    match steps c l1 max with
    | (c', Ok _) => steps c' l2 max
    | r => r
    end.
Proof.
  revert c. induction l1 as [|b l1 IH]; intros c; simpl; [done|].
  destruct (step c b max) as [c' [s|e]]; [apply IH | done].
Qed.

Lemma steps_clean c l :
  cr c = false → clean l →
  steps c l max = (mk (octets (escape_dot c) (len c) l) false (escape_dot c), Ok tt).
Proof.
  intros Hcr Hl. revert c Hcr. induction Hl as [|b l Hb Hl IH]; intros c Hcr; simpl.
  - destruct c; simpl in *; subst. unfold octets; simpl. do 2 f_equal. lia.
  - rewrite step_clean by done. rewrite IH by done. simpl. by rewrite octets_cons.
Qed.

(** A CR of a well-formed line has already been seen: only its LF may follow. *)
Lemma steps_crlf c l :
  cr c = false → clean l → octets (escape_dot c) (len c) l ≤ max →
  steps c (l ++ CRLF) max = (mk 0 false (escape_dot c), Ok tt).
Proof.
  intros Hcr Hl Hmax. rewrite steps_app, steps_clean by done. simpl.
  by int_test.
Qed.

(** Every byte string starts with a clean run that ends at a control byte. *)
Lemma split_clean (l : list Z) :
  clean l ∨ ∃ l1 b l2, l = l1 ++ b :: l2 ∧ clean l1 ∧ clean_byte b = false.
Proof.
  induction l as [|b l IH]; [by left; constructor|].
  destruct (clean_byte b) eqn:Hb.
  - destruct IH as [IH|(l1 & b' & l2 & -> & Hl & Hb')].
    + left. by constructor.
    + right. exists (b :: l1), b', l2. split; [done|]. split; [by constructor|done].
  - right. exists [], b, l. split; [done|]. split; [constructor|done].
Qed.

Lemma not_clean_byte b : clean_byte b = false → b = CR ∨ b = LF ∨ b = NUL.
Proof. unfold clean_byte. intros. lia. Qed.

(** The octets of a line once a check has been opened on it. *)
Definition accepts (c : t) (l : list Z) : Prop :=
  ∃ c', steps c l max = (c', Ok tt) ∧ finish c' max = Ok tt.

Lemma accepts_well_framed c l :
  cr c = false →
  accepts c l ↔ well_framed (escape_dot c) max (len c) l.
Proof.
  remember (length l) as k eqn:Hk. revert c l Hk.
  induction k as [k IH] using lt_wf_ind. intros c l -> Hcr. split.
  - intros (c' & Hs & Hf). destruct (split_clean l) as [Hl|(l1 & b & l2 & -> & Hl & Hb)].
    + rewrite steps_clean in Hs by done. injection Hs as <-.
      apply framed_open; [done|]. unfold finish in Hf. simpl in Hf.
      by int_test.
    + rewrite steps_app, steps_clean in Hs by done. simpl in Hs.
      destruct (not_clean_byte _ Hb) as [-> | [-> | ->]]; simpl in Hs; try done.
      destruct l2 as [|b2 l2]; simpl in Hs; [injection Hs as <-; done|].
      unfold step in Hs; simpl in Hs.
      destruct (b2 =? LF)%Z eqn:Hb2; simpl in Hs; [|done].
      apply Z.eqb_eq in Hb2 as ->. int_test.
      apply (framed_line _ _ _ l1 l2); [done|done|].
      eapply (IH (length l2)) with (c := mk 0 false (escape_dot c)); [|done|done|].
      { rewrite length_app. simpl. lia. }
      by exists c'.
  - intros Hwf. inversion Hwf as [n line Hl Ho | n line rest Hl Ho Hr]; subst.
    + eexists. split; [by apply steps_clean|]. unfold finish. simpl.
      by int_test.
    + assert (Ha : accepts (mk 0 false (escape_dot c)) rest).
      { eapply (IH (length rest)); [|done|done|done].
        rewrite !length_app. simpl. lia. }
      destruct Ha as (c' & Hs & Hf). exists c'. split; [|done].
      rewrite app_assoc, steps_app, steps_crlf by done. exact Hs.
Qed.

(** A line already past the cap can only end in an error: the early refusal of
    [check_open] loses nothing. *)
Lemma open_too_long_rejects c l :
  check_open c max = Err TooLong → ¬ accepts c l.
Proof.
  unfold check_open. int_test; [intros _|done].
  intros (c' & Hs & Hf). destruct (cr c) eqn:Hcr.
  - destruct l as [|b l]; simpl in Hs.
    + injection Hs as <-. unfold finish in Hf. by rewrite Hcr in Hf.
    + unfold step in Hs. rewrite Hcr in Hs. destruct (b =? LF)%Z; [|done]. simpl in *.
      by int_test.
  - assert (Hw : accepts c l) by (exists c'; done).
    apply accepts_well_framed in Hw; [|done]. simpl in *.
    inversion Hw as [n line Hl Ho | n line rest Hl Ho Hr]; subst; unfold octets in Ho; lia.
Qed.

(** Feeding a body in pieces, as BDAT does: the first refusal ends it. *)
Fixpoint feed_all (c : t) (chunks : list (list Z)) : t * result LineError unit :=
  match chunks with
  | [] => (c, Ok tt)
  | chunk :: chunks =>
      match feed c chunk max with
      | (c, Ok _) => feed_all c chunks
      | r => r
      end
  end.

Definition accepts_chunks (c : t) (chunks : list (list Z)) : Prop :=
  ∃ c', feed_all c chunks = (c', Ok tt) ∧ finish c' max = Ok tt.

Lemma accepts_chunks_concat c chunks :
  accepts_chunks c chunks ↔ accepts c (concat chunks).
Proof.
  revert c. induction chunks as [|chunk chunks IH]; intros c; [done|].
  unfold accepts_chunks, accepts. simpl. unfold feed. setoid_rewrite steps_app.
  destruct (steps c chunk max) as [c' [[]|e]]; [|split; intros (? & ? & ?); done].
  destruct (check_open c' max) as [[]|e] eqn:Ho; [apply IH|].
  assert (e = TooLong) as -> by (unfold check_open in Ho; case_match; congruence).
  split; [intros (? & ? & ?); done|]. intros Ha.
  exfalso. by eapply open_too_long_rejects.
Qed.

End check.

(** ** Theory of the decoder *)

(** The longest clean prefix and what follows it. *)
Fixpoint span_clean (l : list Z) : list Z * list Z :=
  match l with
  | [] => ([], [])
  | b :: l => if clean_byte b then let '(p, r) := span_clean l in (b :: p, r) else ([], b :: l)
  end.

(** What a decoder with the whole buffer before it and no memory of earlier
    scans answers: the first line and the bytes after it, [None] when the line
    is not finished. *)
Definition first_line (max : nat) (buf : list Z)
    : result LineError (option (list Z * list Z)) :=
  match span_clean buf with
  | (l, []) => if max + 1 <? length l then Err TooLong else Ok None
  | (l, b :: r) =>
      if (b =? NUL)%Z then Err NulByte
      else if (b =? LF)%Z then Err BareControlCharacter
      else
        match r with
        | [] => if max <? length l then Err TooLong else Ok None
        | b2 :: r =>
            if negb (b2 =? LF)%Z then Err BareControlCharacter
            else if max <? length l then Err TooLong
            else Ok (Some (l, r))
        end
  end.

Section decoder.
Import LineDecoder.

(** The scanned prefix lies in the buffer and holds no CR, LF or NUL. *)
Definition decoder_wf (d : t) : Prop :=
  scanned d ≤ length (buffer d) ∧ clean (take (scanned d) (buffer d)).

Lemma span_clean_spec l :
  l = (span_clean l).1 ++ (span_clean l).2 ∧ clean (span_clean l).1 ∧
  match (span_clean l).2 with b :: _ => clean_byte b = false | [] => True end.
Proof.
  induction l as [|b l IH]; simpl; [by repeat constructor|].
  destruct (span_clean l) as [p r]. destruct (clean_byte b) eqn:Hb; simpl in *.
  - destruct IH as (-> & Hp & Hr). split_and!; [done|by constructor|done].
  - split_and!; [done|constructor|done].
Qed.

Lemma span_clean_app l b r :
  clean l → clean_byte b = false → span_clean (l ++ b :: r) = (l, b :: r).
Proof.
  intros Hl Hb. induction Hl as [|x l Hx Hl IH]; simpl; [by rewrite Hb|].
  by rewrite Hx, IH.
Qed.

Lemma span_clean_all l : clean l → span_clean l = (l, []).
Proof. induction 1 as [|x l Hx Hl IH]; simpl; [done|]. by rewrite Hx, IH. Qed.

Lemma scan_clean n max i l rest :
  clean l →
  scan (LineCheck.resume n) max i (l ++ rest) =
  scan (LineCheck.resume (n + length l)) max (i + length l) rest.
Proof.
  intros Hl. revert n i. induction Hl as [|b l Hb Hl IH]; intros n i; simpl.
  - by rewrite !Nat.add_0_r.
  - rewrite step_clean by done. simpl.
    replace (octets false n [b]) with (S n) by (unfold octets; simpl; lia).
    change (LineCheck.mk (S n) false false) with (LineCheck.resume (S n)).
    rewrite IH. f_equal; [f_equal|]; lia.
Qed.

(** The resumed scan sees what a scan of the whole buffer sees. *)
Lemma scan_resume d :
  decoder_wf d →
  scan (LineCheck.resume (scanned d)) (max_line d) (scanned d) (drop (scanned d) (buffer d))
  = scan (LineCheck.resume 0) (max_line d) 0 (buffer d).
Proof.
  intros [Hle Hc]. rewrite <- (take_drop (scanned d) (buffer d)) at 2.
  rewrite scan_clean by done. rewrite length_take, Nat.min_l by done. done.
Qed.

Lemma scan_whole max buf :
  scan (LineCheck.resume 0) max 0 buf =
  match span_clean buf with
  | (l, []) => Exhausted (LineCheck.resume (length l))
  | (l, b :: r) =>
      if (b =? NUL)%Z then Failed NulByte
      else if (b =? LF)%Z then Failed BareControlCharacter
      else
        match r with
        | [] => Exhausted (LineCheck.mk (length l) true false)
        | b2 :: r =>
            if negb (b2 =? LF)%Z then Failed BareControlCharacter
            else if max <? length l then Failed TooLong
            else Found (S (length l))
        end
  end.
Proof.
  destruct (span_clean_spec buf) as (Hbuf & Hl & Hr).
  destruct (span_clean buf) as [l r]; simpl in *. rewrite Hbuf.
  rewrite scan_clean by done. simpl. destruct r as [|b r]; [done|]. simpl.
  destruct (not_clean_byte _ Hr) as [-> | [-> | ->]]; simpl; [|done|done].
  destruct r as [|b2 r]; [done|]. simpl. unfold LineCheck.step; simpl.
  by int_tests.
Qed.

(** What the decoder holds after a call, in terms of [first_line]. *)
Lemma next_line_spec d :
  decoder_wf d →
  (next_line d).2 =
    match first_line (max_line d) (buffer d) with
    | Ok o => Ok (fst <$> o)
    | Err e => Err e
    end ∧
  buffer (next_line d).1 =
    match first_line (max_line d) (buffer d) with
    | Ok (Some (_, rest)) => rest
    | _ => buffer d
    end ∧
  max_line (next_line d).1 = max_line d ∧
  decoder_wf (next_line d).1.
Proof.
  intros Hwf. unfold next_line. rewrite scan_resume, scan_whole by done.
  unfold first_line. destruct (span_clean_spec (buffer d)) as (Hbuf & Hl & Hr).
  destruct (span_clean (buffer d)) as [l r]; simpl in *.
  destruct r as [|b r].
  - unfold LineCheck.check_open. simpl. rewrite app_nil_r in Hbuf.
    assert (decoder_wf (mk (buffer d) (max_line d) (length l))).
    { split; simpl; rewrite Hbuf; [lia|]. by rewrite firstn_all. }
    rewrite Nat.add_0_r. by int_test.
  - destruct (not_clean_byte _ Hr) as [-> | [-> | ->]]; simpl; [|done|done].
    destruct r as [|b2 r].
    + unfold LineCheck.check_open. simpl.
      assert (decoder_wf (mk (buffer d) (max_line d) (length l))).
      { split; simpl; rewrite Hbuf; [rewrite length_app; lia|].
        by rewrite take_app_length. }
      replace (max_line d + 1 <? length l + 1) with (max_line d <? length l) by (by int_tests).
      by int_test.
    + destruct (Z.eqb_spec b2 LF) as [->|]; simpl; [|done].
      int_test; [done|]. split_and!; [|idtac|done|].
      * rewrite Hbuf, Nat.sub_0_r, take_app_length. done.
      * rewrite Hbuf. change (CR :: LF :: r) with ([CR; LF] ++ r).
        rewrite app_assoc. apply drop_app_length'. rewrite length_app. simpl. lia.
      * split; simpl; [lia|constructor].
Qed.

(** Every decoder the server can hold: a fresh one, and what the operations
    make of it. *)
Inductive decoder_reachable (max : nat) : t → Prop :=
| reach_new : decoder_reachable max (with_limit max)
| reach_feed d bytes : decoder_reachable max d → decoder_reachable max (feed d bytes)
| reach_next d : decoder_reachable max d → decoder_reachable max (next_line d).1
| reach_take d n : decoder_reachable max d → decoder_reachable max (take_buffered d n).1
| reach_discard d n : decoder_reachable max d → decoder_reachable max (discard_buffered d n).1.

Lemma feed_wf d bytes : decoder_wf d → decoder_wf (feed d bytes).
Proof.
  intros [Hle Hc]. split; simpl; [rewrite length_app; lia|].
  by rewrite take_app_le.
Qed.

Lemma reachable_wf max d : decoder_reachable max d → decoder_wf d ∧ max_line d = max.
Proof.
  induction 1 as [|d bytes _ [Hwf Hm]|d _ [Hwf Hm]|d n _ [Hwf Hm]|d n _ [Hwf Hm]].
  - by repeat constructor.
  - split; [by apply feed_wf|done].
  - destruct (next_line_spec d Hwf) as (_ & _ & Hm' & Hwf'). split; congruence.
  - split; [|done]. split; simpl; [lia|constructor].
  - split; [|done]. split; simpl; [lia|constructor].
Qed.

(** The lines a reader gets by calling [next_line] until it has no more; each
    line takes two bytes at least, so [S (length (buffer d))] calls are enough. *)
Fixpoint drain (fuel : nat) (d : t) : t * result LineError (list (list Z)) :=
  match fuel with
  | 0 => (d, Ok [])
  | S fuel =>
      match next_line d with
      | (d, Err e) => (d, Err e)
      | (d, Ok None) => (d, Ok [])
      | (d, Ok (Some line)) =>
          match drain fuel d with
          | (d, Ok lines) => (d, Ok (line :: lines))
          | r => r
          end
      end
  end.

(** A connection: each read is fed and every finished line is taken. *)
Fixpoint run_reads (d : t) (reads : list (list Z)) : t * result LineError (list (list Z)) :=
  match reads with
  | [] => (d, Ok [])
  | bytes :: reads =>
      let d := feed d bytes in
      match drain (S (length (buffer d))) d with
      | (d, Err e) => (d, Err e)
      | (d, Ok lines) =>
          match run_reads d reads with
          | (d, Ok more) => (d, Ok (lines ++ more))
          | r => r
          end
      end
  end.

Lemma clean_not_ctl l : clean l → Forall (λ b, b ≠ CR ∧ b ≠ LF ∧ b ≠ NUL) l.
Proof. intros H. eapply Forall_impl; [exact H|]. unfold clean_byte. simpl. intros. lia. Qed.

Lemma first_line_found max l rest :
  clean l → length l ≤ max → first_line max (l ++ CRLF ++ rest) = Ok (Some (l, rest)).
Proof.
  intros Hl Hmax. unfold first_line. simpl. rewrite span_clean_app by done. simpl.
  by int_test.
Qed.

Lemma first_line_sound max buf line rest :
  first_line max buf = Ok (Some (line, rest)) →
  buf = line ++ CRLF ++ rest ∧ clean line ∧ length line ≤ max.
Proof.
  unfold first_line. destruct (span_clean_spec buf) as (Hbuf & Hl & Hr).
  destruct (span_clean buf) as [l [|b r]]; simpl in *; [by int_test|].
  destruct (not_clean_byte _ Hr) as [-> | [-> | ->]]; simpl; [|done|done].
  destruct r as [|b2 r]; [by int_test|].
  destruct (Z.eqb_spec b2 LF) as [->|]; simpl; [|done].
  int_test; [done|]. by intros [= <- <-].
Qed.

Lemma first_line_pending max buf :
  first_line max buf = Ok None → length buf ≤ max + 1.
Proof.
  unfold first_line. destruct (span_clean_spec buf) as (Hbuf & Hl & Hr).
  destruct (span_clean buf) as [l [|b r]]; simpl in *.
  - rewrite Hbuf, app_nil_r. by int_test.
  - destruct (not_clean_byte _ Hr) as [-> | [-> | ->]]; simpl; [|done|done].
    destruct r as [|b2 r].
    + rewrite Hbuf, length_app. simpl. int_test; [done|intros; lia].
    + destruct (b2 =? LF)%Z; simpl; [|done]. by int_test.
Qed.

(** A buffer that holds part of a line of legal text yields that line or waits. *)
Lemma first_line_prefix max l buf rest w :
  clean l → length l ≤ max → buf ++ rest = l ++ CRLF ++ w →
  (∃ buf', first_line max buf = Ok (Some (l, buf')) ∧ buf' ++ rest = w) ∨
  first_line max buf = Ok None ∧ length buf < length l + 2.
Proof.
  intros Hl Hmax Heq. destruct (decide (length buf < length l + 2)) as [Hlt|Hge].
  - right. split; [|done]. unfold first_line.
    destruct (decide (length buf ≤ length l)) as [Hle|Hgt].
    + assert (Hpre : buf = take (length buf) l).
      { apply (f_equal (take (length buf))) in Heq.
        by rewrite take_app_length, take_app_le in Heq by lia. }
      rewrite span_clean_all; [by int_test|]. rewrite Hpre. by apply Forall_take.
    + assert (Hpre : buf = l ++ [CR]).
      { apply (f_equal (take (length buf))) in Heq.
        rewrite take_app_length, take_app_ge in Heq by lia.
        by replace (length buf - length l) with 1 in Heq by lia. }
      rewrite Hpre, span_clean_app by done. simpl. by int_test.
  - left. assert (Hb : buf = l ++ CRLF ++ drop (length l + 2) buf).
    { rewrite <- (take_drop (length l + 2) buf) at 1. rewrite app_assoc. f_equal.
      apply (f_equal (take (length l + 2))) in Heq.
      rewrite take_app_le in Heq by lia. rewrite Heq, app_assoc.
      by rewrite take_app_length' by (rewrite length_app; simpl; lia). }
    exists (drop (length l + 2) buf). split.
    + rewrite Hb at 1. by apply first_line_found.
    + rewrite Hb in Heq. rewrite <- !app_assoc in Heq. by simplify_eq.
Qed.

Definition legal (max : nat) (line : list Z) : Prop := clean line ∧ length line ≤ max.

Lemma wire_cons l lines : wire (l :: lines) = l ++ CRLF ++ wire lines.
Proof. unfold wire. simpl. by rewrite <- app_assoc. Qed.

Lemma first_line_nil max : first_line max [] = Ok None.
Proof. unfold first_line. cbn [span_clean length]. by int_test. Qed.

Lemma drain_wire fuel d lines rest :
  decoder_wf d → Forall (legal (max_line d)) lines →
  buffer d ++ rest = wire lines → length (buffer d) < fuel →
  ∃ d' got todo, drain fuel d = (d', Ok got) ∧ lines = got ++ todo ∧
    buffer d' ++ rest = wire todo ∧ decoder_wf d' ∧ max_line d' = max_line d ∧
    (rest = [] → todo = []).
Proof.
  revert d lines. induction fuel as [|fuel IH]; intros d lines Hwf Hlegal Heq Hfuel; [lia|].
  simpl. destruct (next_line_spec d Hwf) as (Hres & Hbuf & Hmax & Hwf').
  destruct (next_line d) as [d1 r1]; simpl in *.
  destruct lines as [|l lines].
  - unfold wire in Heq; simpl in Heq. apply app_eq_nil in Heq as [Hnil ->].
    rewrite Hnil, first_line_nil in *. simplify_eq/=.
    exists d1, [], []. rewrite Hbuf. done.
  - rewrite wire_cons in Heq. apply Forall_cons in Hlegal as [[Hl Hlen] Hlegal].
    destruct (first_line_prefix _ _ _ _ _ Hl Hlen Heq) as [(buf' & Hf & Hrest)|[Hf Hlt]];
      rewrite Hf in *; subst r1; simpl.
    + destruct (IH d1 lines) as (d' & got & todo & Hd & -> & Hb & Hw & Hm & Hn).
      { done. } { by rewrite Hmax. } { by rewrite Hbuf. }
      { apply first_line_sound in Hf as (Hf & _ & _). rewrite Hf in Hfuel.
        rewrite !length_app in Hfuel. rewrite Hbuf. simpl in *. lia. }
      exists d', (l :: got), todo. rewrite Hd. split_and!; try done. congruence.
    + exists d1, [], (l :: lines). rewrite Hbuf, Hmax, wire_cons.
      split_and!; try done. intros ->. rewrite app_nil_r in Heq. rewrite Heq in Hlt.
      rewrite !length_app in Hlt. simpl in *. lia.
Qed.

Lemma run_reads_wire d reads lines :
  decoder_wf d → Forall (legal (max_line d)) lines →
  buffer d ++ concat reads = wire lines → reads ≠ [] ∨ lines = [] →
  ∃ d', run_reads d reads = (d', Ok lines) ∧ buffer d' = [] ∧ decoder_wf d' ∧
    max_line d' = max_line d.
Proof.
  revert d lines. induction reads as [|bytes reads IH]; intros d lines Hwf Hlegal Heq Hne.
  - destruct Hne as [?| ->]; [done|]. exists d. simpl in *. rewrite app_nil_r in Heq. done.
  - simpl in Heq. rewrite app_assoc in Heq.
    destruct (drain_wire (S (length (buffer (feed d bytes)))) (feed d bytes) lines (concat reads))
      as (d1 & got & todo & Hd & -> & Hb & Hw & Hm & Hn);
      [by apply feed_wf|done|done|lia|].
    change (run_reads d (bytes :: reads)) with
      (match drain (S (length (buffer (feed d bytes)))) (feed d bytes) with
       | (d, Err e) => (d, Err e)
       | (d, Ok lines) =>
          match run_reads d reads with
          | (d, Ok more) => (d, Ok (lines ++ more))
          | r => r
          end
       end).
    rewrite Hd. simpl in Hm.
    destruct (IH d1 todo) as (d' & Hr & Hb' & Hw' & Hm'); [done| | done | |].
    { rewrite Hm. by apply Forall_app in Hlegal as [_ ?]. }
    { destruct reads; [right; by apply Hn|by left]. }
    exists d'. rewrite Hr. split_and!; congruence.
Qed.

End decoder.

(** ** Dot-stuffing and the agreement of DATA and BDAT *)

(** A body line as a DATA sender writes it (RFC 5321 section 4.5.2). *)
Definition dot_stuff (line : list Z) : list Z :=
  match line with
  | b :: _ => if (b =? DOT)%Z then DOT :: line else line
  | [] => []
  end.

Lemma length_dot_stuff line : length (dot_stuff line) = octets true 0 line.
Proof. destruct line as [|b line]; [done|]. unfold octets. simpl. by int_test; simpl; lia. Qed.

Lemma clean_dot_stuff line : clean line → clean (dot_stuff line).
Proof. destruct line as [|b line]; [done|]. simpl. int_test; [|done]. by constructor. Qed.

Lemma clean_app_ctl l1 l2 b1 b2 r1 r2 :
  clean l1 → clean l2 → clean_byte b1 = false → clean_byte b2 = false →
  l1 ++ b1 :: r1 = l2 ++ b2 :: r2 → l1 = l2 ∧ b1 = b2 ∧ r1 = r2.
Proof.
  intros Hl1 Hl2 Hb1 Hb2 Heq. apply (f_equal span_clean) in Heq.
  rewrite !span_clean_app in Heq by done. by simplify_eq.
Qed.

Lemma well_framed_wire escape max lines :
  Forall clean lines →
  well_framed escape max 0 (wire lines) ↔ Forall (λ l, octets escape 0 l ≤ max) lines.
Proof.
  induction 1 as [|l lines Hl Hls IH].
  - split; [constructor|]. intros _. apply framed_open; [constructor|]. unfold octets; simpl; lia.
  - rewrite wire_cons, Forall_cons, <- IH. split.
    + intros Hwf. inversion Hwf as [n line Hc Ho En Heq | n line rest Hc Ho Hr En Heq]; subst n.
      * exfalso. apply clean_not_ctl in Hc. rewrite Forall_app in Hc. destruct Hc as [_ Hc].
        simpl in Hc. apply Forall_cons in Hc as [[]]. done.
      * simpl in Heq. apply clean_app_ctl in Heq as (-> & _ & Heq); try done. by simplify_eq.
    + intros [Ho Hw]. by apply framed_line.
Qed.

Section decoder_sound.
Import LineDecoder.

Lemma drain_legal fuel d d' got :
  decoder_wf d → drain fuel d = (d', Ok got) →
  Forall (legal (max_line d)) got ∧ decoder_wf d' ∧ max_line d' = max_line d.
Proof.
  revert d d' got. induction fuel as [|fuel IH]; intros d d' got Hwf; simpl.
  - intros [= <- <-]. by split_and!; [constructor| |].
  - destruct (next_line_spec d Hwf) as (Hres & _ & Hmax & Hwf').
    destruct (next_line d) as [d1 [[line|]|e]]; simpl in *; [| |done].
    + destruct (drain fuel d1) as [d2 [lines|e]] eqn:Hd; [|done]. intros [= <- <-].
      destruct (IH _ _ _ Hwf' Hd) as (Hl & Hw & Hm). rewrite Hmax in *.
      split_and!; [|done|congruence]. constructor; [|done].
      destruct (first_line (max_line d) (buffer d)) as [[[l rest]|]|e] eqn:Hf; simplify_eq/=.
      apply first_line_sound in Hf as (_ & ? & ?). done.
    + intros [= <- <-]. split_and!; [constructor|done|done].
Qed.

Lemma run_reads_legal d reads d' got :
  decoder_wf d → run_reads d reads = (d', Ok got) → Forall (legal (max_line d)) got.
Proof.
  revert d d' got. induction reads as [|bytes reads IH]; intros d d' got Hwf.
  - intros [= <- <-]. constructor.
  - cbn [run_reads]. cbv zeta.
    destruct (drain _ (feed d bytes)) as [d1 [lines|e]] eqn:Hd; [|done].
    apply drain_legal in Hd as (Hl & Hw & Hm); [|by apply feed_wf]. simpl in *.
    destruct (run_reads d1 reads) as [d2 [more|e]] eqn:Hr; [|done]. intros [= <- <-].
    apply Forall_app; split; [done|]. rewrite <- Hm. by eapply IH.
Qed.

End decoder_sound.

(** ** Properties *)

(** For every decoder the server can hold, [next_line] with its resumed
    scan answers exactly what a memoryless decoder of the whole buffer
    answers: the same error with the buffer kept, the same first line with the
    same rest, or a wait that keeps the buffer and remembers the scan. *)
Theorem next_line_refines_first_line (max : nat) (d : LineDecoder.t)
    (Hd : decoder_reachable max d) :
  match first_line max (LineDecoder.buffer d) with
  | Ok (Some (line, rest)) =>
      (LineDecoder.next_line d).2 = Ok (Some line) ∧
      LineDecoder.buffer (LineDecoder.next_line d).1 = rest
  | Ok None =>
      (LineDecoder.next_line d).2 = Ok None ∧
      LineDecoder.buffer (LineDecoder.next_line d).1 = LineDecoder.buffer d
  | Err e =>
      (LineDecoder.next_line d).2 = Err e ∧
      LineDecoder.buffer (LineDecoder.next_line d).1 = LineDecoder.buffer d
  end.
Proof.
  apply reachable_wf in Hd as [Hwf <-].
  destruct (next_line_spec d Hwf) as (-> & -> & _).
  by destruct (first_line _ _) as [[[]|]|].
Qed.

Lemma next_line_refines_first_line_witness :
  decoder_reachable 5 (LineDecoder.feed (LineDecoder.next_line
    (LineDecoder.feed (LineDecoder.with_limit 5) [65; 66]%Z)).1 [67; CR; LF; 68]%Z) ∧
  (LineDecoder.next_line (LineDecoder.feed (LineDecoder.next_line
    (LineDecoder.feed (LineDecoder.with_limit 5) [65; 66]%Z)).1 [67; CR; LF; 68]%Z)).2
  = Ok (Some [65; 66; 67]%Z).
Proof.
  split; [repeat constructor|].
  exact (proj1 (next_line_refines_first_line 5 (LineDecoder.feed (LineDecoder.next_line
    (LineDecoder.feed (LineDecoder.with_limit 5) [65; 66]%Z)).1 [67; CR; LF; 68]%Z)
    (reach_feed _ _ _ (reach_next _ _ (reach_feed _ _ _ (reach_new 5)))))).
Defined.

(** No smuggling and no unbounded buffering. A line handed out was
    delimited by one CRLF, is within the limit and holds no CR, LF or NUL, and
    the bytes after that CRLF are exactly what stays buffered; when the decoder
    asks for more it holds at most one octet more than the limit. *)
Theorem next_line_safe (max : nat) (d d' : LineDecoder.t) (r : option (list Z))
    (Hd : decoder_reachable max d) (Hn : LineDecoder.next_line d = (d', Ok r)) :
  match r with
  | Some line =>
      LineDecoder.buffer d = line ++ CRLF ++ LineDecoder.buffer d' ∧
      Forall (λ b, b ≠ CR ∧ b ≠ LF ∧ b ≠ NUL) line ∧ length line ≤ max
  | None => LineDecoder.buffer d' = LineDecoder.buffer d ∧
      length (LineDecoder.buffer d') ≤ max + 1
  end.
Proof.
  apply reachable_wf in Hd as [Hwf <-].
  destruct (next_line_spec d Hwf) as (Hres & Hbuf & _). rewrite Hn in *. simpl in *.
  destruct (first_line _ _) as [[[line rest]|]|] eqn:Hf; simplify_eq/=.
  - apply first_line_sound in Hf as (? & ? & ?). by auto using clean_not_ctl.
  - rewrite Hbuf. by apply first_line_pending in Hf.
Qed.

Lemma next_line_safe_witness :
  LineDecoder.buffer (LineDecoder.feed (LineDecoder.with_limit 5) [65; CR; LF; 66]%Z)
    = [65]%Z ++ CRLF ++ [66]%Z.
Proof.
  exact (proj1 (next_line_safe 5
    (LineDecoder.feed (LineDecoder.with_limit 5) [65; CR; LF; 66]%Z)
    (LineDecoder.mk [66]%Z 5 0) (Some [65]%Z)
    (reach_feed _ _ _ (reach_new 5)) eq_refl)).
Defined.

(** Whatever way the network cuts a stream of legal lines into reads, the
    decoder hands out exactly those lines and ends with an empty buffer. *)
Theorem decoder_roundtrip_any_cut (max : nat) (reads lines : list (list Z))
    (Hlegal : Forall (legal max) lines) (Hcut : concat reads = wire lines) :
  ∃ d, run_reads (LineDecoder.with_limit max) reads = (d, Ok lines) ∧
    LineDecoder.buffer d = [].
Proof.
  destruct (run_reads_wire (LineDecoder.with_limit max) reads lines) as (d & Hr & Hb & _ & _).
  - split; simpl; [lia|constructor].
  - done.
  - done.
  - destruct reads; [right|by left]. destruct lines as [|[] ?]; done.
  - by exists d.
Qed.

Lemma decoder_roundtrip_any_cut_witness :
  ∃ d, run_reads (LineDecoder.with_limit 3) [[65]; [66; CR]; [LF; CR; LF]]%Z
    = (d, Ok [[65; 66]; []]%Z) ∧ LineDecoder.buffer d = [].
Proof.
  apply (decoder_roundtrip_any_cut 3 [[65]; [66; CR]; [LF; CR; LF]]%Z [[65; 66]; []]%Z);
    [|reflexivity].
  repeat constructor; simpl; lia.
Defined.

(** the verdict on a BDAT body does not depend on how it was cut into
    chunks: the chunks are accepted exactly when their concatenation is
    CRLF-framed text whose lines, a leading dot counted twice, fit the limit. *)
Theorem bdat_verdict_independent_of_chunks (max : nat) (chunks : list (list Z)) :
  accepts_chunks max LineCheck.stored chunks ↔ well_framed true max 0 (concat chunks).
Proof. rewrite accepts_chunks_concat. by apply accepts_well_framed. Qed.

(** DATA and BDAT agree on every message. A body of lines without stray
    controls is accepted in BDAT chunks exactly when the DATA decoder hands out
    all its dot-stuffed lines, however either stream was cut. *)
Theorem bdat_refuses_what_data_refuses (max : nat) (lines chunks reads : list (list Z))
    (Hclean : Forall clean lines) (Hchunks : concat chunks = wire lines)
    (Hreads : concat reads = wire (map dot_stuff lines)) :
  accepts_chunks max LineCheck.stored chunks ↔
  ∃ d, run_reads (LineDecoder.with_limit max) reads = (d, Ok (map dot_stuff lines)).
Proof.
  rewrite accepts_chunks_concat, accepts_well_framed, Hchunks, well_framed_wire by done.
  simpl. split.
  - intros Hoct. destruct (run_reads_wire (LineDecoder.with_limit max) reads
      (map dot_stuff lines)) as (d & Hr & _); [| |done| |by exists d].
    + split; simpl; [lia|constructor].
    + simpl. apply Forall_map. rewrite Forall_forall in *. intros l Hin.
      split; [apply clean_dot_stuff; auto|]. rewrite length_dot_stuff. auto.
    + destruct reads; [right|by left]. destruct lines as [|l lines]; [done|].
      simpl in Hreads. rewrite wire_cons in Hreads. by destruct (dot_stuff l).
  - intros (d & Hr). apply run_reads_legal in Hr; [|split; simpl; [lia|constructor]].
    rewrite Forall_map in Hr. eapply Forall_impl; [exact Hr|].
    intros l [_ Hlen]. rewrite <- length_dot_stuff. exact Hlen.
Qed.

Lemma bdat_refuses_what_data_refuses_witness :
  accepts_chunks 3 LineCheck.stored [[DOT]; [65; CR]; [LF]]%Z ↔
  ∃ d, run_reads (LineDecoder.with_limit 3) [[DOT; DOT; 65]; [CR; LF]]%Z
    = (d, Ok [[DOT; DOT; 65]]%Z).
Proof.
  apply (bdat_refuses_what_data_refuses 3 [[DOT; 65]]%Z); [|reflexivity..].
  repeat constructor.
Defined.
