(* ===== verification/SmtpReply.v ===== *)
(** Server replies (src/src/smtp/reply/mod.rs), the replies to a line that
    breaks the framing (src/src/smtp/trace/mod.rs) and the SASL mechanisms on
    offer (src/src/sasl/mod.rs). *)

From S2P Require Import Prelude RustStd LineFraming.

Local Open Scope Z_scope.

Record Reply := mkReply { code : Z; lines : list (list Z) }.
#[export] Instance Reply_eq_dec : EqDecision Reply.
Proof. solve_decision. Defined.

Module Reply.

(** [Reply::new] panics on a code outside 200..=599 and on no lines: [None]. *)
Definition new (code : Z) (lines : list (list Z)) : option Reply :=
  if (in_range 200 599 code) && negb (match lines with [] => true | _ => false end)
  then Some (mkReply code lines) else None.

Definition single (code : Z) (text : string) : Reply := mkReply code [lit text].

Definition is_positive (r : Reply) : bool := in_range 200 399 (code r).

(** [Display]: hyphens on all lines but the last. *)
Fixpoint display_lines (code : Z) (lines : list (list Z)) : list Z :=
  match lines with
  | [] => []
  | [line] => decimal code ++ 32 :: line ++ [CR; LF]
  | line :: lines => (decimal code ++ 45 :: line ++ [CR; LF]) ++ display_lines code lines
  end.
Definition display (r : Reply) : list Z := display_lines (code r) (lines r).

Definition ok : Reply := single 250 "2.0.0 ok".
Definition closing : Reply := single 221 "2.0.0 closing connection".
Definition syntax_error : Reply := single 500 "5.5.2 syntax error".
Definition invalid_arguments : Reply := single 501 "5.5.4 invalid arguments".
Definition bad_sequence : Reply := single 503 "5.5.1 bad sequence of commands".
Definition vrfy_not_disclosed : Reply :=
  single 252 "2.1.5 cannot verify, send some mail and find out".
Definition start_mail_input : Reply := single 354 "start mail input, end with <CRLF>.<CRLF>".

End Reply.

Definition line_error_reply (error : LineError) : Reply :=
  match error with
  | BareControlCharacter =>
      Reply.single 554 "5.5.2 bare CR or LF is not allowed, closing connection"
  | LineFraming.TooLong => Reply.single 500 "5.5.2 line too long, closing connection"
  | NulByte => Reply.single 554 "5.5.2 NUL byte received, closing connection"
  end.

(** ** SASL mechanisms *)

Module Sasl.

Inductive Mechanism :=
  External | ScramSha256Plus | ScramSha256 | Plain | Login | OauthBearer | Xoauth2.
#[export] Instance Mechanism_eq_dec : EqDecision Mechanism.
Proof. solve_decision. Defined.

Definition name (m : Mechanism) : list Z :=
  lit match m with
      | External => "EXTERNAL"
      | ScramSha256Plus => "SCRAM-SHA-256-PLUS"
      | ScramSha256 => "SCRAM-SHA-256"
      | Plain => "PLAIN"
      | Login => "LOGIN"
      | OauthBearer => "OAUTHBEARER"
      | Xoauth2 => "XOAUTH2"
      end.

Definition all : list Mechanism :=
  [External; ScramSha256Plus; ScramSha256; Plain; Login; OauthBearer; Xoauth2].

Definition parse (s : list Z) : option Mechanism :=
  let upper := to_ascii_uppercase s in
  find (λ m, str_eqb (name m) upper) all.

Definition available (external channel_binding scram_enabled oauth : bool) : list Mechanism :=
  (if external then [External] else []) ++
  (if scram_enabled && channel_binding then [ScramSha256Plus] else []) ++
  (if scram_enabled then [ScramSha256] else []) ++
  [Plain; Login] ++
  (if oauth then [OauthBearer; Xoauth2] else []).

Definition is_available (m : Mechanism) (external channel_binding scram_enabled oauth : bool) : bool :=
  bool_decide (m ∈ available external channel_binding scram_enabled oauth).

End Sasl.
