(* ===== verification/SmtpCommand.v ===== *)
(** * SMTP command parsing (src/src/smtp/command.rs) *)
From S2P Require Import Prelude RustStd.
Open Scope Z_scope.

(** ** The program *)

Definition MAX_COMMAND_LINE : nat := 512.

Inductive Body := SevenBit | EightBitMime.
Inductive Ret := Full | Headers.
Inductive Notify :=
| Never
| On (success failure delay : bool).

Inductive Command :=
| Helo (domain : list Z)
| Ehlo (domain : list Z)
| MailFrom (reverse_path : list Z) (size : option Z) (body : option Body)
    (require_tls : bool) (ret : option Ret) (envid : option (list Z))
| RcptTo (forward_path : list Z) (notify : option Notify) (orcpt : option (list Z))
| Data
| Bdat (size : Z) (last : bool)
| Rset
| Noop
| Quit
| Vrfy
| StartTls
| Auth (mechanism : list Z) (initial : option (list Z)).

Inductive ParseError :=
| LineTooLong
| InvalidCharacters
| UnknownCommand
| InvalidArguments
| UnsupportedParameter.

#[export] Instance Body_eq_dec : EqDecision Body.
Proof. solve_decision. Defined.
#[export] Instance Ret_eq_dec : EqDecision Ret.
Proof. solve_decision. Defined.
#[export] Instance Notify_eq_dec : EqDecision Notify.
Proof. solve_decision. Defined.
#[export] Instance Command_eq_dec : EqDecision Command.
Proof. solve_decision. Defined.
#[export] Instance ParseError_eq_dec : EqDecision ParseError.
Proof. solve_decision. Defined.

Definition SPACE : Z := 32.

Definition parse_no_args (args : list Z) (command : Command) : result ParseError Command :=
  if is_empty args then Ok command else Err InvalidArguments.

Definition parse_domain_arg (args : list Z) : result ParseError (list Z) :=
  if is_empty args || contains SPACE args then Err InvalidArguments else Ok args.

Definition parse_bdat (args : list Z) : result ParseError Command :=
  match split_ascii_whitespace args with
  | [] => Err InvalidArguments
  | token :: parts =>
      let? size := ok_or InvalidArguments (parse_uint usize_max token) in
      match parts with
      | [] => Ok (Bdat size false)
      | token :: parts =>
          if eq_ignore_ascii_case token (lit "LAST") then
            match parts with
            | [] => Ok (Bdat size true)
            | _ => Err InvalidArguments
            end
          else Err InvalidArguments
      end
  end.

Definition valid_mech_char (c : Z) : bool :=
  is_ascii_alphanumeric c || (c =? 45) || (c =? 95).

Definition parse_auth (args : list Z) : result ParseError Command :=
  match split_ascii_whitespace args with
  | [] => Err InvalidArguments
  | mechanism :: parts =>
      let initial := head parts in
      match tail parts with
      | _ :: _ => Err InvalidArguments
      | [] =>
          if negb (forallb valid_mech_char mechanism) then Err InvalidArguments
          else
            Ok (Auth (to_ascii_uppercase mechanism)
                  ((λ i, if str_eqb i (lit "=") then [] else i) <$> initial))
      end
  end.

Definition LT : Z := 60.
Definition GT : Z := 62.

(** [FROM:<path>] or [TO:<path>], and the parameters after it. *)
Definition parse_path_arg (args prefix : list Z) : result ParseError (list Z * list Z) :=
  let? rest :=
    match split_at_byte (str_len prefix) args with
    | Some (head, tail) =>
        if eq_ignore_ascii_case head prefix then Ok (trim_start tail) else Err InvalidArguments
    | None => Err InvalidArguments
    end in
  let? after_open := ok_or InvalidArguments (strip_prefix [LT] rest) in
  let? '(path, after_close) := ok_or InvalidArguments (split_once GT after_open) in
  if contains LT path || contains GT path || contains SPACE path then Err InvalidArguments
  else if negb (is_empty after_close) && negb (starts_with [SPACE] after_close)
  then Err InvalidArguments
  else Ok (path, trim after_close).

Definition keyword_char (c : Z) : bool := is_ascii_alphanumeric c || (c =? 45).

(** One parameter of [split_parameters]. *)
Definition split_parameter (parameter : list Z) : result ParseError (list Z * option (list Z)) :=
  let '(keyword, value) :=
    match split_once 61 parameter with
    | Some (keyword, value) => (keyword, Some value)
    | None => (parameter, None)
    end in
  if is_empty keyword || negb (forallb keyword_char keyword)
  then Err InvalidArguments
  else Ok (keyword, value).

Definition split_parameters (params : list Z)
    : result ParseError (list (list Z * option (list Z))) :=
  collect split_parameter (split_ascii_whitespace params).

(** [MailParams]. *)
Record MailParams := mkMailParams {
  mp_size : option Z;
  mp_body : option Body;
  mp_require_tls : bool;
  mp_ret : option Ret;
  mp_envid : option (list Z)
}.

Definition MailParams_default : MailParams := mkMailParams None None false None None.

(** One turn of the loop of [parse_mail_parameters]. *)
Definition mail_parameter (out : MailParams) (kv : list Z * option (list Z))
    : result ParseError MailParams :=
  let '(keyword, value) := kv in
  let keyword := to_ascii_uppercase keyword in
  if str_eqb keyword (lit "SIZE") then
    let? value := ok_or InvalidArguments value in
    let? parsed := ok_or InvalidArguments (parse_uint u64_max value) in
    match mp_size out with
    | Some _ => Err InvalidArguments
    | None => Ok (mkMailParams (Some parsed) (mp_body out) (mp_require_tls out) (mp_ret out) (mp_envid out))
    end
  else if str_eqb keyword (lit "BODY") then
    let? value := ok_or InvalidArguments value in
    let value := to_ascii_uppercase value in
    let? parsed :=
      if str_eqb value (lit "7BIT") then Ok SevenBit
      else if str_eqb value (lit "8BITMIME") then Ok EightBitMime
      else Err InvalidArguments in
    match mp_body out with
    | Some _ => Err InvalidArguments
    | None => Ok (mkMailParams (mp_size out) (Some parsed) (mp_require_tls out) (mp_ret out) (mp_envid out))
    end
  else if str_eqb keyword (lit "REQUIRETLS") then
    match value, mp_require_tls out with
    | None, false => Ok (mkMailParams (mp_size out) (mp_body out) true (mp_ret out) (mp_envid out))
    | _, _ => Err InvalidArguments
    end
  else if str_eqb keyword (lit "SMTPUTF8") then
    match value with
    | Some _ => Err InvalidArguments
    | None => Ok out
    end
  else if str_eqb keyword (lit "RET") then
    let? value := ok_or InvalidArguments value in
    let value := to_ascii_uppercase value in
    let? parsed :=
      if str_eqb value (lit "FULL") then Ok Full
      else if str_eqb value (lit "HDRS") then Ok Headers
      else Err InvalidArguments in
    match mp_ret out with
    | Some _ => Err InvalidArguments
    | None => Ok (mkMailParams (mp_size out) (mp_body out) (mp_require_tls out) (Some parsed) (mp_envid out))
    end
  else if str_eqb keyword (lit "ENVID") then
    let? value := ok_or InvalidArguments value in
    match mp_envid out with
    | Some _ => Err InvalidArguments
    | None => Ok (mkMailParams (mp_size out) (mp_body out) (mp_require_tls out) (mp_ret out) (Some value))
    end
  else Err UnsupportedParameter.

Definition parse_mail_parameters (params : list Z) : result ParseError MailParams :=
  let? pairs := split_parameters params in
  try_fold mail_parameter MailParams_default pairs.

(** One token of [NOTIFY=]: [(success, failure, delay, never)]. *)
Definition notify_token (s : bool * bool * bool * bool) (token : list Z)
    : result ParseError (bool * bool * bool * bool) :=
  let '(success, failure, delay, never) := s in
  let token := to_ascii_uppercase token in
  if str_eqb token (lit "NEVER") then Ok (success, failure, delay, true)
  else if str_eqb token (lit "SUCCESS") then Ok (true, failure, delay, never)
  else if str_eqb token (lit "FAILURE") then Ok (success, true, delay, never)
  else if str_eqb token (lit "DELAY") then Ok (success, failure, true, never)
  else Err InvalidArguments.

Definition parse_notify (value : list Z) : result ParseError Notify :=
  let? '(success, failure, delay, never) :=
    try_fold notify_token (false, false, false, false) (split 44 value) in
  if never : bool then
    if success || failure || delay then Err InvalidArguments else Ok Never
  else Ok (On success failure delay).

Definition rcpt_parameter (out : option Notify * option (list Z)) (kv : list Z * option (list Z))
    : result ParseError (option Notify * option (list Z)) :=
  let '(notify, orcpt) := out in
  let '(keyword, value) := kv in
  let keyword := to_ascii_uppercase keyword in
  if str_eqb keyword (lit "NOTIFY") then
    let? value := ok_or InvalidArguments value in
    let? parsed := parse_notify value in
    match notify with
    | Some _ => Err InvalidArguments
    | None => Ok (Some parsed, orcpt)
    end
  else if str_eqb keyword (lit "ORCPT") then
    let? value := ok_or InvalidArguments value in
    match orcpt with
    | Some _ => Err InvalidArguments
    | None => Ok (notify, Some value)
    end
  else Err UnsupportedParameter.

Definition parse_rcpt_parameters (params : list Z)
    : result ParseError (option Notify * option (list Z)) :=
  let? pairs := split_parameters params in
  try_fold rcpt_parameter (None, None) pairs.

Definition parse (line : list Z) : result ParseError Command :=
  if (MAX_COMMAND_LINE <? str_len line)%nat then Err LineTooLong
  else if existsb is_control line then Err InvalidCharacters
  else
    let '(verb, args) :=
      match split_once SPACE line with
      | Some (verb, args) => (verb, trim args)
      | None => (line, [])
      end in
    let verb := to_ascii_uppercase verb in
    if str_eqb verb (lit "HELO") then
      let? domain := parse_domain_arg args in Ok (Helo domain)
    else if str_eqb verb (lit "EHLO") then
      let? domain := parse_domain_arg args in Ok (Ehlo domain)
    else if str_eqb verb (lit "MAIL") then
      let? '(path, params) := parse_path_arg args (lit "FROM:") in
      let? mail := parse_mail_parameters params in
      Ok (MailFrom path (mp_size mail) (mp_body mail) (mp_require_tls mail)
            (mp_ret mail) (mp_envid mail))
    else if str_eqb verb (lit "RCPT") then
      let? '(path, params) := parse_path_arg args (lit "TO:") in
      let? '(notify, orcpt) := parse_rcpt_parameters params in
      Ok (RcptTo path notify orcpt)
    else if str_eqb verb (lit "DATA") then parse_no_args args Data
    else if str_eqb verb (lit "BDAT") then parse_bdat args
    else if str_eqb verb (lit "RSET") then parse_no_args args Rset
    else if str_eqb verb (lit "NOOP") then Ok Noop
    else if str_eqb verb (lit "QUIT") then parse_no_args args Quit
    else if str_eqb verb (lit "VRFY") then Ok Vrfy
    else if str_eqb verb (lit "STARTTLS") then parse_no_args args StartTls
    else if str_eqb verb (lit "AUTH") then parse_auth args
    else Err UnknownCommand.

(** ** Where the characters of a command come from *)

Lemma strip_prefix_sub p s r : strip_prefix p s = Some r → r ⊆ s.
Proof.
  unfold strip_prefix. case_match; [|done]. intros [= <-] x Hx.
  rewrite <- (take_drop (length p) s). apply elem_of_app. by right.
Qed.

Lemma words_by_sub sep acc s w :
  w ∈ words_by sep acc s → w ⊆ rev acc ++ s.
Proof.
  revert acc. induction s as [|x s IH]; intros acc; simpl.
  - destruct acc as [|a acc]; simpl; [by intros ?%elem_of_nil|].
    intros ->%list_elem_of_singleton. set_solver.
  - destruct (sep x).
    + destruct acc as [|a acc]; simpl.
      * intros H%IH. simpl in H. set_solver.
      * intros [->|H%IH]%elem_of_cons; simpl in *; set_solver.
    + intros H%IH. simpl in H. set_solver.
Qed.

Lemma split_ascii_whitespace_sub s w : w ∈ split_ascii_whitespace s → w ⊆ s.
Proof. intros H%words_by_sub. done. Qed.

Lemma trim_sub s : trim s ⊆ s.
Proof. intros x. apply trim_incl. Qed.

Lemma parse_path_arg_sub args prefix path params :
  parse_path_arg args prefix = Ok (path, params) →
  path ⊆ args ∧ params ⊆ args ∧ LT ∉ path ∧ GT ∉ path ∧ SPACE ∉ path.
Proof.
  unfold parse_path_arg. destruct (split_at_byte _ args) as [[h t]|] eqn:Hs; [|done].
  apply split_at_byte_Some in Hs as [-> _]. destruct (eq_ignore_ascii_case h prefix); [|done].
  cbn [result_bind]. destruct (strip_prefix [LT] (trim_start t)) as [o|] eqn:Ho; [|done].
  apply strip_prefix_sub in Ho. cbn [ok_or result_bind].
  destruct (split_once GT o) as [[p r]|] eqn:Hp; [|done].
  apply split_once_Some in Hp as [-> HGT]. cbn [ok_or result_bind].
  destruct (contains LT p) eqn:H1; [done|]. destruct (contains GT p) eqn:H2; [done|].
  destruct (contains SPACE p) eqn:H3; [done|]. simpl. case_match; [done|].
  intros [= <- <-]. apply contains_false in H1, H2, H3.
  assert (Ht : trim_start t ⊆ t) by (intros ?; apply trim_start_matches_incl).
  pose proof (trim_sub r). set_solver.
Qed.

Lemma split_parameters_sub params pairs k v :
  split_parameters params = Ok pairs → (k, Some v) ∈ pairs → v ⊆ params.
Proof.
  intros Hc Hin. apply (collect_elem _ _ _ _ Hc) in Hin as (w & Hw & Hp).
  apply split_ascii_whitespace_sub in Hw. unfold split_parameter in Hp.
  destruct (split_once 61 w) as [[a b]|] eqn:Hs.
  - apply split_once_Some in Hs as [-> _]. case_match; [done|]. simplify_eq. set_solver.
  - case_match; done.
Qed.

Lemma parse_mail_parameters_sub params out :
  parse_mail_parameters params = Ok out →
  match mp_envid out with Some e => e ⊆ params | None => True end ∧
  match mp_size out with Some n => 0 ≤ n ≤ u64_max | None => True end.
Proof.
  unfold parse_mail_parameters. destruct (split_parameters params) as [pairs|e] eqn:Hs; [|done].
  simpl. revert out. intros out Hf.
  refine (try_fold_ind (λ o, match mp_envid o with Some e => e ⊆ params | None => True end ∧
    match mp_size o with Some n => 0 ≤ n ≤ u64_max | None => True end) _ _ _ _ _ _ Hf); [|done].
  intros st [k v] st' Hin Hstep [He Hz].
  assert (Hv : ∀ w, v = Some w → w ⊆ params).
  { intros w ->. by eapply split_parameters_sub. }
  unfold mail_parameter, ok_or, result_bind in Hstep.
  repeat (case_match; simplify_eq/=); eauto using parse_uint_bounds.
Qed.

Lemma parse_rcpt_parameters_sub params notify orcpt :
  parse_rcpt_parameters params = Ok (notify, orcpt) →
  match orcpt with Some o => o ⊆ params | None => True end.
Proof.
  unfold parse_rcpt_parameters. destruct (split_parameters params) as [pairs|e] eqn:Hs; [|done].
  simpl. intros Hf.
  refine (try_fold_ind (λ o, match o.2 with Some e => e ⊆ params | None => True end)
    _ _ _ _ _ _ Hf); [|done].
  intros [n o] [k v] [n' o'] Hin Hstep Ho.
  assert (Hv : ∀ w, v = Some w → w ⊆ params).
  { intros w ->. by eapply split_parameters_sub. }
  unfold rcpt_parameter, ok_or, result_bind in Hstep.
  repeat (case_match; simplify_eq/=); eauto.
Qed.

(** The strings a command carries to the rest of the server. *)
Definition command_strings (cmd : Command) : list (list Z) :=
  match cmd with
  | Helo d | Ehlo d => [d]
  | MailFrom p _ _ _ _ envid => p :: option_list envid
  | RcptTo p _ orcpt => p :: option_list orcpt
  | Auth m initial => m :: option_list initial
  | _ => []
  end.

Definition command_wf (cmd : Command) : Prop :=
  match cmd with
  | Helo d | Ehlo d => d ≠ [] ∧ SPACE ∉ d
  | MailFrom p size _ _ _ _ =>
      LT ∉ p ∧ GT ∉ p ∧ SPACE ∉ p ∧
      match size with Some n => 0 ≤ n ≤ u64_max | None => True end
  | RcptTo p _ _ => LT ∉ p ∧ GT ∉ p ∧ SPACE ∉ p
  | Bdat n _ => 0 ≤ n ≤ usize_max
  | Auth m _ => m ≠ [] ∧ Forall (λ c, valid_mech_char c = true) m
  | _ => True
  end.

Lemma upper_valid_mech m :
  forallb valid_mech_char m = true →
  Forall (λ c, valid_mech_char c = true) (to_ascii_uppercase m).
Proof.
  intros H%forallb_Forall. unfold to_ascii_uppercase. rewrite Forall_map.
  eapply Forall_impl; [exact H|]. simpl. intros c Hc.
  unfold to_ascii_uppercase_char. case_match; [|done].
  unfold valid_mech_char, is_ascii_alphanumeric, is_ascii_alphabetic, is_ascii_uppercase,
    is_ascii_lowercase, in_range in *. lia.
Qed.

Lemma valid_mech_not_control c : valid_mech_char c = true → is_control c = false.
Proof.
  unfold valid_mech_char, is_ascii_alphanumeric, is_ascii_alphabetic, is_ascii_uppercase,
    is_ascii_lowercase, is_ascii_digit, is_control, in_range. lia.
Qed.

Section parse_strings.
Context (line : list Z) (Hctl : existsb is_control line = false).

Let printable (s : list Z) : Prop := Forall (λ c, is_control c = false) s.

Lemma printable_sub s : s ⊆ line → printable s.
Proof.
  intros Hs. apply existsb_false_Forall in Hctl. unfold printable.
  rewrite Forall_forall in *. auto.
Qed.

Lemma parse_auth_strings args cmd :
  args ⊆ line → parse_auth args = Ok cmd →
  Forall printable (command_strings cmd) ∧ command_wf cmd.
Proof.
  intros Hargs. unfold parse_auth.
  destruct (split_ascii_whitespace args) as [|m parts] eqn:Hw; [done|].
  assert (Hsub : ∀ w, w ∈ m :: parts → w ⊆ line).
  { intros w. rewrite <- Hw. intros H%split_ascii_whitespace_sub. set_solver. }
  assert (Hword : is_word is_ascii_whitespace m).
  { pose proof (words_by_spec is_ascii_whitespace [] args ltac:(constructor)) as H.
    fold (split_ascii_whitespace args) in H. rewrite Hw in H. by apply Forall_cons in H as []. }
  destruct (tail parts) eqn:Ht; [|done]. destruct (forallb valid_mech_char m) eqn:Hm; [|done].
  simpl. intros [= <-]. apply upper_valid_mech in Hm. split; [|split; [|done]].
  - constructor; [eapply Forall_impl; [exact Hm|apply valid_mech_not_control]|].
    destruct parts as [|i parts]; simpl; [constructor|].
    constructor; [|constructor]. apply printable_sub.
    case_match; [by intros ? ?%elem_of_nil|]. apply Hsub. set_solver.
  - destruct Hword as [Hne _]. by destruct m.
Qed.

Lemma parse_bdat_wf args cmd :
  parse_bdat args = Ok cmd → Forall printable (command_strings cmd) ∧ command_wf cmd.
Proof.
  unfold parse_bdat. destruct (split_ascii_whitespace args) as [|t parts]; [done|].
  destruct (parse_uint usize_max t) as [n|] eqn:Hn; [|done]. simpl.
  apply parse_uint_bounds in Hn.
  repeat (case_match; simplify_eq/=); try done; intros [= <-]; by split; [constructor|].
Qed.

Lemma parse_no_args_wf args c cmd :
  command_strings c = [] → command_wf c → parse_no_args args c = Ok cmd →
  Forall printable (command_strings cmd) ∧ command_wf cmd.
Proof.
  unfold parse_no_args. intros Hs Hc. case_match; [|done]. intros [= <-].
  rewrite Hs. by split; [constructor|].
Qed.

Lemma parse_domain_arg_wf args d :
  args ⊆ line → parse_domain_arg args = Ok d → printable d ∧ d ≠ [] ∧ SPACE ∉ d.
Proof.
  intros Hargs. unfold parse_domain_arg. destruct args as [|c args]; [done|]. simpl.
  destruct (contains SPACE (c :: args)) eqn:Hc; simpl in Hc; rewrite Hc; [done|].
  intros [= <-]. split_and!; [by apply printable_sub|done|]. by apply contains_false.
Qed.

End parse_strings.

Lemma split_once_args line verb args :
  match split_once SPACE line with
  | Some (verb, args) => (verb, trim args)
  | None => (line, [])
  end = (verb, args) → args ⊆ line.
Proof.
  destruct (split_once SPACE line) as [[a b]|] eqn:Hs; intros [= <- <-].
  - apply split_once_Some in Hs as [-> _]. pose proof (trim_sub b). set_solver.
  - by intros ? ?%elem_of_nil.
Qed.

(** ** NOTIFY *)

Definition token_is (name : string) (token : list Z) : bool :=
  str_eqb (to_ascii_uppercase token) (lit name).

Definition notify_known (token : list Z) : bool :=
  token_is "NEVER" token || token_is "SUCCESS" token ||
  token_is "FAILURE" token || token_is "DELAY" token.

Lemma token_is_excl n m t :
  token_is n t = true → str_eqb (lit n) (lit m) = false → token_is m t = false.
Proof. unfold token_is. rewrite str_eqb_eq. by intros ->. Qed.

Lemma notify_fold ts s f d n :
  try_fold notify_token (s, f, d, n) ts =
    if forallb notify_known ts then
      Ok (s || existsb (token_is "SUCCESS") ts, f || existsb (token_is "FAILURE") ts,
          d || existsb (token_is "DELAY") ts, n || existsb (token_is "NEVER") ts)
    else Err InvalidArguments.
Proof.
  revert s f d n. induction ts as [|t ts IH]; intros s f d n; simpl; [by rewrite !orb_false_r|].
  unfold notify_known at 1.
  change (str_eqb (to_ascii_uppercase t) (lit "NEVER")) with (token_is "NEVER" t).
  change (str_eqb (to_ascii_uppercase t) (lit "SUCCESS")) with (token_is "SUCCESS" t).
  change (str_eqb (to_ascii_uppercase t) (lit "FAILURE")) with (token_is "FAILURE" t).
  change (str_eqb (to_ascii_uppercase t) (lit "DELAY")) with (token_is "DELAY" t).
  destruct (token_is "NEVER" t) eqn:H1.
  { rewrite !(token_is_excl _ _ _ H1) by done. simpl. rewrite IH.
    by rewrite orb_true_r. }
  destruct (token_is "SUCCESS" t) eqn:H2.
  { rewrite !(token_is_excl _ _ _ H2) by done. simpl. rewrite IH.
    by rewrite orb_true_r. }
  destruct (token_is "FAILURE" t) eqn:H3.
  { rewrite !(token_is_excl _ _ _ H3) by done. simpl. rewrite IH.
    by rewrite orb_true_r. }
  destruct (token_is "DELAY" t) eqn:H4; [|done].
  simpl. rewrite IH. by rewrite orb_true_r.
Qed.

(** ** A parameter given twice *)

Definition mail_keywords (out : MailParams) : list (list Z) :=
  (if mp_size out then [lit "SIZE"] else []) ++
  (if mp_body out then [lit "BODY"] else []) ++
  (if mp_require_tls out then [lit "REQUIRETLS"] else []) ++
  (if mp_ret out then [lit "RET"] else []) ++
  (if mp_envid out then [lit "ENVID"] else []).

(** The keywords of a parameter list that may appear once. *)
Definition single_keywords (pairs : list (list Z * option (list Z))) : list (list Z) :=
  filter (λ k, k ≠ lit "SMTPUTF8") (map (λ kv, to_ascii_uppercase kv.1) pairs).

Lemma mail_parameter_keyword out k v out' :
  mail_parameter out (k, v) = Ok out' →
  to_ascii_uppercase k = lit "SMTPUTF8" ∧ out' = out ∨
  to_ascii_uppercase k ≠ lit "SMTPUTF8" ∧ to_ascii_uppercase k ∉ mail_keywords out ∧
  mail_keywords out' ≡ₚ to_ascii_uppercase k :: mail_keywords out.
Proof.
  unfold mail_parameter, ok_or, result_bind.
  destruct out as [[] [] [] [] []]; repeat (case_match; simplify_eq/=); intros [= <-];
    repeat match goal with H : str_eqb _ _ = true |- _ => apply str_eqb_eq in H; rewrite H end;
    first [by left | right; split_and!; apply (bool_decide_unpack _); by vm_compute].
Qed.

Lemma mail_fold_keywords out pairs out' :
  try_fold mail_parameter out pairs = Ok out' → NoDup (mail_keywords out) →
  NoDup (single_keywords pairs ++ mail_keywords out).
Proof.
  revert out. induction pairs as [|[k v] pairs IH]; intros out; [done|].
  cbn [try_fold].
  destruct (mail_parameter out (k, v)) as [out1|] eqn:Hp; simpl; [|done]. intros Hf Hnd.
  unfold single_keywords. simpl.
  destruct (mail_parameter_keyword _ _ _ _ Hp) as [[Hk ->]|(Hk & Hin & Hperm)].
  - rewrite filter_cons_False by tauto. by apply IH.
  - rewrite filter_cons_True by done. fold (single_keywords pairs).
    assert (Hnd1 : NoDup (mail_keywords out1)) by (rewrite Hperm; by apply NoDup_cons).
    specialize (IH _ Hf Hnd1). rewrite Hperm in IH.
    change (NoDup ((to_ascii_uppercase k :: single_keywords pairs) ++ mail_keywords out)).
    by rewrite <- app_comm_cons, Permutation_middle.
Qed.


(** ** Properties *)

(** A parsed command is safe to pass on. The line was within the limit, no
    string taken from it holds a control character, a path holds no angle
    bracket or space, a declared size or chunk length fits its integer type
    and a mechanism name is an upper-cased token. *)
Theorem parsed_command_safe (line : list Z) (cmd : Command) (Hparse : parse line = Ok cmd) :
  (str_len line ≤ MAX_COMMAND_LINE)%nat ∧
  Forall (Forall (λ c, is_control c = false)) (command_strings cmd) ∧ command_wf cmd.
Proof.
  unfold parse in Hparse. destruct (Nat.ltb_spec MAX_COMMAND_LINE (str_len line)); [done|].
  destruct (existsb is_control line) eqn:Hctl; [done|]. split; [done|].
  destruct (match split_once SPACE line with
            | Some (verb, args) => (verb, trim args)
            | None => (line, [])
            end) as [verb args] eqn:Hva.
  apply split_once_args in Hva. cbv zeta in Hparse.
  set (V := to_ascii_uppercase verb) in *.
  destruct (str_eqb V (lit "HELO")).
  { destruct (parse_domain_arg args) as [d|] eqn:Hd; simplify_eq/=.
    apply (parse_domain_arg_wf line Hctl) in Hd as (? & ? & ?); [|done].
    split; [by repeat constructor|done]. }
  destruct (str_eqb V (lit "EHLO")).
  { destruct (parse_domain_arg args) as [d|] eqn:Hd; simplify_eq/=.
    apply (parse_domain_arg_wf line Hctl) in Hd as (? & ? & ?); [|done].
    split; [by repeat constructor|done]. }
  destruct (str_eqb V (lit "MAIL")).
  { destruct (parse_path_arg args (lit "FROM:")) as [[path params]|] eqn:Hp; simplify_eq/=.
    destruct (parse_mail_parameters params) as [mail|] eqn:Hm; simplify_eq/=.
    apply parse_path_arg_sub in Hp as (Hp1 & Hp2 & ? & ? & ?).
    apply parse_mail_parameters_sub in Hm as [He Hz]. split; [|done].
    constructor; [apply (printable_sub line Hctl); set_solver|].
    destruct (mp_envid mail) as [e|]; simpl; repeat constructor.
    apply (printable_sub line Hctl). set_solver. }
  destruct (str_eqb V (lit "RCPT")).
  { destruct (parse_path_arg args (lit "TO:")) as [[path params]|] eqn:Hp; simplify_eq/=.
    destruct (parse_rcpt_parameters params) as [[notify orcpt]|] eqn:Hm; simplify_eq/=.
    apply parse_path_arg_sub in Hp as (Hp1 & Hp2 & ? & ? & ?).
    apply parse_rcpt_parameters_sub in Hm. split; [|done].
    constructor; [apply (printable_sub line Hctl); set_solver|].
    destruct orcpt as [e|]; simpl; repeat constructor.
    apply (printable_sub line Hctl). set_solver. }
  repeat case_match; try done;
    try (by eapply parse_no_args_wf; [| |exact Hparse]);
    try (by eapply parse_bdat_wf); try (by eapply parse_auth_strings).
  all: simplify_eq; by split; [constructor|].
Qed.

Lemma parsed_command_safe_witness :
  (str_len (lit "RCPT TO:<a@b>") ≤ MAX_COMMAND_LINE)%nat ∧
  Forall (Forall (λ c, is_control c = false)) (command_strings (RcptTo (lit "a@b") None None)) ∧
  command_wf (RcptTo (lit "a@b") None None).
Proof. apply (parsed_command_safe (lit "RCPT TO:<a@b>")). reflexivity. Defined.

(** [NOTIFY=] is read exactly as RFC 3461 defines it. An unknown keyword,
    or [NEVER] together with any other, is refused; otherwise each flag is set
    exactly when its keyword is listed, and at least one is. *)
Theorem parse_notify_spec (value : list Z) :
  parse_notify value =
    (let tokens := split 44 value in
     if negb (forallb notify_known tokens) then Err InvalidArguments
     else if existsb (token_is "NEVER") tokens then
       if forallb (token_is "NEVER") tokens then Ok Never else Err InvalidArguments
     else Ok (On (existsb (token_is "SUCCESS") tokens) (existsb (token_is "FAILURE") tokens)
                 (existsb (token_is "DELAY") tokens))) ∧
  parse_notify value ≠ Ok (On false false false).
Proof.
  unfold parse_notify. rewrite notify_fold. cbv zeta.
  pose proof (split_nonempty 44 value) as Hne. revert Hne. generalize (split 44 value).
  intros ts Hne. destruct (forallb notify_known ts) eqn:Hk; [|done]. cbn [result_bind negb orb].
  apply forallb_Forall in Hk. destruct (existsb (token_is "NEVER") ts) eqn:HN.
  - destruct (forallb (token_is "NEVER") ts) eqn:HA.
    + apply forallb_Forall in HA.
      assert (Hno : ∀ n, str_eqb (lit "NEVER") (lit n) = false → existsb (token_is n) ts = false).
      { intros n Hn. apply existsb_false_Forall. eapply Forall_impl; [exact HA|].
        intros t Ht. by apply (token_is_excl "NEVER"). }
      by rewrite !Hno.
    + assert (Hex : existsb (token_is "SUCCESS") ts || existsb (token_is "FAILURE") ts ||
        existsb (token_is "DELAY") ts = true); [|by rewrite Hex].
      clear Hne HN. induction Hk as [|t ts Ht Hk IH]; [done|]. simpl in *.
      unfold notify_known in Ht.
      destruct (token_is "NEVER" t), (token_is "SUCCESS" t), (token_is "FAILURE" t),
        (token_is "DELAY" t); simpl in *; try done; try (by apply IH);
        by rewrite ?orb_true_r.
  - split; [done|]. intros [= H1 H2 H3]. destruct ts as [|t ts]; [done|].
    apply Forall_cons in Hk as [Ht _]. unfold notify_known in Ht. simpl in *.
    destruct (token_is "NEVER" t), (token_is "SUCCESS" t), (token_is "FAILURE" t),
      (token_is "DELAY" t); done.
Qed.

(** no MAIL parameter is taken twice. When the parameter string is
    accepted, its keywords, compared without case, are pairwise distinct;
    only the valueless [SMTPUTF8] may repeat. *)
Theorem mail_parameters_unique (params : list Z) (pairs : list (list Z * option (list Z)))
    (out : MailParams) (Hs : split_parameters params = Ok pairs)
    (Hp : parse_mail_parameters params = Ok out) :
  NoDup (single_keywords pairs).
Proof.
  unfold parse_mail_parameters in Hp. rewrite Hs in Hp.
  apply mail_fold_keywords in Hp; [|constructor]. by apply NoDup_app in Hp as [? _].
Qed.

Lemma mail_parameters_unique_witness :
  NoDup (single_keywords [(lit "size", Some (lit "5")); (lit "Body", Some (lit "7bit"))]).
Proof.
  apply (mail_parameters_unique (lit "size=5 Body=7bit") _
    (mkMailParams (Some 5) (Some SevenBit) false None None)); reflexivity.
Defined.
