(* ===== verification/SmtpCommandRender.v ===== *)
(** * SMTP commands: rendering and the parser's round trip

    [render] writes a command the way a client does; the parser of
    [SmtpCommand] reads every renderable command back. *)
From S2P Require Import Prelude RustStd SmtpCommand.
Open Scope Z_scope.

(** ** Rendering a command as a client writes it *)

Definition param_word (kv : list Z * option (list Z)) : list Z :=
  match kv.2 with
  | Some v => kv.1 ++ 61 :: v
  | None => kv.1
  end.

Definition body_name (b : Body) : list Z :=
  match b with SevenBit => lit "7BIT" | EightBitMime => lit "8BITMIME" end.
Definition ret_name (r : Ret) : list Z :=
  match r with Full => lit "FULL" | Headers => lit "HDRS" end.
Definition notify_name (n : Notify) : list Z :=
  match n with
  | Never => lit "NEVER"
  | On s f d =>
      join 44 ((if s then [lit "SUCCESS"] else []) ++ (if f then [lit "FAILURE"] else []) ++
               (if d then [lit "DELAY"] else []))
  end.

Definition mail_pairs (size : option Z) (body : option Body) (tls : bool)
    (ret : option Ret) (envid : option (list Z)) : list (list Z * option (list Z)) :=
  option_list ((λ n, (lit "SIZE", Some (decimal n))) <$> size) ++
  option_list ((λ b, (lit "BODY", Some (body_name b))) <$> body) ++
  (if tls then [(lit "REQUIRETLS", None)] else []) ++
  option_list ((λ r, (lit "RET", Some (ret_name r))) <$> ret) ++
  option_list ((λ e, (lit "ENVID", Some e)) <$> envid).

Definition rcpt_pairs (notify : option Notify) (orcpt : option (list Z))
    : list (list Z * option (list Z)) :=
  option_list ((λ n, (lit "NOTIFY", Some (notify_name n))) <$> notify) ++
  option_list ((λ o, (lit "ORCPT", Some o)) <$> orcpt).

Definition render_path (verb prefix path : list Z) (pairs : list (list Z * option (list Z))) : list Z :=
  verb ++ SPACE :: prefix ++ LT :: path ++ GT :: unwords SPACE (map param_word pairs).

Definition render (cmd : Command) : list Z :=
  match cmd with
  | Helo d => lit "HELO" ++ SPACE :: d
  | Ehlo d => lit "EHLO" ++ SPACE :: d
  | MailFrom p size body tls ret envid =>
      render_path (lit "MAIL") (lit "FROM:") p (mail_pairs size body tls ret envid)
  | RcptTo p notify orcpt => render_path (lit "RCPT") (lit "TO:") p (rcpt_pairs notify orcpt)
  | Data => lit "DATA"
  | Bdat n last => lit "BDAT" ++ unwords SPACE (decimal n :: if last then [lit "LAST"] else [])
  | Rset => lit "RSET"
  | Noop => lit "NOOP"
  | Quit => lit "QUIT"
  | Vrfy => lit "VRFY"
  | StartTls => lit "STARTTLS"
  | Auth m initial =>
      lit "AUTH" ++ unwords SPACE
        (m :: option_list ((λ i, if is_empty i then lit "=" else i) <$> initial))
  end.

(** A value that can be written: no white space and no control character. *)
Definition visible (c : Z) : bool := negb (is_whitespace c) && negb (is_control c).
Definition value_ok (v : list Z) : Prop := Forall (λ c, visible c = true) v.

Definition renderable (cmd : Command) : Prop :=
  match cmd with
  | Helo d | Ehlo d => d ≠ [] ∧ value_ok d
  | MailFrom p size _ _ _ envid =>
      Forall (λ c, is_control c = false) p ∧ LT ∉ p ∧ GT ∉ p ∧ SPACE ∉ p ∧
      match size with Some n => 0 ≤ n ≤ u64_max | None => True end ∧
      match envid with Some e => value_ok e | None => True end
  | RcptTo p notify orcpt =>
      Forall (λ c, is_control c = false) p ∧ LT ∉ p ∧ GT ∉ p ∧ SPACE ∉ p ∧
      notify ≠ Some (On false false false) ∧
      match orcpt with Some o => value_ok o | None => True end
  | Bdat n _ => 0 ≤ n ≤ usize_max
  | Auth m initial =>
      m ≠ [] ∧ Forall (λ c, valid_mech_char c = true) m ∧ to_ascii_uppercase m = m ∧
      match initial with Some i => value_ok i ∧ i ≠ lit "=" | None => True end
  | _ => True
  end.

(** ** Theory of rendering *)

Ltac eval_tests :=
  repeat match goal with
  | |- context [str_eqb ?a ?b] =>
      let r := eval vm_compute in (str_eqb a b) in
      match r with
      | true => change (str_eqb a b) with true
      | false => change (str_eqb a b) with false
      end
  end; cbn beta iota.

Lemma visible_whitespace c : visible c = true → is_whitespace c = false.
Proof. unfold visible. by destruct (is_whitespace c). Qed.
Lemma visible_control c : visible c = true → is_control c = false.
Proof. unfold visible. by destruct (is_control c), (is_whitespace c). Qed.
Lemma visible_ascii_whitespace c : visible c = true → is_ascii_whitespace c = false.
Proof.
  intros H%visible_whitespace. destruct (is_ascii_whitespace c) eqn:E; [|done].
  apply is_ascii_whitespace_whitespace in E. congruence.
Qed.

Lemma value_ok_decimal n : value_ok (decimal n).
Proof.
  eapply Forall_impl; [apply decimal_digits|]. simpl. intros c Hc. unfold visible.
  by rewrite digit_not_whitespace, digit_not_control.
Qed.

(** The last character, if any, is not white space. *)
Definition ends_visible (s : list Z) : Prop :=
  match last s with Some x => is_whitespace x = false | None => True end.

Lemma ends_visible_app a b : b ≠ [] → ends_visible b → ends_visible (a ++ b).
Proof.
  unfold ends_visible. intros Hne. rewrite last_app.
  destruct (last b) eqn:E; [done|]. by apply last_None in E.
Qed.

Lemma value_ends_visible v : value_ok v → ends_visible v.
Proof.
  unfold ends_visible. intros Hv. destruct (last v) eqn:E; [|done].
  apply last_Some in E as [v' ->]. apply Forall_app in Hv as [_ Hv].
  apply Forall_cons in Hv as [Hv _]. by apply visible_whitespace.
Qed.

Definition value_word (w : list Z) : Prop := w ≠ [] ∧ value_ok w.

Lemma value_word_is_word w : value_word w → is_word is_ascii_whitespace w.
Proof.
  intros [Hne Hw]. split; [done|]. eapply Forall_impl; [exact Hw|].
  apply visible_ascii_whitespace.
Qed.

Lemma unwords_ends_visible s ws :
  ends_visible s → Forall value_word ws → ends_visible (s ++ unwords SPACE ws).
Proof.
  intros Hs Hws. destruct ws as [|w ws _] using rev_ind; [by rewrite app_nil_r|].
  apply Forall_app in Hws as [_ Hws]. apply Forall_cons in Hws as [[Hne Hw] _].
  unfold unwords. rewrite map_app, concat_app. simpl. rewrite app_nil_r, app_assoc.
  rewrite cons_middle, app_assoc. apply ends_visible_app; [done|].
  by apply value_ends_visible.
Qed.

(** The words of a parameter string survive its trimming. *)
Lemma words_trim_unwords ws :
  Forall value_word ws → split_ascii_whitespace (trim (unwords SPACE ws)) = ws.
Proof.
  intros Hws. destruct ws as [|w ws]; [done|].
  pose proof Hws as [[Hne Hw] Hws']%Forall_cons.
  assert (Ht : trim (unwords SPACE (w :: ws)) = w ++ unwords SPACE ws).
  { change (unwords SPACE (w :: ws)) with (SPACE :: w ++ unwords SPACE ws).
    change (trim (SPACE :: w ++ unwords SPACE ws)) with (trim (w ++ unwords SPACE ws)).
    apply trim_id.
    - destruct w as [|x w]; [done|]. simpl. apply Forall_cons in Hw as [Hx _].
      by apply visible_whitespace.
    - apply unwords_ends_visible; [|done]. by apply value_ends_visible. }
  rewrite Ht. apply words_unwords_acc; [done| |].
  - by apply value_word_is_word.
  - eapply Forall_impl; [exact Hws'|]. apply value_word_is_word.
Qed.

Definition pair_ok (kv : list Z * option (list Z)) : Prop :=
  kv.1 ≠ [] ∧ forallb keyword_char kv.1 = true ∧
  match kv.2 with Some v => value_ok v | None => True end.

Lemma keyword_visible c : keyword_char c = true → visible c = true ∧ c ≠ 61.
Proof.
  unfold keyword_char, is_ascii_alphanumeric, is_ascii_alphabetic, is_ascii_uppercase,
    is_ascii_lowercase, is_ascii_digit, visible, is_whitespace, is_control, in_range.
  intros. split; lia.
Qed.

Lemma keyword_value k : forallb keyword_char k = true → value_ok k ∧ 61 ∉ k.
Proof.
  intros Hk%forallb_Forall. split.
  - eapply Forall_impl; [exact Hk|]. by intros c [? _]%keyword_visible.
  - intros Hin. rewrite Forall_forall in Hk. by apply Hk, keyword_visible in Hin as [_ ?].
Qed.

Lemma param_word_value kv : pair_ok kv → value_word (param_word kv).
Proof.
  destruct kv as [k [v|]]; unfold pair_ok, param_word; simpl;
    intros (Hne & [Hk _]%keyword_value & Hv); split; try done.
  - by destruct k.
  - apply Forall_app; split; [done|]. constructor; [done|exact Hv].
Qed.

Lemma split_param_word kv : pair_ok kv → split_parameter (param_word kv) = Ok kv.
Proof.
  destruct kv as [k v]; unfold pair_ok, param_word, split_parameter; simpl.
  intros (Hne & Hk & _). pose proof (keyword_value k Hk) as [_ Hnin].
  assert (He : is_empty k = false) by (by destruct k).
  destruct v as [v|].
  - rewrite split_once_app by done. by rewrite He, Hk.
  - rewrite (proj2 (split_once_None _ _) Hnin). by rewrite He, Hk.
Qed.

Lemma split_parameters_render pairs :
  Forall pair_ok pairs →
  split_parameters (trim (unwords SPACE (map param_word pairs))) = Ok pairs.
Proof.
  intros Hp. unfold split_parameters. rewrite words_trim_unwords.
  - apply collect_app. induction Hp as [|kv pairs Hkv Hp IH]; simpl; constructor; [|done].
    by apply split_param_word.
  - apply Forall_map. eapply Forall_impl; [exact Hp|]. apply param_word_value.
Qed.

Lemma pair_ok_lit k v :
  k ≠ [] → forallb keyword_char k = true → value_ok v → pair_ok (k, Some v).
Proof. done. Qed.

Lemma body_value b : value_ok (body_name b).
Proof. apply forallb_Forall. by destruct b. Qed.
Lemma ret_value r : value_ok (ret_name r).
Proof. apply forallb_Forall. by destruct r. Qed.
Lemma notify_value n : value_ok (notify_name n).
Proof. apply forallb_Forall. by destruct n as [|[] [] []]. Qed.

Lemma mail_pairs_ok size body tls ret envid :
  match envid with Some e => value_ok e | None => True end →
  Forall pair_ok (mail_pairs size body tls ret envid).
Proof.
  intros He. unfold mail_pairs. rewrite !Forall_app.
  split_and!; [destruct size|destruct body|destruct tls|destruct ret|destruct envid];
    simpl; repeat constructor; simpl; try done;
    auto using value_ok_decimal, body_value, ret_value.
Qed.

#[local] Arguments mail_parameter : simpl never.

Lemma mail_parameter_size out v n :
  mp_size out = None → parse_uint u64_max v = Some n →
  mail_parameter out (lit "SIZE", Some v) =
  Ok (mkMailParams (Some n) (mp_body out) (mp_require_tls out) (mp_ret out) (mp_envid out)).
Proof.
  intros Hs Hn. unfold mail_parameter. eval_tests. cbn [ok_or result_bind].
  rewrite Hn. cbn [ok_or result_bind]. by rewrite Hs.
Qed.

Lemma parse_mail_pairs size body tls ret envid :
  match size with Some n => 0 ≤ n ≤ u64_max | None => True end →
  try_fold mail_parameter MailParams_default (mail_pairs size body tls ret envid) =
  Ok (mkMailParams size body tls ret envid).
Proof.
  intros Hn. unfold mail_pairs. rewrite !try_fold_app.
  destruct size as [n|]; simpl;
    [rewrite (mail_parameter_size _ _ n) by (done || by apply parse_uint_decimal)|];
  destruct body as [[]|], tls, ret as [[]|], envid as [e|]; reflexivity.
Qed.

Lemma parse_path_render verb_prefix path pairs :
  In verb_prefix [lit "FROM:"; lit "TO:"] →
  LT ∉ path → GT ∉ path → SPACE ∉ path → Forall pair_ok pairs →
  parse_path_arg (verb_prefix ++ LT :: path ++ GT :: unwords SPACE (map param_word pairs)) verb_prefix
  = Ok (path, trim (unwords SPACE (map param_word pairs))).
Proof.
  intros Hin HLT HGT HSP Hp. unfold parse_path_arg.
  set (rest := LT :: path ++ GT :: unwords SPACE (map param_word pairs)).
  replace (split_at_byte (str_len verb_prefix) (verb_prefix ++ rest)) with (Some (verb_prefix, rest))
    by (destruct Hin as [<-|[<-|[]]]; reflexivity).
  replace (eq_ignore_ascii_case verb_prefix verb_prefix) with true
    by (symmetry; by apply eq_ignore_ascii_case_spec).
  subst rest. cbn [result_bind].
  change (trim_start (LT :: ?s)) with (LT :: s). change (strip_prefix [LT] (LT :: ?s)) with (Some s).
  cbn [ok_or result_bind]. rewrite split_once_app by done. cbn [ok_or result_bind].
  apply contains_false in HLT, HGT, HSP. rewrite HLT, HGT, HSP. cbn [orb].
  by destruct pairs.
Qed.

Lemma rcpt_pairs_ok notify orcpt :
  match orcpt with Some o => value_ok o | None => True end →
  Forall pair_ok (rcpt_pairs notify orcpt).
Proof.
  intros Ho. unfold rcpt_pairs. rewrite !Forall_app.
  split_and!; [destruct notify|destruct orcpt]; simpl; repeat constructor; simpl; try done;
    auto using notify_value.
Qed.

Lemma parse_rcpt_pairs notify orcpt :
  notify ≠ Some (On false false false) →
  try_fold rcpt_parameter (None, None) (rcpt_pairs notify orcpt) = Ok (notify, orcpt).
Proof.
  intros Hn. destruct notify as [[|[] [] []]|], orcpt as [o|]; done || reflexivity.
Qed.

Lemma value_ok_no_control v : value_ok v → Forall (λ c, is_control c = false) v.
Proof. intros Hv. eapply Forall_impl; [exact Hv|]. apply visible_control. Qed.

Lemma unwords_no_control ws :
  Forall value_word ws → Forall (λ c, is_control c = false) (unwords SPACE ws).
Proof.
  induction 1 as [|w ws [_ Hw] Hws IH]; [constructor|].
  unfold unwords. simpl. constructor; [done|]. apply Forall_app; split; [|exact IH].
  by apply value_ok_no_control.
Qed.

Lemma lit_no_control s :
  existsb is_control (lit s) = false → Forall (λ c, is_control c = false) (lit s).
Proof. apply existsb_false_Forall. Qed.

Lemma mech_value m : Forall (λ c, valid_mech_char c = true) m → value_ok m.
Proof.
  intros Hm. eapply Forall_impl; [exact Hm|].
  unfold valid_mech_char, is_ascii_alphanumeric, is_ascii_alphabetic, is_ascii_uppercase,
    is_ascii_lowercase, is_ascii_digit, visible, is_whitespace, is_control, in_range. lia.
Qed.

Lemma auth_words_ok m initial :
  renderable (Auth m initial) →
  Forall value_word (m :: option_list ((λ i, if is_empty i then lit "=" else i) <$> initial)).
Proof.
  intros (Hne & Hm & _ & Hi). constructor; [by split; [|apply mech_value]|].
  destruct initial as [[|c i]|]; simpl; [| |constructor]; (constructor; [|constructor]).
  - split; [done|]. by apply forallb_Forall.
  - split; [done|]. by destruct Hi.
Qed.

Lemma bdat_words_ok n (last : bool) :
  Forall value_word (decimal n :: if last then [lit "LAST"] else []).
Proof.
  constructor; [split; [apply decimal_nonempty|apply value_ok_decimal]|].
  destruct last; [|constructor]. constructor; [|constructor].
  split; [done|]. by apply forallb_Forall.
Qed.

Lemma render_path_no_control verb prefix path pairs :
  Forall (λ c, is_control c = false) verb → Forall (λ c, is_control c = false) prefix →
  Forall (λ c, is_control c = false) path → Forall pair_ok pairs →
  Forall (λ c, is_control c = false) (render_path verb prefix path pairs).
Proof.
  intros Hv Hp Hpath Hpairs. unfold render_path.
  repeat (apply Forall_app; split; [done|]; constructor; [done|]).
  apply unwords_no_control, Forall_map. eapply Forall_impl; [exact Hpairs|].
  apply param_word_value.
Qed.

Lemma render_no_control cmd :
  renderable cmd → Forall (λ c, is_control c = false) (render cmd).
Proof.
  destruct cmd; cbn [render renderable]; intros H; try (by apply lit_no_control).
  - destruct H as [_ H]. apply Forall_app; split; [by apply lit_no_control|].
    constructor; [done|]. by apply value_ok_no_control.
  - destruct H as [_ H]. apply Forall_app; split; [by apply lit_no_control|].
    constructor; [done|]. by apply value_ok_no_control.
  - destruct H as (Hp & _ & _ & _ & _ & He).
    apply render_path_no_control; try (by apply lit_no_control); [done|].
    by apply mail_pairs_ok.
  - destruct H as (Hp & _ & _ & _ & _ & Ho).
    apply render_path_no_control; try (by apply lit_no_control); [done|].
    by apply rcpt_pairs_ok.
  - apply Forall_app; split; [by apply lit_no_control|].
    apply unwords_no_control, bdat_words_ok.
  - apply Forall_app; split; [by apply lit_no_control|].
    by apply unwords_no_control, auth_words_ok.
Qed.

Lemma trim_words w ws :
  value_word w → Forall value_word ws → trim (w ++ unwords SPACE ws) = w ++ unwords SPACE ws.
Proof.
  intros [Hne Hw] Hws. apply trim_id.
  - destruct w as [|x w]; [done|]. simpl. apply Forall_cons in Hw as [Hx _].
    by apply visible_whitespace.
  - apply unwords_ends_visible; [|done]. by apply value_ends_visible.
Qed.

Lemma trim_path prefix path pairs :
  In prefix [lit "FROM:"; lit "TO:"] → Forall pair_ok pairs →
  trim (prefix ++ LT :: path ++ GT :: unwords SPACE (map param_word pairs)) =
  prefix ++ LT :: path ++ GT :: unwords SPACE (map param_word pairs).
Proof.
  intros Hin Hp. apply trim_id; [by destruct Hin as [<-|[<-|[]]]|].
  change (LT :: path ++ GT :: ?u) with ((LT :: path) ++ [GT] ++ u).
  rewrite !app_assoc. apply unwords_ends_visible.
  - by apply ends_visible_app.
  - apply Forall_map. eapply Forall_impl; [exact Hp|]. apply param_word_value.
Qed.

Lemma split_verb v args :
  contains SPACE (lit v) = false →
  split_once SPACE (lit v ++ SPACE :: args) = Some (lit v, args).
Proof. intros H%contains_false. by apply split_once_app. Qed.

Lemma trim_value v : value_ok v → trim v = v.
Proof.
  intros Hv. apply trim_id; [|by apply value_ends_visible].
  destruct v; [done|]. apply Forall_cons in Hv as [Hv _]. by apply visible_whitespace.
Qed.

Lemma parse_domain_value d : d ≠ [] → value_ok d → parse_domain_arg d = Ok d.
Proof.
  intros Hne Hd. unfold parse_domain_arg. destruct d as [|c d]; [done|]. cbn [is_empty orb].
  assert (SPACE ∉ c :: d) as ->%contains_false; [|done].
  intros Hin. unfold value_ok in Hd. rewrite Forall_forall in Hd. by apply Hd in Hin.
Qed.

(** ** Properties *)

(** The parser reads back every command a client can write. For every
    command with valid fields whose rendering fits a command line, [parse] of
    the rendered line is that command, with all its parameters. *)
Theorem parse_render (cmd : Command) (Hr : renderable cmd)
    (Hlen : (str_len (render cmd) ≤ MAX_COMMAND_LINE)%nat) :
  parse (render cmd) = Ok cmd.
Proof.
  pose proof (render_no_control cmd Hr) as Hc. apply existsb_false_Forall in Hc.
  apply Nat.ltb_ge in Hlen. unfold parse. rewrite Hlen, Hc. clear Hlen Hc.
  destruct cmd; cbn [render] in *; try reflexivity.
  - destruct Hr as [Hne Hd]. rewrite split_verb, trim_value by done.
    cbv zeta. eval_tests. by rewrite parse_domain_value.
  - destruct Hr as [Hne Hd]. rewrite split_verb, trim_value by done.
    cbv zeta. eval_tests. by rewrite parse_domain_value.
  - destruct Hr as (Hp & HLT & HGT & HSP & Hn & He).
    pose proof (mail_pairs_ok size body require_tls ret envid He) as Hpairs.
    unfold render_path. rewrite split_verb, trim_path by (done || by left).
    cbv zeta. eval_tests. rewrite parse_path_render by (done || by left).
    cbn [result_bind]. unfold parse_mail_parameters.
    rewrite split_parameters_render by done. cbn [result_bind].
    by rewrite parse_mail_pairs by done.
  - destruct Hr as (Hp & HLT & HGT & HSP & Hn & Ho).
    pose proof (rcpt_pairs_ok notify orcpt Ho) as Hpairs.
    unfold render_path. rewrite split_verb, trim_path by (done || by right; left).
    cbv zeta. eval_tests. rewrite parse_path_render by (done || by right; left).
    cbn [result_bind]. unfold parse_rcpt_parameters.
    rewrite split_parameters_render by done. cbn [result_bind].
    by rewrite parse_rcpt_pairs by done.
  - pose proof (bdat_words_ok size last0) as [Hw Hws]%Forall_cons.
    change (unwords SPACE (?w :: ?ws)) with (SPACE :: w ++ unwords SPACE ws).
    rewrite split_verb, trim_words by done. cbv zeta. eval_tests. unfold parse_bdat.
    rewrite (words_unwords_acc is_ascii_whitespace SPACE (decimal size));
      [|done|by apply value_word_is_word|eapply Forall_impl; [exact Hws|apply value_word_is_word]].
    rewrite parse_uint_decimal by done. by destruct last0.
  - pose proof (auth_words_ok _ _ Hr) as [Hw Hws]%Forall_cons.
    change (unwords SPACE (?w :: ?ws)) with (SPACE :: w ++ unwords SPACE ws).
    rewrite split_verb, trim_words by done. cbv zeta. eval_tests. unfold parse_auth.
    unfold split_ascii_whitespace. rewrite (words_unwords_acc is_ascii_whitespace SPACE);
      [|done|by apply value_word_is_word|eapply Forall_impl; [exact Hws|apply value_word_is_word]].
    destruct Hr as (_ & Hm%forallb_Forall & Hu & Hi). rewrite Hm, Hu.
    destruct initial as [[|c i]|]; [done| |done]. destruct Hi as [_ Hi].
    simpl. by rewrite str_eqb_neq.
Qed.

Lemma parse_render_witness :
  parse (lit "MAIL FROM:<a@b.c> SIZE=10 RET=HDRS") =
  Ok (MailFrom (lit "a@b.c") (Some 10) None false (Some Headers) None).
Proof.
  apply (parse_render (MailFrom (lit "a@b.c") (Some 10) None false (Some Headers) None)).
  - split_and!; try done; try (by apply contains_false).
    by apply existsb_false_Forall.
  - apply Nat.leb_le. reflexivity.
Defined.
