(* ===== verification/SmtpSession.v ===== *)
(** The SMTP session state machine: src/src/smtp/session/ (mod.rs, types.rs,
    auth_dispatch.rs, login.rs, scram.rs, oauth.rs, junk.rs, bdat.rs,
    finalise.rs, transaction_policy.rs, cap.rs, author.rs), the quota checks of
    src/src/smtp/quota.rs and SASL PLAIN parsing (src/src/smtp/auth/mod.rs).

    An operation takes the session and the world it shares with the other
    sessions (the rate limiters, the memory budget, the calls made to the ban
    store and the correspondent store) and returns both with the [Action].
    What the outside answers during one call (the clock, the password checks,
    SCRAM and OAuth verification, disk and mailbox usage, header inspection)
    is the record [Env], an argument of every call, so the theorems hold for
    every sequence of answers.  Dropping a value that owns a memory reservation
    is an explicit [release]. *)

From S2P Require Import Prelude RustStd Utf8 Address Directory IpNet Admission RateLimit.
From S2P Require Import LineFraming SmtpReply SmtpCommand.

Local Open Scope Z_scope.

(** ** Values *)

Record AcceptedMessage := mkMessage {
  msg_reverse_path : list Z;
  msg_recipients : list (list Z);
  msg_data : list Z;
  msg_require_tls : bool;
  msg_mailbox : option (list Z);
  msg_tlsrpt_verified : bool;
  msg_sender_verified : bool;
  msg_no_dsn : list (list Z)
}.

Inductive Action :=
| Continue (reply : Reply)
| CollectData (reply : Reply)
| CollectChunk (size : Z) (last : bool)
| DiscardChunk (size : Z) (reply : Reply)
| Deliver (reply : Reply) (message : AcceptedMessage)
| UpgradeTls (reply : Reply)
| CollectAuthResponse (reply : Reply)
| Close (reply : Reply).

(** The fields of [State::ReceivingData]. *)
Record Transaction := mkTransaction {
  tr_reverse_path : list Z;
  tr_recipients : list (list Z);
  tr_no_dsn : list (list Z);
  tr_size : Z;
  tr_body : list Z;
  tr_require_tls : bool;
  tr_chunking : bool;
  tr_line_check : LineCheck.t;
  tr_reserved : MemoryBudget.Reservation;
  tr_budget_exhausted : bool
}.

Inductive State :=
| Connected
| Greeted
| ReceivingRecipients (reverse_path : list Z) (require_tls : bool)
| ReceivingData (tr : Transaction).

Record JunkCount := mkJunk { junk_limit : Z; junk_count : Z; refused_count : Z }.

Definition DEFAULT_JUNK_COMMAND_LIMIT : Z := 100.
Definition MAX_MESSAGE_SIZE : Z := 25 * 1024 * 1024.
Definition DEFAULT_MAX_RECIPIENTS : Z := 100.

Inductive Verdict :=
| LoginAdmitted (account : list Z) (label : option (list Z))
| LoginRefused
| LoginBusy.

Inductive BanOutcome :=
| BanClear (account : option (list Z))
| Banned
| BannedButKnown (account : list Z).

Inductive ScramRefusal :=
| RefusalBanned
| RefusalDenied (account : option (list Z)).

Inductive ChannelBinding := Required (hash : list Z) | Supported | Unsupported.

Inductive Author :=
| Addresses (addresses : list (list Z))
| Missing
| MultipleFields.

(** The state of the SCRAM computation (src/src/smtp/scram), opaque here. *)
Class ScramTypes := { ScramServer : Type; ScramCredentials : Type }.

Section session.
Context `{Unicode} `{MapOrder} `{ScramTypes}.

Record ScramPlan := mkPlan {
  plan_credentials : ScramCredentials;
  plan_account : list Z;
  plan_refusal : option ScramRefusal
}.

Inductive PendingScram :=
| ClientFirst (binding : ChannelBinding)
| ClientFinal (server : ScramServer) (credentials : ScramCredentials) (account : list Z)
    (refusal : option ScramRefusal) (directory : Directory.t)
| ServerFinal (account : list Z) (directory : Directory.t).

(** What is set when the session is built and never changes after: limiters
    are named by their identity in the shared store. *)
Record Config := mkConfig {
  hostname : list Z;
  max_message_size : Z;
  max_recipients : Z;
  oauth : bool;
  cbind_data : option (list Z);
  submission_limiter : option nat;
  submission_default : option Z;
  inbound_ip : option (nat * Z);
  inbound_sender : option (nat * Z);
  tenant_limits : bool;
  disk_guard : bool;
  quota : option Z;
  correspondents : bool;
  auth_protocol : Protocol;
  scram_enabled : bool;
  memory_budget : bool
}.

Record Session := mkSession {
  cfg : Config;
  state : State;
  tls_available : bool;
  tls_active : bool;
  authenticated : option (list Z);
  auth_app_password_label : option (list Z);
  auth_failures : Z;
  helo_domain : option (list Z);
  esmtp : bool;
  directory : Directory.t;
  pending_scram : option PendingScram;
  pending_login : option (option (list Z));
  client_identity : option (list Z);
  pending_external : bool;
  peer_ip : option IpAddr;
  quota_reports : list AcceptedMessage;
  pending_charge : option SubmissionBudget.Charge;
  chunk_reservation : MemoryBudget.Reservation;
  delivery_reservation : MemoryBudget.Reservation;
  junk : JunkCount
}.

Definition set_state (s : Session) (v : State) : Session :=
  mkSession (cfg s) v (tls_available s) (tls_active s) (authenticated s) 
    (auth_app_password_label s) (auth_failures s) (helo_domain s) (esmtp s) (directory s) 
    (pending_scram s) (pending_login s) (client_identity s) (pending_external s) (peer_ip s) 
    (quota_reports s) (pending_charge s) (chunk_reservation s) (delivery_reservation s) (junk s).
Definition set_tls_available (s : Session) (v : bool) : Session :=
  mkSession (cfg s) (state s) v (tls_active s) (authenticated s) (auth_app_password_label s) 
    (auth_failures s) (helo_domain s) (esmtp s) (directory s) (pending_scram s) (pending_login s) 
    (client_identity s) (pending_external s) (peer_ip s) (quota_reports s) (pending_charge s) 
    (chunk_reservation s) (delivery_reservation s) (junk s).
Definition set_tls_active (s : Session) (v : bool) : Session :=
  mkSession (cfg s) (state s) (tls_available s) v (authenticated s) (auth_app_password_label s) 
    (auth_failures s) (helo_domain s) (esmtp s) (directory s) (pending_scram s) (pending_login s) 
    (client_identity s) (pending_external s) (peer_ip s) (quota_reports s) (pending_charge s) 
    (chunk_reservation s) (delivery_reservation s) (junk s).
Definition set_authenticated (s : Session) (v : option (list Z)) : Session :=
  mkSession (cfg s) (state s) (tls_available s) (tls_active s) v (auth_app_password_label s) 
    (auth_failures s) (helo_domain s) (esmtp s) (directory s) (pending_scram s) (pending_login s) 
    (client_identity s) (pending_external s) (peer_ip s) (quota_reports s) (pending_charge s) 
    (chunk_reservation s) (delivery_reservation s) (junk s).
Definition set_auth_app_password_label (s : Session) (v : option (list Z)) : Session :=
  mkSession (cfg s) (state s) (tls_available s) (tls_active s) (authenticated s) v 
    (auth_failures s) (helo_domain s) (esmtp s) (directory s) (pending_scram s) (pending_login s) 
    (client_identity s) (pending_external s) (peer_ip s) (quota_reports s) (pending_charge s) 
    (chunk_reservation s) (delivery_reservation s) (junk s).
Definition set_auth_failures (s : Session) (v : Z) : Session :=
  mkSession (cfg s) (state s) (tls_available s) (tls_active s) (authenticated s) 
    (auth_app_password_label s) v (helo_domain s) (esmtp s) (directory s) (pending_scram s) 
    (pending_login s) (client_identity s) (pending_external s) (peer_ip s) (quota_reports s) 
    (pending_charge s) (chunk_reservation s) (delivery_reservation s) (junk s).
Definition set_helo_domain (s : Session) (v : option (list Z)) : Session :=
  mkSession (cfg s) (state s) (tls_available s) (tls_active s) (authenticated s) 
    (auth_app_password_label s) (auth_failures s) v (esmtp s) (directory s) (pending_scram s) 
    (pending_login s) (client_identity s) (pending_external s) (peer_ip s) (quota_reports s) 
    (pending_charge s) (chunk_reservation s) (delivery_reservation s) (junk s).
Definition set_esmtp (s : Session) (v : bool) : Session :=
  mkSession (cfg s) (state s) (tls_available s) (tls_active s) (authenticated s) 
    (auth_app_password_label s) (auth_failures s) (helo_domain s) v (directory s) 
    (pending_scram s) (pending_login s) (client_identity s) (pending_external s) (peer_ip s) 
    (quota_reports s) (pending_charge s) (chunk_reservation s) (delivery_reservation s) (junk s).
Definition set_directory (s : Session) (v : Directory.t) : Session :=
  mkSession (cfg s) (state s) (tls_available s) (tls_active s) (authenticated s) 
    (auth_app_password_label s) (auth_failures s) (helo_domain s) (esmtp s) v (pending_scram s) 
    (pending_login s) (client_identity s) (pending_external s) (peer_ip s) (quota_reports s) 
    (pending_charge s) (chunk_reservation s) (delivery_reservation s) (junk s).
Definition set_pending_scram (s : Session) (v : option PendingScram) : Session :=
  mkSession (cfg s) (state s) (tls_available s) (tls_active s) (authenticated s) 
    (auth_app_password_label s) (auth_failures s) (helo_domain s) (esmtp s) (directory s) v 
    (pending_login s) (client_identity s) (pending_external s) (peer_ip s) (quota_reports s) 
    (pending_charge s) (chunk_reservation s) (delivery_reservation s) (junk s).
Definition set_pending_login (s : Session) (v : option (option (list Z))) : Session :=
  mkSession (cfg s) (state s) (tls_available s) (tls_active s) (authenticated s) 
    (auth_app_password_label s) (auth_failures s) (helo_domain s) (esmtp s) (directory s) 
    (pending_scram s) v (client_identity s) (pending_external s) (peer_ip s) (quota_reports s) 
    (pending_charge s) (chunk_reservation s) (delivery_reservation s) (junk s).
Definition set_client_identity (s : Session) (v : option (list Z)) : Session :=
  mkSession (cfg s) (state s) (tls_available s) (tls_active s) (authenticated s) 
    (auth_app_password_label s) (auth_failures s) (helo_domain s) (esmtp s) (directory s) 
    (pending_scram s) (pending_login s) v (pending_external s) (peer_ip s) (quota_reports s) 
    (pending_charge s) (chunk_reservation s) (delivery_reservation s) (junk s).
Definition set_pending_external (s : Session) (v : bool) : Session :=
  mkSession (cfg s) (state s) (tls_available s) (tls_active s) (authenticated s) 
    (auth_app_password_label s) (auth_failures s) (helo_domain s) (esmtp s) (directory s) 
    (pending_scram s) (pending_login s) (client_identity s) v (peer_ip s) (quota_reports s) 
    (pending_charge s) (chunk_reservation s) (delivery_reservation s) (junk s).
Definition set_peer_ip (s : Session) (v : option IpAddr) : Session :=
  mkSession (cfg s) (state s) (tls_available s) (tls_active s) (authenticated s) 
    (auth_app_password_label s) (auth_failures s) (helo_domain s) (esmtp s) (directory s) 
    (pending_scram s) (pending_login s) (client_identity s) (pending_external s) v 
    (quota_reports s) (pending_charge s) (chunk_reservation s) (delivery_reservation s) (junk s).
Definition set_quota_reports (s : Session) (v : list AcceptedMessage) : Session :=
  mkSession (cfg s) (state s) (tls_available s) (tls_active s) (authenticated s) 
    (auth_app_password_label s) (auth_failures s) (helo_domain s) (esmtp s) (directory s) 
    (pending_scram s) (pending_login s) (client_identity s) (pending_external s) (peer_ip s) v 
    (pending_charge s) (chunk_reservation s) (delivery_reservation s) (junk s).
Definition set_pending_charge (s : Session) (v : option SubmissionBudget.Charge) : Session :=
  mkSession (cfg s) (state s) (tls_available s) (tls_active s) (authenticated s) 
    (auth_app_password_label s) (auth_failures s) (helo_domain s) (esmtp s) (directory s) 
    (pending_scram s) (pending_login s) (client_identity s) (pending_external s) (peer_ip s) 
    (quota_reports s) v (chunk_reservation s) (delivery_reservation s) (junk s).
Definition set_chunk_reservation (s : Session) (v : MemoryBudget.Reservation) : Session :=
  mkSession (cfg s) (state s) (tls_available s) (tls_active s) (authenticated s) 
    (auth_app_password_label s) (auth_failures s) (helo_domain s) (esmtp s) (directory s) 
    (pending_scram s) (pending_login s) (client_identity s) (pending_external s) (peer_ip s) 
    (quota_reports s) (pending_charge s) v (delivery_reservation s) (junk s).
Definition set_delivery_reservation (s : Session) (v : MemoryBudget.Reservation) : Session :=
  mkSession (cfg s) (state s) (tls_available s) (tls_active s) (authenticated s) 
    (auth_app_password_label s) (auth_failures s) (helo_domain s) (esmtp s) (directory s) 
    (pending_scram s) (pending_login s) (client_identity s) (pending_external s) (peer_ip s) 
    (quota_reports s) (pending_charge s) (chunk_reservation s) v (junk s).
Definition set_junk (s : Session) (v : JunkCount) : Session :=
  mkSession (cfg s) (state s) (tls_available s) (tls_active s) (authenticated s) 
    (auth_app_password_label s) (auth_failures s) (helo_domain s) (esmtp s) (directory s) 
    (pending_scram s) (pending_login s) (client_identity s) (pending_external s) (peer_ip s) 
    (quota_reports s) (pending_charge s) (chunk_reservation s) (delivery_reservation s) v.


(** What the session shares: limiters, memory budget, and the calls it made to
    the ban store ([record_ban_outcome]: login, account, success, bypassed) and
    to the correspondent store ([enforce_new_recipient_cap]). *)
Record World := mkWorld {
  limiters : gmap nat WindowLimiter.t;
  budget : MemoryBudget.t;
  ban_log : list (list Z * option (list Z) * bool * bool);
  cap_log : list (list Z * list (list Z))
}.

Definition set_limiters (w : World) (v : gmap nat WindowLimiter.t) : World :=
  mkWorld v (budget w) (ban_log w) (cap_log w).
Definition set_budget (w : World) (v : MemoryBudget.t) : World :=
  mkWorld (limiters w) v (ban_log w) (cap_log w).
Definition record_ban_outcome (w : World) (login : list Z) (account : option (list Z))
    (success bypassed : bool) : World :=
  mkWorld (limiters w) (budget w) (ban_log w ++ [(login, account, success, bypassed)]) (cap_log w).
Definition record_cap_call (w : World) (account : list Z) (recipients : list (list Z)) : World :=
  mkWorld (limiters w) (budget w) (ban_log w) (cap_log w ++ [(account, recipients)]).

(** What the outside answers during one call. *)
Record Env := mkEnv {
  unix_now : Z;
  (** the base64 crate's [STANDARD] engine, on text *)
  base64_decode : list Z → option (list Z);
  base64_encode : list Z → list Z;
  (** [Directory::authenticate_verdict], [check_ban], [plan_scram],
      [scram_credentials_current] *)
  authenticate_verdict : Directory.t → list Z → list Z → option IpAddr → Protocol → Verdict;
  check_ban : list Z → option IpAddr → Protocol → BanOutcome;
  plan_scram : Directory.t → list Z → option IpAddr → Protocol → ScramPlan;
  scram_credentials_current : Directory.t → list Z → Directory.t → Protocol → bool;
  (** the SCRAM server: nonce, first and final messages *)
  fresh_nonce : option (list Z);
  username_of : list Z → option (list Z);
  scram_first : list Z → ChannelBinding → list Z → ScramCredentials → option (ScramServer * list Z);
  scram_finish : ScramServer → list Z → ScramCredentials → option (list Z);
  (** the OAuth verifier: the account a token names, and whether its issuer
      attests a second factor *)
  verify_token : Directory.t → list Z → option (list Z);
  second_factor_attested : bool;
  (** [TenantLimits]: whether any tenant is limited, and the limits of the
      tenants that own one of the addresses *)
  has_rate_limits : bool;
  submission_limiters : list (list Z) → list (nat * list Z * Z);
  disk_has_room : Z → bool;
  mailbox_usage : list Z → Z;
  (** [CorrespondentStore::enforce_new_recipient_cap]: whether it is limited *)
  new_recipients_limited : list Z → list (list Z) → bool;
  (** header inspection of an authenticated submission *)
  reject_ambiguous_headers : list Z → option Reply;
  author : list Z → Author;
  (** [queue::bounce::build] *)
  build_bounce : list Z → list Z → list (list Z) → list Z → option AcceptedMessage
}.

(** An operation's result. *)
Definition out : Type := Session * World * Action.

(** ** Construction and small state changes *)

Definition new_session (cfg : Config) (directory : Directory.t) : Session :=
  mkSession cfg Connected false false None None 0 None false directory None None None false None
    [] None MemoryBudget.none MemoryBudget.none (mkJunk DEFAULT_JUNK_COMMAND_LIMIT 0 0).

Definition in_transaction (s : Session) : bool :=
  match state s with
  | ReceivingRecipients _ _ | ReceivingData _ => true
  | _ => false
  end.

(** Dropping a reservation hands its octets back. *)
Definition release (w : World) (r : MemoryBudget.Reservation) : World :=
  set_budget w (MemoryBudget.drop_reservation (budget w) r).

Definition state_reservation (st : State) : MemoryBudget.Reservation :=
  match st with
  | ReceivingData tr => tr_reserved tr
  | _ => MemoryBudget.none
  end.

(** [self.state = st]: the state replaced is dropped. *)
Definition replace_state (s : Session) (w : World) (st : State) : Session * World :=
  (set_state s st, release w (state_reservation (state s))).

(** Called once the TLS handshake completed. *)
Definition tls_started (s : Session) (w : World) : Session * World :=
  let '(s, w) := replace_state s w Connected in
  let s := set_tls_available s false in
  let s := set_tls_active s true in
  let s := set_helo_domain s None in
  (set_esmtp s false, w).

Definition reset (s : Session) (w : World) : Session * World :=
  let w := release w (chunk_reservation s) in
  let s := set_chunk_reservation s MemoryBudget.none in
  match state s with
  | Connected => (s, w)
  | _ => replace_state s w Greeted
  end.

Definition take_delivery_reservation (s : Session) : Session * MemoryBudget.Reservation :=
  (set_delivery_reservation s MemoryBudget.none, delivery_reservation s).
Definition take_submission_charge (s : Session) : Session * option SubmissionBudget.Charge :=
  (set_pending_charge s None, pending_charge s).
Definition take_quota_reports (s : Session) : Session * list AcceptedMessage :=
  (set_quota_reports s [], quota_reports s).

Definition continue_with (sw : Session * World) (r : Reply) : out := (sw.1, sw.2, Continue r).

(** ** Greeting and STARTTLS *)

Definition auth_capability (s : Session) : list Z :=
  lit "AUTH" ++
  flat_map (λ m, SPACE :: Sasl.name m)
    (Sasl.available (bool_decide (is_Some (client_identity s)))
       (bool_decide (is_Some (cbind_data (cfg s)))) (scram_enabled (cfg s)) (oauth (cfg s))).

Definition greet (s : Session) (w : World) (domain : list Z) (esmtp : bool) : out :=
  let '(s, w) := replace_state s w Greeted in
  let s := set_helo_domain s (Some domain) in
  let s := set_esmtp s esmtp in
  if negb esmtp then (s, w, Continue (mkReply 250 [hostname (cfg s)]))
  else
    let lines :=
      [hostname (cfg s); lit "PIPELINING"; lit "ENHANCEDSTATUSCODES"; lit "8BITMIME"; lit "SMTPUTF8";
       lit "CHUNKING"; lit "DSN"; lit "SIZE " ++ decimal (max_message_size (cfg s));
       lit "LIMITS RCPTMAX=" ++ decimal (max_recipients (cfg s))] ++
      (if tls_available s then [lit "STARTTLS"] else []) ++
      (if tls_active s && negb (bool_decide (is_Some (authenticated s)))
       then [auth_capability s] else []) ++
      (if tls_active s then [lit "REQUIRETLS"] else []) in
    (s, w, Continue (mkReply 250 lines)).

Definition start_tls (s : Session) (w : World) : out :=
  if negb (tls_available s) then (s, w, Continue (Reply.single 454 "4.7.0 TLS not available"))
  else
    match state s with
    | Greeted => (s, w, UpgradeTls (Reply.single 220 "ready to start TLS"))
    | _ => (s, w, Continue Reply.bad_sequence)
    end.

(** ** The transaction policy *)

Definition submission_budget (env : Env) (s : Session) (account : list Z) : SubmissionBudget.Budget :=
  let account_limit :=
    limiter ← submission_limiter (cfg s);
    per_min ← (match Directory.submission_limit_for (directory s) account with
               | Some l => Some l
               | None => submission_default (cfg s)
               end);
    Some (limiter, per_min) in
  SubmissionBudget.for_account account account_limit
    (if tenant_limits (cfg s) && has_rate_limits env
     then submission_limiters env (Directory.addresses_for (directory s) account) else []).

(** [limiter.check(key, per_min, now)] on a limiter of the store. *)
Definition check_limiter (w : World) (id : nat) (key : list Z) (per_min now : Z) : World * bool :=
  match limiters w !! id with
  | Some l =>
      let '(l, ok) := WindowLimiter.check l key per_min now in
      (set_limiters w (<[id := l]> (limiters w)), ok)
  | None => (w, true)
  end.

Definition check_inbound (env : Env) (s : Session) (w : World) (reverse_path : list Z)
    : World * option Reply :=
  let '(w, ok) :=
    match inbound_ip (cfg s), peer_ip s with
    | Some (id, per_min), Some ip => check_limiter w id (display_ip ip) per_min (unix_now env)
    | _, _ => (w, true)
    end in
  if negb ok
  then (w, Some (Reply.single 450 "4.7.1 too many messages from this client; retry later"))
  else
    let '(w, ok) :=
      match inbound_sender (cfg s) with
      | Some (id, per_min) =>
          if is_empty reverse_path then (w, true)
          else check_limiter w id (to_ascii_lowercase reverse_path) per_min (unix_now env)
      | None => (w, true)
      end in
    if negb ok
    then (w, Some (Reply.single 450 "4.7.1 too many messages from this sender; retry later"))
    else (w, None).

Definition spool_has_room (env : Env) (s : Session) (size_bytes : Z) : bool :=
  if disk_guard (cfg s) then disk_has_room env size_bytes else true.

(** ** Quota *)

Definition limit_for (d : Directory.t) (account : list Z) (default_bytes : Z) : option Z :=
  let bytes := default default_bytes (Directory.quota_for d account) in
  if bytes =? 0 then None else Some bytes.

Definition is_full (env : Env) (d : Directory.t) (account : list Z) (default_bytes : Z) : bool :=
  match limit_for d account default_bytes with
  | Some limit => limit <=? mailbox_usage env account
  | None => false
  end.

Definition would_overflow (env : Env) (d : Directory.t) (account : list Z) (default_bytes size : Z)
    : bool :=
  match limit_for d account default_bytes with
  | Some limit => limit <? saturating_add u64_max (mailbox_usage env account) size
  | None => false
  end.

Definition overflowing (env : Env) (d : Directory.t) (default_bytes : Z)
    (recipients : list (list Z)) (size : Z) : list (list Z) :=
  List.filter
    (λ recipient,
      match parse_address recipient with
      | Ok a =>
          match Directory.resolve d a with
          | Account name => would_overflow env d name default_bytes size
          | _ => false
          end
      | Err _ => false
      end) recipients.

(** ** MAIL, RCPT, DATA *)

Definition RATE_LIMITED_REPLY : Reply :=
  Reply.single 450 "4.7.1 sending rate limit exceeded; retry later".
Definition TOO_LARGE : Reply := Reply.single 552 "5.3.4 message exceeds maximum size".

Definition sender_refused (s : Session) (reverse_path : list Z) : option Reply :=
  match authenticated s, parse_address reverse_path with
  | Some account, Ok a =>
      if negb (Directory.owns_address (directory s) account a)
      then Some (Reply.single 553 "5.7.1 sender address not owned by authenticated user")
      else None
  | Some _, Err _ => Some (Reply.single 553 "5.1.7 invalid reverse-path")
  | None, Err _ =>
      if negb (is_empty reverse_path)
      then Some (Reply.single 553 "5.1.7 invalid reverse-path") else None
  | None, Ok _ => None
  end.

Definition mail_from (env : Env) (s : Session) (w : World) (reverse_path : list Z)
    (size : option Z) (require_tls : bool) : out :=
  match state s with
  | Greeted =>
      if require_tls && negb (tls_active s)
      then (s, w, Continue (Reply.single 530 "5.7.4 REQUIRETLS requires the session to use TLS"))
      else
        match sender_refused s reverse_path with
        | Some reply => (s, w, Continue reply)
        | None =>
            let over_budget :=
              match authenticated s with
              | Some account =>
                  negb (SubmissionBudget.has_room (limiters w) (submission_budget env s account)
                          (unix_now env))
              | None => false
              end in
            if over_budget then (s, w, Continue RATE_LIMITED_REPLY)
            else
              let '(w, limited) :=
                match authenticated s with
                | None => check_inbound env s w reverse_path
                | Some _ => (w, None)
                end in
              match limited with
              | Some reply => (s, w, Continue reply)
              | None =>
                  if match size with Some n => max_message_size (cfg s) <? n | None => false end
                  then (s, w, Continue TOO_LARGE)
                  else if negb (spool_has_room env s (max_message_size (cfg s)))
                  then (s, w, Continue (Reply.single 452 "4.3.1 insufficient system storage; retry later"))
                  else
                    let '(s, w) := replace_state s w (ReceivingRecipients reverse_path require_tls) in
                    (s, w, Continue Reply.ok)
              end
        end
  | _ => (s, w, Continue Reply.bad_sequence)
  end.

Definition suppresses_dsn (notify : option Notify) : bool :=
  match notify with
  | Some Never | Some (On _ false _) => true
  | _ => false
  end.

(** Why a recipient is refused. *)
Definition recipient_refused (env : Env) (s : Session) (a : Address) : option Reply :=
  match Directory.resolve (directory s) a with
  | NotLocal =>
      match authenticated s with
      | None => Some (Reply.single 550 "5.7.1 relaying denied")
      | Some _ => None
      end
  | UnknownUser => Some (Reply.single 550 "5.1.1 no such user")
  | Account account =>
      match quota (cfg s) with
      | Some default_bytes =>
          if is_full env (directory s) account default_bytes
          then Some (Reply.single 452 "4.2.2 mailbox full") else None
      | None => None
      end
  | Alias _ => None
  end.

Definition rcpt_to (env : Env) (s : Session) (w : World) (forward_path : list Z)
    (notify : option Notify) : out :=
  let is_open :=
    match state s with
    | ReceivingRecipients _ _ => true
    | ReceivingData tr => is_empty (tr_body tr) && negb (tr_chunking tr)
    | _ => false
    end in
  if negb is_open then (s, w, Continue Reply.bad_sequence)
  else
    match parse_address forward_path with
    | Err _ => (s, w, Continue (Reply.single 553 "5.1.3 invalid recipient address"))
    | Ok a =>
        match recipient_refused env s a with
        | Some reply => (s, w, Continue reply)
        | None =>
            let forward_path := display_address a in
            match state s with
            | ReceivingRecipients reverse_path require_tls =>
                let no_dsn := if suppresses_dsn notify then [forward_path] else [] in
                let '(s, w) :=
                  replace_state s w
                    (ReceivingData (mkTransaction reverse_path [forward_path] no_dsn 0 [] require_tls
                       false LineCheck.stored MemoryBudget.none false)) in
                (s, w, Continue Reply.ok)
            | ReceivingData tr =>
                if is_empty (tr_body tr) && negb (tr_chunking tr) then
                  if max_recipients (cfg s) <=? Z.of_nat (length (tr_recipients tr))
                  then (s, w, Continue (Reply.single 452 "4.5.3 too many recipients"))
                  else
                    let no_dsn := if suppresses_dsn notify
                                  then tr_no_dsn tr ++ [forward_path] else tr_no_dsn tr in
                    (set_state s
                       (ReceivingData (mkTransaction (tr_reverse_path tr)
                          (tr_recipients tr ++ [forward_path]) no_dsn (tr_size tr) (tr_body tr)
                          (tr_require_tls tr) (tr_chunking tr) (tr_line_check tr) (tr_reserved tr)
                          (tr_budget_exhausted tr))), w, Continue Reply.ok)
                else (s, w, Continue Reply.bad_sequence)
            | _ => (s, w, Continue Reply.bad_sequence)
            end
        end
    end.

Definition data (s : Session) (w : World) : out :=
  match state s with
  | ReceivingData tr =>
      if is_empty (tr_body tr) && negb (tr_chunking tr)
      then (s, w, CollectData Reply.start_mail_input)
      else (s, w, Continue Reply.bad_sequence)
  | _ => (s, w, Continue Reply.bad_sequence)
  end.

(** ** The end of a message *)

(** [author::check]. *)
Definition author_check (env : Env) (s : Session) (data : list Z) : option Reply :=
  match authenticated s with
  | None => None
  | Some account =>
      match reject_ambiguous_headers env data with
      | Some refusal => Some refusal
      | None =>
          let owned :=
            match author env data with
            | Addresses [address] =>
                match parse_address address with
                | Ok a => Directory.owns_address (directory s) account a
                | Err _ => false
                end
            | _ => false
            end in
          if owned then None
          else Some (Reply.single 550 "5.7.1 From header not owned by the authenticated account")
      end
  end.

(** [cap::check_or_reply]. *)
Definition cap_check (env : Env) (s : Session) (w : World) (recipients : list (list Z))
    : World * option Reply :=
  match authenticated s with
  | Some account =>
      if correspondents (cfg s) then
        (record_cap_call w account recipients,
         if new_recipients_limited env account recipients
         then Some (Reply.single 450 "4.7.1 too many new recipients today; retry tomorrow")
         else None)
      else (w, None)
  | None => (w, None)
  end.

Definition exclude_over_quota (env : Env) (s : Session) (message : AcceptedMessage)
    (full : list (list Z)) : Session * option AcceptedMessage :=
  if match full with [] => true | _ => false end then (s, Some message)
  else if (length full =? length (msg_recipients message))%nat then (s, None)
  else
    let message :=
      mkMessage (msg_reverse_path message)
        (List.filter (λ r, negb (bool_decide (r ∈ full))) (msg_recipients message))
        (msg_data message) (msg_require_tls message) (msg_mailbox message)
        (msg_tlsrpt_verified message) (msg_sender_verified message) (msg_no_dsn message) in
    let notify := List.filter (λ r, negb (bool_decide (r ∈ msg_no_dsn message))) full in
    let s :=
      match notify with
      | [] => s
      | _ =>
          match build_bounce env (hostname (cfg s)) (msg_reverse_path message) notify
                  (msg_data message) with
          | Some report => set_quota_reports s (quota_reports s ++ [report])
          | None => s
          end
      end in
    (s, Some message).

Definition split_over_quota (env : Env) (s : Session) (message : AcceptedMessage) (size : Z)
    : Session * option AcceptedMessage :=
  match quota (cfg s) with
  | None => (s, Some message)
  | Some default_bytes =>
      exclude_over_quota env s message
        (overflowing env (directory s) default_bytes (msg_recipients message) size)
  end.

(** [u32::try_from(len).unwrap_or(u32::MAX)]. *)
Definition recipient_units (m : AcceptedMessage) : Z :=
  Z.min (Z.of_nat (length (msg_recipients m))) u32_max.

(** The charge of an authenticated submission: [None] is over a limit. *)
Definition charge_submission (env : Env) (s : Session) (w : World) (m : AcceptedMessage)
    : World * option (option SubmissionBudget.Charge) :=
  match authenticated s with
  | None => (w, Some None)
  | Some account =>
      let '(l, charge) :=
        SubmissionBudget.charge (limiters w) (submission_budget env s account)
          (recipient_units m) (unix_now env) in
      (set_limiters w l, match charge with Some c => Some (Some c) | None => None end)
  end.

Definition INSUFFICIENT : Reply :=
  Reply.single 452 "4.3.1 insufficient system resources; try again later".

Definition inner_finalise (env : Env) (s : Session) (w : World) (message : AcceptedMessage)
    (running_size : Z) (budget_exhausted : bool) (reserved : MemoryBudget.Reservation) : out :=
  if budget_exhausted then (s, release w reserved, Continue INSUFFICIENT)
  else if max_message_size (cfg s) <? running_size
  then (s, release w reserved, Continue TOO_LARGE)
  else
    match author_check env s (msg_data message) with
    | Some reply => (s, release w reserved, Continue reply)
    | None =>
        let '(w, limited) := cap_check env s w (msg_recipients message) in
        match limited with
        | Some reply => (s, release w reserved, Continue reply)
        | None =>
            let '(w, charge) := charge_submission env s w message in
            match charge with
            | None => (s, release w reserved, Continue RATE_LIMITED_REPLY)
            | Some charge =>
                let '(s, kept) := split_over_quota env s message running_size in
                match kept with
                | Some message =>
                    let s := set_pending_charge s charge in
                    let w := release w (delivery_reservation s) in
                    let s := set_delivery_reservation s reserved in
                    (s, w, Deliver Reply.ok message)
                | None =>
                    let w :=
                      match charge with
                      | Some c => set_limiters w (SubmissionBudget.refund (limiters w) c)
                      | None => w
                      end in
                    (s, release w reserved, Continue (Reply.single 552 "5.2.2 mailbox full"))
                end
            end
        end
    end.

Definition message_of (tr : Transaction) : AcceptedMessage :=
  mkMessage (tr_reverse_path tr) (tr_recipients tr) (tr_body tr) (tr_require_tls tr) None false false
    (tr_no_dsn tr).

(** The end of DATA and the end of the LAST chunk: the state moves to
    [Greeted] and the transaction's fields move out of it. *)
Definition finalise_from_state (env : Env) (s : Session) (w : World) : out :=
  match state s with
  | ReceivingData tr =>
      inner_finalise env (set_state s Greeted) w (message_of tr) (tr_size tr)
        (tr_budget_exhausted tr) (tr_reserved tr)
  | st => (set_state s Greeted, w, Continue Reply.bad_sequence)
  end.

Definition finalise (env : Env) (s : Session) (w : World) (message : AcceptedMessage)
    (running_size : Z) : out :=
  let '(exhausted, reserved) :=
    match state s with
    | ReceivingData tr => (tr_budget_exhausted tr, tr_reserved tr)
    | _ => (false, MemoryBudget.none)
    end in
  inner_finalise env (set_state s Greeted) w message running_size exhausted reserved.

(** [data_line]: [None] while more lines are expected. *)
Definition data_line (env : Env) (s : Session) (w : World) (line : list Z)
    : Session * World * option Action :=
  if bool_decide (line = [DOT]) then
    let '(s, w, a) := finalise_from_state env s w in (s, w, Some a)
  else
    match state s with
    | ReceivingData tr =>
        let content := default line (strip_prefix [DOT] line) in
        let delta := Z.of_nat (length content) + 2 in
        let size := tr_size tr + delta in
        let grown body reserved exhausted :=
          ReceivingData (mkTransaction (tr_reverse_path tr) (tr_recipients tr) (tr_no_dsn tr) size
            body (tr_require_tls tr) (tr_chunking tr) (tr_line_check tr) reserved exhausted) in
        if max_message_size (cfg s) <? size
        then (set_state s (grown (tr_body tr) (tr_reserved tr) (tr_budget_exhausted tr)), w, None)
        else
          let body := tr_body tr ++ content ++ [CR; LF] in
          if memory_budget (cfg s) then
            match MemoryBudget.try_grow (budget w) (tr_reserved tr) (peer_ip s) delta with
            | Err _ => (set_state s (grown (tr_body tr) (tr_reserved tr) true), w, None)
            | Ok (b, reserved) =>
                (set_state s (grown body reserved (tr_budget_exhausted tr)), set_budget w b, None)
            end
          else (set_state s (grown body (tr_reserved tr) (tr_budget_exhausted tr)), w, None)
    | _ =>
        let '(s, w) := reset s w in (s, w, Some (Continue Reply.bad_sequence))
    end.

(** ** BDAT *)

Definition bdat (s : Session) (w : World) (size : Z) (last : bool) : out :=
  if max_message_size (cfg s) <? size then
    let '(s, w) := reset s w in (s, w, Close TOO_LARGE)
  else
    match state s with
    | ReceivingData _ =>
        let w := release w (chunk_reservation s) in
        (set_chunk_reservation s MemoryBudget.none, w, CollectChunk size last)
    | _ => let '(s, w) := reset s w in (s, w, DiscardChunk size Reply.bad_sequence)
    end.

Definition reserve_chunk (s : Session) (w : World) (bytes : Z) : Session * World * bool :=
  if memory_budget (cfg s) then
    match MemoryBudget.try_grow (budget w) (chunk_reservation s) (peer_ip s) bytes with
    | Ok (b, r) => (set_chunk_reservation s r, set_budget w b, true)
    | Err _ => (s, w, false)
    end
  else (s, w, true).

Definition refuse_chunk (s : Session) (w : World) : out :=
  let '(s, w) := reset s w in (s, w, Continue INSUFFICIENT).

(** [bdat_chunk] once the chunk is charged: the framing check, the size
    limit, and the chunk's reservation absorbed into the body's. *)
Definition bdat_charged (env : Env) (s : Session) (w : World) (data : list Z) (last : bool) : out :=
  let chunk := chunk_reservation s in
  let s := set_chunk_reservation s MemoryBudget.none in
  match state s with
  | ReceivingData tr =>
      let '(check, fed) := LineCheck.feed (tr_line_check tr) data MAX_LINE_LENGTH in
      let framing :=
        let? _ := fed in
        if last then LineCheck.finish check MAX_LINE_LENGTH else Ok tt in
      match framing with
      | Err error =>
          let '(s, w) := reset s w in (s, release w chunk, Close (line_error_reply error))
      | Ok _ =>
          let size := tr_size tr + Z.of_nat (length data) in
          if max_message_size (cfg s) <? size then
            let '(s, w) := reset s w in (s, release w chunk, Continue TOO_LARGE)
          else
            let tr :=
              mkTransaction (tr_reverse_path tr) (tr_recipients tr) (tr_no_dsn tr) size
                (tr_body tr ++ data) (tr_require_tls tr) true check
                (MemoryBudget.absorb (tr_reserved tr) chunk) (tr_budget_exhausted tr) in
            let s := set_state s (ReceivingData tr) in
            if last then finalise env s w (message_of tr) size
            else (s, w, Continue (Reply.single 250 "2.0.0 chunk received"))
      end
  | _ =>
      let '(s, w) := reset s w in (s, release w chunk, Continue Reply.bad_sequence)
  end.

Definition bdat_chunk (env : Env) (s : Session) (w : World) (data : list Z) (last : bool) : out :=
  let uncharged :=
    saturating_sub (Z.of_nat (length data)) (MemoryBudget.bytes (chunk_reservation s)) in
  let '(s, w, charged) :=
    match state s with
    | ReceivingData _ => if 0 <? uncharged then reserve_chunk s w uncharged else (s, w, true)
    | _ => (s, w, true)
    end in
  if negb charged then refuse_chunk s w
  else
    bdat_charged env s w data last.

(** ** Commands without progress *)

Definition count_step (j : JunkCount) (junk refused : bool) : JunkCount * bool :=
  if junk_limit j =? 0 then (j, false)
  else
    let past j := (junk_limit j <? junk_count j) || (junk_limit j <? refused_count j) in
    if junk then
      let j := mkJunk (junk_limit j) (saturating_add u32_max (junk_count j) 1) (refused_count j) in
      (j, past j)
    else if refused then
      let j := mkJunk (junk_limit j) (junk_count j) (saturating_add u32_max (refused_count j) 1) in
      (j, past j)
    else (j, false).

Definition message_delivered (s : Session) : Session :=
  set_junk s (mkJunk (junk_limit (junk s)) (junk_count (junk s)) 0).

Definition is_junk (s : Session) (parsed : result ParseError Command) : bool :=
  match parsed with
  | Ok Noop | Ok Rset | Ok Vrfy => true
  | Ok (Helo _) | Ok (Ehlo _) => match state s with Connected => false | _ => true end
  | Ok (Bdat size last) => (size =? 0) && negb last
  | Err UnknownCommand => true
  | _ => false
  end.

Definition NO_PROGRESS : Reply :=
  Reply.single 421 "4.7.0 too many commands without progress, closing connection".

Definition count_junk (o : out) (is_junk : bool) : out :=
  let '(s, w, action) := o in
  let refused :=
    match action with
    | Continue reply | DiscardChunk _ reply => 400 <=? code reply
    | _ => false
    end in
  let '(j, past) := count_step (junk s) is_junk refused in
  let s := set_junk s j in
  if negb past then (s, w, action)
  else let '(s, w) := reset s w in (s, w, Close NO_PROGRESS).

Definition unreadable_command (s : Session) (w : World) : out :=
  count_junk (s, w, Continue Reply.syntax_error) false.

(** ** Authentication *)

Definition AUTH_INVALID : Reply := Reply.single 535 "5.7.8 authentication credentials invalid".
Definition AUTH_OK : Reply := Reply.single 235 "2.7.0 authentication successful".
Definition UNSUPPORTED : Reply := Reply.single 504 "5.5.4 mechanism not supported".

(** [self.auth_failures += 1] on [u8]. *)
Definition count_failure (s : Session) : Session :=
  set_auth_failures s ((auth_failures s + 1) mod 256).

Definition auth_fail_counted (s : Session) (w : World) : out :=
  (s, w, if 3 <=? auth_failures s then Close AUTH_INVALID else Continue AUTH_INVALID).

(** [auth_fail], [auth_fail_external] and [oauth_failure] count the failure
    and answer alike; they differ in what they log. *)
Definition auth_fail (s : Session) (w : World) : out := auth_fail_counted (count_failure s) w.

Definition auth_busy (s : Session) (w : World) : out :=
  (s, w, Continue (Reply.single 454 "4.7.0 Temporary authentication failure")).

Definition auth_success (s : Session) (w : World) (account : list Z) (label : option (list Z)) : out :=
  (set_auth_app_password_label (set_authenticated s (Some account)) label, w, Continue AUTH_OK).

Inductive PlainError := BadEncoding | BadFormat | AuthzidMismatch.

(** [auth::parse_plain]: (authcid, password). *)
Definition parse_plain (env : Env) (encoded : list Z) : result PlainError (list Z * list Z) :=
  let? decoded := ok_or BadEncoding (base64_decode env (trim encoded)) in
  let? text := ok_or BadFormat (from_utf8 decoded) in
  match split NUL text with
  | [authzid; authcid; password] =>
      if is_empty authcid || is_empty password then Err BadFormat
      else if negb (is_empty authzid) && negb (str_eqb authzid authcid) then Err AuthzidMismatch
      else Ok (authcid, password)
  | _ => Err BadFormat
  end.

Definition apply_verdict (s : Session) (w : World) (v : Verdict) : out :=
  match v with
  | LoginAdmitted account label => auth_success s w account label
  | LoginRefused => auth_fail s w
  | LoginBusy => auth_busy s w
  end.

Definition verify_plain (env : Env) (s : Session) (w : World) (encoded : list Z) : out :=
  match parse_plain env encoded with
  | Err _ => auth_fail s w
  | Ok (authcid, password) =>
      apply_verdict s w
        (authenticate_verdict env (directory s) authcid password (peer_ip s) (auth_protocol (cfg s)))
  end.

Definition login_username (env : Env) (s : Session) (w : World) (encoded : list Z) : out :=
  match base64_decode env (trim encoded) with
  | None => auth_fail s w
  | Some bytes =>
      (set_pending_login s (Some (Some (from_utf8_lossy bytes))), w,
       CollectAuthResponse (Reply.single 334 "UGFzc3dvcmQ6"))
  end.

Definition login_password (env : Env) (s : Session) (w : World) (user encoded : list Z) : out :=
  match base64_decode env (trim encoded) with
  | None => auth_fail s w
  | Some bytes =>
      apply_verdict s w
        (authenticate_verdict env (directory s) user (from_utf8_lossy bytes) (peer_ip s)
           (auth_protocol (cfg s)))
  end.

Definition verify_external (env : Env) (s : Session) (w : World) (encoded : list Z) : out :=
  match client_identity s with
  | None => auth_fail s w
  | Some identity =>
      let trimmed := trim encoded in
      let authzid :=
        if is_empty trimmed || str_eqb trimmed (lit "=") then Some []
        else from_utf8_lossy <$> base64_decode env trimmed in
      match authzid with
      | None => auth_fail s w
      | Some authzid =>
          if negb (is_empty authzid) && negb (str_eqb authzid identity) then auth_fail s w
          else
            match parse_address identity with
            | Err _ => auth_fail s w
            | Ok a =>
                match Directory.resolve_exact (directory s) a with
                | None => auth_fail s w
                | Some account =>
                    if negb (Directory.admit_login (directory s) account (auth_protocol (cfg s)) Federated)
                    then auth_fail s w
                    else auth_success s w account None
                end
            end
      end
  end.

(** The text after the first [pat]; [text.split(pat).nth(1)] is it up to the
    next [pat]. *)
Fixpoint after (pat s : list Z) : option (list Z) :=
  match strip_prefix pat s with
  | Some rest => Some rest
  | None => match s with [] => None | _ :: s => after pat s end
  end.
Fixpoint until (pat s : list Z) : list Z :=
  match s with
  | [] => []
  | c :: s' => if starts_with pat s then [] else c :: until pat s'
  end.

Definition parse_bearer (env : Env) (encoded : list Z) : option (list Z) :=
  decoded ← base64_decode env encoded;
  text ← from_utf8 decoded;
  rest ← after (lit "auth=Bearer ") text;
  let rest := until (lit "auth=Bearer ") rest in
  let token := trim (until [1] rest) in
  if is_empty token then None else Some token.

Definition oauth_bearer (env : Env) (s : Session) (w : World) (initial : option (list Z)) : out :=
  if negb (oauth (cfg s)) then (s, w, Continue UNSUPPORTED)
  else
    let proof := if second_factor_attested env then Federated else Bearer in
    let outcome :=
      encoded ← initial;
      token ← parse_bearer env encoded;
      account ← verify_token env (directory s) token;
      if Directory.admit_login (directory s) account (auth_protocol (cfg s)) proof
      then Some account else None in
    match outcome with
    | Some account => (set_authenticated s (Some account), w, Continue AUTH_OK)
    | None => auth_fail s w
    end.

(** *** SCRAM *)

Definition scram_binding (s : Session) (plus : bool) : ChannelBinding :=
  match cbind_data (cfg s), plus with
  | Some hash, true => Required hash
  | Some _, false => Supported
  | None, _ => Unsupported
  end.

Definition scram_failure (s : Session) (w : World) : out := auth_fail (set_pending_scram s None) w.

(** The malformed client-first: the ban on the peer is consulted first. *)
Definition scram_malformed (env : Env) (s : Session) (w : World) : out :=
  match check_ban env [] (peer_ip s) (auth_protocol (cfg s)) with
  | Banned => scram_failure s w
  | _ => scram_failure s (record_ban_outcome w [] None false false)
  end.

Definition count_scram_failure (w : World) (username : list Z) (plan : ScramPlan) : World :=
  match plan_refusal plan with
  | Some RefusalBanned => w
  | Some (RefusalDenied account) => record_ban_outcome w username account false false
  | None => record_ban_outcome w username (Some (plan_account plan)) false false
  end.

Definition decode (env : Env) (encoded : list Z) : option (list Z) :=
  bytes ← base64_decode env encoded; from_utf8 bytes.

Definition scram_client_first (env : Env) (s : Session) (w : World) (encoded : list Z)
    (binding : ChannelBinding) : out :=
  match decode env encoded with
  | None => scram_malformed env s w
  | Some client_first =>
      match username_of env client_first with
      | None => scram_malformed env s w
      | Some username =>
          let plan := plan_scram env (directory s) username (peer_ip s) (auth_protocol (cfg s)) in
          match fresh_nonce env with
          | None => scram_failure s (count_scram_failure w username plan)
          | Some nonce =>
              match scram_first env nonce binding client_first (plan_credentials plan) with
              | None => scram_failure s (count_scram_failure w username plan)
              | Some (server, server_first) =>
                  (set_pending_scram s
                     (Some (ClientFinal server (plan_credentials plan) (plan_account plan)
                              (plan_refusal plan) (directory s))), w,
                   CollectAuthResponse (mkReply 334 [base64_encode env server_first]))
              end
          end
      end
  end.

Definition scram_begin (env : Env) (s : Session) (w : World) (initial : option (list Z))
    (plus : bool) : out :=
  let binding := scram_binding s plus in
  match initial with
  | Some client_first => scram_client_first env s w client_first binding
  | None =>
      (set_pending_scram s (Some (ClientFirst binding)), w, CollectAuthResponse (mkReply 334 [[]]))
  end.

Definition scram_client_final (env : Env) (s : Session) (w : World) (encoded : list Z)
    (server : ScramServer) (credentials : ScramCredentials) (account : list Z)
    (refusal : option ScramRefusal) (issued : Directory.t) : out :=
  match refusal with
  | Some RefusalBanned => scram_failure s w
  | Some (RefusalDenied counted) => scram_failure s (record_ban_outcome w account counted false false)
  | None =>
      match check_ban env account (peer_ip s) (auth_protocol (cfg s)) with
      | Banned => scram_failure s w
      | BannedButKnown _ | BanClear _ =>
          match decode env encoded with
          | None => scram_failure s (record_ban_outcome w account (Some account) false false)
          | Some client_final =>
              match scram_finish env server client_final credentials,
                    scram_credentials_current env (directory s) account issued (auth_protocol (cfg s)) with
              | Some server_final, true =>
                  (set_pending_scram s (Some (ServerFinal account issued)), w,
                   CollectAuthResponse (mkReply 334 [base64_encode env server_final]))
              | _, _ => scram_failure s (record_ban_outcome w account (Some account) false false)
              end
          end
      end
  end.

Definition scram_server_final (env : Env) (s : Session) (w : World) (line account : list Z)
    (issued : Directory.t) : out :=
  if negb (is_empty line)
  then (s, w, Continue (Reply.single 501 "5.5.2 invalid authentication response"))
  else
    let finish bypassed :=
      if negb (scram_credentials_current env (directory s) account issued (auth_protocol (cfg s)))
      then scram_failure s (record_ban_outcome w account (Some account) false false)
      else (set_authenticated s (Some account), record_ban_outcome w account (Some account) true bypassed,
            Continue AUTH_OK) in
    match check_ban env account (peer_ip s) (auth_protocol (cfg s)) with
    | Banned => scram_failure s w
    | BannedButKnown _ => finish true
    | BanClear _ => finish false
    end.

(** *** Dispatch *)

Definition auth (env : Env) (s : Session) (w : World) (mechanism : list Z)
    (initial : option (list Z)) : out :=
  if negb (tls_active s)
  then (s, w, Continue (Reply.single 538 "5.7.11 encryption required for auth"))
  else if bool_decide (is_Some (authenticated s)) then (s, w, Continue Reply.bad_sequence)
  else
    match state s with
    | Greeted =>
        match Sasl.parse mechanism with
        | None => (s, w, Continue UNSUPPORTED)
        | Some m =>
            if negb (Sasl.is_available m (bool_decide (is_Some (client_identity s)))
                       (bool_decide (is_Some (cbind_data (cfg s)))) (scram_enabled (cfg s))
                       (oauth (cfg s)))
            then (s, w, Continue UNSUPPORTED)
            else
              match m with
              | Sasl.External =>
                  match initial with
                  | Some response => verify_external env s w response
                  | None => (set_pending_external s true, w, CollectAuthResponse (mkReply 334 [[]]))
                  end
              | Sasl.Plain =>
                  match initial with
                  | Some response => verify_plain env s w response
                  | None => (s, w, CollectAuthResponse (mkReply 334 [[]]))
                  end
              | Sasl.ScramSha256 => scram_begin env s w initial false
              | Sasl.ScramSha256Plus => scram_begin env s w initial true
              | Sasl.OauthBearer | Sasl.Xoauth2 => oauth_bearer env s w initial
              | Sasl.Login =>
                  match initial with
                  | Some user => login_username env s w user
                  | None =>
                      (set_pending_login s (Some None), w,
                       CollectAuthResponse (Reply.single 334 "VXNlcm5hbWU6"))
                  end
              end
        end
    | _ => (s, w, Continue Reply.bad_sequence)
    end.

Definition auth_response (env : Env) (s : Session) (w : World) (line : list Z) : out :=
  if str_eqb line (lit "*") then
    (set_pending_external (set_pending_login (set_pending_scram s None) None) false, w,
     Continue (Reply.single 501 "5.7.0 authentication cancelled"))
  else if pending_external s then verify_external env (set_pending_external s false) w line
  else
    match pending_login s with
    | Some st =>
        let s := set_pending_login s None in
        match st with
        | None => login_username env s w line
        | Some user => login_password env s w user line
        end
    | None =>
        let pending := pending_scram s in
        let s := set_pending_scram s None in
        match pending with
        | Some (ClientFirst binding) => scram_client_first env s w line binding
        | Some (ClientFinal server credentials account refusal issued) =>
            scram_client_final env s w line server credentials account refusal issued
        | Some (ServerFinal account issued) => scram_server_final env s w line account issued
        | None => verify_plain env s w line
        end
    end.

Definition auth_line (env : Env) (s : Session) (w : World) (line : list Z) : out :=
  count_junk (auth_response env s w line) true.

Definition apply (env : Env) (s : Session) (w : World) (command : Command) : out :=
  match command with
  | Helo domain => greet s w domain false
  | Ehlo domain => greet s w domain true
  | MailFrom reverse_path size _ require_tls _ _ => mail_from env s w reverse_path size require_tls
  | RcptTo forward_path notify _ => rcpt_to env s w forward_path notify
  | Data => data s w
  | Bdat size last => bdat s w size last
  | Rset => let '(s, w) := reset s w in (s, w, Continue Reply.ok)
  | Noop => (s, w, Continue Reply.ok)
  | Quit => (s, w, Close Reply.closing)
  | Vrfy => (s, w, Continue Reply.vrfy_not_disclosed)
  | StartTls => start_tls s w
  | Auth mechanism initial => auth env s w mechanism initial
  end.

Definition dispatch (env : Env) (s : Session) (w : World) (parsed : result ParseError Command) : out :=
  match parsed with
  | Ok command => apply env s w command
  | Err UnknownCommand => (s, w, Continue Reply.syntax_error)
  | Err LineTooLong => (s, w, Continue (Reply.single 500 "5.5.2 line too long"))
  | Err InvalidCharacters => (s, w, Continue Reply.syntax_error)
  | Err InvalidArguments => (s, w, Continue Reply.invalid_arguments)
  | Err UnsupportedParameter => (s, w, Continue (Reply.single 555 "5.5.4 parameter not implemented"))
  end.

Definition command_line (env : Env) (s : Session) (w : World) (line : list Z) : out :=
  let parsed := parse line in
  let is_junk := is_junk s parsed in
  count_junk (dispatch env s w parsed) is_junk.

End session.
