(* ===== verification/Bounce.v ===== *)
(** Delivery status notifications (src/src/queue/bounce/mod.rs) and the
    enhanced status codes they quote (src/src/queue/reply/mod.rs).

    The text of a report is written as the list of its lines, each of which
    the source ends with CR LF. *)

From S2P Require Import Prelude RustStd Utf8 Slices HeaderBlock HeaderStrip Address SmtpSession.

Local Open Scope Z_scope.

(** ** Enhanced status codes *)

Record Enhanced := mkEnhanced { en_class : Z; en_subject : Z; en_detail : Z }.

(** One number: one to three digits. *)
Definition enhanced_number (part : list Z) : option Z :=
  if is_empty part || (3 <? str_len part)%nat || negb (forallb is_ascii_digit (as_bytes part)) then None
  else parse_uint u16_max part.

Definition parse_enhanced (token : list Z) : option Enhanced :=
  match split DOT token with
  | c :: s :: d :: more =>
      class ← enhanced_number c;
      subject ← enhanced_number s;
      detail ← enhanced_number d;
      if bool_decide (more = []) && ((class =? 2) || (class =? 4) || (class =? 5)) then Some (mkEnhanced class subject detail) else None
  | _ => None
  end.

(** ** Reports *)

Inductive Kind := Failed | Delayed.

Record ReportRecipient := mkRecipient {
  rr_recipient : list Z;
  rr_reason : list Z;
  rr_remote : option (list Z);
  rr_expired : bool
}.

Definition new_recipient (recipient reason : list Z) : ReportRecipient := mkRecipient recipient reason None false.

Definition MAX_REASON_LEN : nat := 512.

Definition sanitize_reason (reason : list Z) : list Z :=
  take MAX_REASON_LEN (map (λ c, if is_control c then 32 else c) reason).

Definition is_smtp_reply (reason : list Z) : bool :=
  match as_bytes reason with
  | b0 :: b1 :: b2 :: more =>
      forallb is_ascii_digit [b0; b1; b2] && in_range 50 53 b0 &&
      match more with [] => true | b :: _ => b =? 32 end
  | _ => false
  end.

(** [reason.get(4..).unwrap_or_default().split(' ').next()]. *)
Definition second_word (reason : list Z) : option (list Z) :=
  head (split 32 (match split_at_byte 4 reason with Some (_, rest) => rest | None => [] end)).

Definition enhanced_of (reason : list Z) : option Enhanced :=
  if is_smtp_reply reason then
    enhanced ← second_word reason ≫= parse_enhanced;
    if starts_with (decimal (en_class enhanced)) reason then Some enhanced else None
  else None.

(** [reason] is the sanitised one. *)
Definition status_of (kind : Kind) (recipient : ReportRecipient) (reason : list Z) : list Z :=
  let class := match kind with Failed => 53 | Delayed => 52 end in
  match enhanced_of reason with
  | Some enhanced => class :: DOT :: decimal (en_subject enhanced) ++ DOT :: decimal (en_detail enhanced)
  | None => if rr_expired recipient then lit "5.4.7" else class :: lit ".0.0"
  end.

Definition recipient_fields (kind : Kind) (recipient : ReportRecipient) (reason : list Z) : list (list Z) :=
  [lit "Final-Recipient: rfc822; " ++ rr_recipient recipient;
   lit "Action: " ++ match kind with Failed => lit "failed" | Delayed => lit "delayed" end;
   lit "Status: " ++ status_of kind recipient reason] ++
  match rr_remote recipient with
  | Some remote => [lit "Remote-MTA: dns; " ++ sanitize_reason remote]
  | None => []
  end ++
  (if is_smtp_reply reason then [lit "Diagnostic-Code: smtp; " ++ reason] else []) ++
  [[]].

Definition MAX_HEADERS : nat := 4096.

(** Where the last LF of [l] is, one past it; 0 when there is none. *)
Fixpoint whole_lines (l : list Z) : nat :=
  match l with
  | [] => 0
  | b :: l => match whole_lines l with O => if b =? LF then 1 else 0 | S n => S (S n) end
  end.

Definition original_header_block (data : list Z) : list Z :=
  let end_ := match window_position CRLFCRLF data with Some p => (p + 2)%nat | None => length data end in
  let block := take end_ data in
  let block :=
    if (MAX_HEADERS <? length block)%nat then
      let cut := take MAX_HEADERS block in take (whole_lines cut) cut
    else block in
  from_utf8_lossy block.

Definition text (lines : list (list Z)) : list Z := flat_map (λ l, l ++ [CR; LF]) lines.

Section report.
Context `{UC : Unicode}.

Definition is_address (raw : list Z) : bool := match parse_address raw with Ok _ => true | Err _ => false end.

(** What the report says of its kind: the subject and the two sentences. *)
Definition wording (kind : Kind) : list Z * list Z * list Z :=
  match kind with
  | Failed =>
      (lit "Undelivered Mail Returned to Sender",
       lit "Your message could not be delivered to the following recipients:",
       lit "The message will not be retried.")
  | Delayed =>
      (lit "Delivery Status Notification (Delay)",
       lit "Your message is taking longer than expected to deliver to:",
       lit "No action is required: delivery will keep being retried.")
  end.

Definition boundary (now_secs : Z) : list Z := lit "=_dsn_" ++ decimal now_secs.

Definition report_header (kind : Kind) (hostname original_reverse_path date : list Z) (now_secs : Z) (auto_submitted : bool)
    : list (list Z) :=
  let '(subject, _, _) := wording kind in
  [lit "From: Mail Delivery System <MAILER-DAEMON@" ++ hostname ++ lit ">";
   lit "To: <" ++ original_reverse_path ++ lit ">";
   lit "Subject: " ++ subject;
   lit "Date: " ++ date] ++
  (if auto_submitted then [lit "Auto-Submitted: auto-generated"] else []) ++
  [lit "MIME-Version: 1.0";
   lit "Content-Type: multipart/report; report-type=delivery-status;";
   TAB :: lit "boundary=" ++ 34 :: boundary now_secs ++ [34]].

(** The lines of the parts up to the quoted header. *)
Definition report_parts (kind : Kind) (hostname : list Z) (recipients : list ReportRecipient) (now_secs : Z) : list (list Z) :=
  let '(_, intro, closing) := wording kind in
  let open := lit "--" ++ boundary now_secs in
  [open; lit "Content-Type: text/plain; charset=us-ascii"; [];
   lit "This is the mail system at host " ++ hostname ++ lit "."; []; intro; []] ++
  flat_map (λ r, [lit "   " ++ rr_recipient r; lit "      " ++ sanitize_reason (rr_reason r)]) recipients ++
  [[]; closing; []; open; lit "Content-Type: message/delivery-status"; [];
   lit "Reporting-MTA: dns; " ++ hostname; []] ++
  flat_map (λ r, recipient_fields kind r (sanitize_reason (rr_reason r))) recipients ++
  [open; lit "Content-Type: message/rfc822-headers"; []].

Definition build_report (kind : Kind) (hostname original_reverse_path : list Z) (recipients : list ReportRecipient)
    (original_data date : list Z) (now_secs : Z) (auto_submitted : bool) : option AcceptedMessage :=
  if is_empty original_reverse_path then None
  else if existsb (λ r, negb (is_address (rr_recipient r))) recipients then None
  else if existsb (λ ch, is_control ch || (ch =? 60) || (ch =? 62)) original_reverse_path then None
  else
    let body :=
      text (report_header kind hostname original_reverse_path date now_secs auto_submitted ++ [] :: report_parts kind hostname recipients now_secs) ++
      original_header_block original_data ++ [CR; LF] ++
      text [lit "--" ++ boundary now_secs ++ lit "--"] in
    Some (SmtpSession.mkMessage [] [original_reverse_path] (frame_generated (as_bytes body)) false None false false []).

Definition build_failed (hostname original_reverse_path : list Z) (recipients : list ReportRecipient)
    (original_data date : list Z) (now_secs : Z) (auto_submitted : bool) : option AcceptedMessage :=
  build_report Failed hostname original_reverse_path recipients original_data date now_secs auto_submitted.

Definition build (hostname original_reverse_path : list Z) (failed_recipients : list (list Z)) (reason original_data date : list Z)
    (now_secs : Z) (auto_submitted : bool) : option AcceptedMessage :=
  build_failed hostname original_reverse_path (map (λ r, new_recipient r reason) failed_recipients)
    original_data date now_secs auto_submitted.

Definition build_delay_warning (hostname original_reverse_path : list Z) (recipients : list ReportRecipient)
    (original_data date : list Z) (now_secs : Z) (auto_submitted : bool) : option AcceptedMessage :=
  build_report Delayed hostname original_reverse_path recipients original_data date now_secs auto_submitted.

End report.

(** ** What a report says *)

(** A sender nothing can be written to: the field of the report would break. *)
Definition bad_sender (rp : list Z) : bool := existsb (λ ch, is_control ch || (ch =? 60) || (ch =? 62)) rp.

(** A failure report to [rp] on a message of [data] that names [a]. *)
Definition report_on `{Unicode} (rp data a : list Z) (m : AcceptedMessage) : Prop :=
  ∃ hostname recipients date now auto,
    build_failed hostname rp recipients data date now auto = Some m ∧ a ∈ map rr_recipient recipients.

(** Why there is no report: no sender, or one no field can hold, or something
    among the recipients that is no address. *)
Definition no_report `{Unicode} (rp : list Z) (addresses : list (list Z)) : Prop :=
  rp = [] ∨ bad_sender rp = true ∨ ∃ b, b ∈ addresses ∧ is_address b = false.

Lemma build_failed_result `{Unicode} hostname rp recipients data date now auto :
  match build_failed hostname rp recipients data date now auto with
  | Some m => rp ≠ [] ∧ ∀ a, a ∈ map rr_recipient recipients → report_on rp data a m
  | None => no_report rp (map rr_recipient recipients)
  end.
Proof.
  destruct (build_failed _ _ _ _ _ _ _) as [m|] eqn:E.
  - split; [by intros ->|]. intros a Ha. by exists hostname, recipients, date, now, auto.
  - unfold build_failed, build_report in E. destruct rp as [|x rp]; [by left|]. right. cbn [is_empty] in E.
    destruct (existsb _ recipients) eqn:Ea.
    + right. apply existsb_exists in Ea as (r & Hin & Hr). exists (rr_recipient r).
      split; [by apply list_elem_of_In, in_map|by apply negb_true_iff].
    + left. unfold bad_sender. by destruct (existsb _ (x :: rp)).
Qed.


Definition plain_text (s : list Z) : Prop := Forall (λ c, is_control c = false) s.

(** A line nothing in it ends: TAB is the only control it may have. *)
Definition whole_line (s : list Z) : Prop := Forall (λ c, is_control c = false ∨ c = TAB) s.

Lemma plain_whole s : plain_text s → whole_line s.
Proof. intros H. eapply Forall_impl; [exact H|]. auto. Qed.

Lemma plain_lit s : existsb is_control s = false → plain_text s.
Proof. apply existsb_false_Forall. Qed.

Lemma sanitize_reason_plain reason : plain_text (sanitize_reason reason).
Proof.
  unfold sanitize_reason. apply Forall_take, Forall_map, Forall_true. intros c. cbn.
  by destruct (is_control c) eqn:E.
Qed.

Lemma decimal_plain n : plain_text (decimal n).
Proof.
  pose proof (decimal_digits n) as H. eapply Forall_impl; [exact H|]. intros c Hc. by apply digit_not_control.
Qed.

Lemma is_address_plain `{Unicode} raw : is_address raw = true → plain_text raw.
Proof.
  unfold is_address, parse_address. destruct (_ <? _)%nat; [done|].
  destruct (rsplit_once AT raw) as [[l d]|] eqn:E; [|done]. cbn [ok_or result_bind fst snd].
  apply rsplit_once_Some in E as [-> _]. destruct (validate_local_part l) as [[]|] eqn:Ev; [|done]. cbn [result_bind].
  unfold normalize_name. destruct (is_empty d || _ || _) eqn:Ed; [done|]. intros _.
  rewrite !orb_false_iff in Ed. destruct Ed as [_ Hd]. apply Forall_app. split; [|constructor; [done|]].
  - eapply Forall_impl; [exact (local_part_chars _ Ev)|]. intros c [Hc| ->]; [|done].
    pose proof (is_atext_not_structural c Hc) as Hs. unfold structural in Hs. rewrite !orb_false_iff in Hs. tauto.
  - by apply existsb_false_Forall.
Qed.

(** Framing keeps what is framed already. *)
Lemma frame_generated_prefix p rest : framed_text p → ∃ rest', frame_generated (p ++ rest) = p ++ rest'.
Proof.
  intros Hp.
  assert (Hloop : ∀ r, frame_loop (p ++ r) = p ++ frame_loop r).
  { intros r. induction Hp as [|q Hq IH|b q H1 H2 H3 Hq IH]; [done|cbn; by rewrite IH|].
    cbn [app frame_loop]. rewrite (proj2 (Z.eqb_neq _ _) H1), (proj2 (Z.eqb_neq _ _) H2), (proj2 (Z.eqb_neq _ _) H3). by rewrite IH. }
  assert (Hnorm : ∀ r o, ∃ r', normalize_lf o (p ++ r) = p ++ r').
  { clear Hloop. intros r. induction Hp as [|q Hq IH|b q H1 H2 H3 Hq IH]; intros o; [by eexists| |].
    - destruct (IH (Some LF)) as [r' Hr']. exists r'. cbn [app normalize_lf]. by rewrite Hr'.
    - destruct (IH (Some b)) as [r' Hr']. exists r'. cbn [app normalize_lf]. rewrite (proj2 (Z.eqb_neq _ _) H2). cbn. by rewrite Hr'. }
  assert (Hout : ∀ r, ∃ r', outbound_crlf (p ++ r) = p ++ r').
  { intros r. unfold outbound_crlf. destruct (_ && _); [by eexists|]. destruct (Hnorm r None) as [r' ->].
    destruct (ends_with _ _); [by eexists|]. exists (r' ++ [CR; LF]). by rewrite app_assoc. }
  unfold frame_generated. destruct (negb _); [apply Hout|]. rewrite Hloop. apply Hout.
Qed.

Lemma encode_utf8_text c : is_control c = false ∨ c = TAB → framed_text (encode_utf8 c).
Proof.
  intros Hc. assert (Hne : ∀ b, b = CR ∨ b = LF ∨ b = NUL → c ≠ b).
  { intros b Hb ->. unfold CR, LF, NUL, TAB, is_control, in_range in *. lia. }
  unfold encode_utf8.
  assert (Hhigh : ∀ b l, 0x80 ≤ b → framed_text l → framed_text (b :: l)).
  { intros b l Hb Hl. constructor; [unfold CR; lia|unfold LF; lia|unfold NUL; lia|done]. }
  destruct (Z.ltb_spec c 0x80); [constructor; [naive_solver..|constructor]|].
  pose proof (Z.mod_pos_bound c 64 eq_refl). pose proof (Z.mod_pos_bound (c / 64) 64 eq_refl). pose proof (Z.mod_pos_bound (c / 4096) 64 eq_refl).
  assert (0 ≤ c / 64 ∧ 0 ≤ c / 4096 ∧ 0 ≤ c / 262144) as (? & ? & ?) by (split_and!; apply Z.div_pos; lia).
  destruct (_ <? _); [|destruct (_ <? _)]; repeat (apply Hhigh; [lia|]); constructor.
Qed.

Lemma text_framed lines : Forall whole_line lines → framed_text (as_bytes (text lines)).
Proof.
  intros H. induction H as [|l lines Hl _ IH]; [constructor|].
  change (text (l :: lines)) with ((l ++ [CR; LF]) ++ text lines). rewrite !as_bytes_app.
  apply framed_text_app; [apply framed_text_app|done].
  - induction Hl as [|c l Hc _ IHl]; [constructor|]. change (as_bytes (c :: l)) with (encode_utf8 c ++ as_bytes l).
    apply framed_text_app; [by apply encode_utf8_text|done].
  - repeat constructor.
Qed.

Lemma starts_plain s1 s2 : plain_text s1 → whole_line s2 → whole_line (s1 ++ s2).
Proof. intros H1 H2. apply Forall_app. split; [by apply plain_whole|done]. Qed.

(** Discharges the lines that are fixed texts around values. *)
Ltac line_tac :=
  match goal with
  | |- whole_line (_ ++ _) => apply Forall_app; split; fold whole_line; line_tac
  | |- Forall _ (_ ++ _) => apply Forall_app; split; line_tac
  | H : plain_text ?s |- Forall _ ?s => exact (plain_whole _ H)
  | H : plain_text ?s |- whole_line ?s => exact (plain_whole _ H)
  | |- _ => apply plain_whole; first [apply sanitize_reason_plain | apply decimal_plain | by apply plain_lit]
  end.

Section theory.
Context `{UC : Unicode}.

Lemma status_of_plain kind r reason : plain_text (status_of kind r reason).
Proof.
  unfold status_of. destruct (enhanced_of reason) as [e|].
  - constructor; [by destruct kind|]. constructor; [done|]. apply Forall_app. split; [apply decimal_plain|].
    constructor; [done|apply decimal_plain].
  - destruct (rr_expired r); [by apply plain_lit|]. constructor; [by destruct kind|by apply plain_lit].
Qed.

Lemma recipient_fields_whole kind r reason :
  plain_text (rr_recipient r) → plain_text reason → Forall whole_line (recipient_fields kind r reason).
Proof.
  intros Hr Hs. pose proof (status_of_plain kind r reason) as Hst. unfold recipient_fields. repeat (apply Forall_app; split).
  - constructor; [line_tac|]. constructor; [destruct kind; line_tac|]. constructor; [line_tac|constructor].
  - destruct (rr_remote r); [|constructor]. constructor; [line_tac|constructor].
  - destruct (is_smtp_reply reason); [|constructor]. constructor; [line_tac|constructor].
  - by repeat constructor.
Qed.

Lemma boundary_plain n : plain_text (boundary n).
Proof. apply Forall_app. split; [by apply plain_lit|apply decimal_plain]. Qed.

Lemma report_header_whole kind hostname rp date n auto :
  plain_text hostname → plain_text rp → plain_text date → Forall whole_line (report_header kind hostname rp date n auto).
Proof.
  intros Hh Hr Hd. pose proof (boundary_plain n) as Hb. unfold report_header.
  destruct (wording kind) as [[subject ?] ?] eqn:Ew. repeat (apply Forall_app; split).
  - constructor; [line_tac|]. constructor; [line_tac|]. constructor; [|constructor; [line_tac|constructor]].
    destruct kind; injection Ew as <- _ _; by apply plain_whole, plain_lit.
  - destruct auto; [|constructor]. constructor; [line_tac|constructor].
  - constructor; [line_tac|]. constructor; [line_tac|]. constructor; [|constructor]. constructor; [by right|].
    apply Forall_app; split; [line_tac|]. constructor; [by left|]. apply Forall_app; split; [line_tac|].
    constructor; [by left|constructor].
Qed.

Lemma report_parts_whole kind hostname recipients n :
  plain_text hostname → Forall (λ r, plain_text (rr_recipient r)) recipients → Forall whole_line (report_parts kind hostname recipients n).
Proof.
  intros Hh Hr. pose proof (boundary_plain n) as Hb. unfold report_parts.
  destruct (wording kind) as [[subject intro] closing] eqn:Ew.
  assert (Hi : plain_text intro ∧ plain_text closing) by (destruct kind; injection Ew as _ <- <-; by split; apply plain_lit).
  destruct Hi as [Hi Hc]. assert (Hnil : whole_line []) by constructor.
  assert (Ho : whole_line (lit "--" ++ boundary n)) by line_tac. repeat (apply Forall_app; split).
  - do 7 (constructor; [first [done|line_tac]|]). constructor.
  - apply Forall_flat_map. eapply Forall_impl; [exact Hr|]. intros r Hx. cbv beta in Hx. constructor; [line_tac|]. constructor; [line_tac|constructor].
  - do 8 (constructor; [first [done|line_tac]|]). constructor.
  - apply Forall_flat_map. eapply Forall_impl; [exact Hr|]. intros r Hx.
    apply recipient_fields_whole; [done|apply sanitize_reason_plain].
  - do 3 (constructor; [first [done|line_tac]|]). constructor.
Qed.

Definition FINAL_RECIPIENT : list Z := lit "Final-Recipient: ".

Lemma final_recipient_header kind hostname rp date n auto :
  List.filter (starts_with FINAL_RECIPIENT) (report_header kind hostname rp date n auto) = [].
Proof. unfold report_header. by destruct kind, auto. Qed.

Lemma final_recipient_parts kind hostname recipients n :
  List.filter (starts_with FINAL_RECIPIENT) (report_parts kind hostname recipients n) =
  map (λ r, lit "Final-Recipient: rfc822; " ++ rr_recipient r) recipients.
Proof.
  unfold report_parts. destruct (wording kind) as [[subject intro] closing] eqn:Ew.
  assert (Hi : starts_with FINAL_RECIPIENT intro = false ∧ starts_with FINAL_RECIPIENT closing = false)
    by (destruct kind; injection Ew as _ <- <-; done).
  destruct Hi as [Hi Hc]. rewrite !List.filter_app.
  assert (Hh : ∀ rs, List.filter (starts_with FINAL_RECIPIENT)
    (flat_map (λ r, [lit "   " ++ rr_recipient r; lit "      " ++ sanitize_reason (rr_reason r)]) rs) = []).
  { intros rs. induction rs as [|r rs IH]; [done|]. cbn [flat_map]. rewrite List.filter_app, IH. reflexivity. }
  assert (Hf : ∀ rs, List.filter (starts_with FINAL_RECIPIENT)
    (flat_map (λ r, recipient_fields kind r (sanitize_reason (rr_reason r))) rs) =
    map (λ r, lit "Final-Recipient: rfc822; " ++ rr_recipient r) rs).
  { intros rs. induction rs as [|r rs IH]; [done|]. cbn [flat_map map]. rewrite List.filter_app, IH. unfold recipient_fields.
    rewrite !List.filter_app. destruct (rr_remote r), (is_smtp_reply _); reflexivity. }
  rewrite Hh, Hf. cbn [List.filter]. rewrite Hi, Hc. cbn -[lit boundary]. by rewrite app_nil_r.
Qed.

(** C28: nothing quoted in a report can pass for a part of it. Whatever the
    remote server answered and whatever the returned message holds, the
    report starts with exactly its own header, the explanation and one block
    of status fields for each recipient, none of whose lines can be broken;
    it goes to the sender of the message, from the null sender, in lines
    every server reads alike. *)
Theorem bounce_unforgeable kind hostname rp recipients data date now_secs auto m
    (Hhost : plain_text hostname) (Hdate : plain_text date)
    (Hm : build_report kind hostname rp recipients data date now_secs auto = Some m) :
  let lines := report_header kind hostname rp date now_secs auto ++ [] :: report_parts kind hostname recipients now_secs in
  (∃ rest, msg_data m = as_bytes (text lines) ++ rest) ∧ Forall whole_line lines ∧
  List.filter (starts_with FINAL_RECIPIENT) lines = map (λ r, lit "Final-Recipient: rfc822; " ++ rr_recipient r) recipients ∧
  msg_reverse_path m = [] ∧ msg_recipients m = [rp] ∧ framed_text (msg_data m).
Proof.
  unfold build_report in Hm. destruct (is_empty rp); [done|].
  destruct (existsb _ recipients) eqn:Ea; [done|]. destruct (existsb _ rp) eqn:Er; [done|]. injection Hm as <-.
  apply existsb_false_Forall in Ea, Er. intros lines.
  assert (Hw : Forall whole_line lines).
  { apply Forall_app. split; [apply report_header_whole; try done|].
    - eapply Forall_impl; [exact Er|]. intros c Hc. cbv beta in Hc. rewrite !orb_false_iff in Hc. tauto.
    - constructor; [constructor|]. apply report_parts_whole; [done|]. eapply Forall_impl; [exact Ea|].
      intros r Hr. by apply is_address_plain, negb_false_iff. }
  split_and!; try done.
  - rewrite as_bytes_app. by apply frame_generated_prefix, text_framed.
  - unfold lines. rewrite List.filter_app, final_recipient_header. cbn [app List.filter]. apply final_recipient_parts.
  - apply frame_generated_framed.
Qed.

End theory.

Lemma bounce_unforgeable_witness :
  ∃ m, @build_report ascii_unicode Failed (lit "example.org") (lit "eve@example.net")
      [new_recipient (lit "bob@example.org") (lit "550 5.1.1 no" ++ [CR; LF] ++ lit "Final-Recipient: rfc822; carol@example.org")]
      (lit "Subject: x") (lit "Thu, 1 Jan 1970 00:00:00 +0000") 0 true = Some m ∧ msg_reverse_path m = [].
Proof.
  assert (H : ∃ m, @build_report ascii_unicode Failed (lit "example.org") (lit "eve@example.net")
      [new_recipient (lit "bob@example.org") (lit "550 5.1.1 no" ++ [CR; LF] ++ lit "Final-Recipient: rfc822; carol@example.org")]
      (lit "Subject: x") (lit "Thu, 1 Jan 1970 00:00:00 +0000") 0 true = Some m) by (eexists; vm_compute; reflexivity).
  destruct H as [m Hm]. exists m. split; [exact Hm|].
  refine (proj1 (proj2 (proj2 (proj2 (@bounce_unforgeable ascii_unicode _ _ _ _ _ _ _ _ m _ _ Hm)))));
    apply plain_lit; vm_compute; reflexivity.
Defined.
