(* ===== verification/QueueReply.v ===== *)
(** How the outbound queue reads the replies of remote servers
    (src/src/queue/reply/mod.rs), and which of them ask it to slow down
    (src/src/queue/backoff/mod.rs). *)

From S2P Require Import Prelude RustStd Utf8 Slices HeaderBlock Address SieveMatch Bounce.

Local Open Scope Z_scope.

(** ** Failure classes *)

Inductive FailureClass := InvalidAddress | MailboxIsFull | PolicyRejected | TooBig | OtherFailure.

#[global] Instance failure_class_eq_dec : EqDecision FailureClass.
Proof. solve_decision. Defined.

Record Verdict := mkVerdict { vd_class : FailureClass; vd_permanent : bool; vd_suppress : bool }.

(** [reason.get(..n)] and [reason.get(n..).unwrap_or_default()]. *)
Definition get_to (n : nat) (s : list Z) : option (list Z) := fst <$> split_at_byte n s.
Definition get_from (n : nat) (s : list Z) : list Z := default [] (snd <$> split_at_byte n s).

Definition enhanced_for (code : Z) (text : list Z) : option Enhanced :=
  first ← head (split_whitespace text);
  enhanced ← parse_enhanced first;
  if en_class enhanced =? code / 100 then Some enhanced else None.

(** [raw.split("\r\n")]. *)
Fixpoint split_crlf (s : list Z) : list (list Z) :=
  match s with
  | [] => [[]]
  | c :: rest =>
      let grow := match split_crlf rest with [] => [[c]] | p :: ps => (c :: p) :: ps end in
      match rest with
      | d :: rest' => if (c =? CR) && (d =? LF) then [] :: split_crlf rest' else grow
      | [] => grow
      end
  end.

Definition show_enhanced (e : Enhanced) : list Z :=
  decimal (en_class e) ++ DOT :: decimal (en_subject e) ++ DOT :: decimal (en_detail e).

(** The enhanced status found so far and the words, after one line more. *)
Definition normalize_line (code : Z) (acc : option Enhanced * list (list Z)) (line : list Z) : option Enhanced * list (list Z) :=
  let '(enhanced, words) := acc in
  let tokens := split_whitespace (get_from 4 line) in
  match head tokens ≫= enhanced_for code with
  | Some found => (Some (default found enhanced), words ++ tail tokens)
  | None => (enhanced, words ++ tokens)
  end.

Definition normalize (code : Z) (raw : list Z) : list Z :=
  let lines := List.filter (λ line, negb (is_empty line)) (split_crlf raw) in
  let '(enhanced, words) := fold_left (normalize_line code) lines (None, []) in
  decimal code ++ match enhanced with Some e => 32 :: show_enhanced e | None => [] end ++ unwords 32 words.

Definition classify (code : Z) (text : list Z) : Verdict :=
  let enhanced := (λ e, (en_subject e, en_detail e)) <$> enhanced_for code text in
  if negb (code / 100 =? 5) then
    mkVerdict
      (match enhanced with
       | Some (2, 2) => MailboxIsFull
       | Some (7, _) => PolicyRejected
       | Some (3, 4) | Some (2, 3) => TooBig
       | _ => OtherFailure
       end) false false
  else
    match enhanced with
    | Some (1, 7) | Some (1, 8) => mkVerdict OtherFailure true false
    | Some (1, _) => mkVerdict InvalidAddress true true
    | Some (2, 2) => mkVerdict MailboxIsFull false false
    | Some (3, 4) | Some (2, 3) => mkVerdict TooBig true false
    | Some (7, _) => mkVerdict PolicyRejected true false
    | Some _ => mkVerdict OtherFailure true false
    | None =>
        if code =? 552 then mkVerdict MailboxIsFull false false
        else if (code =? 551) || (code =? 553) then mkVerdict InvalidAddress true true
        else mkVerdict OtherFailure true false
    end.

(** The three-digit code at the head of a reason. *)
Definition reply_code (reason : list Z) : option Z :=
  head ← get_to 3 reason;
  if forallb is_ascii_digit (as_bytes head) then parse_uint u16_max head else None.

Definition classify_reason (reason : list Z) (permanent : bool) : Verdict :=
  match reply_code reason with
  | Some code => if (400 <=? code) && (code <? 600) then classify code (get_from 4 reason) else mkVerdict OtherFailure permanent false
  | None => mkVerdict OtherFailure permanent false
  end.

(** ** Slowing down *)

Definition code_of (reason : list Z) : option (Z * option (Z * Z) * list Z) :=
  code ← reply_code reason;
  let rest := trim_start (get_from 3 reason) in
  let enhanced :=
    first ← head (split_whitespace rest);
    e ← parse_enhanced first;
    if en_class e =? code / 100 then Some (en_subject e, en_detail e) else None in
  Some (code, enhanced, to_ascii_lowercase rest).

Definition too_many_recipients (reason : list Z) : bool :=
  match code_of reason with
  | Some (452, Some (5, 3), _) => true
  | Some (452, None, text) => contains_str text (lit "too many recipients")
  | _ => false
  end.

Definition throttled (reason : list Z) : bool :=
  if too_many_recipients reason then false
  else match code_of reason with
       | None => false
       | Some (code, enhanced, text) =>
           if code =? 421 then true
           else if in_range 400 499 code && match enhanced with Some (7, _) => true | _ => false end then true
           else if (code =? 451) || (code =? 452) then
             existsb (contains_str text) [lit "rate"; lit "throttl"; lit "too many"; lit "slow down"; lit "limit"]
           else false
       end.

Definition DEFAULT_STEPS : list Z := [60; 300; 900; 3600].

Definition step (steps : list Z) (level : Z) : Z :=
  match steps !! Z.to_nat level with
  | Some s => s
  | None => default 60 (last steps)
  end.

(** ** Errors of a delivery *)

Inductive DeliveryError := Transient (reason : list Z) | Permanent (reason : list Z).

Definition from_reply (code : Z) (raw : list Z) : DeliveryError :=
  let reason := normalize code raw in
  let text := get_from 4 reason in
  if (500 <=? code) && vd_permanent (classify code text) then Permanent reason else Transient reason.

Definition reason_of (e : DeliveryError) : list Z := match e with Transient r | Permanent r => r end.
