(* ===== verification/Dane.v ===== *)
(** DANE for outbound mail (src/src/dane): TLSA records, what a validated
    lookup means for delivery, and whether a chain is authenticated. The
    hashes and the X.509 parser are the class [Certificates]. *)

From S2P Require Import Prelude RustStd IpNet.

Local Open Scope Z_scope.

(** ** Records *)

Inductive CertUsage := PkixTa | PkixEe | DaneTa | DaneEe.
Inductive Selector := FullCert | Spki.
Inductive MatchingType := FullMatch | Sha256 | Sha512.

Record TlsaRecord := mkTlsa {
  ta_usage : CertUsage;
  ta_selector : Selector;
  ta_matching_type : MatchingType;
  ta_association : list Z
}.

Definition usage_of (n : Z) : option CertUsage :=
  match n with 0 => Some PkixTa | 1 => Some PkixEe | 2 => Some DaneTa | 3 => Some DaneEe | _ => None end.
Definition selector_of (n : Z) : option Selector :=
  match n with 0 => Some FullCert | 1 => Some Spki | _ => None end.
Definition matching_type_of (n : Z) : option MatchingType :=
  match n with 0 => Some FullMatch | 1 => Some Sha256 | 2 => Some Sha512 | _ => None end.

Definition from_parts (usage selector matching_type : Z) (association : list Z) : option TlsaRecord :=
  u ← usage_of usage;
  s ← selector_of selector;
  m ← matching_type_of matching_type;
  if is_empty association then None else Some (mkTlsa u s m association).

(** The characters of [hex] as bytes; [None] for an odd number of them. *)
Fixpoint decode_hex (hex : list Z) : option (list Z) :=
  match hex with
  | [] => Some []
  | [_] => None
  | a :: b :: rest =>
      hi ← to_digit 16 a;
      lo ← to_digit 16 b;
      bytes ← decode_hex rest;
      Some (hi * 16 + lo :: bytes)
  end.

Definition parse_presentation (text : list Z) : option TlsaRecord :=
  match split_whitespace text with
  | u :: s :: m :: groups =>
      usage ← parse_uint u8_max u;
      selector ← parse_uint u8_max s;
      matching_type ← parse_uint u8_max m;
      let hex := concat groups in
      if is_empty hex then None
      else association ← decode_hex hex; from_parts usage selector matching_type association
  | _ => None
  end.

(** ** Matching a chain *)

Class Certificates := {
  sha256 : list Z → list Z;
  sha512 : list Z → list Z;
  spki_of : list Z → option (list Z)
}.

Record CertView := mkCert { cv_der : list Z; cv_spki : list Z }.

Inductive DaneOutcome := Authenticated | NoRecords | Mismatch.

Section dane.
Context `{Certificates}.

Definition matches_cert (r : TlsaRecord) (cert : CertView) : bool :=
  let selected := match ta_selector r with FullCert => cv_der cert | Spki => cv_spki cert end in
  let computed := match ta_matching_type r with FullMatch => selected | Sha256 => sha256 selected | Sha512 => sha512 selected end in
  bool_decide (computed = ta_association r).

Definition authenticate (records : list TlsaRecord) (leaf : CertView) (chain : list CertView) : bool :=
  existsb (λ r,
    match ta_usage r with
    | DaneEe | PkixEe => matches_cert r leaf
    | DaneTa | PkixTa => existsb (matches_cert r) (leaf :: chain)
    end) records.

Definition dane_outcome (records : list TlsaRecord) (leaf : CertView) (chain : list CertView) : DaneOutcome :=
  if bool_decide (length records = 0%nat) then NoRecords
  else if authenticate records leaf chain then Authenticated else Mismatch.

Definition verify_chain (records : list TlsaRecord) (chain_der : list (list Z)) : DaneOutcome :=
  match records with
  | [] => NoRecords
  | _ =>
      match map (λ der, mkCert der (default [] (spki_of der))) chain_der with
      | [] => Mismatch
      | leaf :: rest => dane_outcome records leaf rest
      end
  end.

End dane.

(** ** The lookup *)

Inductive TlsaRrset := Absent | Usable (records : list TlsaRecord) | Unusable.

Definition rrset_records (t : TlsaRrset) : list TlsaRecord :=
  match t with Usable records => records | Absent | Unusable => [] end.

Inductive Validation := Secure | Insecure | Bogus | Indeterminate.

#[global] Instance validation_eq_dec : EqDecision Validation.
Proof. solve_decision. Defined.

Record TlsaAnswer := mkAnswer {
  an_validation : Validation;
  an_usage : Z;
  an_selector : Z;
  an_matching_type : Z;
  an_data : list Z
}.

Definition dane_usage (u : CertUsage) : bool := match u with DaneTa | DaneEe => true | _ => false end.

(** [None] is the lookup failure of a bogus answer. *)
Definition classify_answers (answers : list TlsaAnswer) : option TlsaRrset :=
  if existsb (λ a, bool_decide (an_validation a = Bogus)) answers then None
  else
    match List.filter (λ a, bool_decide (an_validation a = Secure)) answers with
    | [] => Some Absent
    | secure =>
        match List.filter (λ r, dane_usage (ta_usage r))
                (omap (λ a, from_parts (an_usage a) (an_selector a) (an_matching_type a) (an_data a)) secure) with
        | [] => Some Unusable
        | usable => Some (Usable usable)
        end
    end.

(** ** What they promise *)

(** A chain passes only by a record it matches: the key or certificate the
    domain published is in the chain, at its leaf for an end-entity record. *)
Lemma verify_chain_authenticated `{Certificates} records chain :
  verify_chain records chain = Authenticated →
  ∃ r leaf rest, r ∈ records ∧ chain = leaf :: rest ∧
    Exists (λ der, matches_cert r (mkCert der (default [] (spki_of der))) = true)
      (match ta_usage r with DaneEe | PkixEe => [leaf] | _ => chain end).
Proof.
  unfold verify_chain. destruct records as [|r0 rs]; [done|]. destruct chain as [|leaf rest]; [done|]. simpl map.
  unfold dane_outcome. rewrite bool_decide_false by done.
  destruct (authenticate (r0 :: rs) _ _) eqn:E; [|done]. intros _.
  apply existsb_exists in E as (r & Hr & Hm). exists r, leaf, rest.
  split; [by apply list_elem_of_In|]. split; [done|].
  destruct (ta_usage r); [|by constructor| |by constructor];
    apply existsb_exists in Hm as (c & Hc & Hm); apply Exists_exists; simpl in Hc;
    (destruct Hc as [<-|Hc]; [exists leaf; split; [left|done]|]);
    apply in_map_iff in Hc as (der & <- & Hd); exists der; (split; [right; by apply list_elem_of_In|done]).
Qed.

(** Only answers of a validated zone decide, and only records DANE for mail
    allows authenticate; a zone with none of these still asks for TLS. *)
Lemma classify_answers_usable answers records :
  classify_answers answers = Some (Usable records) →
  Forall (λ r, dane_usage (ta_usage r) = true ∧ ta_association r ≠ [] ∧
            ∃ a, a ∈ answers ∧ an_validation a = Secure ∧ an_data a = ta_association r) records.
Proof.
  unfold classify_answers. destruct (existsb _ answers); [done|].
  destruct (List.filter _ answers) as [|a0 l] eqn:Es; [done|]. rewrite <- Es. clear Es a0 l.
  destruct (List.filter (λ r, dane_usage (ta_usage r)) _) as [|r0 l] eqn:Eu; [done|]. intros [= <-].
  rewrite <- Eu. apply Forall_forall. intros r Hr. apply list_elem_of_In, filter_In in Hr as [Hr Hu].
  apply list_elem_of_In, list_elem_of_omap in Hr as (a & Ha & Hp).
  apply list_elem_of_In, filter_In in Ha as [Ha Hs]. apply bool_decide_eq_true in Hs.
  unfold from_parts in Hp. destruct (usage_of _); simpl in Hp; [|done]. destruct (selector_of _); simpl in Hp; [|done].
  destruct (matching_type_of _); simpl in Hp; [|done]. destruct (is_empty (an_data a)) eqn:Ee; [done|].
  injection Hp as <-. split; [done|]. simpl. split; [by destruct (an_data a)|].
  exists a. split; [by apply list_elem_of_In|done].
Qed.
