(* ===== verification/OutboundClient.v ===== *)
(** The SMTP client of the outbound queue (src/src/queue/client/mod.rs and
    conn/mod.rs, src/src/queue/timeouts.rs).

    A stream is what its remote does, in order: the reads it answers and the
    writes it fails; a remote that reacts to the client is some such script
    for each run. The octets it took are kept. The TLS handshake is the class
    [TlsLibrary], and base64 the class [Base64]. *)

From S2P Require Import Prelude RustStd Utf8 Slices HeaderBlock Address SieveMatch LineFraming Bounce QueueReply Dane.

Local Open Scope Z_scope.

(** ** Steps and their limits *)

Inductive Phase := Connect | Greeting | Command | Rcpt | DataInit | DataBlock | DataEnd | TlsHandshake | Quit.

Definition limit (p : Phase) : Z :=
  match p with
  | Connect => 30
  | Greeting | Command | Rcpt => 5 * 60
  | DataInit => 2 * 60
  | DataBlock => 3 * 60
  | DataEnd => 10 * 60
  | TlsHandshake => 60
  | Quit => 30
  end.

Definition what (p : Phase) : list Z :=
  match p with
  | Connect => lit "the connection"
  | Greeting => lit "the greeting"
  | Command => lit "a command reply"
  | Rcpt => lit "the RCPT reply"
  | DataInit => lit "the DATA reply"
  | DataBlock => lit "the message data to be read"
  | DataEnd => lit "the reply to the message"
  | TlsHandshake => lit "the TLS handshake"
  | Quit => lit "the QUIT reply"
  end.

Definition timed_out (p : Phase) : DeliveryError :=
  Transient (lit "timed out after " ++ decimal (limit p) ++ lit "s waiting for " ++ what p).

(** ** Streams *)

(** One read: octets (none at the end of the stream), a failure, or nothing
    before the step's limit. *)
Inductive Read := Got (octets : list Z) | ReadError (why : list Z) | ReadTimeout.

(** One write: taken whole, or cut after some octets by a failure or by the
    limit. *)
Inductive Write := Wrote | WriteError (n : nat) (why : list Z) | WriteTimeout (n : nat).

(** After its script a stream takes every write and answers nothing. *)
Record Stream := mkStream { st_reads : list Read; st_writes : list Write; st_taken : list Z }.

(** What a conversation was, for the theorems: lines said, replies heard, and
    the message. *)
Inductive Exchange := Said (line : list Z) | Heard (code : Z) (text : list Z) | Wired (octets : list Z).

Record Conn := mkConn {
  cn_stream : Stream;
  cn_buffer : list Z;
  cn_last_reply : list Z;
  cn_broken : bool;
  cn_log : list Exchange
}.

Definition new_conn (s : Stream) (log : list Exchange) : Conn := mkConn s [] [] false log.

(** The outcome of a step before its limit, or [Elapsed]. *)
Inductive Outcome (A : Type) := Done (r : result DeliveryError A) | Elapsed.
Arguments Done {A} r.
Arguments Elapsed {A}.

Definition break_conn (c : Conn) : Conn := mkConn (cn_stream c) (cn_buffer c) (cn_last_reply c) true (cn_log c).

Definition bounded {A} (p : Phase) (o : Outcome A * Conn) : result DeliveryError A * Conn :=
  match o with
  | (Done r, c) => (r, c)
  | (Elapsed, c) => (Err (timed_out p), break_conn c)
  end.

(** [write_all] and [flush] of [octets], which the log notes as [note]. *)
Definition write_octets (octets : list Z) (note : Exchange) (c : Conn) : Outcome unit * Conn :=
  let s := cn_stream c in
  let put n rest := mkStream (st_reads s) rest (st_taken s ++ take n octets) in
  match st_writes s with
  | WriteError n why :: rest => (Done (Err (Transient why)), break_conn (mkConn (put n rest) (cn_buffer c) (cn_last_reply c) (cn_broken c) (cn_log c)))
  | WriteTimeout n :: rest => (Elapsed, mkConn (put n rest) (cn_buffer c) (cn_last_reply c) (cn_broken c) (cn_log c))
  | Wrote :: rest => (Done (Ok tt), mkConn (put (length octets) rest) (cn_buffer c) (cn_last_reply c) (cn_broken c) (cn_log c ++ [note]))
  | [] => (Done (Ok tt), mkConn (put (length octets) []) (cn_buffer c) (cn_last_reply c) (cn_broken c) (cn_log c ++ [note]))
  end.

Definition write_line (line : list Z) (c : Conn) : Outcome unit * Conn :=
  write_octets (as_bytes line ++ CRLF) (Said line) c.

(** ** Replies *)

Definition MAX_REPLY_LINE : nat := 512.

(** The lines of [buffer] whose end has arrived, and what follows them. *)
Fixpoint arrived_lines (fuel : nat) (buffer : list Z) : list (list Z) :=
  match fuel with
  | O => []
  | S fuel =>
      match window_position CRLF buffer with
      | Some at_ => take (at_ + 2) buffer :: arrived_lines fuel (drop (at_ + 2) buffer)
      | None => []
      end
  end.

Definition oversized_line (buffer : list Z) : bool :=
  existsb (λ line, (MAX_REPLY_LINE <? length line)%nat) (arrived_lines (length buffer) buffer).

Definition line_continues (line : list Z) : bool :=
  match line !! 3%nat with Some b => b =? 45 | None => false end.

Fixpoint complete_lines (lines : list (list Z)) (offset : nat) : option nat :=
  match lines with
  | [] => None
  | line :: lines =>
      let offset := (offset + length line)%nat in
      if line_continues line then complete_lines lines offset else Some offset
  end.

Definition complete_reply (buffer : list Z) : option nat := complete_lines (arrived_lines (length buffer) buffer) 0.

(** [reads] is the script still to come; the buffer grows by each read. *)
Fixpoint read_reply (reads : list Read) (c : Conn) : Outcome (list Z) * Conn :=
  let s := cn_stream c in
  if oversized_line (cn_buffer c) then (Done (Err (Transient (lit "oversized reply line"))), c)
  else match complete_reply (cn_buffer c) with
       | Some n =>
           (Done (Ok (from_utf8_lossy (take n (cn_buffer c)))),
            mkConn s (drop n (cn_buffer c)) (cn_last_reply c) (cn_broken c) (cn_log c))
       | None =>
           if (64 * 1024 <? Z.of_nat (length (cn_buffer c))) then (Done (Err (Transient (lit "oversized reply"))), c)
           else match reads with
                | [] => (Elapsed, c)
                | r :: reads =>
                    let c := mkConn (mkStream reads (st_writes s) (st_taken s)) (cn_buffer c) (cn_last_reply c) (cn_broken c) (cn_log c) in
                    match r with
                    | ReadTimeout => (Elapsed, c)
                    | ReadError why => (Done (Err (Transient why)), break_conn c)
                    | Got [] => (Done (Err (Transient (lit "connection closed mid-reply"))), break_conn c)
                    | Got octets =>
                        read_reply reads (mkConn (cn_stream c) (cn_buffer c ++ octets) (cn_last_reply c) (cn_broken c) (cn_log c))
                    end
                end
       end.

Definition read_parsed (c : Conn) : Outcome (Z * list Z) * Conn :=
  match read_reply (st_reads (cn_stream c)) c with
  | (Elapsed, c) => (Elapsed, c)
  | (Done (Err e), c) => (Done (Err e), c)
  | (Done (Ok reply), c) =>
      match get_to 3 reply ≫= parse_uint u16_max with
      | None => (Done (Err (Transient (lit "malformed reply: " ++ reply))), c)
      | Some code =>
          (Done (Ok (code, reply)), mkConn (cn_stream c) (cn_buffer c) reply (cn_broken c) (cn_log c ++ [Heard code reply]))
      end
  end.

Definition expect_now (expected : Z) (c : Conn) : Outcome unit * Conn :=
  match read_parsed c with
  | (Elapsed, c) => (Elapsed, c)
  | (Done (Err e), c) => (Done (Err e), c)
  | (Done (Ok (code, text)), c) => (Done (if code =? expected then Ok tt else Err (from_reply code text)), c)
  end.

(** ** One step of the conversation *)

Definition command (line : list Z) (expected : Z) (p : Phase) (c : Conn) : result DeliveryError unit * Conn :=
  bounded p
    (match write_line line c with
     | (Done (Ok _), c) => expect_now expected c
     | (o, c) => (o, c)
     end).

Definition send (line : list Z) (p : Phase) (c : Conn) : result DeliveryError unit * Conn := bounded p (write_line line c).

Definition expect (expected : Z) (p : Phase) (c : Conn) : result DeliveryError unit * Conn := bounded p (expect_now expected c).

Definition reply (p : Phase) (c : Conn) : result DeliveryError (Z * list Z) * Conn := bounded p (read_parsed c).

(** A dot at the start of a line, after a CR or an LF alone too, is doubled. *)
Fixpoint stuff_dots (at_line_start : bool) (data : list Z) : list Z :=
  match data with
  | [] => []
  | b :: data =>
      let rest := b :: stuff_dots ((b =? CR) || (b =? LF)) data in
      if at_line_start && (b =? DOT) then DOT :: rest else rest
  end.

Definition data_wire (data : list Z) : list Z :=
  let wire := stuff_dots true data in
  (if ends_with CRLF wire then wire else wire ++ CRLF) ++ [DOT] ++ CRLF.

Definition DATA_BLOCK_BYTES : nat := Z.to_nat (64 * 1024).

(** [wire.chunks(DATA_BLOCK_BYTES)]. *)
Fixpoint chunks_of (fuel n : nat) (l : list Z) : list (list Z) :=
  match fuel, l with
  | _, [] => []
  | O, _ => []
  | S fuel, _ => take n l :: chunks_of fuel n (drop n l)
  end.

Fixpoint send_blocks (blocks : list (list Z)) (c : Conn) : result DeliveryError unit * Conn :=
  match blocks with
  | [] => (Ok tt, c)
  | block :: blocks =>
      match bounded DataBlock (write_octets block (Wired block) c) with
      | (Ok _, c) => send_blocks blocks c
      | (Err e, c) => (Err e, c)
      end
  end.

Definition send_data (data : list Z) (c : Conn) : result DeliveryError unit * Conn :=
  let wire := data_wire data in send_blocks (chunks_of (length wire) DATA_BLOCK_BYTES wire) c.

(** ** The conversation *)

Inductive OutboundTls := Strict | Opportunistic.

#[global] Instance outbound_tls_eq_dec : EqDecision OutboundTls.
Proof. solve_decision. Defined.

Inductive TlsOutcome := TlsSuccess | TlsFailure (result_type : list Z).

Record SessionFacts := mkFacts {
  fa_reply : option (list Z);
  fa_tls : option (list Z * list Z);
  fa_dane : bool;
  fa_mta_sts : option (list Z)
}.

Definition no_facts : SessionFacts := mkFacts None None false None.

(** What the handshake gives: the encrypted stream, the chain presented, and
    the version and cipher when both are known; or an error and its type. *)
Class TlsLibrary := {
  tls_connect : list Z → bool → Stream → result (DeliveryError * list Z) (Stream * list (list Z) * option (list Z * list Z))
}.

(** Nothing was said on an encrypted stream before the client speaks. *)
Class TlsLibraryLaws `{TlsLibrary} := {
  tls_fresh name authenticate s stream chain tls :
    tls_connect name authenticate s = Ok (stream, chain, tls) → st_taken stream = []
}.

Class Base64 := { base64_encode : list Z → list Z }.

(** Its output is one line of text. *)
Class Base64Laws `{Base64} := { base64_plain s : plain_text (base64_encode s) }.

Definition RecipientResult : Type := list Z * result DeliveryError unit.

(** The client in the middle of a conversation: the connection, the plain
    stream given up for an encrypted one with the conversation on it, the
    chain the peer presented, and [Trace]. *)
Record Client := mkClient {
  cl_conn : Conn;
  cl_plain : option Conn;
  cl_chain : list (list Z);
  cl_tls : option TlsOutcome;
  cl_transaction : bool;
  cl_sent : bool;
  cl_facts : SessionFacts
}.

Definition with_conn (cl : Client) (c : Conn) : Client :=
  mkClient c (cl_plain cl) (cl_chain cl) (cl_tls cl) (cl_transaction cl) (cl_sent cl) (cl_facts cl).
Definition with_tls (cl : Client) (t : TlsOutcome) : Client :=
  mkClient (cl_conn cl) (cl_plain cl) (cl_chain cl) (Some t) (cl_transaction cl) (cl_sent cl) (cl_facts cl).
Definition with_facts (cl : Client) (f : SessionFacts) : Client :=
  mkClient (cl_conn cl) (cl_plain cl) (cl_chain cl) (cl_tls cl) (cl_transaction cl) (cl_sent cl) f.

Definition client (A : Type) : Type := Client → result DeliveryError A * Client.

Definition cl_ret {A} (a : A) : client A := λ cl, (Ok a, cl).
Definition cl_fail {A} (e : DeliveryError) : client A := λ cl, (Err e, cl).
Definition cl_bind {A B} (m : client A) (k : A → client B) : client B := λ cl,
  match m cl with
  | (Ok a, cl) => k a cl
  | (Err e, cl) => (Err e, cl)
  end.
Definition cl_update (f : Client → Client) : client unit := λ cl, (Ok tt, f cl).
Definition on_conn {A} (f : Conn → result DeliveryError A * Conn) : client A := λ cl,
  let '(r, c) := f (cl_conn cl) in (r, with_conn cl c).

Declare Scope client_scope.
Delimit Scope client_scope with client.
Notation "x <- m ;; k" := (cl_bind m (fun x => k)) (at level 100, m at next level, right associativity) : client_scope.
Notation "m ;; k" := (cl_bind m (fun _ => k)) (at level 100, right associativity) : client_scope.
Open Scope client_scope.

Definition STARTTLS_NOT_SUPPORTED : list Z := lit "starttls-not-supported".
Definition TLSA_INVALID : list Z := lit "tlsa-invalid".

Definition pkix_required (require_tls dane_records : bool) (mode : OutboundTls) : bool :=
  negb dane_records && (require_tls || bool_decide (mode = Strict)).

Section client.
Context `{Unicode} `{TlsLibrary} `{Base64} `{Certificates}.

(** [reason], the rule an address breaks, is an argument: only its text
    depends on it. *)
Definition check_address (reason : list Z → list Z) (raw role : list Z) : result DeliveryError unit :=
  match parse_address raw with
  | Ok _ => Ok tt
  | Err _ => Err (Permanent (lit "invalid " ++ role ++ lit ": " ++ reason raw))
  end.

Definition check_envelope (reason : list Z → list Z) (reverse_path : list Z) (recipients : list (list Z)) : result DeliveryError unit :=
  let? _ := if is_empty reverse_path then Ok tt else check_address reason reverse_path (lit "reverse path") in
  try_fold (λ _ recipient, check_address reason recipient (lit "recipient")) tt recipients.

(** The session is set up: greeting, EHLO, STARTTLS when it is offered, and
    the smarthost's AUTH. *)
Record Delivery := mkDelivery {
  de_server_name : list Z;
  de_ehlo_hostname : list Z;
  de_reverse_path : list Z;
  de_recipients : list (list Z);
  de_data : list Z;
  de_require_tls : bool;
  de_auth : option (list Z * list Z);
  de_tlsa : TlsaRrset;
  de_mode : OutboundTls
}.

Definition rrset_absent (t : TlsaRrset) : bool := match t with Absent => true | _ => false end.

Definition ehlo (d : Delivery) : client unit := on_conn (command (lit "EHLO " ++ de_ehlo_hostname d) 250 Command).

(** [dane] fails closed on a chain no record matches. *)
Definition check_dane (d : Delivery) : client unit := λ cl,
  match verify_chain (rrset_records (de_tlsa d)) (cl_chain cl) with
  | Authenticated =>
      let f := cl_facts cl in (Ok tt, with_facts cl (mkFacts (fa_reply f) (fa_tls f) true (fa_mta_sts f)))
  | NoRecords => (Ok tt, cl)
  | Mismatch =>
      (Err (Transient (lit "DANE: no TLSA record matches the certificate of " ++ de_server_name d)), with_tls cl (TlsFailure TLSA_INVALID))
  end.

(** The handshake on the plain stream: what was buffered there is dropped. *)
Definition handshake (d : Delivery) : client unit := λ cl,
  let authenticate_pkix := pkix_required (de_require_tls d) (negb (bool_decide (length (rrset_records (de_tlsa d)) = 0%nat))) (de_mode d) in
  match tls_connect (de_server_name d) authenticate_pkix (cn_stream (cl_conn cl)) with
  | Err (error, result_type) => (Err error, with_tls cl (TlsFailure result_type))
  | Ok (stream, chain, tls) =>
      let f := cl_facts cl in
      (Ok tt,
       mkClient (new_conn stream []) (Some (cl_conn cl)) chain (cl_tls cl) (cl_transaction cl) (cl_sent cl)
         (mkFacts (fa_reply f) tls (fa_dane f) (fa_mta_sts f)))
  end.

Definition starttls (d : Delivery) : client unit := λ cl,
  match on_conn (command (lit "STARTTLS") 220 Command) cl with
  | (Err error, cl) => (Err error, with_tls cl (TlsFailure STARTTLS_NOT_SUPPORTED))
  | (Ok _, cl) =>
      (handshake d ;;
       check_dane d ;;
       cl_update (λ cl, with_tls cl TlsSuccess) ;;
       ehlo d) cl
  end.

Definition authenticate_relay (d : Delivery) (tls_active : bool) : client unit :=
  match de_auth d with
  | None => cl_ret tt
  | Some (username, password) =>
      if negb tls_active then cl_fail (Permanent (lit "relay AUTH requested but smarthost offered no STARTTLS"))
      else on_conn (command (lit "AUTH PLAIN " ++ base64_encode (as_bytes (NUL :: username ++ NUL :: password))) 235 Command)
  end.

Definition set_up (reason : list Z → list Z) (d : Delivery) : client unit :=
  let tls_mandatory := de_require_tls d || negb (rrset_absent (de_tlsa d)) in
  on_conn (expect 220 Greeting) ;;
  (λ cl, (check_envelope reason (de_reverse_path d) (de_recipients d), cl)) ;;
  ehlo d ;;
  λ cl,
    let offers_starttls := contains_str (cn_last_reply (cl_conn cl)) (lit "STARTTLS") in
    let cl := if offers_starttls then cl else with_tls cl (TlsFailure STARTTLS_NOT_SUPPORTED) in
    if tls_mandatory && negb offers_starttls then
      (Err (Transient (lit "TLS required (MTA-STS/DANE) but remote offers no STARTTLS")), cl)
    else ((if offers_starttls then starttls d else cl_ret tt) ;; authenticate_relay d offers_starttls) cl.

(** One recipient after another; after a 452 4.5.3 the rest are not offered. *)
Fixpoint offer (recipients : list (list Z)) (full : option DeliveryError) : client (list RecipientResult) :=
  match recipients with
  | [] => cl_ret []
  | recipient :: recipients =>
      match full with
      | Some error => rest <- offer recipients full ;; cl_ret ((recipient, Err error) :: rest)
      | None =>
          on_conn (send (lit "RCPT TO:<" ++ recipient ++ lit ">") Rcpt) ;;
          answer <- on_conn (reply Rcpt) ;;
          let '(code, text) := answer in
          let outcome := if code / 100 =? 2 then Ok tt else Err (from_reply code text) in
          let full := match outcome with
                      | Err (Transient why) => if too_many_recipients why then Some (Transient why) else None
                      | _ => None
                      end in
          rest <- offer recipients full ;;
          cl_ret ((recipient, outcome) :: rest)
      end
  end.

Definition mark_sent : client unit :=
  cl_update (λ cl, mkClient (cl_conn cl) (cl_plain cl) (cl_chain cl) (cl_tls cl) (cl_transaction cl) true (cl_facts cl)).

Definition transmit (d : Delivery) : client unit :=
  on_conn (command (lit "DATA") 354 DataInit) ;;
  on_conn (send_data (de_data d)) ;;
  mark_sent ;;
  on_conn (expect 250 DataEnd).

(** The outcome of DATA applies to the recipients accepted; it fails none of
    the others. *)
Definition send_message (d : Delivery) (results : list RecipientResult) : client (list RecipientResult) := λ cl,
  if negb (existsb (λ r, is_ok r.2) results) then (Ok results, cl)
  else match transmit d cl with
       | (Ok _, cl) =>
           let f := cl_facts cl in
           (Ok results, with_facts cl (mkFacts (Some (take 998 (normalize 250 (cn_last_reply (cl_conn cl))))) (fa_tls f) (fa_dane f) (fa_mta_sts f)))
       | (Err error, cl) => (Ok (map (λ r, if is_ok r.2 then (r.1, Err error) else r) results), cl)
       end.

(** Whatever QUIT brings, the outcome stands. *)
Definition say_quit : client unit := λ cl,
  if cn_broken (cl_conn cl) then (Ok tt, cl) else (Ok tt, (on_conn (command (lit "QUIT") 221 Quit) cl).2).

Definition begin_transaction : client unit :=
  cl_update (λ cl, mkClient (cl_conn cl) (cl_plain cl) (cl_chain cl) (cl_tls cl) true (cl_sent cl) (cl_facts cl)).

Definition deliver_each (reason : list Z → list Z) (d : Delivery) : client (list RecipientResult) :=
  set_up reason d ;;
  begin_transaction ;;
  on_conn (command (lit "MAIL FROM:<" ++ de_reverse_path d ++ lit ">") 250 Command) ;;
  results <- offer (de_recipients d) None ;;
  results <- send_message d results ;;
  say_quit ;;
  cl_ret results.

Definition new_client (s : Stream) : Client := mkClient (new_conn s []) None [] None false false no_facts.

End client.

(** ** What reaches the wire *)

(** A command line as its octets. *)
Definition line_octets (line : list Z) : list Z := as_bytes line ++ CRLF.

(** The octets of what the client said. *)
Definition render (e : Exchange) : list Z :=
  match e with Said line => line_octets line | Heard _ _ => [] | Wired octets => octets end.

(** The transcript is what the stream took, up to a last piece that broke. *)
Definition tracks (c : Conn) : Prop :=
  ∃ cut, st_taken (cn_stream c) = concat (map render (cn_log c)) ++ cut ∧ (cut = [] ∨ cn_broken c = true).

(** The connection took whole pieces, and a part of one more only if it broke
    there. *)
Definition spoke (P : list Z → Prop) (c : Conn) : Prop :=
  tracks c ∧
  ∃ pieces cut, st_taken (cn_stream c) = concat pieces ++ cut ∧ Forall P pieces ∧
    (cut = [] ∨ cn_broken c = true ∧ ∃ p, P p ∧ cut `prefix_of` p).

(** The same before a step that may speak. *)
Definition fluent (P : list Z → Prop) (c : Conn) : Prop :=
  cn_broken c = false ∧ st_taken (cn_stream c) = concat (map render (cn_log c)) ∧
  ∃ pieces, st_taken (cn_stream c) = concat pieces ∧ Forall P pieces.

(** What a step leaves: an open connection, when it succeeds. *)
Definition after_step {A} (P : list Z → Prop) (o : result DeliveryError A * Conn) : Prop :=
  spoke P o.2 ∧ (is_ok o.1 = true → fluent P o.2) ∧ (cn_broken o.2 = false → fluent P o.2).

Lemma fluent_spoke P c : fluent P c → spoke P c.
Proof.
  intros (Hb & Hl & pieces & Ht & HP). split; [exists []; rewrite app_nil_r; by split; [|left]|].
  exists pieces, []. rewrite app_nil_r. by repeat split; [..|left].
Qed.

Lemma fluent_after {A} P (r : result DeliveryError A) c : fluent P c → after_step P (r, c).
Proof. intros H. split; [by apply fluent_spoke|]. split; intros _; exact H. Qed.

(** A read changes neither what was taken nor, unless it fails, the state. *)
Lemma read_reply_taken reads c :
  let o := read_reply reads c in
  st_taken (cn_stream o.2) = st_taken (cn_stream c) ∧ cn_log o.2 = cn_log c ∧
  match o.1 with Done (Ok _) | Elapsed => cn_broken o.2 = cn_broken c | _ => True end.
Proof.
  revert c. induction reads as [|r reads IH]; intros c; cbn [read_reply];
    (destruct (oversized_line (cn_buffer c)); [done|]); (destruct (complete_reply (cn_buffer c)); [done|]);
    (destruct (_ <? _); [done|]); [done|].
  destruct r as [octets| |]; [|done..]. destruct octets as [|b octets]; [done|].
  destruct (IH (mkConn (mkStream reads (st_writes (cn_stream c)) (st_taken (cn_stream c))) (cn_buffer c ++ b :: octets)
                  (cn_last_reply c) (cn_broken c) (cn_log c))) as (H1 & H2 & H3).
  split; [exact H1|]. split; [exact H2|exact H3].
Qed.

(** What a step leaves before its limit is looked at. *)
Definition within {A} (P : list Z → Prop) (o : Outcome A * Conn) : Prop :=
  match o with
  | (Done (Ok _), c) => fluent P c
  | (Done (Err _), c) => spoke P c ∧ (cn_broken c = false → fluent P c)
  | (Elapsed, c) => spoke P (break_conn c)
  end.

Lemma bounded_after {A} P p (o : Outcome A * Conn) : within P o → after_step P (bounded p o).
Proof.
  destruct o as [[[a|e]|] c]; simpl; intros Ho.
  - by apply fluent_after.
  - destruct Ho as [Hs Hf]. split; [done|]. split; [done|exact Hf].
  - split; [done|]. by split.
Qed.

Lemma spoke_break P c : fluent P c → spoke P (break_conn c).
Proof. intros Hf%fluent_spoke. destruct Hf as [(cut & Ht & _) (pieces & cut' & Ht' & HP & Hc)].
  split; [exists cut; by split; [|right]|]. exists pieces, cut'. split; [done|]. split; [done|].
  destruct Hc as [?|[_ ?]]; [by left|by right].
Qed.

Lemma read_parsed_within P c : fluent P c → within P (read_parsed c).
Proof.
  intros (Hb & Hl & pieces & Ht & HP). unfold read_parsed.
  destruct (read_reply (st_reads (cn_stream c)) c) as [o c'] eqn:E.
  pose proof (read_reply_taken (st_reads (cn_stream c)) c) as (Ht' & Hl' & Hb'). rewrite E in Ht', Hl', Hb'. simpl in Ht', Hl', Hb'.
  assert (Hf : cn_broken c' = false → fluent P c').
  { intros Hf. split; [done|]. rewrite Ht', Hl'. split; [done|]. by exists pieces. }
  destruct o as [[reply|e]|]; simpl.
  - rewrite Hb in Hb'. specialize (Hf Hb').
    destruct (get_to 3 reply ≫= parse_uint u16_max) as [code|]; simpl; [|by split; [apply fluent_spoke|]].
    destruct Hf as (? & Hl2 & ps & ? & ?). split; [done|]. simpl. rewrite map_app, concat_app. simpl. rewrite app_nil_r.
    split; [done|]. by exists ps.
  - split; [|done]. split; [exists []; rewrite app_nil_r, Ht', Hl'; by split; [|left]|].
    exists pieces, []. rewrite app_nil_r, Ht'. by repeat split; [..|left].
  - apply spoke_break, Hf. by rewrite Hb'.
Qed.

Lemma expect_now_within P expected c : fluent P c → within P (expect_now expected c).
Proof.
  intros Hf%read_parsed_within. unfold expect_now. destruct (read_parsed c) as [[[[code text]|e]|] c']; simpl in *; [|done..].
  destruct (code =? expected); simpl; [done|]. split; [by apply fluent_spoke|done].
Qed.

Lemma write_octets_within P octets note c :
  render note = octets → fluent P c → P octets → within P (write_octets octets note c).
Proof.
  intros Hn (Hb & Hl & pieces & Ht & HP) Hp. unfold write_octets.
  assert (Hwhole : ∀ rest, fluent P (mkConn (mkStream (st_reads (cn_stream c)) rest (st_taken (cn_stream c) ++ take (length octets) octets))
      (cn_buffer c) (cn_last_reply c) (cn_broken c) (cn_log c ++ [note]))).
  { intros rest. split; [done|]. simpl. rewrite firstn_all. split.
    - rewrite Hl, map_app, concat_app. simpl. by rewrite Hn, app_nil_r.
    - exists (pieces ++ [octets]). rewrite Ht, concat_app. simpl. rewrite app_nil_r.
      split; [done|]. apply Forall_app. by split; [|constructor]. }
  assert (Hcut : ∀ n rest, spoke P (break_conn (mkConn (mkStream (st_reads (cn_stream c)) rest (st_taken (cn_stream c) ++ take n octets))
      (cn_buffer c) (cn_last_reply c) (cn_broken c) (cn_log c)))).
  { intros n rest. split; [exists (take n octets); simpl; rewrite Hl; by split; [|right]|].
    exists pieces, (take n octets). simpl. rewrite Ht. split; [done|]. split; [done|]. right. split; [done|].
    exists octets. split; [done|]. exists (drop n octets). by rewrite take_drop. }
  destruct (st_writes (cn_stream c)) as [|[|n why|n] rest]; simpl; auto. split; [exact (Hcut n rest)|done].
Qed.

Section steps.
Context (P : list Z → Prop).

Lemma send_after line p c : fluent P c → P (line_octets line) → after_step P (send line p c).
Proof. intros. by apply bounded_after, (write_octets_within P (line_octets line)). Qed.

Lemma expect_after expected p c : fluent P c → after_step P (expect expected p c).
Proof. intros. by apply bounded_after, expect_now_within. Qed.

Lemma reply_after p c : fluent P c → after_step P (reply p c).
Proof. intros. by apply bounded_after, read_parsed_within. Qed.

Lemma command_after line expected p c : fluent P c → P (line_octets line) → after_step P (command line expected p c).
Proof.
  intros Hf Hl. apply bounded_after. pose proof (write_octets_within P (line_octets line) (Said line) c eq_refl Hf Hl) as Hw. unfold write_line.
  fold (line_octets line). destruct (write_octets (line_octets line) (Said line) c) as [[[[]|e]|] c']; simpl in *; [|done..].
  by apply expect_now_within.
Qed.

(** The blocks of the message are cuts of one piece. *)
Lemma send_blocks_after blocks c pieces done_ :
  cn_broken c = false → st_taken (cn_stream c) = concat (map render (cn_log c)) →
  st_taken (cn_stream c) = concat pieces ++ done_ → Forall P pieces → P (done_ ++ concat blocks) →
  let o := send_blocks blocks c in
  spoke P o.2 ∧ match o.1 with Ok _ => fluent P o.2 | Err _ => cn_broken o.2 = true end.
Proof.
  revert c done_. induction blocks as [|block blocks IH]; intros c done_ Hb Hl Ht HP Hp; simpl.
  { simpl in Hp. rewrite app_nil_r in Hp.
    assert (Hf : fluent P c).
    { split; [done|]. split; [done|]. exists (pieces ++ [done_]). rewrite concat_app, Ht. simpl. rewrite app_nil_r. split; [done|].
      apply Forall_app. by split; [|constructor]. }
    split; [by apply fluent_spoke|done]. }
  assert (Hcut : ∀ n rest, spoke P (break_conn (mkConn (mkStream (st_reads (cn_stream c)) rest (st_taken (cn_stream c) ++ take n block))
      (cn_buffer c) (cn_last_reply c) (cn_broken c) (cn_log c)))).
  { intros n rest. split; [exists (take n block); simpl; rewrite Hl; by split; [|right]|].
    exists pieces, (done_ ++ take n block). simpl. rewrite Ht, app_assoc. split; [done|]. split; [done|]. right.
    split; [done|]. eexists. split; [exact Hp|]. simpl. apply prefix_app. exists (drop n block ++ concat blocks).
    by rewrite app_assoc, take_drop. }
  assert (Hgo : ∀ rest, let c' := mkConn (mkStream (st_reads (cn_stream c)) rest (st_taken (cn_stream c) ++ take (length block) block))
      (cn_buffer c) (cn_last_reply c) (cn_broken c) (cn_log c ++ [Wired block]) in
      let o := send_blocks blocks c' in
      spoke P o.2 ∧ match o.1 with Ok _ => fluent P o.2 | Err _ => cn_broken o.2 = true end).
  { intros rest. apply (IH _ (done_ ++ block)); [done| | |done|]; simpl.
    - rewrite firstn_all, map_app, concat_app, Hl. simpl. by rewrite app_nil_r.
    - by rewrite firstn_all, Ht, app_assoc.
    - by rewrite <-app_assoc. }
  unfold write_octets. destruct (st_writes (cn_stream c)) as [|[|n why|n] rest]; simpl; auto.
Qed.

Lemma chunks_of_concat fuel n l : (0 < n)%nat → (length l ≤ fuel)%nat → concat (chunks_of fuel n l) = l.
Proof.
  intros Hn. revert l. induction fuel as [|fuel IH]; intros [|b l] Hl; [done|simpl in Hl; lia|done|].
  cbn [chunks_of concat]. rewrite IH; [by rewrite take_drop|]. rewrite length_drop. simpl in *. lia.
Qed.

Lemma send_data_after data c : fluent P c → P (data_wire data) → after_step P (send_data data c).
Proof.
  intros (Hb & Hl & pieces & Ht & HP) Hp. unfold send_data.
  destruct (send_blocks_after (chunks_of (length (data_wire data)) DATA_BLOCK_BYTES (data_wire data)) c pieces []) as [Hs Ho].
  - done.
  - done.
  - by rewrite app_nil_r.
  - done.
  - simpl. rewrite chunks_of_concat; [done| |done]. unfold DATA_BLOCK_BYTES. lia.
  - destruct (send_blocks _ c) as [[[]|e] c']; simpl in *; [by apply fluent_after|]. split; [done|]. split; [done|].
    simpl. by rewrite Ho.
Qed.

End steps.

(** ** What a conversation may say *)

(** From [Pre], [m] succeeds with [Post] or fails with [Fail]. *)
Definition runs {A} (Pre : Client → Prop) (m : client A) (Post : A → Client → Prop) (Fail : Client → Prop) : Prop :=
  ∀ cl, Pre cl → match m cl with (Ok a, cl') => Post a cl' | (Err _, cl') => Fail cl' end.

Lemma runs_bind {A B} Pre (m : client A) (Mid : A → Client → Prop) (k : A → client B) Post Fail :
  runs Pre m Mid Fail → (∀ a, runs (Mid a) (k a) Post Fail) → runs Pre (cl_bind m k) Post Fail.
Proof.
  intros Hm Hk cl Hcl. unfold cl_bind. specialize (Hm cl Hcl). destruct (m cl) as [[a|e] cl']; [by apply Hk|done].
Qed.

Lemma runs_ret {A} Pre (a : A) (Post : A → Client → Prop) Fail : (∀ cl, Pre cl → Post a cl) → runs Pre (cl_ret a) Post Fail.
Proof. intros HP cl Hcl. by apply HP. Qed.

Section speech.
Context `{Unicode} `{TL : TlsLibrary} `{TLL : !TlsLibraryLaws} `{B64 : Base64} `{Certificates}.

Definition mandatory (d : Delivery) : bool := de_require_tls d || negb (rrset_absent (de_tlsa d)).

Record sound_envelope (d : Delivery) : Prop := {
  sound_sender : de_reverse_path d = [] ∨ is_address (de_reverse_path d) = true;
  sound_recipients : Forall (λ r, is_address r = true) (de_recipients d)
}.

(** Whether the message and its envelope may be said on this stream. *)
Definition may_transact (d : Delivery) (tls : bool) : Prop := (tls = true ∨ mandatory d = false) ∧ sound_envelope d.

(** The lines a client of [d] says on the plain or the encrypted stream. *)
Inductive line_of (d : Delivery) (tls : bool) : list Z → Prop :=
| line_ehlo : line_of d tls (lit "EHLO " ++ de_ehlo_hostname d)
| line_starttls : tls = false → line_of d tls (lit "STARTTLS")
| line_auth username password :
    tls = true → de_auth d = Some (username, password) →
    line_of d tls (lit "AUTH PLAIN " ++ base64_encode (as_bytes (NUL :: username ++ NUL :: password)))
| line_mail : may_transact d tls → line_of d tls (lit "MAIL FROM:<" ++ de_reverse_path d ++ lit ">")
| line_rcpt recipient :
    may_transact d tls → recipient ∈ de_recipients d → line_of d tls (lit "RCPT TO:<" ++ recipient ++ lit ">")
| line_data : may_transact d tls → line_of d tls (lit "DATA")
| line_quit : may_transact d tls → line_of d tls (lit "QUIT").

Inductive piece (d : Delivery) (tls : bool) : list Z → Prop :=
| piece_line line : line_of d tls line → piece d tls (line_octets line)
| piece_message : may_transact d tls → piece d tls (data_wire (de_data d)).

(** The peer of the encrypted stream is who the delivery asks for: the chain
    came from a handshake that verified it when that was required, and it
    matches the domain's records when there are any. *)
Definition handshaken (d : Delivery) (plain : Conn) (chain : list (list Z)) : Prop :=
  ∃ stream tls,
    tls_connect (de_server_name d)
      (pkix_required (de_require_tls d) (negb (bool_decide (length (rrset_records (de_tlsa d)) = 0%nat))) (de_mode d))
      (cn_stream plain) = Ok (stream, chain, tls).

Definition trusted (d : Delivery) (chain : list (list Z)) : Prop :=
  rrset_records (de_tlsa d) ≠ [] → verify_chain (rrset_records (de_tlsa d)) chain = Authenticated.

Definition plain_part (d : Delivery) (tls : bool) (cl : Client) : Prop :=
  match cl_plain cl with
  | None => tls = false
  | Some plain => tls = true ∧ spoke (piece d false) plain ∧ handshaken d plain (cl_chain cl)
  end.

(** The client may speak, on a plain stream or on an encrypted one. *)
Definition Open (d : Delivery) (tls : bool) (cl : Client) : Prop :=
  fluent (piece d tls) (cl_conn cl) ∧ plain_part d tls cl ∧ (tls = true → trusted d (cl_chain cl)).

Definition Left (d : Delivery) (tls : bool) (cl : Client) : Prop :=
  spoke (piece d tls) (cl_conn cl) ∧ plain_part d tls cl ∧
  (tls = true → trusted d (cl_chain cl) ∨ st_taken (cn_stream (cl_conn cl)) = []) ∧
  (cn_broken (cl_conn cl) = false → fluent (piece d tls) (cl_conn cl)).

(** Whatever became of it. *)
Definition Over (d : Delivery) (cl : Client) : Prop := ∃ tls, Left d tls cl.

Lemma Open_Left d tls cl : Open d tls cl → Left d tls cl.
Proof. intros (Hf & Hp & Ht). split; [by apply fluent_spoke|]. split; [done|]. split; [auto|done]. Qed.

Lemma runs_step {A} d tls (f : Conn → result DeliveryError A * Conn) :
  (∀ c, fluent (piece d tls) c → after_step (piece d tls) (f c)) →
  runs (Open d tls) (on_conn f) (λ _, Open d tls) (λ cl, Left d tls cl ∧ (cn_broken (cl_conn cl) = false → Open d tls cl)).
Proof.
  intros Hf cl (Hc & Hp & Ht). specialize (Hf _ Hc). unfold on_conn. destruct (f (cl_conn cl)) as [r c].
  destruct Hf as (Hs & Hok & Hnb). simpl in *.
  destruct r as [a|e]; simpl.
  - split; [by apply Hok|]. by split.
  - assert (Hl : Left d tls (with_conn cl c)) by (split; [done|]; split; [done|]; split; [auto|exact Hnb]).
    split; [done|]. intros Hb. split; [by apply Hnb|]. by split.
Qed.

Lemma runs_weaken {A} Pre (m : client A) (Post Post' : A → Client → Prop) (Fail Fail' : Client → Prop) :
  runs Pre m Post Fail → (∀ a cl, Post a cl → Post' a cl) → (∀ cl, Fail cl → Fail' cl) → runs Pre m Post' Fail'.
Proof. intros Hm HP HF cl Hcl. specialize (Hm cl Hcl). destruct (m cl) as [[a|e] cl']; auto. Qed.

Lemma runs_open {A} d tls (f : Conn → result DeliveryError A * Conn) :
  (∀ c, fluent (piece d tls) c → after_step (piece d tls) (f c)) → runs (Open d tls) (on_conn f) (λ _, Open d tls) (Over d).
Proof. intros Hf. eapply runs_weaken; [by apply runs_step|done|]. intros cl [Hl _]. by exists tls. Qed.

Lemma runs_command d tls line expected p :
  line_of d tls line → runs (Open d tls) (on_conn (command line expected p)) (λ _, Open d tls) (Over d).
Proof. intros Hl. apply runs_open. intros c Hc. apply command_after; [done|]. by apply piece_line. Qed.

Lemma Open_with_tls d tls cl t : Open d tls cl → Open d tls (with_tls cl t).
Proof. done. Qed.

Lemma Over_with_tls d cl t : Over d cl → Over d (with_tls cl t).
Proof. intros [tls Hl]. by exists tls. Qed.

(** After the handshake, before the chain is looked at. *)
Definition Shaken (d : Delivery) (cl : Client) : Prop :=
  fluent (piece d true) (cl_conn cl) ∧ plain_part d true cl ∧ st_taken (cn_stream (cl_conn cl)) = [].

Lemma runs_handshake d : runs (Open d false) (handshake d) (λ _, Shaken d) (Over d).
Proof.
  intros cl Hcl. unfold handshake. cbv zeta.
  destruct (tls_connect _ _ _) as [[[stream chain] tls]|[error result_type]] eqn:E.
  - pose proof (tls_fresh _ _ _ _ _ _ E) as Hfresh. destruct Hcl as (Hf & _ & _). split; [|split; [|done]].
    + split; [done|]. split; [done|]. exists []. by split; [|constructor].
    + split; [done|]. split; [by apply fluent_spoke|]. by exists stream, tls.
  - apply Over_with_tls. exists false. by apply Open_Left.
Qed.

Lemma runs_check_dane d : runs (Shaken d) (check_dane d) (λ _, Open d true) (Over d).
Proof.
  intros cl (Hf & Hp & Ht). unfold check_dane. destruct (verify_chain _ _) eqn:E.
  - split; [done|]. split; [done|]. by intros _ _.
  - split; [done|]. split; [done|]. intros _ Hr. unfold verify_chain in E.
    destruct (rrset_records (de_tlsa d)); [done|]. destruct (map _ (cl_chain cl)); [done|].
    unfold dane_outcome in E. rewrite bool_decide_false in E by done. by destruct (authenticate _ _ _).
  - apply Over_with_tls. exists true. split; [by apply fluent_spoke|]. split; [done|]. split; [by right|done].
Qed.

Lemma runs_starttls d : runs (Open d false) (starttls d) (λ _, Open d true) (Over d).
Proof.
  intros cl Hcl. unfold starttls.
  pose proof (runs_command d false (lit "STARTTLS") 220 Command (line_starttls d false eq_refl) cl Hcl) as Hs.
  destruct (on_conn _ cl) as [[u|e] cl']; [|by apply Over_with_tls].
  refine (runs_bind _ _ (λ _, Shaken d) _ _ _ (runs_handshake d) _ cl' Hs). intros ?.
  eapply runs_bind; [apply runs_check_dane|]. intros ?.
  eapply (runs_bind _ _ (λ _, Open d true)); [by intros cl1 H1|]. intros ?. apply runs_command, line_ehlo.
Qed.

Lemma runs_authenticate d tls : runs (Open d tls) (authenticate_relay d tls) (λ _, Open d tls) (Over d).
Proof.
  unfold authenticate_relay. destruct (de_auth d) as [[username password]|] eqn:Ea; [|by apply runs_ret].
  destruct tls; simpl; [|intros cl Hcl; exists false; by apply Open_Left].
  apply runs_command. by apply line_auth.
Qed.

Lemma check_address_ok reason raw role : check_address reason raw role = Ok tt → is_address raw = true.
Proof. unfold check_address, is_address. by destruct (parse_address raw). Qed.

Lemma check_envelope_ok reason d :
  check_envelope reason (de_reverse_path d) (de_recipients d) = Ok tt → sound_envelope d.
Proof.
  unfold check_envelope. destruct (if is_empty (de_reverse_path d) then _ else _) as [[]|] eqn:Er; simpl; [|done].
  intros Hf. split.
  - destruct (de_reverse_path d) as [|c rp] eqn:Ep; [by left|right]. rewrite <- Ep in *. simpl in Er.
    apply (check_address_ok reason _ (lit "reverse path")). rewrite Ep in *. exact Er.
  - revert Hf. induction (de_recipients d) as [|r l IH]; cbn [try_fold]; [constructor|].
    destruct (check_address reason r (lit "recipient")) as [[]|] eqn:Ec; simpl; [|done]. intros Hf.
    constructor; [by eapply check_address_ok|by apply IH].
Qed.

Lemma runs_set_up reason d :
  runs (Open d false) (set_up reason d)
    (λ _ cl, ∃ tls, may_transact d tls ∧ Open d tls cl) (Over d).
Proof.
  unfold set_up. cbv zeta. fold (mandatory d).
  eapply runs_bind; [apply runs_open; intros c Hc; by apply expect_after|]. intros ?.
  eapply (runs_bind _ _ (λ _ cl, Open d false cl ∧ sound_envelope d)).
  { intros cl Hcl. destruct (check_envelope _ _ _) as [[]|] eqn:Ee; [by split; [|eapply check_envelope_ok]|]. exists false. by apply Open_Left. }
  intros ?. eapply (runs_bind _ _ (λ _ cl, Open d false cl ∧ sound_envelope d)).
  { intros cl [Hcl He]. pose proof (runs_command d false _ 250 Command (line_ehlo d false) cl Hcl) as Hc.
    unfold ehlo. destruct (on_conn _ cl) as [[u|e] cl']; [by split|done]. }
  intros ? cl [Hcl He]. set (offers := contains_str _ _). destruct offers eqn:Eo.
  - rewrite andb_false_r. eapply (runs_bind (Open d false)); [apply runs_starttls| |exact Hcl]. intros ? cl' Hcl'.
    pose proof (runs_authenticate d true cl' Hcl') as Hr. destruct (authenticate_relay d true cl') as [[u|e] cl2]; [|done].
    exists true. split; [by split; [left|]|done].
  - rewrite andb_true_r. destruct (mandatory d) eqn:Em; [by apply Over_with_tls; exists false; apply Open_Left|].
    unfold cl_bind, cl_ret. pose proof (runs_authenticate d false (with_tls cl (TlsFailure STARTTLS_NOT_SUPPORTED)) Hcl) as Hr.
    destruct (authenticate_relay d false _) as [[u|e] cl2]; [|done]. exists false. split; [by split; [right|]|done].
Qed.

Lemma runs_offer d tls recipients full :
  may_transact d tls → (∀ r, r ∈ recipients → r ∈ de_recipients d) →
  runs (Open d tls) (offer recipients full) (λ _, Open d tls) (Over d).
Proof.
  intros Hm. revert full. induction recipients as [|r recipients IH]; intros full Hr; cbn [offer]; [by apply runs_ret|].
  assert (Hrest : ∀ full, runs (Open d tls) (offer recipients full) (λ _, Open d tls) (Over d)).
  { intros full'. apply IH. intros x Hx. apply Hr. by right. }
  destruct full as [error|].
  - eapply runs_bind; [apply Hrest|]. intros rest. by apply runs_ret.
  - eapply (runs_bind _ _ (λ _, Open d tls)).
    { apply runs_open. intros c Hc. apply send_after; [done|]. apply piece_line, line_rcpt; [done|]. apply Hr. by left. }
    intros ?. eapply (runs_bind _ _ (λ _, Open d tls)); [apply runs_open; intros c Hc; by apply reply_after|].
    intros [code text]. eapply runs_bind; [apply Hrest|]. intros rest. by apply runs_ret.
Qed.

Definition Idle (d : Delivery) (tls : bool) (cl : Client) : Prop :=
  Left d tls cl ∧ (cn_broken (cl_conn cl) = false → Open d tls cl).

Lemma runs_idle {A} d tls (f : Conn → result DeliveryError A * Conn) :
  (∀ c, fluent (piece d tls) c → after_step (piece d tls) (f c)) → runs (Open d tls) (on_conn f) (λ _, Open d tls) (Idle d tls).
Proof. apply runs_step. Qed.

Lemma runs_transmit d tls : may_transact d tls → runs (Open d tls) (transmit d) (λ _, Open d tls) (Idle d tls).
Proof.
  intros Hm. unfold transmit.
  eapply runs_bind; [apply runs_idle; intros c Hc; apply command_after; [done|]; by apply piece_line, line_data|]. intros ?.
  eapply runs_bind; [apply runs_idle; intros c Hc; apply send_data_after; [done|]; by apply piece_message|]. intros ?.
  eapply (runs_bind _ _ (λ _, Open d tls)); [by intros cl Hcl|]. intros ?.
  apply runs_idle. intros c Hc. by apply expect_after.
Qed.

Lemma Open_Idle d tls cl : Open d tls cl → Idle d tls cl.
Proof. intros Hcl. by split; [apply Open_Left|]. Qed.

Lemma runs_send_message d tls results :
  may_transact d tls → runs (Open d tls) (send_message d results) (λ _, Idle d tls) (Over d).
Proof.
  intros Hm cl Hcl. unfold send_message. destruct (negb _); simpl; [by apply Open_Idle|].
  pose proof (runs_transmit d tls Hm cl Hcl) as Ht. destruct (transmit d cl) as [[u|e] cl']; simpl; [by apply Open_Idle|done].
Qed.

Lemma runs_quit d tls : may_transact d tls → runs (Idle d tls) say_quit (λ _, Over d) (Over d).
Proof.
  intros Hm cl [Hl Ho]. unfold say_quit. destruct (cn_broken (cl_conn cl)) eqn:Eb; [by exists tls|].
  pose proof (runs_command d tls (lit "QUIT") 221 Quit (line_quit d tls Hm) cl (Ho eq_refl)) as Hq.
  destruct (on_conn _ cl) as [[u|e] cl']; simpl; [exists tls; by apply Open_Left|done].
Qed.

Lemma runs_deliver_each reason d : runs (Open d false) (deliver_each reason d) (λ _, Over d) (Over d).
Proof.
  unfold deliver_each. eapply runs_bind; [apply runs_set_up|]. intros ? cl (tls & Hm & Hcl).
  refine (runs_bind (Open d tls) begin_transaction (λ _, Open d tls) _ _ _ _ _ cl Hcl); [by intros cl1 H1|]. intros ?.
  eapply runs_bind; [by apply runs_command, line_mail|]. intros ?.
  eapply runs_bind; [by apply runs_offer|]. intros results.
  eapply runs_bind; [by apply runs_send_message|]. intros results'.
  eapply runs_bind; [by apply runs_quit|]. intros ?. by apply runs_ret.
Qed.

Lemma Open_new d s : st_taken s = [] → Open d false (new_client s).
Proof. intros Ht. split; [|done]. split; [done|]. split; [done|]. exists []. by split; [|constructor]. Qed.

(** The conversation from its beginning. *)
Lemma deliver_each_over reason d s : st_taken s = [] → Over d (deliver_each reason d (new_client s)).2.
Proof.
  intros Ht. pose proof (runs_deliver_each reason d (new_client s) (Open_new d s Ht)) as Hr.
  by destruct (deliver_each reason d (new_client s)) as [[a|e] cl].
Qed.

End speech.

(** ** Lines cannot be broken *)

Section clean.
Context `{Unicode} `{TL : TlsLibrary} `{TLL : !TlsLibraryLaws} `{B64 : Base64} `{B64L : !Base64Laws} `{Certificates}.

Lemma encode_utf8_clean c : is_control c = false → clean (encode_utf8 c).
Proof.
  intros Hc. unfold is_control, in_range in Hc. unfold encode_utf8, clean, clean_byte, CR, LF, NUL.
  destruct (Z.ltb_spec c 0x80) as [|Hc1]; [|destruct (Z.ltb_spec c 0x800) as [|Hc2]; [|destruct (Z.ltb_spec c 0x10000) as [|Hc3]]];
    repeat (apply Forall_cons; split; [|]); try apply Forall_nil; try done;
    repeat match goal with |- context [(?x =? ?y)] => destruct (Z.eqb_spec x y) as [Hb|_]; [exfalso|] end; try done;
    try (rewrite !orb_false_iff, !andb_false_iff, !Z.leb_gt in Hc; lia); Z.div_mod_to_equations; lia.
Qed.

Lemma plain_clean s : plain_text s → clean (as_bytes s).
Proof.
  induction 1 as [|c s Hc _ IH]; [constructor|]. simpl. apply Forall_app. split; [by apply encode_utf8_clean|done].
Qed.

Lemma plain_app s1 s2 : plain_text s1 → plain_text s2 → plain_text (s1 ++ s2).
Proof. intros. by apply Forall_app. Qed.

Lemma line_of_clean d tls line : plain_text (de_ehlo_hostname d) → line_of d tls line → clean (as_bytes line).
Proof.
  intros Hhost Hl. apply plain_clean.
  assert (Hr : ∀ r, is_address r = true ∨ r = [] → plain_text r).
  { intros r [Hr| ->]; [by apply is_address_plain|constructor]. }
  destruct Hl as [|_|u p _ _|[_ [Hs _]]|r [_ [_ Hrs]] Hin|_|_]; repeat apply plain_app; try (by apply plain_lit); [done| | |].
  - apply base64_plain.
  - apply Hr. destruct Hs; [by right|by left].
  - apply Hr. left. by apply (proj1 (Forall_forall _ _) Hrs).
Qed.

End clean.

(** ** The transcript *)

(** [c'] continues [c] with [new]. *)
Definition extends (c c' : Conn) (new : list Exchange) : Prop := cn_log c' = cn_log c ++ new.

Lemma read_reply_log reads c : cn_log (read_reply reads c).2 = cn_log c.
Proof.
  revert c. induction reads as [|r reads IH]; intros c; cbn [read_reply];
    (destruct (oversized_line (cn_buffer c)); [done|]); (destruct (complete_reply (cn_buffer c)); [done|]);
    (destruct (_ <? _); [done|]); [done|].
  destruct r as [octets| |]; [|done..]. destruct octets as [|b octets]; [done|]. apply (IH (mkConn _ _ _ _ _)).
Qed.

(** A reply read is noted; a step that fails for want of one notes nothing. *)
Lemma read_parsed_log c :
  match read_parsed c with
  | (Done (Ok (code, text)), c') => extends c c' [Heard code text]
  | (_, c') => extends c c' []
  end.
Proof.
  unfold read_parsed, extends. pose proof (read_reply_log (st_reads (cn_stream c)) c) as Hl.
  destruct (read_reply _ c) as [[[reply|e]|] c']; simpl in Hl; [|by rewrite app_nil_r..].
  destruct (get_to 3 reply ≫= parse_uint u16_max); simpl; [by rewrite Hl|by rewrite app_nil_r].
Qed.

Lemma expect_now_log expected c :
  match expect_now expected c with
  | (Done (Ok _), c') => ∃ text, extends c c' [Heard expected text]
  | (_, c') => extends c c' [] ∨ ∃ code text, code ≠ expected ∧ extends c c' [Heard code text]
  end.
Proof.
  unfold expect_now. pose proof (read_parsed_log c) as Hl.
  destruct (read_parsed c) as [[[[code text]|e]|] c']; [|by left..].
  destruct (Z.eqb_spec code expected) as [->|Hne]; [by eexists|right; eauto].
Qed.

Lemma bounded_expect_log expected p c :
  match expect expected p c with
  | (Ok _, c') => ∃ text, extends c c' [Heard expected text]
  | (Err _, c') => extends c c' [] ∨ ∃ code text, code ≠ expected ∧ extends c c' [Heard code text]
  end.
Proof. unfold expect. pose proof (expect_now_log expected c) as Hl. by destruct (expect_now expected c) as [[[[]|e]|] c']. Qed.

Lemma reply_log p c :
  match reply p c with (Ok (code, text), c') => extends c c' [Heard code text] | (Err _, c') => extends c c' [] end.
Proof. unfold reply. pose proof (read_parsed_log c) as Hl. by destruct (read_parsed c) as [[[[code text]|e]|] c']. Qed.

Lemma write_octets_log octets note c :
  match write_octets octets note c with
  | (Done (Ok _), c') => extends c c' [note]
  | (_, c') => extends c c' []
  end.
Proof.
  unfold write_octets, extends. destruct (st_writes (cn_stream c)) as [|[|n why|n] rest]; simpl; by rewrite ?app_nil_r.
Qed.

Lemma send_log line p c :
  match send line p c with (Ok _, c') => extends c c' [Said line] | (Err _, c') => extends c c' [] end.
Proof.
  unfold send, write_line. pose proof (write_octets_log (as_bytes line ++ CRLF) (Said line) c) as Hl.
  by destruct (write_octets _ _ c) as [[[[]|e]|] c'].
Qed.

Lemma extends_trans c c1 c2 l1 l2 : extends c c1 l1 → extends c1 c2 l2 → extends c c2 (l1 ++ l2).
Proof. unfold extends. intros H1 H2. by rewrite H2, H1, app_assoc. Qed.

Lemma command_log line expected p c :
  match command line expected p c with
  | (Ok _, c') => ∃ text, extends c c' [Said line; Heard expected text]
  | (Err _, c') => ∃ new, extends c c' new ∧
      (new = [] ∨ new = [Said line] ∨ ∃ code text, code ≠ expected ∧ new = [Said line; Heard code text])
  end.
Proof.
  unfold command, write_line. pose proof (write_octets_log (as_bytes line ++ CRLF) (Said line) c) as Hw.
  destruct (write_octets _ _ c) as [[[[]|e]|] c1]; simpl; [|exists []; by split; [|left]..].
  pose proof (expect_now_log expected c1) as Hl.
  destruct (expect_now expected c1) as [[[[]|e]|] c2]; simpl.
  - destruct Hl as [text Hl]. exists text. exact (extends_trans _ _ _ _ _ Hw Hl).
  - destruct Hl as [Hl|(code & text & Hne & Hl)]; pose proof (extends_trans _ _ _ _ _ Hw Hl) as Ht; eauto 10.
  - destruct Hl as [Hl|(code & text & Hne & Hl)]; pose proof (extends_trans _ _ _ _ _ Hw Hl) as Ht;
      (eexists; split; [exact Ht|]); eauto 10.
Qed.

Lemma send_blocks_log blocks c :
  match send_blocks blocks c with
  | (Ok _, c') => extends c c' (map Wired blocks)
  | (Err _, c') => ∃ some, extends c c' (map Wired some)
  end.
Proof.
  revert c. induction blocks as [|block blocks IH]; intros c; cbn [send_blocks]; [unfold extends; simpl; by rewrite app_nil_r|].
  pose proof (write_octets_log block (Wired block) c) as Hw.
  destruct (write_octets block (Wired block) c) as [[[[]|e]|] c1]; simpl; [|by exists []..].
  specialize (IH c1). destruct (send_blocks blocks c1) as [[[]|e] c2].
  - exact (extends_trans _ _ _ _ _ Hw IH).
  - destruct IH as [some Hs]. exists (block :: some). exact (extends_trans _ _ _ _ _ Hw Hs).
Qed.

Lemma send_data_log data c :
  match send_data data c with
  | (Ok _, c') => ∃ blocks, extends c c' (map Wired blocks) ∧ concat blocks = data_wire data
  | (Err _, c') => ∃ some, extends c c' (map Wired some)
  end.
Proof.
  unfold send_data. pose proof (send_blocks_log (chunks_of (length (data_wire data)) DATA_BLOCK_BYTES (data_wire data)) c) as Hl.
  destruct (send_blocks _ c) as [[[]|e] c']; [|done]. eexists. split; [exact Hl|].
  apply chunks_of_concat; [|done]. unfold DATA_BLOCK_BYTES. lia.
Qed.

(** ** Answers *)

Section answers.
Context `{Unicode} `{TL : TlsLibrary} `{B64 : Base64} `{Certificates}.

Definition log_of (cl : Client) : list Exchange := cn_log (cl_conn cl).

Definition rcpt_line (r : list Z) : list Z := lit "RCPT TO:<" ++ r ++ lit ">".

Lemma rcpt_line_inj r r' : rcpt_line r = rcpt_line r' → r = r'.
Proof. unfold rcpt_line. intros Hr%app_inv_head. by apply app_inv_tail in Hr. Qed.

(** What is heard and said before the recipients are offered. *)
Definition prelude (e : Exchange) : Prop :=
  match e with Said line => ∀ r, line ≠ rcpt_line r | Heard _ _ => True | Wired _ => False end.

(** The message was not sent yet. *)
Definition unsent (log : list Exchange) : Prop := ∀ b, Wired b ∉ log.

Lemma prelude_unsent log : Forall prelude log → unsent log.
Proof. intros Hl b Hb. exact (proj1 (Forall_forall _ _) Hl _ Hb). Qed.

Lemma not_rcpt line : starts_with (lit "RCPT") line = false → ∀ r, line ≠ rcpt_line r.
Proof. intros Hs r ->. done. Qed.

Definition Before (cl : Client) : Prop := Forall prelude (log_of cl).
Definition Unsent (cl : Client) : Prop := unsent (log_of cl).

Lemma prelude_command line expected p :
  (∀ r, line ≠ rcpt_line r) → runs Before (on_conn (command line expected p)) (λ _, Before) Unsent.
Proof.
  intros Hl cl Hcl. unfold on_conn. pose proof (command_log line expected p (cl_conn cl)) as Hc.
  assert (Hall : ∀ new, Forall prelude new → Forall prelude (log_of cl ++ new)) by (intros; by apply Forall_app).
  destruct (command line expected p (cl_conn cl)) as [[[]|e] c].
  - destruct Hc as [text Hc]. unfold Before, log_of. simpl. rewrite Hc. apply Hall. by repeat constructor.
  - destruct Hc as (new & Hn & Hc). unfold Unsent, log_of. simpl. rewrite Hn. apply prelude_unsent, Hall.
    destruct Hc as [->|[->|(code & text & _ & ->)]]; by repeat constructor.
Qed.

Lemma prelude_starttls d : runs Before (starttls d) (λ _, Before) Unsent.
Proof.
  intros cl Hcl. unfold starttls.
  pose proof (prelude_command (lit "STARTTLS") 220 Command (not_rcpt (lit "STARTTLS") eq_refl) cl Hcl) as Hs.
  destruct (on_conn _ cl) as [[u|e] cl']; [|done].
  refine (runs_bind Before _ (λ _, Before) _ _ _ _ _ cl' Hs).
  - intros cl1 H1. unfold handshake. cbv zeta.
    destruct (tls_connect _ _ _) as [[[stream chain] tls]|[error t]]; [constructor|by apply prelude_unsent].
  - intros ?. eapply (runs_bind _ _ (λ _, Before)).
    { intros cl1 Hcl1. unfold check_dane. destruct (verify_chain _ _); [done..|by apply prelude_unsent]. }
    intros ?. eapply (runs_bind _ _ (λ _, Before)); [by intros cl1 H1|]. intros ?. by apply prelude_command, not_rcpt.
Qed.

Lemma prelude_set_up reason d : runs Before (set_up reason d) (λ _, Before) Unsent.
Proof.
  unfold set_up. cbv zeta. eapply (runs_bind _ _ (λ _, Before)).
  { intros cl Hcl. unfold on_conn. pose proof (bounded_expect_log 220 Greeting (cl_conn cl)) as Hc.
    assert (Hall : ∀ new, Forall prelude new → Forall prelude (log_of cl ++ new)) by (intros; by apply Forall_app).
    destruct (expect 220 Greeting (cl_conn cl)) as [[[]|e] c].
    - destruct Hc as [text Hc]. unfold Before, log_of. simpl. rewrite Hc. apply Hall. by repeat constructor.
    - unfold Unsent, log_of. simpl.
      destruct Hc as [Hc|(code & text & _ & Hc)]; rewrite Hc; apply prelude_unsent, Hall; by repeat constructor. }
  intros ?. eapply (runs_bind _ _ (λ _, Before)).
  { intros cl Hcl. destruct (check_envelope _ _ _) as [[]|]; [done|by apply prelude_unsent]. }
  intros ?. eapply (runs_bind _ _ (λ _, Before)); [by apply prelude_command, not_rcpt|].
  intros ? cl Hcl. set (offers := contains_str _ _).
  set (cl1 := if offers then cl else _). assert (Hcl1 : Before cl1) by (unfold cl1; by destruct offers).
  destruct (_ && _); [by apply prelude_unsent|].
  revert Hcl1. generalize cl1.
  change (runs Before ((if offers then starttls d else cl_ret tt) ;; authenticate_relay d offers) (λ _, Before) Unsent).
  eapply (runs_bind _ _ (λ _, Before)).
  - destruct offers; [apply prelude_starttls|by apply runs_ret].
  - intros ?. unfold authenticate_relay. destruct (de_auth d) as [[u p]|]; [|by apply runs_ret].
    destruct (negb offers); [intros cl2 ?; by apply prelude_unsent|]. by apply prelude_command, not_rcpt.
Qed.

(** The replies to RCPT, and the answers they give; once the transaction is
    full the rest are answered without being asked. *)
Inductive offered : list Exchange → list RecipientResult → Prop :=
| offered_nil : offered [] []
| offered_asked r code text new results :
    offered new results →
    offered (Said (rcpt_line r) :: Heard code text :: new)
      ((r, if code / 100 =? 2 then Ok tt else Err (from_reply code text)) :: results)
| offered_full r error new results : offered new results → offered new ((r, Err error) :: results).

Lemma unsent_app l1 l2 : unsent l1 → unsent l2 → unsent (l1 ++ l2).
Proof. unfold unsent. set_solver. Qed.

Lemma offer_log recipients full cl :
  match offer recipients full cl with
  | (Ok results, cl') => map fst results = recipients ∧ ∃ new, log_of cl' = log_of cl ++ new ∧ offered new results
  | (Err _, cl') => ∃ new, log_of cl' = log_of cl ++ new ∧ unsent new
  end.
Proof.
  revert full cl. induction recipients as [|r recipients IH]; intros full cl; cbn [offer].
  { split; [done|]. exists []. by rewrite app_nil_r; split; [|constructor]. }
  destruct full as [error|].
  - unfold cl_bind at 1. specialize (IH (Some error) cl). destruct (offer recipients (Some error) cl) as [[rest|e] cl1]; [|done].
    unfold cl_ret. destruct IH as (Hf & new & Hl & Ho). split; [simpl; by rewrite Hf|].
    exists new. split; [done|by constructor].
  - unfold cl_bind at 1, on_conn at 1. pose proof (send_log (lit "RCPT TO:<" ++ r ++ lit ">") Rcpt (cl_conn cl)) as Hs.
    destruct (send _ Rcpt (cl_conn cl)) as [[[]|e] c1]; [|exists []; by split; [|intros b Hb; set_solver]].
    unfold cl_bind at 1, on_conn at 1. pose proof (reply_log Rcpt (cl_conn (with_conn cl c1))) as Hr.
    destruct (reply Rcpt (cl_conn (with_conn cl c1))) as [[[code text]|e] c2].
    2:{ exists [Said (rcpt_line r)]. unfold log_of. simpl. rewrite Hr, Hs, app_nil_r. split; [done|]. intros b Hb. set_solver. }
    unfold cl_bind at 1. set (full' := match _ with Ok _ => _ | Err _ => _ end).
    specialize (IH full' (with_conn (with_conn cl c1) c2)).
    assert (Hlog : log_of (with_conn (with_conn cl c1) c2) = log_of cl ++ [Said (rcpt_line r); Heard code text]).
    { unfold log_of. simpl. simpl in Hr. by rewrite Hr, Hs, <-app_assoc. }
    destruct (offer recipients full' (with_conn (with_conn cl c1) c2)) as [[rest|e] cl1].
    + unfold cl_ret. destruct IH as (Hf & new & Hl & Ho). split; [simpl; by rewrite Hf|].
      exists (Said (rcpt_line r) :: Heard code text :: new). split; [|by constructor]. by rewrite Hl, Hlog, <-app_assoc.
    + destruct IH as (new & Hl & Hu). exists ([Said (rcpt_line r); Heard code text] ++ new).
      split; [by rewrite Hl, Hlog, <-app_assoc|]. apply unsent_app; [|done]. intros b Hb. set_solver.
Qed.

(** Neighbours in a transcript. *)
Definition adjacent (x y : Exchange) (log : list Exchange) : Prop := ∃ l1 l2, log = l1 ++ x :: y :: l2.

Lemma adjacent_app x y a b :
  adjacent x y (a ++ b) → adjacent x y a ∨ adjacent x y b ∨ last a = Some x ∧ head b = Some y.
Proof.
  intros (l1 & l2 & Heq). revert a Heq. induction l1 as [|e l1 IH]; intros a Heq.
  - destruct a as [|x1 [|y1 a]]; simpl in Heq.
    + right. left. by exists [], l2.
    + injection Heq as -> Heq. right. right. by rewrite Heq.
    + injection Heq as -> -> Heq. left. by exists [], a.
  - destruct a as [|x1 a]; simpl in Heq.
    + right. left. by exists (e :: l1), l2.
    + injection Heq as -> Heq. destruct (IH a Heq) as [(m1 & m2 & ->)|[Hb|[Hla Hh]]].
      * left. by exists (e :: m1), m2.
      * by right; left.
      * right. right. split; [|done]. by destruct a.
Qed.

Lemma offered_ok new results r :
  offered new results →
  (r, Ok tt) ∈ results ↔ ∃ code text, adjacent (Said (rcpt_line r)) (Heard code text) new ∧ code / 100 = 2.
Proof.
  induction 1 as [|r' code text new results Ho IH|r' error new results Ho IH].
  - split; [by intros ?%elem_of_nil|]. intros (? & ? & (l1 & l2 & Hl) & _). by destruct l1.
  - rewrite elem_of_cons, IH. split.
    + intros [Heq|(code' & text' & (l1 & l2 & ->) & Hc)].
      * destruct (Z.eqb_spec (code / 100) 2) as [Hc|]; [|done]. injection Heq as ->. exists code, text.
        split; [by exists [], new|done].
      * exists code', text'. split; [|done]. by exists (Said (rcpt_line r') :: Heard code text :: l1), l2.
    + intros (code' & text' & Ha & Hc). apply (adjacent_app _ _ [Said (rcpt_line r'); Heard code text]) in Ha as [Ha|[Ha|[Hla _]]].
      * left. destruct Ha as (l1 & l2 & Ha). destruct l1 as [|e1 [|e2 l1]]; [|done|by destruct l1].
        injection Ha as Hr -> -> _. apply app_inv_tail in Hr as ->. by rewrite Hc.
      * right. eauto.
      * done.
  - rewrite elem_of_cons, IH. split; [|by right]. intros [[= ]|?]; done.
Qed.

Lemma adjacent_elem x y log : adjacent x y log → x ∈ log.
Proof. intros (l1 & l2 & ->). set_solver. Qed.

Lemma offered_shape new results :
  offered new results → (∀ b, Wired b ∉ new) ∧ (∀ line, last new ≠ Some (Said line)).
Proof.
  induction 1 as [|r code text new results Ho [IH1 IH2]|r error new results Ho IH]; [|split|done].
  - split; [set_solver|done].
  - set_solver.
  - intros line. destruct new as [|e new]; [done|]. apply IH2.
Qed.

(** What the end of a conversation may add: no recipient, and no reply that
    takes the message unless it follows all of it. *)
Record refused (new : list Exchange) : Prop := {
  refused_rcpt r : Said (rcpt_line r) ∉ new;
  refused_taken b text : ¬ adjacent (Wired b) (Heard 250 text) new
}.

Lemma wired_refused some : refused (map Wired some).
Proof.
  split; [set_solver|]. intros b text (l1 & l2 & Heq).
  assert (Hin : Heard 250 text ∈ map Wired some) by (rewrite Heq; set_solver). set_solver.
Qed.

Lemma transmit_log d cl :
  match transmit d cl with
  | (Ok _, cl') => ∃ t1 blocks t2,
      log_of cl' = log_of cl ++ [Said (lit "DATA"); Heard 354 t1] ++ map Wired blocks ++ [Heard 250 t2] ∧
      concat blocks = data_wire (de_data d)
  | (Err _, cl') => ∃ new, log_of cl' = log_of cl ++ new ∧ refused new
  end.
Proof.
  unfold transmit, log_of. unfold cl_bind at 1, on_conn at 1.
  pose proof (command_log (lit "DATA") 354 DataInit (cl_conn cl)) as Hc.
  destruct (command (lit "DATA") 354 DataInit (cl_conn cl)) as [[[]|e] c1].
  2:{ destruct Hc as (new & Hn & Hc). exists new. split; [exact Hn|]. split.
      - intros r Hin. destruct Hc as [->|[->|(code & text & _ & ->)]]; set_solver.
      - intros b text Ha%adjacent_elem. destruct Hc as [->|[->|(code & text' & _ & ->)]]; set_solver. }
  destruct Hc as [t1 Hc]. unfold cl_bind at 1, on_conn at 1. pose proof (send_data_log (de_data d) (cl_conn (with_conn cl c1))) as Hd.
  destruct (send_data (de_data d) (cl_conn (with_conn cl c1))) as [[[]|e] c2].
  2:{ destruct Hd as [some Hd]. exists ([Said (lit "DATA"); Heard 354 t1] ++ map Wired some).
      split; [exact (extends_trans _ _ _ _ _ Hc Hd)|]. destruct (wired_refused some) as [H1 H2]. split; [set_solver|].
      intros b text [Ha|[Ha|[Hla _]]]%adjacent_app; [apply adjacent_elem in Ha; set_solver|by eapply H2|done]. }
  destruct Hd as (blocks & Hd & Hb). unfold cl_bind at 1, mark_sent, cl_update, on_conn. simpl.
  pose proof (bounded_expect_log 250 DataEnd c2) as Hx. destruct (expect 250 DataEnd c2) as [[[]|e] c3]; simpl.
  - destruct Hx as [t2 Hx]. exists t1, blocks, t2. split; [|done].
    pose proof (extends_trans _ _ _ _ _ (extends_trans _ _ _ _ _ Hc Hd) Hx) as Hall. unfold extends in Hall. simpl in Hall.
    by rewrite Hall.
  - assert (Hnew : ∃ tail, cn_log c3 = cn_log (cl_conn cl) ++ ([Said (lit "DATA"); Heard 354 t1] ++ map Wired blocks) ++ tail ∧
        (tail = [] ∨ ∃ code text, code ≠ 250 ∧ tail = [Heard code text])).
    { pose proof (extends_trans _ _ _ _ _ Hc Hd) as H12. destruct Hx as [Hx|(code & text & Hne & Hx)];
        pose proof (extends_trans _ _ _ _ _ H12 Hx) as Hall; (eexists; split; [exact Hall|]); eauto 10. }
    destruct Hnew as (tail & Hl & Ht). eexists. split; [exact Hl|]. destruct (wired_refused blocks) as [H1 H2]. split.
    + intros r Hin. destruct Ht as [->|(code & text & _ & ->)]; set_solver.
    + intros b text [Ha|[Ha|[Hla Hh]]]%adjacent_app.
      * apply adjacent_app in Ha as [Ha|[Ha|[Hla _]]]; [apply adjacent_elem in Ha; set_solver|by eapply H2|done].
      * destruct Ht as [->|(code & t & _ & ->)]; apply adjacent_elem in Ha; set_solver.
      * destruct Ht as [->|(code & t & Hne & ->)]; [done|]. by injection Hh as -> _.
Qed.

Lemma quit_log cl :
  ∃ new cl', say_quit cl = (Ok tt, cl') ∧ log_of cl' = log_of cl ++ new ∧ refused new ∧
    (∀ code text, head new ≠ Some (Heard code text)).
Proof.
  unfold say_quit. destruct (cn_broken (cl_conn cl)).
  { exists [], cl. rewrite app_nil_r. repeat split; [set_solver| |done]. intros b text (l1 & l2 & Hl). by destruct l1. }
  unfold on_conn, log_of. pose proof (command_log (lit "QUIT") 221 Quit (cl_conn cl)) as Hc.
  destruct (command (lit "QUIT") 221 Quit (cl_conn cl)) as [[[]|e] c]; simpl.
  - destruct Hc as [text Hc]. eexists _, _. split; [done|]. split; [exact Hc|]. repeat split; [set_solver| |done].
    intros b t Ha%adjacent_elem. set_solver.
  - destruct Hc as (new & Hn & Hc). eexists _, _. split; [done|]. split; [exact Hn|].
    destruct Hc as [->|[->|(code & text & _ & ->)]]; (repeat split; [set_solver| |done]);
      intros b t Ha%adjacent_elem; set_solver.
Qed.

(** The remote took the message for [r]: it accepted the recipient, then all
    of the message. *)
Definition taken_for (d : Delivery) (r : list Z) (log : list Exchange) : Prop :=
  ∃ l1 code text l2 t1 blocks t2 l3,
    log = l1 ++ [Said (rcpt_line r); Heard code text] ++ l2 ++
      [Said (lit "DATA"); Heard 354 t1] ++ map Wired blocks ++ [Heard 250 t2] ++ l3 ∧
    code / 100 = 2 ∧ concat blocks = data_wire (de_data d).

Lemma data_wire_nonempty data : data_wire data ≠ [].
Proof. unfold data_wire. intros Hd%app_nil. by destruct Hd. Qed.

Lemma taken_for_neighbours d r log :
  taken_for d r log →
  (∃ code text, adjacent (Said (rcpt_line r)) (Heard code text) log ∧ code / 100 = 2) ∧
  ∃ b text, adjacent (Wired b) (Heard 250 text) log.
Proof.
  intros (l1 & code & text & l2 & t1 & blocks & t2 & l3 & -> & Hc & Hb). split.
  - exists code, text. split; [|done]. by eexists l1, _.
  - destruct (exists_last (l := blocks)) as (bs & b & ->).
    { intros ->. by apply (data_wire_nonempty (de_data d)). }
    exists b, t2. exists (l1 ++ [Said (rcpt_line r); Heard code text] ++ l2 ++ [Said (lit "DATA"); Heard 354 t1] ++ map Wired bs), l3.
    rewrite map_app. by rewrite <-!app_assoc.
Qed.

Lemma unsent_not_taken d r log : unsent log → ¬ taken_for d r log.
Proof. intros Hu [_ (b & text & Ha)]%taken_for_neighbours. apply adjacent_elem in Ha. by eapply Hu. Qed.

(** Until the recipients are offered. *)
Lemma prelude_opening reason d cl :
  Before cl →
  match (set_up reason d ;; begin_transaction ;;
         on_conn (command (lit "MAIL FROM:<" ++ de_reverse_path d ++ lit ">") 250 Command)) cl with
  | (Ok _, cl') => Before cl'
  | (Err _, cl') => Unsent cl'
  end.
Proof.
  intros Hcl. eapply (runs_bind Before _ (λ _, Before)); [apply prelude_set_up| |exact Hcl]. intros ?.
  eapply (runs_bind _ _ (λ _, Before)); [by intros cl1 H1|]. intros ?. by apply prelude_command, not_rcpt.
Qed.

(** The end of a conversation whose recipients were offered. *)
Lemma closing_log d results cl :
  ∃ final cl' fin,
    (results' <- send_message d results ;; say_quit ;; cl_ret results') cl = (Ok final, cl') ∧
    log_of cl' = log_of cl ++ fin ∧ map fst final = map fst results ∧
    ((∃ t1 blocks t2 l3, fin = [Said (lit "DATA"); Heard 354 t1] ++ map Wired blocks ++ [Heard 250 t2] ++ l3 ∧
        concat blocks = data_wire (de_data d) ∧ refused l3 ∧ final = results) ∨
     (refused fin ∧ ∀ r, (r, Ok tt) ∉ final)).
Proof.
  unfold cl_bind at 1, send_message. destruct (existsb (λ r, is_ok r.2) results) eqn:Eany; simpl.
  - pose proof (transmit_log d cl) as Ht. destruct (transmit d cl) as [[[]|e] cl1]; simpl.
    + destruct Ht as (t1 & blocks & t2 & Hl & Hb). set (cl2 := with_facts cl1 _).
      destruct (quit_log cl2) as (new & cl3 & Hq & Hl3 & Hr & _). unfold cl_bind. rewrite Hq. unfold cl_ret.
      eexists results, cl3, _. split; [done|]. split; [|split; [done|left; exists t1, blocks, t2, new; split; [reflexivity|done]]].
      rewrite Hl3. unfold cl2, log_of in *. simpl. rewrite Hl. simpl. by rewrite <-!app_assoc; simpl; rewrite <-?app_assoc.
    + destruct Ht as (new & Hl & Hr). destruct (quit_log cl1) as (new' & cl3 & Hq & Hl3 & [Hr1 Hr2] & Hh).
      unfold cl_bind. rewrite Hq. unfold cl_ret. eexists _, cl3, (new ++ new'). split; [done|].
      split; [by rewrite Hl3, Hl, app_assoc|]. split.
      { rewrite map_map. apply map_ext. intros [r [[]|e']]; done. }
      right. split.
      * split.
        -- intros r [Hin|Hin]%elem_of_app; [by eapply (refused_rcpt _ Hr)|by eapply Hr1].
        -- intros b text [Ha|[Ha|[_ Ha]]]%adjacent_app; [by eapply (refused_taken _ Hr)|by eapply Hr2|by eapply Hh].
      * intros r ([r' [[]|e']] & Heq & Hin)%list_elem_of_fmap; simpl in Heq; congruence.
  - destruct (quit_log cl) as (new & cl3 & Hq & Hl3 & Hr & _). unfold cl_bind. rewrite Hq. unfold cl_ret.
    eexists results, cl3, new. split; [done|]. split; [done|]. split; [done|]. right. split; [done|].
    intros r Hin. assert (Hx : existsb (λ r, is_ok r.2) results = true); [|congruence].
    apply existsb_exists. exists (r, Ok tt). split; [by apply list_elem_of_In|done].
Qed.

(** The accepted recipients are in the middle of the transcript. *)
Lemma rcpt_in_middle pre new results fin r code text :
  Forall prelude pre → offered new results → (∀ r, Said (rcpt_line r) ∉ fin) →
  adjacent (Said (rcpt_line r)) (Heard code text) (pre ++ new ++ fin) → adjacent (Said (rcpt_line r)) (Heard code text) new.
Proof.
  intros Hpre Ho Hfin Ha.
  assert (Hnot : Said (rcpt_line r) ∉ pre) by (intros Hin; by apply (proj1 (Forall_forall _ _) Hpre) in Hin; eapply Hin).
  apply adjacent_app in Ha as [Ha|[Ha|[Hla _]]].
  - by apply adjacent_elem in Ha.
  - apply adjacent_app in Ha as [Ha|[Ha|[Hla _]]]; [done| |].
    + by apply adjacent_elem, Hfin in Ha.
    + by apply offered_shape in Ho as [_ Ho]; eapply Ho in Hla.
  - apply last_Some in Hla as [l ->]. set_solver.
Qed.

Lemma deliver_each_answers reason d s :
  match deliver_each reason d (new_client s) with
  | (Ok results, cl) =>
      map fst results = de_recipients d ∧ ∀ r, (r, Ok tt) ∈ results ↔ taken_for d r (log_of cl)
  | (Err _, cl) => ∀ r, ¬ taken_for d r (log_of cl)
  end.
Proof.
  pose proof (prelude_opening reason d (new_client s) (Forall_nil_2 _)) as Hopen.
  assert (Heq : ∀ cl, deliver_each reason d cl =
    cl_bind (set_up reason d ;; begin_transaction ;; on_conn (command (lit "MAIL FROM:<" ++ de_reverse_path d ++ lit ">") 250 Command))
      (λ _, cl_bind (offer (de_recipients d) None) (λ results,
        results' <- send_message d results ;; say_quit ;; cl_ret results')) cl).
  { intros cl. unfold deliver_each, cl_bind. destruct (set_up reason d cl) as [[[]|e] cl1]; [|done].
    destruct (begin_transaction cl1) as [[[]|e] cl2]; [|done]. by destruct (on_conn _ cl2) as [[[]|e] cl3]. }
  rewrite Heq. clear Heq. unfold cl_bind at 1.
  destruct ((set_up reason d ;; _) (new_client s)) as [[[]|e] cl1]; [|intros r; by apply unsent_not_taken].
  unfold cl_bind at 1. pose proof (offer_log (de_recipients d) None cl1) as Ho.
  destruct (offer (de_recipients d) None cl1) as [[results|e] cl2].
  2:{ destruct Ho as (new & Hl & Hu). intros r. apply unsent_not_taken. rewrite Hl. apply unsent_app; [by apply prelude_unsent|done]. }
  destruct Ho as (Hfst & new & Hl & Ho). destruct (closing_log d results cl2) as (final & cl3 & fin & -> & Hl3 & Hff & Hfin).
  split; [by rewrite Hff|]. intros r. rewrite Hl3, Hl, <-app_assoc.
  destruct Hfin as [(t1 & blocks & t2 & l3 & -> & Hb & Hr3 & ->)|[Href Hnone]].
  - split.
    + intros Hin. apply (offered_ok _ _ r Ho) in Hin as (code & text & (a & b & ->) & Hc).
      exists (log_of cl1 ++ a), code, text, b, t1, blocks, t2, l3. split; [|done]. by rewrite <-!app_assoc.
    + intros [(code & text & Ha & Hc) _]%taken_for_neighbours. apply (offered_ok _ _ r Ho). exists code, text. split; [|done].
      eapply rcpt_in_middle; [exact Hopen|exact Ho| |exact Ha]. intros r'. pose proof (refused_rcpt _ Hr3 r').
      pose proof (refused_rcpt _ (wired_refused blocks) r'). rewrite !elem_of_app, !elem_of_cons.
      intros [[|[|[]%elem_of_nil]]|[|[[|[]%elem_of_nil]|]]]; done.
  - split; [by intros ?%Hnone|]. intros [_ (b & text & Ha)]%taken_for_neighbours. exfalso.
    apply prelude_unsent in Hopen. destruct (offered_shape _ _ Ho) as [Hnw Hlast].
    apply adjacent_app in Ha as [Ha|[Ha|[Hla _]]]; [by apply adjacent_elem, Hopen in Ha| |].
    + apply adjacent_app in Ha as [Ha|[Ha|[Hla _]]]; [by apply adjacent_elem, Hnw in Ha|by eapply (refused_taken _ Href)|].
      apply last_Some in Hla as [l ->]. apply (Hnw b). set_solver.
    + apply last_Some in Hla as [l Hla]. apply (Hopen b). rewrite Hla. set_solver.
Qed.

End answers.

(** ** The end of a message *)

Definition is_eol (b : Z) : bool := (b =? CR) || (b =? LF).

(** A dot at the start of a line, here or in what follows, has a second one
    behind it. *)
Fixpoint guarded (start : bool) (l : list Z) : bool :=
  match l with
  | [] => true
  | b :: l =>
      if start && (b =? DOT) then match l with c :: _ => c =? DOT | [] => false end && guarded false l
      else guarded (is_eol b) l
  end.

Lemma guarded_eol start b l : is_eol b = true → guarded start (b :: l) = guarded true l.
Proof.
  intros Hb. cbn [guarded]. replace (start && (b =? DOT)) with false; [by rewrite Hb|].
  unfold is_eol, CR, LF in Hb. unfold DOT. destruct start, (Z.eqb_spec b 46) as [->|]; done.
Qed.

Lemma stuff_guarded start data tail :
  (∀ s, guarded s tail = true) → guarded start (stuff_dots start data ++ tail) = true.
Proof.
  intros Ht. revert start. induction data as [|b data IH]; intros start; [apply Ht|]. cbn [stuff_dots]. fold (is_eol b).
  destruct (start && (b =? DOT)) eqn:E; cbn [app].
  - apply andb_true_iff in E as [-> Hb%Z.eqb_eq]. subst b. cbn. apply IH.
  - cbn [guarded]. rewrite E. apply IH.
Qed.

Lemma guarded_end W start pre x y post :
  guarded start W = true → is_eol x = true → is_eol y = true →
  W ++ [DOT] ++ CRLF = pre ++ [x; DOT; y] ++ post → y = CR ∧ post = [LF].
Proof.
  intros HW Hx Hy. revert start pre HW. induction W as [|b W IH]; intros start pre HW Heq.
  { apply (f_equal length) in Heq as Hlen. rewrite !length_app in Hlen. simpl in Hlen.
    destruct pre; [|simpl in Hlen; lia]. simpl in Heq. by injection Heq as <-. }
  destruct pre as [|b' pre].
  - injection Heq as -> Heq. rewrite (guarded_eol start x W Hx) in HW.
    destruct W as [|c W]; [by injection Heq as <- <-|]. injection Heq as -> Heq. simpl in HW.
    destruct W as [|c W]; [done|]. injection Heq as -> _. destruct (Z.eqb_spec y DOT) as [->|]; done.
  - injection Heq as _ Heq. cbn [guarded] in HW.
    destruct (start && (b =? DOT)); [apply andb_true_iff in HW as [_ HW]|]; by eapply IH.
Qed.

Lemma data_wire_guarded data : ∃ W, data_wire data = W ++ [DOT] ++ CRLF ∧ guarded true W = true ∧ W ≠ [].
Proof.
  unfold data_wire. destruct (ends_with CRLF (stuff_dots true data)) eqn:E; eexists; (split; [reflexivity|]); split.
  - pose proof (stuff_guarded true data []) as Hg. rewrite app_nil_r in Hg. by apply Hg.
  - intros Hn. by rewrite Hn in E.
  - apply stuff_guarded. by intros [].
  - intros [_ Hn]%app_nil. done.
Qed.

(** On a framed message the doubling is that of its lines. *)
Lemma stuff_line start l rest :
  clean l → stuff_dots start (l ++ CRLF ++ rest) = (if start then dot_stuff l else l) ++ CRLF ++ stuff_dots true rest.
Proof.
  assert (Hin : ∀ l, clean l → stuff_dots false (l ++ CRLF ++ rest) = l ++ CRLF ++ stuff_dots true rest).
  { clear l. induction 1 as [|b l Hb _ IH]; [done|]. cbn [app stuff_dots andb]. unfold clean_byte in Hb.
    rewrite !andb_true_iff, !negb_true_iff in Hb. destruct Hb as [[-> ->] _]. cbn [orb]. by rewrite IH. }
  intros Hl. destruct start; [|by apply Hin]. destruct Hl as [|b l Hb Hl]; [done|].
  cbn [app stuff_dots dot_stuff]. unfold clean_byte in Hb. rewrite !andb_true_iff, !negb_true_iff in Hb.
  destruct Hb as [[-> ->] _]. cbn [orb andb]. rewrite Hin by done. by destruct (b =? DOT).
Qed.

Lemma stuff_wire lines : Forall clean lines → stuff_dots true (wire lines) = wire (map dot_stuff lines).
Proof.
  induction 1 as [|l lines Hl _ IH]; [done|]. unfold wire in *. cbn [map concat].
  rewrite <-app_assoc, stuff_line by done. by rewrite IH, <-app_assoc.
Qed.

Lemma wire_ends lines : lines ≠ [] → ends_with CRLF (wire lines) = true.
Proof.
  intros (ls & l & ->)%exists_last. unfold wire. rewrite map_app, concat_app. simpl. rewrite app_nil_r.
  unfold ends_with. by rewrite !rev_app_distr.
Qed.

Lemma data_wire_lines lines :
  Forall clean lines → lines ≠ [] → data_wire (wire lines) = wire (map dot_stuff lines ++ [[DOT]]).
Proof.
  intros Hl Hne. unfold data_wire. rewrite stuff_wire by done. rewrite wire_ends by (by destruct lines).
  unfold wire. by rewrite map_app, concat_app.
Qed.

(** ** Properties *)

(** The connections of a conversation, and whether they are encrypted. *)
Definition connections (cl : Client) : list (bool * Conn) :=
  match cl_plain cl with
  | None => [(false, cl_conn cl)]
  | Some plain => [(false, plain); (true, cl_conn cl)]
  end.

Lemma spoke_prefix P c : spoke P c → ∃ pieces, st_taken (cn_stream c) `prefix_of` concat pieces ∧ Forall P pieces.
Proof.
  intros [_ (pieces & cut & Ht & HP & [->|(_ & p & Hp & Hcut)])].
  - exists pieces. rewrite Ht, app_nil_r. done.
  - exists (pieces ++ [p]). rewrite Ht, concat_app. simpl. rewrite app_nil_r. split; [by apply prefix_app|].
    apply Forall_app. by split; [|constructor].
Qed.

Section properties.
Context `{Unicode} `{TL : TlsLibrary} `{TLL : !TlsLibraryLaws} `{B64 : Base64} `{B64L : !Base64Laws} `{Certificates}.

Lemma over_connections d cl :
  Over d cl → Forall (λ '(tls, c), spoke (piece d tls) c) (connections cl).
Proof.
  intros [tls (Hs & Hp & _ & _)]. unfold connections, plain_part in *. destruct (cl_plain cl) as [plain|].
  - destruct Hp as (-> & Hpl & _). apply Forall_cons. split; [done|]. apply Forall_cons. split; [done|constructor].
  - subst tls. apply Forall_cons. split; [done|constructor].
Qed.

(** C12: the client cannot be made to say anything but its part. Whatever the
    envelope, the message and the remote, the octets on each connection are
    those of a sequence of its own commands, each on one line that nothing in
    it can end, and of the message up to the lone dot, cut off at most where
    the connection broke; a password is said on the encrypted connection
    alone. *)
Theorem client_says_only_commands reason d s
    (Hhost : plain_text (de_ehlo_hostname d)) (Hs : st_taken s = []) :
  Forall (λ '(tls, c), ∃ pieces, st_taken (cn_stream c) `prefix_of` concat pieces ∧
    Forall (λ p, p = data_wire (de_data d) ∨
      ∃ line, line_of d tls line ∧ clean (as_bytes line) ∧ p = as_bytes line ++ CRLF) pieces)
    (connections (deliver_each reason d (new_client s)).2).
Proof.
  pose proof (over_connections d _ (deliver_each_over reason d s Hs)) as Ho.
  eapply Forall_impl; [exact Ho|]. intros [tls c] (pieces & Ht & HP)%spoke_prefix. exists pieces. split; [done|].
  eapply Forall_impl; [exact HP|]. intros p [line Hl|_]; [|by left]. right. exists line.
  split; [done|]. split; [by eapply line_of_clean|done].
Qed.



End properties.

(** C14: a message ends once. Whatever octets it has, a lone dot between line
    ends, in any of the spellings a server may honour, is on the wire at its
    very end and nowhere before, so a message cannot smuggle in commands; and
    the lines of a framed message are read back by a line decoder, however the
    octets are cut, with their dots doubled and then the lone dot. *)
Theorem message_ends_once data :
  (∀ pre x y post, is_eol x = true → is_eol y = true → data_wire data = pre ++ [x; DOT; y] ++ post → y = CR ∧ post = [LF]) ∧
  (∀ z rest, data_wire data = DOT :: z :: rest → is_eol z = false) ∧
  ∀ lines reads, data = wire lines → lines ≠ [] → Forall clean lines → Forall (legal MAX_LINE_LENGTH) (map dot_stuff lines) →
    concat reads = data_wire data →
    ∃ dec, run_reads LineDecoder.new reads = (dec, Ok (map dot_stuff lines ++ [[DOT]])) ∧ LineDecoder.buffer dec = [].
Proof.
  destruct (data_wire_guarded data) as (W & HW & Hg & Hne). split; [|split].
  - intros pre x y post Hx Hy Heq. rewrite HW in Heq. exact (guarded_end _ _ _ _ _ _ Hg Hx Hy Heq).
  - intros z rest Hd. rewrite HW in Hd. destruct W as [|b W]; [done|]. injection Hd as -> Hd. simpl in Hg.
    destruct W as [|c W]; [done|]. injection Hd as -> _. by destruct (Z.eqb_spec z DOT) as [->|].
  - intros lines reads -> Hn Hcl Hleg Hr. rewrite data_wire_lines in Hr by done.
    destruct (run_reads_wire LineDecoder.new reads (map dot_stuff lines ++ [[DOT]])) as (dec & Hrun & Hbuf & _); [| |done| |eauto].
    + split; simpl; [lia|constructor].
    + apply Forall_app. split; [done|]. apply Forall_singleton. split; [by repeat constructor|].
      cbn [length LineDecoder.max_line LineDecoder.new LineDecoder.with_limit]. unfold MAX_LINE_LENGTH. lia.
    + left. intros ->. destruct lines as [|l ls]; [done|]. cbn [map app] in Hr. rewrite wire_cons in Hr. by destruct (dot_stuff l).
Qed.

Lemma message_ends_once_witness :
  let data := wire [lit ".a"] in
  data_wire data = [DOT; DOT; 97; CR] ++ [LF; DOT; CR] ++ [LF] ∧ [LF] = [LF] ∧ is_eol DOT = false ∧
  ∃ dec, run_reads LineDecoder.new [lit ".."; lit "a" ++ CRLF ++ [DOT]; CRLF] = (dec, Ok [lit "..a"; [DOT]]) ∧ LineDecoder.buffer dec = [].
Proof.
  intros data. destruct (message_ends_once data) as (H1 & H2 & H3). split; [reflexivity|]. split; [|split].
  - exact (proj2 (H1 [DOT; DOT; 97; CR] LF CR [LF] eq_refl eq_refl eq_refl)).
  - exact (H2 DOT (lit "a" ++ CRLF ++ [DOT] ++ CRLF) eq_refl).
  - apply (H3 [lit ".a"] [lit ".."; lit "a" ++ CRLF ++ [DOT]; CRLF]); [reflexivity|discriminate| | |reflexivity].
    + repeat constructor.
    + repeat constructor; simpl; unfold MAX_LINE_LENGTH; lia.
Defined.

(** ** A conversation *)

Definition crlf (line : list Z) : Read := Got (line ++ CRLF).

(** After STARTTLS the remote presents the certificate [[1]] and takes one of
    two recipients. *)
Definition example_tls : TlsLibrary := {|
  tls_connect _ _ _ :=
    Ok (mkStream
          [crlf (lit "250 mx.example.net"); crlf (lit "250 sender ok"); crlf (lit "250 recipient ok");
           crlf (lit "550 5.1.1 no such user"); crlf (lit "354 go ahead"); crlf (lit "250 taken"); crlf (lit "221 bye")] [] [],
        [[1]], None)
|}.

Lemma example_tls_laws : @TlsLibraryLaws example_tls.
Proof. split. by intros ? ? ? ? ? ? [= <- _ _]. Qed.

Definition example_base64 : Base64 := {| base64_encode _ := lit "AGJvYgBzZWNyZXQ=" |}.

Lemma example_base64_laws : @Base64Laws example_base64.
Proof. split. intros ?. by apply plain_lit. Qed.

Definition example_certificates : Certificates := {| sha256 l := l; sha512 l := l; spki_of _ := None |}.

Definition example_remote : Stream :=
  mkStream [crlf (lit "220 mx.example.net"); Got (lit "250-mx.example.net" ++ CRLF ++ lit "250 STARTTLS" ++ CRLF); crlf (lit "220 go")] [] [].

Definition example_delivery_out : Delivery :=
  mkDelivery (lit "mx.example.net") (lit "mx.example.org") (lit "ann@example.org") [lit "bob@example.net"; lit "eve@example.net"]
    (lit "Subject: hi" ++ CRLF ++ CRLF ++ lit ".dot" ++ CRLF) true None (Usable [mkTlsa DaneEe FullCert FullMatch [1]]) Strict.

Local Notation example_run :=
  (@deliver_each ascii_unicode example_tls example_base64 example_certificates (λ _, []) example_delivery_out (new_client example_remote)).

Lemma example_connections :
  connections example_run.2 = [(false, default (cl_conn example_run.2) (cl_plain example_run.2)); (true, cl_conn example_run.2)].
Proof. vm_compute. reflexivity. Qed.

Lemma Forall_second {A} (P : A → Prop) x y : Forall P [x; y] → P y.
Proof. intros [_ [Hy _]%Forall_cons_1]%Forall_cons_1. exact Hy. Qed.

Lemma client_says_only_commands_witness :
  ∃ pieces, st_taken (cn_stream (cl_conn example_run.2)) `prefix_of` concat pieces ∧
    Forall (λ p, p = data_wire (de_data example_delivery_out) ∨
      ∃ line, @line_of ascii_unicode example_base64 example_delivery_out true line ∧ clean (as_bytes line) ∧ p = as_bytes line ++ CRLF) pieces.
Proof.
  pose proof (@client_says_only_commands ascii_unicode example_tls example_tls_laws example_base64 example_base64_laws
    example_certificates (λ _, []) example_delivery_out example_remote (plain_lit (lit "mx.example.org") eq_refl) eq_refl) as Hc.
  rewrite example_connections in Hc. exact (Forall_second _ _ _ Hc).
Defined.


