(* ===== verification/OutboundSpool.v ===== *)
(** The spool of the outbound queue (src/src/storage/spool): the envelope of
    an entry with the delivery state of each recipient
    (recipients/mod.rs, envelope.rs), and the operations on entries (mod.rs).

    The files are a map from the identifiers to the entries; encryption and
    the names of the files are left out. An operation on files can fail: a
    script says which do, and every script is allowed. A file is replaced by
    a rename, so an edit that fails leaves the entry as it was. Counters that
    grow by one an attempt are taken to stay within their width. *)

From stdpp Require Import gmap sorting.
From S2P Require Import Prelude RustStd HeaderBlock SmtpSession.

Local Open Scope Z_scope.

(** ** Recipients *)

Inductive RecipientStatus := Pending | Delivered | Failed.

#[global] Instance recipient_status_eq_dec : EqDecision RecipientStatus.
Proof. solve_decision. Defined.

Record RecipientState := mkState {
  rs_status : RecipientStatus;
  rs_attempts : Z;
  rs_next_attempt : Z;
  rs_last_error : option (list Z);
  rs_remote : option (list Z);
  rs_expired : bool;
  rs_reported : bool;
  rs_report_attempts : Z;
  rs_report_after : Z;
  rs_throttled : Z;
  rs_deferrals_logged : Z;
  rs_warmup : option (list Z);
  rs_capped_at : Z;
  rs_waited : Z
}.

Definition default_state : RecipientState := mkState Pending 0 0 None None false false 0 0 0 0 None 0 0.

(** Setters. *)
Definition set_status (s : RecipientState) (v : RecipientStatus) : RecipientState :=
  mkState v (rs_attempts s) (rs_next_attempt s) (rs_last_error s) (rs_remote s) (rs_expired s) (rs_reported s) (rs_report_attempts s)
    (rs_report_after s) (rs_throttled s) (rs_deferrals_logged s) (rs_warmup s) (rs_capped_at s) (rs_waited s).
Definition set_attempts (s : RecipientState) (v : Z) : RecipientState :=
  mkState (rs_status s) v (rs_next_attempt s) (rs_last_error s) (rs_remote s) (rs_expired s) (rs_reported s) (rs_report_attempts s)
    (rs_report_after s) (rs_throttled s) (rs_deferrals_logged s) (rs_warmup s) (rs_capped_at s) (rs_waited s).
Definition set_next (s : RecipientState) (v : Z) : RecipientState :=
  mkState (rs_status s) (rs_attempts s) v (rs_last_error s) (rs_remote s) (rs_expired s) (rs_reported s) (rs_report_attempts s)
    (rs_report_after s) (rs_throttled s) (rs_deferrals_logged s) (rs_warmup s) (rs_capped_at s) (rs_waited s).
Definition set_error (s : RecipientState) (v : option (list Z)) : RecipientState :=
  mkState (rs_status s) (rs_attempts s) (rs_next_attempt s) v (rs_remote s) (rs_expired s) (rs_reported s) (rs_report_attempts s)
    (rs_report_after s) (rs_throttled s) (rs_deferrals_logged s) (rs_warmup s) (rs_capped_at s) (rs_waited s).
Definition set_remote (s : RecipientState) (v : option (list Z)) : RecipientState :=
  mkState (rs_status s) (rs_attempts s) (rs_next_attempt s) (rs_last_error s) v (rs_expired s) (rs_reported s) (rs_report_attempts s)
    (rs_report_after s) (rs_throttled s) (rs_deferrals_logged s) (rs_warmup s) (rs_capped_at s) (rs_waited s).
Definition set_expired (s : RecipientState) : RecipientState :=
  mkState (rs_status s) (rs_attempts s) (rs_next_attempt s) (rs_last_error s) (rs_remote s) true (rs_reported s) (rs_report_attempts s)
    (rs_report_after s) (rs_throttled s) (rs_deferrals_logged s) (rs_warmup s) (rs_capped_at s) (rs_waited s).
Definition set_reported (s : RecipientState) : RecipientState :=
  mkState (rs_status s) (rs_attempts s) (rs_next_attempt s) (rs_last_error s) (rs_remote s) (rs_expired s) true (rs_report_attempts s)
    (rs_report_after s) (rs_throttled s) (rs_deferrals_logged s) (rs_warmup s) (rs_capped_at s) (rs_waited s).
Definition set_report_attempts (s : RecipientState) (v : Z) : RecipientState :=
  mkState (rs_status s) (rs_attempts s) (rs_next_attempt s) (rs_last_error s) (rs_remote s) (rs_expired s) (rs_reported s) v
    (rs_report_after s) (rs_throttled s) (rs_deferrals_logged s) (rs_warmup s) (rs_capped_at s) (rs_waited s).
Definition set_report_after (s : RecipientState) (v : Z) : RecipientState :=
  mkState (rs_status s) (rs_attempts s) (rs_next_attempt s) (rs_last_error s) (rs_remote s) (rs_expired s) (rs_reported s) (rs_report_attempts s)
    v (rs_throttled s) (rs_deferrals_logged s) (rs_warmup s) (rs_capped_at s) (rs_waited s).
Definition set_throttled (s : RecipientState) (v : Z) : RecipientState :=
  mkState (rs_status s) (rs_attempts s) (rs_next_attempt s) (rs_last_error s) (rs_remote s) (rs_expired s) (rs_reported s) (rs_report_attempts s)
    (rs_report_after s) v (rs_deferrals_logged s) (rs_warmup s) (rs_capped_at s) (rs_waited s).
Definition set_deferrals_logged (s : RecipientState) (v : Z) : RecipientState :=
  mkState (rs_status s) (rs_attempts s) (rs_next_attempt s) (rs_last_error s) (rs_remote s) (rs_expired s) (rs_reported s) (rs_report_attempts s)
    (rs_report_after s) (rs_throttled s) v (rs_warmup s) (rs_capped_at s) (rs_waited s).
Definition set_cap_wait (s : RecipientState) (warmup : option (list Z)) (capped_at waited : Z) : RecipientState :=
  mkState (rs_status s) (rs_attempts s) (rs_next_attempt s) (rs_last_error s) (rs_remote s) (rs_expired s) (rs_reported s) (rs_report_attempts s)
    (rs_report_after s) (rs_throttled s) (rs_deferrals_logged s) warmup capped_at waited.

Definition warmup_wait (s : RecipientState) (now : Z) : Z :=
  let current := match rs_warmup s with Some _ => saturating_sub now (rs_capped_at s) | None => 0 end in
  saturating_add u64_max (rs_waited s) current.

Definition wait_for_cap (s : RecipientState) (group : list Z) (until now : Z) : RecipientState :=
  let capped_at := match rs_warmup s with None => now | Some _ => rs_capped_at s end in
  set_next (set_cap_wait s (Some group) capped_at (rs_waited s)) until.

Definition end_cap_wait (s : RecipientState) (now : Z) : RecipientState :=
  match rs_warmup s with
  | Some _ => set_cap_wait s None 0 (saturating_add u64_max (rs_waited s) (saturating_sub now (rs_capped_at s)))
  | None => s
  end.

(** ** Envelopes *)

Inductive MailClass := Transactional | Marketing | Personal.

Definition evidence_mandatory (c : MailClass) : bool := match c with Transactional => true | _ => false end.

Inductive OutcomeKind := OutDelivered | OutBounced | OutExpired | OutSuppressed | OutCanceled.

#[global] Instance outcome_kind_eq_dec : EqDecision OutcomeKind.
Proof. solve_decision. Defined.

Record PendingOutcome := mkOutcome {
  po_recipient : list Z;
  po_result : OutcomeKind;
  po_attempt : Z;
  po_remote : option (list Z);
  po_reply : option (list Z);
  po_tls : option (list Z * list Z);
  po_dane : bool;
  po_mta_sts : option (list Z)
}.

#[global] Instance pending_outcome_eq_dec : EqDecision PendingOutcome.
Proof. solve_decision. Defined.

(** The correlation map of the API is left out. *)
Record Envelope := mkEnvelope {
  ev_id : Z;
  ev_reverse_path : list Z;
  ev_recipients : list (list Z);
  ev_attempts : Z;
  ev_next_attempt : Z;
  ev_require_tls : bool;
  ev_no_dsn : list (list Z);
  ev_delay_warned : bool;
  ev_held : option Z;
  ev_held_secs : Z;
  ev_last_error : option (list Z);
  ev_recipient_state : gmap (list Z) RecipientState;
  ev_account : option (list Z);
  ev_class : MailClass;
  ev_evidence : bool;
  ev_retain_days : Z;
  ev_outcomes_pending : list PendingOutcome;
  ev_cancelling : option Z
}.

Definition set_retry (e : Envelope) (attempts next : Z) : Envelope :=
  mkEnvelope (ev_id e) (ev_reverse_path e) (ev_recipients e) attempts next (ev_require_tls e) (ev_no_dsn e) (ev_delay_warned e)
    (ev_held e) (ev_held_secs e) (ev_last_error e) (ev_recipient_state e) (ev_account e) (ev_class e) (ev_evidence e) (ev_retain_days e)
    (ev_outcomes_pending e) (ev_cancelling e).
Definition set_states (e : Envelope) (m : gmap (list Z) RecipientState) : Envelope :=
  mkEnvelope (ev_id e) (ev_reverse_path e) (ev_recipients e) (ev_attempts e) (ev_next_attempt e) (ev_require_tls e) (ev_no_dsn e)
    (ev_delay_warned e) (ev_held e) (ev_held_secs e) (ev_last_error e) m (ev_account e) (ev_class e) (ev_evidence e) (ev_retain_days e)
    (ev_outcomes_pending e) (ev_cancelling e).
Definition set_last_error (e : Envelope) (v : option (list Z)) : Envelope :=
  mkEnvelope (ev_id e) (ev_reverse_path e) (ev_recipients e) (ev_attempts e) (ev_next_attempt e) (ev_require_tls e) (ev_no_dsn e)
    (ev_delay_warned e) (ev_held e) (ev_held_secs e) v (ev_recipient_state e) (ev_account e) (ev_class e) (ev_evidence e)
    (ev_retain_days e) (ev_outcomes_pending e) (ev_cancelling e).
Definition set_outcomes (e : Envelope) (l : list PendingOutcome) : Envelope :=
  mkEnvelope (ev_id e) (ev_reverse_path e) (ev_recipients e) (ev_attempts e) (ev_next_attempt e) (ev_require_tls e) (ev_no_dsn e)
    (ev_delay_warned e) (ev_held e) (ev_held_secs e) (ev_last_error e) (ev_recipient_state e) (ev_account e) (ev_class e) (ev_evidence e)
    (ev_retain_days e) l (ev_cancelling e).
Definition set_warned (e : Envelope) : Envelope :=
  mkEnvelope (ev_id e) (ev_reverse_path e) (ev_recipients e) (ev_attempts e) (ev_next_attempt e) (ev_require_tls e) (ev_no_dsn e) true
    (ev_held e) (ev_held_secs e) (ev_last_error e) (ev_recipient_state e) (ev_account e) (ev_class e) (ev_evidence e) (ev_retain_days e)
    (ev_outcomes_pending e) (ev_cancelling e).
Definition set_hold (e : Envelope) (held : option Z) (held_secs : Z) (cancelling : option Z) : Envelope :=
  mkEnvelope (ev_id e) (ev_reverse_path e) (ev_recipients e) (ev_attempts e) (ev_next_attempt e) (ev_require_tls e) (ev_no_dsn e)
    (ev_delay_warned e) held held_secs (ev_last_error e) (ev_recipient_state e) (ev_account e) (ev_class e) (ev_evidence e)
    (ev_retain_days e) (ev_outcomes_pending e) cancelling.

Definition hold (e : Envelope) (now : Z) : Envelope :=
  match ev_held e with Some _ => e | None => set_hold e (Some now) (ev_held_secs e) (ev_cancelling e) end.

Definition release (e : Envelope) (now : Z) : Envelope :=
  match ev_held e with
  | Some since => set_hold e None (saturating_add u64_max (ev_held_secs e) (saturating_sub now since)) (ev_cancelling e)
  | None => e
  end.

(** A recipient the map does not know inherits the fields of the entry. *)
Definition recipient_state (e : Envelope) (r : list Z) : RecipientState :=
  default (set_next (set_attempts default_state (ev_attempts e)) (ev_next_attempt e)) (ev_recipient_state e !! r).

(** The first write gives every recipient an entry of its own. *)
Definition set_recipient_state (e : Envelope) (r : list Z) (s : RecipientState) : Envelope :=
  let m := ev_recipient_state e in
  let m := if bool_decide (m = ∅) then fold_left (λ m other, <[other := default (recipient_state e other) (m !! other)]> m) (ev_recipients e) m else m in
  set_states e (<[r := s]> m).

Definition recipients_in (e : Envelope) (status : RecipientStatus) : list (list Z) :=
  List.filter (λ r, bool_decide (rs_status (recipient_state e r) = status)) (ev_recipients e).

Definition pending (e : Envelope) : list (list Z) := recipients_in e Pending.

(** [iter().min()]. *)
Definition min_of (l : list Z) : option Z :=
  match l with [] => None | x :: l => Some (fold_left Z.min l x) end.
Definition max_of (l : list Z) : option Z :=
  match l with [] => None | x :: l => Some (fold_left Z.max l x) end.

Definition due (e : Envelope) (now : Z) : list (list Z) :=
  let earliest := default 0 (min_of (map (λ r, rs_next_attempt (recipient_state e r)) (pending e))) in
  let forced := ev_next_attempt e <? earliest in
  List.filter (λ r, forced || (rs_next_attempt (recipient_state e r) <=? now)) (pending e).

Definition settle (e : Envelope) : Envelope :=
  let states := map (recipient_state e) (ev_recipients e) in
  let attempts := match max_of (map rs_attempts states) with Some a => Z.max (ev_attempts e) a | None => ev_attempts e end in
  let waiting := List.filter (λ s, bool_decide (rs_status s = Pending)) states in
  let next := default (ev_next_attempt e) (min_of (map rs_next_attempt waiting)) in
  set_retry e attempts next.

(** ** The files *)

Record SpoolEntry := mkEntry { se_envelope : Envelope; se_data : list Z }.

(** The operations still to fail, and whether each does. *)
Record Disk := mkDisk { dk_entries : gmap Z SpoolEntry; dk_faults : list bool }.

Inductive IoError := NotFound | InvalidData | ResourceBusy | OtherIo.

#[global] Instance io_error_eq_dec : EqDecision IoError.
Proof. solve_decision. Defined.

Definition next_fault (d : Disk) : bool * Disk :=
  match dk_faults d with
  | [] => (false, d)
  | f :: faults => (f, mkDisk (dk_entries d) faults)
  end.

Definition put_entry (d : Disk) (id : Z) (en : SpoolEntry) : Disk := mkDisk (<[id := en]> (dk_entries d)) (dk_faults d).
Definition drop_entry (d : Disk) (id : Z) : Disk := mkDisk (delete id (dk_entries d)) (dk_faults d).

Record StoreOptions := mkOptions {
  so_account : option (list Z);
  so_class : MailClass;
  so_evidence : option (list Z → bool);
  so_retain_days : Z
}.

(** Nothing is queued unless the hook took the octets that are. *)
Definition store_with (message : AcceptedMessage) (id : Z) (options : StoreOptions) (d : Disk) : result IoError Z * Disk :=
  let account := match so_account options with Some a => if is_empty a then None else Some a | None => None end in
  let envelope :=
    mkEnvelope id (msg_reverse_path message) (msg_recipients message) 0 0 (msg_require_tls message) (msg_no_dsn message) false None 0
      None ∅ account (so_class options) (bool_decide (is_Some (so_evidence options))) (so_retain_days options) [] None in
  if has_unframed_byte (msg_data message) then (Err InvalidData, d)
  else
    let data := outbound_crlf (msg_data message) in
    let '(fault, d) := next_fault d in
    if fault then (Err OtherIo, d)
    else if match so_evidence options with Some record => negb (record data) | None => false end then (Err OtherIo, d)
    else let '(fault, d) := next_fault d in
         if fault then (Err OtherIo, d) else (Ok id, put_entry d id (mkEntry envelope data)).

Definition load (id : Z) (d : Disk) : result IoError SpoolEntry * Disk :=
  let '(fault, d) := next_fault d in
  if fault then (Err OtherIo, d) else (ok_or NotFound (dk_entries d !! id), d).

Definition load_envelope (id : Z) (d : Disk) : result IoError Envelope * Disk :=
  let '(r, d) := load id d in (match r with Ok en => Ok (se_envelope en) | Err e => Err e end, d).

Definition update_envelope (id : Z) (edit : Envelope → Envelope) (d : Disk) : result IoError Envelope * Disk :=
  let '(fault, d) := next_fault d in
  if fault then (Err OtherIo, d)
  else match dk_entries d !! id with
       | None => (Err NotFound, d)
       | Some en => let e := edit (se_envelope en) in (Ok e, put_entry d id (mkEntry e (se_data en)))
       end.

(** Oldest first: identifiers sort by their time. *)
Definition list_entries (d : Disk) : result IoError (list Z) * Disk :=
  let '(fault, d) := next_fault d in
  if fault then (Err OtherIo, d) else (Ok (merge_sort Z.le (map fst (map_to_list (dk_entries d)))), d).

Definition mark_delay_warned (id : Z) (d : Disk) : result IoError unit * Disk :=
  let '(r, d) := update_envelope id set_warned d in (match r with Ok _ => Ok tt | Err e => Err e end, d).

(** The end of [remove]: the envelope goes and then the message; an envelope
    that is gone is an entry that is gone. *)
Definition unlink (id : Z) (d : Disk) : result IoError unit * Disk :=
  let '(fault, d) := next_fault d in
  if fault then (Err OtherIo, d)
  else let d := drop_entry d id in
       let '(fault, d) := next_fault d in
       (if fault then Err OtherIo else Ok tt, d).

(** [remove] at [now]: the entry is put on hold before its files go. *)
Definition remove (id now : Z) (d : Disk) : result IoError unit * Disk :=
  let '(fault, d) := next_fault d in
  if fault then (Err OtherIo, d)
  else match dk_entries d !! id with
       | None => (Err NotFound, d)
       | Some en =>
           let e := se_envelope en in
           if negb (bool_decide (ev_outcomes_pending e = [])) then (Err ResourceBusy, d)
           else
             let held := hold e now in
             let held := set_hold held (ev_held held) (ev_held_secs held) (Some (default now (ev_cancelling held))) in
             let changed := negb (bool_decide (ev_held held = ev_held e) && bool_decide (ev_cancelling held = ev_cancelling e)) in
             let '(fault, d) := if changed then next_fault d else (false, d) in
             if fault then (Err OtherIo, d)
             else unlink id (if changed then put_entry d id (mkEntry held (se_data en)) else d)
       end.

(** ** Theory *)

(** The map knows every recipient, or none of them. *)
Definition tracked (e : Envelope) : Prop :=
  ev_recipient_state e = ∅ ∨ ∀ r, r ∈ ev_recipients e → is_Some (ev_recipient_state e !! r).

Lemma inherit_lookup (e : Envelope) (rs : list (list Z)) (m : gmap (list Z) RecipientState) (r : list Z) :
  fold_left (λ m other, <[other := default (recipient_state e other) (m !! other)]> m) rs m !! r =
    match m !! r with Some s => Some s | None => if decide (r ∈ rs) then Some (recipient_state e r) else None end.
Proof.
  revert m. induction rs as [|x rs IH]; intros m; cbn [fold_left].
  { rewrite decide_False by (apply not_elem_of_nil). by destruct (m !! r). }
  rewrite IH. destruct (decide (x = r)) as [->|Hx].
  - rewrite lookup_insert_eq. destruct (m !! r) as [s|] eqn:E; [done|]. simpl. by rewrite decide_True by (by left).
  - rewrite lookup_insert_ne by done. destruct (m !! r); [done|].
    destruct (decide (r ∈ rs)), (decide (r ∈ x :: rs)); set_solver.
Qed.

Lemma recipient_state_set e r s r' :
  recipient_state (set_recipient_state e r s) r' = if decide (r' = r) then s else recipient_state e r'.
Proof.
  unfold recipient_state at 1, set_recipient_state. cbn [ev_recipient_state set_states ev_attempts ev_next_attempt].
  destruct (decide (r' = r)) as [->|Hr]; [by rewrite lookup_insert_eq|]. rewrite lookup_insert_ne by done.
  case_bool_decide as Hm; [|done]. rewrite inherit_lookup, Hm, lookup_empty.
  destruct (decide (r' ∈ ev_recipients e)); [done|]. unfold recipient_state. by rewrite Hm, lookup_empty.
Qed.

Lemma tracked_set e r s : tracked e → tracked (set_recipient_state e r s).
Proof.
  intros Ht. right. intros r' Hr'. cbn [set_recipient_state set_states ev_recipients ev_recipient_state] in *.
  destruct (decide (r = r')) as [->|Hr]; [rewrite lookup_insert_eq; by eexists|]. rewrite lookup_insert_ne by done.
  case_bool_decide as Hm.
  - rewrite inherit_lookup, Hm, lookup_empty, decide_True by done. by eexists.
  - destruct Ht as [?|Ht]; [done|by apply Ht].
Qed.

Lemma fold_min_le l x : fold_left Z.min l x ≤ x ∧ Forall (λ y, fold_left Z.min l x ≤ y) l.
Proof.
  revert x. induction l as [|y l IH]; intros x; simpl; [split; [lia|constructor]|].
  destruct (IH (Z.min x y)) as [H1 H2]. split; [lia|]. constructor; [lia|done].
Qed.

Lemma fold_min_const l x : Forall (λ y, y = x) l → fold_left Z.min l x = x.
Proof. induction 1 as [|y l -> _ IH]; simpl; [done|]. by rewrite Z.min_id. Qed.

Lemma fold_max_const l x : Forall (λ y, y = x) l → fold_left Z.max l x = x.
Proof. induction 1 as [|y l -> _ IH]; simpl; [done|]. by rewrite Z.max_id. Qed.

Lemma min_of_in l m : min_of l = Some m → m ∈ l ∧ Forall (Z.le m) l.
Proof.
  destruct l as [|x l]; [done|]. intros [= <-]. split.
  - revert x. induction l as [|y l IH]; intros x; simpl; [by left|].
    destruct (Z.min_spec x y) as [[_ ->]|[_ ->]]; specialize (IH x) as Hx; specialize (IH y) as Hy; set_solver.
  - destruct (fold_min_le l x) as [H1 H2]. by constructor.
Qed.

(** Settling changes no recipient. *)
Lemma recipient_state_settle e r : tracked e → r ∈ ev_recipients e → recipient_state (settle e) r = recipient_state e r.
Proof.
  intros Ht Hr. unfold recipient_state at 1. cbn [settle set_retry ev_recipient_state].
  destruct Ht as [Hm|Hall]; [|destruct (Hall r Hr) as [s Hs]; unfold recipient_state; by rewrite Hs].
  rewrite Hm, lookup_empty. simpl default.
  assert (Hst : ∀ x, recipient_state e x = set_next (set_attempts default_state (ev_attempts e)) (ev_next_attempt e)).
  { intros x. unfold recipient_state. by rewrite Hm, lookup_empty. }
  assert (Hmap : map (recipient_state e) (ev_recipients e) =
    map (λ _, set_next (set_attempts default_state (ev_attempts e)) (ev_next_attempt e)) (ev_recipients e)).
  { by apply map_ext. }
  rewrite Hst. unfold settle. cbn [set_retry ev_attempts ev_next_attempt]. rewrite Hmap. destruct (ev_recipients e) as [|x rs]; [by apply elem_of_nil in Hr|].
  f_equal.
  - f_equal. cbn [map max_of]. rewrite fold_max_const; [simpl; lia|]. apply Forall_map, Forall_map, Forall_forall. done.
  - cbn [map List.filter]. rewrite bool_decide_true by done. cbn [map min_of].
    rewrite fold_min_const; [done|]. apply Forall_map, Forall_forall. intros s Hs%list_elem_of_In%filter_In.
    destruct Hs as [Hs _]. apply in_map_iff in Hs as (? & <- & _). done.
Qed.

Lemma recipients_settle e : ev_recipients (settle e) = ev_recipients e. Proof. done. Qed.
Lemma recipients_set e r s : ev_recipients (set_recipient_state e r s) = ev_recipients e. Proof. done. Qed.

Lemma tracked_settle e : tracked e → tracked (settle e).
Proof. done. Qed.

Lemma elem_recipients_in e status r :
  r ∈ recipients_in e status ↔ r ∈ ev_recipients e ∧ rs_status (recipient_state e r) = status.
Proof. unfold recipients_in. by rewrite list_elem_of_In, filter_In, <-list_elem_of_In, bool_decide_eq_true. Qed.

Lemma elem_pending e r : r ∈ pending e ↔ r ∈ ev_recipients e ∧ rs_status (recipient_state e r) = Pending.
Proof. apply elem_recipients_in. Qed.

Lemma elem_due e now r : r ∈ due e now → r ∈ pending e.
Proof. unfold due. rewrite list_elem_of_In, filter_In, <-list_elem_of_In. by intros [? _]. Qed.

(** On a settled entry exactly the pending recipients whose time has come are
    due; an earlier time on the entry makes all of them due. *)
Lemma due_settled e now r :
  tracked e → r ∈ due (settle e) now ↔ r ∈ pending e ∧ rs_next_attempt (recipient_state e r) ≤ now.
Proof.
  intros Ht.
  assert (Hp : pending (settle e) = pending e).
  { unfold pending, recipients_in. rewrite recipients_settle. apply filter_ext_in. intros x Hx%list_elem_of_In.
    by rewrite recipient_state_settle. }
  assert (Hm : map (λ x, rs_next_attempt (recipient_state (settle e) x)) (pending e) = map (λ x, rs_next_attempt (recipient_state e x)) (pending e)).
  { apply map_ext_in. intros x Hx%list_elem_of_In%elem_pending. by rewrite recipient_state_settle by naive_solver. }
  assert (Hnext : ev_next_attempt (settle e) = default (ev_next_attempt e) (min_of (map (λ x, rs_next_attempt (recipient_state e x)) (pending e)))).
  { unfold settle. cbn [set_retry ev_next_attempt]. f_equal. f_equal. unfold pending, recipients_in.
    induction (ev_recipients e) as [|x rs IH]; [done|]. cbn [map List.filter]. case_bool_decide; simpl; by rewrite IH. }
  unfold due. rewrite Hp, Hm, Hnext, list_elem_of_In, filter_In, <-list_elem_of_In.
  assert (Hforced : r ∈ pending e → (default (ev_next_attempt e) (min_of (map (λ x, rs_next_attempt (recipient_state e x)) (pending e))) <?
      default 0 (min_of (map (λ x, rs_next_attempt (recipient_state e x)) (pending e)))) = false).
  { intros Hr. destruct (pending e) as [|x l]; [by apply elem_of_nil in Hr|]. simpl. apply Z.ltb_irrefl. }
  split.
  - intros [Hr Hb]. rewrite Hforced in Hb by done. simpl in Hb. apply Z.leb_le in Hb. split; [done|].
    apply elem_pending in Hr as Hr'. by rewrite recipient_state_settle in Hb by naive_solver.
  - intros [Hr Hn]. split; [done|]. rewrite Hforced by done. simpl. apply Z.leb_le.
    apply elem_pending in Hr as Hr'. by rewrite recipient_state_settle by naive_solver.
Qed.
