(* ===== verification/LocalDelivery.v ===== *)
(** Delivery into the mailboxes of this server: src/src/storage/delivery/
    (mod.rs, policy.rs, trace.rs, io.rs, lists/mod.rs, vacation/mod.rs).

    The files under the data directory are an interface, [MailStore]; the
    composition of replies and list fields is another, [Composer].  A delivery
    takes the store and the number of copies stored so far and returns both
    with what the caller is to send. *)

From stdpp Require Import gmap.
From S2P Require Import Prelude RustStd Utf8 Slices HeaderBlock HeaderRewrite HeaderStrip Address Directory SmtpSession.
From S2P Require Import SieveMatch SieveLexer SieveParser SieveMessage SieveInterp MailboxPath UtcDate Vacation.

Local Open Scope Z_scope.

(** ** Values *)

Inductive SinkError :=
| MailboxFull (account : list Z)
| Unavailable (why : list Z)
| VirusDetected (signature : list Z)
| AttachmentRefused (reasons : list Z)
| ScanUnavailable
| ScanTooLarge
| EvidenceUnavailable (why : list Z)
| TooManyHeaderFields
| Gone (why : list Z).

Record Redirect := mkRedirect { rd_to : list Z; rd_delivered_to : list Z }.

Record Delivered := mkDelivered {
  over_quota : list (list Z);
  redirects : list Redirect;
  reject : option (list Z);
  replies : list AcceptedMessage;
  looped : list (list Z)
}.

Definition delivered_default : Delivered := mkDelivered [] [] None [] [].

(** ** Trace fields (trace.rs) *)

(** [text] without line breaks. *)
Definition one_line_text (text : list Z) : list Z := List.filter (λ c, negb ((c =? CR) || (c =? LF))) text.

Definition CRLF_TEXT : list Z := [CR; LF].

Definition final_copy (reverse_path delivered_to data : list Z) : list Z :=
  as_bytes (lit "Return-Path: <" ++ one_line_text reverse_path ++ lit ">" ++ CRLF_TEXT ++
            lit "Delivered-To: " ++ one_line_text delivered_to ++ CRLF_TEXT) ++
  strip_headers data [lit "return-path"].

Definition forwarded_copy (delivered_to data : list Z) : list Z :=
  as_bytes (lit "Delivered-To: " ++ one_line_text delivered_to ++ CRLF_TEXT) ++ data.

Definition trim_matches (p : Z → bool) (s : list Z) : list Z := trim_end_matches p (trim_start_matches p s).

Definition already_delivered_to (data address : list Z) : bool :=
  existsb (λ value, eq_ignore_ascii_case (trim_matches (λ c, (c =? 60) || (c =? 62) || is_whitespace c) value) address)
    (header_values data (lit "delivered-to")).

(** ** The store *)

(** A stored message: its mailbox ([None] the inbox), its octets, its flags. *)
Record Copy := mkCopy { cp_mailbox : option (list Z); cp_data : list Z; cp_flags : list (list Z) }.

(** The files of the accounts, as the delivery uses them. *)
Class MailStore (S : Type) := {
  account_usage : S → list Z → Z;
  deliver_to_account : list Z → option (list Z) → list Z → list (list Z) → S → result (list Z) unit * S;
  mailbox_known : S → list Z → list Z → bool;
  mailbox_list : S → list Z → list (list Z);
  mailbox_create : list Z → list Z → S → S;
  folders_lock : S → list Z → bool;
  filter_script : S → list Z → option (Z * option (list Z));
  vacation_setting : S → list Z → option VacationSetting;
  claim_reply : list Z → list Z → Z → S → bool * S
}.

(** What the delivery relies on: a successful delivery adds its copy to the
    account and nothing else touches the copies. *)
Class MailStoreLaws S `{MailStore S} := {
  copies : S → list Z → list Copy;
  deliver_ok account mailbox data flags s s' :
    deliver_to_account account mailbox data flags s = (Ok tt, s') →
    ∀ a, copies s' a = if str_eqb a account then copies s a ++ [mkCopy mailbox data flags] else copies s a;
  deliver_err account mailbox data flags s s' why :
    deliver_to_account account mailbox data flags s = (Err why, s') → copies s' = copies s;
  create_copies account mailbox s : copies (mailbox_create account mailbox s) = copies s;
  claim_copies account sender days s : copies (claim_reply account sender days s).2 = copies s
}.

Section delivery.
Context `{Unicode} `{MapOrder}.

Fixpoint deliverable_loop (valid : list (list Z)) (invalid : nat) (targets : list (list Z)) : list (list Z) * nat :=
  match targets with
  | [] => (valid, invalid)
  | target :: targets =>
      match parse_address target with
      | Ok address =>
          let address := display_address address in
          if existsb (λ known, eq_ignore_ascii_case known address) valid then deliverable_loop valid invalid targets
          else deliverable_loop (valid ++ [address]) invalid targets
      | Err _ => deliverable_loop valid (S invalid) targets
      end
  end.

Definition deliverable (targets : list (list Z)) : list (list Z) * nat := deliverable_loop [] 0 targets.

Definition to_redirects (targets : list (list Z)) (delivered_to : list Z) : list Redirect :=
  map (λ to, mkRedirect to delivered_to) targets.

Definition forwarding_loop (message : AcceptedMessage) (delivered_to : list Z) (targets : list (list Z)) : option Delivered :=
  if bool_decide (targets = []) || negb (already_delivered_to (msg_data message) delivered_to) then None
  else Some (mkDelivered [] [] None [] [delivered_to]).

(** ** Hops and forwards (mod.rs, policy.rs) *)

Definition MAX_FORWARD_HOPS : nat := 25.

Definition received_hops (data : list Z) : nat :=
  let head_end := default (length data) (window_position CRLFCRLF data) in
  let head := take head_end data in
  length (List.filter (λ line,
    let line := default line (strip_suffix [CR] line) in
    (9 <=? length line)%nat && eq_ignore_ascii_case (take 9 line) (lit "Received:")) (split LF head)).

(** The part of a delivery that does not change: the directory, its
    forwards and the default quota. *)
Record LocalDelivery := mkLocal {
  ld_directory : Directory.t;
  ld_forwards : gmap (list Z) (list (list Z) * bool);
  ld_default_quota : Z
}.

Definition forwards (ld : LocalDelivery) (account : list Z) : option (list (list Z) * bool) :=
  ld_forwards ld !! to_ascii_lowercase account.

Definition account_forwards (ld : LocalDelivery) (account : list Z) (message : AcceptedMessage)
    : list (list Z) * bool :=
  match forwards ld account with
  | None => ([], true)
  | Some (targets, keep_local) =>
      if is_empty (msg_reverse_path message) || (MAX_FORWARD_HOPS <? received_hops (msg_data message))%nat
      then ([], keep_local)
      else (targets, keep_local)
  end.

(** ** Folders of a script (io.rs) *)

Definition MAX_AUTO_FOLDERS : nat := 200.
Definition MAX_AUTO_DEPTH : nat := 4.

Section folders.
Context {S : Type} `{MailStore S}.

Definition mailbox_exists (s : S) (account mailbox : list Z) : bool :=
  if eq_ignore_ascii_case mailbox INBOX then is_plain_component account else mailbox_known s account mailbox.

(** The first [upto] levels, for each number of them. *)
Definition prefixes (levels : list (list Z)) : list (list Z) :=
  map (λ upto, join SOLIDUS (take upto levels)) (seq 1 (length levels)).

Definition create_mailbox_within_limit (account mailbox : list Z) (s : S) : bool * S :=
  if mailbox_exists s account mailbox then (true, s)
  else
    let levels := split SOLIDUS mailbox in
    if (MAX_AUTO_DEPTH <? length levels)%nat then (false, s)
    else if negb (is_plain_component account) || negb (folders_lock s account) then (false, s)
    else if mailbox_exists s account mailbox then (true, s)
    else
      let missing := length (List.filter (λ level, negb (mailbox_exists s account level)) (prefixes levels)) in
      if (MAX_AUTO_FOLDERS <? length (mailbox_list s account) + missing)%nat then (false, s)
      else
        let s := mailbox_create account mailbox s in
        (mailbox_exists s account mailbox, s).

End folders.

(** ** The script of the account (policy.rs) *)

Definition MAX_SCRIPT_BYTES : Z := 1048576.

Section policy.
Context {S : Type} `{MailStore S}.

(** [Some None]: the account has no script that runs. *)
Definition sieve_outcome (clock : Z) (s : S) (account : list Z) (message : AcceptedMessage) : option (option Outcome) :=
  if negb (is_plain_component account) then Some None
  else match filter_script s account with
       | None => Some None
       | Some (size, source) =>
           if MAX_SCRIPT_BYTES <? size then Some None
           else match source with
                | None => Some None
                | Some source =>
                    r ← tokenize source;
                    match r with
                    | Err _ => Some None
                    | Ok tokens =>
                        r ← SieveParser.parse tokens;
                        match r with
                        | Err _ => Some None
                        | Ok commands =>
                            let mailboxes := mailbox_list s account in
                            let parsed :=
                              with_mailboxes mailboxes
                                (with_envelope (msg_reverse_path message) (msg_recipients message)
                                  (SieveMessage.parse (msg_data message))) in
                            Some <$> evaluate clock commands parsed
                        end
                    end
                end
       end.

End policy.

(** ** Automatic replies (vacation/mod.rs and src/src/sieve/vacation/mod.rs) *)

Definition JMAP_VACATION_DAYS : Z := 7.

Definition ROBOTS : list (list Z) := [lit "mailer-daemon"; lit "listserv"; lit "majordomo"].

Definition LIST_HEADERS : list (list Z) :=
  [lit "list-id"; lit "list-help"; lit "list-subscribe"; lit "list-unsubscribe"; lit "list-post"; lit "list-owner"; lit "list-archive"].

Definition robot (sender : list Z) : bool :=
  let local := match rsplit_once AT sender with Some (local, _) => local | None => sender end in
  let local := to_ascii_lowercase local in
  existsb (str_eqb local) ROBOTS || starts_with (lit "owner-") local || ends_with (lit "-request") local.

Definition automated (header : list Z → option (list Z)) : bool :=
  let auto_submitted :=
    match header (lit "auto-submitted") with
    | Some value =>
        let keyword := trim (match split 59 value with k :: _ => k | [] => [] end) in
        negb (eq_ignore_ascii_case keyword (lit "no"))
    | None => false
    end in
  let precedence :=
    match header (lit "precedence") with
    | Some value => existsb (λ kind, eq_ignore_ascii_case (trim value) kind) [lit "bulk"; lit "list"; lit "junk"]
    | None => false
    end in
  auto_submitted || precedence || existsb (λ name, bool_decide (is_Some (header name))) LIST_HEADERS.

Fixpoint to_and_cc_loop (fields : list Z) (wanted : bool) (lines : list (list Z)) : list Z :=
  match lines with
  | [] => fields
  | line :: lines =>
      if folds line then to_and_cc_loop (if wanted then fields ++ line else fields) wanted lines
      else
        let '(name, value) := default (line, []) (split_once 58 line) in
        let wanted := existsb (λ field, eq_ignore_ascii_case (trim name) field) [lit "to"; lit "cc"] in
        to_and_cc_loop (if wanted then fields ++ 44 :: value else fields) wanted lines
  end.

Definition to_and_cc (headers : list Z) : list Z := to_ascii_lowercase (to_and_cc_loop [] false (str_lines headers)).

Definition is_atext_byte (b : Z) : bool := is_ascii_alphanumeric b || contains b ATEXT.
Definition is_local_part_byte (b : Z) : bool := is_atext_byte b || (b =? 46).
Definition is_domain_byte (b : Z) : bool := is_ascii_alphanumeric b || (b =? 45) || (b =? 46).

Definition apart (before after : option Z) : bool :=
  negb (match before with Some b => is_local_part_byte b | None => false end) &&
  negb (match after with Some b => is_domain_byte b | None => false end).

(** [match_indices]: the occurrences from the left that do not overlap. *)
Fixpoint names_loop (fuel : nat) (before : option Z) (bytes address : list Z) : bool :=
  match fuel with
  | O => false
  | Datatypes.S fuel =>
      match strip_prefix address bytes with
      | Some after => apart before (head after) || names_loop fuel (last address) after address
      | None =>
          match bytes with
          | b :: bytes => names_loop fuel (Some b) bytes address
          | [] => false
          end
      end
  end.

Definition names (fields address : list Z) : bool :=
  names_loop (Datatypes.S (length (as_bytes fields))) None (as_bytes fields) (as_bytes address).

Definition header_part (data : list Z) : list Z := take (default (length data) (window_position CRLFCRLF data)) data.

Definition owns (ld : LocalDelivery) (account delivered_to address : list Z) : bool :=
  eq_ignore_ascii_case address delivered_to || eq_ignore_ascii_case address account ||
  existsb (λ own, eq_ignore_ascii_case own address) (Directory.addresses_for (ld_directory ld) account).

Definition addressed (ld : LocalDelivery) (account delivered_to headers : list Z) : bool :=
  let fields := to_and_cc headers in
  existsb (λ address, names fields (to_ascii_lowercase address))
    (Directory.addresses_for (ld_directory ld) account ++ [delivered_to]).

Record VacationReply := mkVacationReply {
  v_reason : list Z;
  v_subject : option (list Z);
  v_from : option (list Z);
  v_user_address : list Z;
  v_html_body : option (list Z)
}.

Record Original := mkOriginal {
  og_subject : option (list Z);
  og_message_id : option (list Z);
  og_references : option (list Z)
}.

(** A list's fields on the copies of its members. *)
Record ListBlock := mkListBlock { lb_identity : list Z; lb_unsubscribe : option (list Z) }.

(** The writer of messages: a reply from its addresses, subject, references
    and bodies, and the fields of a list address. *)
Class Composer := {
  compose_reply : list Z → list Z → list Z → option (list Z * list (list Z)) → option (list Z) → option (list Z) →
    option (list Z);
  list_block : Directory.t → list Z → option ListBlock
}.

Definition build_response `{Composer} (v : VacationReply) (sender : list Z) (original : Original) : option AcceptedMessage :=
  let from := default (v_user_address v) (v_from v) in
  let subject :=
    match v_subject v with
    | Some subject => sanitize_header_value subject
    | None =>
        match og_subject original with
        | Some original => lit "Auto: " ++ sanitize_header_value original
        | None => lit "Auto: Re: your message"
        end
    end in
  let thread :=
    id ← og_message_id original ≫= (λ value, head (message_ids value));
    Some (id, reply_references (og_references original) id) in
  let text := if negb (is_empty (v_reason v)) || bool_decide (v_html_body v = None) then Some (v_reason v) else None in
  data ← compose_reply (sanitize_header_value from) (sanitize_header_value sender) subject thread text (v_html_body v);
  Some (SmtpSession.mkMessage [] [sender] data false None false false []).

Section replies.
Context {S : Type} `{MailStore S} `{Composer}.

Definition answer (ld : LocalDelivery) (account delivered_to : list Z) (message : AcceptedMessage)
    (v : VacationReply) (days : Z) (s : S) : option AcceptedMessage * S :=
  let sender := msg_reverse_path message in
  if negb (msg_sender_verified message) || is_empty sender || robot sender || owns ld account delivered_to sender
  then (None, s)
  else
    let headers := from_utf8_lossy (header_part (msg_data message)) in
    let header := header_value headers in
    if automated header || negb (addressed ld account delivered_to headers) then (None, s)
    else
      let '(due, s) := claim_reply account sender days s in
      if negb due then (None, s)
      else
        (build_response v sender (mkOriginal (header (lit "subject")) (header (lit "message-id")) (header (lit "references"))), s).

Definition vacation_reply (ld : LocalDelivery) (account delivered_to : list Z) (message : AcceptedMessage)
    (request : VacationRequest) (s : S) : option AcceptedMessage * S :=
  let from := match vr_from request with Some from => if owns ld account delivered_to from then Some from else None | None => None end in
  answer ld account delivered_to message
    (mkVacationReply (vr_reason request) (vr_subject request) from delivered_to None) (vr_days request) s.

Definition jmap_vacation_reply (ld : LocalDelivery) (account delivered_to : list Z) (message : AcceptedMessage)
    (setting : VacationSetting) (s : S) : option AcceptedMessage * S :=
  if negb (is_enabled setting) then (None, s)
  else
    answer ld account delivered_to message
      (mkVacationReply (default [] (text_body setting)) (vs_subject setting) None delivered_to (html_body setting))
      JMAP_VACATION_DAYS s.

Definition jmap_vacation (s : S) (account : list Z) : option VacationSetting :=
  match vacation_setting s account with
  | Some setting => if is_enabled setting then Some setting else None
  | None => None
  end.

Definition vacation_autoreply (ld : LocalDelivery) (now : Z) (account delivered_to : list Z) (message : AcceptedMessage)
    (sieve : option VacationRequest) (s : S) : option AcceptedMessage * S :=
  match jmap_vacation s account with
  | Some setting =>
      if is_within_window setting now then jmap_vacation_reply ld account delivered_to message setting s else (None, s)
  | None =>
      match sieve with
      | Some request => vacation_reply ld account delivered_to message request s
      | None => (None, s)
      end
  end.

End replies.

(** ** Recipients and lists (lists/mod.rs) *)

Definition UNSUBSCRIBE_FIELDS : list (list Z) := [lit "list-unsubscribe"; lit "list-unsubscribe-post"].

(** The accounts in the order of their names. *)
Notation Recipients := (list (list Z * (list Z * option ListBlock))).

(** [entry(account).or_insert_with], then the rule that a copy addressed to
    the account itself is no list post. *)
Fixpoint reach (account delivered_to : list Z) (list_ : option ListBlock) (m : Recipients) : Recipients :=
  match m with
  | [] => [(account, (delivered_to, list_))]
  | (a, (to, l)) :: m' =>
      match lex_compare (as_bytes account) (as_bytes a) with
      | Lt => (account, (delivered_to, list_)) :: m
      | Eq => (a, (to, if bool_decide (is_Some l) && bool_decide (list_ = None) then None else l)) :: m'
      | Gt => (a, (to, l)) :: reach account delivered_to list_ m'
      end
  end.

Section lists.
Context `{Composer}.

Fixpoint accounts_loop (d : Directory.t) (accounts : Recipients) (recipients : list (list Z)) : result SinkError Recipients :=
  match recipients with
  | [] => Ok accounts
  | recipient :: recipients =>
      match parse_address recipient with
      | Err _ => Err (Unavailable (lit "unparseable recipient " ++ recipient))
      | Ok address =>
          match Directory.final_recipients d address with
          | None =>
              let what := lit "recipient " ++ recipient ++ lit " no longer resolves to an account" in
              Err (if Directory.is_paused d address then Unavailable what else Gone what)
          | Some finals =>
              let list_ := list_block d (display_address address) in
              accounts_loop d (fold_left (λ m f, reach f.1 f.2 list_ m) finals accounts) recipients
          end
      end
  end.

Definition accounts_for (d : Directory.t) (message : AcceptedMessage) : result SinkError Recipients :=
  accounts_loop d [] (msg_recipients message).

End lists.

Definition listed_message (message : AcceptedMessage) (l : ListBlock) : option AcceptedMessage :=
  data ← strip_headers_in_place (msg_data message) [lit "list-id"; lit "list-post"];
  data ← keep_first_of_each_in_place data UNSUBSCRIBE_FIELDS;
  '(lines, data) ←
    match header_values data (lit "list-unsubscribe"), lb_unsubscribe l with
    | [], Some unsubscribe =>
        data ← strip_headers_in_place data [lit "list-unsubscribe-post"];
        Some (lb_identity l ++ unsubscribe, data)
    | _, _ => Some (lb_identity l, data)
    end;
  data ← prepend_header_block data lines;
  Some (SmtpSession.mkMessage (msg_reverse_path message) (msg_recipients message) data (msg_require_tls message)
          (msg_mailbox message) (msg_tlsrpt_verified message) (msg_sender_verified message) (msg_no_dsn message)).

(** A copy per list is built once; building it again gives the same. *)
Definition for_list (message : AcceptedMessage) (l : option ListBlock) : option AcceptedMessage :=
  match l with None => Some message | Some l => listed_message message l end.

(** ** Delivery to an account (mod.rs) *)

Section account.
Context {S : Type} `{MailStore S} `{Composer}.

(** The store and the copies stored so far; [None] is a panic. *)
Definition delivering (A : Type) : Type := S * nat → option (result SinkError A * (S * nat)).

Definition d_ret {A} (a : A) : delivering A := λ st, Some (Ok a, st).
Definition d_fail {A} (e : SinkError) : delivering A := λ st, Some (Err e, st).
Definition d_bind {A B} (m : delivering A) (k : A → delivering B) : delivering B := λ st,
  match m st with
  | Some (Ok a, st) => k a st
  | Some (Err e, st) => Some (Err e, st)
  | None => None
  end.

Definition store_copy (ld : LocalDelivery) (account : list Z) (mailbox : option (list Z)) (data : list Z)
    (flags : list (list Z)) : delivering unit := λ '(s, n),
  let over :=
    match limit_for (ld_directory ld) account (ld_default_quota ld) with
    | Some limit => limit <? saturating_add u64_max (account_usage s account) (Z.of_nat (length data))
    | None => false
    end in
  if over then Some (Err (MailboxFull account), (s, n))
  else
    let '(r, s) := deliver_to_account account mailbox data flags s in
    match r with
    | Ok _ => Some (Ok tt, (s, Datatypes.S n))
    | Err why => Some (Err (Unavailable why), (s, n))
    end.

(** The folders of the script, each once. *)
Fixpoint distinct_folders (folders : list (option (list Z))) (names : list (list Z)) : list (option (list Z)) :=
  match names with
  | [] => folders
  | name :: names =>
      let folder := sieve_mailbox name in
      distinct_folders (if existsb (λ f, bool_decide (f = folder)) folders then folders else folders ++ [folder]) names
  end.

(** The loop over the folders, with whether the message is in the inbox. *)
Fixpoint file_loop (store : option (list Z) → list (list Z) → delivering unit) (account : list Z) (flags : list (list Z))
    (kept : bool) (folders : list (list Z)) : delivering unit :=
  match folders with
  | [] => d_ret tt
  | folder :: folders => λ '(s, n),
      let '(there, s) :=
        if mailbox_exists s account folder then (true, s) else create_mailbox_within_limit account folder s in
      if there then
        d_bind (store (Some folder) flags) (λ _, file_loop store account flags kept folders) (s, n)
      else if kept then file_loop store account flags kept folders (s, n)
      else d_bind (store None flags) (λ _, file_loop store account flags true folders) (s, n)
  end.

Definition autoreply (ld : LocalDelivery) (now : Z) (account delivered_to : list Z) (message : AcceptedMessage)
    (sieve : option VacationRequest) : delivering (list AcceptedMessage) := λ '(s, n),
  let '(r, s) := vacation_autoreply ld now account delivered_to message sieve s in
  Some (Ok (match r with Some reply => [reply] | None => [] end), (s, n)).

(** No script runs: the inbox, unless the account only forwards. *)
Definition deliver_unfiltered (ld : LocalDelivery) (now : Z) (account delivered_to : list Z) (message : AcceptedMessage)
    (store : option (list Z) → list (list Z) → delivering unit) (forwards : list (list Z)) (keep_local : bool)
    : delivering Delivered :=
  match forwarding_loop message delivered_to forwards with
  | Some looped => d_ret looped
  | None =>
      d_bind (if keep_local || bool_decide (forwards = []) then store None [] else d_ret tt) (λ _,
      d_bind (autoreply ld now account delivered_to message None) (λ replies,
      d_ret (mkDelivered [] (to_redirects forwards delivered_to) None replies [])))
  end.

(** The outcome of the script carried out. *)
Definition deliver_filtered (ld : LocalDelivery) (now : Z) (account delivered_to : list Z) (message : AcceptedMessage)
    (store : option (list Z) → list (list Z) → delivering unit) (forwards : list (list Z)) (outcome : Outcome)
    : delivering Delivered :=
  match o_reject outcome with
  | Some reason =>
      let reject := if negb (is_empty (msg_reverse_path message)) then Some reason else None in
      d_ret (mkDelivered [] [] reject [] [])
  | None =>
      let requested := if is_empty (msg_reverse_path message) then [] else o_redirects outcome in
      let '(targets, unusable) := deliverable requested in
      let keep := o_keep outcome || (0 <? unusable)%nat in
      let targets := targets ++ forwards in
      match forwarding_loop message delivered_to targets with
      | Some looped => d_ret looped
      | None =>
          let folders := distinct_folders [] (o_fileinto outcome) in
          let kept := keep || existsb (λ f, bool_decide (f = None)) folders in
          d_bind (if kept then store None (o_flags outcome) else d_ret tt) (λ _,
          d_bind (file_loop store account (o_flags outcome) kept (omap id folders)) (λ _,
          d_bind (autoreply ld now account delivered_to message (o_vacation outcome)) (λ replies,
          d_ret (mkDelivered [] (to_redirects targets delivered_to) None replies []))))
      end
  end.

Definition deliver_for_account (ld : LocalDelivery) (clock now : Z) (account delivered_to : list Z)
    (message : AcceptedMessage) (hint : option (list Z)) : delivering Delivered := λ st,
  let data := final_copy (msg_reverse_path message) delivered_to (msg_data message) in
  let store mailbox flags := store_copy ld account mailbox data flags in
  match hint with
  | Some mailbox => d_bind (store (Some mailbox) []) (λ _, d_ret delivered_default) st
  | None =>
      let '(forwards, keep_local) := account_forwards ld account message in
      match sieve_outcome clock st.1 account message with
      | None => None
      | Some None => deliver_unfiltered ld now account delivered_to message store forwards keep_local st
      | Some (Some outcome) => deliver_filtered ld now account delivered_to message store forwards outcome st
      end
  end.

(** ** Delivery of a message *)

Definition MAX_HEADER_FIELDS : nat := 9900.

Fixpoint deliver_all (ld : LocalDelivery) (clock now : Z) (message : AcceptedMessage) (mailbox : option (list Z))
    (accounts : Recipients) (delivered : Delivered) (refused : nat) : delivering (Delivered * nat) :=
  match accounts with
  | [] => d_ret (delivered, refused)
  | (account, (delivered_to, l)) :: accounts => λ st,
      match for_list message l with
      | None => None
      | Some copy =>
          match deliver_for_account ld clock now account delivered_to copy mailbox st with
          | None => None
          | Some (Ok one, st) =>
              deliver_all ld clock now message mailbox accounts
                (mkDelivered (over_quota delivered) (redirects delivered ++ redirects one)
                   (match reject delivered with Some r => Some r | None => reject one end)
                   (replies delivered ++ replies one) (looped delivered ++ looped one)) refused st
          | Some (Err (MailboxFull _), st) =>
              deliver_all ld clock now message mailbox accounts
                (mkDelivered (over_quota delivered ++ [delivered_to]) (redirects delivered) (reject delivered)
                   (replies delivered) (looped delivered)) (Datatypes.S refused) st
          | Some (Err e, st) => Some (Err e, st)
          end
      end
  end.

Definition deliver_routed (ld : LocalDelivery) (clock now : Z) (message : AcceptedMessage) (mailbox : option (list Z))
    (s : S) : option (result SinkError Delivered * S) :=
  if (MAX_HEADER_FIELDS <? field_count (msg_data message))%nat then Some (Err TooManyHeaderFields, s)
  else if match mailbox with Some name => negb (is_safe_mailbox name) | None => false end
  then Some (Err (Unavailable (lit "unsafe mailbox name")), s)
  else match accounts_for (ld_directory ld) message with
       | Err e => Some (Err e, s)
       | Ok [] => Some (Err (Unavailable (lit "no recipient accounts")), s)
       | Ok accounts =>
           match deliver_all ld clock now message mailbox accounts delivered_default 0 (s, 0%nat) with
           | None => None
           | Some (Err e, (s, _)) => Some (Err e, s)
           | Some (Ok (delivered, refused), (s, stored)) =>
               if (refused =? length accounts)%nat && (stored =? 0)%nat then
                 match over_quota delivered with
                 | to :: _ => Some (Err (MailboxFull to), s)
                 | [] => None
                 end
               else Some (Ok delivered, s)
           end
       end.

End account.
End delivery.

(** ** What a delivery does to the store *)

Section theory.
Context `{UC : Unicode} `{MO : MapOrder} {S : Type} `{MS : MailStore S} `{ML : !MailStoreLaws S} `{CO : Composer}.

(** The account has [new] more, everything else is as before. *)
Record added (account : list Z) (new : list Copy) (st st' : S * nat) : Prop := {
  added_copies a : copies st'.1 a = if str_eqb a account then copies st.1 a ++ new else copies st.1 a;
  added_count : st'.2 = (st.2 + length new)%nat
}.

Lemma added_nil account st st' : copies st'.1 = copies st.1 → st'.2 = st.2 → added account [] st st'.
Proof. intros Hc Hn. split; [|cbn; lia]. intros a. rewrite Hc, app_nil_r. by destruct (str_eqb a account). Qed.

Lemma added_trans account new1 new2 st st1 st2 :
  added account new1 st st1 → added account new2 st1 st2 → added account (new1 ++ new2) st st2.
Proof.
  intros [H1 N1] [H2 N2]. split; [|rewrite length_app; lia]. intros a. rewrite H2, H1.
  destruct (str_eqb a account); [by rewrite app_assoc|done].
Qed.

(** [m] answers; whatever it answers, it only added copies of [data] to the
    account, at most [most] of them, and at least [least] if it succeeded. *)
Definition adds {A} (account data : list Z) (least most : nat) (m : delivering A) (Q : A → Prop) : Prop :=
  ∀ st, ∃ r st' new, m st = Some (r, st') ∧ added account new st st' ∧ Forall (λ c, cp_data c = data) new ∧
    (length new ≤ most)%nat ∧ match r with Ok a => (least ≤ length new)%nat ∧ Q a | Err _ => True end.

Lemma adds_ret {A} account data (a : A) (Q : A → Prop) : Q a → adds account data 0 0 (d_ret a) Q.
Proof. intros HQ st. exists (Ok a), st, []. split_and!; [done|by apply added_nil|by constructor|cbn; lia|cbn; lia|done]. Qed.

Lemma adds_weaken {A} account data l l' m m' (f : delivering A) (Q Q' : A → Prop) :
  adds account data l m f Q → (l' ≤ l)%nat → (m ≤ m')%nat → (∀ a, Q a → Q' a) → adds account data l' m' f Q'.
Proof.
  intros Hf Hl Hm HQ st. destruct (Hf st) as (r & st' & new & Heq & Hadd & Hd & Hmost & Hr). exists r, st', new.
  split_and!; try done; [lia|]. destruct r; [|done]. destruct Hr. split; [lia|auto].
Qed.

Lemma adds_bind {A B} account data l1 l2 m1 m2 (f : delivering A) (k : A → delivering B) (P : A → Prop) (Q : B → Prop) :
  adds account data l1 m1 f P → (∀ a, P a → adds account data l2 m2 (k a) Q) →
  adds account data (l1 + l2) (m1 + m2) (d_bind f k) Q.
Proof.
  intros Hf Hk st. destruct (Hf st) as (r & st1 & new1 & Heq1 & Hadd1 & Hd1 & Hm1 & Hr1). unfold d_bind. rewrite Heq1.
  destruct r as [a|e]; [|exists (Err e), st1, new1; split_and!; try done; lia]. destruct Hr1 as [Hl1 HP].
  destruct (Hk a HP st1) as (r & st2 & new2 & Heq2 & Hadd2 & Hd2 & Hm2 & Hr2). exists r, st2, (new1 ++ new2).
  split_and!; [done|by eapply added_trans|by apply Forall_app|rewrite length_app; lia|].
  destruct r; [|done]. destruct Hr2. rewrite length_app. split; [lia|done].
Qed.

Lemma adds_store ld account mailbox data flags :
  adds account data 1 1 (store_copy ld account mailbox data flags) (λ _, True).
Proof.
  intros [s n]. unfold store_copy. destruct (match limit_for _ _ _ with Some _ => _ | None => _ end).
  { exists (Err (MailboxFull account)), (s, n), []. split_and!; [done|by apply added_nil|constructor|cbn; lia|done]. }
  destruct (deliver_to_account account mailbox data flags s) as [[[]|why] s'] eqn:Hd.
  - exists (Ok tt), (s', Datatypes.S n), [mkCopy mailbox data flags]. split_and!; [done| |by repeat constructor|cbn; lia|cbn; lia|done].
    split; [by apply deliver_ok|cbn; lia].
  - exists (Err (Unavailable why)), (s', n), []. split_and!; [done| |constructor|cbn; lia|done].
    apply added_nil; [by eapply deliver_err|done].
Qed.

Lemma vacation_autoreply_copies ld now account delivered_to message sieve s :
  copies (vacation_autoreply ld now account delivered_to message sieve s).2 = copies s.
Proof.
  assert (Ha : ∀ v days, copies (answer ld account delivered_to message v days s).2 = copies s).
  { intros v days. unfold answer. destruct (_ || _); [done|]. destruct (_ || _); [done|].
    pose proof (claim_copies account (msg_reverse_path message) days s) as Hc.
    destruct (claim_reply _ _ _ _) as [due s']. cbn [snd] in Hc. by destruct due. }
  unfold vacation_autoreply. destruct (jmap_vacation s account) as [setting|].
  - destruct (is_within_window setting now); [|done]. unfold jmap_vacation_reply. destruct (is_enabled setting); [apply Ha|done].
  - destruct sieve; [apply Ha|done].
Qed.

(** A reply has the null sender, goes to the sender of the message, and there
    is none to a null sender. *)
Lemma vacation_autoreply_shape ld now account delivered_to message sieve s reply :
  (vacation_autoreply ld now account delivered_to message sieve s).1 = Some reply →
  msg_reverse_path message ≠ [] ∧ msg_sender_verified message = true ∧
  msg_reverse_path reply = [] ∧ msg_recipients reply = [msg_reverse_path message].
Proof.
  assert (Ha : ∀ v days, (answer ld account delivered_to message v days s).1 = Some reply →
    msg_reverse_path message ≠ [] ∧ msg_sender_verified message = true ∧
    msg_reverse_path reply = [] ∧ msg_recipients reply = [msg_reverse_path message]).
  { intros v days. unfold answer. destruct (msg_sender_verified message); cbn [negb orb]; [|done].
    destruct (msg_reverse_path message) as [|c rp] eqn:Hrp; cbn [is_empty orb]; [done|].
    destruct (_ || _); [done|]. destruct (_ || _); [done|]. destruct (claim_reply _ _ _ _) as [due s'].
    destruct due; cbn [negb fst]; [|done]. unfold build_response. destruct (compose_reply _ _ _ _ _ _); [|done].
    cbn [mbind option_bind]. intros [= <-]. done. }
  unfold vacation_autoreply. destruct (jmap_vacation s account) as [setting|].
  - destruct (is_within_window setting now); [|done]. unfold jmap_vacation_reply. destruct (is_enabled setting); [apply Ha|done].
  - destruct sieve; [apply Ha|done].
Qed.

(** What is said of the replies to a message. *)
Record replies_ok (message : AcceptedMessage) (l : list AcceptedMessage) : Prop := {
  ro_shape : Forall (λ reply, msg_reverse_path reply = [] ∧ msg_recipients reply = [msg_reverse_path message]) l;
  ro_null : msg_reverse_path message = [] → l = []
}.

Lemma adds_autoreply ld now account delivered_to data message sieve :
  adds account data 0 0 (autoreply ld now account delivered_to message sieve) (replies_ok message).
Proof.
  intros [s n]. unfold autoreply. pose proof (vacation_autoreply_copies ld now account delivered_to message sieve s) as Hc.
  pose proof (vacation_autoreply_shape ld now account delivered_to message sieve s) as Hs.
  destruct (vacation_autoreply _ _ _ _ _ _ _) as [r s']. cbn [fst snd] in *.
  exists (Ok (match r with Some reply => [reply] | None => [] end)), (s', n), [].
  split_and!; [done|by apply added_nil|by constructor|cbn; lia|cbn; lia|].
  destruct r as [reply|]; [|by split; [constructor|]]. destruct (Hs reply eq_refl) as (Hne & _ & Hrp & Hto).
  split; [by repeat constructor|done].
Qed.

(** Each folder takes a copy, or the inbox does, once. *)
Lemma adds_file_loop (store : option (list Z) → list (list Z) → delivering (S := S) unit)
    (account data : list Z) (flags : list (list Z)) (kept : bool) (folders : list (list Z)) :
  (∀ mailbox, adds account data 1 1 (store mailbox flags) (λ _, True)) →
  adds account data (if kept then 0 else Nat.min 1 (length folders))%nat (length folders)
    (file_loop store account flags kept folders) (λ _, True).
Proof.
  intros Hst. revert kept. induction folders as [|f fs IH]; intros kept.
  { eapply adds_weaken; [by apply (adds_ret _ _ tt (λ _, True))|by destruct kept|done|done]. }
  intros [s n]. cbn [file_loop].
  set (there := if mailbox_exists s account f then (true, s) else create_mailbox_within_limit account f s).
  assert (Hcopies : copies there.2 = copies s).
  { subst there. destruct (mailbox_exists s account f); [done|]. unfold create_mailbox_within_limit.
    repeat (destruct (_ : bool); cbn [snd]; [done|]). cbv zeta. repeat case_match; cbn [snd]; try done. apply create_copies. }
  clearbody there. destruct there as [ok s1]. cbn [snd] in Hcopies.
  assert (Hstep : ∀ l m (g : delivering unit), adds account data l m g (λ _, True) →
    ∃ r st' new, g (s1, n) = Some (r, st') ∧ added account new (s, n) st' ∧ Forall (λ c, cp_data c = data) new ∧
      (length new ≤ m)%nat ∧ match r with Ok a => (l ≤ length new)%nat ∧ True | Err _ => True end).
  { intros l m g Hg. destruct (Hg (s1, n)) as (r & st' & new & Heq & [Hc Hn] & Hrest). exists r, st', new.
    split; [done|]. split; [|done]. constructor; [|done]. intros a. rewrite Hc. cbn [fst]. by rewrite Hcopies. }
  destruct ok; [|destruct kept].
  - eapply Hstep, adds_weaken; [eapply adds_bind; [apply Hst|intros _ _; apply IH]|destruct kept; cbn; lia|cbn; lia|done].
  - eapply Hstep, adds_weaken; [apply (IH true)|lia|cbn; lia|done].
  - eapply Hstep, adds_weaken; [eapply adds_bind; [apply Hst|intros _ _; apply (IH true)]|cbn; lia|cbn; lia|done].
Qed.

Lemma distinct_folders_spec folders names :
  (length (distinct_folders folders names) ≤ length folders + length names)%nat ∧
  (names ≠ [] ∨ folders ≠ [] → distinct_folders folders names ≠ []).
Proof.
  revert folders. induction names as [|name names IH]; intros folders; cbn [distinct_folders length]; [split; [lia|naive_solver]|].
  destruct (existsb _ folders) eqn:He.
  - destruct (IH folders) as [Hl Hn]. split; [lia|]. intros _. apply Hn. right. by destruct folders.
  - destruct (IH (folders ++ [sieve_mailbox name])) as [Hl Hn]. rewrite length_app in Hl. cbn [length] in Hl.
    split; [lia|]. intros _. apply Hn. right. apply app_single_not_nil.
Qed.

Lemma omap_id_length {A} (l : list (option A)) : (length (omap id l) ≤ length l)%nat.
Proof. induction l as [|[a|] l IH]; cbn; lia. Qed.

Lemma omap_id_nonempty {A} `{EqDecision A} (l : list (option A)) :
  l ≠ [] → existsb (λ f, bool_decide (f = None)) l = false → omap id l ≠ [].
Proof. destruct l as [|[a|] l]; done. Qed.

(** Every target is taken over as an address, or counted as unusable. *)
Lemma deliverable_loop_spec valid invalid targets :
  Forall (λ to, ∃ raw a, parse_address raw = Ok a ∧ to = display_address a) valid →
  let '(valid', invalid') := deliverable_loop valid invalid targets in
  Forall (λ to, ∃ raw a, parse_address raw = Ok a ∧ to = display_address a) valid' ∧
  (targets ≠ [] ∨ valid ≠ [] ∨ (0 < invalid)%nat → valid' ≠ [] ∨ (0 < invalid')%nat).
Proof.
  revert valid invalid. induction targets as [|t targets IH]; intros valid invalid Hv; cbn [deliverable_loop].
  { split; [done|naive_solver]. }
  destruct (parse_address t) as [a|e] eqn:Hp.
  - destruct (existsb _ valid) eqn:He.
    + specialize (IH valid invalid Hv). destruct (deliverable_loop _ _ _). destruct IH as [H1 H2]. split; [done|].
      intros _. apply H2. right. left. by destruct valid.
    + specialize (IH (valid ++ [display_address a]) invalid).
      destruct (deliverable_loop _ _ _). destruct IH as [H1 H2]; [apply Forall_app; split; [done|]; constructor; [|done]; eauto|].
      split; [done|]. intros _. apply H2. right. left. apply app_single_not_nil.
  - specialize (IH valid (Datatypes.S invalid) Hv). destruct (deliverable_loop _ _ _). destruct IH as [H1 H2]. split; [done|].
    intros _. apply H2. right. right. lia.
Qed.

Lemma sieve_outcome_ok clock (s : S) account message :
  ∃ r, sieve_outcome clock s account message = Some r ∧ ∀ o, r = Some o → outcome_ok o ∧ accounted o.
Proof.
  unfold sieve_outcome. destruct (is_plain_component account); cbn [negb]; [|by exists None].
  destruct (filter_script s account) as [[size source]|]; [|by exists None].
  destruct (MAX_SCRIPT_BYTES <? size); [by exists None|]. destruct source as [source|]; [|by exists None].
  destruct (tokenize_total source) as [r ->]. cbn [mbind option_bind]. destruct r as [tokens|e]; [|by exists None].
  destruct (parse_total tokens) as [r ->]. cbn [mbind option_bind]. destruct r as [commands|e]; [|by exists None].
  destruct (evaluate_ok clock commands (with_mailboxes (mailbox_list s account)
    (with_envelope (msg_reverse_path message) (msg_recipients message) (SieveMessage.parse (msg_data message)))))
    as (o & -> & Hok & Hacc); [apply with_mailboxes_ok, with_envelope_ok, parse_ok|].
  exists (Some o). split; [done|]. by intros ? [= <-].
Qed.

(** What the caller is asked to send. *)
Record delivered_ok (forwards : list (list Z)) (message : AcceptedMessage) (delivered_to : list Z) (d : Delivered) : Prop := {
  do_targets : Forall (λ r, rd_delivered_to r = delivered_to ∧
    (rd_to r ∈ forwards ∨ ∃ raw a, parse_address raw = Ok a ∧ rd_to r = display_address a)) (redirects d);
  do_replies : Forall (λ reply, msg_reverse_path reply = [] ∧ msg_recipients reply = [msg_reverse_path message]) (replies d);
  do_null : msg_reverse_path message = [] → redirects d = [] ∧ reject d = None ∧ replies d = [] ∧ looped d = [];
  do_quota : over_quota d = []
}.

(** The message went on, or back. *)
Definition sent_on (delivered_to : list Z) (d : Delivered) : Prop :=
  redirects d ≠ [] ∨ is_Some (reject d) ∨ looped d = [delivered_to].

(** The script dropped the message, or asked to send on mail that has no
    sender. *)
Definition excused (message : AcceptedMessage) (o : Outcome) : Prop :=
  o_discarded o = true ∨ (msg_reverse_path message = [] ∧ (o_redirects o ≠ [] ∨ is_Some (o_reject o))).

Lemma account_forwards_null ld account message :
  msg_reverse_path message = [] → (account_forwards ld account message).1 = [].
Proof. intros Hrp. unfold account_forwards. destruct (forwards ld account) as [[ts k]|]; [|done]. by rewrite Hrp. Qed.

Lemma to_redirects_ok fs valid delivered_to :
  Forall (λ to, ∃ raw a, parse_address raw = Ok a ∧ to = display_address a) valid →
  Forall (λ r, rd_delivered_to r = delivered_to ∧
    (rd_to r ∈ fs ∨ ∃ raw a, parse_address raw = Ok a ∧ rd_to r = display_address a))
    (to_redirects (valid ++ fs) delivered_to).
Proof.
  intros Hv. unfold to_redirects. apply Forall_map, Forall_app. split.
  - eapply Forall_impl; [exact Hv|]. cbn. naive_solver.
  - apply Forall_forall. cbn. auto.
Qed.

Lemma forwarding_loop_ok fs message delivered_to targets d :
  (msg_reverse_path message = [] → targets = []) → forwarding_loop message delivered_to targets = Some d →
  delivered_ok fs message delivered_to d ∧ looped d = [delivered_to].
Proof.
  unfold forwarding_loop. intros Hnull. destruct (_ || _) eqn:Hc; [done|]. intros [= <-].
  apply orb_false_iff in Hc as [Hne%bool_decide_eq_false _]. split; [|done].
  constructor; cbn; [by constructor|by constructor| |done]. intros Hrp. by apply Hnull in Hrp.
Qed.

Lemma sent_delivered_ok fs valid message delivered_to l :
  Forall (λ to, ∃ raw a, parse_address raw = Ok a ∧ to = display_address a) valid →
  (msg_reverse_path message = [] → valid ++ fs = []) → replies_ok message l →
  delivered_ok fs message delivered_to (mkDelivered [] (to_redirects (valid ++ fs) delivered_to) None l []).
Proof.
  intros Hv Hnull [Hl Hlnull]. constructor; cbn; [by apply to_redirects_ok|done| |done].
  intros Hrp. by rewrite Hnull, Hlnull.
Qed.

Lemma adds_unfiltered ld now account delivered_to message store data fs keep_local :
  (∀ mailbox flags, adds account data 1 1 (store mailbox flags) (λ _, True)) →
  (msg_reverse_path message = [] → fs = []) →
  ∃ least, adds account data least 1 (deliver_unfiltered ld now account delivered_to message store fs keep_local)
    (λ d, delivered_ok fs message delivered_to d ∧ (least = 1%nat ∨ sent_on delivered_to d)).
Proof.
  intros Hst Hnull. unfold deliver_unfiltered. destruct (forwarding_loop message delivered_to fs) as [d|] eqn:Hl.
  { exists 0%nat. eapply adds_weaken; [apply (adds_ret _ _ d (λ x, x = d)); done|done|lia|]. intros ? ->.
    destruct (forwarding_loop_ok fs _ _ _ _ Hnull Hl) as [Hok Hlo]. split; [done|]. right. right. by right. }
  set (stores := keep_local || bool_decide (fs = [])). set (least := (if stores then 1 else 0)%nat). exists least.
  eapply (adds_weaken _ _ (least + 0) _ (1 + 0)); [|lia|lia|intros d Hq; exact Hq].
  eapply (adds_bind _ _ _ _ _ _ _ _ (λ _, True)).
  - subst least. destruct stores; [apply Hst|]. eapply adds_weaken; [by apply (adds_ret _ _ tt (λ _, True))|done|lia|done].
  - intros _ _. eapply (adds_bind _ _ 0 0 0 0); [apply adds_autoreply|]. intros l Hr. apply adds_ret.
    split; [by apply (sent_delivered_ok fs [])|]. subst least. destruct stores eqn:E; [by left|right; left].
    subst stores. apply orb_false_iff in E as [_ E%bool_decide_eq_false]. by destruct fs.
Qed.

(** A message no copy of which was stored was sent on or dropped by the
    script. *)
Lemma adds_filtered ld now account delivered_to message store data fs o :
  (∀ mailbox flags, adds account data 1 1 (store mailbox flags) (λ _, True)) →
  (msg_reverse_path message = [] → fs = []) → outcome_ok o → accounted o →
  ∃ least, adds account data least 9 (deliver_filtered ld now account delivered_to message store fs o)
    (λ d, delivered_ok fs message delivered_to d ∧ (least = 1%nat ∨ sent_on delivered_to d ∨ excused message o)).
Proof.
  intros Hst Hnull Hok Hacc. unfold deliver_filtered. destruct (o_reject o) as [reason|] eqn:Hrej.
  { exists 0%nat. eapply (adds_weaken _ _ 0 _ 0); [|done|lia|intros d Hq; exact Hq]. apply adds_ret. split.
    - constructor; cbn; [by constructor|by constructor| |done]. intros ->. done.
    - right. destruct (msg_reverse_path message) as [|c rp] eqn:Hrp; [|left; right; left; by eexists].
      right. right. split; [done|]. right. by eexists. }
  set (requested := if is_empty (msg_reverse_path message) then [] else o_redirects o).
  pose proof (deliverable_loop_spec [] 0 requested ltac:(constructor)) as Hd. fold (deliverable requested) in Hd.
  destruct (deliverable requested) as [valid unusable] eqn:Hdel. destruct Hd as [Hvalid Hused].
  assert (Hnull' : msg_reverse_path message = [] → valid ++ fs = []).
  { intros Hrp. rewrite (Hnull Hrp). subst requested. rewrite Hrp in Hdel. by injection Hdel as <- <-. }
  destruct (forwarding_loop message delivered_to (valid ++ fs)) as [d|] eqn:Hl.
  { exists 0%nat. eapply adds_weaken; [apply (adds_ret _ _ d (λ x, x = d)); done|done|lia|]. intros ? ->.
    destruct (forwarding_loop_ok fs _ _ _ _ Hnull' Hl) as [Hdok Hlo]. split; [done|]. right. left. right. by right. }
  set (folders := distinct_folders [] (o_fileinto o)).
  set (kept := o_keep o || (0 <? unusable)%nat || existsb (λ f, bool_decide (f = None)) folders).
  destruct (distinct_folders_spec [] (o_fileinto o)) as [Hlen Hne]. fold folders in Hlen, Hne.
  pose proof (oo_fileinto o Hok) as H8. pose proof (omap_id_length folders) as Hom. cbn [length] in Hlen. unfold MAX_FILEINTO in H8.
  set (least := ((if kept then 1 else 0) + (if kept then 0 else Nat.min 1 (length (omap id folders))))%nat). exists least.
  eapply (adds_weaken _ _ (least + 0) _ (1 + (8 + 0))); [|lia|lia|intros d Hq; exact Hq].
  assert (Hsplit : (least + 0)%nat = ((if kept then 1 else 0) + ((if kept then 0 else Nat.min 1 (length (omap id folders))) + 0))%nat)
    by (subst least; lia). rewrite Hsplit.
  eapply (adds_bind _ _ _ _ _ _ _ _ (λ _, True)).
  { destruct kept; [apply Hst|]. eapply adds_weaken; [by apply (adds_ret _ _ tt (λ _, True))|done|lia|done]. }
  intros _ _. eapply (adds_bind _ _ _ _ _ _ _ _ (λ _, True)).
  { eapply adds_weaken; [apply adds_file_loop; intros mailbox; apply Hst|done|lia|done]. }
  intros _ _. eapply (adds_bind _ _ 0 0 0 0); [apply adds_autoreply|]. intros l Hr. apply adds_ret.
  split; [by apply sent_delivered_ok|].
  destruct kept eqn:Hkept; [left; subst least; done|]. subst kept. rewrite !orb_false_iff in Hkept.
  destruct Hkept as [[Hkeep Hunused%Nat.ltb_ge] Hnone]. destruct Hacc as [?|[Hdisc|[Hfile|[Hredir|Hrej']]]].
  - congruence.
  - right. right. by left.
  - left. subst least. assert (omap id folders ≠ []) by (apply omap_id_nonempty; auto).
    destruct (omap id folders); [done|]. cbn. lia.
  - right. destruct (msg_reverse_path message) as [|c rp] eqn:Hrp; [right; right; split; [done|by left]|left; left].
    subst requested. cbn [is_empty] in Hused. destruct Hused as [Hv|]; [by left| |lia].
    cbn. unfold to_redirects. by destruct valid.
  - rewrite Hrej in Hrej'. by destruct Hrej'.
Qed.

(** ** One account *)

(** What became of a message for an account: a copy more, or sent on or back,
    or the script dropped it. *)
Definition settled (clock : Z) (s : S) (account delivered_to : list Z) (message : AcceptedMessage) (new : list Copy)
    (d : Delivered) : Prop :=
  new ≠ [] ∨ sent_on delivered_to d ∨
  ∃ o, sieve_outcome clock s account message = Some (Some o) ∧ excused message o.

Lemma adds_nonempty {A} (l : list A) : (1 ≤ length l)%nat → l ≠ [].
Proof. destruct l; [cbn; lia|done]. Qed.

Lemma deliver_for_account_ok ld clock now account delivered_to message hint st :
  ∃ r st' new, deliver_for_account ld clock now account delivered_to message hint st = Some (r, st') ∧
    added account new st st' ∧
    Forall (λ c, cp_data c = final_copy (msg_reverse_path message) delivered_to (msg_data message)) new ∧
    (length new ≤ 9)%nat ∧
    ∀ d, r = Ok d → delivered_ok (account_forwards ld account message).1 message delivered_to d ∧
      settled clock st.1 account delivered_to message new d.
Proof.
  unfold deliver_for_account. set (data := final_copy _ _ _).
  pose proof (account_forwards_null ld account message) as Hnull.
  pose proof (λ mailbox flags, adds_store ld account mailbox data flags) as Hst.
  destruct hint as [mailbox|].
  { pose proof (adds_bind account data 1 0 1 0 _ (λ _, d_ret delivered_default) _ (λ d, d = delivered_default)
      (Hst (Some mailbox) []) (λ _ _, adds_ret _ _ _ _ eq_refl)) as Hb.
    destruct (Hb st) as (r & st' & new & Heq & Hadd & Hd & Hm & Hr). exists r, st', new. split_and!; try done; [lia|].
    intros d ->. destruct Hr as [Hl ->]. split; [|left; apply adds_nonempty; lia].
    constructor; cbn; try done; by constructor. }
  destruct (account_forwards ld account message) as [fs keep_local]. cbn [fst] in Hnull.
  destruct (sieve_outcome_ok clock st.1 account message) as (out & Hs & Hok). rewrite Hs. destruct out as [o|].
  - destruct (Hok o eq_refl) as [Hout Hacc].
    destruct (adds_filtered ld now account delivered_to message _ data fs o Hst Hnull Hout Hacc) as (least & Hadds).
    destruct (Hadds st) as (r & st' & new & Heq & Hadd & Hd & Hm & Hr). exists r, st', new. split_and!; try done.
    intros d ->. destruct Hr as (Hl & Hdok & Hfate). split; [done|].
    destruct Hfate as [->|[Hsent|Hex]]; [left; apply adds_nonempty; lia|by right; left|right; right; by exists o].
  - destruct (adds_unfiltered ld now account delivered_to message _ data fs keep_local Hst Hnull) as (least & Hadds).
    destruct (Hadds st) as (r & st' & new & Heq & Hadd & Hd & Hm & Hr). exists r, st', new. split_and!; try done; [lia|].
    intros d ->. destruct Hr as (Hl & Hdok & Hfate). split; [done|].
    destruct Hfate as [->|Hsent]; [left; apply adds_nonempty; lia|by right; left].
Qed.

(** ** All accounts *)

Lemma listed_message_total message l :
  ∃ copy, listed_message message l = Some copy ∧ msg_reverse_path copy = msg_reverse_path message.
Proof.
  unfold listed_message, strip_headers_in_place, keep_first_of_each_in_place. rewrite rewrite_in_place_spec.
  cbn [mbind option_bind]. rewrite rewrite_in_place_spec. cbn [mbind option_bind].
  set (data := rewrite_header_block _ _ _). clearbody data.
  assert (Hp : ∀ data lines, is_Some (prepend_header_block data lines)).
  { intros dt lines. unfold prepend_header_block. destruct (is_empty lines); [done|]. by rewrite prepend_in_place_spec. }
  destruct (header_values data (lit "list-unsubscribe")), (lb_unsubscribe l); rewrite ?rewrite_in_place_spec; cbn [mbind option_bind];
    match goal with |- context [prepend_header_block ?a ?b] => destruct (Hp a b) as [out ->] end; cbn [mbind option_bind]; by eexists.
Qed.

Lemma for_list_total message l :
  ∃ copy, for_list message l = Some copy ∧ msg_reverse_path copy = msg_reverse_path message.
Proof. destruct l; [apply listed_message_total|by exists message]. Qed.

(** ** Who a recipient reaches *)

Lemma lex_compare_eq a b : lex_compare a b = Eq ↔ a = b.
Proof.
  revert b. induction a as [|x a IH]; intros [|y b]; cbn; try done.
  destruct (Z.compare_spec x y) as [->|H|H]; [rewrite IH; naive_solver|split; [done|intros [= -> ->]; lia]..].
Qed.

Lemma reach_keys account delivered_to l m :
  ∀ a, a ∈ map fst (reach account delivered_to l m) ↔ a = account ∨ a ∈ map fst m.
Proof.
  induction m as [|[x [to lx]] m IH]; intros a; cbn [reach map fst]; [rewrite list_elem_of_singleton, elem_of_nil; naive_solver|].
  destruct (lex_compare _ _) eqn:E; cbn [map fst]; rewrite !elem_of_cons.
  - apply lex_compare_eq, as_bytes_inj in E as ->. naive_solver.
  - naive_solver.
  - rewrite IH. naive_solver.
Qed.

Lemma reach_all_keys l finals m :
  ∀ a, a ∈ map fst (fold_left (λ m f, reach f.1 f.2 l m) finals m) ↔ a ∈ map fst finals ∨ a ∈ map fst m.
Proof.
  revert m. induction finals as [|f finals IH]; intros m a; cbn [fold_left map]; [rewrite elem_of_nil; naive_solver|].
  rewrite IH, reach_keys, elem_of_cons. naive_solver.
Qed.

(** Every account a recipient stands for is delivered to. *)
Lemma accounts_loop_complete d accounts recipients out :
  accounts_loop d accounts recipients = Ok out →
  map fst accounts ⊆ map fst out ∧
  ∀ r, r ∈ recipients → ∃ a finals, parse_address r = Ok a ∧ Directory.final_recipients d a = Some finals ∧ map fst finals ⊆ map fst out.
Proof.
  revert accounts. induction recipients as [|r rs IH]; intros accounts; cbn [accounts_loop].
  { intros [= <-]. split; [done|]. by intros r ?%elem_of_nil. }
  destruct (parse_address r) as [a|] eqn:Ea; [|done]. destruct (Directory.final_recipients d a) as [finals|] eqn:Ef; [|done].
  intros H. destruct (IH _ H) as [Hsub Hall]. split.
  - intros x Hx. apply Hsub, reach_all_keys. by right.
  - intros r' [->|Hr]%elem_of_cons; [|by apply Hall]. exists a, finals. split_and!; [done..|].
    intros x Hx. apply Hsub, reach_all_keys. by left.
Qed.

(** A recipient stands for the account under the address [to]. *)
Definition reaches (d : Directory.t) (recipients : list (list Z)) (account to : list Z) : Prop :=
  ∃ r a finals, r ∈ recipients ∧ parse_address r = Ok a ∧ Directory.final_recipients d a = Some finals ∧ (account, to) ∈ finals.

Lemma reach_entries account delivered_to l m x :
  x ∈ reach account delivered_to l m → (x.1 = account ∧ x.2.1 = delivered_to) ∨ ∃ y, y ∈ m ∧ y.1 = x.1 ∧ y.2.1 = x.2.1.
Proof.
  induction m as [|[a [to lx]] m IH]; cbn [reach]; [intros ->%list_elem_of_singleton; by left|].
  destruct (lex_compare _ _) eqn:E; rewrite !elem_of_cons.
  - intros [->|Hx]; right; [exists (a, (to, lx))|exists x]; rewrite elem_of_cons; auto.
  - intros [->|Hx]; [by left|]. right. exists x. rewrite elem_of_cons. auto.
  - intros [->|Hx]; [right; exists (a, (to, lx)); rewrite elem_of_cons; auto|].
    destruct (IH Hx) as [?|(y & Hy & ?)]; [by left|]. right. exists y. rewrite elem_of_cons. auto.
Qed.

Lemma reach_all_entries l finals m x :
  x ∈ fold_left (λ m f, reach f.1 f.2 l m) finals m → (x.1, x.2.1) ∈ finals ∨ ∃ y, y ∈ m ∧ y.1 = x.1 ∧ y.2.1 = x.2.1.
Proof.
  revert m. induction finals as [|f finals IH]; intros m; cbn [fold_left]; [intros Hx; right; by exists x|].
  intros Hx. destruct (IH _ Hx) as [?|(y & Hy & H1 & H2)]; [left; by apply list_elem_of_further|].
  apply reach_entries in Hy as [[E1 E2]|(z & Hz & E1 & E2)]; [left|right; exists z; split_and!; congruence].
  apply elem_of_cons. left. destruct f. cbn in *. congruence.
Qed.

Lemma accounts_loop_sound d rs accounts recipients out :
  accounts_loop d accounts recipients = Ok out →
  (∀ x, x ∈ accounts → reaches d rs x.1 x.2.1) → recipients ⊆ rs → ∀ x, x ∈ out → reaches d rs x.1 x.2.1.
Proof.
  revert accounts. induction recipients as [|r recipients IH]; intros accounts; cbn [accounts_loop]; [by intros [= <-]|].
  destruct (parse_address r) as [a|] eqn:Ea; [|done]. destruct (Directory.final_recipients d a) as [finals|] eqn:Ef; [|done].
  intros H Hacc Hsub. apply (IH _ H); [|intros x Hx; apply Hsub; by apply list_elem_of_further].
  intros x [Hx|(y & Hy & E1 & E2)]%reach_all_entries.
  - exists r, a, finals. split_and!; [apply Hsub, list_elem_of_here|done..].
  - rewrite <-E1, <-E2. by apply Hacc.
Qed.

(** The fate of the message for one of its accounts, in a whole delivery. *)
Definition fate (clock : Z) (message : AcceptedMessage) (s s' : S) (d : Delivered) (account delivered_to : list Z)
    (l : option ListBlock) : Prop :=
  (length (copies s account) < length (copies s' account))%nat ∨
  (∃ r, r ∈ redirects d ∧ rd_delivered_to r = delivered_to) ∨ is_Some (reject d) ∨ delivered_to ∈ looped d ∨
  delivered_to ∈ over_quota d ∨
  ∃ s0 copy o, for_list message l = Some copy ∧ sieve_outcome clock s0 account copy = Some (Some o) ∧ excused message o.

(** The result only grows, and so do the mailboxes. *)
Record grows (s s' : S) (d d' : Delivered) : Prop := {
  gr_copies a : (length (copies s a) ≤ length (copies s' a))%nat;
  gr_redirects : redirects d ⊆ redirects d';
  gr_reject : is_Some (reject d) → is_Some (reject d');
  gr_looped : looped d ⊆ looped d';
  gr_quota : over_quota d ⊆ over_quota d'
}.

Lemma grows_trans s1 s2 s3 d1 d2 d3 : grows s1 s2 d1 d2 → grows s2 s3 d2 d3 → grows s1 s3 d1 d3.
Proof.
  intros [Hc1 Hr1 Hj1 Hl1 Hq1] [Hc2 Hr2 Hj2 Hl2 Hq2].
  constructor; [intros a; etrans; [apply Hc1|apply Hc2]|by intros x ?; apply Hr2, Hr1|by auto|by intros x ?; apply Hl2, Hl1|
    by intros x ?; apply Hq2, Hq1].
Qed.

Lemma fate_grows clock message s1 s2 s3 d d' account delivered_to l :
  fate clock message s1 s2 d account delivered_to l → grows s2 s3 d d' → fate clock message s1 s3 d' account delivered_to l.
Proof.
  unfold fate. intros Hf [Hc Hr Hj Hl Hq]. destruct Hf as [Hf|[(r & Hin & Ht)|[Hf|[Hf|[Hf|Hf]]]]].
  - left. specialize (Hc account). lia.
  - right. left. exists r. split; [by apply Hr|done].
  - right. right. left. by apply Hj.
  - do 3 right. left. by apply Hl.
  - do 4 right. left. by apply Hq.
  - by do 5 right.
Qed.

Lemma fate_earlier clock message s0 s1 s2 d account delivered_to l :
  (length (copies s0 account) ≤ length (copies s1 account))%nat →
  fate clock message s1 s2 d account delivered_to l → fate clock message s0 s2 d account delivered_to l.
Proof. unfold fate. intros Hl [Hf|Hf]; [left; lia|by right]. Qed.

(** An address the operator forwards some account to. *)
Definition configured (ld : LocalDelivery) (to : list Z) : Prop :=
  ∃ account targets keep, ld_forwards ld !! account = Some (targets, keep) ∧ to ∈ targets.

Lemma account_forwards_configured ld account message to :
  to ∈ (account_forwards ld account message).1 → configured ld to.
Proof.
  unfold account_forwards, forwards. destruct (ld_forwards ld !! to_ascii_lowercase account) as [[ts k]|] eqn:Hf.
  - destruct (_ || _); cbn [fst]; [by intros ?%not_elem_of_nil|]. intros Hin. by exists (to_ascii_lowercase account), ts, k.
  - by intros ?%not_elem_of_nil.
Qed.

(** What the deliveries to all accounts come to. *)
Record routed_ok (ld : LocalDelivery) (message : AcceptedMessage) (d : Delivered) : Prop := {
  rt_targets : Forall (λ r, configured ld (rd_to r) ∨ ∃ raw a, parse_address raw = Ok a ∧ rd_to r = display_address a) (redirects d);
  rt_replies : Forall (λ reply, msg_reverse_path reply = [] ∧ msg_recipients reply = [msg_reverse_path message]) (replies d);
  rt_null : msg_reverse_path message = [] → redirects d = [] ∧ reject d = None ∧ replies d = [] ∧ looped d = []
}.

(** The result of one account taken over, as the loop does. *)
Definition merged (d one : Delivered) : Delivered :=
  mkDelivered (over_quota d) (redirects d ++ redirects one) (match reject d with Some r => Some r | None => reject one end)
    (replies d ++ replies one) (looped d ++ looped one).

Lemma routed_merged ld account message copy delivered_to d one :
  msg_reverse_path copy = msg_reverse_path message → routed_ok ld message d →
  delivered_ok (account_forwards ld account copy).1 copy delivered_to one → routed_ok ld message (merged d one).
Proof.
  intros Hrp [Ht Hr Hn] [Ht1 Hr1 Hn1 _]. rewrite Hrp in Hr1, Hn1. constructor; cbn.
  - apply Forall_app. split; [done|]. eapply Forall_impl; [exact Ht1|]. cbn. intros r [_ [Hin|Ha]]; [|by right].
    left. by eapply account_forwards_configured.
  - by apply Forall_app.
  - intros Hnull. destruct (Hn Hnull) as (-> & -> & -> & ->), (Hn1 Hnull) as (-> & -> & -> & ->). done.
Qed.

Lemma grows_merged s s' d one :
  (∀ a, length (copies s a) ≤ length (copies s' a))%nat → grows s s' d (merged d one).
Proof.
  intros Hc. constructor; cbn; [done|by intros x ?; apply elem_of_app; left| |by intros x ?; apply elem_of_app; left|done].
  intros [r ->]. done.
Qed.

Lemma added_grows account new st st' a :
  added account new st st' → (length (copies st.1 a) ≤ length (copies st'.1 a))%nat.
Proof. intros [Hc _]. rewrite Hc. destruct (str_eqb a account); [|done]. rewrite length_app. lia. Qed.

Lemma settled_fate clock message copy st st' account delivered_to l new fs d one :
  for_list message l = Some copy → msg_reverse_path copy = msg_reverse_path message → added account new st st' →
  delivered_ok fs copy delivered_to one →
  settled clock st.1 account delivered_to copy new one → fate clock message st.1 st'.1 (merged d one) account delivered_to l.
Proof.
  intros Hl Hrp [Hc _] [Ht _ _ _] [Hne|[[Hr|[Hj|Hlo]]|(o & Ho & Hex)]]; unfold fate.
  - left. rewrite Hc, str_eqb_refl, length_app. destruct new; [done|]. cbn. lia.
  - right. left. destruct (redirects one) as [|r rs] eqn:E; [done|]. apply Forall_cons in Ht as [[Hto _] _].
    exists r. split; [|done]. cbn. rewrite E. apply elem_of_app. right. by left.
  - do 2 right. left. cbn. by destruct (reject d).
  - do 3 right. left. cbn. rewrite Hlo. apply elem_of_app. right. by left.
  - do 5 right. exists st.1, copy, o. split_and!; [done|done|]. unfold excused in *. by rewrite Hrp in Hex.
Qed.

Lemma deliver_all_ok ld clock now message mailbox accounts d refused st :
  routed_ok ld message d → length (over_quota d) = refused →
  ∃ r st', deliver_all ld clock now message mailbox accounts d refused st = Some (r, st') ∧
    ∀ d' refused', r = Ok (d', refused') →
      routed_ok ld message d' ∧ length (over_quota d') = refused' ∧ grows st.1 st'.1 d d' ∧
      Forall (λ x, fate clock message st.1 st'.1 d' x.1 x.2.1 x.2.2) accounts.
Proof.
  revert d refused st. induction accounts as [|[account [delivered_to l]] accounts IH]; intros d refused st Hd Hq; cbn [deliver_all].
  { exists (Ok (d, refused)), st. split; [done|]. intros ? ? [= <- <-]. by split_and!. }
  destruct (for_list_total message l) as (copy & Hl & Hrp). rewrite Hl.
  destruct (deliver_for_account_ok ld clock now account delivered_to copy mailbox st) as (r & st1 & new & -> & Hadd & _ & _ & Hok).
  assert (Hg := λ a, added_grows account new st st1 a Hadd).
  destruct r as [one|e].
  - destruct (Hok one eq_refl) as [Hone Hset].
    destruct (IH (merged d one) refused st1) as (r & st' & Heq & Hr); [by eapply routed_merged|done|].
    exists r, st'. split; [exact Heq|]. intros d' refused' ->. destruct (Hr _ _ eq_refl) as (H1 & H2 & H3 & H4).
    split_and!; [done|done|by eapply grows_trans; [apply grows_merged|]|]. constructor.
    + eapply fate_grows; [by eapply settled_fate|done].
    + eapply Forall_impl; [exact H4|]. intros x Hx. eapply fate_earlier; [apply Hg|exact Hx].
  - destruct e; try (eexists _, _; split; [done|]; by intros).
    set (d1 := mkDelivered (over_quota d ++ [delivered_to]) (redirects d) (reject d) (replies d) (looped d)).
    destruct (IH d1 (Datatypes.S refused) st1) as (r & st' & Heq & Hr).
    { destruct Hd. by constructor. }
    { cbn. rewrite length_app. cbn. lia. }
    exists r, st'. split; [exact Heq|]. intros d' refused' ->. destruct (Hr _ _ eq_refl) as (H1 & H2 & H3 & H4).
    assert (Hg1 : grows st.1 st1.1 d d1). { constructor; cbn; try done. intros x ?. apply elem_of_app. by left. }
    split_and!; [done|done|by eapply grows_trans|]. constructor.
    + do 4 right. left. apply (gr_quota _ _ _ _ H3). cbn. apply elem_of_app. right. by left.
    + eapply Forall_impl; [exact H4|]. intros x Hx. eapply fate_earlier; [apply Hg|exact Hx].
Qed.

Lemma deliver_routed_ok ld clock now message mailbox s :
  ∃ r s', deliver_routed ld clock now message mailbox s = Some (r, s') ∧
  ∀ d, r = Ok d → routed_ok ld message d ∧
    ∃ accounts, accounts_for (ld_directory ld) message = Ok accounts ∧ accounts ≠ [] ∧
      Forall (λ x, fate clock message s s' d x.1 x.2.1 x.2.2) accounts.
Proof.
  unfold deliver_routed. destruct (_ <? _)%nat; [by eexists _, _|]. destruct (match mailbox with Some _ => _ | None => _ end); [by eexists _, _|].
  destruct (accounts_for (ld_directory ld) message) as [accounts|e]; [|by eexists _, _].
  destruct accounts as [|x accounts]; [by eexists _, _|].
  destruct (deliver_all_ok ld clock now message mailbox (x :: accounts) delivered_default 0 (s, 0%nat)) as (r & [s' stored] & -> & Hr);
    [by repeat constructor|done|]. destruct r as [[d refused]|e]; [|by eexists _, _].
  destruct (Hr d refused eq_refl) as (Hok & Hq & _ & Hf). destruct (_ && _) eqn:Hfull.
  - apply andb_prop in Hfull as [Hfull%Nat.eqb_eq _]. destruct (over_quota d); [cbn in *; lia|]. by eexists _, _.
  - eexists _, _. split; [done|]. intros ? [= <-]. split; [done|]. by exists (x :: accounts).
Qed.

(** A message the server took over is not lost by local delivery. The
    delivery always ends, and when it succeeds, for each account the message
    was for, there is one copy more in its mailboxes, or the message was
    forwarded, rejected or refused as a loop or over quota, which the caller
    sends back; or else the account's script ran a [discard], or asked to
    redirect or reject a message that has no sender. *)
Theorem delivery_never_loses ld clock now message mailbox s :
  ∃ r s', deliver_routed ld clock now message mailbox s = Some (r, s') ∧
  ∀ d, r = Ok d →
    ∃ accounts, accounts_for (ld_directory ld) message = Ok accounts ∧ accounts ≠ [] ∧
      Forall (λ x, fate clock message s s' d x.1 x.2.1 x.2.2) accounts.
Proof.
  destruct (deliver_routed_ok ld clock now message mailbox s) as (r & s' & Heq & Hr). exists r, s'.
  split; [done|]. intros d Hd. by destruct (Hr d Hd).
Qed.

(** Mail with the null sender makes the server send nothing: no forward,
    no bounce and no reply. And every automatic reply has the null sender
    and goes to the sender of the message it answers, so that a reply never
    brings another. *)
Theorem null_sender_sends_nothing ld clock now message mailbox s s' d
    (Hd : deliver_routed ld clock now message mailbox s = Some (Ok d, s')) :
  (msg_reverse_path message = [] → redirects d = [] ∧ reject d = None ∧ replies d = [] ∧ looped d = []) ∧
  Forall (λ reply, msg_reverse_path reply = [] ∧ msg_recipients reply = [msg_reverse_path message]) (replies d).
Proof.
  destruct (deliver_routed_ok ld clock now message mailbox s) as (r & s1 & Heq & Hr). rewrite Hd in Heq.
  injection Heq as <- <-. destruct (Hr d eq_refl) as [[_ H1 H2] _]. by split.
Qed.

(** A script cannot smuggle anything into the envelope of a forward:
    every target is one the operator configured, or one address in which no
    character is a control, white space, a quote or a separator. *)
Theorem forwards_are_addresses ld clock now message mailbox s s' d
    (Hd : deliver_routed ld clock now message mailbox s = Some (Ok d, s')) :
  Forall (λ r, configured ld (rd_to r) ∨ Forall (λ c, structural c = false ∨ c = AT) (rd_to r)) (redirects d).
Proof.
  destruct (deliver_routed_ok ld clock now message mailbox s) as (r & s1 & Heq & Hr). rewrite Hd in Heq.
  injection Heq as <- <-. destruct (Hr d eq_refl) as [[H1 _ _] _]. eapply Forall_impl; [exact H1|]. cbn.
  intros rd [Hc|(raw & a & Hp & ->)]; [by left|right].
  destruct (parsed_address_safe raw a Hp) as (_ & _ & _ & _ & Hs & _). apply Forall_app in Hs as [Hl Hdm].
  unfold display_address. apply Forall_app. split; [|constructor; [by right|]].
  - eapply Forall_impl; [exact Hl|]. auto.
  - eapply Forall_impl; [exact Hdm|]. auto.
Qed.

End theory.

(** ** A store in memory *)

Record Memory := mkMemory {
  mm_copies : gmap (list Z) (list Copy);
  mm_folders : gmap (list Z) (list (list Z));
  mm_scripts : gmap (list Z) (list Z)
}.

Definition folders_of (s : Memory) (account : list Z) : list (list Z) := default [] (mm_folders s !! account).

Definition memory_store : MailStore Memory := {|
  account_usage s account := foldr (λ c n, Z.of_nat (length (cp_data c)) + n) 0 (default [] (mm_copies s !! account));
  deliver_to_account account mailbox data flags s :=
    (Ok tt, mkMemory (<[account := default [] (mm_copies s !! account) ++ [mkCopy mailbox data flags]]> (mm_copies s))
              (mm_folders s) (mm_scripts s));
  mailbox_known s account mailbox := existsb (str_eqb mailbox) (folders_of s account);
  mailbox_list s account := INBOX :: folders_of s account;
  mailbox_create account mailbox s :=
    mkMemory (mm_copies s) (<[account := mailbox :: folders_of s account]> (mm_folders s)) (mm_scripts s);
  folders_lock _ _ := true;
  filter_script s account := (λ source, (Z.of_nat (length source), Some source)) <$> mm_scripts s !! account;
  vacation_setting _ _ := None;
  claim_reply _ _ _ s := (true, s)
|}.

Definition memory_laws : @MailStoreLaws Memory memory_store.
Proof.
  refine (@Build_MailStoreLaws Memory memory_store (λ s a, default [] (mm_copies s !! a)) _ _ _ _).
  - intros account mailbox data flags s s' [= <-] a. cbn. unfold str_eqb. case_bool_decide as Ha.
    + subst. by rewrite lookup_insert_eq.
    + by rewrite lookup_insert_ne.
  - done.
  - done.
  - done.
Defined.

(** A composer that writes the reason, and no list. *)
Definition plain_composer : Composer := {|
  compose_reply _ _ _ _ text _ := text;
  list_block _ _ := None
|}.

(** ** Examples *)

Definition example_delivery : LocalDelivery := mkLocal (@example_directory ascii_unicode) ∅ 0.

Definition example_message (reverse_path raw : list Z) : AcceptedMessage :=
  SmtpSession.mkMessage reverse_path [lit "bob@example.org"] raw false None false true [].

Definition example_store (script : list Z) : Memory := mkMemory ∅ ∅ {[lit "bob" := script]}.

Definition quoted (s : list Z) : list Z := 34 :: s ++ [34].

Definition example_routed (script reverse_path raw : list Z) : option (result SinkError Delivered * Memory) :=
  @deliver_routed ascii_unicode map_order Memory memory_store plain_composer example_delivery 0 0
    (example_message reverse_path raw) None (example_store script).

Definition redirect_script : list Z := lit "redirect " ++ quoted (lit "bob@example.net") ++ lit ";".

Lemma delivery_never_loses_witness :
  ∃ accounts, @accounts_for ascii_unicode plain_composer (@example_directory ascii_unicode)
    (example_message (lit "eve@example.org") (lit "Subject: x")) = Ok accounts ∧ accounts ≠ [].
Proof.
  destruct (@delivery_never_loses ascii_unicode map_order Memory memory_store memory_laws plain_composer example_delivery 0 0
    (example_message (lit "eve@example.org") (lit "Subject: x")) None (example_store redirect_script)) as (r & s' & Heq & Hr).
  assert (Hd : ∃ d, r = Ok d).
  { vm_compute in Heq. injection Heq as <- <-. by eexists. }
  destruct Hd as [d ->]. destruct (Hr d eq_refl) as (accounts & Ha & Hne & _). exists accounts. exact (conj Ha Hne).
Defined.

Lemma null_sender_sends_nothing_witness :
  ∃ d s', example_routed (lit "keep;") [] (lit "Subject: x") = Some (Ok d, s') ∧ redirects d = [] ∧ replies d = [].
Proof.
  assert (H : ∃ d s', example_routed (lit "keep;") [] (lit "Subject: x") = Some (Ok d, s'))
    by (eexists _, _; vm_compute; reflexivity).
  destruct H as (d & s' & Hd). exists d, s'.
  destruct (@null_sender_sends_nothing ascii_unicode map_order Memory memory_store memory_laws plain_composer example_delivery 0 0
    (example_message [] (lit "Subject: x")) None (example_store (lit "keep;")) s' d Hd) as [Hn _].
  destruct (Hn eq_refl) as (Hr & _ & Hp & _). exact (conj Hd (conj Hr Hp)).
Defined.

Lemma forwards_are_addresses_witness :
  ∃ d s', example_routed redirect_script (lit "eve@example.org") (lit "Subject: x") = Some (Ok d, s') ∧
    redirects d = [mkRedirect (lit "bob@example.net") (lit "bob@example.org")] ∧
    Forall (λ r, configured example_delivery (rd_to r) ∨ Forall (λ c, structural c = false ∨ c = AT) (rd_to r)) (redirects d).
Proof.
  assert (H : ∃ d s', example_routed redirect_script (lit "eve@example.org") (lit "Subject: x") = Some (Ok d, s') ∧
    redirects d = [mkRedirect (lit "bob@example.net") (lit "bob@example.org")])
    by (eexists _, _; split; vm_compute; reflexivity).
  destruct H as (d & s' & Hd & Hr). exists d, s'. split; [exact Hd|]. split; [exact Hr|].
  exact (@forwards_are_addresses ascii_unicode map_order Memory memory_store memory_laws plain_composer example_delivery 0 0
    (example_message (lit "eve@example.org") (lit "Subject: x")) None (example_store redirect_script) s' d Hd).
Defined.

(** A bounce that reaches an account whose script only redirects is
    lost: whatever it says, it is not forwarded, because it has no sender,
    and the redirect that was not carried out still cancels the implicit
    keep, so nothing is stored and nothing is sent back either. *)
Theorem bounce_behind_redirect_lost raw (Hfields : (field_count raw ≤ MAX_HEADER_FIELDS)%nat) :
  example_routed redirect_script [] raw = Some (Ok delivered_default, example_store redirect_script).
Proof.
  unfold example_routed, deliver_routed. rewrite (proj2 (Nat.ltb_ge _ _)) by exact Hfields.
  vm_compute. reflexivity.
Qed.

Lemma bounce_behind_redirect_lost_witness :
  (field_count (lit "Subject: Undelivered") ≤ MAX_HEADER_FIELDS)%nat ∧
  example_routed redirect_script [] (lit "Subject: Undelivered") = Some (Ok delivered_default, example_store redirect_script).
Proof.
  assert (H : (field_count (lit "Subject: Undelivered") ≤ MAX_HEADER_FIELDS)%nat).
  { apply Nat.leb_le. vm_compute. reflexivity. }
  exact (conj H (bounce_behind_redirect_lost (lit "Subject: Undelivered") H)).
Defined.
