(* ===== verification/QueueWorker.v ===== *)
(** What the outbound queue does with the answers of remote servers
    (src/src/queue/worker/mod.rs, reports.rs, report_failures.rs, evidence.rs,
    and parts of conversation.rs and warmup/mod.rs): retries, slow-downs,
    failure reports, expiry and removal; with the destinations
    (src/src/queue/destination), the holds (src/src/queue/backoff), the retry
    schedule (src/src/queue/schedule), the receiver groups
    (src/src/queue/warmup/group) and the suppression list
    (src/src/queue/suppression).

    The sink of the reports is the class [ReportSink], the evidence log the
    class [EvidenceLog]; the random spread of a wait is an argument. One
    moment stands for the clock reads of a step. The delivery log, webhooks,
    metrics and the log are left out. *)

From stdpp Require Import gmap.
From S2P Require Import Prelude RustStd Utf8 IpNet Address SmtpSession SieveMatch LocalDelivery Bounce QueueReply Dane OutboundClient OutboundSpool.

Local Open Scope Z_scope.

(** ** Destinations *)

Inductive DestinationKind := KindDomain | KindExchanger.

#[global] Instance destination_kind_eq_dec : EqDecision DestinationKind.
Proof. solve_decision. Defined.
#[global] Instance destination_kind_countable : Countable DestinationKind.
Proof.
  apply (inj_countable' (λ k, match k with KindDomain => true | KindExchanger => false end)
    (λ b : bool, if b then KindDomain else KindExchanger)). by intros [].
Defined.

Definition Destination : Type := DestinationKind * list Z.

(** [idna::domain_to_ascii]. *)
Class Idna := { domain_to_ascii : list Z → option (list Z) }.

Definition new_destination `{Idna} (kind : DestinationKind) (name : list Z) : Destination :=
  let trimmed := trim_end_matches (Z.eqb DOT) (trim name) in
  (kind, to_ascii_lowercase (default trimmed (domain_to_ascii trimmed))).

Definition exchanger `{Idna} (host : list Z) : Destination := new_destination KindExchanger host.

Definition of_recipient `{Idna} (address : list Z) : Destination :=
  new_destination KindDomain (match rsplit_once AT address with Some (_, domain) => domain | None => address end).

(** ** Holds *)

Record Hold := mkHold { ho_until : Z; ho_deferrals : Z; ho_reason : list Z }.

Definition Holds : Type := gmap Destination Hold.

Definition note (h : Holds) (d : Destination) (until deferrals : Z) (reason : list Z) : Holds :=
  let old := default (mkHold until deferrals reason) (h !! d) in
  let new := if ho_until old <? until then mkHold until (ho_deferrals old) reason else old in
  <[d := mkHold (ho_until new) (Z.max (ho_deferrals new) deferrals) (ho_reason new)]> h.

Definition note_recipient `{Idna} (e : Envelope) (h : Holds) (r : list Z) : Holds :=
  let s := recipient_state e r in
  if negb (bool_decide (rs_status s = Pending)) || (rs_throttled s =? 0) then h
  else
    let reason := default [] (rs_last_error s) in
    let h := note h (of_recipient r) (rs_next_attempt s) (rs_throttled s) reason in
    match rs_remote s with
    | Some host => note h (exchanger host) (rs_next_attempt s) (rs_throttled s) reason
    | None => h
    end.

Definition add_envelope `{Idna} (h : Holds) (e : Envelope) : Holds := fold_left (note_recipient e) (ev_recipients e) h.

Definition held (h : Holds) (d : Destination) (now : Z) : option Hold :=
  hold ← h !! d; if now <? ho_until hold then Some hold else None.

Definition hold_deferrals (h : Holds) (d : Destination) : Z := match h !! d with Some hold => ho_deferrals hold | None => 0 end.

(** ** The retry schedule *)

Record RetrySchedule := mkSchedule { sc_base : Z; sc_cap : Z; sc_delay_warning : Z }.

(** The wait before its spread. *)
Definition wait (s : RetrySchedule) (attempts : Z) : Z :=
  let doublings := Z.min (saturating_sub attempts 1) 32 in
  Z.min (saturating_mul u64_max (sc_base s) (Z.shiftl 1 doublings)) (Z.max (sc_cap s) (sc_base s)).

(** ** Receiver groups *)

Inductive Group := Gmail | Outlook | Yahoo | Icloud | OtherGroup.

#[global] Instance group_eq_dec : EqDecision Group.
Proof. solve_decision. Defined.

Definition PROVIDERS : list (Group * list (list Z)) :=
  [(Gmail, [lit "google.com"; lit "googlemail.com"]);
   (Outlook, [lit "outlook.com"; lit "hotmail.com"; lit "mx.microsoft"]);
   (Yahoo, [lit "yahoodns.net"; lit "yahoo.com"]);
   (Icloud, [lit "icloud.com"])].

Definition ends_with_labels (host suffix : list Z) : bool :=
  match strip_suffix suffix host with
  | Some [] => true
  | Some rest => ends_with [DOT] rest
  | None => false
  end.

Definition of_exchanger `{Idna} (host : list Z) : Group :=
  let host := (exchanger host).2 in
  match List.find (λ p, existsb (ends_with_labels host) p.2) PROVIDERS with Some (group, _) => group | None => OtherGroup end.

Definition label (g : Group) : list Z :=
  match g with Gmail => lit "gmail" | Outlook => lit "outlook" | Yahoo => lit "yahoo" | Icloud => lit "icloud" | OtherGroup => lit "other" end.

Definition parse_group (l : list Z) : option Group :=
  List.find (λ g, str_eqb (label g) l) [Gmail; Outlook; Yahoo; Icloud; OtherGroup].

(** ** Conversations *)

Record Capped := mkCapped { ca_group : Group; ca_until : Z; ca_recipients : list (list Z) }.

Record Conversation := mkConversation {
  co_remote : option (list Z);
  co_results : list RecipientResult;
  co_slowed : option (list Z * list Z);
  co_held_until : option Z;
  co_capped : option Capped;
  co_facts : SessionFacts
}.

Definition delivered (c : Conversation) : bool := existsb (λ r, is_ok r.2) (co_results c).

Definition retry_now (c : Conversation) : list (list Z) :=
  if negb (delivered c) then []
  else map fst (List.filter (λ r, match r.2 with Err (Transient reason) => too_many_recipients reason | _ => false end) (co_results c)).

Definition throttled_by (c : Conversation) : option (option (list Z) * list Z) :=
  match head (omap (λ r, match r.2 with Err (Transient reason) => if throttled reason then Some reason else None | _ => None end) (co_results c)) with
  | Some reason => Some (co_remote c, reason)
  | None => (λ p, (Some p.1, p.2)) <$> co_slowed c
  end.

Definition conversation_all (recipients : list (list Z)) (remote : option (list Z)) (error : DeliveryError) : Conversation :=
  mkConversation remote (map (λ r, (r, Err error)) recipients) None None None no_facts.

Definition cap_reason (g : Group) : DeliveryError := Transient (lit "waiting for the " ++ label g ++ lit " warm-up cap").

Definition add_capped (c : Conversation) (recipients : list (list Z)) (g : Group) (until : Z) : Conversation :=
  match recipients with
  | [] => c
  | _ =>
      mkConversation (co_remote c) (co_results c ++ map (λ r, (r, Err (cap_reason g))) recipients) (co_slowed c) (co_held_until c)
        (Some (mkCapped g until recipients)) (co_facts c)
  end.

Definition conversation_capped (recipients : list (list Z)) (g : Group) (until : Z) : Conversation :=
  add_capped (conversation_all [] None (cap_reason g)) recipients g until.

Definition capped_for (c : Conversation) (r : list Z) : option Capped :=
  capped ← co_capped c; if existsb (str_eqb r) (ca_recipients capped) then Some capped else None.

(** ** Slowing down *)

Record SlowDown := mkSlowDown {
  sl_domain : Destination;
  sl_host : option (list Z);
  sl_until : Z;
  sl_deferrals : Z;
  sl_reason : list Z
}.

(** [max_by_key]: of equal keys the last. *)
Fixpoint longest (l : list Hold) (best : option Hold) : option Hold :=
  match l with
  | [] => best
  | h :: l => longest l (match best with Some b => if ho_until h <? ho_until b then Some b else Some h | None => Some h end)
  end.

Definition slow_down `{Idna} (steps : list Z) (holds : Holds) (e : Envelope) (c : Conversation) (now : Z) : option SlowDown :=
  match co_held_until c with
  | Some _ => None
  | None =>
      '(host, reason) ← throttled_by c;
      '(first, _) ← head (co_results c);
      let domain := of_recipient first in
      let host := match host with Some h => if is_empty h then None else Some h | None => None end in
      let own := default 0 (max_of (map (λ r, rs_throttled (recipient_state e r.1)) (co_results c))) in
      let keys := domain :: match host with Some h => [exchanger h] | None => [] end in
      let running := longest (omap (λ key, held holds key now) keys) None in
      let behind := fold_left Z.max (map (hold_deferrals holds) keys) own in
      let '(until, deferrals) :=
        match running with
        | Some hold => (ho_until hold, ho_deferrals hold)
        | None => (saturating_add u64_max now (step steps behind), saturating_add u32_max behind 1)
        end in
      Some (mkSlowDown domain host until (Z.max deferrals (saturating_add u32_max own 1)) (take 200 reason))
  end.

(** ** Evidence *)

Definition WAITING_OUTCOME : list Z := lit "an evidence outcome is waiting to be written".

Definition pending_from (recipient : list Z) (result : OutcomeKind) (attempt : Z) (remote reply : option (list Z)) (facts : option SessionFacts) : PendingOutcome :=
  mkOutcome recipient result attempt
    (r ← remote; if is_empty r || str_eqb r (lit "-") then None else Some r)
    (match (f ← facts; fa_reply f) with Some r => Some r | None => reply end)
    (f ← facts; fa_tls f) (match facts with Some f => fa_dane f | None => false end) (f ← facts; fa_mta_sts f).

Definition intend (e : Envelope) (o : PendingOutcome) : Envelope :=
  if negb (ev_evidence e) || negb (evidence_mandatory (ev_class e)) then e
  else
    let e := if bool_decide (o ∈ ev_outcomes_pending e) then e else set_outcomes e (ev_outcomes_pending e ++ [o]) in
    set_last_error e (Some WAITING_OUTCOME).

(** ** Recording a conversation *)

Definition MAX_DEFERRALS_LOGGED : Z := 8.

Definition logs_deferral (s : RecipientState) (reason : list Z) : bool :=
  negb (bool_decide (rs_last_error s = Some reason)) && (rs_deferrals_logged s <? MAX_DEFERRALS_LOGGED).

Definition attempt_of (e : Envelope) (r : list Z) : Z := saturating_add u32_max (rs_attempts (recipient_state e r)) 1.

(** [spread] is the random spread of a wait of the recipient. *)
Definition retry_at (schedule : RetrySchedule) (spread : Z → Z) (now attempts : Z) : Z :=
  saturating_add u64_max now (spread (wait schedule attempts)).

(** The state after an attempt that is to be made again. *)
Definition deferred (schedule : RetrySchedule) (spread : Z → Z) (slow : option SlowDown) (now : Z) (s : RecipientState) (reason : list Z) : RecipientState :=
  let s := if logs_deferral s reason then set_deferrals_logged s (rs_deferrals_logged s + 1) else s in
  let s := set_attempts s (rs_attempts s + 1) in
  let s := set_next s (retry_at schedule spread now (rs_attempts s)) in
  let s := set_error s (Some reason) in
  let s := set_throttled s 0 in
  match slow with
  | Some sl =>
      let s := set_next s (sl_until sl) in
      let s := set_throttled s (sl_deferrals sl) in
      let s := set_error s (Some (sl_reason sl)) in
      set_remote s (match sl_host sl with Some h => Some h | None => rs_remote s end)
  | None => s
  end.

Section record.
Context (schedule : RetrySchedule) (spread : list Z → Z → Z) (entry : Envelope) (c : Conversation) (slow : option SlowDown) (now : Z).

(** The state of one answered recipient, and the error of the entry when the
    answer is a deferral. *)
Definition answered (r : list Z) (result : result DeliveryError unit) (s : RecipientState) : RecipientState * option (option (list Z)) :=
  let s := set_remote (end_cap_wait s now) (co_remote c) in
  match result with
  | Ok _ => (set_status s Delivered, None)
  | Err error =>
      if existsb (str_eqb r) (retry_now c) then (set_next s now, None)
      else match error, co_held_until c with
           | Transient reason, Some until => (set_error (set_next s until) (Some reason), None)
           | Transient reason, None =>
               let s := deferred schedule (spread r) slow now s reason in (s, Some (take 512 <$> rs_last_error s))
           | Permanent reason, _ => (set_error (set_status s Failed) (Some reason), None)
           end
  end.

Definition owed (r : list Z) (result : result DeliveryError unit) : option PendingOutcome :=
  let from kind reply facts := Some (pending_from r kind (attempt_of entry r) (Some (default (lit "-") (co_remote c))) reply facts) in
  if existsb (str_eqb r) (retry_now c) then None
  else match result with
       | Ok _ => from OutDelivered None (Some (co_facts c))
       | Err (Permanent reason) => from OutBounced (Some reason) None
       | Err (Transient _) => None
       end.

Definition apply_result (e : Envelope) (answer : RecipientResult) : Envelope :=
  let '(r, result) := answer in
  let s := recipient_state e r in
  match capped_for c r with
  | Some capped => set_recipient_state e r (wait_for_cap s (label (ca_group capped)) (ca_until capped) now)
  | None =>
      let '(s, error) := answered r result s in
      let e := match error with Some error => set_last_error e error | None => e end in
      let e := set_recipient_state e r s in
      match owed r result with Some o => intend e o | None => e end
  end.

Definition apply_conversation (e : Envelope) : Envelope := OutboundSpool.settle (fold_left apply_result (co_results c) e).

End record.

(** ** The worker *)

Record Worker := mkWorker {
  wk_hostname : list Z;
  wk_bounce_sink : bool;
  wk_max_age_secs : Z;
  wk_suppression : bool;
  wk_schedule : RetrySchedule;
  wk_evidence : bool;
  wk_backoff_steps : list Z;
  wk_auto_submitted : bool
}.

(** One step's clock: the worker's time, the wall clock of the reports and its
    date, and the spread of the waits drawn. *)
Record Tick := mkTick { tk_now : Z; tk_secs : Z; tk_date : list Z; tk_spread : list Z → Z → Z }.

Class ReportSink (K : Type) := { sink_deliver_report : AcceptedMessage → K → result SinkError unit * K }.

(** Whether the log took the outcome. *)
Class EvidenceLog (L : Type) := { log_write : Envelope → PendingOutcome → L → bool * L }.

(** The time an identifier was made, when it has one. *)
Class Uuids := { uuid_secs : Z → option Z }.

Inductive ReportOutcome := Queued | Refused | Gone_.

#[global] Instance report_outcome_eq_dec : EqDecision ReportOutcome.
Proof. solve_decision. Defined.

(** The reports handed to the sink are kept with what became of them. *)
Record Queue (K L : Type) := mkQueue {
  q_disk : Disk;
  q_suppressed : gset (option (list Z) * list Z);
  q_holds : Holds;
  q_sink : K;
  q_log : L;
  q_reports : list (Z * AcceptedMessage * ReportOutcome)
}.
Arguments mkQueue {K L}.
Arguments q_disk {K L}.
Arguments q_suppressed {K L}.
Arguments q_holds {K L}.
Arguments q_sink {K L}.
Arguments q_log {K L}.
Arguments q_reports {K L}.

Definition MAX_REPORT_ATTEMPTS : Z := 5.

Definition report_wait (attempts : Z) : Z :=
  saturating_mul u64_max 300 (Z.min (4 ^ saturating_sub attempts 1) u64_max).

Definition report_recipients (e : Envelope) (recipients : list (list Z)) : list ReportRecipient :=
  map (λ r, let s := recipient_state e r in mkRecipient r (default [] (rs_last_error s)) (rs_remote s) (rs_expired s))
    (List.filter (λ r, negb (existsb (str_eqb r) (ev_no_dsn e))) recipients).

Section worker.
Context `{UC : Unicode} `{ID : Idna} `{CE : Certificates} `{UU : Uuids} {K L : Type} `{RS : ReportSink K} `{EL : EvidenceLog L}.

Definition queue (A : Type) : Type := Queue K L → result IoError A * Queue K L.

Definition q_ret {A} (a : A) : queue A := λ q, (Ok a, q).
Definition q_fail {A} (e : IoError) : queue A := λ q, (Err e, q).
Definition q_bind {A B} (m : queue A) (k : A → queue B) : queue B := λ q,
  match m q with
  | (Ok a, q) => k a q
  | (Err e, q) => (Err e, q)
  end.

Definition set_disk (q : Queue K L) (d : Disk) : Queue K L :=
  mkQueue d (q_suppressed q) (q_holds q) (q_sink q) (q_log q) (q_reports q).
Definition set_holds (q : Queue K L) (h : Holds) : Queue K L :=
  mkQueue (q_disk q) (q_suppressed q) h (q_sink q) (q_log q) (q_reports q).
Definition set_log (q : Queue K L) (l : L) : Queue K L :=
  mkQueue (q_disk q) (q_suppressed q) (q_holds q) (q_sink q) l (q_reports q).

Definition on_disk {A} (f : Disk → result IoError A * Disk) : queue A := λ q,
  let '(r, d) := f (q_disk q) in (r, set_disk q d).

(** [let _ = ...]: an error is dropped. *)
Definition q_ignore {A} (m : queue A) : queue unit := λ q, (Ok tt, (m q).2).

Fixpoint q_each {A} (f : A → queue unit) (l : list A) : queue unit :=
  match l with [] => q_ret tt | a :: l => q_bind (f a) (λ _, q_each f l) end.

(** *** Suppression *)

(** SHA-256 of the stored form, in hexadecimal. *)
Definition digest_name (value : list Z) : list Z :=
  flat_map (λ b, [hex_digit (b / 16); hex_digit (b mod 16)]) (sha256 (as_bytes (Address.normalize value))).

Definition is_suppressed (q : Queue K L) (address : list Z) : bool := bool_decide ((None, digest_name address) ∈ q_suppressed q).
Definition is_suppressed_for (q : Queue K L) (account address : list Z) : bool :=
  bool_decide ((Some (digest_name account), digest_name address) ∈ q_suppressed q).

(** A marker that cannot be written is not there. *)
Definition write_marker (key : option (list Z) * list Z) : queue unit := λ q,
  let '(fault, d) := next_fault (q_disk q) in
  (Ok tt, mkQueue d (if fault then q_suppressed q else {[key]} ∪ q_suppressed q) (q_holds q) (q_sink q) (q_log q) (q_reports q)).

Context (w : Worker).

Definition suppress (account recipient : list Z) : queue unit :=
  if negb (wk_suppression w) then q_ret tt
  else q_bind (write_marker (None, digest_name recipient)) (λ _,
       if is_empty account then q_ret tt else write_marker (Some (digest_name account), digest_name recipient)).

(** *** Evidence *)

Definition release_outcomes (written : list PendingOutcome) (e : Envelope) : Envelope :=
  let e := set_outcomes e (List.filter (λ o, negb (bool_decide (o ∈ written))) (ev_outcomes_pending e)) in
  if bool_decide (ev_outcomes_pending e = []) then set_last_error e None else e.

Definition record_outcome (e : Envelope) (o : PendingOutcome) : queue unit := λ q,
  if negb (wk_evidence w && ev_evidence e) then (Ok tt, q)
  else
    let '(written, l) := log_write e o (q_log q) in
    let q := set_log q l in
    if written then q_ignore (on_disk (update_envelope (ev_id e) (release_outcomes [o]))) q else (Ok tt, q).

Definition write_owed (e : Envelope) : queue unit := λ q,
  if negb (wk_evidence w && ev_evidence e) then (Ok tt, q)
  else (Ok tt, set_log q (fold_left (λ l o, (log_write e o l).2) (ev_outcomes_pending e) (q_log q))).

(** *** After a conversation *)

Definition after_result (e : Envelope) (c : Conversation) (answer : RecipientResult) : queue unit :=
  let '(r, result) := answer in
  let remote := default (lit "-") (co_remote c) in
  if bool_decide (is_Some (capped_for c r)) then q_ret tt
  else if existsb (str_eqb r) (retry_now c) then q_ret tt
  else match result with
       | Ok _ => record_outcome e (pending_from r OutDelivered (attempt_of e r) (Some remote) None (Some (co_facts c)))
       | Err (Transient _) => q_ret tt
       | Err (Permanent reason) =>
           q_bind (record_outcome e (pending_from r OutBounced (attempt_of e r) (Some remote) (Some reason) None)) (λ _,
           if vd_suppress (classify_reason reason true) then suppress (ev_reverse_path e) r else q_ret tt)
       end.

Definition after_conversation (e : Envelope) (c : Conversation) : queue unit :=
  match co_held_until c with
  | Some _ => q_ret tt
  | None => q_each (after_result e c) (co_results c)
  end.

Definition note_slow (sl : SlowDown) : queue unit := λ q,
  let h := note (q_holds q) (sl_domain sl) (sl_until sl) (sl_deferrals sl) (sl_reason sl) in
  (Ok tt, set_holds q (match sl_host sl with Some host => note h (exchanger host) (sl_until sl) (sl_deferrals sl) (sl_reason sl) | None => h end)).

Definition record (t : Tick) (id : Z) (entry : Envelope) (c : Conversation) : queue unit := λ q,
  let slow := slow_down (wk_backoff_steps w) (q_holds q) entry c (tk_now t) in
  let apply := apply_conversation (wk_schedule w) (tk_spread t) entry c slow (tk_now t) in
  match on_disk (update_envelope id apply) q with
  | (Ok _, q) =>
      q_bind (match slow with Some sl => note_slow sl | None => q_ret tt end) (λ _, after_conversation entry c) q
  | (Err NotFound, q) => (Err NotFound, (write_owed (apply entry) q).2)
  | (Err error, q) => (Err error, q)
  end.

(** *** Suppressed and unparseable recipients *)

Definition SUPPRESSED : list Z := lit "recipient is on the suppression list".

Definition suppressed_outcome (r : list Z) : PendingOutcome := pending_from r OutSuppressed 0 None (Some SUPPRESSED) None.

Definition skip_state (e : Envelope) (r : list Z) : Envelope :=
  let s := set_error (set_reported (set_status (recipient_state e r) Failed)) (Some SUPPRESSED) in
  intend (set_recipient_state e r s) (suppressed_outcome r).

Definition skip_suppressed (id : Z) (e : Envelope) (due : list (list Z)) : queue (list (list Z)) := λ q,
  if negb (wk_suppression w) then (Ok due, q)
  else
    let test r := is_suppressed q r || is_suppressed_for q (ev_reverse_path e) r in
    let skipped := List.filter test due in
    let due := List.filter (λ r, negb (test r)) due in
    match skipped with
    | [] => (Ok due, q)
    | _ =>
        (q_bind (on_disk (update_envelope id (λ e, OutboundSpool.settle (fold_left skip_state skipped e)))) (λ _,
         q_bind (q_each (λ r, record_outcome e (suppressed_outcome r)) skipped) (λ _,
         q_ret due))) q
    end.

Definition refuse_unparseable (t : Tick) (id : Z) (recipients : list (list Z)) : queue unit :=
  q_bind (on_disk (load id)) (λ entry,
    record t id (se_envelope entry) (conversation_all recipients None (Permanent (lit "unparseable recipient address")))).

(** *** Giving up *)

Definition message_age (id now : Z) : Z := saturating_sub now (default now (uuid_secs id)).

Definition window_used (id : Z) (e : Envelope) (r : list Z) (now : Z) : Z :=
  saturating_sub (saturating_sub (message_age id now) (ev_held_secs e)) (warmup_wait (recipient_state e r) now).

Definition EXPIRED : list Z := lit "message expired in the queue".

Definition expire_state (e : Envelope) (r : list Z) : Envelope :=
  let s := set_expired (set_status (recipient_state e r) Failed) in
  let s := match rs_last_error s with None => set_error s (Some EXPIRED) | Some _ => s end in
  let reason := default [] (rs_last_error s) in
  intend (set_recipient_state e r s) (pending_from r OutExpired (rs_attempts s) (rs_remote s) (Some reason) None).

Definition expire (id : Z) (recipients : list (list Z)) : queue unit :=
  q_bind (on_disk (update_envelope id (λ e, OutboundSpool.settle (fold_left expire_state recipients e)))) (λ e,
  q_each (λ r, let s := recipient_state e r in
    record_outcome e (pending_from r OutExpired (rs_attempts s) (rs_remote s) (Some (default [] (rs_last_error s))) None)) recipients).

(** *** Reports *)

Definition send_report (id : Z) (message : AcceptedMessage) : queue ReportOutcome := λ q,
  let '(outcome, k) :=
    if wk_bounce_sink w then
      match sink_deliver_report message (q_sink q) with
      | (Ok _, k) => (Queued, k)
      | (Err (Gone _), k) => (Gone_, k)
      | (Err _, k) => (Refused, k)
      end
    else (Queued, q_sink q) in
  (Ok outcome, mkQueue (q_disk q) (q_suppressed q) (q_holds q) k (q_log q) (q_reports q ++ [(id, message, outcome)])).

Definition refuse_state (now : Z) (e : Envelope) (r : list Z) : Envelope :=
  let s := recipient_state e r in
  let s := set_report_attempts s (rs_report_attempts s + 1) in
  set_recipient_state e r
    (if MAX_REPORT_ATTEMPTS <=? rs_report_attempts s then set_reported s
     else set_report_after s (now + report_wait (rs_report_attempts s))).

Definition report_refused (id : Z) (unreported : list (list Z)) (now : Z) : queue unit :=
  q_bind (on_disk (update_envelope id (fold_left (refuse_state now) unreported))) (λ _, q_ret tt).

Definition mark_reported (e : Envelope) (r : list Z) : Envelope := set_recipient_state e r (set_reported (recipient_state e r)).

Definition unreported_of (e : Envelope) : list (list Z) :=
  List.filter (λ r, negb (rs_reported (recipient_state e r))) (recipients_in e Failed).

(** Whether there was something to report and it was reported. *)
Definition report_failures (t : Tick) (id : Z) : queue bool :=
  q_bind (on_disk (load id)) (λ entry,
    let e := se_envelope entry in
    let unreported := unreported_of e in
    if bool_decide (unreported = []) then q_ret false
    else if existsb (λ r, tk_now t <? rs_report_after (recipient_state e r)) unreported then q_ret false
    else
      let recipients := report_recipients e unreported in
      let done :=
        q_bind (on_disk (update_envelope id (fold_left mark_reported unreported))) (λ _, q_ret true) in
      match (if bool_decide (length recipients = 0%nat) then None
             else build_failed (wk_hostname w) (ev_reverse_path e) recipients (se_data entry) (tk_date t) (tk_secs t) (wk_auto_submitted w)) with
      | None => done
      | Some message =>
          q_bind (send_report id message) (λ outcome,
            match outcome with
            | Refused => q_bind (report_refused id unreported (tk_now t)) (λ _, q_ret false)
            | Queued | Gone_ => done
            end)
      end).

Definition warn_delayed (t : Tick) (id : Z) : queue unit := λ q,
  match on_disk (load id) q with
  | (Err _, q) => (Ok tt, q)
  | (Ok entry, q) =>
      let e := se_envelope entry in
      if ev_delay_warned e then (Ok tt, q)
      else
        let recipients := report_recipients e (pending e) in
        let warning :=
          if bool_decide (length recipients = 0%nat) then None
          else build_delay_warning (wk_hostname w) (ev_reverse_path e) recipients (se_data entry) (tk_date t) (tk_secs t) (wk_auto_submitted w) in
        q_bind (match warning with Some message => q_ignore (send_report id message) | None => q_ret tt end) (λ _,
          q_ignore (on_disk (mark_delay_warned id))) q
  end.

(** *** Settling an entry *)

(** [claimed] are the recipients of the entry another conversation holds. *)
Definition finish (t : Tick) (id : Z) (claimed : list (list Z)) : queue unit :=
  q_bind (on_disk (load_envelope id)) (λ e,
    let expired :=
      List.filter (λ r, wk_max_age_secs w <=? window_used id e r (tk_now t))
        (List.filter (λ r, negb (existsb (str_eqb r) claimed)) (pending e)) in
    q_bind (if bool_decide (expired = []) then q_ret tt else expire id expired) (λ _,
    q_bind (report_failures t id) (λ _,
    q_bind (on_disk (load_envelope id)) (λ e,
      let waiting := pending e in
      if bool_decide (waiting = []) then
        if negb (bool_decide (unreported_of e = [])) then q_ret tt
        else if bool_decide (ev_outcomes_pending e = []) then on_disk (remove id (tk_now t)) else q_ret tt
      else
        let age := default 0 (max_of (map (λ r, window_used id e r (tk_now t)) waiting)) in
        if sc_delay_warning (wk_schedule w) <=? age then warn_delayed t id else q_ret tt)))).

(** *** Outcomes owed from before *)

(** The outcomes written, up to the first the log does not take. *)
Fixpoint write_waiting (e : Envelope) (l : list PendingOutcome) (q : Queue K L) : list PendingOutcome * Queue K L :=
  match l with
  | [] => ([], q)
  | o :: l =>
      let '(written, log) := log_write e o (q_log q) in
      let q := set_log q log in
      if written then let '(done, q) := write_waiting e l q in (o :: done, q) else ([], q)
  end.

Definition write_waiting_entry (now id : Z) : queue unit := λ q,
  match on_disk (load_envelope id) q with
  | (Err _, q) => (Ok tt, q)
  | (Ok e, q) =>
      let '(written, q) := write_waiting e (ev_outcomes_pending e) q in
      match written with
      | [] => (Ok tt, q)
      | _ =>
          match on_disk (update_envelope id (release_outcomes written)) q with
          | (Err _, q) => (Ok tt, q)
          | (Ok e, q) =>
              if bool_decide (ev_outcomes_pending e = []) && bool_decide (pending e = [])
              then q_ignore (on_disk (remove id now)) q else (Ok tt, q)
          end
      end
  end.

Definition write_waiting_outcomes (now : Z) : queue unit := λ q,
  if negb (wk_evidence w) then (Ok tt, q)
  else match on_disk list_entries q with
       | (Err _, q) => (Ok tt, q)
       | (Ok ids, q) => q_each (write_waiting_entry now) ids q
       end.

End worker.
