(* ===== verification/QueueTheory.v ===== *)
(** What the outbound queue does with a message it took: the steps of the
    worker as a transition system, and the proof that an entry leaves the
    spool only when each of its recipients was delivered or failed, and that
    of every failure the sender was told or there was nobody to tell. *)

From stdpp Require Import gmap relations.
From S2P Require Import Prelude RustStd Utf8 IpNet Address HeaderBlock SmtpSession SieveMatch LocalDelivery Bounce QueueReply Dane OutboundClient OutboundSpool QueueWorker.

Local Open Scope Z_scope.

(** ** Definitions *)

(** What the worker did. *)
Inductive Event :=
| Talked (id : Z) (c : Conversation)
| Settled (id now : Z)
| Swept.

(** What no step changes of an entry. *)
Definition sealed (e : Envelope) : list Z * list (list Z) * list (list Z) * bool :=
  (ev_reverse_path e, ev_recipients e, ev_no_dsn e, ev_evidence e && evidence_mandatory (ev_class e)).
Definition identity (en : SpoolEntry) := (sealed (se_envelope en), se_data en).

Definition mandated (e : Envelope) : bool := ev_evidence e && evidence_mandatory (ev_class e).

Definition occurrences (r : list Z) (l : list (list Z)) : Z := Z.of_nat (length (List.filter (str_eqb r) l)).

Section theory.
Context `{UC : Unicode} `{ID : Idna} `{CE : Certificates} `{UU : Uuids} {K L : Type} `{RS : ReportSink K} `{EL : EvidenceLog L}.
Context (w : Worker).

Notation queue_state := (Queue K L).

Definition entry_at (q : queue_state) (id : Z) : option SpoolEntry := dk_entries (q_disk q) !! id.

Definition suppressed (q : queue_state) (rp r : list Z) : Prop :=
  is_suppressed q r = true ∨ is_suppressed_for q rp r = true.

(** Failure reports on the entry that name [r] and that the sink refused. *)
Definition refusals (q : queue_state) (id : Z) (en : SpoolEntry) (r : list Z) (ms : list AcceptedMessage) : Prop :=
  map (λ m, (id, m, Refused)) ms `sublist_of` q_reports q ∧
  Forall (report_on (ev_reverse_path (se_envelope en)) (se_data en) r) ms.

(** Why the sender of the entry hears no more about the failure of [r]. *)
Inductive told (q : queue_state) (id : Z) (en : SpoolEntry) (r : list Z) : Prop :=
| told_report m :
    (id, m, Queued) ∈ q_reports q → wk_bounce_sink w = true →
    report_on (ev_reverse_path (se_envelope en)) (se_data en) r m → told q id en r
| told_no_sink : wk_bounce_sink w = false → told q id en r
| told_gone m :
    (id, m, Gone_) ∈ q_reports q → report_on (ev_reverse_path (se_envelope en)) (se_data en) r m → told q id en r
| told_refused ms :
    refusals q id en r ms → MAX_REPORT_ATTEMPTS ≤ occurrences r (ev_recipients (se_envelope en)) * Z.of_nat (length ms) →
    told q id en r
| told_not_asked : r ∈ ev_no_dsn (se_envelope en) → told q id en r
| told_nobody : no_report (ev_reverse_path (se_envelope en)) (ev_recipients (se_envelope en)) → told q id en r
| told_suppressed : suppressed q (ev_reverse_path (se_envelope en)) r → told q id en r.

(** Why [r] failed: a conversation said so, or the entry grew too old, or [r]
    is on the suppression list. *)
Inductive cause (h : list Event) (q : queue_state) (id : Z) (en : SpoolEntry) (r : list Z) : Prop :=
| cause_refused c reason : Talked id c ∈ h → (r, Err (Permanent reason)) ∈ co_results c → cause h q id en r
| cause_expired now : Settled id now ∈ h → wk_max_age_secs w ≤ message_age id now → cause h q id en r
| cause_suppressed : suppressed q (ev_reverse_path (se_envelope en)) r → cause h q id en r.

Definition taken (h : list Event) (id : Z) (r : list Z) : Prop := ∃ c, Talked id c ∈ h ∧ (r, Ok tt) ∈ co_results c.

(** What became of a recipient of an entry that is gone. *)
Inductive fate (h : list Event) (q : queue_state) (id : Z) (en : SpoolEntry) (r : list Z) : Prop :=
| fate_taken : taken h id r → fate h q id en r
| fate_failed : cause h q id en r → told q id en r → fate h q id en r
| fate_swept :
    cause h q id en r → Swept ∈ h → wk_evidence w = true → mandated (se_envelope en) = true → fate h q id en r.

(** ** The steps *)

Record World := mkWorld { wo_queue : queue_state; wo_stored : list (Z * SpoolEntry); wo_history : list Event }.

Definition moves (W : World) (ev : list Event) (q : queue_state) : World := mkWorld q (wo_stored W) (ev ++ wo_history W).

(** Identifiers are never used again. A step that fails leaves what it had
    done. Reads of the spool and changes of the holds change no entry. *)
Inductive act : World → World → Prop :=
| act_store W message id options q' en :
    id ∉ map fst (wo_stored W) →
    on_disk (store_with message id options) (wo_queue W) = (Ok id, q') →
    entry_at q' id = Some en →
    act W (mkWorld q' ((id, en) :: wo_stored W) (wo_history W))
| act_store_fails W message id options error q' :
    on_disk (store_with message id options) (wo_queue W) = (Err error, q') →
    act W (moves W [] q')
| act_record W t id entry c :
    act W (moves W [Talked id c] (record w t id entry c (wo_queue W)).2)
| act_skip W id entry due :
    (∀ en, entry_at (wo_queue W) id = Some en → ev_reverse_path entry = ev_reverse_path (se_envelope en)) →
    act W (moves W [] (skip_suppressed w id entry due (wo_queue W)).2)
| act_refuse W t id recipients :
    act W (moves W [Talked id (conversation_all recipients None (Permanent (lit "unparseable recipient address")))]
             (refuse_unparseable w t id recipients (wo_queue W)).2)
| act_finish W t id claimed :
    act W (moves W [Settled id (tk_now t)] (finish w t id claimed (wo_queue W)).2)
| act_sweep W now :
    act W (moves W [Swept] (write_waiting_outcomes w now (wo_queue W)).2)
| act_operator W id now (held : bool) :
    act W (moves W [] (on_disk (update_envelope id (λ e, if held then hold e now else release e now)) (wo_queue W)).2)
| act_read W q' :
    (∀ id, entry_at q' id = entry_at (wo_queue W) id) → q_reports q' = q_reports (wo_queue W) →
    q_suppressed q' = q_suppressed (wo_queue W) →
    act W (moves W [] q').

(** ** The invariant *)

Definition state_ok (h : list Event) (q : queue_state) (id : Z) (en : SpoolEntry) (r : list Z) (s : RecipientState) : Prop :=
  (rs_status s = Delivered → taken h id r) ∧
  (rs_status s = Failed → cause h q id en r) ∧
  (rs_reported s = true → told q id en r) ∧
  (r ∈ ev_no_dsn (se_envelope en) ∨
   ∃ ms, refusals q id en r ms ∧ rs_report_attempts s ≤ occurrences r (ev_recipients (se_envelope en)) * Z.of_nat (length ms)) ∧
  0 ≤ rs_waited s.

Definition entry_ok (h : list Event) (q : queue_state) (id : Z) (en : SpoolEntry) : Prop :=
  tracked (se_envelope en) ∧
  (mandated (se_envelope en) = false → ev_outcomes_pending (se_envelope en) = []) ∧
  0 ≤ ev_held_secs (se_envelope en) ∧
  ∀ r, r ∈ ev_recipients (se_envelope en) → state_ok h q id en r (recipient_state (se_envelope en) r).

Definition sound (h : list Event) (q : queue_state) : Prop := ∀ id en, entry_at q id = Some en → entry_ok h q id en.

Definition later (q q' : queue_state) : Prop := q_reports q `prefix_of` q_reports q' ∧ q_suppressed q ⊆ q_suppressed q'.

(** An entry keeps its identity, or its recipients have met their fate. *)
Definition kept (h : list Event) (q' : queue_state) (id : Z) (en : SpoolEntry) : Prop :=
  match entry_at q' id with
  | Some en' => identity en' = identity en
  | None => ∀ r, r ∈ ev_recipients (se_envelope en) → fate h q' id en r
  end.

Definition evolves (h : list Event) (q q' : queue_state) : Prop :=
  sound h q →
    sound h q' ∧ later q q' ∧
    ∀ id, match entry_at q id with Some en => kept h q' id en | None => entry_at q' id = None end.

(** ** What only grows *)

Lemma later_refl q : later q q. Proof. by split. Qed.
Lemma later_trans q1 q2 q3 : later q1 q2 → later q2 q3 → later q1 q3.
Proof. intros [H1 H2] [H3 H4]. split; [by etrans|set_solver]. Qed.

Lemma identity_inv en en' : identity en' = identity en →
  ev_reverse_path (se_envelope en') = ev_reverse_path (se_envelope en) ∧
  ev_recipients (se_envelope en') = ev_recipients (se_envelope en) ∧
  ev_no_dsn (se_envelope en') = ev_no_dsn (se_envelope en) ∧
  mandated (se_envelope en') = mandated (se_envelope en) ∧ se_data en' = se_data en.
Proof. unfold identity, sealed, mandated. intros [= ? ? ? ? ?]. done. Qed.

Ltac unseal H := apply identity_inv in H as (Hrp & Hrcpt & Hdsn & Hmand & Hdata).

Section growing.
Context (q q' : queue_state) (id : Z) (en en' : SpoolEntry) (r : list Z).
Context (Hq : later q q') (Hen : identity en' = identity en).

Lemma suppressed_grows rp : suppressed q rp r → suppressed q' rp r.
Proof.
  destruct Hq as [_ Hs]. unfold suppressed, is_suppressed, is_suppressed_for. rewrite !bool_decide_eq_true. set_solver.
Qed.

Lemma refusals_grows ms : refusals q id en r ms → refusals q' id en' r ms.
Proof.
  intros [H1 H2]. destruct Hq as [[k Hk] _]. pose proof Hen as Hen'. unseal Hen'. split; [|by rewrite Hrp, Hdata].
  rewrite Hk. by apply sublist_inserts_r.
Qed.

Lemma reports_grows x : x ∈ q_reports q → x ∈ q_reports q'.
Proof. destruct Hq as [[k ->] _]. set_solver. Qed.

Lemma told_grows : told q id en r → told q' id en' r.
Proof.
  pose proof Hen as Hen'. unseal Hen'. intros [m ? ? ?|?|m ? ?|ms Hr ?|?|?|?].
  - eapply told_report; [by apply reports_grows|done|by rewrite Hrp, Hdata].
  - by apply told_no_sink.
  - eapply told_gone; [by apply reports_grows|by rewrite Hrp, Hdata].
  - eapply told_refused; [by apply refusals_grows|by rewrite Hrcpt].
  - apply told_not_asked. by rewrite Hdsn.
  - apply told_nobody. by rewrite Hrp, Hrcpt.
  - apply told_suppressed. rewrite Hrp. by apply suppressed_grows.
Qed.

Context (h h' : list Event) (Hh : h ⊆ h').

Lemma cause_grows : cause h q id en r → cause h' q' id en' r.
Proof.
  pose proof Hen as Hen'. unseal Hen'. intros [c reason Hc ?|now Hs ?|?].
  - eapply cause_refused; [by apply Hh|done].
  - eapply cause_expired; [by apply Hh|done].
  - apply cause_suppressed. rewrite Hrp. by apply suppressed_grows.
Qed.

Lemma taken_grows : taken h id r → taken h' id r.
Proof. intros (c & Hc & ?). exists c. split; [by apply Hh|done]. Qed.

Lemma outcome_grows : fate h q id en r → fate h' q' id en' r.
Proof.
  pose proof Hen as Hen'. unseal Hen'. intros [?|? ?|? Hs ? ?].
  - by apply fate_taken, taken_grows.
  - apply fate_failed; [by apply cause_grows|by apply told_grows].
  - apply fate_swept; [by apply cause_grows|by apply Hh|done|congruence].
Qed.

Lemma state_ok_grows s : state_ok h q id en r s → state_ok h' q' id en' r s.
Proof.
  pose proof Hen as Hen'. unseal Hen'. intros (H1 & H2 & H3 & H4 & H5). split_and!; [| | | |done].
  - intros ?. by apply taken_grows, H1.
  - intros ?. by apply cause_grows, H2.
  - intros ?. by apply told_grows, H3.
  - rewrite Hdsn, Hrcpt. destruct H4 as [?|(ms & Hms & ?)]; [by left|right]. exists ms. split; [by apply refusals_grows|done].
Qed.

End growing.

Lemma entry_ok_grows h h' q q' id en : h ⊆ h' → later q q' → entry_ok h q id en → entry_ok h' q' id en.
Proof. intros Hh Hq (H1 & H2 & H3 & H4). split_and!; [done..|]. intros r Hr. by apply (state_ok_grows q q' id en en r Hq eq_refl h h' Hh), H4. Qed.

Lemma sound_history h h' q : h ⊆ h' → sound h q → sound h' q.
Proof. intros Hh Hs id en Hen. eapply entry_ok_grows; [done|apply later_refl|by apply Hs]. Qed.

(** ** Evolutions *)

Lemma kept_trans h q1 q2 id en en' :
  later q1 q2 → identity en' = identity en → kept h q2 id en' → kept h q2 id en.
Proof.
  unfold kept. intros Hl Hen. destruct (entry_at q2 id) as [en2|]; [congruence|]. intros Hf r Hr.
  apply (outcome_grows q2 q2 id en' en r (later_refl q2) (eq_sym Hen) h h); [done|]. apply Hf.
  pose proof Hen as Hen'. unseal Hen'. by rewrite Hrcpt.
Qed.

Lemma evolves_refl h q : evolves h q q.
Proof. intros Hs. split_and!; [done|apply later_refl|]. intros id. unfold kept. by destruct (entry_at q id). Qed.

Lemma kept_later h q q' id en : later q q' → entry_at q' id = None → entry_at q id = None → kept h q id en → kept h q' id en.
Proof.
  unfold kept. intros Hl -> -> Hf r Hr. apply (outcome_grows q q' id en en r Hl eq_refl h h); [done|by apply Hf].
Qed.

Lemma evolves_trans h q1 q2 q3 : evolves h q1 q2 → evolves h q2 q3 → evolves h q1 q3.
Proof.
  intros H12 H23 H1. destruct (H12 H1) as (H2 & L12 & K12). destruct (H23 H2) as (H3 & L23 & K23).
  split_and!; [done|by eapply later_trans|]. intros id. specialize (K12 id). specialize (K23 id).
  destruct (entry_at q1 id) as [en|].
  - destruct (entry_at q2 id) as [en2|] eqn:E2; [|by eapply kept_later].
    unfold kept in K12. rewrite E2 in K12. by eapply kept_trans.
  - by rewrite K12 in K23.
Qed.

(** A step that changes no entry. *)
Lemma evolves_entries h q q' :
  (∀ id, entry_at q' id = entry_at q id) → later q q' → evolves h q q'.
Proof.
  intros He Hl Hs. split_and!; [|done|].
  - intros id en. rewrite He. intros Hen. eapply entry_ok_grows; [done|done|by apply Hs].
  - intros id. unfold kept. rewrite He. by destruct (entry_at q id).
Qed.

Lemma evolves_on h q q' : (sound h q → evolves h q q') → evolves h q q'.
Proof. intros H Hs. by apply H. Qed.

Lemma later_set_disk q d : later q (set_disk q d). Proof. by split. Qed.

Lemma next_fault_entries d : dk_entries (next_fault d).2 = dk_entries d.
Proof. unfold next_fault. by destruct (dk_faults d). Qed.

(** An edit of an entry. *)
Definition edits (h : list Event) (q : queue_state) (id : Z) (f : Envelope → Envelope) : Prop :=
  ∀ e data, entry_at q id = Some (mkEntry e data) → entry_ok h q id (mkEntry e data) →
    sealed (f e) = sealed e ∧ entry_ok h q id (mkEntry (f e) data).

Lemma put_evolves h q d id e e' data :
  dk_entries d = dk_entries (q_disk q) →
  entry_at q id = Some (mkEntry e data) →
  sealed e' = sealed e → (entry_ok h q id (mkEntry e data) → entry_ok h q id (mkEntry e' data)) →
  evolves h q (set_disk q (put_entry d id (mkEntry e' data))).
Proof.
  intros Hd Hen Hsl Hok Hs.
  assert (Hat : ∀ id', entry_at (set_disk q (put_entry d id (mkEntry e' data))) id' =
    if decide (id' = id) then Some (mkEntry e' data) else entry_at q id').
  { intros id'. unfold entry_at, set_disk, put_entry. cbn [q_disk dk_entries]. rewrite Hd.
    destruct (decide (id' = id)) as [->|]; [by rewrite lookup_insert_eq|by rewrite lookup_insert_ne]. }
  split_and!; [|apply later_set_disk|].
  - intros id' en'. rewrite Hat. destruct (decide (id' = id)) as [->|].
    + intros [= <-]. apply (entry_ok_grows h h q); [done|apply later_set_disk|by apply Hok, Hs].
    + intros Hen'. apply (entry_ok_grows h h q); [done|apply later_set_disk|by apply Hs].
  - intros id'. unfold kept. rewrite Hat. destruct (decide (id' = id)) as [->|].
    + rewrite Hen. unfold identity. cbn [se_envelope se_data]. by rewrite Hsl.
    + by destruct (entry_at q id').
Qed.

Lemma update_evolves h q id f : edits h q id f → evolves h q (on_disk (update_envelope id f) q).2.
Proof.
  intros Hf. unfold on_disk, update_envelope. destruct (next_fault (q_disk q)) as [fault d] eqn:Ed.
  assert (Hd : dk_entries d = dk_entries (q_disk q)) by (pose proof (next_fault_entries (q_disk q)) as H; by rewrite Ed in H).
  destruct fault; [by apply evolves_entries; [intros ?; unfold entry_at; simpl; by rewrite Hd|]|].
  destruct (dk_entries d !! id) as [[e data]|] eqn:Een;
    [|by apply evolves_entries; [intros ?; unfold entry_at; simpl; by rewrite Hd|]].
  cbn [snd se_envelope se_data]. intros Hs. rewrite Hd in Een.
  destruct (Hf e data Een (Hs _ _ Een)) as [H1 H2]. by eapply put_evolves.
Qed.

Lemma load_evolves h q id r q' : on_disk (load id) q = (r, q') →
  (∀ id', entry_at q' id' = entry_at q id') ∧ later q q' ∧ evolves h q q' ∧ (∀ en, r = Ok en → entry_at q id = Some en) ∧
  q_reports q' = q_reports q ∧ q_suppressed q' = q_suppressed q ∧ q_log q' = q_log q.
Proof.
  unfold on_disk, load. pose proof (next_fault_entries (q_disk q)) as Hd. destruct (next_fault (q_disk q)) as [fault d].
  simpl in Hd. intros Hr.
  assert (He : ∀ id', entry_at (set_disk q d) id' = entry_at q id') by (intros ?; unfold entry_at; simpl; by rewrite Hd).
  destruct fault; injection Hr as <- <-; (split_and!; [done|done|by apply evolves_entries| |done..]); intros en; [done|].
  rewrite Hd. unfold entry_at. by destruct (_ !! id) eqn:E; intros [= <-].
Qed.

(** ** Edits of an envelope *)

Section editing.
Context (h : list Event) (q : queue_state) (id : Z) (data : list Z) (S : list Z * list (list Z) * list (list Z) * bool).

Definition fits (e : Envelope) : Prop := sealed e = S ∧ entry_ok h q id (mkEntry e data).

(** An edit that leaves the recipients as they are. *)
Lemma fits_plain e e' :
  sealed e' = sealed e → tracked e' → (ev_outcomes_pending e = [] → mandated e = false → ev_outcomes_pending e' = []) →
  (0 ≤ ev_held_secs e → 0 ≤ ev_held_secs e') →
  (∀ r, r ∈ ev_recipients e → recipient_state e' r = recipient_state e r) →
  fits e → fits e'.
Proof.
  intros Hsl Ht Ho Hh Hr [HS (H1 & H2 & H3 & H4)]. split; [congruence|].
  assert (Hi : identity (mkEntry e' data) = identity (mkEntry e data)) by (unfold identity; simpl; congruence).
  pose proof Hi as Hi'. unseal Hi'. cbn [se_envelope] in *.
  split_and!; simpl; [done|intros ?; apply Ho; [by apply H2; congruence|congruence]|by apply Hh|].
  intros r Hr'. rewrite Hrcpt in Hr'. rewrite Hr by done.
  eapply (state_ok_grows q q id (mkEntry e data)); [apply later_refl|done|done|by apply H4].
Qed.

Lemma fits_set e r s :
  fits e → (r ∈ ev_recipients e → state_ok h q id (mkEntry e data) r s) → fits (set_recipient_state e r s).
Proof.
  intros [HS (H1 & H2 & H3 & H4)] Hs. split; [done|].
  split_and!; simpl; [by apply tracked_set|done|done|].
  intros r' Hr'. rewrite recipient_state_set. cbn [se_envelope] in *.
  destruct (decide (r' = r)) as [->|]; (eapply (state_ok_grows q q id (mkEntry e data)); [apply later_refl|done|done|]); [by apply Hs|by apply H4].
Qed.

Lemma fits_last_error e v : fits e → fits (set_last_error e v).
Proof. intros He. apply (fits_plain e); try done. apply He. Qed.

Lemma fits_intend e o : fits e → fits (intend e o).
Proof.
  intros He. unfold intend. destruct (negb (ev_evidence e) || negb (evidence_mandatory (ev_class e))) eqn:Em; [done|].
  assert (Hm : mandated e = true) by (unfold mandated; by destruct (ev_evidence e), (evidence_mandatory (ev_class e))).
  apply fits_last_error. case_bool_decide; [done|].
  apply (fits_plain e); try done; [apply He|]. intros _. by rewrite Hm.
Qed.

Lemma fits_settle e : fits e → fits (OutboundSpool.settle e).
Proof.
  intros He. destruct He as [HS He'] eqn:E. pose proof He' as (Ht & _).
  apply (fits_plain e); [done|by apply tracked_settle|done|done| |done].
  intros r Hr. by apply recipient_state_settle.
Qed.

Lemma fits_release e written : fits e → fits (release_outcomes written e).
Proof.
  intros He. unfold release_outcomes.
  assert (Ho : fits (set_outcomes e (List.filter (λ o, negb (bool_decide (o ∈ written))) (ev_outcomes_pending e)))).
  { apply (fits_plain e); try done; [apply He|]. cbn [set_outcomes ev_outcomes_pending]. by intros ->. }
  case_bool_decide; [by apply fits_last_error|done].
Qed.

Lemma fits_fold {A} (f : Envelope → A → Envelope) l e :
  (∀ e a, a ∈ l → fits e → fits (f e a)) → fits e → fits (fold_left f l e).
Proof.
  revert e. induction l as [|a l IH]; intros e Hf He; [done|]. simpl. apply IH; [|apply Hf; [by left|done]].
  intros e' a' Ha'. apply Hf. by right.
Qed.

Lemma fits_state e r : fits e → r ∈ ev_recipients e → state_ok h q id (mkEntry e data) r (recipient_state e r).
Proof. intros [_ (_ & _ & _ & H)]. apply H. Qed.

End editing.

Lemma edits_fits h q id f :
  (∀ e data, entry_at q id = Some (mkEntry e data) → fits h q id data (sealed e) e → fits h q id data (sealed e) (f e)) →
  edits h q id f.
Proof. intros Hf e data Hen Hok. apply (Hf e data Hen). by split. Qed.

(** *** Recording a conversation *)

Lemma end_cap_wait_ok h q id en r s now : state_ok h q id en r s → state_ok h q id en r (end_cap_wait s now).
Proof.
  unfold end_cap_wait. destruct (rs_warmup s); [|done]. intros (H1 & H2 & H3 & H4 & H5). split_and!; try done.
  simpl. unfold saturating_add, saturating_sub, u64_max. lia.
Qed.

Lemma set_remote_ok h q id en r s v : state_ok h q id en r s → state_ok h q id en r (set_remote s v).
Proof. done. Qed.

Lemma deferred_ok h q id en r sc sp slow now s reason :
  state_ok h q id en r s → state_ok h q id en r (deferred sc sp slow now s reason).
Proof. intros H. unfold deferred. destruct (logs_deferral s reason), slow as [[? [?|] ? ? ?]|]; exact H. Qed.

Lemma answered_ok h q id en sc sp c slow now r res s :
  Talked id c ∈ h → (r, res) ∈ co_results c →
  state_ok h q id en r s → state_ok h q id en r (answered sc sp c slow now r res s).1.
Proof.
  intros Hc Hres Hs. unfold answered.
  assert (Hs' : state_ok h q id en r (set_remote (end_cap_wait s now) (co_remote c))) by by apply set_remote_ok, end_cap_wait_ok.
  generalize dependent (set_remote (end_cap_wait s now) (co_remote c)). clear Hs. intros s' Hs.
  destruct Hs as (H1 & H2 & H3 & H4 & H5).
  destruct res as [[]|error]; [split_and!; try done; intros _; by exists c|].
  destruct (existsb (str_eqb r) (retry_now c)); [by split_and!|].
  destruct error as [reason|reason].
  - destruct (co_held_until c); [by split_and!|]. simpl. by apply deferred_ok.
  - split_and!; try done. intros _. by eapply cause_refused.
Qed.

Lemma apply_result_fits h q id data S sc sp entry c slow now e a :
  Talked id c ∈ h → a ∈ co_results c → fits h q id data S e → fits h q id data S (apply_result sc sp entry c slow now e a).
Proof.
  intros Hc Ha He. destruct a as [r res]. unfold apply_result.
  destruct (capped_for c r) as [capped|].
  - apply fits_set; [done|]. intros Hr. exact (fits_state _ _ _ _ _ _ _ He Hr).
  - pose proof (λ Hr, answered_ok h q id (mkEntry e data) sc sp c slow now r res _ Hc Ha (fits_state _ _ _ _ _ _ _ He Hr)) as Hs.
    destruct (answered _ _ _ _ _ _ _ _) as [s error]. cbn [fst] in Hs.
    assert (He' : fits h q id data S (set_recipient_state (match error with Some error => set_last_error e error | None => e end) r s)).
    { apply fits_set; [by destruct error; [apply fits_last_error|]|]. intros Hr.
      eapply (state_ok_grows q q id (mkEntry e data)); [apply later_refl|by destruct error|done|apply Hs; by destruct error]. }
    destruct (owed _ _ _ _); [by apply fits_intend|done].
Qed.

Lemma apply_conversation_edits h q id sc sp entry c slow now :
  Talked id c ∈ h → edits h q id (apply_conversation sc sp entry c slow now).
Proof.
  intros Hc. apply edits_fits. intros e data _ He. apply fits_settle, fits_fold; [|done]. intros e' a Ha. by apply apply_result_fits.
Qed.

(** ** Steps of the worker *)

Lemma bind_evolves {A B} h (m : queue A) (k : A → queue B) q :
  evolves h q (m q).2 → (∀ a q', m q = (Ok a, q') → evolves h q' (k a q').2) → evolves h q (q_bind m k q).2.
Proof.
  intros Hm Hk. unfold q_bind. destruct (m q) as [[a|e] q'] eqn:E; [|done].
  eapply evolves_trans; [exact Hm|by apply Hk].
Qed.

Lemma each_evolves {A} h (f : A → queue unit) l q :
  (∀ a q, a ∈ l → evolves h q (f a q).2) → evolves h q (q_each f l q).2.
Proof.
  revert q. induction l as [|a l IH]; intros q Hf; [apply evolves_refl|]. simpl. apply bind_evolves; [apply Hf; by left|].
  intros _ q' _. apply IH. intros a' q'' Ha. apply Hf. by right.
Qed.

Lemma log_evolves h q l : evolves h q (set_log q l).
Proof. by apply evolves_entries. Qed.

Lemma record_outcome_evolves h e o q : evolves h q (record_outcome w e o q).2.
Proof.
  unfold record_outcome. destruct (negb _); [apply evolves_refl|]. destruct (log_write e o (q_log q)) as [written l].
  eapply evolves_trans; [apply (log_evolves h q l)|]. destruct written; [|apply evolves_refl].
  apply update_evolves, edits_fits. intros e' data _. apply fits_release.
Qed.

Lemma write_owed_evolves h e q : evolves h q (write_owed w e q).2.
Proof. unfold write_owed. destruct (negb _); [apply evolves_refl|apply log_evolves]. Qed.

Lemma write_marker_evolves h key q : evolves h q (write_marker key q).2.
Proof.
  unfold write_marker. pose proof (next_fault_entries (q_disk q)) as Hd. destruct (next_fault (q_disk q)) as [fault d].
  simpl in *. apply evolves_entries; [intros id; unfold entry_at; simpl; by rewrite Hd|].
  split; [done|]. simpl. destruct fault; set_solver.
Qed.

Lemma suppress_evolves h account r q : evolves h q (suppress w account r q).2.
Proof.
  unfold suppress. destruct (negb _); [apply evolves_refl|]. apply bind_evolves; [apply write_marker_evolves|].
  intros _ q' _. destruct (is_empty account); [apply evolves_refl|apply write_marker_evolves].
Qed.

Lemma after_conversation_evolves h e c q : evolves h q (after_conversation w e c q).2.
Proof.
  unfold after_conversation. destruct (co_held_until c); [apply evolves_refl|]. apply each_evolves. intros [r res] q' _.
  unfold after_result. case_bool_decide; [apply evolves_refl|]. destruct (existsb _ _); [apply evolves_refl|].
  destruct res as [[]|[reason|reason]]; [apply record_outcome_evolves|apply evolves_refl|].
  apply bind_evolves; [apply record_outcome_evolves|]. intros _ q'' _.
  destruct (vd_suppress _); [apply suppress_evolves|apply evolves_refl].
Qed.

Lemma note_slow_evolves h sl q : evolves h q (note_slow sl q).2.
Proof. by apply evolves_entries. Qed.

Lemma record_evolves h t id entry c q : Talked id c ∈ h → evolves h q (record w t id entry c q).2.
Proof.
  intros Hc. unfold record.
  pose proof (update_evolves h q id _ (apply_conversation_edits h q id (wk_schedule w) (tk_spread t) entry c
    (slow_down (wk_backoff_steps w) (q_holds q) entry c (tk_now t)) (tk_now t) Hc)) as Hu.
  destruct (on_disk _ q) as [[e|[]] q'] eqn:E; cbn [snd] in *; try done.
  - eapply evolves_trans; [exact Hu|]. apply bind_evolves; [destruct (slow_down _ _ _ _ _); [apply note_slow_evolves|apply evolves_refl]|].
    intros _ q'' _. apply after_conversation_evolves.
  - eapply evolves_trans; [exact Hu|]. apply write_owed_evolves.
Qed.

Lemma refuse_unparseable_evolves h t id recipients q :
  Talked id (conversation_all recipients None (Permanent (lit "unparseable recipient address"))) ∈ h →
  evolves h q (refuse_unparseable w t id recipients q).2.
Proof.
  intros Hc. unfold refuse_unparseable. apply bind_evolves.
  - destruct (on_disk (load id) q) as [r q'] eqn:E. by apply (load_evolves h) in E as (_ & _ & ? & _).
  - intros entry q' _. by apply record_evolves.
Qed.

Lemma skip_state_fits h q id data S e r :
  fits h q id data S e → suppressed q (ev_reverse_path e) r → fits h q id data S (skip_state e r).
Proof.
  intros He Hr. unfold skip_state. apply fits_intend, fits_set; [done|]. intros Hin.
  destruct (fits_state _ _ _ _ _ _ _ He Hin) as (H1 & H2 & H3 & H4 & H5). split_and!; try done; intros _;
    [by apply cause_suppressed|by apply told_suppressed].
Qed.

Lemma skip_suppressed_evolves h id e due q :
  (∀ en, entry_at q id = Some en → ev_reverse_path e = ev_reverse_path (se_envelope en)) →
  evolves h q (skip_suppressed w id e due q).2.
Proof.
  intros Hrp. unfold skip_suppressed. destruct (negb _); [apply evolves_refl|].
  set (skipped := List.filter _ due).
  assert (Hsk : ∀ r, r ∈ skipped → suppressed q (ev_reverse_path e) r).
  { intros r Hr%list_elem_of_In%filter_In. destruct Hr as [_ Hr%orb_prop]. exact Hr. }
  destruct skipped as [|r0 skipped']; [apply evolves_refl|]. apply bind_evolves.
  - apply update_evolves, edits_fits. intros e' data Hen He'. apply fits_settle.
    apply fits_fold; [|done]. intros e'' r Hr He''. apply skip_state_fits; [done|].
    specialize (Hrp _ Hen). cbn [se_envelope] in Hrp. assert (Hs : ev_reverse_path e'' = ev_reverse_path e').
    { destruct He'' as [Hs _]. unfold sealed in Hs. congruence. }
    rewrite Hs, <-Hrp. by apply Hsk.
  - intros e' q' _. apply bind_evolves; [|intros; apply evolves_refl]. apply each_evolves. intros. apply record_outcome_evolves.
Qed.

(** *** Giving up *)

Lemma window_used_age id e r now :
  0 ≤ ev_held_secs e → 0 ≤ rs_waited (recipient_state e r) → window_used id e r now ≤ message_age id now.
Proof.
  intros H1 H2. unfold window_used, warmup_wait, message_age, saturating_sub, saturating_add, u64_max.
  destruct (rs_warmup _); lia.
Qed.

Lemma expire_state_fits h q id data S e r now :
  Settled id now ∈ h → wk_max_age_secs w ≤ message_age id now →
  fits h q id data S e → fits h q id data S (expire_state e r).
Proof.
  intros Hn Hage He. unfold expire_state.
  set (s := set_expired _). set (s' := match rs_last_error s with None => _ | Some _ => _ end).
  assert (Hs' : r ∈ ev_recipients e → state_ok h q id (mkEntry e data) r s').
  { intros Hin. destruct (fits_state _ _ _ _ _ _ _ He Hin) as (H1 & H2 & H3 & H4 & H5).
    assert (state_ok h q id (mkEntry e data) r s) by (split_and!; try done; intros _; by eapply cause_expired).
    unfold s'. by destruct (rs_last_error s). }
  by apply fits_intend, fits_set.
Qed.

Lemma expire_evolves h q id recipients now :
  Settled id now ∈ h → wk_max_age_secs w ≤ message_age id now → evolves h q (expire w id recipients q).2.
Proof.
  intros Hn Hage. apply bind_evolves.
  - apply update_evolves, edits_fits. intros e data _ He. apply fits_settle, fits_fold; [|done].
    intros e' r _. by eapply expire_state_fits.
  - intros e q' _. apply each_evolves. intros. apply record_outcome_evolves.
Qed.

(** *** Reports *)

Lemma report_names e l r :
  r ∈ map rr_recipient (report_recipients e l) ↔ r ∈ l ∧ r ∉ ev_no_dsn e.
Proof.
  unfold report_recipients. rewrite map_map. simpl. rewrite map_id, list_elem_of_In, filter_In, <-list_elem_of_In.
  rewrite negb_true_iff, <-not_true_iff_false, existsb_exists. f_equiv. f_equiv. split.
  - intros (x & Hx & ->%str_eqb_eq). by apply list_elem_of_In.
  - intros Hr. exists r. split; [by apply list_elem_of_In|by apply str_eqb_eq].
Qed.

Lemma elem_unreported e r :
  r ∈ unreported_of e ↔ r ∈ ev_recipients e ∧ rs_status (recipient_state e r) = Failed ∧ rs_reported (recipient_state e r) = false.
Proof.
  unfold unreported_of. rewrite list_elem_of_In, filter_In, <-list_elem_of_In, elem_recipients_in, negb_true_iff. naive_solver.
Qed.

Lemma mark_reported_edits h q id l :
  (∀ en r, entry_at q id = Some en → r ∈ l → told q id en r) → edits h q id (fold_left mark_reported l).
Proof.
  intros Ht. apply edits_fits. intros e data Hen He. apply fits_fold; [|done]. intros e' r Hr He'.
  apply fits_set; [done|]. intros Hin. destruct (fits_state _ _ _ _ _ _ _ He' Hin) as (H1 & H2 & H3 & H4 & H5).
  split_and!; try done. intros _. apply (told_grows q q id (mkEntry e data)); [apply later_refl| |by apply Ht].
  destruct He' as [Hs _]. unfold identity. simpl. by rewrite Hs.
Qed.

(** *** A report the sink refused *)

Lemma occurrences_step r x l : occurrences r (x :: l) = (if str_eqb r x then 1 else 0) + occurrences r l.
Proof. unfold occurrences. simpl. destruct (str_eqb r x); simpl length; lia. Qed.

Lemma occurrences_filter r P l : occurrences r (List.filter P l) ≤ occurrences r l.
Proof.
  induction l as [|x l IH]; [done|]. simpl. destruct (P x); rewrite !occurrences_step; destruct (str_eqb r x); lia.
Qed.

Lemma refuse_fold now l e r :
  let s := recipient_state e r in
  let s' := recipient_state (fold_left (refuse_state now) l e) r in
  rs_status s' = rs_status s ∧ rs_waited s' = rs_waited s ∧
  rs_report_attempts s' = rs_report_attempts s + occurrences r l ∧
  (rs_reported s' = true → rs_reported s = true ∨ r ∈ l ∧ MAX_REPORT_ATTEMPTS ≤ rs_report_attempts s').
Proof.
  cbv zeta. revert e. induction l as [|x l IH]; intros e; simpl fold_left.
  { split_and!; try done; [unfold occurrences; simpl; lia|by left]. }
  destruct (IH (refuse_state now e x)) as (H1 & H2 & H3 & H4). rewrite occurrences_step.
  assert (Hx : recipient_state (refuse_state now e x) r = if decide (r = x) then
      let s := set_report_attempts (recipient_state e x) (rs_report_attempts (recipient_state e x) + 1) in
      if MAX_REPORT_ATTEMPTS <=? rs_report_attempts s then set_reported s else set_report_after s (now + report_wait (rs_report_attempts s))
    else recipient_state e r) by apply recipient_state_set.
  rewrite Hx in *. destruct (decide (r = x)) as [<-|Hne].
  - rewrite str_eqb_refl.
    assert (Hpos : 0 ≤ occurrences r l) by (unfold occurrences; lia). cbv zeta in *.
    destruct (MAX_REPORT_ATTEMPTS <=? rs_report_attempts _) eqn:Em; simpl in H1, H2, H3, H4, Em.
    + split_and!; [done|done|lia|]. intros _. right. split; [by left|]. apply Z.leb_le in Em. rewrite H3. lia.
    + split_and!; [done|done|lia|]. intros Hr. destruct (H4 Hr) as [?|[??]]; [by left|right]. split; [by right|done].
  - rewrite str_eqb_neq by done.
    split_and!; [done|done|lia|]. intros Hr. destruct (H4 Hr) as [?|[??]]; [by left|right]. split; [by right|done].
Qed.

Lemma refuse_keeps now l e :
  let e' := fold_left (refuse_state now) l e in
  sealed e' = sealed e ∧ (tracked e → tracked e') ∧ ev_outcomes_pending e' = ev_outcomes_pending e ∧ ev_held_secs e' = ev_held_secs e.
Proof.
  cbv zeta. revert e. induction l as [|x l IH]; intros e; [done|]. simpl. destruct (IH (refuse_state now e x)) as (H1 & H2 & H3 & H4).
  rewrite H1, H3, H4. split_and!; try done. intros Ht. apply H2, tracked_set, Ht.
Qed.

Lemma refuse_edits h q q0 id e data now m :
  entry_at q id = Some (mkEntry e data) → entry_ok h q0 id (mkEntry e data) →
  q_reports q = q_reports q0 ++ [(id, m, Refused)] → later q0 q →
  (∀ r, r ∈ unreported_of e → r ∉ ev_no_dsn e → report_on (ev_reverse_path e) data r m) →
  edits h q id (fold_left (refuse_state now) (unreported_of e)).
Proof.
  intros Hen (_ & _ & _ & H4) Hrep Hl Hm e0 data0 Hen0 (K1 & K2 & K3 & K4).
  rewrite Hen in Hen0. injection Hen0 as <- <-.
  destruct (refuse_keeps now (unreported_of e) e) as (S1 & S2 & S3 & S4).
  set (e' := fold_left (refuse_state now) (unreported_of e) e) in *. split; [done|].
  pose proof (identity_inv (mkEntry e data) (mkEntry e' data) (f_equal2 pair S1 eq_refl)) as (Hrp & Hrcpt & Hdsn & Hmand & _).
  cbn [se_envelope] in *.
  split_and!; cbn [se_envelope]; [by apply S2|rewrite S3, Hmand; exact K2|by rewrite S4|]. intros r Hr. rewrite Hrcpt in Hr.
  eapply (state_ok_grows q q id (mkEntry e data)); [apply later_refl|unfold identity; simpl; by rewrite S1|done|].
  destruct (refuse_fold now (unreported_of e) e r) as (F1 & F2 & F3 & F4). fold e' in F1, F2, F3, F4. cbv zeta in *.
  destruct (K4 r Hr) as (R1 & R2 & R3 & R4 & R5). destruct (H4 r Hr) as (_ & _ & _ & R4' & _).
  assert (Hcount : r ∈ ev_no_dsn e ∨ ∃ ms, refusals q id (mkEntry e data) r ms ∧
    rs_report_attempts (recipient_state e' r) ≤ occurrences r (ev_recipients e) * Z.of_nat (length ms)).
  { destruct (decide (r ∈ ev_no_dsn e)) as [?|Hn]; [by left|right]. destruct R4' as [?|(ms & [Hsub Hon] & Hle)]; [done|].
    cbn [se_envelope se_data] in *.
    destruct (decide (r ∈ unreported_of e)) as [Hu|Hu].
    - exists (ms ++ [m]). split.
      + split; [rewrite map_app, Hrep; by apply sublist_app|]. apply Forall_app. split; [done|]. constructor; [by apply Hm|done].
      + rewrite F3, length_app. simpl length.
        assert (occurrences r (unreported_of e) ≤ occurrences r (ev_recipients e)).
        { unfold unreported_of, recipients_in. etrans; apply occurrences_filter. }
        nia.
    - exists ms. split; [split; [rewrite Hrep; by apply sublist_inserts_r|done]|].
      assert (occurrences r (unreported_of e) = 0).
      { unfold occurrences. assert (List.filter (str_eqb r) (unreported_of e) = []) as ->; [|done].
        destruct (List.filter _ _) as [|x l] eqn:E; [done|]. exfalso. apply Hu.
        assert (In x (List.filter (str_eqb r) (unreported_of e))) as Hx by (rewrite E; by left).
        apply filter_In in Hx as [Hx ->%str_eqb_eq]. by apply list_elem_of_In. }
      lia. }
  split_and!; [rewrite F1; exact R1|rewrite F1; exact R2| |exact Hcount|by rewrite F2].
  intros Hrd. destruct (F4 Hrd) as [?|[Hu Hmax]]; [by apply R3|].
  destruct Hcount as [?|(ms & Hms & Hle)]; [by apply told_not_asked|]. eapply told_refused; [exact Hms|]. cbn [se_envelope]. lia.
Qed.

(** Handing a report over. *)
Lemma send_report_evolves h id m q : evolves h q (send_report w id m q).2.
Proof.
  unfold send_report. destruct (if wk_bounce_sink w then _ else _) as [outcome k].
  apply evolves_entries; [done|]. split; [by eexists|done].
Qed.

Lemma send_report_log id m q outcome q' : send_report w id m q = (Ok outcome, q') →
  (∀ id', entry_at q' id' = entry_at q id') ∧ later q q' ∧ q_reports q' = q_reports q ++ [(id, m, outcome)].
Proof.
  unfold send_report. destruct (if wk_bounce_sink w then _ else _) as [o k]. intros [= <- <-]. split_and!; [done| |done].
  split; [by eexists|done].
Qed.

Lemma done_evolves h q id l :
  (∀ en r, entry_at q id = Some en → r ∈ l → told q id en r) →
  evolves h q (q_bind (on_disk (update_envelope id (fold_left mark_reported l))) (λ _, q_ret true) q).2.
Proof. intros Ht. apply bind_evolves; [by apply update_evolves, mark_reported_edits|]. intros. apply evolves_refl. Qed.

Lemma report_failures_evolves h t id q : evolves h q (report_failures w t id q).2.
Proof.
  apply evolves_on. intros Hsound. apply bind_evolves.
  { destruct (on_disk (load id) q) as [r q'] eqn:E. by apply (load_evolves h) in E as (_ & _ & ? & _). }
  intros [e data] q1 E. apply (load_evolves h) in E as (Hat & Hl & _ & Hen & Hrep & _). specialize (Hen _ eq_refl).
  specialize (Hsound _ _ Hen) as Hok. apply (entry_ok_grows h h q q1) in Hok; [|done|done]. rewrite <-Hat in Hen. cbn [se_envelope se_data].
  case_bool_decide; [apply evolves_refl|]. destruct (existsb _ (unreported_of e)); [apply evolves_refl|].
  case_bool_decide as Hnone.
  { apply done_evolves. intros en r Hen'. rewrite Hen in Hen'. injection Hen' as <-. intros Hr. apply told_not_asked. cbn [se_envelope].
    destruct (decide (r ∈ ev_no_dsn e)) as [|Hn]; [done|]. exfalso.
    assert (Hin : r ∈ map rr_recipient (report_recipients e (unreported_of e))) by (by apply report_names).
    apply nil_length_inv in Hnone. rewrite Hnone in Hin. by apply elem_of_nil in Hin. }
  pose proof (build_failed_result (wk_hostname w) (ev_reverse_path e) (report_recipients e (unreported_of e)) data (tk_date t) (tk_secs t)
    (wk_auto_submitted w)) as Hb.
  destruct (build_failed _ _ _ _ _ _ _) as [m|].
  - destruct Hb as [_ Hm].
    assert (Hon : ∀ r, r ∈ unreported_of e → r ∉ ev_no_dsn e → report_on (ev_reverse_path e) data r m)
      by (intros r H1 H2; by apply Hm, report_names).
    apply bind_evolves; [apply send_report_evolves|]. intros outcome q2 E. pose proof E as (Hat2 & Hl2 & Hrep2)%send_report_log.
    assert (Hin : (id, m, outcome) ∈ q_reports q2) by (rewrite Hrep2; set_solver).
    assert (Hen2 : entry_at q2 id = Some (mkEntry e data)) by by rewrite Hat2.
    destruct outcome.
    + apply done_evolves. intros en r Hen'. rewrite Hen2 in Hen'. injection Hen' as <-. intros Hr.
      destruct (decide (r ∈ ev_no_dsn e)); [by apply told_not_asked|].
      destruct (wk_bounce_sink w) eqn:Hsink; [|by apply told_no_sink]. eapply told_report; [done|done|by apply Hon].
    + apply bind_evolves; [|intros; apply evolves_refl]. apply bind_evolves; [|intros; apply evolves_refl].
      apply update_evolves. by eapply refuse_edits.
    + apply done_evolves. intros en r Hen'. rewrite Hen2 in Hen'. injection Hen' as <-. intros Hr.
      destruct (decide (r ∈ ev_no_dsn e)); [by apply told_not_asked|]. eapply told_gone; [done|by apply Hon].
  - apply done_evolves. intros en r Hen'. rewrite Hen in Hen'. injection Hen' as <-. intros Hr. apply told_nobody. cbn [se_envelope].
    destruct Hb as [?|[?|(b & Hb & Ha)]]; [by left|by right; left|right; right]. exists b. split; [|done].
    apply report_names in Hb as [Hb%elem_unreported _]. by destruct Hb.
Qed.

Lemma warn_delayed_evolves h t id q : evolves h q (warn_delayed w t id q).2.
Proof.
  unfold warn_delayed. destruct (on_disk (load id) q) as [[en|e] q'] eqn:E; apply (load_evolves h) in E as (_ & _ & Hl & _); [|done].
  eapply evolves_trans; [exact Hl|]. destruct (ev_delay_warned _); [apply evolves_refl|]. apply bind_evolves.
  - destruct (if bool_decide _ then _ else _) as [m|]; [apply send_report_evolves|apply evolves_refl].
  - intros _ q'' _. simpl.
    assert (Hw : edits h q'' id set_warned).
    { apply edits_fits. intros e data _ He. apply (fits_plain h q'' id data _ e); try done. apply He. }
    apply update_evolves in Hw. unfold on_disk, mark_delay_warned in *. by destruct (update_envelope id set_warned (q_disk q'')).
Qed.

(** *** Removal *)

Lemma drop_evolves h q d id en :
  dk_entries d = dk_entries (q_disk q) → entry_at q id = Some en →
  (∀ r, r ∈ ev_recipients (se_envelope en) → fate h q id en r) →
  evolves h q (set_disk q (drop_entry d id)).
Proof.
  intros Hd Hen Hf Hs.
  assert (Hat : ∀ id', entry_at (set_disk q (drop_entry d id)) id' = if decide (id' = id) then None else entry_at q id').
  { intros id'. unfold entry_at, set_disk, drop_entry. cbn [q_disk dk_entries]. rewrite Hd.
    destruct (decide (id' = id)) as [->|]; [by rewrite lookup_delete_eq|by rewrite lookup_delete_ne]. }
  split_and!; [|apply later_set_disk|].
  - intros id' en'. rewrite Hat. destruct (decide (id' = id)); [done|]. intros Hen'.
    apply (entry_ok_grows h h q); [done|apply later_set_disk|by apply Hs].
  - intros id'. unfold kept. rewrite Hat. destruct (decide (id' = id)) as [->|]; [|by destruct (entry_at q id')].
    rewrite Hen. intros r Hr. apply (outcome_grows q _ id en en r (later_set_disk _ _) eq_refl h h); [done|by apply Hf].
Qed.

Lemma next_fault_cases d : ∃ fault d', next_fault d = (fault, d') ∧ dk_entries d' = dk_entries d.
Proof. destruct (next_fault d) as [fault d'] eqn:E. exists fault, d'. split; [done|]. by rewrite <-(next_fault_entries d), E. Qed.

Lemma same_evolves h q d : dk_entries d = dk_entries (q_disk q) → evolves h q (set_disk q d).
Proof. intros Hd. apply evolves_entries; [intros ?; unfold entry_at; simpl; by rewrite Hd|done]. Qed.

Lemma unlink_evolves h q d id en :
  evolves h q (set_disk q d) → dk_entries d !! id = Some en →
  (∀ r, r ∈ ev_recipients (se_envelope en) → fate h q id en r) →
  evolves h q (set_disk q (unlink id d).2).
Proof.
  intros Hd Hen Hf. eapply evolves_trans; [exact Hd|]. unfold unlink.
  destruct (next_fault_cases d) as ([] & d1 & -> & H1); [by apply (same_evolves h (set_disk q d))|].
  destruct (next_fault_cases (drop_entry d1 id)) as (fault & d2 & -> & H2).
  eapply evolves_trans; [apply (drop_evolves h (set_disk q d) d1 id en H1 Hen)|by apply (same_evolves h (set_disk q (drop_entry d1 id)))].
  intros r Hr. apply (outcome_grows q _ id en _ r (later_set_disk _ _) eq_refl h h); [done|by apply Hf].
Qed.

Lemma remove_evolves h q id now :
  (∀ en, entry_at q id = Some en → ∀ r, r ∈ ev_recipients (se_envelope en) → fate h q id en r) →
  evolves h q (on_disk (remove id now) q).2.
Proof.
  intros Hf. unfold on_disk, remove. destruct (next_fault_cases (q_disk q)) as ([] & d1 & -> & H1); [by apply same_evolves|].
  destruct (dk_entries d1 !! id) as [[e data]|] eqn:Een; [|by apply same_evolves]. cbn [se_envelope se_data].
  case_bool_decide; simpl negb; cbn iota; [|by apply same_evolves].
  set (held := set_hold (hold e now) _ _ _). set (changed := negb _).
  assert (Hsl : sealed held = sealed e) by (unfold held, hold; by destruct (ev_held e)).
  assert (Hi : identity (mkEntry held data) = identity (mkEntry e data)) by (unfold identity; simpl; by rewrite Hsl).
  rewrite H1 in Een. specialize (Hf _ Een).
  destruct changed; cbn iota.
  - destruct (next_fault_cases d1) as ([] & d2 & -> & H2); [apply same_evolves; congruence|]. cbn iota.
    pose proof (unlink_evolves h q (put_entry d2 id (mkEntry held data)) id (mkEntry held data)) as Hu.
    destruct (unlink id _) as [res d]. apply Hu; [|apply lookup_insert_eq|].
    + apply (put_evolves h q d2 id e); [congruence|done|exact Hsl|]. intros Hok.
      apply (fits_plain h q id data (sealed e) e); [exact Hsl|..|by split];
        destruct Hok as [Ht _]; unfold held, hold; by destruct (ev_held e).
    + pose proof Hi as (_ & Hrcpt & _)%identity_inv. intros r Hr. rewrite Hrcpt in Hr.
      apply (outcome_grows q q id (mkEntry e data) _ r (later_refl _) Hi h h); [done|by apply Hf].
  - pose proof (unlink_evolves h q d1 id (mkEntry e data)) as Hu. destruct (unlink id d1) as [res d].
    apply Hu; [by apply same_evolves|by rewrite H1|done].
Qed.

Lemma load_envelope_evolves h q id r q' : on_disk (load_envelope id) q = (r, q') →
  (∀ id', entry_at q' id' = entry_at q id') ∧ evolves h q q' ∧
  (∀ e, r = Ok e → ∃ data, entry_at q id = Some (mkEntry e data)).
Proof.
  unfold on_disk, load_envelope. intros Hr.
  destruct (on_disk (load id) q) as [r' q''] eqn:E. pose proof E as (Hat & _ & Hev & Hen & _)%(load_evolves h).
  unfold on_disk in E. destruct (load id (q_disk q)) as [r0 d]. injection E as -> <-. injection Hr as <- <-.
  split_and!; [done|done|]. intros e He. destruct r' as [[e' data]|]; [|done]. injection He as <-. exists data. by apply Hen.
Qed.

Lemma finished_fate h q id en :
  entry_ok h q id en → pending (se_envelope en) = [] →
  (∀ r, r ∈ unreported_of (se_envelope en) → Swept ∈ h ∧ wk_evidence w = true ∧ mandated (se_envelope en) = true) →
  ∀ r, r ∈ ev_recipients (se_envelope en) → fate h q id en r.
Proof.
  intros (_ & _ & _ & Hst) Hp Hu r Hr. destruct (Hst r Hr) as (H1 & H2 & H3 & _).
  destruct (rs_status (recipient_state (se_envelope en) r)) eqn:Es.
  - exfalso. assert (Hin : r ∈ pending (se_envelope en)) by (by apply elem_pending). rewrite Hp in Hin. by apply elem_of_nil in Hin.
  - by apply fate_taken, H1.
  - destruct (rs_reported (recipient_state (se_envelope en) r)) eqn:Er; [by apply fate_failed; [apply H2|apply H3]|].
    destruct (Hu r) as (? & ? & ?); [by apply elem_unreported|]. by apply fate_swept; [apply H2|..].
Qed.

Lemma finish_evolves h t id claimed q : Settled id (tk_now t) ∈ h → evolves h q (finish w t id claimed q).2.
Proof.
  intros Hn. apply evolves_on. intros Hs. unfold finish. apply bind_evolves.
  { destruct (on_disk (load_envelope id) q) as [r q'] eqn:E. by apply (load_envelope_evolves h) in E as (_ & ? & _). }
  intros e q1 (Hat & He & Hen)%(load_envelope_evolves h). destruct (Hen e eq_refl) as [data Hen1].
  apply bind_evolves.
  { case_bool_decide as Hx; [apply evolves_refl|]. apply (expire_evolves _ _ _ _ (tk_now t)); [done|].
    destruct (List.filter _ _) as [|r l] eqn:El; [done|].
    assert (Hr : In r (r :: l)) by by left. rewrite <-El in Hr. apply filter_In in Hr as [Hr Hw%Z.leb_le].
    apply filter_In in Hr as [Hr _]. apply list_elem_of_In, elem_pending in Hr as [Hr _].
    destruct (Hs _ _ Hen1) as (_ & _ & Hh & Hst). destruct (Hst r Hr) as (_ & _ & _ & _ & Hwt).
    etrans; [exact Hw|]. by apply window_used_age. }
  intros _ q2 _. apply bind_evolves; [apply report_failures_evolves|]. intros _ q3 _. apply bind_evolves.
  { destruct (on_disk (load_envelope id) q3) as [r q'] eqn:E. by apply (load_envelope_evolves h) in E as (_ & ? & _). }
  intros e' q4 (Hat4 & He4 & Hen4)%(load_envelope_evolves h). destruct (Hen4 e' eq_refl) as [data' Hen']. rewrite <-Hat4 in Hen'.
  case_bool_decide as Hp.
  - case_bool_decide as Hu; simpl negb; cbn iota; [|apply evolves_refl]. case_bool_decide; [|apply evolves_refl].
    apply evolves_on. intros Hs4. apply remove_evolves. intros en Hen5. rewrite Hen' in Hen5. injection Hen5 as <-.
    apply finished_fate; [by apply Hs4|done|]. cbn [se_envelope]. rewrite Hu. by intros r ?%elem_of_nil.
  - destruct (_ <=? _); [apply warn_delayed_evolves|apply evolves_refl].
Qed.

(** *** Outcomes owed from before *)

Lemma write_waiting_only_log e l (q : queue_state) : ∃ log, (write_waiting e l q).2 = set_log q log ∨ (write_waiting e l q).2 = q.
Proof.
  revert q. induction l as [|o l IH]; intros q; simpl; [by exists (q_log q); right|].
  destruct (log_write e o (q_log q)) as [written log]. destruct written; [|by exists log; left].
  specialize (IH (set_log q log)). destruct (write_waiting e l (set_log q log)) as [done q'].
  simpl in IH |- *. destruct IH as [log' [->| ->]]; [exists log'|exists log]; by left.
Qed.

Lemma update_ok id f (q : queue_state) e' q' : on_disk (update_envelope id f) q = (Ok e', q') →
  ∃ e data, entry_at q id = Some (mkEntry e data) ∧ e' = f e ∧ entry_at q' id = Some (mkEntry e' data).
Proof.
  unfold on_disk, update_envelope, entry_at. destruct (next_fault_cases (q_disk q)) as ([] & d & -> & Hd); [done|]. rewrite Hd.
  destruct (dk_entries (q_disk q) !! id) as [[e data]|]; [|done]. intros [= <- <-]. exists e, data. split_and!; [done|done|].
  simpl. by rewrite lookup_insert_eq.
Qed.

Lemma write_waiting_entry_evolves h now id q :
  Swept ∈ h → wk_evidence w = true → evolves h q (write_waiting_entry now id q).2.
Proof.
  intros Hsw Hev. apply evolves_on. intros Hs. unfold write_waiting_entry. destruct (on_disk (load_envelope id) q) as [r q1] eqn:E1.
  pose proof E1 as (Hat & He & Hen)%(load_envelope_evolves h).
  destruct r as [e|]; [|exact He]. destruct (Hen e eq_refl) as [data Hen1]. eapply evolves_trans; [exact He|].
  destruct (write_waiting e (ev_outcomes_pending e) q1) as [written q2] eqn:E2.
  assert (Hmand : written ≠ [] → mandated e = true).
  { intros Hw. destruct (mandated e) eqn:Em; [done|]. destruct (Hs _ _ Hen1) as (_ & Ho & _). cbn [se_envelope] in Ho. rewrite (Ho Em) in E2. by injection E2 as <- _. }
  assert (H2 : ∃ log, q2 = set_log q1 log ∨ q2 = q1) by (pose proof (write_waiting_only_log e (ev_outcomes_pending e) q1) as H; by rewrite E2 in H).
  assert (Hat2 : entry_at q2 id = entry_at q id) by (rewrite <-Hat; by destruct H2 as [log [->| ->]]).
  assert (Hl2 : evolves h q1 q2) by (destruct H2 as [log [->| ->]]; [apply log_evolves|apply evolves_refl]).
  eapply evolves_trans; [exact Hl2|]. destruct written as [|o written]; [apply evolves_refl|]. specialize (Hmand ltac:(done)).
  pose proof (update_evolves h q2 id (release_outcomes (o :: written)) (edits_fits _ _ _ _ (λ e data _, fits_release h q2 id data (sealed e) e _))) as Hu.
  destruct (on_disk (update_envelope id (release_outcomes (o :: written))) q2) as [[e'|] q3] eqn:E3; [|exact Hu].
  eapply evolves_trans; [exact Hu|]. apply update_ok in E3 as (e0 & data0 & Hen0 & -> & Hen3).
  rewrite Hat2, Hen1 in Hen0. injection Hen0 as <- <-.
  case_bool_decide; [|apply evolves_refl]. case_bool_decide; [|apply evolves_refl]. cbn [andb].
  apply evolves_on. intros Hs3. apply remove_evolves. intros en Hen'. rewrite Hen3 in Hen'. injection Hen' as <-.
  apply finished_fate; [by apply Hs3|done|]. intros _ _. split_and!; [done|done|]. rewrite <-Hmand. unfold release_outcomes, mandated.
  cbn [se_envelope]. by case_bool_decide.
Qed.

Lemma write_waiting_outcomes_evolves h now q : Swept ∈ h → evolves h q (write_waiting_outcomes w now q).2.
Proof.
  intros Hsw. unfold write_waiting_outcomes. destruct (wk_evidence w) eqn:Hev; simpl negb; cbn iota; [|apply evolves_refl].
  unfold on_disk, list_entries. destruct (next_fault_cases (q_disk q)) as (fault & d & -> & Hd).
  assert (Hq : evolves h q (set_disk q d)) by by apply same_evolves.
  destruct fault; [exact Hq|]. eapply evolves_trans; [exact Hq|]. apply each_evolves. intros id q' _. by apply write_waiting_entry_evolves.
Qed.

(** ** Every run *)

Definition good (W : World) : Prop :=
  sound (wo_history W) (wo_queue W) ∧
  (∀ id en, (id, en) ∈ wo_stored W → kept (wo_history W) (wo_queue W) id en) ∧
  (∀ id, id ∉ map fst (wo_stored W) → entry_at (wo_queue W) id = None).

Lemma good_moves W ev q' : good W → evolves (ev ++ wo_history W) (wo_queue W) q' → good (moves W ev q').
Proof.
  intros (Hs & Hk & Hn) He.
  assert (Hh : wo_history W ⊆ ev ++ wo_history W) by set_solver.
  destruct (He (sound_history _ _ _ Hh Hs)) as (Hs' & Hl & Hk'). split_and!; cbn [moves wo_history wo_queue wo_stored]; [done| |].
  - intros id en Hin. specialize (Hk id en Hin). specialize (Hk' id).
    assert (Hk0 : kept (ev ++ wo_history W) (wo_queue W) id en).
    { unfold kept in *. destruct (entry_at (wo_queue W) id); [done|]. intros r Hr.
      by apply (outcome_grows (wo_queue W) (wo_queue W) id en en r (later_refl _) eq_refl (wo_history W) _ Hh), Hk. }
    destruct (entry_at (wo_queue W) id) as [en1|] eqn:E; [|by eapply kept_later].
    unfold kept in Hk0. rewrite E in Hk0. by eapply kept_trans.
  - intros id Hin. specialize (Hk' id). by rewrite (Hn id Hin) in Hk'.
Qed.

Lemma fresh_ok h q id message options data :
  entry_ok h q id (mkEntry (mkEnvelope id (msg_reverse_path message) (msg_recipients message) 0 0 (msg_require_tls message)
    (msg_no_dsn message) false None 0 None ∅ (match so_account options with Some a => if is_empty a then None else Some a | None => None end)
    (so_class options) (bool_decide (is_Some (so_evidence options))) (so_retain_days options) [] None) data).
Proof.
  split_and!; [by left|done|done|]. intros r _. cbn [se_envelope].
  unfold recipient_state. cbn [ev_recipient_state]. rewrite lookup_empty. simpl default.
  split_and!; try done. right. exists []. split; [split; [apply sublist_nil_l|done]|]. simpl. lia.
Qed.

Lemma store_good W message id options q' en :
  good W → id ∉ map fst (wo_stored W) → on_disk (store_with message id options) (wo_queue W) = (Ok id, q') →
  entry_at q' id = Some en → good (mkWorld q' ((id, en) :: wo_stored W) (wo_history W)).
Proof.
  intros (Hs & Hk & Hn) Hid E Hen. unfold on_disk, store_with in E.
  destruct (has_unframed_byte _); [done|]. destruct (next_fault_cases (q_disk (wo_queue W))) as ([] & d1 & E1 & H1); rewrite E1 in E; [done|].
  destruct (match so_evidence options with Some _ => _ | None => _ end); [done|].
  destruct (next_fault_cases d1) as ([] & d2 & E2 & H2); rewrite E2 in E; [done|]. injection E as <-.
  match type of Hen with entry_at (set_disk _ (put_entry _ _ ?en)) _ = _ => set (new := en) in * end.
  assert (Hat : ∀ id', entry_at (set_disk (wo_queue W) (put_entry d2 id new)) id' = if decide (id' = id) then Some new else entry_at (wo_queue W) id').
  { intros id'. unfold entry_at. simpl. rewrite H2, H1. destruct (decide (id' = id)) as [->|]; [by rewrite lookup_insert_eq|by rewrite lookup_insert_ne]. }
  rewrite Hat, decide_True in Hen by done. injection Hen as <-.
  split_and!; cbn [wo_history wo_queue wo_stored].
  - intros id' en'. rewrite Hat. destruct (decide (id' = id)) as [->|]; [intros [= <-]; apply fresh_ok|]. intros Hen'.
    eapply entry_ok_grows; [done| |by apply Hs]. apply later_set_disk.
  - intros id' en' [[= -> ->]|Hin]%elem_of_cons; [unfold kept; rewrite Hat; by rewrite decide_True|].
    assert (id' ≠ id) by (intros ->; apply Hid, list_elem_of_In, in_map_iff; eexists (_, _); split; [done|by apply list_elem_of_In]).
    specialize (Hk id' en' Hin). unfold kept in *. rewrite Hat, decide_False by done. destruct (entry_at (wo_queue W) id'); [done|].
    intros r Hr. apply (outcome_grows (wo_queue W) _ id' en' en' r (later_set_disk _ _) eq_refl (wo_history W) _); [done|by apply Hk].
  - intros id' Hin. cbn [map fst] in Hin. rewrite Hat, decide_False by set_solver. apply Hn. set_solver.
Qed.

Lemma store_fails_evolves h message id options q error q' :
  on_disk (store_with message id options) q = (Err error, q') → evolves h q q'.
Proof.
  unfold on_disk, store_with. destruct (has_unframed_byte _); [intros [= _ <-]; by apply same_evolves|].
  destruct (next_fault_cases (q_disk q)) as ([] & d1 & -> & H1); [intros [= _ <-]; by apply same_evolves|].
  destruct (match so_evidence options with Some _ => _ | None => _ end); [intros [= _ <-]; by apply same_evolves|].
  destruct (next_fault_cases d1) as ([] & d2 & -> & H2); [|done]. intros [= _ <-]. apply same_evolves. congruence.
Qed.

(** Every step but a store is an evolution of the queue. *)
Lemma act_evolves W W' :
  act W W' →
  (∃ message id options q' en, id ∉ map fst (wo_stored W) ∧ on_disk (store_with message id options) (wo_queue W) = (Ok id, q') ∧
     entry_at q' id = Some en ∧ W' = mkWorld q' ((id, en) :: wo_stored W) (wo_history W)) ∨
  ∃ ev q', W' = moves W ev q' ∧ evolves (ev ++ wo_history W) (wo_queue W) q'.
Proof.
  intros Hact. destruct Hact; [left; by eexists _, _, _, _, _|right; eexists _, _; split; [done|]..].
  - by eapply store_fails_evolves.
  - apply record_evolves. by left.
  - by apply skip_suppressed_evolves.
  - apply refuse_unparseable_evolves. by left.
  - apply finish_evolves. by left.
  - apply write_waiting_outcomes_evolves. by left.
  - apply update_evolves, edits_fits. intros e data _ He. pose proof He as [_ (Ht & _)].
    apply (fits_plain _ _ _ _ _ e); [..|done]; unfold hold, release; destruct held, (ev_held e); try done.
    simpl. unfold saturating_add, saturating_sub, u64_max. lia.
  - apply evolves_entries; [done|]. split; [by exists []; rewrite app_nil_r|set_solver].
Qed.

Lemma act_good W W' : act W W' → good W → good W'.
Proof.
  intros [(message & id & options & q' & en & Hid & E & Hen & ->)|(ev & q' & -> & He)]%act_evolves Hg;
    [by eapply store_good|by apply good_moves].
Qed.

(** *** Steps that store nothing *)

(** Steps with events in [E]. *)
Definition acts (E : Event → Prop) (q q' : queue_state) : Prop :=
  ∀ stored h, good (mkWorld q stored h) → ∃ ev,
    Forall E ev ∧ rtc act (mkWorld q stored h) (mkWorld q' stored (ev ++ h)) ∧ good (mkWorld q' stored (ev ++ h)) ∧
    ∀ id en', entry_at q' id = Some en' → ∃ en, entry_at q id = Some en ∧ identity en' = identity en.

Lemma acts_refl E q : acts E q q.
Proof. intros stored h Hg. exists []. split_and!; [constructor|apply rtc_refl|done|]. intros id en Hen. by exists en. Qed.

(** What the first steps leave of an entry is known when the next are taken. *)
Lemma acts_then E q1 q2 q3 :
  acts E q1 q2 →
  ((∀ id en', entry_at q2 id = Some en' → ∃ en, entry_at q1 id = Some en ∧ identity en' = identity en) → acts E q2 q3) → acts E q1 q3.
Proof.
  intros H12 H23 stored h Hg. destruct (H12 stored h Hg) as (ev2 & F2 & R12 & G2 & I12).
  destruct (H23 I12 stored (ev2 ++ h) G2) as (ev3 & F3 & R23 & G3 & I23). exists (ev3 ++ ev2). rewrite <-app_assoc.
  split_and!; [by apply Forall_app|by etrans|done|]. intros id en3 Hen3. destruct (I23 id en3 Hen3) as (en2 & Hen2 & E2).
  destruct (I12 id en2 Hen2) as (en1 & Hen1 & E1). exists en1. split; [done|congruence].
Qed.

Lemma acts_trans E q1 q2 q3 : acts E q1 q2 → acts E q2 q3 → acts E q1 q3.
Proof. intros H12 H23. by eapply acts_then. Qed.

Lemma acts_one (E : Event → Prop) q q' ev :
  Forall E ev → (∀ stored h, act (mkWorld q stored h) (moves (mkWorld q stored h) ev q')) → acts E q q'.
Proof.
  intros HE Ha stored h Hg. pose proof (Ha stored h) as Hact. exists ev. split_and!; [done|by apply rtc_once|by eapply act_good|].
  apply act_evolves in Hact as [(message & id & options & q2 & en & _ & _ & _ & Eq)|(ev' & q2 & Eq & He)].
  { exfalso. injection Eq as _ Hst _. apply (f_equal length) in Hst. simpl in Hst. lia. }
  unfold moves in Eq. cbn [wo_queue wo_stored wo_history] in *. injection Eq as <- Eh.
  assert (Hs : sound (ev' ++ h) q) by (apply (sound_history h); [set_solver|apply Hg]).
  destruct (He Hs) as (_ & _ & Hk). intros id en' Hen'. specialize (Hk id). destruct (entry_at q id) as [en|]; [|congruence].
  exists en. split; [done|]. unfold kept in Hk. by rewrite Hen' in Hk.
Qed.

Lemma good_start q0 : dk_entries (q_disk q0) = ∅ → good (mkWorld q0 [] []).
Proof.
  intros H0. split_and!; cbn [wo_history wo_queue wo_stored]; [|by intros ? ? ?%elem_of_nil|]; intros id; unfold entry_at; by rewrite H0, lookup_empty.
Qed.

(** No message the queue took is lost. Whatever the remotes, the disk and
    the sink of the reports do, after any steps of the worker an entry that
    was stored is still in the spool as it was sent, or each of its recipients
    was delivered by a conversation, or failed (refused for good, too old, or
    suppressed) with the sender told by a report the sink took or for a named
    reason not told. The one way past this is the sweep of the evidence log,
    on entries whose evidence is mandatory. *)
Theorem queue_loses_nothing (q0 : queue_state) (W : World) (id : Z) (en : SpoolEntry) :
  dk_entries (q_disk q0) = ∅ → rtc act (mkWorld q0 [] []) W → (id, en) ∈ wo_stored W →
  kept (wo_history W) (wo_queue W) id en.
Proof.
  intros H0 Hr. assert (Hg : good W); [|by apply Hg]. pose proof (good_start q0 H0) as Hg0.
  clear H0. induction Hr as [|W1 W2 W3 Hact _ IH]; [done|]. by apply IH, (act_good W1).
Qed.

(** ** Nothing stays for ever *)

Section leaving.
Context (id now : Z) (k : K).

Definition calm (q : queue_state) : Prop := dk_faults (q_disk q) = [] ∧ q_sink q = k.

(** The entry is there, owes no evidence, and its recipients are in [Q]. *)
Definition ready (Q : RecipientState → Prop) (q : queue_state) : Prop :=
  calm q ∧ ∃ e data, entry_at q id = Some (mkEntry e data) ∧ mandated e = false ∧ ev_outcomes_pending e = [] ∧ tracked e ∧
    ∀ r, r ∈ ev_recipients e → Q (recipient_state e r).

Lemma calm_update q f e data : calm q → entry_at q id = Some (mkEntry e data) →
  ∃ q', on_disk (update_envelope id f) q = (Ok (f e), q') ∧ calm q' ∧ entry_at q' id = Some (mkEntry (f e) data).
Proof.
  intros [Hf Hk] Hen. unfold on_disk, update_envelope, next_fault. rewrite Hf. unfold entry_at in Hen. rewrite Hen.
  eexists. split; [done|]. split; [by split|]. apply lookup_insert_eq.
Qed.

Lemma calm_load q en : calm q → entry_at q id = Some en →
  on_disk (load id) q = (Ok en, q) ∧ on_disk (load_envelope id) q = (Ok (se_envelope en), q).
Proof.
  intros [Hf Hk] Hen. unfold on_disk, load_envelope, load, next_fault. rewrite Hf. unfold entry_at in Hen. rewrite Hen.
  by destruct q.
Qed.

Lemma ready_update Q Q' f q :
  (∀ e, sealed (f e) = sealed e) →
  (∀ e, mandated e = false → ev_outcomes_pending e = [] → ev_outcomes_pending (f e) = []) →
  (∀ e, tracked e → tracked (f e)) →
  (∀ e r, tracked e → r ∈ ev_recipients e → Q (recipient_state e r) → Q' (recipient_state (f e) r)) →
  ready Q q → ∃ e q', on_disk (update_envelope id f) q = (Ok e, q') ∧ ready Q' q'.
Proof.
  intros Hsl Ho Ht Hr (Hc & e & data & Hen & Hm & Hp & Htr & HQ).
  destruct (calm_update q f e data Hc Hen) as (q' & E & Hc' & Hen'). exists (f e), q'. split; [done|]. split; [done|].
  pose proof (identity_inv (mkEntry e data) (mkEntry (f e) data) (f_equal2 pair (Hsl e) eq_refl)) as (_ & Hrcpt & _ & Hmand & _).
  cbn [se_envelope] in *.
  exists (f e), data. split_and!; [done|congruence|by apply Ho|by apply Ht|]. intros r Hin. rewrite Hrcpt in Hin. apply Hr; auto.
Qed.

Lemma release_outcomes_plain written e :
  sealed (release_outcomes written e) = sealed e ∧ (tracked e → tracked (release_outcomes written e)) ∧
  (ev_outcomes_pending e = [] → ev_outcomes_pending (release_outcomes written e) = []) ∧
  ∀ r, recipient_state (release_outcomes written e) r = recipient_state e r.
Proof.
  unfold release_outcomes. case_bool_decide; (split_and!; try done); cbn [set_outcomes set_last_error ev_outcomes_pending]; by intros ->.
Qed.

Lemma record_outcome_ready Q e o q :
  ev_id e = id → ready Q q → ∃ q', record_outcome w e o q = (Ok tt, q') ∧ ready Q q'.
Proof.
  intros He Hr. unfold record_outcome. destruct (negb _); [by eexists|]. destruct (log_write e o (q_log q)) as [written l].
  assert (Hl : ready Q (set_log q l)) by exact Hr. destruct written; [|by eexists].
  destruct (ready_update Q Q (release_outcomes [o]) (set_log q l)) as (e' & q' & E & Hr'); [..|exact Hl|].
  - intros e'. apply release_outcomes_plain.
  - intros e' _. apply release_outcomes_plain.
  - intros e'. apply release_outcomes_plain.
  - intros e' r _ _. by destruct (release_outcomes_plain [o] e') as (_ & _ & _ & ->).
  - exists q'. unfold q_ignore. by rewrite He, E.
Qed.

Lemma each_ready {A} Q (f : A → queue unit) l q :
  (∀ a q, ready Q q → ∃ q', f a q = (Ok tt, q') ∧ ready Q q') → ready Q q → ∃ q', q_each f l q = (Ok tt, q') ∧ ready Q q'.
Proof.
  intros Hf. revert q. induction l as [|a l IH]; intros q Hq; simpl; [by exists q|].
  destruct (Hf a q Hq) as (q1 & E1 & H1). unfold q_bind. rewrite E1. by apply IH.
Qed.

Lemma intend_plain e o :
  sealed (intend e o) = sealed e ∧ ev_id (intend e o) = ev_id e ∧ (tracked e → tracked (intend e o)) ∧
  (mandated e = false → ev_outcomes_pending (intend e o) = ev_outcomes_pending e) ∧
  ∀ r, recipient_state (intend e o) r = recipient_state e r.
Proof.
  unfold intend, mandated. destruct (ev_evidence e) eqn:E1, (evidence_mandatory (ev_class e)) eqn:E2; simpl negb; cbn [orb]; try done.
  case_bool_decide; (split_and!; try done); unfold sealed; simpl; by rewrite E1, E2.
Qed.

Lemma expire_fold l e :
  let e' := fold_left expire_state l e in
  sealed e' = sealed e ∧ ev_id e' = ev_id e ∧ (tracked e → tracked e') ∧
  (mandated e = false → ev_outcomes_pending e = [] → ev_outcomes_pending e' = []) ∧
  ∀ r, rs_report_after (recipient_state e' r) = rs_report_after (recipient_state e r) ∧
       rs_status (recipient_state e' r) = if decide (r ∈ l) then Failed else rs_status (recipient_state e r).
Proof.
  cbv zeta. revert e. induction l as [|x l IH]; intros e; cbn [fold_left].
  { by split_and!. }
  assert (Hx : sealed (expire_state e x) = sealed e ∧ ev_id (expire_state e x) = ev_id e ∧ (tracked e → tracked (expire_state e x)) ∧
    (mandated e = false → ev_outcomes_pending (expire_state e x) = ev_outcomes_pending e) ∧
    ∀ r, recipient_state (expire_state e x) r = if decide (r = x) then
      let s := set_expired (set_status (recipient_state e x) Failed) in
      match rs_last_error s with None => set_error s (Some EXPIRED) | Some _ => s end else recipient_state e r).
  { unfold expire_state. set (s := match _ with None => _ | Some _ => _ end). set (e1 := set_recipient_state e x s).
    match goal with |- context [intend e1 ?o] => destruct (intend_plain e1 o) as (I1 & I2 & I3 & I4 & I5) end.
    rewrite I1, I2. split_and!; [done|done|intros Ht; by apply I3, tracked_set|exact I4|]. intros r. rewrite I5. apply recipient_state_set. }
  destruct Hx as (X1 & X2 & X3 & X4 & X5). destruct (IH (expire_state e x)) as (H1 & H2 & H3 & H4 & H5).
  assert (Hm : mandated (expire_state e x) = mandated e) by (unfold mandated; unfold sealed in X1; congruence).
  split_and!; [congruence|congruence|auto|intros Hm' Ho; apply H4; [congruence|by rewrite X4]|].
  intros r. destruct (H5 r) as [-> ->]. rewrite X5. destruct (decide (r = x)) as [->|Hne].
  - rewrite (decide_True (P := x ∈ x :: l)) by by left. cbv zeta. destruct (rs_last_error _), (decide (x ∈ l)); done.
  - split; [done|]. destruct (decide (r ∈ l)), (decide (r ∈ x :: l)); set_solver.
Qed.

End leaving.

Lemma mark_reported_fold l e :
  let e' := fold_left mark_reported l e in
  sealed e' = sealed e ∧ (tracked e → tracked e') ∧ ev_outcomes_pending e' = ev_outcomes_pending e ∧
  ∀ r, rs_status (recipient_state e' r) = rs_status (recipient_state e r) ∧
       rs_reported (recipient_state e' r) = (rs_reported (recipient_state e r) || bool_decide (r ∈ l)).
Proof.
  cbv zeta. revert e. induction l as [|x l IH]; intros e; cbn [fold_left].
  { split_and!; try done. intros r. by rewrite orb_false_r. }
  destruct (IH (mark_reported e x)) as (H1 & H2 & H3 & H4). split_and!; [done|intros Ht; by apply H2, tracked_set|done|].
  intros r. destruct (H4 r) as [-> ->]. unfold mark_reported. rewrite recipient_state_set. destruct (decide (r = x)) as [->|Hne].
  - split; [done|]. rewrite (bool_decide_true (x ∈ x :: l)) by by left. simpl. by rewrite orb_true_r.
  - split; [done|]. f_equal. apply bool_decide_ext. set_solver.
Qed.

Lemma remove_calm id now k q e data :
  calm k q → entry_at q id = Some (mkEntry e data) → ev_outcomes_pending e = [] →
  ∃ q', on_disk (remove id now) q = (Ok tt, q') ∧ entry_at q' id = None.
Proof.
  intros [Hf _] Hen Ho. unfold on_disk, remove, next_fault. rewrite Hf. unfold entry_at in Hen. rewrite Hen.
  cbn [se_envelope se_data]. rewrite Ho. rewrite bool_decide_true by done. simpl negb at 1. cbn iota.
  unfold unlink, next_fault. destruct (negb _); simpl; rewrite ?Hf; simpl; rewrite ?Hf; simpl; (eexists; split; [done|]); apply lookup_delete_eq.
Qed.

Definition failed_or_done (now : Z) (s : RecipientState) : Prop := rs_status s ≠ Pending ∧ rs_report_after s ≤ now.
Definition all_told (s : RecipientState) : Prop := rs_status s ≠ Pending ∧ (rs_status s = Failed → rs_reported s = true).

(** The sink does not put off a report. *)
Definition takes_reports (k : K) : Prop :=
  wk_bounce_sink w = true → ∀ m, match (sink_deliver_report m k).1 with Ok _ | Err (Gone _) => True | Err _ => False end.

Lemma told_now id k q e data Q :
  calm k q → entry_at q id = Some (mkEntry e data) → mandated e = false → ev_outcomes_pending e = [] → tracked e →
  (∀ r, r ∈ ev_recipients e → failed_or_done Q (recipient_state e r)) →
  ∃ q', q_bind (on_disk (update_envelope id (fold_left mark_reported (unreported_of e)))) (λ _, q_ret true) q = (Ok true, q') ∧
        ready id k all_told q'.
Proof.
  intros Hc Hen Hm Ho Ht HQ. destruct (calm_update id k q (fold_left mark_reported (unreported_of e)) e data Hc Hen) as (q' & E & Hc' & Hen').
  unfold q_bind. rewrite E. eexists. split; [done|]. split; [done|].
  destruct (mark_reported_fold (unreported_of e) e) as (S1 & S2 & S3 & S4).
  eexists _, data. split; [exact Hen'|].
  pose proof (identity_inv (mkEntry e data) (mkEntry (fold_left mark_reported (unreported_of e) e) data) (f_equal2 pair S1 eq_refl))
    as (_ & Hrcpt & _ & Hmand & _). cbn [se_envelope] in *.
  split_and!; [congruence|congruence|auto|]. intros r Hr. rewrite Hrcpt in Hr. destruct (S4 r) as [H1 H2], (HQ r Hr) as [H3 _].
  split; [congruence|]. rewrite H1, H2. intros Hfail. destruct (rs_reported (recipient_state e r)) eqn:Er; [done|].
  rewrite bool_decide_true; [done|]. by apply elem_unreported.
Qed.

Lemma report_failures_ready t id k q :
  takes_reports k → ready id k (failed_or_done (tk_now t)) q →
  ∃ b k' q', report_failures w t id q = (Ok b, q') ∧ ready id k' all_told q'.
Proof.
  intros Hk (Hc & e & data & Hen & Hm & Ho & Ht & HQ). destruct (calm_load id k q _ Hc Hen) as [El _].
  unfold report_failures, q_bind at 1. rewrite El. cbn [se_envelope se_data].
  destruct (told_now id k q e data _ Hc Hen Hm Ho Ht HQ) as (q' & Ed & Hr').
  case_bool_decide as Hun.
  { exists false, k, q. split; [done|]. split; [done|]. exists e, data. split_and!; try done. intros r Hr. split; [by apply HQ|]. intros Hf.
    destruct (rs_reported (recipient_state e r)) eqn:Er; [done|]. assert (Hin : r ∈ unreported_of e) by by apply elem_unreported.
    rewrite Hun in Hin. by apply elem_of_nil in Hin. }
  assert (Hnot : existsb (λ r, tk_now t <? rs_report_after (recipient_state e r)) (unreported_of e) = false).
  { apply not_true_is_false. intros (r & Hr & Hlt)%existsb_exists. apply list_elem_of_In, elem_unreported in Hr as [Hr _].
    destruct (HQ r Hr) as [_ Hle]. apply Z.ltb_lt in Hlt. lia. }
  rewrite Hnot. destruct (if bool_decide _ then _ else _) as [m|]; [|by exists true, k, q'].
  unfold q_bind at 1. unfold send_report.
  assert (Hout : ∃ outcome k', (if wk_bounce_sink w then match sink_deliver_report m (q_sink q) with (Ok _, k) => (Queued, k)
      | (Err (Gone _), k) => (Gone_, k) | (Err _, k) => (Refused, k) end else (Queued, q_sink q)) = (outcome, k') ∧ outcome ≠ Refused).
  { destruct Hc as [_ ->]. specialize (Hk : takes_reports k). unfold takes_reports in Hk. destruct (wk_bounce_sink w); [|by eexists _, _].
    specialize (Hk eq_refl m). destruct (sink_deliver_report m k) as [[?|[]] ?]; try done; by eexists _, _. }
  destruct Hout as (outcome & k' & -> & Hne).
  destruct (told_now id k' (mkQueue (q_disk q) (q_suppressed q) (q_holds q) k' (q_log q) (q_reports q ++ [(id, m, outcome)])) e data (tk_now t))
    as (q2 & E2 & Hr2); [split; [apply Hc|done]|done..|].
  destruct outcome; [|done|]; exists true, k', q2; by rewrite E2.
Qed.

Lemma expire_ready t id q e data expired :
  calm (q_sink q) q → entry_at q id = Some (mkEntry e data) → ev_id e = id → tracked e →
  mandated e = false → ev_outcomes_pending e = [] →
  (∀ r, r ∈ ev_recipients e → rs_report_after (recipient_state e r) ≤ tk_now t) →
  (∀ r, r ∈ expired ↔ r ∈ pending e) →
  ∃ q1, (if bool_decide (expired = []) then q_ret tt else expire w id expired) q = (Ok tt, q1) ∧
    ready id (q_sink q) (failed_or_done (tk_now t)) q1.
Proof.
  intros Hc Hen Hid Ht Hm Ho Hafter Hexp. case_bool_decide as Hx.
  - exists q. split; [done|]. split; [done|]. exists e, data. split_and!; try done. intros r Hr. split; [|by apply Hafter].
    intros Hs. assert (Hin : r ∈ expired) by (by apply Hexp, elem_pending). rewrite Hx in Hin. by apply elem_of_nil in Hin.
  - destruct (calm_update id (q_sink q) q (λ e, OutboundSpool.settle (fold_left expire_state expired e)) e data Hc Hen) as (q1 & E1 & Hc1 & Hen1).
    destruct (expire_fold expired e) as (S1 & S2 & S3 & S4 & S5).
    pose proof (identity_inv (mkEntry e data) (mkEntry (fold_left expire_state expired e) data) (f_equal2 pair S1 eq_refl)) as (_ & Hrcpt & _ & Hmand & _).
    cbn [se_envelope] in *. unfold expire, q_bind at 1. rewrite E1. apply each_ready.
    + intros r q2 Hr2. apply record_outcome_ready; [exact (eq_trans S2 Hid)|done].
    + split; [done|]. eexists _, data. split; [exact Hen1|].
      split_and!; [exact (eq_trans Hmand Hm)|by apply S4|by apply tracked_settle, S3|].
      intros r Hr. rewrite recipients_settle in Hr. rewrite recipient_state_settle by auto. destruct (S5 r) as [S5a S5b].
      rewrite Hrcpt in Hr. split; [|rewrite S5a; by apply Hafter]. rewrite S5b. destruct (decide (r ∈ expired)) as [|Hn]; [done|].
      intros Hs. by apply Hn, Hexp, elem_pending.
Qed.

Lemma nothing_left e :
  (∀ r, r ∈ ev_recipients e → all_told (recipient_state e r)) → pending e = [] ∧ unreported_of e = [].
Proof.
  intros HQ. split.
  - destruct (pending e) as [|r l] eqn:E; [done|]. assert (Hr : r ∈ pending e) by (rewrite E; by left).
    apply elem_pending in Hr as [Hr Hs]. by destruct (HQ r Hr).
  - destruct (unreported_of e) as [|r l] eqn:E; [done|]. assert (Hr : r ∈ unreported_of e) by (rewrite E; by left).
    apply elem_unreported in Hr as (Hr & Hs & Hn). destruct (HQ r Hr) as [_ H']. by rewrite H' in Hn.
Qed.

End theory.

(** ** Examples *)

#[local] Existing Instance ascii_unicode.
#[local] Existing Instance example_certificates.
#[local] Instance example_idna : Idna := {| domain_to_ascii := Some |}.
#[local] Instance example_uuids : Uuids := {| uuid_secs _ := Some 0 |}.

(** A sink and a log that take or refuse by a script. *)
#[local] Instance example_sink : ReportSink (list bool) := {|
  sink_deliver_report _ k := match k with false :: k => (Err (Unavailable (lit "busy")), k) | _ :: k => (Ok tt, k) | [] => (Ok tt, []) end
|}.
#[local] Instance example_log : EvidenceLog (list bool) := {|
  log_write _ _ l := match l with false :: l => (false, l) | _ :: l => (true, l) | [] => (true, []) end
|}.

Definition example_worker (evidence : bool) : Worker :=
  mkWorker (lit "mx.example.org") true 432000 true (mkSchedule 300 14400 14400) evidence [] true.

Definition example_tick (now : Z) : Tick := mkTick now now (lit "Mon, 16 Nov 2026 10:00:00 +0000") (λ _ wait, wait).

Definition example_queue (sink log : list bool) : Queue (list bool) (list bool) :=
  mkQueue (mkDisk ∅ []) ∅ ∅ sink log [].

Definition example_bob : list Z := lit "bob@example.net".
Definition example_carol : list Z := lit "carol@example.net".

Definition example_sent : AcceptedMessage :=
  mkMessage (lit "alice@example.org") [example_bob; example_carol] (lit "Subject: hello" ++ [13; 10; 13; 10] ++ lit "hello" ++ [13; 10]) false None false false [].

Definition example_options (evidence : bool) : StoreOptions :=
  mkOptions None (if evidence then Transactional else Personal) (if evidence then Some (λ _, true) else None) 0.

Definition example_entry (evidence : bool) : SpoolEntry :=
  mkEntry (mkEnvelope 7 (lit "alice@example.org") [example_bob; example_carol] 0 0 false [] false None 0 None ∅ None
    (so_class (example_options evidence)) evidence 0 [] None) (msg_data example_sent).

(** Bob is taken and Carol refused. *)
Definition example_talk : Conversation :=
  mkConversation (Some (lit "mx.example.net")) [(example_bob, Ok tt); (example_carol, Err (Permanent (lit "554 5.7.1 refused by policy")))] None None None no_facts.

Definition example_start (sink log : list bool) : World := mkWorld (example_queue sink log) [] [].

Definition example_stored (evidence : bool) (sink log : list bool) : World :=
  mkWorld (on_disk (store_with example_sent 7 (example_options evidence)) (example_queue sink log)).2 [(7, example_entry evidence)] [].

Definition example_recorded (evidence : bool) (sink log : list bool) : World :=
  let W := example_stored evidence sink log in
  moves W [Talked 7 example_talk]
    (record (example_worker evidence) (example_tick 100) 7 (se_envelope (example_entry evidence)) example_talk (wo_queue W)).2.

Definition example_finished (evidence : bool) (sink log : list bool) : World :=
  let W := example_recorded evidence sink log in
  moves W [Settled 7 100] (finish (example_worker evidence) (example_tick 100) 7 [] (wo_queue W)).2.

Definition example_swept (evidence : bool) (sink log : list bool) : World :=
  let W := example_finished evidence sink log in
  moves W [Swept] (write_waiting_outcomes (example_worker evidence) 200 (wo_queue W)).2.

Lemma example_store evidence sink log : act (example_worker evidence) (example_start sink log) (example_stored evidence sink log).
Proof.
  unfold example_stored.
  apply (act_store (example_worker evidence) (example_start sink log) example_sent 7 (example_options evidence)); [apply not_elem_of_nil| |];
    by destruct evidence.
Qed.

Lemma example_run evidence sink log : rtc (act (example_worker evidence)) (example_start sink log) (example_finished evidence sink log).
Proof.
  eapply rtc_l; [apply example_store|].
  eapply (rtc_l _ _ (example_recorded evidence sink log)); [apply (act_record _ (example_stored evidence sink log) (example_tick 100))|].
  apply rtc_once, (act_finish _ (example_recorded evidence sink log) (example_tick 100)).
Qed.

Lemma queue_loses_nothing_witness :
  entry_at (wo_queue (example_finished false [] [])) 7 = None ∧
  fate (example_worker false) (wo_history (example_finished false [] [])) (wo_queue (example_finished false [] [])) 7 (example_entry false) example_carol.
Proof.
  assert (H : entry_at (wo_queue (example_finished false [] [])) 7 = None) by (vm_compute; reflexivity).
  pose proof (queue_loses_nothing (example_worker false) (example_queue [] []) (example_finished false [] []) 7 (example_entry false)
    eq_refl (example_run false [] []) (list_elem_of_here _ _)) as Hk.
  unfold kept in Hk. rewrite H in Hk. split; [exact H|]. apply Hk. right. left.
Defined.

Lemma example_fresh evidence r :
  recipient_state (se_envelope (example_entry evidence)) r = set_next (set_attempts default_state 0) 0.
Proof. unfold recipient_state. cbn [example_entry se_envelope ev_recipient_state]. by rewrite lookup_empty. Qed.


Lemma example_run_swept evidence sink log : rtc (act (example_worker evidence)) (example_start sink log) (example_swept evidence sink log).
Proof. eapply rtc_r; [apply example_run|]. apply (act_sweep _ (example_finished evidence sink log) 200). Qed.

Local Notation swept := (example_swept true [false] [true; false]).

Lemma example_swept_reports : map snd (q_reports (wo_queue swept)) = [Refused].
Proof. vm_compute. reflexivity. Qed.
Lemma example_swept_markers : elements (q_suppressed (wo_queue swept)) = [].
Proof. vm_compute. reflexivity. Qed.
Lemma example_swept_gone : entry_at (wo_queue swept) 7 = None.
Proof. vm_compute. reflexivity. Qed.

(** The sink turned down the one report there was. *)
Lemma untold (q : Queue (list bool) (list bool)) :
  map snd (q_reports q) = [Refused] → elements (q_suppressed q) = [] → ¬ told (example_worker true) q 7 (example_entry true) example_carol.
Proof.
  intros Hr Hs. assert (Hq : ∀ id m o, (id, m, o) ∈ q_reports q → o = Refused).
  { intros id m o Hin. assert (Ho : In o (map snd (q_reports q))) by (apply in_map_iff; eexists (_, _); split; [done|by apply list_elem_of_In]).
    rewrite Hr in Ho. by destruct Ho as [<-|[]]. }
  intros [m Hin _ _|Hsink|m Hin _|ms [Hsub _] Hmax|Hno|Hnobody|Hsup].
  - by apply Hq in Hin.
  - done.
  - by apply Hq in Hin.
  - apply sublist_length in Hsub. rewrite length_map in Hsub.
    assert (Hlen : length (q_reports q) = 1%nat) by (by rewrite <-(length_map snd), Hr). rewrite Hlen in Hsub.
    vm_compute occurrences in Hmax. unfold MAX_REPORT_ATTEMPTS in Hmax. lia.
  - by apply elem_of_nil in Hno.
  - destruct Hnobody as [Hn|[Hn|(b & Hb & Hn)]]; [done|by vm_compute in Hn|].
    assert (Hall : forallb is_address (ev_recipients (se_envelope (example_entry true))) = true) by (vm_compute; reflexivity).
    rewrite forallb_forall in Hall. apply list_elem_of_In in Hb. by rewrite Hall in Hn.
  - apply elements_empty_inv in Hs. unfold suppressed, is_suppressed, is_suppressed_for in Hsup. rewrite !bool_decide_eq_true in Hsup.
    destruct Hsup as [Hsup|Hsup]; apply Hs in Hsup; by apply elem_of_empty in Hsup.
Qed.

