(* ===== verification/Warmup.v ===== *)
(** The warm-up of a sending address (src/src/queue/warmup): the rules that
    judge a day and move the cap of a receiver group (policy, schedule,
    stages), the pace at which a cap is used (pacing), the operator's orders
    (settings), the state kept on disk (state) and the controller the queue
    asks (controller).

    The tally of a day comes from the delivery log and is an argument. The
    state file is its last saved value, and whether a write of it works is
    scripted. Events and the log are left out. *)

From stdpp Require Import gmap sorting.
From S2P Require Import Prelude RustStd QueueWorker.

Local Open Scope Z_scope.

#[global] Instance group_countable : Countable Group.
Proof.
  apply (inj_countable'
    (λ g, match g with Gmail => 0%nat | Outlook => 1%nat | Yahoo => 2%nat | Icloud => 3%nat | OtherGroup => 4%nat end)
    (λ n, match n with 0%nat => Gmail | 1%nat => Outlook | 2%nat => Yahoo | 3%nat => Icloud | _ => OtherGroup end)).
  by intros [].
Defined.

Definition ALL : list Group := [Gmail; Outlook; Yahoo; Icloud; OtherGroup].

Definition is_provider (g : Group) : bool := negb (bool_decide (g = OtherGroup)).

Definition i64_max : Z := 2 ^ 63 - 1.

(** [u64::div_ceil]. *)
Definition div_ceil (a b : Z) : Z := (a + b - 1) / b.

(** ** The rules *)

Definition START_CAP : Z := 50.
Definition UNCAPPED_AT : Z := 5000.
Definition MAX_CAP : Z := 1000000.
Definition GROWTH_PERMILLE : Z := 1500.
Definition MIN_FILL_PERCENT : Z := 50.
Definition GOOD_PERMILLE : Z := 20.
Definition VERY_BAD_PERMILLE : Z := 100.

Inductive DayVerdict := Good | Bad | VeryBad | Idle.

#[global] Instance day_verdict_eq_dec : EqDecision DayVerdict.
Proof. solve_decision. Defined.

Record Tally := mkTally { ta_attempted : Z; ta_deferred : Z; ta_bounced : Z; ta_spam_blocks : Z }.

Definition over (part whole permille : Z) : bool := whole * permille <? part * 1000.
Definition under (part whole permille : Z) : bool := part * 1000 <? whole * permille.

Definition judge (g : Group) (t : Tally) : DayVerdict :=
  let whole := ta_attempted t in
  if whole =? 0 then Idle
  else
    let '(refused, spam_alone) :=
      if is_provider g then (ta_bounced t, ta_spam_blocks t) else (saturating_add u32_max (ta_bounced t) (ta_spam_blocks t), 0) in
    if over (ta_deferred t) whole VERY_BAD_PERMILLE || (0 <? spam_alone) then VeryBad
    else if negb (is_provider g) && over refused whole VERY_BAD_PERMILLE then VeryBad
    else if under (ta_deferred t) whole GOOD_PERMILLE && under refused whole GOOD_PERMILLE then Good
    else Bad.

Definition grown (cap : Z) : option Z :=
  let next := div_ceil (cap * GROWTH_PERMILLE) 1000 in
  if UNCAPPED_AT <? next then None else Some next.

Definition step_back (cap : Z) : Z :=
  let back := cap * 1000 / GROWTH_PERMILLE in
  Z.min (Z.max (if back <=? u32_max then back else cap) START_CAP) cap.

Definition filled (sent cap : Z) : bool := cap * MIN_FILL_PERCENT <=? sent * 100.

(** ** The pace *)

Definition DAY_MS : Z := 86400000.

Definition interval_ms (cap : Z) : Z := DAY_MS / Z.max cap 1.
Definition burst (cap : Z) : Z := div_ceil (Z.max cap 1) 24.
Definition tolerance_ms (cap : Z) : Z := (burst cap - 1) * interval_ms cap.

Definition pace_bounded (cap tat_ms now_ms : Z) : Z :=
  let furthest := saturating_add u64_max (saturating_add u64_max now_ms (tolerance_ms cap)) (interval_ms cap) in
  Z.min tat_ms furthest.

(** The loop of [take]: at most [n] more units. *)
Fixpoint take_units (n : nat) (interval limit tat : Z) : nat * Z :=
  match n with
  | O => (O, tat)
  | S n =>
      if tat <=? limit then
        let '(taken, tat) := take_units n interval limit (saturating_add u64_max tat interval) in (S taken, tat)
      else (O, tat)
  end.

Definition take_pace (cap tat_ms now_ms wanted : Z) : Z * Z :=
  let limit := saturating_add u64_max now_ms (tolerance_ms cap) in
  let '(taken, tat) := take_units (Z.to_nat wanted) (interval_ms cap) limit (Z.max (pace_bounded cap tat_ms now_ms) now_ms) in
  (Z.of_nat taken, if Nat.eqb taken 0 then tat_ms else tat).

Definition give_back_pace (cap tat_ms count : Z) : Z :=
  saturating_sub tat_ms (saturating_mul u64_max (interval_ms cap) count).

Definition next_ms (cap tat_ms now_ms : Z) : Z :=
  Z.max (saturating_sub (pace_bounded cap tat_ms now_ms) (tolerance_ms cap)) now_ms.

(** ** The state *)

Definition MAX_HISTORY : nat := 90.
Definition MAX_SENDERS : Z := 1024.
Definition OVERFLOW_SENDER : list Z := lit "overflow".

Inductive RaiseOutcome := RaisePending | Kept | Reverted.

Record Raise := mkRaise { ra_from : Z; ra_trial_day : Z }.

Record Cause := mkCause { ca_account : list Z; ca_bad : Z }.

Record DayRecord := mkDayRecord {
  dr_day : Z;
  dr_cap : option Z;
  dr_sent : Z;
  dr_tally : Tally;
  dr_verdict : DayVerdict;
  dr_next_cap : option Z;
  dr_raise : option RaiseOutcome;
  dr_paused : bool;
  dr_causes : list Cause
}.

Record GroupState := mkGroup {
  gs_cap : option Z;
  gs_tat_ms : Z;
  gs_sent : Z;
  gs_senders : gmap (list Z) Z;
  gs_raise : option Raise;
  gs_history : list DayRecord
}.

Definition default_group : GroupState := mkGroup (Some START_CAP) 0 0 ∅ None [].

Definition set_cap (s : GroupState) (cap : option Z) : GroupState :=
  mkGroup cap (gs_tat_ms s) (gs_sent s) (gs_senders s) (gs_raise s) (gs_history s).
Definition set_raise (s : GroupState) (raise : option Raise) : GroupState :=
  mkGroup (gs_cap s) (gs_tat_ms s) (gs_sent s) (gs_senders s) raise (gs_history s).
Definition set_tat (s : GroupState) (tat : Z) : GroupState :=
  mkGroup (gs_cap s) tat (gs_sent s) (gs_senders s) (gs_raise s) (gs_history s).
Definition set_use (s : GroupState) (tat sent : Z) (senders : gmap (list Z) Z) : GroupState :=
  mkGroup (gs_cap s) tat sent senders (gs_raise s) (gs_history s).

Definition remember (s : GroupState) (r : DayRecord) : GroupState :=
  let history := gs_history s ++ [r] in
  mkGroup (gs_cap s) (gs_tat_ms s) (gs_sent s) (gs_senders s) (gs_raise s) (drop (length history - MAX_HISTORY) history).

Definition sender_key (s : GroupState) (sender : list Z) : list Z :=
  if bool_decide (is_Some (gs_senders s !! sender)) || (Z.of_nat (size (gs_senders s)) <? MAX_SENDERS) then sender else OVERFLOW_SENDER.

Record Closing := mkClosing { cl_day : Z; cl_paused : bool; cl_sent : gmap Group Z }.

#[global] Instance closing_eq_dec : EqDecision Closing.
Proof. solve_decision. Defined.

Record State := mkWarmState {
  st_day : Z;
  st_applied : Z;
  st_groups : gmap Group GroupState;
  st_closing : option Closing
}.

Definition closing_of (s : State) (day : Z) (paused : bool) : Closing :=
  mkClosing day paused (omap (λ g, if 0 <? gs_sent g then Some (gs_sent g) else None) (st_groups s)).

Definition new_state (day : Z) : State :=
  mkWarmState day 0 (list_to_map (map (λ g, (g, default_group)) ALL)) None.

Definition distrusted (day : Z) : State :=
  let s := new_state day in
  mkWarmState day 0 ((λ g, set_use g (gs_tat_ms g) START_CAP (gs_senders g)) <$> st_groups s) None.

Definition group_of (s : State) (g : Group) : GroupState := default default_group (st_groups s !! g).
Definition put_group (s : State) (g : Group) (v : GroupState) : State :=
  mkWarmState (st_day s) (st_applied s) (<[g := v]> (st_groups s)) (st_closing s).
Definition set_closing (s : State) (c : option Closing) : State := mkWarmState (st_day s) (st_applied s) (st_groups s) c.
Definition set_day (s : State) (day : Z) : State := mkWarmState day (st_applied s) (st_groups s) (st_closing s).
Definition set_applied (s : State) (seq : Z) : State := mkWarmState (st_day s) seq (st_groups s) (st_closing s).

(** ** The operator's orders *)

Inductive WarmAction :=
| ActionSet (cap : Z)
| ActionNext
| ActionReset
| ActionStart (cap : option Z)
| ActionForce (cap : option Z).

Record Order := mkOrder { or_seq : Z; or_group : Group; or_action : WarmAction }.

Record Settings := mkSettings { se_enabled : bool; se_paused : bool; se_orders : list Order }.

Definition default_settings : Settings := mkSettings false false [].
Definition distrusted_settings : Settings := mkSettings true false [].

Definition cap_in_range (cap : Z) : bool := (1 <=? cap) && (cap <=? MAX_CAP).

Definition order_cap (a : WarmAction) : option Z :=
  match a with ActionSet cap | ActionStart (Some cap) | ActionForce (Some cap) => Some cap | _ => None end.

(** Whether the file of the orders is taken. *)
Fixpoint validate_orders (groups : gset Group) (orders : list Order) : bool :=
  match orders with
  | [] => true
  | o :: orders =>
      negb (bool_decide (or_group o ∈ groups)) &&
      match order_cap (or_action o) with Some cap => cap_in_range cap | None => true end &&
      negb (or_seq o =? 0) && validate_orders ({[or_group o]} ∪ groups) orders
  end.

Definition validate (s : Settings) : bool := validate_orders ∅ (se_orders s).

Definition last_seq (s : Settings) : Z := fold_left Z.max (map or_seq (se_orders s)) 0.

Definition order (s : Settings) (g : Group) (a : WarmAction) : Order * Settings :=
  let o := mkOrder (saturating_add u64_max (last_seq s) 1) g a in
  (o, mkSettings (se_enabled s) (se_paused s) (List.filter (λ o, negb (bool_decide (or_group o = g))) (se_orders s) ++ [o])).

(** ** The end of a day *)

Definition decide_cap (s : GroupState) (day : Z) (v : DayVerdict) (sent : Z) : option RaiseOutcome * GroupState :=
  match gs_raise s with
  | Some raise =>
      if (day <? ra_trial_day raise) || bool_decide (v = Idle) then (Some RaisePending, s)
      else
        let s := set_raise s None in
        if bool_decide (v = Good) then (Some Kept, s) else (Some Reverted, set_cap s (Some (ra_from raise)))
  | None =>
      match gs_cap s with
      | None => (None, s)
      | Some cap =>
          (None, set_cap s (match v with
                            | Good => if filled sent cap then grown cap else Some cap
                            | VeryBad => Some (step_back cap)
                            | Bad | Idle => Some cap
                            end))
      end
  end.

Definition judge_group (c : Closing) (tally : Group → Tally * list Cause) (s : State) (g : Group) : State :=
  let sent := default 0 (cl_sent c !! g) in
  if sent =? 0 then s
  else
    let sched := group_of s g in
    let '(counts, causes) := tally g in
    let v := judge g counts in
    let '(raise, sched') :=
      if cl_paused c then ((λ _, RaisePending) <$> gs_raise sched, sched) else decide_cap sched (cl_day c) v sent in
    put_group s g (remember sched' (mkDayRecord (cl_day c) (gs_cap sched) sent counts v (gs_cap sched') raise (cl_paused c) causes)).

Definition judge_day (s : State) (c : Closing) (tally : Group → Tally * list Cause) : State :=
  fold_left (judge_group c tally) ALL s.

Definition open_day (s : State) (day : Z) : State :=
  mkWarmState day (st_applied s) ((λ g, set_use g (gs_tat_ms g) 0 ∅) <$> st_groups s) (st_closing s).

Definition lowers (cap current : option Z) : bool :=
  match cap, current with
  | Some cap, Some current => cap <? current
  | Some _, None => true
  | None, _ => false
  end.

Definition apply_action (s : GroupState) (a : WarmAction) (today : Z) : GroupState :=
  let trial from (pending : option Raise) :=
    Some (mkRaise (match pending with Some r => ra_from r | None => from end) (saturating_add i64_max today 1)) in
  match a, gs_cap s with
  | ActionSet cap, current =>
      match current with
      | Some current => if current <? cap then set_cap (set_raise s (trial current (gs_raise s))) (Some cap) else set_cap (set_raise s None) (Some cap)
      | None => set_cap (set_raise s None) (Some cap)
      end
  | ActionNext, Some current => set_cap (set_raise s (trial current (gs_raise s))) (grown current)
  | ActionNext, None => s
  | ActionStart cap, current => if lowers cap current then s else set_cap (set_raise s None) cap
  | ActionForce cap, _ => set_cap (set_raise s None) cap
  | ActionReset, _ => set_tat (set_cap (set_raise s None) (Some START_CAP)) 0
  end.

(** ** Where a cap starts *)

Definition STAGES : list (Z * Z) := [(0, 0); (7, 25); (28, 50); (90, 100)].

(** The share of the volume, in percent, of the row of [age_days]. *)
Definition stage (age_days : Z) : Z :=
  match List.find (λ row, row.1 <=? age_days) (rev STAGES) with Some row => row.2 | None => 0 end.

Definition starting_cap (age_days : Z) (volume : option Z) : option Z :=
  let share := match volume with Some v => v * stage age_days / 100 | None => 0 end in
  let cap := Z.max share START_CAP in
  if UNCAPPED_AT <? cap then None else Some cap.

(** The loop of [days_to_reach], for at most [fuel] days. *)
Fixpoint days_to_reach (fuel : nat) (cap volume : option Z) : option Z :=
  match cap with
  | None => Some 0
  | Some current =>
      if match volume with Some v => v <=? current | None => false end then Some 0
      else match fuel with O => None | S fuel => Z.succ <$> days_to_reach fuel (grown current) volume end
  end.

(** ** The controller *)

Definition RETRY_AFTER_ERROR_SECS : Z := 60.
Definition WAITING_SECS : Z := 900.
Definition DAY_SECS : Z := 86400.

Inductive Grant := Unlimited | Limited (granted until : Z).

Definition day_of (now : Z) : Z := Z.min (now / DAY_SECS) i64_max.

Definition sender_share (cap : Z) : Z := Z.min (Z.max (cap * 3 / 4) 1) cap.

(** The state in memory and on disk, and which writes fail. *)
Record Warmup := mkWarmup {
  wu_settings : Settings;
  wu_state : State;
  wu_waiting : gmap Group (gmap (list Z) Z);
  wu_saved : option State;
  wu_faults : list bool
}.

Definition set_state (w : Warmup) (s : State) : Warmup := mkWarmup (wu_settings w) s (wu_waiting w) (wu_saved w) (wu_faults w).
Definition set_waiting (w : Warmup) (m : gmap Group (gmap (list Z) Z)) : Warmup :=
  mkWarmup (wu_settings w) (wu_state w) m (wu_saved w) (wu_faults w).

Definition save (w : Warmup) : bool * Warmup :=
  match wu_faults w with
  | true :: faults => (false, mkWarmup (wu_settings w) (wu_state w) (wu_waiting w) (wu_saved w) faults)
  | faults => (true, mkWarmup (wu_settings w) (wu_state w) (wu_waiting w) (Some (wu_state w)) (tail faults))
  end.

Definition contested (w : Warmup) (g : Group) (sender : list Z) (now : Z) : bool :=
  match wu_waiting w !! g with
  | Some senders => existsb (λ p, negb (str_eqb p.1 sender) && (saturating_sub now p.2 <? WAITING_SECS)) (map_to_list senders)
  | None => false
  end.

Definition share (w : Warmup) (g : Group) (sender : list Z) (cap now : Z) : Z :=
  if contested w g sender now then sender_share cap else cap.

Definition settle_pace (w : Warmup) (g : Group) (now : Z) : Warmup :=
  let s := group_of (wu_state w) g in
  let s := match gs_cap s with
           | Some cap => set_tat s (pace_bounded cap (gs_tat_ms s) (saturating_mul u64_max now 1000))
           | None => s
           end in
  set_state w (put_group (wu_state w) g s).

Definition note_waiting (w : Warmup) (g : Group) (sender : list Z) (now : Z) : Warmup :=
  let senders := default ∅ (wu_waiting w !! g) in
  let known := bool_decide (is_Some (senders !! sender)) in
  let senders :=
    if negb known && (MAX_SENDERS <=? Z.of_nat (size senders)) then filter (λ p, saturating_sub now p.2 < WAITING_SECS) senders else senders in
  let key := if bool_decide (is_Some (senders !! sender)) || (Z.of_nat (size senders) <? MAX_SENDERS) then sender else OVERFLOW_SENDER in
  set_waiting w (<[g := <[key := now]> senders]> (wu_waiting w)).

Definition roll (w : Warmup) (now : Z) : Warmup :=
  let today := day_of now in
  let day := st_day (wu_state w) in
  if today <? day then (save (set_state w (set_day (wu_state w) today))).2
  else if day =? today then w
  else
    let s := wu_state w in
    let s :=
      if se_enabled (wu_settings w) then
        let closing := closing_of s day (se_paused (wu_settings w)) in
        if bool_decide (cl_sent closing = ∅) then s else set_closing s (Some closing)
      else s in
    (save (set_state w (open_day s today))).2.

(** Orders are applied by sequence number. *)
Definition order_before (a b : Order) : Prop := or_seq a ≤ or_seq b.
#[global] Instance order_before_dec a b : Decision (order_before a b).
Proof. unfold order_before. apply _. Defined.

Definition new_orders (w : Warmup) : list Order :=
  merge_sort order_before (List.filter (λ o, st_applied (wu_state w) <? or_seq o) (se_orders (wu_settings w))).

Definition apply_order (today : Z) (s : State) (o : Order) : State :=
  set_applied (put_group s (or_group o) (apply_action (group_of s (or_group o)) (or_action o) today)) (or_seq o).

Definition apply_orders (w : Warmup) (today : Z) : bool * Warmup :=
  let orders := new_orders w in
  (negb (bool_decide (length orders = 0%nat)), set_state w (fold_left (apply_order today) orders (wu_state w))).

Definition save_if (changed : bool) (w : Warmup) : Warmup := if changed then (save w).2 else w.

(** What a file read gives: nothing there, a value, or no trust. *)
Inductive FileRead (A : Type) := FileNone | FileValue (a : A) | FileBad.
Arguments FileNone {A}.
Arguments FileValue {A}.
Arguments FileBad {A}.

Definition open_warmup (settings : FileRead Settings) (state : FileRead State) (faults : list bool) (now : Z) : Warmup :=
  let today := day_of now in
  let s := match settings with FileNone => default_settings | FileValue s => s | FileBad => distrusted_settings end in
  let st := match state with FileNone => new_state today | FileValue st => st | FileBad => distrusted today end in
  let saved := match state with FileValue st => Some st | _ => None end in
  let '(changed, w) := apply_orders (mkWarmup s st ∅ saved faults) today in
  save_if changed w.

(** When [sender] may next send, or nothing when one recipient may go now. *)
Definition wait_until (s : GroupState) (sender : list Z) (share : option Z) (now : Z) : option Z :=
  match gs_cap s with
  | None => None
  | Some cap =>
      let used := default 0 (gs_senders s !! sender_key s sender) in
      if (cap <=? gs_sent s) || (default cap share <=? used) then
        Some (saturating_mul u64_max (saturating_add i64_max (day_of now) 1) DAY_SECS)
      else
        let now_ms := saturating_mul u64_max now 1000 in
        let next := next_ms cap (gs_tat_ms s) now_ms in
        if now_ms <? next then Some (div_ceil next 1000) else None
  end.

Definition blocked (w : Warmup) (g : Group) (sender : list Z) (now : Z) : option Z * Warmup :=
  let w := roll w now in
  if negb (se_enabled (wu_settings w)) then (None, w)
  else
    let w := settle_pace w g now in
    let s := group_of (wu_state w) g in
    let until := wait_until s sender ((λ cap, share w g sender cap now) <$> gs_cap s) now in
    (until, match until with Some _ => note_waiting w g sender now | None => w end).

(** What a sender with a cap may still take. *)
Definition room (s : GroupState) (cap share : Z) (sender : list Z) : Z :=
  Z.min (saturating_sub cap (gs_sent s)) (saturating_sub share (default 0 (gs_senders s !! sender_key s sender))).

Definition use_units (s : GroupState) (sender : list Z) (taken tat : Z) : GroupState :=
  let key := sender_key s sender in
  set_use s tat (gs_sent s + taken) (<[key := default 0 (gs_senders s !! key) + taken]> (gs_senders s)).

Definition grant (w : Warmup) (g : Group) (sender : list Z) (wanted now : Z) : Grant * Warmup :=
  let w := roll w now in
  if negb (se_enabled (wu_settings w)) then (Unlimited, w)
  else
    let w := settle_pace w g now in
    let before := group_of (wu_state w) g in
    match gs_cap before with
    | None => (Unlimited, w)
    | Some cap =>
        let sh := share w g sender cap now in
        let '(taken, tat) := take_pace cap (gs_tat_ms before) (saturating_mul u64_max now 1000) (Z.min (Z.min wanted u32_max) (room before cap sh sender)) in
        let '(saved, w) :=
          if 0 <? taken then save (set_state w (put_group (wu_state w) g (use_units before sender taken tat))) else (true, w) in
        if negb saved then
          (Limited 0 (saturating_add u64_max now RETRY_AFTER_ERROR_SECS), set_state w (put_group (wu_state w) g before))
        else
          let until :=
            if taken <? wanted then
              default (saturating_add u64_max now RETRY_AFTER_ERROR_SECS) (wait_until (group_of (wu_state w) g) sender (Some sh) now)
            else now in
          (Limited taken until, if taken <? wanted then note_waiting w g sender now else w)
    end.

(** The units really given back. *)
Definition returned (w : Warmup) (g : Group) (count now : Z) : Z :=
  if (count =? 0) || negb (st_day (wu_state w) =? day_of now) then 0
  else match gs_cap (group_of (wu_state w) g) with
       | None => 0
       | Some _ => Z.min (Z.min count u32_max) (gs_sent (group_of (wu_state w) g))
       end.

Definition give_back (w : Warmup) (g : Group) (sender : list Z) (count now : Z) : Warmup :=
  if (count =? 0) || negb (st_day (wu_state w) =? day_of now) then w
  else
    let s := group_of (wu_state w) g in
    match gs_cap s with
    | None => set_state w (put_group (wu_state w) g s)
    | Some cap =>
        let count := Z.min (Z.min count u32_max) (gs_sent s) in
        let key := sender_key s sender in
        let senders := match gs_senders s !! key with Some used => <[key := saturating_sub used count]> (gs_senders s) | None => gs_senders s end in
        (save (set_state w (put_group (wu_state w) g (set_use s (give_back_pace cap (gs_tat_ms s) count) (gs_sent s - count) senders)))).2
    end.

(** A tick takes the lock twice: the log is read between, while the queue
    goes on. *)
Definition tick_close (w : Warmup) (now : Z) : option Closing * Warmup :=
  let w := roll w now in (st_closing (wu_state w), w).

Definition tick_judge (w : Warmup) (c : Closing) (tally : Group → Tally * list Cause) : Warmup :=
  if bool_decide (st_closing (wu_state w) = Some c)
  then (save (set_state w (judge_day (set_closing (wu_state w) None) c tally))).2 else w.

Definition reload (w : Warmup) (settings : FileRead Settings) (now : Z) : Warmup :=
  match settings with
  | FileBad => w
  | _ =>
      let w := roll w now in
      let s := match settings with FileValue s => s | _ => default_settings end in
      let '(changed, w) := apply_orders (mkWarmup s (wu_state w) (wu_waiting w) (wu_saved w) (wu_faults w)) (day_of now) in
      save_if changed w
  end.

(** A restart reads the file back. *)
Definition restart (w : Warmup) (now : Z) : Warmup :=
  open_warmup (FileValue (wu_settings w)) (match wu_saved w with Some s => FileValue s | None => FileNone end) (wu_faults w) now.

(** ** Theory of the pace *)

(** The units taken by calls at given times. *)
Fixpoint paced (cap tat : Z) (calls : list (Z * Z)) : Z :=
  match calls with
  | [] => 0
  | (now, wanted) :: calls => let '(taken, tat) := take_pace cap tat now wanted in taken + paced cap tat calls
  end.

Lemma interval_pos cap : cap ≤ DAY_MS → 1 ≤ interval_ms cap.
Proof. intros H. unfold interval_ms, DAY_MS in *. apply Z.div_le_lower_bound; lia. Qed.

Lemma burst_pos cap : 1 ≤ burst cap.
Proof. unfold burst, div_ceil. apply Z.div_le_lower_bound; lia. Qed.

Lemma tolerance_bound cap : 0 ≤ tolerance_ms cap ≤ DAY_MS ∧ interval_ms cap ≤ DAY_MS.
Proof.
  assert (Hb : burst cap - 1 ≤ Z.max cap 1) by (unfold burst, div_ceil; assert ((Z.max cap 1 + 24 - 1) / 24 ≤ Z.max cap 1 + 1); [apply Z.div_le_upper_bound; lia|lia]).
  pose proof (burst_pos cap) as Hp. unfold tolerance_ms, interval_ms.
  assert (Hi : 0 ≤ DAY_MS / Z.max cap 1) by (apply Z.div_pos; unfold DAY_MS; lia).
  assert (Hm : Z.max cap 1 * (DAY_MS / Z.max cap 1) ≤ DAY_MS) by (apply Z.mul_div_le; lia).
  split; [split; [nia|]|]; nia.
Qed.

Lemma take_units_spec n interval limit tat taken tat' :
  0 ≤ interval → limit + interval ≤ u64_max → take_units n interval limit tat = (taken, tat') →
  tat' = tat + Z.of_nat taken * interval ∧ (taken ≤ n)%nat ∧ ((0 < taken)%nat → tat + (Z.of_nat taken - 1) * interval ≤ limit).
Proof.
  intros Hi Hl. revert tat taken tat'. induction n as [|n IH]; intros tat taken tat'; simpl; [intros [= <- <-]; lia|].
  destruct (tat <=? limit) eqn:E; [|intros [= <- <-]; lia]. apply Z.leb_le in E.
  destruct (take_units n interval limit _) as [taken' tat''] eqn:Et. intros [= <- <-].
  apply IH in Et as (-> & Hn & Hlim). unfold saturating_add in *. rewrite Z.min_l in * by lia.
  split_and!; [lia|lia|]. intros _. destruct taken' as [|taken']; [lia|]. specialize (Hlim ltac:(lia)). lia.
Qed.

(** One call, away from the end of the clock. *)
Lemma take_pace_spec cap tat now wanted :
  cap ≤ DAY_MS → 0 ≤ now → now + 2 * DAY_MS ≤ u64_max →
  let base := Z.max (Z.min tat (now + tolerance_ms cap + interval_ms cap)) now in
  let '(taken, tat') := take_pace cap tat now wanted in
  0 ≤ taken ∧ (taken = 0 ∧ tat' = tat ∨
    0 < taken ∧ tat' = base + taken * interval_ms cap ∧ base + (taken - 1) * interval_ms cap ≤ now + tolerance_ms cap).
Proof.
  intros Hc H0 Hn. pose proof (interval_pos cap Hc). destruct (tolerance_bound cap) as [Ht Hi].
  unfold take_pace, pace_bounded, saturating_add. rewrite !(Z.min_l (now + tolerance_ms cap) u64_max), (Z.min_l (now + tolerance_ms cap + interval_ms cap) u64_max) by lia. cbv zeta.
  destruct (take_units _ _ _ _) as [taken tat'] eqn:E. apply take_units_spec in E as (-> & _ & Hlim); [|lia|lia].
  split; [lia|]. destruct (Nat.eqb_spec taken 0) as [->|Hne]; [by left|right]. split_and!; [lia|done|]. apply Hlim. lia.
Qed.

Lemma paced_bound cap tat calls s e :
  cap ≤ DAY_MS → 0 ≤ s → e + 2 * DAY_MS ≤ u64_max →
  Sorted Z.le (map fst calls) → Forall (λ c, s ≤ c.1 ≤ e) calls →
  0 ≤ paced cap tat calls ∧
  (0 < paced cap tat calls →
   (paced cap tat calls - 1) * interval_ms cap + Z.max (Z.min tat (s + tolerance_ms cap + interval_ms cap)) s ≤ e + tolerance_ms cap).
Proof.
  intros Hc Hs He. revert tat s Hs. induction calls as [|[now wanted] calls IH]; intros tat s Hs Hsort Hin; [simpl; lia|].
  apply Forall_cons in Hin as [[Hn1 Hn2] Hin]. cbn [fst map] in *.
  assert (Hin' : Forall (λ c, now ≤ c.1 ≤ e) calls).
  { apply Sorted_StronglySorted in Hsort; [|intros ???; lia]. apply StronglySorted_inv in Hsort as [_ Hall].
    rewrite Forall_forall in Hin. rewrite Forall_forall in Hall. apply Forall_forall. intros c Hcin. split; [|by apply Hin]. apply Hall, list_elem_of_In, in_map, list_elem_of_In, Hcin. }
  apply Sorted_inv in Hsort as [Hsort _].
  pose proof (interval_pos cap Hc) as Hi. destruct (tolerance_bound cap) as [Ht _].
  pose proof (take_pace_spec cap tat now wanted Hc ltac:(lia) ltac:(lia)) as Hsp. cbn [paced].
  destruct (take_pace cap tat now wanted) as [k tat'] eqn:Etk. destruct Hsp as [Hk Hsp].
  destruct (IH tat' now ltac:(lia) Hsort Hin') as [Hp Hm]. set (m := paced cap tat' calls) in *.
  split; [lia|]. intros Htot. destruct Hsp as [[-> ->]|(Hk0 & -> & Hlim)].
  - specialize (Hm ltac:(lia)). lia.
  - set (base := Z.max (Z.min tat (now + tolerance_ms cap + interval_ms cap)) now) in *.
    assert (Hbase : Z.max (Z.min tat (s + tolerance_ms cap + interval_ms cap)) s ≤ base) by (unfold base; lia).
    destruct (Z.eq_dec m 0) as [Hm0|Hm0]; [nia|]. specialize (Hm ltac:(lia)). nia.
Qed.

(** C19: A warm-up cap is spread over the day. Whatever was asked and when,
    in any stretch of time the units taken are at most the burst, an hour's
    share of the cap, and one more for every full interval of the stretch: a
    new address never sends its whole day at once. *)
Theorem warmup_pace_bounded (cap tat s e : Z) (calls : list (Z * Z)) :
  1 ≤ cap ≤ MAX_CAP → 0 ≤ s ≤ e → e + 2 * DAY_MS ≤ u64_max →
  Sorted Z.le (map fst calls) → Forall (λ c, s ≤ c.1 ≤ e) calls →
  paced cap tat calls ≤ burst cap + (e - s) / interval_ms cap.
Proof.
  intros [Hc1 Hc2] [Hs Hse] He Hsort Hin. assert (Hcap : cap ≤ DAY_MS) by (unfold MAX_CAP, DAY_MS in *; lia).
  destruct (paced_bound cap tat calls s e Hcap Hs He Hsort Hin) as [Hp Hb].
  pose proof (interval_pos cap Hcap) as Hi. pose proof (burst_pos cap) as Hbp.
  assert (0 ≤ (e - s) / interval_ms cap) by (apply Z.div_pos; lia).
  destruct (Z.eq_dec (paced cap tat calls) 0) as [->|Hne]; [lia|]. specialize (Hb ltac:(lia)).
  cut (paced cap tat calls - burst cap ≤ (e - s) / interval_ms cap); [lia|].
  apply Z.div_le_lower_bound; [lia|]. unfold tolerance_ms in Hb. lia.
Qed.

Lemma warmup_pace_bounded_witness :
  Sorted Z.le [0; 1000; 3600000] ∧ paced 50 0 [(0, 10); (1000, 10); (3600000, 10)] = 5 ∧
  paced 50 0 [(0, 10); (1000, 10); (3600000, 10)] ≤ burst 50 + (3600000 - 0) / interval_ms 50.
Proof.
  assert (Hs : Sorted Z.le [0; 1000; 3600000]) by (repeat constructor; lia).
  split_and!; [done|by vm_compute|]. apply (warmup_pace_bounded 50 0 0 3600000 [(0, 10); (1000, 10); (3600000, 10)]); [unfold MAX_CAP; lia|lia|vm_compute; discriminate|done|].
  repeat constructor; simpl; lia.
Defined.

(** ** Theory of the controller *)

Definition sent_of (s : State) (g : Group) : Z := gs_sent (group_of s g).

Lemma group_of_put s g v g' : group_of (put_group s g v) g' = if decide (g' = g) then v else group_of s g'.
Proof.
  unfold group_of, put_group. cbn [st_groups]. destruct (decide (g' = g)) as [->|]; [by rewrite lookup_insert_eq|by rewrite lookup_insert_ne].
Qed.

Lemma sent_put s g v g' : gs_sent v = sent_of s g → sent_of (put_group s g v) g' = sent_of s g'.
Proof. intros Hv. unfold sent_of. rewrite group_of_put. by destruct (decide (g' = g)) as [->|]. Qed.

(** Moving a cap does not change what was sent. *)
Lemma decide_cap_sent s day v sent : gs_sent (decide_cap s day v sent).2 = gs_sent s.
Proof. unfold decide_cap. by repeat case_match. Qed.

Lemma apply_action_sent s a today : gs_sent (apply_action s a today) = gs_sent s.
Proof. unfold apply_action. by repeat case_match. Qed.

Lemma judge_group_sent c tally s g g' : sent_of (judge_group c tally s g) g' = sent_of s g'.
Proof.
  unfold judge_group. destruct (_ =? 0); [done|]. destruct (tally g) as [counts causes]. destruct (cl_paused c).
  - by apply sent_put.
  - pose proof (decide_cap_sent (group_of s g) (cl_day c) (judge g counts) (default 0 (cl_sent c !! g))) as Hd.
    destruct (decide_cap _ _ _ _) as [raise sched]. by apply sent_put.
Qed.

Lemma fold_keeps {A} (f : State → A → State) (P : State → State → Prop) l s :
  (∀ s, P s s) → (∀ a b c, P a b → P b c → P a c) → (∀ s a, P s (f s a)) → P s (fold_left f l s).
Proof. intros Hr Ht Hf. revert s. induction l as [|a l IH]; intros s; [apply Hr|]. simpl. eapply Ht; [apply Hf|apply IH]. Qed.

(** The day and what was sent on it are the same. *)
Definition same_use (s s' : State) : Prop := st_day s' = st_day s ∧ ∀ g, sent_of s' g = sent_of s g.

Lemma same_use_refl s : same_use s s. Proof. done. Qed.
Lemma same_use_trans a b c : same_use a b → same_use b c → same_use a c.
Proof. intros [H1 H2] [H3 H4]. split; [congruence|]. intros g. by rewrite H4, H2. Qed.

Lemma judge_day_use s c tally : same_use s (judge_day s c tally).
Proof.
  apply (fold_keeps _ same_use); [apply same_use_refl|apply same_use_trans|]. intros s' g. split; [|apply judge_group_sent].
  unfold judge_group. destruct (_ =? 0); [done|]. destruct (tally g). destruct (if cl_paused c then _ else _). done.
Qed.

Lemma orders_use today l s : same_use s (fold_left (apply_order today) l s).
Proof.
  apply (fold_keeps _ same_use); [apply same_use_refl|apply same_use_trans|]. intros s' o. split; [done|]. intros g.
  apply (sent_put s'). apply apply_action_sent.
Qed.

Lemma settle_pace_use w g now : same_use (wu_state w) (wu_state (settle_pace w g now)).
Proof. split; [done|]. intros g'. apply sent_put. unfold settle_pace. by destruct (gs_cap _). Qed.

(** *** A day of the warm-up *)

Inductive Op :=
| OpGrant (g : Group) (sender : list Z) (wanted now : Z)
| OpGiveBack (g : Group) (sender : list Z) (count now : Z)
| OpBlocked (g : Group) (sender : list Z) (now : Z)
| OpClose (now : Z)
| OpJudge (c : Closing) (tally : Group → Tally * list Cause) (now : Z)
| OpReload (settings : FileRead Settings) (now : Z)
| OpRestart (now : Z).

Definition op_now (o : Op) : Z :=
  match o with
  | OpGrant _ _ _ now | OpGiveBack _ _ _ now | OpBlocked _ _ now | OpClose now | OpJudge _ _ now | OpReload _ now | OpRestart now => now
  end.

Definition op_ok (o : Op) : Prop := match o with OpGrant _ _ n _ | OpGiveBack _ _ n _ => 0 ≤ n | _ => True end.

(** The recipients let go under a cap and not given back, and the highest cap
    any was let go under. *)
Record Day := mkDay { dy_warmup : Warmup; dy_gone : Group → Z; dy_top : Group → Z }.

Definition step_day (D : Day) (o : Op) : Day :=
  let w := dy_warmup D in
  match o with
  | OpGrant g sender wanted now =>
      let '(r, w') := grant w g sender wanted now in
      let cap := default 0 (gs_cap (group_of (wu_state (roll w now)) g)) in
      match r with
      | Limited n _ =>
          if 0 <? n then
            mkDay w' (λ g', dy_gone D g' + if decide (g' = g) then n else 0)
              (λ g', if decide (g' = g) then Z.max (dy_top D g') cap else dy_top D g')
          else mkDay w' (dy_gone D) (dy_top D)
      | Unlimited => mkDay w' (dy_gone D) (dy_top D)
      end
  | OpGiveBack g sender count now =>
      mkDay (give_back w g sender count now)
        (λ g', dy_gone D g' - if decide (g' = g) then Z.min (returned w g count now) (dy_gone D g) else 0) (dy_top D)
  | OpBlocked g sender now => mkDay (blocked w g sender now).2 (dy_gone D) (dy_top D)
  | OpClose now => mkDay (tick_close w now).2 (dy_gone D) (dy_top D)
  | OpJudge c tally _ => mkDay (tick_judge w c tally) (dy_gone D) (dy_top D)
  | OpReload settings now => mkDay (reload w settings now) (dy_gone D) (dy_top D)
  | OpRestart now => mkDay (restart w now) (dy_gone D) (dy_top D)
  end.

Definition start_day (settings : FileRead Settings) (faults : list bool) (now : Z) : Day :=
  mkDay (open_warmup settings FileNone faults now) (λ _, 0) (λ _, 0).

(** Memory counts everything let go, and so does the file a restart reads. *)
Definition counted (d : Z) (gone : Group → Z) (s : State) : Prop := st_day s = d ∧ ∀ g, gone g ≤ sent_of s g.

Definition day_ok (d : Z) (D : Day) : Prop :=
  counted d (dy_gone D) (wu_state (dy_warmup D)) ∧
  match wu_saved (dy_warmup D) with Some s => counted d (dy_gone D) s | None => ∀ g, dy_gone D g = 0 end ∧
  ∀ g, 0 ≤ dy_gone D g ≤ dy_top D g.

Lemma counted_use d gone s s' : same_use s s' → counted d gone s → counted d gone s'.
Proof. intros [H1 H2] [H3 H4]. split; [congruence|]. intros g. rewrite H2. apply H4. Qed.

(** What an operation does that lets nobody go. *)
Definition quiet (w w' : Warmup) : Prop :=
  same_use (wu_state w) (wu_state w') ∧ (wu_saved w' = wu_saved w ∨ ∃ s, wu_saved w' = Some s ∧ same_use (wu_state w) s).

Lemma quiet_ok d w w' gone top : quiet w w' → day_ok d (mkDay w gone top) → day_ok d (mkDay w' gone top).
Proof.
  intros [Hu Hsv] (H1 & H2 & H3). split_and!; cbn [dy_warmup dy_gone dy_top] in *; [by eapply counted_use| |done].
  destruct Hsv as [-> | (s & -> & Hs)]; [done|by eapply counted_use].
Qed.

Lemma quiet_refl w : quiet w w. Proof. split; [apply same_use_refl|by left]. Qed.

Lemma quiet_trans a b c : quiet a b → quiet b c → quiet a c.
Proof.
  intros [H1 H2] [H3 H4]. split; [by eapply same_use_trans|].
  destruct H4 as [-> |(s & -> & Hs)]; [done|]. right. exists s. split; [done|by eapply same_use_trans].
Qed.

Lemma quiet_set w s : same_use (wu_state w) s → quiet w (set_state w s).
Proof. intros Hs. split; [done|by left]. Qed.

Lemma quiet_save w : quiet w (save w).2.
Proof.
  unfold save. destruct (wu_faults w) as [|[] faults]; (split; [apply same_use_refl|]); [right|by left|right];
    (eexists; split; [done|apply same_use_refl]).
Qed.

Lemma quiet_note w g sender now : quiet w (note_waiting w g sender now).
Proof. split; [apply same_use_refl|by left]. Qed.

Lemma quiet_settle w g now : quiet w (settle_pace w g now).
Proof. split; [apply settle_pace_use|by left]. Qed.

Lemma quiet_orders w today : quiet w (save_if (apply_orders w today).1 (apply_orders w today).2).
Proof.
  unfold apply_orders. cbn [fst snd].
  assert (Hs : quiet w (set_state w (fold_left (apply_order today) (new_orders w) (wu_state w)))) by apply quiet_set, orders_use.
  unfold save_if. case_match; [|done]. eapply quiet_trans; [exact Hs|apply quiet_save].
Qed.

Lemma roll_same w now : st_day (wu_state w) = day_of now → roll w now = w.
Proof. intros Hd. unfold roll. rewrite Hd, Z.ltb_irrefl, Z.eqb_refl. done. Qed.

(** A step at a time of the same day. *)
Lemma blocked_quiet w g sender now : st_day (wu_state w) = day_of now → quiet w (blocked w g sender now).2.
Proof.
  intros Hd. unfold blocked. rewrite roll_same by done. destruct (negb _); [apply quiet_refl|].
  destruct (wait_until _ _ _ _); cbn [snd]; [|apply quiet_settle]. eapply quiet_trans; [apply quiet_settle|apply quiet_note].
Qed.

Lemma judge_quiet w c tally : quiet w (tick_judge w c tally).
Proof.
  unfold tick_judge. case_bool_decide; [|apply quiet_refl]. eapply quiet_trans; [|apply quiet_save]. apply quiet_set.
  eapply same_use_trans; [|apply judge_day_use]. done.
Qed.

Lemma reload_quiet w settings now : st_day (wu_state w) = day_of now → quiet w (reload w settings now).
Proof.
  intros Hd. unfold reload. rewrite roll_same by done.
  assert (H : ∀ s, quiet w (let '(changed, w) := apply_orders (mkWarmup s (wu_state w) (wu_waiting w) (wu_saved w) (wu_faults w)) (day_of now) in
    save_if changed w)).
  { intros s. pose proof (quiet_orders (mkWarmup s (wu_state w) (wu_waiting w) (wu_saved w) (wu_faults w)) (day_of now)) as Hq.
    destruct (apply_orders _ _). exact Hq. }
  destruct settings; [apply H|apply H|apply quiet_refl].
Qed.

Lemma take_pace_wanted cap tat now wanted : 0 ≤ (take_pace cap tat now wanted).1 ≤ Z.max wanted 0.
Proof.
  unfold take_pace. set (limit := saturating_add _ now _). generalize (Z.max (pace_bounded cap tat now) now). intros base.
  assert (H : ∀ n base, ((take_units n (interval_ms cap) limit base).1 ≤ n)%nat).
  { induction n as [|n IH]; intros b; simpl; [lia|]. destruct (b <=? limit); [|simpl; lia].
    specialize (IH (saturating_add u64_max b (interval_ms cap))). destruct (take_units n _ _ _). simpl in *. lia. }
  specialize (H (Z.to_nat wanted) base). destruct (take_units _ _ _ _). simpl in *. lia.
Qed.

(** What a grant does to the counts. *)
Lemma grant_cases w g sender wanted now :
  0 ≤ wanted → st_day (wu_state w) = day_of now →
  match grant w g sender wanted now with
  | (Unlimited, w') => quiet w w'
  | (Limited n _, w') =>
      n = 0 ∧ quiet w w' ∨
      0 < n ∧ st_day (wu_state w') = st_day (wu_state w) ∧ wu_saved w' = Some (wu_state w') ∧
      (∀ g', sent_of (wu_state w') g' = sent_of (wu_state w) g' + if decide (g' = g) then n else 0) ∧
      ∃ cap, gs_cap (group_of (wu_state w) g) = Some cap ∧ sent_of (wu_state w) g + n ≤ cap
  end.
Proof.
  intros Hw Hd. unfold grant. rewrite roll_same by done. destruct (negb (se_enabled _)); [apply quiet_refl|].
  pose proof (quiet_settle w g now) as Hq. pose proof (settle_pace_use w g now) as Hu.
  assert (Hcap : gs_cap (group_of (wu_state (settle_pace w g now)) g) = gs_cap (group_of (wu_state w) g)).
  { unfold settle_pace. cbn [wu_state set_state]. rewrite group_of_put, decide_True by done. by destruct (gs_cap (group_of (wu_state w) g)) eqn:E. }
  generalize dependent (settle_pace w g now). intros w1 Hq Hu Hcap. cbv zeta.
  destruct (gs_cap (group_of (wu_state w1) g)) as [cap|] eqn:Ec; [|exact Hq].
  set (before := group_of (wu_state w1) g) in *. set (sh := share w1 g sender cap now).
  pose proof (take_pace_wanted cap (gs_tat_ms before) (saturating_mul u64_max now 1000) (Z.min (Z.min wanted u32_max) (room before cap sh sender))) as Ht.
  destruct (take_pace _ _ _ _) as [taken tat]. cbn [fst] in Ht.
  assert (Hbefore : sent_of (wu_state w) g = gs_sent before) by (destruct Hu as [_ Hu]; by rewrite <-Hu).
  destruct (0 <? taken) eqn:E0; cbn iota.
  - apply Z.ltb_lt in E0.
    assert (Hroom : gs_sent before + taken ≤ cap) by (unfold room, saturating_sub in Ht; lia).
    unfold save. cbn [wu_faults set_state].
    assert (Hfail : quiet w (set_state (mkWarmup (wu_settings w1) (put_group (wu_state w1) g (use_units before sender taken tat)) (wu_waiting w1) (wu_saved w1) (tail (wu_faults w1)))
      (put_group (put_group (wu_state w1) g (use_units before sender taken tat)) g before))).
    { eapply quiet_trans; [exact Hq|]. split; [|by left]. split; [done|]. intros g'. unfold sent_of. cbn [wu_state set_state].
      rewrite !group_of_put. by destruct (decide (g' = g)) as [->|]. }
    assert (Hok : ∀ w', wu_state w' = put_group (wu_state w1) g (use_units before sender taken tat) → wu_saved w' = Some (wu_state w') →
      0 < taken ∧ st_day (wu_state w') = st_day (wu_state w) ∧ wu_saved w' = Some (wu_state w') ∧
      (∀ g', sent_of (wu_state w') g' = sent_of (wu_state w) g' + if decide (g' = g) then taken else 0) ∧
      ∃ cap, gs_cap (group_of (wu_state w) g) = Some cap ∧ sent_of (wu_state w) g + taken ≤ cap).
    { intros w' Hw' Hsv. split_and!; [done|rewrite Hw'; apply Hu|done| |exists cap; split; [congruence|lia]].
      intros g'. rewrite Hw'. unfold sent_of at 1. rewrite group_of_put. destruct Hu as [_ Hu].
      destruct (decide (g' = g)) as [->|]; [rewrite Hbefore; done|]. rewrite Z.add_0_r. apply Hu. }
    destruct (wu_faults w1) as [|[] faults]; cbn [negb]; [right|left; by split|right];
      (destruct (taken <? wanted); apply Hok; done).
  - left. assert (taken = 0) as -> by (apply Z.ltb_ge in E0; lia). split; [done|]. cbn [negb].
    destruct (0 <? wanted); [eapply quiet_trans; [exact Hq|apply quiet_note]|exact Hq].
Qed.

Lemma give_back_counts w g sender count now :
  0 ≤ count → 0 ≤ sent_of (wu_state w) g →
  let r := returned w g count now in
  0 ≤ r ≤ sent_of (wu_state w) g ∧ st_day (wu_state (give_back w g sender count now)) = st_day (wu_state w) ∧
  (∀ g', sent_of (wu_state (give_back w g sender count now)) g' = sent_of (wu_state w) g' - if decide (g' = g) then r else 0) ∧
  (wu_saved (give_back w g sender count now) = wu_saved w ∨ wu_saved (give_back w g sender count now) = Some (wu_state (give_back w g sender count now))).
Proof.
  intros Hc Hs. cbv zeta. unfold returned, give_back. unfold sent_of in Hs |- *. assert (0 ≤ u32_max) by done.
  destruct ((count =? 0) || _); [split_and!; [lia|lia|done| |by left]; intros g'; destruct (decide (g' = g)); lia|].
  destruct (gs_cap (group_of (wu_state w) g)) as [cap|].
  - split; [lia|]. set (n := Z.min (Z.min count u32_max) (gs_sent (group_of (wu_state w) g))).
    unfold save. cbn [wu_faults set_state wu_state].
    destruct (wu_faults w) as [|[] faults]; cbn [snd wu_state wu_saved]; (split_and!; [done| |auto]);
      intros g'; rewrite group_of_put; destruct (decide (g' = g)) as [->|]; cbn [set_use gs_sent]; lia.
  - split_and!; [lia|lia|done| |by left]. intros g'. cbn [wu_state set_state]. rewrite group_of_put. destruct (decide (g' = g)) as [->|]; lia.
Qed.

Lemma restart_ok d now w gone top : day_of now = d → day_ok d (mkDay w gone top) → day_ok d (mkDay (restart w now) gone top).
Proof.
  intros Hd (H1 & H2 & H3). cbn [dy_warmup dy_gone dy_top] in *. unfold restart, open_warmup. rewrite Hd.
  set (st := match match wu_saved w with Some s => FileValue s | None => FileNone end with FileNone => new_state d | FileValue st => st | FileBad => distrusted d end).
  set (sv := match match wu_saved w with Some s => FileValue s | None => FileNone end with FileValue st => Some st | _ => None end).
  assert (Hst : counted d gone st).
  { unfold st. destruct (wu_saved w) as [s|]; [exact H2|]. split; [done|]. intros g. rewrite H2. by destruct g. }
  pose proof (quiet_orders (mkWarmup (wu_settings w) st ∅ sv (wu_faults w)) d) as Hq.
  destruct (apply_orders _ d) as [changed w']. cbn [fst snd] in Hq.
  apply (quiet_ok d _ _ gone top Hq). split_and!; cbn [dy_warmup dy_gone dy_top wu_state wu_saved]; [done| |done].
  unfold sv. destruct (wu_saved w); done.
Qed.

Lemma counted_weaker d gone gone' s : (∀ g, gone' g ≤ gone g) → counted d gone s → counted d gone' s.
Proof. intros Hle [H1 H2]. split; [done|]. intros g. specialize (Hle g). specialize (H2 g). lia. Qed.

Lemma step_grant_ok d w gone top g sender wanted now :
  0 ≤ wanted → day_of now = d → day_ok d (mkDay w gone top) → day_ok d (step_day (mkDay w gone top) (OpGrant g sender wanted now)).
Proof.
  intros Hok Hd HD. pose proof HD as ([Hday Hc] & H2 & H3). cbn [dy_warmup dy_gone dy_top] in *.
  assert (Hday' : st_day (wu_state w) = day_of now) by congruence.
  pose proof (grant_cases w g sender wanted now Hok Hday') as Hg. cbn [step_day dy_warmup dy_gone dy_top]. rewrite roll_same by done.
  destruct (grant w g sender wanted now) as [[|n until] w']; [by apply (quiet_ok d w)|].
  destruct Hg as [[-> Hq]|(Hn & D1 & D2 & D3 & cap & Hcap & Hle)]; [by apply (quiet_ok d w)|].
  rewrite (proj2 (Z.ltb_lt 0 n) Hn), Hcap. cbn [from_option]. unfold id.
  assert (Hcnt : counted d (λ g', gone g' + (if decide (g' = g) then n else 0)) (wu_state w')).
  { split; [congruence|]. intros g'. rewrite D3. specialize (Hc g'). destruct (decide (g' = g)); lia. }
  split_and!; cbn [dy_warmup dy_gone dy_top]; [done|by rewrite D2|].
  intros g'. specialize (H3 g'). specialize (Hc g'). destruct (decide (g' = g)) as [->|]; lia.
Qed.

Lemma step_day_ok d D o : op_ok o → day_of (op_now o) = d → day_ok d D → day_ok d (step_day D o).
Proof.
  destruct D as [w gone top]. intros Hok Hd HD. pose proof HD as ([Hday Hc] & H2 & H3). cbn [dy_warmup dy_gone dy_top] in *.
  assert (Hday' : st_day (wu_state w) = day_of (op_now o)) by congruence.
  destruct o as [g sender wanted now|g sender count now|g sender now|now|c tally now|settings now|now]; cbn [op_now op_ok] in *.
  - by apply step_grant_ok.
  - cbn [step_day dy_warmup dy_gone dy_top].
    assert (Hs : 0 ≤ sent_of (wu_state w) g) by (specialize (Hc g); specialize (H3 g); lia).
    destruct (give_back_counts w g sender count now Hok Hs) as (Hr & D1 & D2 & D3). set (r := returned w g count now) in *.
    set (gone' := λ g', _).
    assert (Hle : ∀ g', 0 ≤ gone' g' ≤ gone g') by (intros g'; unfold gone'; specialize (H3 g'); pose proof (H3 : 0 ≤ _ ≤ _);
      destruct (decide (g' = g)) as [->|]; lia).
    assert (Hcnt : counted d gone' (wu_state (give_back w g sender count now))).
    { split; [congruence|]. intros g'. rewrite D2. unfold gone'. specialize (Hc g'). destruct (decide (g' = g)) as [->|]; lia. }
    split_and!; cbn [dy_warmup dy_gone dy_top]; [done| |].
    + destruct D3 as [-> | ->]; [|done]. destruct (wu_saved w); [by eapply counted_weaker; [intros g'; apply Hle|]|].
      intros g'. specialize (Hle g'). specialize (H2 g'). lia.
    + intros g'. specialize (Hle g'). specialize (H3 g'). lia.
  - by apply (quiet_ok d w), HD; apply blocked_quiet.
  - unfold step_day, tick_close. cbn [dy_warmup dy_gone dy_top snd]. by rewrite roll_same.
  - by apply (quiet_ok d w), HD; apply judge_quiet.
  - by apply (quiet_ok d w), HD; apply reload_quiet.
  - by apply restart_ok.
Qed.

Lemma start_day_ok settings faults now : day_ok (day_of now) (start_day settings faults now).
Proof.
  unfold start_day, open_warmup.
  set (s := match settings with FileNone => default_settings | FileValue s => s | FileBad => distrusted_settings end).
  pose proof (quiet_orders (mkWarmup s (new_state (day_of now)) ∅ None faults) (day_of now)) as Hq.
  destruct (apply_orders _ (day_of now)) as [changed w']. cbn [fst snd] in Hq.
  apply (quiet_ok _ _ _ (λ _, 0) (λ _, 0) Hq). split_and!; cbn [dy_warmup dy_gone dy_top wu_state wu_saved]; try done.
  split; [done|]. intros g. by destruct g.
Qed.


(** *** Asking and taking *)

Lemma take_pace_pos cap tat now wanted :
  0 ≤ now ≤ u64_max → 0 < (take_pace cap tat now wanted).1 ↔ 0 < wanted ∧ next_ms cap tat now ≤ now.
Proof.
  intros Hn. destruct (tolerance_bound cap) as [Ht _]. unfold take_pace, next_ms.
  assert (Hb : pace_bounded cap tat now ≤ u64_max) by (unfold pace_bounded, saturating_add; lia).
  generalize dependent (pace_bounded cap tat now). intros b Hb. unfold saturating_add, saturating_sub.
  destruct (Z.to_nat wanted) as [|n] eqn:E; simpl; [split; lia|].
  destruct (Z.leb_spec (Z.max b now) (Z.min (now + tolerance_ms cap) u64_max)) as [Hle|Hle].
  - destruct (take_units n _ _ _). simpl. split; lia.
  - simpl. split; lia.
Qed.

Lemma wait_until_none s sender share now cap :
  gs_cap s = Some cap →
  wait_until s sender (Some share) now = None ↔
    0 < room s cap share sender ∧ next_ms cap (gs_tat_ms s) (saturating_mul u64_max now 1000) ≤ saturating_mul u64_max now 1000.
Proof.
  intros Hc. unfold wait_until, room, saturating_sub. rewrite Hc. change (default cap (Some share)) with share.
  generalize (default 0 (gs_senders s !! sender_key s sender)). intros used.
  destruct (Z.leb_spec cap (gs_sent s)); [split; [done|lia]|].
  destruct (Z.leb_spec share used); [split; [done|lia]|]. cbn [orb].
  destruct (Z.ltb_spec (saturating_mul u64_max now 1000) (next_ms cap (gs_tat_ms s) (saturating_mul u64_max now 1000))); split; (done || lia).
Qed.

Lemma save_calm w : wu_faults w = [] → wu_faults (save w).2 = [] ∧ (save w).1 = true.
Proof. intros Hf. unfold save. by rewrite Hf. Qed.

Lemma roll_calm w now : wu_faults w = [] → wu_faults (roll w now) = [].
Proof. intros Hf. unfold roll. repeat case_match; try done; by apply save_calm. Qed.


(** ** Examples *)

Definition example_settings : FileRead Settings := FileValue (mkSettings true false []).

Definition example_ops : list Op :=
  [OpGrant Gmail (lit "account:alice") 10 3600; OpGrant Gmail (lit "account:bob") 2 3700; OpGiveBack Gmail (lit "account:alice") 1 3800;
   OpRestart 4000; OpGrant Gmail (lit "account:alice") 40 40000].


