(* ===== verification/Scheduler.v ===== *)
(** Running outbound conversations side by side: the caps
    (src/src/queue/limits.rs), the claims on recipients and slots
    (src/src/queue/worker/claims.rs), the waiting jobs
    (src/src/queue/worker/waiting.rs), the scheduler
    (src/src/queue/worker/scheduler/mod.rs) and what it asks of the warm-up
    (src/src/queue/worker/warmup/mod.rs).

    A conversation ends with a result that is an argument of [complete]; one
    that panics ends with the result its guard gives. One moment stands for
    the clock reads of an operation. *)

From stdpp Require Import gmap relations.
From S2P Require Import Prelude RustStd Utf8 Address SmtpSession SieveMatch LocalDelivery Bounce QueueReply Dane OutboundClient OutboundSpool QueueWorker QueueTheory Warmup.

Local Open Scope Z_scope.

(** [is_empty] of a vector. *)
Definition none_left {A} (l : list A) : bool := match l with [] => true | _ => false end.

(** ** The caps *)

Definition DEFAULT_CONCURRENCY : Z := 8.
Definition DEFAULT_PER_DOMAIN_CONCURRENCY : Z := 2.

Record Limits := mkLimits { li_total : Z; li_per_domain : Z }.

Definition per_sender (l : Limits) : Z := Z.max (li_total l * 3 / 4) 1.

Definition new_limits (total per_domain : Z) : Limits :=
  mkLimits (if total =? 0 then DEFAULT_CONCURRENCY else total)
    (if per_domain =? 0 then DEFAULT_PER_DOMAIN_CONCURRENCY else per_domain).

(** ** The claims *)

Record Claims := mkClaims {
  cs_recipients : gmap Z (gset (list Z));
  cs_domains : gmap (list Z) Z;
  cs_senders : gmap (list Z) Z;
  cs_running : Z
}.

Definition no_claims : Claims := mkClaims ∅ ∅ ∅ 0.

Inductive Full := FullTotal | FullDomain | FullSender.

Record Claim := mkClaim { cm_id : Z; cm_domain : list Z; cm_sender : list Z; cm_recipients : list (list Z) }.

Definition count_of (m : gmap (list Z) Z) (key : list Z) : Z := default 0 (m !! key).
Definition count_in (m : gmap (list Z) Z) (key : list Z) : gmap (list Z) Z := <[key := count_of m key + 1]> m.
Definition count_out (m : gmap (list Z) Z) (key : list Z) : gmap (list Z) Z :=
  match m !! key with
  | Some n => let n := saturating_sub n 1 in if n =? 0 then delete key m else <[key := n]> m
  | None => m
  end.

Definition claim_holds (c : Claims) (id : Z) (r : list Z) : bool := bool_decide (r ∈ default ∅ (cs_recipients c !! id)).
Definition holds_any (c : Claims) (id : Z) : bool := bool_decide (is_Some (cs_recipients c !! id)).
Definition has_room (c : Claims) (l : Limits) : bool := cs_running c <? li_total l.

(** [filter(|r| held.insert(r))]: the first of equal recipients. *)
Fixpoint claim_free (held : gset (list Z)) (recipients : list (list Z)) : list (list Z) * gset (list Z) :=
  match recipients with
  | [] => ([], held)
  | r :: recipients =>
      if bool_decide (r ∈ held) then claim_free held recipients
      else let '(free, held) := claim_free ({[r]} ∪ held) recipients in (r :: free, held)
  end.

Definition set_held (m : gmap Z (gset (list Z))) (id : Z) (held : gset (list Z)) : gmap Z (gset (list Z)) :=
  if bool_decide (held = ∅) then delete id m else <[id := held]> m.

Definition take_claim (l : Limits) (id : Z) (domain sender : list Z) (recipients : list (list Z)) (c : Claims) : result Full (Claim * Claims) :=
  if li_total l <=? cs_running c then Err FullTotal
  else if li_per_domain l <=? count_of (cs_domains c) domain then Err FullDomain
  else if per_sender l <=? count_of (cs_senders c) sender then Err FullSender
  else
    let '(free, held) := claim_free (default ∅ (cs_recipients c !! id)) recipients in
    Ok (mkClaim id domain sender free,
        mkClaims (set_held (cs_recipients c) id held) (count_in (cs_domains c) domain) (count_in (cs_senders c) sender) (cs_running c + 1)).

(** [Drop for Claim]. *)
Definition release_claim (cm : Claim) (c : Claims) : Claims :=
  mkClaims
    (match cs_recipients c !! cm_id cm with
     | Some held => set_held (cs_recipients c) (cm_id cm) (held ∖ list_to_set (cm_recipients cm))
     | None => cs_recipients c
     end)
    (count_out (cs_domains c) (cm_domain cm)) (count_out (cs_senders c) (cm_sender cm)) (saturating_sub (cs_running c) 1).

(** ** The waiting jobs *)

(** [Sender::of]. *)
Definition sender_of (e : Envelope) : list Z :=
  match ev_account e with
  | Some account => if is_empty account then lit "system" else lit "account:" ++ account
  | None => lit "system"
  end.

Record Job := mkJob { jb_id : Z; jb_domain : Destination; jb_sender : list Z; jb_recipients : list (list Z); jb_group : option Group }.

Record SenderJobs := mkSenderJobs { sj_by_domain : gmap Destination (list Job); sj_order : list Destination }.

Definition no_jobs : SenderJobs := mkSenderJobs ∅ [].

Definition push_job (s : SenderJobs) (job : Job) (front : bool) : SenderJobs :=
  let waiting := default [] (sj_by_domain s !! jb_domain job) in
  let order :=
    match waiting with
    | [] => if front then jb_domain job :: sj_order s else sj_order s ++ [jb_domain job]
    | _ => sj_order s
    end in
  mkSenderJobs (<[jb_domain job := if front then job :: waiting else waiting ++ [job]]> (sj_by_domain s)) order.

Record Waiting := mkWaiting { wt_senders : gmap (list Z) SenderJobs; wt_turn : list (list Z) }.

Definition no_waiting : Waiting := mkWaiting ∅ [].

Definition push (wt : Waiting) (job : Job) (front : bool) : Waiting :=
  let turn :=
    match wt_senders wt !! jb_sender job with
    | Some _ => wt_turn wt
    | None => if front then jb_sender job :: wt_turn wt else wt_turn wt ++ [jb_sender job]
    end in
  mkWaiting (<[jb_sender job := push_job (default no_jobs (wt_senders wt !! jb_sender job)) job front]> (wt_senders wt)) turn.

Definition next_sender (wt : Waiting) : option (list Z * SenderJobs * Waiting) :=
  match wt_turn wt with
  | [] => None
  | sender :: turn => Some (sender, default no_jobs (wt_senders wt !! sender), mkWaiting (delete sender (wt_senders wt)) turn)
  end.

Definition put_back (wt : Waiting) (sender : list Z) (jobs : SenderJobs) (last : bool) : Waiting :=
  match sj_order jobs with
  | [] => wt
  | _ => mkWaiting (<[sender := jobs]> (wt_senders wt)) (if last then wt_turn wt ++ [sender] else sender :: wt_turn wt)
  end.

(** ** The schedule *)

Record Running := mkRunning { ru_job : Job; ru_entry : SpoolEntry; ru_recipients : list (list Z); ru_claim : Claim }.

Record Schedule := mkSched {
  sd_waiting : Waiting;
  sd_rounds : gmap Z (Z * bool);
  sd_running : list Running;
  sd_delivered : Z;
  sd_error : option IoError;
  sd_examined : Z
}.

Definition no_schedule : Schedule := mkSched no_waiting ∅ [] 0 None 0.

Definition set_wait (s : Schedule) (wt : Waiting) : Schedule :=
  mkSched wt (sd_rounds s) (sd_running s) (sd_delivered s) (sd_error s) (sd_examined s).
Definition set_rounds (s : Schedule) (m : gmap Z (Z * bool)) : Schedule :=
  mkSched (sd_waiting s) m (sd_running s) (sd_delivered s) (sd_error s) (sd_examined s).
Definition set_running (s : Schedule) (l : list Running) : Schedule :=
  mkSched (sd_waiting s) (sd_rounds s) l (sd_delivered s) (sd_error s) (sd_examined s).
Definition examine (s : Schedule) : Schedule :=
  mkSched (sd_waiting s) (sd_rounds s) (sd_running s) (sd_delivered s) (sd_error s) (sd_examined s + 1).
Definition count_delivered (s : Schedule) : Schedule :=
  mkSched (sd_waiting s) (sd_rounds s) (sd_running s) (sd_delivered s + 1) (sd_error s) (sd_examined s).

(** [error.get_or_insert]. *)
Definition note_error (s : Schedule) (e : IoError) : Schedule :=
  mkSched (sd_waiting s) (sd_rounds s) (sd_running s) (sd_delivered s)
    (match sd_error s with Some e => Some e | None => Some e end) (sd_examined s).

Inductive Started := StartWaiting (job : Job) (full : Full) | StartRunning (r : Running) | StartDropped (id : Z).

Section scheduler.
Context `{UC : Unicode} `{ID : Idna} `{CE : Certificates} `{UU : Uuids} {K L : Type} `{RS : ReportSink K} `{EL : EvidenceLog L}.
Context (w : Worker) (limits : Limits).

(** What the schedulers of a worker share. *)
Record Server := mkServer { sv_queue : Queue K L; sv_warmup : option Warmup; sv_claims : Claims }.

Definition with_queue (s : Server) (q : Queue K L) : Server := mkServer q (sv_warmup s) (sv_claims s).
Definition with_warmup (s : Server) (u : Warmup) : Server := mkServer (sv_queue s) (Some u) (sv_claims s).
Definition with_claims (s : Server) (c : Claims) : Server := mkServer (sv_queue s) (sv_warmup s) c.

(** *** What the warm-up says *)

(** When the cap of [g] opens to [sender], while it is closed. *)
Definition group_closed (s : Server) (g : Group) (sender : list Z) (now : Z) : option Z * Server :=
  match sv_warmup s with
  | Some u => let '(until, u) := blocked u g sender now in (until, with_warmup s u)
  | None => (None, s)
  end.

Definition cap_closed (s : Server) (state : RecipientState) (sender : list Z) (now : Z) : option Z * Server :=
  match rs_warmup state ≫= parse_group with
  | Some g => group_closed s g sender now
  | None => (None, s)
  end.

Fixpoint due_filter (s : Server) (e : Envelope) (sender : list Z) (now : Z) (l : list (list Z)) : list (list Z) * Server :=
  match l with
  | [] => ([], s)
  | r :: l =>
      let state := recipient_state e r in
      let '(keep, s) :=
        match rs_warmup state with
        | Some _ => let '(until, s) := cap_closed s state sender now in (negb (bool_decide (is_Some until)), s)
        | None => (existsb (str_eqb r) (due e now), s)
        end in
      let '(rest, s) := due_filter s e sender now l in
      (if keep then r :: rest else rest, s)
  end.

Definition due_now (s : Server) (e : Envelope) (now : Z) : list (list Z) * Server := due_filter s e (sender_of e) now (pending e).

Fixpoint any_open (s : Server) (e : Envelope) (sender : list Z) (now : Z) (l : list (list Z)) : bool * Server :=
  match l with
  | [] => (false, s)
  | r :: l =>
      let state := recipient_state e r in
      match rs_warmup state with
      | Some _ => let '(until, s) := cap_closed s state sender now in if bool_decide (is_Some until) then any_open s e sender now l else (true, s)
      | None => any_open s e sender now l
      end
  end.

Definition wakes (s : Server) (e : Envelope) (now : Z) : bool * Server :=
  if ev_next_attempt e <=? now then (true, s) else any_open s e (sender_of e) now (pending e).

Definition waiting_group (e : Envelope) (recipients : list (list Z)) : option Group :=
  let groups := map (λ r, rs_warmup (recipient_state e r) ≫= parse_group) recipients in
  match groups with
  | Some first :: rest => if forallb (λ g, bool_decide (g = Some first)) rest then Some first else None
  | _ => None
  end.

Definition job_capped (s : Server) (g : option Group) (sender : list Z) (now : Z) : bool * Server :=
  match g with
  | Some g => let '(until, s) := group_closed s g sender now in (bool_decide (is_Some until), s)
  | None => (false, s)
  end.

(** *** Settling *)

(** The recipients of an entry in conversation. *)
Definition claimed_of (s : Server) (id : Z) : list (list Z) := elements (default ∅ (cs_recipients (sv_claims s) !! id)).

Definition run_finish (t : Tick) (s : Server) (id : Z) : result IoError unit * Server :=
  let '(r, q) := finish w t id (claimed_of s id) (sv_queue s) in (r, with_queue s q).

Definition settle_entry (t : Tick) (id : Z) (delivered : bool) (st : Server * Schedule) : Server * Schedule :=
  let '(s, sd) := st in
  let '(r, s) := run_finish t s id in
  let sd := match r with Ok _ | Err NotFound => sd | Err e => note_error sd e end in
  (s, if delivered then count_delivered sd else sd).

Definition job_ended (t : Tick) (id : Z) (delivered : bool) (st : Server * Schedule) : Server * Schedule :=
  let '(s, sd) := st in
  match sd_rounds sd !! id with
  | None => (s, sd)
  | Some (n, any) =>
      let n := saturating_sub n 1 in
      let any := any || delivered in
      if n =? 0 then settle_entry t id any (s, set_rounds sd (delete id (sd_rounds sd)))
      else (s, set_rounds sd (<[id := (n, any)]> (sd_rounds sd)))
  end.

(** *** Starting *)

Definition start (t : Tick) (s : Server) (job : Job) : Started * Server :=
  let '(capped, s) := job_capped s (jb_group job) (jb_sender job) (tk_now t) in
  if capped then (StartDropped (jb_id job), s)
  else match take_claim limits (jb_id job) (jb_domain job).2 (jb_sender job) (jb_recipients job) (sv_claims s) with
       | Err full => (StartWaiting job full, s)
       | Ok (claim, claims) =>
           let dropped s := (StartDropped (jb_id job), with_claims s (release_claim claim (sv_claims s))) in
           let s := with_claims s claims in
           let '(r, q) := on_disk (load (jb_id job)) (sv_queue s) in
           let s := with_queue s q in
           match r with
           | Err _ => dropped s
           | Ok entry =>
               if bool_decide (is_Some (ev_held (se_envelope entry))) then dropped s
               else
                 let recipients :=
                   List.filter (λ r, bool_decide (rs_status (recipient_state (se_envelope entry) r) = Pending)) (cm_recipients claim) in
                 if none_left recipients then dropped s else (StartRunning (mkRunning job entry recipients claim), s)
           end
       end.

(** Jobs of a destination put on hold end without a conversation. *)
Fixpoint end_jobs (t : Tick) (jobs : list Job) (st : Server * Schedule) : Server * Schedule :=
  match jobs with
  | [] => st
  | job :: jobs => end_jobs t jobs (job_ended t (jb_id job) false (st.1, examine st.2))
  end.

(** The jobs of one domain: those left, and whether one started ([Some]) or
    none can for lack of a slot of the domain ([None]). *)
Fixpoint start_domain (t : Tick) (jobs : list Job) (st : Server * Schedule) : list Job * option bool * (Server * Schedule) :=
  match jobs with
  | [] => ([], None, st)
  | job :: jobs =>
      let '(s, sd) := st in
      let sd := examine sd in
      match start t s job with
      | (StartRunning r, s) => (jobs, Some true, (s, set_running sd (sd_running sd ++ [r])))
      | (StartDropped id, s) => start_domain t jobs (job_ended t id false (s, sd))
      | (StartWaiting job FullDomain, s) => (job :: jobs, None, (s, sd))
      | (StartWaiting job _, s) => (job :: jobs, Some false, (s, sd))
      end
  end.

(** The domains of one sender in turn; [at_cap] are those looked at. *)
Fixpoint start_sender (t : Tick) (holds : Holds) (order : list Destination) (by_domain : gmap Destination (list Job)) (at_cap : list Destination)
    (st : Server * Schedule) : bool * SenderJobs * (Server * Schedule) :=
  match order with
  | [] => (false, mkSenderJobs by_domain (rev at_cap), st)
  | domain :: order =>
      let waiting := default [] (by_domain !! domain) in
      let by_domain := delete domain by_domain in
      if bool_decide (is_Some (held holds domain (tk_now t))) then start_sender t holds order by_domain at_cap (end_jobs t waiting st)
      else
        let '(waiting, outcome, st) := start_domain t waiting st in
        let by_domain := if none_left waiting then by_domain else <[domain := waiting]> by_domain in
        match outcome with
        | Some true => (true, mkSenderJobs by_domain (rev at_cap ++ order ++ if none_left waiting then [] else [domain]), st)
        | Some false => (false, mkSenderJobs by_domain (rev at_cap ++ (if none_left waiting then [] else [domain]) ++ order), st)
        | None => start_sender t holds order by_domain (if none_left waiting then at_cap else domain :: at_cap) st
        end
  end.

Definition start_next (t : Tick) (holds : Holds) (jobs : SenderJobs) (st : Server * Schedule) : bool * SenderJobs * (Server * Schedule) :=
  start_sender t holds (sj_order jobs) (sj_by_domain jobs) [] st.

(** The loop of [fill]; senders that can start nothing are set aside. *)
Fixpoint fill_turns (fuel : nat) (t : Tick) (holds : Holds) (aside : list (list Z * SenderJobs)) (st : Server * Schedule) :
    option (list (list Z * SenderJobs) * (Server * Schedule)) :=
  let '(s, sd) := st in
  if negb (has_room (sv_claims s) limits) then Some (aside, st)
  else match next_sender (sd_waiting sd) with
       | None => Some (aside, st)
       | Some (sender, jobs, wt) =>
           match fuel with
           | O => None
           | S fuel =>
               let '(started, jobs, (s, sd)) := start_next t holds jobs (s, set_wait sd wt) in
               if started then fill_turns fuel t holds aside (s, set_wait sd (put_back (sd_waiting sd) sender jobs true))
               else fill_turns fuel t holds ((sender, jobs) :: aside) (s, sd)
           end
       end.

Definition put_aside (wt : Waiting) (p : list Z * SenderJobs) : Waiting := put_back wt p.1 p.2 false.

(** A turn starts a conversation or sets a sender aside. *)
Definition fill_fuel (st : Server * Schedule) : nat :=
  Z.to_nat (li_total limits - cs_running (sv_claims st.1)) + length (wt_turn (sd_waiting st.2)).

Definition fill (t : Tick) (st : Server * Schedule) : option (Server * Schedule) :=
  match wt_turn (sd_waiting st.2) with
  | [] => Some st
  | _ =>
      '(aside, (s, sd)) ← fill_turns (fill_fuel st) t (q_holds (sv_queue st.1)) [] st;
      Some (s, set_wait sd (fold_left put_aside aside (sd_waiting sd)))
  end.

(** *** Ending *)

(** [complete] with what the conversation decided. *)
Definition complete (t : Tick) (r : Running) (c : Conversation) (st : Server * Schedule) : Server * Schedule :=
  let '(s, sd) := st in
  let job := ru_job r in
  let '(result, q) := record w t (jb_id job) (se_envelope (ru_entry r)) c (sv_queue s) in
  let s := with_queue s q in
  let sd := match result with Ok _ | Err NotFound => sd | Err e => note_error sd e end in
  let s := with_claims s (release_claim (ru_claim r) (sv_claims s)) in
  let again := retry_now c in
  let sd :=
    match again, sd_rounds sd !! jb_id job with
    | _ :: _, Some (n, any) =>
        set_wait (set_rounds sd (<[jb_id job := (n + 1, any)]> (sd_rounds sd)))
          (push (sd_waiting sd) (mkJob (jb_id job) (jb_domain job) (jb_sender job) again None) true)
    | _, _ => sd
    end in
  job_ended t (jb_id job) (delivered c) (s, sd).

(** [swap_remove] of the conversation that ended. *)
Definition swap_remove {A} (l : list A) (i : nat) : list A :=
  match last l with
  | Some x => if Nat.eqb (S i) (length l) then removelast l else removelast (<[i := x]> l)
  | None => l
  end.

(** The conversation at [i] ends. *)
Definition conversation_done (t : Tick) (i : nat) (c : Conversation) (st : Server * Schedule) : Server * Schedule :=
  match sd_running st.2 !! i with
  | Some r => complete t r c (st.1, set_running st.2 (swap_remove (sd_running st.2) i))
  | None => st
  end.

(** *** Scanning the spool *)

Definition overdue (s : Server) (id : Z) (e : Envelope) (now : Z) : bool :=
  bool_decide (ev_held e = None) &&
  existsb (λ r, negb (claim_holds (sv_claims s) id r) && (wk_max_age_secs w <=? window_used id e r now)) (pending e).

(** The recipients of one destination are one job. *)
Fixpoint add_destination (d : Destination) (r : list Z) (groups : list (Destination * list (list Z))) : list (Destination * list (list Z)) :=
  match groups with
  | [] => [(d, [r])]
  | (d', rs) :: groups => if bool_decide (d' = d) then (d', rs ++ [r]) :: groups else (d', rs) :: add_destination d r groups
  end.

Definition sort_due (holds : Holds) (now : Z) (acc : list (Destination * list (list Z)) * list (list Z)) (r : list Z) :
    list (Destination * list (list Z)) * list (list Z) :=
  let '(groups, unparseable) := acc in
  match parse_address r with
  | Err _ => (groups, unparseable ++ [r])
  | Ok _ =>
      let d := of_recipient r in
      if bool_decide (is_Some (held holds d now)) then acc else (add_destination d r groups, unparseable)
  end.

Definition queue_entry (t : Tick) (holds : Holds) (id : Z) (e : Envelope) (st : Server * Schedule) : result IoError unit * (Server * Schedule) :=
  let '(s, sd) := st in
  let now := tk_now t in
  let '(due, s) := due_now s e now in
  let due := List.filter (λ r, negb (claim_holds (sv_claims s) id r)) due in
  if none_left due && holds_any (sv_claims s) id then (Ok tt, (s, sd))
  else
    let count := length due in
    match skip_suppressed w id e due (sv_queue s) with
    | (Err error, q) => (Err error, (with_queue s q, sd))
    | (Ok due, q) =>
        let s := with_queue s q in
        let changed := negb (Nat.eqb (length due) count) in
        let '(groups, unparseable) := fold_left (sort_due holds now) due ([], []) in
        let '(refused, s) :=
          if none_left unparseable then (Ok tt, s)
          else let '(r, q) := refuse_unparseable w t id unparseable (sv_queue s) in (r, with_queue s q) in
        match refused with
        | Err error => (Err error, (s, sd))
        | Ok _ =>
            let changed := changed || negb (none_left unparseable) in
            if none_left groups && negb changed && Nat.ltb 0 count then (Ok tt, (s, sd))
            else if none_left groups then (Ok tt, settle_entry t id false (s, sd))
            else
              let sd := set_rounds sd (<[id := (Z.of_nat (length groups), false)]> (sd_rounds sd)) in
              let add wt (g : Destination * list (list Z)) := push wt (mkJob id g.1 (sender_of e) g.2 (waiting_group e g.2)) false in
              (Ok tt, (s, set_wait sd (fold_left add groups (sd_waiting sd))))
        end
    end.

(** What the first pass over the entries finds. *)
Record Found := mkFound { fo_holds : Holds; fo_due : list (Z * Envelope); fo_overdue : list Z }.

Fixpoint read_entries (now : Z) (rounds : gmap Z (Z * bool)) (ids : list Z) (found : Found) (s : Server) : Found * Server :=
  match ids with
  | [] => (found, s)
  | id :: ids =>
      let '(r, q) := on_disk (load_envelope id) (sv_queue s) in
      let s := with_queue s q in
      match r with
      | Err _ => read_entries now rounds ids found s
      | Ok e =>
          let holds := add_envelope (fo_holds found) e in
          let in_hand := bool_decide (is_Some (rounds !! id)) in
          let late := if in_hand && overdue s id e now then fo_overdue found ++ [id] else fo_overdue found in
          let '(wake, s) := if negb in_hand && bool_decide (ev_held e = None) then wakes s e now else (false, s) in
          read_entries now rounds ids (mkFound holds (if wake then fo_due found ++ [(id, e)] else fo_due found) late) s
      end
  end.

Fixpoint finish_overdue (t : Tick) (ids : list Z) (st : Server * Schedule) : Server * Schedule :=
  match ids with
  | [] => st
  | id :: ids =>
      let '(s, sd) := st in
      let '(r, s) := run_finish t s id in
      finish_overdue t ids (s, match r with Ok _ | Err NotFound => sd | Err e => note_error sd e end)
  end.

Fixpoint queue_due (t : Tick) (holds : Holds) (l : list (Z * Envelope)) (st : Server * Schedule) : Server * Schedule :=
  match l with
  | [] => st
  | (id, e) :: l =>
      let '(r, (s, sd)) := queue_entry t holds id e st in
      queue_due t holds l (s, match r with Ok _ => sd | Err error => note_error sd error end)
  end.

Definition scan (t : Tick) (st : Server * Schedule) : result IoError unit * (Server * Schedule) :=
  let '(s, sd) := st in
  let s := with_queue s (write_waiting_outcomes w (tk_now t) (sv_queue s)).2 in
  match on_disk list_entries (sv_queue s) with
  | (Err error, q) => (Err error, (with_queue s q, sd))
  | (Ok ids, q) =>
      let s := with_queue s q in
      let '(found, s) := read_entries (tk_now t) (sd_rounds sd) ids (mkFound ∅ [] []) s in
      let s := with_queue s (set_holds (sv_queue s) (fo_holds found)) in
      let st := finish_overdue t (fo_overdue found) (s, sd) in
      (Ok tt, queue_due t (fo_holds found) (fo_due found) st)
  end.

End scheduler.
