(* ===== verification/SchedulerTheory.v ===== *)
(** Theorems about the scheduler: whatever the remotes answer, it loses no
    message, keeps its caps, and puts no recipient in two conversations. *)

From stdpp Require Import gmap relations.
From S2P Require Import Prelude RustStd Utf8 Address SmtpSession SieveMatch LocalDelivery Bounce QueueReply Dane OutboundClient OutboundSpool QueueWorker QueueTheory Warmup Scheduler.

Local Open Scope Z_scope.

Section theory.
Context `{UC : Unicode} `{ID : Idna} `{CE : Certificates} `{UU : Uuids} {K L : Type} `{RS : ReportSink K} `{EL : EvidenceLog L}.
Context (w : Worker) (limits : Limits).

Notation server := (Server (K := K) (L := L)).
Notation state := (server * Schedule)%type.
Context (E : Event → Prop).
Notation acts := (acts w E).

(** ** The steps of the queue *)

Lemma read_acts (q q' : Queue K L) :
  (∀ id, entry_at q' id = entry_at q id) → q_reports q' = q_reports q → q_suppressed q' = q_suppressed q → acts q q'.
Proof. intros H1 H2 H3. apply (acts_one w E q q' []); [constructor|]. intros stored h. by apply (act_read w (mkWorld q stored h)). Qed.

Lemma disk_acts (q : Queue K L) d : dk_entries d = dk_entries (q_disk q) → acts q (set_disk q d).
Proof. intros Hd. apply read_acts; [|done|done]. intros id. unfold entry_at. simpl. by rewrite Hd. Qed.

Lemma load_acts (q : Queue K L) id : acts q (on_disk (load id) q).2.
Proof.
  unfold on_disk, load. destruct (next_fault_cases (q_disk q)) as ([] & d & -> & Hd); by apply disk_acts.
Qed.

Lemma load_envelope_acts (q : Queue K L) id : acts q (on_disk (load_envelope id) q).2.
Proof.
  unfold on_disk, load_envelope, load. destruct (next_fault_cases (q_disk q)) as ([] & d & -> & Hd); by apply disk_acts.
Qed.

Lemma list_acts (q : Queue K L) : acts q (on_disk list_entries q).2.
Proof.
  unfold on_disk, list_entries. destruct (next_fault_cases (q_disk q)) as ([] & d & -> & Hd); by apply disk_acts.
Qed.

Lemma finish_acts t id claimed (q : Queue K L) : E (Settled id (tk_now t)) → acts q (finish w t id claimed q).2.
Proof. intros HE. apply (acts_one w E _ _ [Settled id (tk_now t)]); [by constructor|]. intros stored h. apply (act_finish w (mkWorld q stored h)). Qed.

Lemma record_acts t id e c (q : Queue K L) : E (Talked id c) → acts q (record w t id e c q).2.
Proof. intros HE. apply (acts_one w E _ _ [Talked id c]); [by constructor|]. intros stored h. apply (act_record w (mkWorld q stored h)). Qed.

Lemma refuse_acts t id recipients (q : Queue K L) :
  E (Talked id (conversation_all recipients None (Permanent (lit "unparseable recipient address")))) →
  acts q (refuse_unparseable w t id recipients q).2.
Proof. intros HE. eapply (acts_one w E); [|intros stored h; apply (act_refuse w (mkWorld q stored h))]. by constructor. Qed.

Lemma sweep_acts now (q : Queue K L) : E Swept → acts q (write_waiting_outcomes w now q).2.
Proof. intros HE. apply (acts_one w E _ _ [Swept]); [by constructor|]. intros stored h. apply (act_sweep w (mkWorld q stored h)). Qed.

(** The envelope was read from the entry. *)
Definition remembers (q : Queue K L) (p : Z * Envelope) : Prop :=
  ∀ en, entry_at q p.1 = Some en → ev_reverse_path p.2 = ev_reverse_path (se_envelope en).

Lemma skip_acts id e due (q : Queue K L) : remembers q (id, e) → acts q (skip_suppressed w id e due q).2.
Proof. intros Hr. apply (acts_one w E _ _ []); [constructor|]. intros stored h. by apply (act_skip w (mkWorld q stored h)). Qed.

(** *** The warm-up is another state *)

Lemma group_closed_queue (s : server) g sender now :
  sv_queue (group_closed s g sender now).2 = sv_queue s ∧ sv_claims (group_closed s g sender now).2 = sv_claims s.
Proof. unfold group_closed. destruct (sv_warmup s) as [u|]; [|done]. by destruct (blocked u g sender now). Qed.

Lemma cap_closed_queue (s : server) st sender now :
  sv_queue (cap_closed s st sender now).2 = sv_queue s ∧ sv_claims (cap_closed s st sender now).2 = sv_claims s.
Proof. unfold cap_closed. destruct (_ ≫= _); [apply group_closed_queue|done]. Qed.

Lemma due_filter_queue e sender now l (s : server) :
  sv_queue (due_filter s e sender now l).2 = sv_queue s ∧ sv_claims (due_filter s e sender now l).2 = sv_claims s.
Proof.
  revert s. induction l as [|r l IH]; intros s; [done|]. simpl. destruct (rs_warmup (recipient_state e r)).
  - pose proof (cap_closed_queue s (recipient_state e r) sender now) as [H1 H2].
    destruct (cap_closed s (recipient_state e r) sender now) as [until s']. cbn [snd] in *. destruct (IH s') as [H3 H4].
    destruct (due_filter s' e sender now l). cbn [snd] in *. split; congruence.
  - destruct (IH s) as [H3 H4]. by destruct (due_filter s e sender now l).
Qed.

Lemma any_open_queue e sender now l (s : server) :
  sv_queue (any_open s e sender now l).2 = sv_queue s ∧ sv_claims (any_open s e sender now l).2 = sv_claims s.
Proof.
  revert s. induction l as [|r l IH]; intros s; [done|]. simpl. destruct (rs_warmup (recipient_state e r)); [|apply IH].
  pose proof (cap_closed_queue s (recipient_state e r) sender now) as [H1 H2].
  destruct (cap_closed s (recipient_state e r) sender now) as [until s']. cbn [snd] in *. case_bool_decide; [|done].
  destruct (IH s') as [H3 H4]. split; congruence.
Qed.

Lemma wakes_queue (s : server) e now : sv_queue (wakes s e now).2 = sv_queue s ∧ sv_claims (wakes s e now).2 = sv_claims s.
Proof. unfold wakes. destruct (_ <=? _); [done|apply any_open_queue]. Qed.

Lemma job_capped_queue (s : server) g sender now :
  sv_queue (job_capped s g sender now).2 = sv_queue s ∧ sv_claims (job_capped s g sender now).2 = sv_claims s.
Proof.
  unfold job_capped. destruct g as [g|]; [|done]. pose proof (group_closed_queue s g sender now) as H.
  by destruct (group_closed s g sender now).
Qed.

(** *** The scheduler only takes such steps *)

Context (t : Tick) (HE : ∀ id, E (Settled id (tk_now t))).

Definition moved (st st' : state) : Prop := acts (sv_queue st.1) (sv_queue st'.1).

Lemma moved_refl st : moved st st. Proof. apply acts_refl. Qed.
Lemma moved_trans a b c : moved a b → moved b c → moved a c. Proof. apply acts_trans. Qed.

Lemma run_finish_queue (s : server) id :
  acts (sv_queue s) (sv_queue (run_finish w t s id).2) ∧ sv_claims (run_finish w t s id).2 = sv_claims s ∧
  sv_warmup (run_finish w t s id).2 = sv_warmup s.
Proof.
  unfold run_finish. pose proof (finish_acts t id (claimed_of s id) (sv_queue s) (HE id)) as H.
  by destruct (finish w t id (claimed_of s id) (sv_queue s)).
Qed.

Lemma settle_entry_moved id d st : moved st (settle_entry w t id d st).
Proof.
  destruct st as [s sd]. unfold settle_entry. pose proof (run_finish_queue s id) as [H _].
  destruct (run_finish w t s id) as [r s']. exact H.
Qed.

Lemma job_ended_moved id d st : moved st (job_ended w t id d st).
Proof.
  destruct st as [s sd]. unfold job_ended. destruct (sd_rounds sd !! id) as [[n any]|]; [|apply moved_refl].
  destruct (_ =? 0); [exact (settle_entry_moved id (any || d) (s, set_rounds sd (delete id (sd_rounds sd))))|exact (acts_refl w E _)].
Qed.

Lemma start_queue (s : server) job : acts (sv_queue s) (sv_queue (start limits t s job).2).
Proof.
  unfold start. pose proof (job_capped_queue s (jb_group job) (jb_sender job) (tk_now t)) as [H1 H2].
  destruct (job_capped s _ _ _) as [capped s1]. cbn [snd] in *. rewrite <-H1. destruct capped; [apply acts_refl|].
  destruct (take_claim _ _ _ _ _ _) as [[claim claims]|full]; [|apply acts_refl].
  pose proof (load_acts (sv_queue s1) (jb_id job)) as Hl. cbn [sv_queue with_claims] in *.
  destruct (on_disk (load (jb_id job)) (sv_queue s1)) as [[en|e] q]; cbn [snd] in *; [|exact Hl].
  case_bool_decide; [exact Hl|]. by destruct (none_left _).
Qed.

Lemma end_jobs_moved jobs st : moved st (end_jobs w t jobs st).
Proof.
  revert st. induction jobs as [|job jobs IH]; intros st; [apply moved_refl|]. simpl.
  eapply moved_trans; [|apply IH]. exact (job_ended_moved (jb_id job) false (st.1, examine st.2)).
Qed.

Lemma start_domain_moved jobs st : moved st (start_domain w limits t jobs st).2.
Proof.
  revert st. induction jobs as [|job jobs IH]; intros [s sd]; [apply moved_refl|]. simpl.
  pose proof (start_queue s job) as Hs. destruct (start limits t s job) as [[job' []|r|id] s']; cbn [snd] in *; try exact Hs.
  eapply moved_trans; [|apply IH]. exact (moved_trans (s, sd) (s', examine sd) _ Hs (job_ended_moved id false (s', examine sd))).
Qed.

Lemma start_sender_moved holds order by_domain at_cap st : moved st (start_sender w limits t holds order by_domain at_cap st).2.
Proof.
  revert by_domain at_cap st. induction order as [|d order IH]; intros by_domain at_cap st; [apply moved_refl|]. simpl.
  case_bool_decide; [eapply moved_trans; [apply end_jobs_moved|apply IH]|].
  pose proof (start_domain_moved (default [] (by_domain !! d)) st) as Hd.
  destruct (start_domain _ _ _ _ _) as [[waiting outcome] st']. cbn [snd] in Hd.
  destruct outcome as [[]|]; [exact Hd|exact Hd|]. eapply moved_trans; [exact Hd|apply IH].
Qed.

Lemma fill_turns_moved fuel holds aside st aside' st' :
  fill_turns w limits fuel t holds aside st = Some (aside', st') → moved st st'.
Proof.
  revert aside st. induction fuel as [|fuel IH]; intros aside [s sd]; simpl.
  - destruct (negb _); [intros [= _ <-]; apply moved_refl|]. destruct (next_sender _) as [[[sender jobs] wt]|]; [done|].
    intros [= _ <-]. apply moved_refl.
  - destruct (negb _); [intros [= _ <-]; apply moved_refl|]. destruct (next_sender _) as [[[sender jobs] wt]|];
      [|intros [= _ <-]; apply moved_refl].
    pose proof (start_sender_moved holds (sj_order jobs) (sj_by_domain jobs) [] (s, set_wait sd wt)) as Hs. unfold start_next.
    destruct (start_sender _ _ _ _ _ _ _ _) as [[started jobs'] [s' sd']]. cbn [snd] in Hs.
    destruct started; intros Hf%IH; exact (moved_trans (s, sd) (s', sd') _ Hs Hf).
Qed.

Lemma fill_moved st st' : fill w limits t st = Some st' → moved st st'.
Proof.
  unfold fill. destruct (wt_turn _); [intros [= <-]; apply moved_refl|].
  destruct (fill_turns _ _ _ _ _ _ _) as [[aside [s sd]]|] eqn:Ef; [|done]. intros [= <-]. by apply fill_turns_moved in Ef.
Qed.

Lemma conversation_done_moved i c st :
  (∀ r, sd_running st.2 !! i = Some r → E (Talked (jb_id (ru_job r)) c)) →
  moved st (conversation_done w t i c st).
Proof.
  destruct st as [s sd]. intros HT. unfold conversation_done. cbn [fst snd] in *. destruct (_ !! i) as [r|]; [|apply moved_refl].
  unfold complete. pose proof (record_acts t (jb_id (ru_job r)) (se_envelope (ru_entry r)) c (sv_queue s) (HT r eq_refl)) as Hr.
  destruct (record _ _ _ _ _ _) as [res q]. eapply moved_trans; [|apply job_ended_moved]. exact Hr.
Qed.

(** *** A scan *)

Context (Hsweep : E Swept) (Hbad : ∀ id rs, E (Talked id (conversation_all rs None (Permanent (lit "unparseable recipient address"))))).

Lemma finish_overdue_moved ids st : moved st (finish_overdue w t ids st).
Proof.
  revert st. induction ids as [|id ids IH]; intros [s sd]; [apply moved_refl|]. simpl.
  pose proof (run_finish_queue s id) as [Hf _]. destruct (run_finish w t s id) as [r s']. cbn [snd] in Hf.
  exact (acts_trans w E _ _ _ Hf (IH (s', _))).
Qed.

Lemma queue_entry_moved holds id e st : remembers (sv_queue st.1) (id, e) → moved st (queue_entry w t holds id e st).2.
Proof.
  destruct st as [s sd]. cbn [fst]. intros Hr. unfold queue_entry.
  pose proof (due_filter_queue e (sender_of e) (tk_now t) (pending e) s) as [Hq Hc]. unfold due_now.
  destruct (due_filter s e _ _ _) as [due s1]. cbn [snd] in *. rewrite <-Hq in Hr.
  assert (Hs1 : moved (s, sd) (s1, sd)) by (unfold moved; cbn [fst]; rewrite Hq; apply acts_refl).
  eapply moved_trans; [exact Hs1|]. destruct (_ && _); [apply moved_refl|].
  match goal with |- context [skip_suppressed w id e ?d _] => pose proof (skip_acts id e d (sv_queue s1) Hr) as Hk end.
  destruct (skip_suppressed _ _ _ _ _) as [[due'|error] q]; cbn [snd] in *; [|exact Hk].
  eapply (moved_trans _ (with_queue s1 q, sd)); [exact Hk|].
  destruct (fold_left _ due' _) as [groups unparseable].
  assert (Hu : moved (with_queue s1 q, sd)
    ((if none_left unparseable then (Ok tt, with_queue s1 q)
      else let '(r, q') := refuse_unparseable w t id unparseable (sv_queue (with_queue s1 q)) in (r, with_queue (with_queue s1 q) q')).2, sd)).
  { destruct (none_left unparseable); [apply moved_refl|]. pose proof (refuse_acts t id unparseable q (Hbad id unparseable)) as Hu.
    cbn [sv_queue with_queue]. destruct (refuse_unparseable _ _ _ _ _) as [r q']. exact Hu. }
  destruct (if none_left unparseable then _ else _) as [[[]|error] s2]; cbn [snd] in *; [|exact Hu].
  eapply moved_trans; [exact Hu|].
  destruct (_ && _); [apply moved_refl|]. destruct (none_left groups); [apply settle_entry_moved|]. exact (acts_refl w E _).
Qed.

(** Steps keep what is remembered of the entries. *)
Lemma remembers_kept (q q' : Queue K L) p :
  (∀ id en', entry_at q' id = Some en' → ∃ en, entry_at q id = Some en ∧ identity en' = identity en) → remembers q p → remembers q' p.
Proof.
  intros Hi Hr en' Hen'. destruct (Hi _ _ Hen') as (en & Hen & Hid). rewrite (Hr en Hen).
  apply identity_inv in Hid as (Hrp & _). by rewrite Hrp.
Qed.

Lemma queue_due_moved holds l st : Forall (remembers (sv_queue st.1)) l → moved st (queue_due w t holds l st).
Proof.
  revert st. induction l as [|[id e] l IH]; intros st Hl; [apply moved_refl|]. apply Forall_cons in Hl as [Hr Hl]. simpl.
  pose proof (queue_entry_moved holds id e st Hr) as Hm. destruct (queue_entry w t holds id e st) as [r [s sd]]. cbn [snd] in Hm.
  unfold moved. eapply acts_then; [exact Hm|]. intros Hi.
  assert (Hl' : Forall (remembers (sv_queue s)) l) by (eapply Forall_impl; [exact Hl|]; intros p; by apply remembers_kept).
  destruct r as [u|error]; [exact (IH (s, sd) Hl')|exact (IH (s, note_error sd error) Hl')].
Qed.

Lemma read_entries_moved now rounds ids found (s : server) :
  Forall (remembers (sv_queue s)) (fo_due found) →
  acts (sv_queue s) (sv_queue (read_entries w now rounds ids found s).2) ∧
  (∀ id, entry_at (sv_queue (read_entries w now rounds ids found s).2) id = entry_at (sv_queue s) id) ∧
  Forall (remembers (sv_queue (read_entries w now rounds ids found s).2)) (fo_due (read_entries w now rounds ids found s).1).
Proof.
  revert found s. induction ids as [|id ids IH]; intros found s Hf; [by split_and!; [apply acts_refl|..]|]. simpl.
  pose proof (load_envelope_acts (sv_queue s) id) as Hl. destruct (on_disk (load_envelope id) (sv_queue s)) as [r q] eqn:El.
  pose proof El as (Hat & _ & Hen)%(load_envelope_evolves w []). cbn [snd] in Hl.
  assert (Hf' : Forall (remembers q) (fo_due found)).
  { eapply Forall_impl; [exact Hf|]. intros p. apply remembers_kept. intros id' en'. rewrite Hat. intros ?. by exists en'. }
  destruct r as [e|error].
  - set (late := if _ && overdue _ _ _ _ _ then _ else _).
    assert (Hw : ∃ wake s', (if negb (bool_decide (is_Some (rounds !! id))) && bool_decide (ev_held e = None) then wakes (with_queue s q) e now
        else (false, with_queue s q)) = (wake, s') ∧ sv_queue s' = q).
    { destruct (negb (bool_decide (is_Some (rounds !! id))) && bool_decide (ev_held e = None)); [|eexists _, _; split; reflexivity]. pose proof (wakes_queue (with_queue s q) e now) as [H _].
      destruct (wakes (with_queue s q) e now) as [wake s']. eexists _, _. split; [reflexivity|exact H]. }
    destruct Hw as (wake & s' & -> & Hq).
    destruct (IH (mkFound (add_envelope (fo_holds found) e) (if wake then fo_due found ++ [(id, e)] else fo_due found) late) s') as (H1 & H2 & H3).
    { cbn [fo_due]. rewrite Hq. destruct wake; [|done]. apply Forall_app. split; [done|]. constructor; [|done].
      intros en. cbn [fst snd]. rewrite Hat. destruct (Hen e eq_refl) as [data ->]. by intros [= <-]. }
    rewrite Hq in H1, H2. split_and!; [by eapply acts_trans|by intros id'; rewrite H2|done].
  - destruct (IH found (with_queue s q) Hf') as (H1 & H2 & H3). split_and!; [by eapply acts_trans|by intros id'; rewrite H2|done].
Qed.

Lemma scan_moved st : moved st (scan w t st).2.
Proof.
  destruct st as [s sd]. unfold scan. pose proof (sweep_acts (tk_now t) (sv_queue s) Hsweep) as Hs.
  set (q1 := (write_waiting_outcomes w (tk_now t) (sv_queue s)).2) in *. cbn [sv_queue with_queue].
  pose proof (list_acts q1) as Hl. destruct (on_disk list_entries q1) as [[ids|error] q2]; cbn [snd] in *.
  2: exact (acts_trans w E _ _ _ Hs Hl).
  destruct (read_entries_moved (tk_now t) (sd_rounds sd) ids (mkFound ∅ [] []) (with_queue (with_queue s q1) q2)) as (H1 & H2 & H3); [constructor|].
  destruct (read_entries _ _ _ _ _ _) as [found s3]. cbn [fst snd] in *.
  assert (Hh : acts (sv_queue s3) (set_holds (sv_queue s3) (fo_holds found))) by by apply read_acts.
  set (s4 := with_queue s3 (set_holds (sv_queue s3) (fo_holds found))) in *.
  assert (Hto : acts (sv_queue s) (sv_queue s4)).
  { eapply acts_trans; [exact Hs|]. eapply acts_trans; [exact Hl|]. eapply acts_trans; [exact H1|exact Hh]. }
  unfold moved. cbn [fst]. eapply acts_trans; [exact Hto|]. eapply acts_then; [exact (finish_overdue_moved (fo_overdue found) (s4, sd))|].
  intros Hi. apply queue_due_moved. eapply Forall_impl; [exact H3|]. intros p. by apply remembers_kept.
Qed.
End theory.

(** ** The scheduler loses nothing *)

Section system.
Context `{UC : Unicode} `{ID : Idna} `{CE : Certificates} `{UU : Uuids} {K L : Type} `{RS : ReportSink K} `{EL : EvidenceLog L}.
Context (w : Worker) (limits : Limits).

Notation server := (Server (K := K) (L := L)).

(** The scheduler, with the messages taken, the conversations that ended and
    the times of its steps. *)
Record System := mkSystem {
  sy_server : server;
  sy_schedule : Schedule;
  sy_stored : list (Z * SpoolEntry);
  sy_done : list (Z * Conversation);
  sy_times : list Z
}.

Definition at_state (S : System) (st : server * Schedule) (done : list (Z * Conversation)) (times : list Z) : System :=
  mkSystem st.1 st.2 (sy_stored S) (done ++ sy_done S) (times ++ sy_times S).

Definition at_queue (S : System) (q : Queue K L) (stored : list (Z * SpoolEntry)) : System :=
  mkSystem (with_queue (sy_server S) q) (sy_schedule S) (stored ++ sy_stored S) (sy_done S) (sy_times S).

(** A crash drops the conversations and the claims; the warm-up changes on
    its own. *)
Inductive sys_step : System → System → Prop :=
| sys_scan S t :
    sys_step S (at_state S (scan w t (sy_server S, sy_schedule S)).2 [] [tk_now t])
| sys_fill S t st' :
    fill w limits t (sy_server S, sy_schedule S) = Some st' → sys_step S (at_state S st' [] [tk_now t])
| sys_ended S t i c r :
    sd_running (sy_schedule S) !! i = Some r →
    sys_step S (at_state S (conversation_done w t i c (sy_server S, sy_schedule S)) [(jb_id (ru_job r), c)] [tk_now t])
| sys_store S message id options q' en :
    id ∉ map fst (sy_stored S) → on_disk (store_with message id options) (sv_queue (sy_server S)) = (Ok id, q') →
    entry_at q' id = Some en → sys_step S (at_queue S q' [(id, en)])
| sys_store_fails S message id options error q' :
    on_disk (store_with message id options) (sv_queue (sy_server S)) = (Err error, q') → sys_step S (at_queue S q' [])
| sys_operator S id now (held : bool) :
    sys_step S (at_queue S (on_disk (update_envelope id (λ e, if held then hold e now else release e now)) (sv_queue (sy_server S))).2 [])
| sys_crash S :
    sys_step S (mkSystem (mkServer (sv_queue (sy_server S)) (sv_warmup (sy_server S)) no_claims) no_schedule
                  (sy_stored S) (sy_done S) (sy_times S))
| sys_warmup S u :
    sys_step S (mkSystem (mkServer (sv_queue (sy_server S)) u (sv_claims (sy_server S))) (sy_schedule S)
                  (sy_stored S) (sy_done S) (sy_times S)).

(** What the events of the queue are in the scheduler: a conversation that
    ended, or a recipient that is no address. *)
Definition explained (S : System) (ev : Event) : Prop :=
  match ev with
  | Talked id c => (id, c) ∈ sy_done S ∨ ∃ rs, c = conversation_all rs None (Permanent (lit "unparseable recipient address"))
  | Settled _ now => now ∈ sy_times S
  | Swept => True
  end.

Lemma explained_grows S S' ev : sy_done S ⊆ sy_done S' → sy_times S ⊆ sy_times S' → explained S ev → explained S' ev.
Proof. destruct ev; simpl; [intros Hd _ [?|?]; [left; by apply Hd|by right]|set_solver|done]. Qed.

(** The scheduler is where steps of the queue lead. *)
Definition simulated (q0 : Queue K L) (S : System) : Prop :=
  ∃ h, rtc (act w) (mkWorld q0 [] []) (mkWorld (sv_queue (sy_server S)) (sy_stored S) h) ∧
    good w (mkWorld (sv_queue (sy_server S)) (sy_stored S) h) ∧ Forall (explained S) h.

Lemma simulated_acts q0 S S' :
  simulated q0 S → sy_stored S' = sy_stored S → sy_done S ⊆ sy_done S' → sy_times S ⊆ sy_times S' →
  acts w (explained S') (sv_queue (sy_server S)) (sv_queue (sy_server S')) → simulated q0 S'.
Proof.
  intros (h & R & G & F) Hst Hd Ht Ha. destruct (Ha _ _ G) as (ev & Fe & R' & G' & _). exists (ev ++ h). rewrite Hst.
  split_and!; [by etrans|done|]. apply Forall_app. split; [done|]. eapply Forall_impl; [exact F|]. intros e. by apply explained_grows.
Qed.

Lemma simulated_step q0 S S' : sys_step S S' → simulated q0 S → simulated q0 S'.
Proof.
  intros Hstep Hsim. destruct Hstep as [S t|S t st' Hf|S t i c r Hr|S message id options q' en Hid E Hen|S message id options error q' E|S id now held|S|S u].
  - eapply simulated_acts; [exact Hsim|done|set_solver|set_solver|]. refine (scan_moved w _ t _ _ _ (sy_server S, sy_schedule S)); simpl; [set_solver|done|by right; eexists].
  - eapply simulated_acts; [exact Hsim|done|set_solver|set_solver|]. refine (fill_moved w limits _ t _ (sy_server S, sy_schedule S) st' Hf). simpl. set_solver.
  - eapply simulated_acts; [exact Hsim|done|set_solver|set_solver|].
    refine (conversation_done_moved w _ t _ i c (sy_server S, sy_schedule S) _); simpl; [set_solver|]. rewrite Hr. intros r' [= <-]. set_solver.
  - destruct Hsim as (h & R & G & F). exists h.
    assert (Hact : act w (mkWorld (sv_queue (sy_server S)) (sy_stored S) h) (mkWorld q' ((id, en) :: sy_stored S) h))
      by (by apply (act_store w (mkWorld (sv_queue (sy_server S)) (sy_stored S) h) message id options q' en)).
    split_and!; [by eapply rtc_r|by eapply act_good|]. eapply Forall_impl; [exact F|]. intros e. by apply explained_grows.
  - eapply simulated_acts; [exact Hsim|done|done|done|]. apply (acts_one w _ _ _ []); [constructor|]. intros stored h.
    by apply (act_store_fails w (mkWorld (sv_queue (sy_server S)) stored h) message id options error q').
  - eapply simulated_acts; [exact Hsim|done|done|done|]. apply (acts_one w _ _ _ []); [constructor|]. intros stored h.
    apply (act_operator w (mkWorld (sv_queue (sy_server S)) stored h)).
  - eapply simulated_acts; [exact Hsim|done|done|done|apply acts_refl].
  - eapply simulated_acts; [exact Hsim|done|done|done|apply acts_refl].
Qed.

Definition start_system (q0 : Queue K L) (u : option Warmup) : System := mkSystem (mkServer q0 u no_claims) no_schedule [] [] [].


End system.

(** ** Claims and caps *)

Definition pairs (live : list Claim) : list (Z * list Z) := flat_map (λ cm, map (pair (cm_id cm)) (cm_recipients cm)) live.

Definition live_of {A} (key : Claim → A) `{EqDecision A} (a : A) (live : list Claim) : Z :=
  Z.of_nat (length (filter (λ cm, key cm = a) live)).

(** The claims count the live ones, no recipient is claimed twice, and no cap
    is passed. *)
Record claims_ok (limits : Limits) (c : Claims) (live : list Claim) : Prop := {
  ok_running : cs_running c = Z.of_nat (length live);
  ok_domains d : count_of (cs_domains c) d = live_of cm_domain d live;
  ok_senders s : count_of (cs_senders c) s = live_of cm_sender s live;
  ok_held id r : r ∈ default ∅ (cs_recipients c !! id) ↔ (id, r) ∈ pairs live;
  ok_exclusive : NoDup (pairs live);
  ok_total : Z.of_nat (length live) ≤ Z.max (li_total limits) 0;
  ok_per_domain d : live_of cm_domain d live ≤ Z.max (li_per_domain limits) 0;
  ok_per_sender s : live_of cm_sender s live ≤ per_sender limits
}.

Lemma pairs_app l1 l2 : pairs (l1 ++ l2) = pairs l1 ++ pairs l2.
Proof. apply flat_map_app. Qed.

Lemma pairs_perm l1 l2 : l1 ≡ₚ l2 → pairs l1 ≡ₚ pairs l2.
Proof. intros H. by apply Permutation_flat_map. Qed.

Lemma live_of_perm {A} (key : Claim → A) `{EqDecision A} a l1 l2 : l1 ≡ₚ l2 → live_of key a l1 = live_of key a l2.
Proof. intros H. unfold live_of. by rewrite H. Qed.

Lemma live_of_cons {A} (key : Claim → A) `{EqDecision A} a cm live :
  live_of key a (cm :: live) = (if decide (key cm = a) then 1 else 0) + live_of key a live.
Proof. unfold live_of. rewrite filter_cons. destruct (decide (key cm = a)); simpl length; lia. Qed.

Lemma claims_ok_perm limits c l1 l2 : l1 ≡ₚ l2 → claims_ok limits c l1 → claims_ok limits c l2.
Proof.
  intros Hp []. pose proof (Permutation_length Hp) as Hl. split; try (intros; rewrite <-?Hl, <-?(live_of_perm _ _ _ _ Hp); auto; fail).
  - intros id r. by rewrite <-(pairs_perm _ _ Hp).
  - by rewrite <-(pairs_perm _ _ Hp).
Qed.

Lemma count_of_in m key key' : count_of (count_in m key) key' = (if decide (key = key') then 1 else 0) + count_of m key'.
Proof.
  unfold count_in, count_of. destruct (decide (key = key')) as [->|]; [rewrite lookup_insert_eq; simpl; lia|by rewrite lookup_insert_ne].
Qed.

Lemma count_of_out m key key' : count_of (count_out m key) key' = if decide (key = key') then Z.max (count_of m key' - 1) 0 else count_of m key'.
Proof.
  unfold count_out, count_of. destruct (decide (key = key')) as [->|Hne].
  - destruct (m !! key') as [n|] eqn:E; [|rewrite E; simpl; lia]. unfold saturating_sub.
    destruct (Z.eqb_spec (Z.max (n - 1) 0) 0) as [Hz|Hz]; [rewrite lookup_delete_eq|rewrite lookup_insert_eq]; simpl; lia.
  - destruct (m !! key) as [n|]; [|done]. destruct (_ =? 0); [by rewrite lookup_delete_ne|by rewrite lookup_insert_ne].
Qed.

Lemma set_held_lookup m id held id' : default ∅ (set_held m id held !! id') = if decide (id' = id) then held else default ∅ (m !! id').
Proof.
  unfold set_held. case_bool_decide as Hh; destruct (decide (id' = id)) as [->|].
  - by rewrite lookup_delete_eq, Hh.
  - by rewrite lookup_delete_ne.
  - by rewrite lookup_insert_eq.
  - by rewrite lookup_insert_ne.
Qed.

Lemma claim_free_spec held recipients free held' :
  claim_free held recipients = (free, held') →
  NoDup free ∧ (∀ r, r ∈ free → r ∉ held ∧ r ∈ recipients) ∧ (∀ r, r ∈ held' ↔ r ∈ held ∨ r ∈ free).
Proof.
  revert held free held'. induction recipients as [|r recipients IH]; intros held free held'; simpl.
  { intros [= <- <-]. split_and!; [constructor|by intros ? ?%elem_of_nil|set_solver]. }
  case_bool_decide as Hr; [intros (H1 & H2 & H3)%IH; split_and!; set_solver|].
  destruct (claim_free ({[r]} ∪ held) recipients) as [free' held''] eqn:E. intros [= <- <-]. apply IH in E as (H1 & H2 & H3).
  split_and!; [constructor; [intros Hin; apply H2 in Hin; set_solver|done]|set_solver|set_solver].
Qed.

Lemma elem_pairs id r live : (id, r) ∈ pairs live ↔ ∃ cm, cm ∈ live ∧ cm_id cm = id ∧ r ∈ cm_recipients cm.
Proof.
  unfold pairs. rewrite list_elem_of_In, in_flat_map. split.
  - intros (cm & Hcm & Hr). apply in_map_iff in Hr as (r' & [= <- <-] & Hr). exists cm. by rewrite !list_elem_of_In.
  - intros (cm & Hcm & <- & Hr). exists cm. rewrite list_elem_of_In in Hcm. split; [done|]. by apply in_map, list_elem_of_In.
Qed.

Lemma take_claim_ok limits id domain sender recipients c live cm c' :
  claims_ok limits c live → take_claim limits id domain sender recipients c = Ok (cm, c') →
  claims_ok limits c' (cm :: live) ∧ cm_id cm = id ∧ cm_domain cm = domain ∧ cm_sender cm = sender.
Proof.
  intros []. unfold take_claim.
  destruct (Z.leb_spec (li_total limits) (cs_running c)) as [|Ht]; [done|].
  destruct (Z.leb_spec (li_per_domain limits) (count_of (cs_domains c) domain)) as [|Hd]; [done|].
  destruct (Z.leb_spec (per_sender limits) (count_of (cs_senders c) sender)) as [|Hs]; [done|].
  destruct (claim_free _ recipients) as [free held] eqn:E. intros [= <- <-]. apply claim_free_spec in E as (Hnd & Hfree & Hheld).
  rewrite ok_domains0 in Hd. rewrite ok_senders0 in Hs. rewrite ok_running0 in Ht.
  split; [|done]. split; cbn [cs_running cs_domains cs_senders cs_recipients].
  - simpl length. lia.
  - intros d. by rewrite count_of_in, live_of_cons, ok_domains0.
  - intros s. by rewrite count_of_in, live_of_cons, ok_senders0.
  - intros id' r. rewrite set_held_lookup. cbn [pairs flat_map]. rewrite elem_of_app. fold (pairs live). cbn [cm_id cm_recipients].
    rewrite <-ok_held0. destruct (decide (id' = id)) as [->|Hne].
    + rewrite Hheld. assert ((id, r) ∈ map (pair id) free ↔ r ∈ free); [|tauto].
      rewrite !list_elem_of_In, in_map_iff. split; [by intros (x & [= ->] & ?)|]. intros ?. by exists r.
    + assert ((id', r) ∉ map (pair id) free); [|tauto]. rewrite list_elem_of_In, in_map_iff. intros (x & [= -> ->] & _). done.
  - cbn [pairs flat_map]. fold (pairs live). cbn [cm_id cm_recipients]. apply NoDup_app. split_and!; [|intros p Hp|done].
    + apply NoDup_fmap_2; [|done]. by intros ? ? [= ->].
    + rewrite list_elem_of_In, in_map_iff in Hp. destruct Hp as (r & <- & Hr%list_elem_of_In). rewrite <-ok_held0. by apply Hfree in Hr as [? _].
  - simpl length. lia.
  - intros d. rewrite live_of_cons. cbn [cm_domain]. specialize (ok_per_domain0 d). destruct (decide (domain = d)) as [->|]; lia.
  - intros s. rewrite live_of_cons. cbn [cm_sender]. specialize (ok_per_sender0 s). destruct (decide (sender = s)) as [->|]; lia.
Qed.

Lemma release_claim_ok limits c cm live : claims_ok limits c (cm :: live) → claims_ok limits (release_claim cm c) live.
Proof.
  intros []. unfold release_claim. split; cbn [cs_running cs_domains cs_senders cs_recipients].
  - rewrite ok_running0. unfold saturating_sub. simpl length. lia.
  - intros d. rewrite count_of_out, ok_domains0, live_of_cons. assert (0 ≤ live_of cm_domain d live) by (unfold live_of; lia).
    destruct (decide (cm_domain cm = d)); lia.
  - intros s. rewrite count_of_out, ok_senders0, live_of_cons. assert (0 ≤ live_of cm_sender s live) by (unfold live_of; lia).
    destruct (decide (cm_sender cm = s)); lia.
  - intros id r. specialize (ok_held0 id r). cbn [pairs flat_map] in ok_held0, ok_exclusive0. fold (pairs live) in ok_held0, ok_exclusive0.
    rewrite elem_of_app in ok_held0. apply NoDup_app in ok_exclusive0 as (_ & Hdis & _).
    assert (Hmine : (id, r) ∈ map (pair (cm_id cm)) (cm_recipients cm) ↔ id = cm_id cm ∧ r ∈ cm_recipients cm).
    { rewrite !list_elem_of_In, in_map_iff. split; [by intros (x & [= <- ->] & ?)|]. intros [-> ?]. by exists r. }
    destruct (cs_recipients c !! cm_id cm) as [held|] eqn:Eh.
    + rewrite set_held_lookup. destruct (decide (id = cm_id cm)) as [->|Hne].
      * rewrite Eh in ok_held0. simpl in ok_held0. rewrite elem_of_difference, elem_of_list_to_set.
        split; [intros [? ?]; tauto|]. intros Hin. split; [tauto|]. intros Hr. by apply (Hdis (cm_id cm, r)); [apply Hmine|].
      * rewrite ok_held0. tauto.
    + split; [intros Hin; apply ok_held0 in Hin as Hin'; destruct Hin' as [[-> _]%Hmine|?]; [by rewrite Eh in Hin|done]|].
      intros Hin. apply ok_held0. by right.
  - cbn [pairs flat_map] in ok_exclusive0. by apply NoDup_app in ok_exclusive0 as (_ & _ & ?).
  - simpl length in ok_total0. lia.
  - intros d. specialize (ok_per_domain0 d). rewrite live_of_cons in ok_per_domain0. destruct (decide _); lia.
  - intros s. specialize (ok_per_sender0 s). rewrite live_of_cons in ok_per_sender0. destruct (decide _); lia.
Qed.

Section caps.
Context `{UC : Unicode} `{ID : Idna} `{CE : Certificates} `{UU : Uuids} {K L : Type} `{RS : ReportSink K} `{EL : EvidenceLog L}.
Context (w : Worker) (limits : Limits).

Notation server := (Server (K := K) (L := L)).
Notation state := (server * Schedule)%type.

(** A conversation speaks for recipients of its claim. *)
Definition running_ok (r : Running) : Prop :=
  cm_id (ru_claim r) = jb_id (ru_job r) ∧ cm_domain (ru_claim r) = (jb_domain (ru_job r)).2 ∧
  cm_sender (ru_claim r) = jb_sender (ru_job r) ∧ ru_recipients r `sublist_of` cm_recipients (ru_claim r).

Definition sched_ok (st : state) : Prop :=
  claims_ok limits (sv_claims st.1) (map ru_claim (sd_running st.2)) ∧ Forall running_ok (sd_running st.2).

(** Steps that start and end no conversation. *)
Definition same_run (st st' : state) : Prop := sv_claims st'.1 = sv_claims st.1 ∧ sd_running st'.2 = sd_running st.2.

Lemma same_run_refl st : same_run st st. Proof. done. Qed.
Lemma same_run_trans a b c : same_run a b → same_run b c → same_run a c.
Proof. intros [H1 H2] [H3 H4]. split; congruence. Qed.
Lemma same_run_ok st st' : same_run st st' → sched_ok st → sched_ok st'.
Proof. intros [H1 H2] H. unfold sched_ok. by rewrite H1, H2. Qed.

Lemma run_finish_claims t (s : server) id : sv_claims (run_finish w t s id).2 = sv_claims s.
Proof. unfold run_finish. by destruct (finish _ _ _ _ _). Qed.

Lemma settle_entry_run t id d st : same_run st (settle_entry w t id d st).
Proof.
  destruct st as [s sd]. unfold settle_entry. pose proof (run_finish_claims t s id) as H. destruct (run_finish w t s id) as [r s'].
  split; [exact H|]. destruct r as [|[]], d; done.
Qed.

Lemma job_ended_run t id d st : same_run st (job_ended w t id d st).
Proof.
  destruct st as [s sd]. unfold job_ended. destruct (sd_rounds sd !! id) as [[n any]|]; [|done].
  destruct (_ =? 0); [|done]. exact (settle_entry_run t id (any || d) (s, set_rounds sd (delete id (sd_rounds sd)))).
Qed.

Lemma end_jobs_run t jobs st : same_run st (end_jobs w t jobs st).
Proof.
  revert st. induction jobs as [|job jobs IH]; intros st; [done|]. simpl.
  eapply same_run_trans; [exact (job_ended_run t (jb_id job) false (st.1, examine st.2))|apply IH].
Qed.

Lemma finish_overdue_run t ids st : same_run st (finish_overdue w t ids st).
Proof.
  revert st. induction ids as [|id ids IH]; intros [s sd]; [done|]. simpl. pose proof (run_finish_claims t s id) as H.
  destruct (run_finish w t s id) as [r s']. cbn [snd] in H. eapply same_run_trans; [|apply IH]. split; [exact H|]. by destruct r as [|[]].
Qed.

Lemma queue_entry_run t holds id e st : same_run st (queue_entry w t holds id e st).2.
Proof.
  destruct st as [s sd]. unfold queue_entry. pose proof (due_filter_queue e (sender_of e) (tk_now t) (pending e) s) as [_ Hc]. unfold due_now.
  destruct (due_filter s e _ _ _) as [due s1]. cbn [snd] in Hc.
  assert (H1 : same_run (s, sd) (s1, sd)) by (by split). eapply same_run_trans; [exact H1|].
  destruct (_ && _); [done|]. destruct (skip_suppressed _ _ _ _ _) as [[due'|error] q]; [|done].
  destruct (fold_left _ due' _) as [groups unparseable].
  assert (Hu : ∃ refused s2, (if none_left unparseable then (Ok tt, with_queue s1 q)
      else let '(r, q') := refuse_unparseable w t id unparseable (sv_queue (with_queue s1 q)) in (r, with_queue (with_queue s1 q) q')) = (refused, s2) ∧
      sv_claims s2 = sv_claims s1).
  { destruct (none_left unparseable); [by eexists _, _|]. destruct (refuse_unparseable _ _ _ _ _). by eexists _, _. }
  destruct Hu as (refused & s2 & -> & H2). destruct refused as [[]|error]; [|by split].
  destruct (_ && _); [by split|]. destruct (none_left groups); [|by split].
  eapply same_run_trans; [|apply settle_entry_run]. by split.
Qed.

Lemma queue_due_run t holds l st : same_run st (queue_due w t holds l st).
Proof.
  revert st. induction l as [|[id e] l IH]; intros st; [done|]. simpl. pose proof (queue_entry_run t holds id e st) as H.
  destruct (queue_entry _ _ _ _ _ _) as [r [s sd]]. cbn [snd] in H. eapply same_run_trans; [exact H|].
  eapply same_run_trans; [|apply IH]. split; [done|]. by destruct r.
Qed.

Lemma read_entries_claims now rounds ids found (s : server) : sv_claims (read_entries w now rounds ids found s).2 = sv_claims s.
Proof.
  revert found s. induction ids as [|id ids IH]; intros found s; [done|]. simpl.
  destruct (on_disk _ _) as [[e|error] q]; [|by rewrite IH].
  assert (Hw : sv_claims (if negb (bool_decide (is_Some (rounds !! id))) && bool_decide (ev_held e = None) then wakes (with_queue s q) e now
        else (false, with_queue s q)).2 = sv_claims s) by (destruct (negb _ && _); [exact (proj2 (wakes_queue (with_queue s q) e now))|done]).
  destruct (if negb _ && _ then _ else _) as [wake s']. by rewrite IH.
Qed.

Lemma scan_run t st : same_run st (scan w t st).2.
Proof.
  destruct st as [s sd]. unfold scan. destruct (on_disk list_entries _) as [[ids|error] q]; [|done].
  pose proof (read_entries_claims (tk_now t) (sd_rounds sd) ids (mkFound ∅ [] []) (with_queue (with_queue s (write_waiting_outcomes w (tk_now t) (sv_queue s)).2) q)) as Hr.
  destruct (read_entries _ _ _ _ _ _) as [found s3]. cbn [snd] in *.
  eapply same_run_trans; [|apply queue_due_run]. eapply same_run_trans; [|apply finish_overdue_run]. by split.
Qed.

(** A conversation starts under a new claim; one that does not start leaves
    none. *)
Lemma start_ok t (s : server) job live :
  claims_ok limits (sv_claims s) live →
  match start limits t s job with
  | (StartRunning r, s') => claims_ok limits (sv_claims s') (ru_claim r :: live) ∧ running_ok r
  | (_, s') => claims_ok limits (sv_claims s') live
  end.
Proof.
  intros Hok. unfold start. pose proof (job_capped_queue s (jb_group job) (jb_sender job) (tk_now t)) as [_ H2].
  destruct (job_capped s _ _ _) as [capped s1]. cbn [snd] in H2. rewrite <-H2 in Hok. destruct capped; [done|].
  destruct (take_claim _ _ _ _ _ _) as [[claim claims]|full] eqn:Et; [|done].
  apply (take_claim_ok _ _ _ _ _ _ live) in Et as (Hc & Hid & Hd & Hs); [|done].
  destruct (on_disk _ _) as [[en|e] q]; [|by apply release_claim_ok].
  case_bool_decide; [by apply release_claim_ok|]. destruct (none_left _); [by apply release_claim_ok|].
  split; [done|]. split_and!; [done..|]. cbn [ru_recipients ru_claim]. clear. induction (cm_recipients claim) as [|r l IH]; simpl; [constructor|].
  case_bool_decide; by constructor.
Qed.

Lemma start_domain_ok t jobs st : sched_ok st → sched_ok (start_domain w limits t jobs st).2.
Proof.
  revert st. induction jobs as [|job jobs IH]; intros [s sd] [Hc Hr]; [done|]. simpl. cbn [fst snd] in *.
  pose proof (start_ok t s job _ Hc) as Hs. destruct (start limits t s job) as [[job' []|r|id] s']; cbn [snd].
  - by split.
  - by split.
  - by split.
  - destruct Hs as [Hs Hr']. split; cbn [fst snd set_running sd_running examine]; [|by apply Forall_app; split; [|constructor]].
    eapply claims_ok_perm; [|exact Hs]. rewrite map_app. apply Permutation_cons_append.
  - apply IH. eapply same_run_ok; [apply (job_ended_run t id false (s', examine sd))|]. by split.
Qed.

Lemma start_sender_ok t holds order by_domain at_cap st : sched_ok st → sched_ok (start_sender w limits t holds order by_domain at_cap st).2.
Proof.
  revert by_domain at_cap st. induction order as [|d order IH]; intros by_domain at_cap st Hok; [done|]. simpl.
  case_bool_decide; [apply IH; eapply same_run_ok; [apply end_jobs_run|done]|].
  pose proof (start_domain_ok t (default [] (by_domain !! d)) st Hok) as Hd.
  destruct (start_domain _ _ _ _ _) as [[waiting outcome] st']. destruct outcome as [[]|]; [done|done|by apply IH].
Qed.

Lemma fill_turns_ok fuel t holds aside st aside' st' :
  fill_turns w limits fuel t holds aside st = Some (aside', st') → sched_ok st → sched_ok st'.
Proof.
  revert aside st. induction fuel as [|fuel IH]; intros aside [s sd]; simpl.
  - destruct (negb _); [by intros [= _ <-]|]. destruct (next_sender _) as [[[sender jobs] wt]|]; [done|]. by intros [= _ <-].
  - destruct (negb _); [by intros [= _ <-]|]. destruct (next_sender _) as [[[sender jobs] wt]|]; [|by intros [= _ <-]].
    pose proof (start_sender_ok t holds (sj_order jobs) (sj_by_domain jobs) [] (s, set_wait sd wt)) as Hs. unfold start_next.
    destruct (start_sender _ _ _ _ _ _ _ _) as [[started jobs'] [s' sd']]. cbn [snd] in Hs.
    destruct started; intros Hf Hok; apply IH in Hf; try done; by apply Hs.
Qed.

Lemma fill_ok t st st' : fill w limits t st = Some st' → sched_ok st → sched_ok st'.
Proof.
  unfold fill. destruct (wt_turn _); [by intros [= <-]|].
  destruct (fill_turns _ _ _ _ _ _ _) as [[aside [s sd]]|] eqn:Ef; [|done]. intros [= <-] Hok. exact (fill_turns_ok _ _ _ _ _ _ _ Ef Hok).
Qed.

Lemma swap_remove_perm {A} (l : list A) i x : l !! i = Some x → l ≡ₚ x :: swap_remove l i.
Proof.
  intros Hi. unfold swap_remove. destruct (last l) as [y|] eqn:Hl; [|apply last_None in Hl as ->; by rewrite lookup_nil in Hi].
  apply last_Some in Hl as [l' ->]. rewrite length_app. simpl length. destruct (Nat.eqb_spec (S i) (length l' + 1)) as [He|He].
  - rewrite removelast_last. rewrite lookup_app_r in Hi by lia. replace (i - length l')%nat with 0%nat in Hi by lia.
    injection Hi as <-. symmetry. apply Permutation_cons_append.
  - assert (Hlt : (i < length l')%nat) by (apply lookup_lt_Some in Hi; rewrite length_app in Hi; simpl in Hi; lia).
    rewrite lookup_app_l in Hi by done. rewrite insert_app_l, removelast_last by done.
    rewrite <-(take_drop_middle l' i x Hi) at 1. rewrite insert_take_drop by done.
    rewrite <-app_assoc. cbn [app]. rewrite <-Permutation_middle. apply perm_skip, Permutation_app_head. symmetry. apply Permutation_cons_append.
Qed.

Lemma conversation_done_ok t i c st : sched_ok st → sched_ok (conversation_done w t i c st).
Proof.
  destruct st as [s sd]. unfold conversation_done. cbn [fst snd]. intros [Hc Hr]. cbn [fst snd] in *.
  destruct (sd_running sd !! i) as [r|] eqn:Ei; [|done]. pose proof (swap_remove_perm _ _ _ Ei) as Hp.
  unfold complete. destruct (record _ _ _ _ _ _) as [res q].
  eapply same_run_ok; [apply job_ended_run|].
  assert (Hrun : ∀ sd', sd_running sd' = swap_remove (sd_running sd) i → sched_ok (with_claims (with_queue s q) (release_claim (ru_claim r) (sv_claims (with_queue s q))), sd')).
  { intros sd' Hsd. split; cbn [fst snd sv_claims with_claims with_queue]; rewrite Hsd.
    - apply release_claim_ok. eapply claims_ok_perm; [|exact Hc]. apply (Permutation_map ru_claim) in Hp. exact Hp.
    - rewrite Hp in Hr. by apply Forall_cons in Hr as [_ Hr]. }
  apply Hrun. destruct (retry_now c); [by destruct res as [|[]]|]. cbn [sd_rounds set_running].
  by destruct res as [|[]]; cbn [sd_rounds note_error set_running]; destruct (sd_rounds sd !! _) as [[n any]|].
Qed.

Lemma no_claims_ok : claims_ok limits no_claims [].
Proof.
  split; cbn [no_claims cs_running cs_domains cs_senders cs_recipients length]; unfold live_of, per_sender; cbn [filter length].
  - done.
  - intros d. unfold count_of. by rewrite lookup_empty.
  - intros d. unfold count_of. by rewrite lookup_empty.
  - intros id r. rewrite lookup_empty. simpl. set_solver.
  - constructor.
  - lia.
  - intros d. simpl. lia.
  - intros d. simpl. lia.
Qed.


(** ** Filling the slots *)

(** Why a job cannot start beside the conversations [run]. *)
Definition domain_full (run : list Running) (d : Destination) : Prop := li_per_domain limits ≤ live_of cm_domain d.2 (map ru_claim run).
Definition sender_full (run : list Running) (sender : list Z) : Prop :=
  li_total limits ≤ Z.of_nat (length run) ∨ per_sender limits ≤ live_of cm_sender sender (map ru_claim run).
Definition no_slot (run : list Running) (job : Job) : Prop := domain_full run (jb_domain job) ∨ sender_full run (jb_sender job).

Lemma live_of_prefix {A} (key : Claim → A) `{EqDecision A} a run run' :
  run `prefix_of` run' → live_of key a (map ru_claim run) ≤ live_of key a (map ru_claim run').
Proof. intros [k ->]. unfold live_of. rewrite map_app, filter_app, length_app. lia. Qed.

Lemma domain_full_prefix run run' d : run `prefix_of` run' → domain_full run d → domain_full run' d.
Proof. intros Hp. unfold domain_full. pose proof (live_of_prefix cm_domain d.2 run run' Hp). lia. Qed.

Lemma sender_full_prefix run run' s : run `prefix_of` run' → sender_full run s → sender_full run' s.
Proof.
  intros Hp. unfold sender_full. pose proof (live_of_prefix cm_sender s run run' Hp). pose proof (prefix_length _ _ Hp). lia.
Qed.

Lemma no_slot_prefix run run' job : run `prefix_of` run' → no_slot run job → no_slot run' job.
Proof. intros Hp [?|?]; [left; by eapply domain_full_prefix|right; by eapply sender_full_prefix]. Qed.

Lemma start_full t (s : server) job run job' full s' :
  claims_ok limits (sv_claims s) (map ru_claim run) → start limits t s job = (StartWaiting job' full, s') →
  job' = job ∧ match full with FullDomain => domain_full run (jb_domain job) | _ => sender_full run (jb_sender job) end.
Proof.
  intros Hok. unfold start. pose proof (job_capped_queue s (jb_group job) (jb_sender job) (tk_now t)) as [_ H2].
  destruct (job_capped s _ _ _) as [capped s1]. cbn [snd] in H2. rewrite <-H2 in Hok. destruct capped; [done|].
  destruct (take_claim _ _ _ _ _ _) as [[claim claims]|full'] eqn:Et.
  - destruct (on_disk _ _) as [[en|e] q]; [|done]. case_bool_decide; [done|]. by destruct (none_left _).
  - intros [= <- <- <-]. split; [done|]. revert Et. unfold take_claim. destruct Hok. unfold domain_full, sender_full.
    rewrite ok_running0, ok_domains0, ok_senders0, length_map.
    destruct (Z.leb_spec (li_total limits) (Z.of_nat (length run))); [intros [= <-]; by left|].
    destruct (Z.leb_spec (li_per_domain limits) (live_of cm_domain (jb_domain job).2 (map ru_claim run))); [by intros [= <-]|].
    destruct (Z.leb_spec (per_sender limits) (live_of cm_sender (jb_sender job) (map ru_claim run))); [intros [= <-]; by right|].
    by destruct (claim_free _ _).
Qed.

Lemma job_ended_wait t id d st : sd_waiting (job_ended w t id d st).2 = sd_waiting st.2.
Proof.
  destruct st as [s sd]. unfold job_ended. destruct (sd_rounds sd !! id) as [[n any]|]; [|done]. destruct (_ =? 0); [|done].
  unfold settle_entry. destruct (run_finish _ _ _ _) as [r s']. by destruct r as [|[]], (any || d).
Qed.

Lemma end_jobs_wait t jobs st : sd_waiting (end_jobs w t jobs st).2 = sd_waiting st.2.
Proof.
  revert st. induction jobs as [|job jobs IH]; intros st; [done|]. simpl. etrans; [apply IH|]. exact (job_ended_wait t (jb_id job) false (st.1, examine st.2)).
Qed.

(** One domain: [jobs] of [sender] with [d]. *)
Definition of_domain (sender : list Z) (d : Destination) (job : Job) : Prop := jb_sender job = sender ∧ jb_domain job = d.

Lemma start_domain_spec t sender d jobs st jobs' outcome st' :
  sched_ok st → Forall (of_domain sender d) jobs → start_domain w limits t jobs st = (jobs', outcome, st') →
  sched_ok st' ∧ sd_waiting st'.2 = sd_waiting st.2 ∧ Forall (of_domain sender d) jobs' ∧
  match outcome with
  | Some true => length (sd_running st'.2) = S (length (sd_running st.2)) ∧ sd_running st.2 `prefix_of` sd_running st'.2
  | Some false => sd_running st'.2 = sd_running st.2 ∧ sender_full (sd_running st'.2) sender
  | None => sd_running st'.2 = sd_running st.2 ∧ (jobs' = [] ∨ domain_full (sd_running st'.2) d)
  end.
Proof.
  revert st. induction jobs as [|job jobs IH]; intros [s sd] Hok Hjobs; cbn [start_domain].
  { intros [= <- <- <-]. split_and!; try done. by left. }
  apply Forall_cons in Hjobs as [[Hsd Hdm] Hjobs]. pose proof Hok as [Hc Hr]. cbn [fst snd] in Hc, Hr.
  pose proof (start_ok t s job _ Hc) as Hs. pose proof (start_full t s job (sd_running sd)) as Hf.
  destruct (start limits t s job) as [[job' full|r|id] s'].
  - destruct (Hf job' full s' Hc eq_refl) as [-> Hfull].
    assert (Hok' : sched_ok (s', examine sd)) by (by split).
    destruct full; intros [= <- <- <-]; (split_and!; [done|done|by constructor|done|]); rewrite ?Hsd, ?Hdm in Hfull; auto.
  - intros [= <- <- <-]. destruct Hs as [Hs Hrun]. split_and!; [|done|done| |by eexists].
    + split; cbn [fst snd set_running sd_running examine]; [|by apply Forall_app; split; [|constructor]].
      eapply claims_ok_perm; [|exact Hs]. rewrite map_app. apply Permutation_cons_append.
    + cbn [snd set_running sd_running examine]. rewrite length_app. simpl. lia.
  - intros E. pose proof (job_ended_run t id false (s', examine sd)) as Hsame. pose proof (job_ended_wait t id false (s', examine sd)) as Hwt.
    apply IH in E as (H1 & H2 & H3 & H4); [|eapply same_run_ok; [exact Hsame|by split]|done].
    destruct Hsame as [_ Hrun]. cbn [snd] in *. rewrite Hrun in H4. rewrite Hwt in H2. by split_and!.
Qed.

(** The jobs of a sender, each under its domain. *)
Definition sender_wf (sender : list Z) (by_domain : gmap Destination (list Job)) (order : list Destination) : Prop :=
  ∀ d jobs, by_domain !! d = Some jobs → Forall (of_domain sender d) jobs ∧ (jobs ≠ [] → d ∈ order).

Lemma sender_wf_insert sender m order d jobs :
  sender_wf sender (delete d m) order → Forall (of_domain sender d) jobs →
  ∀ order', order ⊆ order' → (jobs ≠ [] → d ∈ order') →
  sender_wf sender (if none_left jobs then delete d m else <[d := jobs]> (delete d m)) order'.
Proof.
  intros Hwf Hj order' Hsub Hd d' jobs' Hl.
  assert (Hcases : (d' = d ∧ jobs' = jobs) ∨ delete d m !! d' = Some jobs').
  { destruct jobs; cbn [none_left] in Hl; [by right|]. destruct (decide (d' = d)) as [->|]; [rewrite lookup_insert_eq in Hl; left; by injection Hl|].
    rewrite lookup_insert_ne in Hl by done. by right. }
  destruct Hcases as [[-> ->]|Hd']; [done|]. apply Hwf in Hd' as [? ?]. split; [done|]. intros ?. by apply Hsub; auto.
Qed.

Lemma start_sender_spec t holds sender order m at_cap st started sj st' :
  sched_ok st → sender_wf sender m (order ++ at_cap) → Forall (domain_full (sd_running st.2)) at_cap →
  start_sender w limits t holds order m at_cap st = (started, sj, st') →
  sched_ok st' ∧ sd_waiting st'.2 = sd_waiting st.2 ∧ sender_wf sender (sj_by_domain sj) (sj_order sj) ∧
  if started then length (sd_running st'.2) = S (length (sd_running st.2)) ∧ sd_running st.2 `prefix_of` sd_running st'.2
  else sd_running st'.2 = sd_running st.2 ∧ (sender_full (sd_running st'.2) sender ∨ Forall (domain_full (sd_running st'.2)) (sj_order sj)).
Proof.
  revert m at_cap st. induction order as [|d order IH]; intros m at_cap st Hok Hwf Hcap; cbn [start_sender].
  { intros [= <- <- <-]. split_and!; [done|done| |done|right; by apply Forall_rev]. intros d jobs Hl.
    apply Hwf in Hl as [? Hl]. split; [done|]. intros Hne. specialize (Hl Hne). cbn [sj_order app] in *.
    rewrite list_elem_of_In in *. by apply in_rev in Hl. }
  assert (Hdel : sender_wf sender (delete d m) (order ++ at_cap)).
  { intros d' jobs Hl. destruct (decide (d' = d)) as [->|Hne]; [by rewrite lookup_delete_eq in Hl|]. rewrite lookup_delete_ne in Hl by done.
    apply Hwf in Hl as [? Hl]. split; [done|]. intros Hj. specialize (Hl Hj). set_solver. }
  case_bool_decide.
  { intros E. pose proof (end_jobs_run t (default [] (m !! d)) st) as Hsame. pose proof (end_jobs_wait t (default [] (m !! d)) st) as Hwt.
    destruct Hsame as [Hsc Hrun] eqn:Es. rewrite <-Hrun in Hcap. apply IH in E as (H1 & H2 & H3 & H4); [|by eapply same_run_ok|done|done].
    rewrite Hrun in H4. rewrite Hwt in H2. by split_and!. }
  assert (Hj : Forall (of_domain sender d) (default [] (m !! d))).
  { destruct (m !! d) as [jobs|] eqn:El; [|constructor]. by apply Hwf in El as [? _]. }
  destruct (start_domain _ _ _ _ _) as [[jobs outcome] st1] eqn:Ed. apply (start_domain_spec t sender d) in Ed as (H1 & H2 & H3 & H4); [|done|done].
  destruct outcome as [[]|].
  - intros [= <- <- <-]. split_and!; [done|done| |apply H4|apply H4]. cbn [sj_by_domain sj_order].
    apply (sender_wf_insert _ _ (order ++ at_cap)); [done|done|intros x; rewrite !elem_of_app, !list_elem_of_In, <-in_rev; tauto|].
    destruct jobs; [done|]. intros _. cbn [none_left]. set_solver.
  - intros [= <- <- <-]. split_and!; [done|done| |apply H4|left; apply H4]. cbn [sj_by_domain sj_order].
    apply (sender_wf_insert _ _ (order ++ at_cap)); [done|done|intros x; rewrite !elem_of_app, !list_elem_of_In, <-in_rev; tauto|].
    destruct jobs; [done|]. intros _. cbn [none_left]. set_solver.
  - intros E. destruct H4 as [Hrun Hfull]. apply IH in E as (K1 & K2 & K3 & K4); [|done| |].
    + rewrite Hrun in K4. rewrite H2 in K2. by split_and!.
    + apply (sender_wf_insert _ _ (order ++ at_cap)); [done|done|destruct jobs; set_solver|]. destruct jobs; [done|]. set_solver.
    + rewrite Hrun. destruct jobs; cbn [none_left]; [done|]. constructor; [|done]. rewrite <-Hrun. by destruct Hfull.
Qed.

(** Every sender with jobs is in the turn, with its jobs in order. *)
Definition waiting_wf (wt : Waiting) : Prop :=
  ∀ sender sj, wt_senders wt !! sender = Some sj → sender ∈ wt_turn wt ∧ sender_wf sender (sj_by_domain sj) (sj_order sj).

Lemma put_back_wf wt sender sj b : waiting_wf wt → sender_wf sender (sj_by_domain sj) (sj_order sj) → waiting_wf (put_back wt sender sj b).
Proof.
  intros Hwf Hsj. unfold put_back. destruct (sj_order sj) eqn:Eo; [done|]. rewrite <-Eo in *. intros sender' sj'. cbn [wt_senders wt_turn].
  destruct (decide (sender' = sender)) as [->|Hne]; [rewrite lookup_insert_eq|rewrite lookup_insert_ne by done].
  - intros [= <-]. split; [destruct b; set_solver|done].
  - intros [? ?]%Hwf. split; [destruct b; set_solver|done].
Qed.

Lemma push_job_wf sender sj job front : jb_sender job = sender → sender_wf sender (sj_by_domain sj) (sj_order sj) →
  sender_wf sender (sj_by_domain (push_job sj job front)) (sj_order (push_job sj job front)).
Proof.
  intros Hs Hwf d jobs. unfold push_job. cbn [sj_by_domain sj_order].
  assert (Hd : Forall (of_domain sender (jb_domain job)) (default [] (sj_by_domain sj !! jb_domain job)) ∧
    (default [] (sj_by_domain sj !! jb_domain job) ≠ [] → jb_domain job ∈ sj_order sj)).
  { destruct (sj_by_domain sj !! jb_domain job) as [l|] eqn:E; [by apply Hwf|by split]. }
  destruct Hd as [Hall Hin]. generalize dependent (default [] (sj_by_domain sj !! jb_domain job)). intros waiting Hall Hin.
  destruct (decide (d = jb_domain job)) as [->|Hne]; [rewrite lookup_insert_eq|rewrite lookup_insert_ne by done].
  - intros [= <-]. split; [destruct front; [by constructor|by apply Forall_app; split; [|constructor]]|]. intros _.
    destruct waiting; [destruct front; set_solver|by apply Hin].
  - intros [? Hd]%Hwf. split; [done|]. intros Hj. specialize (Hd Hj). destruct waiting; [destruct front; set_solver|done].
Qed.

Lemma push_wf wt job front : waiting_wf wt → waiting_wf (push wt job front).
Proof.
  intros Hwf sender sj. unfold push. cbn [wt_senders wt_turn].
  destruct (decide (sender = jb_sender job)) as [->|Hne]; [rewrite lookup_insert_eq|rewrite lookup_insert_ne by done].
  - intros [= <-]. destruct (wt_senders wt !! jb_sender job) as [sj|] eqn:E.
    + destruct (Hwf _ _ E) as [Ht Hj]. split; [done|]. by apply push_job_wf.
    + split; [destruct front; set_solver|]. apply push_job_wf; [done|]. intros d jobs. simpl. by rewrite lookup_empty.
  - intros [Ht Hj]%Hwf. split; [|done]. destruct (wt_senders wt !! jb_sender job); [done|]. destruct front; set_solver.
Qed.

Lemma next_sender_wf wt sender sj wt' : waiting_wf wt → next_sender wt = Some (sender, sj, wt') →
  waiting_wf wt' ∧ sender_wf sender (sj_by_domain sj) (sj_order sj) ∧ length (wt_turn wt) = S (length (wt_turn wt')).
Proof.
  intros Hwf. unfold next_sender. destruct (wt_turn wt) as [|x turn] eqn:Et; [done|]. intros [= <- <- <-]. split_and!; [| |done].
  - intros sender' sj'. cbn [wt_senders wt_turn]. destruct (decide (sender' = x)) as [->|Hne]; [by rewrite lookup_delete_eq|].
    rewrite lookup_delete_ne by done. intros [Hin Hj]%Hwf. rewrite Et in Hin. split; [set_solver|done].
  - destruct (wt_senders wt !! x) as [sj|] eqn:E; [by apply Hwf in E as [_ ?]|]. intros d jobs. simpl. by rewrite lookup_empty.
Qed.

(** A sender set aside can start nothing. *)
Definition aside_ok (run : list Running) (p : list Z * SenderJobs) : Prop :=
  sender_wf p.1 (sj_by_domain p.2) (sj_order p.2) ∧ (sender_full run p.1 ∨ Forall (domain_full run) (sj_order p.2)).

Lemma aside_ok_prefix run run' p : run `prefix_of` run' → aside_ok run p → aside_ok run' p.
Proof.
  intros Hp [H1 H2]. split; [done|]. destruct H2 as [?|H2]; [left; by eapply sender_full_prefix|right].
  eapply Forall_impl; [exact H2|]. intros d. by apply domain_full_prefix.
Qed.

Lemma fill_turns_spec fuel t holds aside st :
  (fill_fuel limits st ≤ fuel)%nat → sched_ok st → waiting_wf (sd_waiting st.2) → Forall (aside_ok (sd_running st.2)) aside →
  ∃ aside' st', fill_turns w limits fuel t holds aside st = Some (aside', st') ∧ waiting_wf (sd_waiting st'.2) ∧
    Forall (aside_ok (sd_running st'.2)) aside' ∧ (li_total limits ≤ Z.of_nat (length (sd_running st'.2)) ∨ wt_turn (sd_waiting st'.2) = []).
Proof.
  revert aside st. induction fuel as [|fuel IH]; intros aside [s sd] Hfuel Hok Hwf Has; cbn [fill_turns fst snd] in *.
  all: assert (Hrun : cs_running (sv_claims s) = Z.of_nat (length (sd_running sd))) by (rewrite <-(length_map ru_claim); apply Hok).
  all: unfold has_room; rewrite Hrun; destruct (Z.ltb_spec (Z.of_nat (length (sd_running sd))) (li_total limits)) as [Hroom|Hroom]; cbn [negb];
    [|by eexists _, _; split_and!; [done..|left]].
  all: destruct (next_sender (sd_waiting sd)) as [[[sender jobs] wt]|] eqn:En;
    [|eexists _, _; split_and!; [done..|right]; cbn [snd]; unfold next_sender in En; by destruct (wt_turn (sd_waiting sd))].
  all: destruct (next_sender_wf _ _ _ _ Hwf En) as (Hwt & Hsj & Hlen); unfold fill_fuel in *; cbn [fst snd] in *.
  1: lia.
  unfold start_next. destruct (start_sender _ _ _ _ _ _ _ _) as [[started sj] [s' sd']] eqn:Es.
  apply (start_sender_spec t holds sender) in Es as (H1 & H2 & H3 & H4); [|done|by rewrite app_nil_r|constructor]. cbn [snd set_wait sd_waiting sd_running] in H2, H4.
  assert (Hrun' : cs_running (sv_claims s') = Z.of_nat (length (sd_running sd'))) by (rewrite <-(length_map ru_claim); apply H1).
  destruct started; destruct H4 as [H4 H5].
  - apply (IH aside (s', set_wait sd' (put_back (sd_waiting sd') sender sj true))).
    + cbn [fst snd set_wait sd_waiting]. rewrite H2. unfold put_back. destruct (sj_order sj); cbn [wt_turn]; rewrite ?length_app; simpl length; lia.
    + exact H1.
    + cbn [snd set_wait sd_waiting]. rewrite H2. by apply put_back_wf.
    + cbn [snd set_wait sd_running]. eapply Forall_impl; [exact Has|]. intros p. by apply aside_ok_prefix.
  - apply (IH ((sender, sj) :: aside) (s', sd')); cbn [fst snd].
    + rewrite H2, Hrun', H4. lia.
    + exact H1.
    + by rewrite H2.
    + constructor; [by split|]. by rewrite H4.
Qed.

(** A job that waits. *)
Definition waits (wt : Waiting) (job : Job) : Prop :=
  ∃ sender sj d jobs, wt_senders wt !! sender = Some sj ∧ sj_by_domain sj !! d = Some jobs ∧ job ∈ jobs.

Lemma put_aside_wf run aside wt :
  waiting_wf wt → Forall (aside_ok run) aside → waiting_wf (fold_left put_aside aside wt).
Proof.
  intros Hwf Ha. revert wt Hwf. induction Ha as [|p aside [Hp _] _ IH]; intros wt Hwf; [done|]. simpl. by apply IH, put_back_wf.
Qed.

Lemma put_aside_waits run aside wt job :
  Forall (aside_ok run) aside → waits (fold_left put_aside aside wt) job → waits wt job ∨ no_slot run job.
Proof.
  intros Ha. revert wt. induction Ha as [|p aside [Hwf Hp] _ IH]; intros wt Hw; [by left|]. simpl in Hw. apply IH in Hw as [Hw|?]; [|by right].
  destruct Hw as (sender & sj & d & jobs & Hs & Hd & Hj). unfold put_aside, put_back in Hs.
  destruct (sj_order p.2) eqn:Eo; [left; by exists sender, sj, d, jobs|]. rewrite <-Eo in *. cbn [wt_senders] in Hs.
  destruct (decide (sender = p.1)) as [->|Hne]; [|rewrite lookup_insert_ne in Hs by done; left; by exists sender, sj, d, jobs].
  rewrite lookup_insert_eq in Hs. injection Hs as <-. right. apply Hwf in Hd as [Hall Hin].
  rewrite Forall_forall in Hall. destruct (Hall job Hj) as [Hsj Hdj].
  destruct Hp as [Hp|Hp]; [right; by rewrite Hsj|left]. rewrite Forall_forall in Hp. rewrite Hdj. apply Hp, Hin. intros ->. by apply elem_of_nil in Hj.
Qed.

Lemma fill_spec t st : sched_ok st → waiting_wf (sd_waiting st.2) →
  ∃ st', fill w limits t st = Some st' ∧ waiting_wf (sd_waiting st'.2) ∧ ∀ job, waits (sd_waiting st'.2) job → no_slot (sd_running st'.2) job.
Proof.
  intros Hok Hwf. unfold fill. destruct (wt_turn (sd_waiting st.2)) eqn:Et.
  { eexists. split_and!; [done..|]. intros job (sender & sj & d & jobs & Hs & _). apply Hwf in Hs as [Hs _]. rewrite Et in Hs. by apply elem_of_nil in Hs. }
  destruct (fill_turns_spec (fill_fuel limits st) t (q_holds (sv_queue st.1)) [] st) as (aside & [s sd] & E & H1 & H2 & H3); [lia|done|done|constructor|].
  rewrite E. eexists. split; [done|]. cbn [snd set_wait sd_waiting sd_running] in *. split; [by eapply put_aside_wf|]. intros job Hw.
  destruct H3 as [H3|H3]; [right; by left|]. eapply put_aside_waits in Hw as [Hw|?]; [|done|exact H2].
  destruct Hw as (sender & sj & d & jobs & Hs & _). apply H1 in Hs as [Hs _]. rewrite H3 in Hs. by apply elem_of_nil in Hs.
Qed.

(** *** The other steps keep the jobs in order *)

Lemma settle_entry_wait t id d st : sd_waiting (settle_entry w t id d st).2 = sd_waiting st.2.
Proof. destruct st as [s sd]. unfold settle_entry. destruct (run_finish _ _ _ _) as [r s']. by destruct r as [|[]], d. Qed.

Lemma queue_entry_wf t holds id e st : waiting_wf (sd_waiting st.2) → waiting_wf (sd_waiting (queue_entry w t holds id e st).2.2).
Proof.
  destruct st as [s sd]. cbn [snd]. intros Hwf. unfold queue_entry. destruct (due_now _ _ _) as [due s1].
  destruct (_ && _); [done|]. destruct (skip_suppressed _ _ _ _ _) as [[due'|error] q]; [|done].
  destruct (fold_left _ due' _) as [groups unparseable].
  destruct (if none_left unparseable then _ else _) as [[[]|error] s2]; [|done].
  destruct (_ && _); [done|]. destruct (none_left groups); cbn [snd]; [by rewrite settle_entry_wait|]. cbn [set_wait sd_waiting].
  change (waiting_wf (fold_left (λ wt (g : Destination * list (list Z)), push wt (mkJob id g.1 (sender_of e) g.2 (waiting_group e g.2)) false) groups
    (sd_waiting sd))).
  generalize dependent (sd_waiting sd). induction groups as [|g groups IH]; intros wt Hwf; [done|]. simpl. by apply IH, push_wf.
Qed.

Lemma queue_due_wf t holds l st : waiting_wf (sd_waiting st.2) → waiting_wf (sd_waiting (queue_due w t holds l st).2).
Proof.
  revert st. induction l as [|[id e] l IH]; intros st Hwf; [done|]. cbn [queue_due].
  pose proof (queue_entry_wf t holds id e st Hwf) as Hq. destruct (queue_entry _ _ _ _ _ _) as [r [s sd]]. cbn [snd] in Hq.
  apply IH. by destruct r.
Qed.

Lemma finish_overdue_wait t ids st : sd_waiting (finish_overdue w t ids st).2 = sd_waiting st.2.
Proof.
  revert st. induction ids as [|id ids IH]; intros [s sd]; [done|]. cbn [finish_overdue]. destruct (run_finish _ _ _ _) as [r s'].
  rewrite IH. by destruct r as [|[]].
Qed.

Lemma scan_wf t st : waiting_wf (sd_waiting st.2) → waiting_wf (sd_waiting (scan w t st).2.2).
Proof.
  destruct st as [s sd]. intros Hwf. unfold scan. destruct (on_disk list_entries _) as [[ids|error] q]; [|done].
  destruct (read_entries _ _ _ _ _ _) as [found s3]. cbn [snd]. apply queue_due_wf. by rewrite finish_overdue_wait.
Qed.

Lemma conversation_done_wf t i c st : waiting_wf (sd_waiting st.2) → waiting_wf (sd_waiting (conversation_done w t i c st).2).
Proof.
  destruct st as [s sd]. unfold conversation_done. cbn [snd]. intros Hwf. destruct (sd_running sd !! i) as [r|]; [|done].
  unfold complete. destruct (record _ _ _ _ _ _) as [res q]. rewrite job_ended_wait. cbn [snd].
  destruct (retry_now c); [by destruct res as [|[]]|]. cbn [sd_rounds set_running].
  by destruct res as [|[]]; cbn [sd_rounds note_error set_running]; destruct (sd_rounds sd !! _) as [[n any]|]; try done; apply push_wf.
Qed.

(** ** Every run of the scheduler *)

Lemma system_ok q0 u S :
  rtc (sys_step w limits) (start_system q0 u) S → sched_ok (sy_server S, sy_schedule S) ∧ waiting_wf (sd_waiting (sy_schedule S)).
Proof.
  assert (Hempty : waiting_wf no_waiting) by (intros sender sj; simpl; by rewrite lookup_empty).
  intros Hr. assert (H0 : sched_ok (sy_server (start_system q0 u), sy_schedule (start_system q0 u)) ∧ waiting_wf (sd_waiting (sy_schedule (start_system q0 u))))
    by (split; [split; [apply no_claims_ok|constructor]|done]).
  induction Hr as [|S1 S2 S3 Hstep _ IH]; [done|]. apply IH. clear IH. destruct H0 as [Hok Hwf]. revert Hok Hwf.
  destruct Hstep as [S t|S t st' Hf|S t i c r Hr|S message id options q' en Hid E Hen|S message id options error q' E|S id now held|S|S v];
    cbn [at_state at_queue sy_server sy_schedule]; intros Hok Hwf; [| | |by split|by split|by split| |by split].
  - pose proof (scan_run t (sy_server S, sy_schedule S)) as Hs. pose proof (scan_wf t (sy_server S, sy_schedule S) Hwf) as Hw.
    destruct (scan w t _) as [r [s sd]]. split; [by eapply same_run_ok|done].
  - destruct (fill_spec t (sy_server S, sy_schedule S) Hok Hwf) as (st2 & E & Hw & _). rewrite E in Hf. injection Hf as <-.
    destruct st2 as [s sd]. split; [by eapply fill_ok|done].
  - pose proof (conversation_done_ok t i c _ Hok) as Hd. pose proof (conversation_done_wf t i c (sy_server S, sy_schedule S) Hwf) as Hw.
    by destruct (conversation_done w t i c _).
  - split; [split; [apply no_claims_ok|constructor]|done].
Qed.

(** C15: No recipient is in two conversations, and the caps hold. In every
    state the scheduler reaches, by any interleaving of scans, starts and ends
    of conversations and by any crashes, at most the configured number of
    conversations run, at most the configured number with one domain, at most
    three quarters of them (but one at least) for one sender, and no two of
    them speak for the same recipient of the same message. *)
Theorem conversations_exclusive (q0 : Queue K L) (u : option Warmup) (S : System) :
  0 ≤ li_total limits → 0 ≤ li_per_domain limits → rtc (sys_step w limits) (start_system q0 u) S →
  let run := sd_running (sy_schedule S) in
  Z.of_nat (length run) ≤ li_total limits ∧
  (∀ d, Z.of_nat (length (filter (λ r, (jb_domain (ru_job r)).2 = d) run)) ≤ li_per_domain limits) ∧
  (∀ s, Z.of_nat (length (filter (λ r, jb_sender (ru_job r) = s) run)) ≤ Z.max (li_total limits * 3 / 4) 1) ∧
  NoDup (flat_map (λ r, map (pair (jb_id (ru_job r))) (ru_recipients r)) run).
Proof.
  intros H1 H2 [[Hc Hr] _]%system_ok. cbv zeta. cbn [fst snd] in *. set (run := sd_running (sy_schedule S)) in *. destruct Hc.
  rewrite length_map in ok_total0. split_and!.
  - lia.
  - intros d. specialize (ok_per_domain0 d). etrans; [|etrans; [exact ok_per_domain0|lia]]. unfold live_of. clear -Hr.
    induction Hr as [|r run (_ & Hd & _) _ IH]; [done|]. simpl. rewrite !filter_cons, Hd. destruct (decide _); simpl length; lia.
  - intros s. specialize (ok_per_sender0 s). etrans; [|exact ok_per_sender0]. unfold live_of. clear -Hr.
    induction Hr as [|r run (_ & _ & Hd & _) _ IH]; [done|]. simpl. rewrite !filter_cons, Hd. destruct (decide _); simpl length; lia.
  - eapply sublist_NoDup; [exact ok_exclusive0|]. clear -Hr. unfold pairs.
    induction Hr as [|r run (Hid & _ & _ & Hsub) _ IH]; simpl; [constructor|]. apply sublist_app; [|exact IH]. rewrite Hid. by apply fmap_sublist.
Qed.

(** C16: The scheduler always finishes filling its slots, and leaves none free
    that a waiting job could take. In every state it reaches, filling ends,
    and each job that still waits is one whose domain or sender has its share
    of the conversations, or there is no slot at all. *)
Theorem fill_work_conserving (q0 : Queue K L) (u : option Warmup) (S : System) (t : Tick) :
  rtc (sys_step w limits) (start_system q0 u) S →
  ∃ st', fill w limits t (sy_server S, sy_schedule S) = Some st' ∧
    ∀ job, waits (sd_waiting st'.2) job → no_slot (sd_running st'.2) job.
Proof. intros [Hok Hwf]%system_ok. destruct (fill_spec t _ Hok Hwf) as (st' & E & _ & Hn). by exists st'. Qed.

End caps.

(** ** Examples *)

#[local] Existing Instance ascii_unicode.
#[local] Existing Instance example_certificates.
#[local] Existing Instance example_idna.
#[local] Existing Instance example_uuids.
#[local] Existing Instance example_sink.
#[local] Existing Instance example_log.

Definition example_limits : Limits := new_limits 0 0.

Local Notation system := (System (K := list bool) (L := list bool)).

Definition state_of (S : system) := (sy_server S, sy_schedule S).

Definition system_stored : system :=
  at_queue (start_system (example_queue [] []) None)
    (on_disk (store_with example_sent 7 (example_options false)) (example_queue [] [])).2 [(7, example_entry false)].
Definition system_scanned : system := at_state system_stored (scan (example_worker false) (example_tick 100) (state_of system_stored)).2 [] [100].
Definition system_filled : system :=
  at_state system_scanned
    (default (state_of system_scanned) (fill (example_worker false) example_limits (example_tick 100) (state_of system_scanned))) [] [100].

(** The conversation that runs, if one does. *)
Definition example_running : option Running := sd_running (sy_schedule system_filled) !! 0%nat.

Definition system_ended : system :=
  at_state system_filled (conversation_done (example_worker false) (example_tick 101) 0 example_talk (state_of system_filled))
    [(match example_running with Some r => jb_id (ru_job r) | None => 0 end, example_talk)] [101].

Lemma example_fill : fill (example_worker false) example_limits (example_tick 100) (state_of system_scanned) =
  Some (default (state_of system_scanned) (fill (example_worker false) example_limits (example_tick 100) (state_of system_scanned))).
Proof.
  assert (H : match fill (example_worker false) example_limits (example_tick 100) (state_of system_scanned) with Some _ => true | None => false end = true)
    by (vm_compute; reflexivity).
  revert H. generalize (fill (example_worker false) example_limits (example_tick 100) (state_of system_scanned)). by intros [].
Qed.

Lemma example_runs : match example_running with Some _ => true | None => false end = true.
Proof. vm_compute. reflexivity. Qed.

Lemma system_filled_reached : rtc (sys_step (example_worker false) example_limits) (start_system (example_queue [] []) None) system_filled.
Proof.
  apply (rtc_l _ _ system_stored).
  { apply (sys_store _ _ (start_system (example_queue [] []) None) example_sent 7 (example_options false)); [apply not_elem_of_nil|vm_compute; reflexivity..]. }
  apply (rtc_l _ _ system_scanned); [apply sys_scan|]. apply rtc_once, (sys_fill _ _ system_scanned (example_tick 100)), example_fill.
Qed.

Lemma system_ended_reached : rtc (sys_step (example_worker false) example_limits) (start_system (example_queue [] []) None) system_ended.
Proof.
  eapply rtc_r; [apply system_filled_reached|]. unfold system_ended. pose proof example_runs as H. unfold example_running in *.
  destruct (sd_running (sy_schedule system_filled) !! 0%nat) as [r|] eqn:E; [|done].
  apply (sys_ended _ _ system_filled (example_tick 101) 0 example_talk r E).
Qed.


Lemma conversations_exclusive_witness :
  length (sd_running (sy_schedule system_filled)) = 1%nat ∧
  NoDup (flat_map (λ r, map (pair (jb_id (ru_job r))) (ru_recipients r)) (sd_running (sy_schedule system_filled))).
Proof.
  split; [vm_compute; reflexivity|].
  apply (conversations_exclusive (example_worker false) example_limits (example_queue [] []) None system_filled); [vm_compute; discriminate..|].
  apply system_filled_reached.
Defined.

Lemma fill_work_conserving_witness :
  ∃ st', fill (example_worker false) example_limits (example_tick 102) (sy_server system_filled, sy_schedule system_filled) = Some st' ∧
    ∀ job, waits (sd_waiting st'.2) job → no_slot example_limits (sd_running st'.2) job.
Proof. apply (fill_work_conserving (example_worker false) example_limits (example_queue [] []) None system_filled), system_filled_reached. Defined.
