(* ===== verification/Routing.v ===== *)
(** The sink behind the sessions (src/src/storage/routing/mod.rs and
    forward.rs), which splits a message between the mailboxes, the outbound
    spool and the way back of a rewritten sender; with the delivery rules
    (src/src/rules/mod.rs) and the TLS-Required field
    (src/src/queue/tls_required.rs).

    The outbound spool is an interface, [Spool]; ARC sealing, DKIM signing and
    the reading of the author are another, [Signing]. One moment stands for
    the clock reads of a delivery. Evidence, webhooks, metrics and the log are
    left out. *)

From stdpp Require Import gmap.
From S2P Require Import Prelude RustStd Utf8 Slices HeaderBlock HeaderRewrite HeaderStrip Address Directory SmtpReply SmtpSession.
From S2P Require Import SieveMatch SieveInterp MailboxPath Srs Bounce LocalDelivery.

Local Open Scope Z_scope.

(** ** Delivery rules *)

Record Rule := mkRule {
  ru_sender_domain : option (list Z);
  ru_header : option (list Z);
  ru_header_contains : option (list Z);
  ru_junk : bool;
  ru_mailbox : option (list Z)
}.

(** [split_inclusive] at CR LF. *)
Fixpoint crlf_lines (s : list Z) : list (list Z) :=
  match s with
  | [] => []
  | c :: rest =>
      let grow c l := match l with [] => [[c]] | p :: ps => (c :: p) :: ps end in
      match rest with
      | d :: rest' => if (c =? CR) && (d =? LF) then [c; d] :: crlf_lines rest' else grow c (crlf_lines rest)
      | [] => [[c]]
      end
  end.

(** The continuation lines that follow. *)
Fixpoint absorb (value : list Z) (lines : list (list Z)) : list Z :=
  match lines with
  | cont :: lines =>
      if starts_with [32] cont || starts_with [9] cont then absorb (value ++ 32 :: trim cont) lines else value
  | [] => value
  end.

Fixpoint find_header (prefix : list Z) (lines : list (list Z)) : option (list Z) :=
  match lines with
  | [] => None
  | line :: lines =>
      if starts_with prefix (to_ascii_lowercase line) then Some (absorb (trim (drop (length prefix) line)) lines)
      else find_header prefix lines
  end.

Definition rule_header_value (raw name : list Z) : option (list Z) :=
  let end_ := match window_position CRLFCRLF raw with Some i => (i + 2)%nat | None => length raw end in
  headers ← from_utf8 (take end_ raw);
  find_header (to_ascii_lowercase (name ++ [COLON])) (crlf_lines headers).

Definition rule_matches (rule : Rule) (raw : list Z) (sender_domain : option (list Z)) : bool :=
  match ru_sender_domain rule with
  | Some want => match sender_domain with Some got => eq_ignore_ascii_case got want | None => false end
  | None => true
  end &&
  match ru_header rule, ru_header_contains rule with
  | Some name, Some needle =>
      match rule_header_value raw name with
      | Some value => contains_str (to_ascii_lowercase value) (to_ascii_lowercase needle)
      | None => false
      end
  | _, _ => true
  end &&
  (bool_decide (is_Some (ru_sender_domain rule)) ||
   bool_decide (is_Some (ru_header rule)) && bool_decide (is_Some (ru_header_contains rule))).

Definition evaluate_rules (rules : list Rule) (raw : list Z) (sender_domain : option (list Z)) : option Rule :=
  List.find (λ rule, rule_matches rule raw sender_domain) rules.

(** ** TLS-Required *)

Definition TLS_REQUIRED : list Z := lit "tls-required".

Definition tls_optional (data : list Z) : bool :=
  match header_values data TLS_REQUIRED with [value] => eq_ignore_ascii_case value (lit "no") | _ => false end.

Definition strip_tls_required (data : list Z) : list Z :=
  if bool_decide (header_values data TLS_REQUIRED = []) then data else strip_headers data [TLS_REQUIRED].

(** ** The sink *)

Class Signing := {
  arc_seal : list Z → option (list Z);
  sign : list Z → list Z → option (list Z);
  author_domain : list Z → option (list Z)
}.

(** The account the message is stored for, and the message. *)
Class Spool (O : Type) := { spool_store : option (list Z) → AcceptedMessage → O → result (list Z) unit * O }.

(** A message is in the queue once it is stored, and not when it is not. *)
Class SpoolLaws O `{Spool O} := {
  queued : O → list AcceptedMessage;
  store_queued account m o o' : spool_store account m o = (Ok tt, o') → queued o' = queued o ++ [m];
  store_failed account m o o' why : spool_store account m o = (Err why, o') → queued o' = queued o
}.

Record SplitDelivery := mkSplit {
  sd_local : LocalDelivery;
  sd_rules : list Rule;
  sd_srs : option (list Z);
  sd_auto_submitted : bool
}.

Record Moment := mkMoment { mo_clock : Z; mo_secs : Z; mo_date : list Z }.

Definition mo_days (t : Moment) : Z := mo_secs t / 86400.

Definition SRS_MAX_AGE_DAYS : Z := 14.

Section routing.
Context `{UC : Unicode} `{MO : MapOrder} {S O : Type} `{MS : MailStore S} `{CO : Composer} `{SP : Spool O} `{SK : SrsKey} `{SG : Signing}.

Definition forward_sender (sd : SplitDelivery) (t : Moment) (original : list Z) : list Z :=
  if is_empty original then []
  else match sd_srs sd with
       | None => original
       | Some our_domain =>
           match rsplit_once AT original with
           | None => original
           | Some (local, domain) => Srs.forward local domain our_domain (mo_days t)
           end
       end.

(** The outer [None] is the panic of [Srs::reverse]. *)
Definition srs_return (sd : SplitDelivery) (t : Moment) (recipient : list Z) : option (option (list Z)) :=
  match sd_srs sd with
  | None => Some None
  | Some our_domain =>
      match rsplit_once AT recipient with
      | None => Some None
      | Some (local, domain) =>
          if negb (eq_ignore_ascii_case domain our_domain) then Some None
          else
            r ← Srs.reverse local (mo_days t) SRS_MAX_AGE_DAYS;
            Some (match r with Some (orig_local, orig_domain) => Some (orig_local ++ AT :: orig_domain) | None => None end)
      end
  end.

Definition target_mailbox (sd : SplitDelivery) (message : AcceptedMessage) : option (list Z) :=
  let sender_domain := (λ p, to_ascii_lowercase p.2) <$> rsplit_once AT (msg_reverse_path message) in
  rule ← evaluate_rules (sd_rules sd) (msg_data message) sender_domain;
  match ru_mailbox rule with
  | Some mailbox => Some mailbox
  | None => if ru_junk rule then Some (lit "Junk") else None
  end.

(** ** Which recipients are local *)

Record Split := mkSplitRecipients { sp_local : list (list Z); sp_remote : list (list Z); sp_returns : list (list Z) }.

Fixpoint split_recipients (sd : SplitDelivery) (t : Moment) (recipients : list (list Z)) (sp : Split)
    : option (result SinkError Split) :=
  match recipients with
  | [] => Some (Ok sp)
  | recipient :: recipients =>
      back ← srs_return sd t recipient;
      match back with
      | Some original =>
          split_recipients sd t recipients (mkSplitRecipients (sp_local sp) (sp_remote sp) (sp_returns sp ++ [original]))
      | None =>
          match parse_address recipient with
          | Err _ => Some (Err (Unavailable (lit "unparseable recipient " ++ recipient)))
          | Ok address =>
              let d := ld_directory (sd_local sd) in
              match Directory.resolve d address with
              | Account _ | Alias _ =>
                  split_recipients sd t recipients (mkSplitRecipients (sp_local sp ++ [recipient]) (sp_remote sp) (sp_returns sp))
              | NotLocal =>
                  split_recipients sd t recipients (mkSplitRecipients (sp_local sp) (sp_remote sp ++ [recipient]) (sp_returns sp))
              | UnknownUser =>
                  let what := lit "recipient " ++ recipient ++ lit " no longer resolves" in
                  Some (Err (if Directory.is_paused d address then Unavailable what else Gone what))
              end
          end
      end
  end.

(** ** What is queued *)

Definition routing (A : Type) : Type := S * O → option (result SinkError A * (S * O)).

Definition r_ret {A} (a : A) : routing A := λ st, Some (Ok a, st).
Definition r_bind {A B} (m : routing A) (k : A → routing B) : routing B := λ st,
  match m st with
  | Some (Ok a, st) => k a st
  | Some (Err e, st) => Some (Err e, st)
  | None => None
  end.

Fixpoint r_each {A} (f : A → routing unit) (l : list A) : routing unit :=
  match l with [] => r_ret tt | a :: l => r_bind (f a) (λ _, r_each f l) end.

Definition store (account : option (list Z)) (m : AcceptedMessage) : routing unit := λ '(s, o),
  let '(r, o) := spool_store account m o in
  Some (match r with Ok _ => Ok tt | Err why => Err (Unavailable why) end, (s, o)).

Definition store_outbound (m : AcceptedMessage) : routing unit := store None m.

(** A failure is only logged. *)
Definition store_or_log (m : AcceptedMessage) : routing unit := λ st,
  match store_outbound m st with Some (_, st) => Some (Ok tt, st) | None => None end.

Definition hosts_domain (d : Directory.t) (name : list Z) : bool :=
  let name := to_ascii_lowercase name in
  bool_decide (name ∈ Directory.domains d) || bool_decide (is_Some (Directory.domain_aliases d !! name)).

Definition signing_domain (sd : SplitDelivery) (message : AcceptedMessage) : option (list Z) :=
  let envelope := (λ p, to_ascii_lowercase p.2) <$> rsplit_once AT (msg_reverse_path message) in
  match author_domain (msg_data message) with
  | Some from => if hosts_domain (ld_directory (sd_local sd)) from then Some from else envelope
  | None => envelope
  end.

Definition with_data (m : AcceptedMessage) (data : list Z) : AcceptedMessage :=
  SmtpSession.mkMessage (msg_reverse_path m) (msg_recipients m) data (msg_require_tls m) (msg_mailbox m)
    (msg_tlsrpt_verified m) (msg_sender_verified m) (msg_no_dsn m).

Definition signed_message (sd : SplitDelivery) (m : AcceptedMessage) : AcceptedMessage :=
  match (domain ← signing_domain sd m; sign domain (msg_data m)) with
  | Some header => with_data m (as_bytes header ++ msg_data m)
  | None => m
  end.

Definition sign_outbound (sd : SplitDelivery) (m : AcceptedMessage) : AcceptedMessage :=
  signed_message sd (with_data m (outbound_crlf (msg_data m))).

Definition sign_reply (sd : SplitDelivery) (m : AcceptedMessage) : AcceptedMessage :=
  signed_message sd (with_data m (frame_generated (msg_data m))).

(** A message the sink queues for one recipient. *)
Definition onward (reverse_path recipient data : list Z) : AcceptedMessage :=
  SmtpSession.mkMessage reverse_path [recipient] data false None false false [].

Definition queue_redirects (sd : SplitDelivery) (t : Moment) (message : AcceptedMessage) (l : list Redirect) : routing unit :=
  r_each (λ redirect,
    let data := forwarded_copy (rd_delivered_to redirect) (msg_data message) in
    let data := match arc_seal data with Some headers => as_bytes headers ++ data | None => data end in
    store_outbound (onward (forward_sender sd t (msg_reverse_path message)) (rd_to redirect) data)) l.

(** [x.rsplit_once('@').map_or("localhost", ...)] of the first address. *)
Definition host_of (addresses : list (list Z)) : list Z :=
  match head addresses ≫= rsplit_once AT with Some (_, domain) => domain | None => lit "localhost" end.

Definition bounce_loops (sd : SplitDelivery) (t : Moment) (message : AcceptedMessage) (l : list (list Z)) : routing unit :=
  let recipients :=
    map (λ address, new_recipient address (lit "554 5.4.6 mail forwarding loop for " ++ address))
      (List.filter (λ address, negb (existsb (str_eqb address) (msg_no_dsn message))) l) in
  if bool_decide (recipients = []) then r_ret tt
  else match build_failed (host_of l) (msg_reverse_path message) recipients (msg_data message) (mo_date t) (mo_secs t) (sd_auto_submitted sd) with
       | Some bounce => store_outbound bounce
       | None => r_ret tt
       end.

(** ** What follows a local delivery *)

Record LocalDone := mkDone { dn_recipients : list (list Z); dn_reject : option (list Z) }.

Definition no_dsn_for (message : AcceptedMessage) (address : list Z) : bool := existsb (str_eqb address) (msg_no_dsn message).

(** [local] are the local recipients of [message]. *)
Definition bounce_reject (sd : SplitDelivery) (t : Moment) (account : option (list Z)) (message : AcceptedMessage)
    (local : list (list Z)) (reject : option (list Z)) : routing unit :=
  match reject with
  | None => r_ret tt
  | Some reason =>
      let dsn_recipients := List.filter (λ r, negb (no_dsn_for message r)) local in
      if bool_decide (dsn_recipients = []) then r_ret tt
      else match build (host_of local) (msg_reverse_path message) dsn_recipients reason (msg_data message) (mo_date t) (mo_secs t) (sd_auto_submitted sd) with
           | Some bounce => store account bounce
           | None => r_ret tt
           end
  end.

(** Whether a recipient that asked for no notice reaches the address. *)
Definition silenced_by (d : Directory.t) (message : AcceptedMessage) (recipient original : list Z) : bool :=
  no_dsn_for message original &&
  match parse_address original with
  | Ok address =>
      match Directory.final_recipients d address with
      | Some finals => existsb (λ f, str_eqb f.2 recipient) finals
      | None => false
      end
  | Err _ => false
  end.

Definition full_recipients (d : Directory.t) (message : AcceptedMessage) (local over_quota : list (list Z)) : list (list Z) :=
  List.filter (λ r, negb (no_dsn_for message r) && negb (existsb (silenced_by d message r) local)) over_quota.

Definition bounce_full (sd : SplitDelivery) (t : Moment) (message : AcceptedMessage) (local over_quota : list (list Z)) : routing unit :=
  let full := full_recipients (ld_directory (sd_local sd)) message local over_quota in
  if bool_decide (full = []) then r_ret tt
  else match build (host_of full) (msg_reverse_path message) full (lit "552 5.2.2 mailbox full") (msg_data message) (mo_date t) (mo_secs t)
               (sd_auto_submitted sd) with
       | Some report => store_or_log report
       | None => r_ret tt
       end.

Definition send_replies (sd : SplitDelivery) (account : option (list Z)) (l : list AcceptedMessage) : routing unit :=
  r_each (λ reply, store account (sign_reply sd reply)) l.

Definition after_local (sd : SplitDelivery) (t : Moment) (account : option (list Z)) (message : AcceptedMessage)
    (local : list (list Z)) (d : Delivered) : routing unit :=
  r_bind (bounce_reject sd t account message local (reject d)) (λ _,
  r_bind (bounce_full sd t message local (over_quota d)) (λ _,
  r_bind (queue_redirects sd t message (redirects d)) (λ _,
  r_bind (bounce_loops sd t message (looped d)) (λ _,
  send_replies sd account (replies d))))).

(** ** Routing *)

Definition with_recipients (m : AcceptedMessage) (recipients : list (list Z)) : AcceptedMessage :=
  SmtpSession.mkMessage (msg_reverse_path m) recipients (msg_data m) (msg_require_tls m) (msg_mailbox m)
    (msg_tlsrpt_verified m) (msg_sender_verified m) (msg_no_dsn m).

(** A mailbox that is full does not keep the message from the others. *)
Definition deliver_local (sd : SplitDelivery) (t : Moment) (message : AcceptedMessage) (sp : Split) : routing Delivered := λ '(s, o),
  let mailbox := match msg_mailbox message with Some m => Some m | None => target_mailbox sd message end in
  match deliver_routed (sd_local sd) (mo_clock t) (mo_secs t) (with_recipients message (sp_local sp)) mailbox s with
  | None => None
  | Some (Ok d, s) => Some (Ok d, (s, o))
  | Some (Err (MailboxFull why), s) =>
      if negb (bool_decide (sp_remote sp = [])) || negb (bool_decide (sp_returns sp = []))
      then Some (Ok (mkDelivered (sp_local sp) [] None [] []), (s, o))
      else Some (Err (MailboxFull why), (s, o))
  | Some (Err e, s) => Some (Err e, (s, o))
  end.

Definition route_remote (sd : SplitDelivery) (account : option (list Z)) (message : AcceptedMessage) (presigned : option (list Z))
    (remote : list (list Z)) : routing unit :=
  if bool_decide (remote = []) then r_ret tt
  else
    let outbound := with_recipients message remote in
    store account (match presigned with Some signed => with_data outbound signed | None => sign_outbound sd outbound end).

Definition route_rest (sd : SplitDelivery) (account : option (list Z)) (message : AcceptedMessage) (presigned : option (list Z))
    (sp : Split) : routing unit :=
  r_bind (r_each (λ original, store account (onward (msg_reverse_path message) original (msg_data message))) (sp_returns sp))
    (λ _, route_remote sd account message presigned (sp_remote sp)).

(** The result, and what was done locally, also when a later step failed. *)
Definition route_reporting (sd : SplitDelivery) (t : Moment) (account : option (list Z)) (message : AcceptedMessage)
    (presigned : option (list Z)) (st : S * O) : option (result SinkError unit * option LocalDone * (S * O)) :=
  match split_recipients sd t (msg_recipients message) (mkSplitRecipients [] [] []) with
  | None => None
  | Some (Err e) => Some (Err e, None, st)
  | Some (Ok sp) =>
      if bool_decide (sp_local sp = []) then
        match route_rest sd account message presigned sp st with Some (r, st) => Some (r, None, st) | None => None end
      else
        match deliver_local sd t message sp st with
        | None => None
        | Some (Err e, st) => Some (Err e, None, st)
        | Some (Ok d, st) =>
            let done := Some (mkDone (sp_local sp) (reject d)) in
            match r_bind (after_local sd t account message (sp_local sp) d) (λ _, route_rest sd account message presigned sp) st with
            | Some (r, st) => Some (r, done, st)
            | None => None
            end
        end
  end.

Definition route_classed (sd : SplitDelivery) (t : Moment) (account : option (list Z)) (message : AcceptedMessage)
    (presigned : option (list Z)) : routing unit := λ st,
  match route_reporting sd t account message presigned st with Some (r, _, st) => Some (r, st) | None => None end.

Definition deliver (sd : SplitDelivery) (t : Moment) (message : AcceptedMessage) : routing unit :=
  route_classed sd t None (with_data message (strip_tls_required (msg_data message))) None.

(** A report that is in a mailbox is not sent again. *)
Definition deliver_report (sd : SplitDelivery) (t : Moment) (message : AcceptedMessage) : routing unit := λ st,
  match route_reporting sd t None (with_data message (strip_tls_required (msg_data message))) None st with
  | Some (Err _, Some _, st) => Some (Ok tt, st)
  | Some (r, _, st) => Some (r, st)
  | None => None
  end.

Definition WARNING_HEADER : list Z := lit "X-Epistle-Attachment-Warning".

(** A submission that keeps no evidence. *)
Definition submit (sd : SplitDelivery) (t : Moment) (account : list Z) (message : AcceptedMessage) : routing unit := λ st,
  match strip_headers_in_place (msg_data message) [WARNING_HEADER] with
  | None => None
  | Some data => route_classed sd t (Some account) (with_data message data) None st
  end.

End routing.

(** ** What the steps queue *)

Section theory.
Context `{UC : Unicode} `{MO : MapOrder} {S O : Type} `{MS : MailStore S} `{ML : !MailStoreLaws S} `{CO : Composer}
  `{SP : Spool O} `{SL : !SpoolLaws O} `{SK : SrsKey} `{SG : Signing}.

(** [m] answers and leaves the mailboxes alone; every message it queues is one
    of [Q], and if it succeeds, what it queued after what was there satisfies
    [P]. *)
Definition emits (m : routing (S := S) (O := O) unit) (Q : AcceptedMessage → Prop)
    (P : list AcceptedMessage → list AcceptedMessage → Prop) : Prop :=
  ∀ st, ∃ r st' new, m st = Some (r, st') ∧ st'.1 = st.1 ∧ queued st'.2 = queued st.2 ++ new ∧ Forall Q new ∧
    (r = Ok tt → P (queued st.2) new).

Lemma emits_ret Q (P : list AcceptedMessage → list AcceptedMessage → Prop) : (∀ q, P q []) → emits (r_ret tt) Q P.
Proof. intros HP st. exists (Ok tt), st, []. rewrite app_nil_r. split_and!; [done..|constructor|auto]. Qed.

Lemma emits_store account m (Q : AcceptedMessage → Prop) (P : list AcceptedMessage → list AcceptedMessage → Prop) :
  Q m → (∀ q, P q [m]) → emits (store account m) Q P.
Proof.
  intros HQ HP [s o]. unfold store. destruct (spool_store account m o) as [r o'] eqn:E. destruct r as [[]|why].
  - exists (Ok tt), (s, o'), [m]. apply store_queued in E. split_and!; [done..|by constructor|auto].
  - exists (Err (Unavailable why)), (s, o'), []. apply store_failed in E. rewrite app_nil_r. split_and!; [done..|constructor|done].
Qed.

Lemma emits_bind m k Q (P1 P2 P : list AcceptedMessage → list AcceptedMessage → Prop) :
  emits m Q P1 → emits k Q P2 → (∀ q n1 n2, P1 q n1 → P2 (q ++ n1) n2 → P q (n1 ++ n2)) → emits (r_bind m (λ _, k)) Q P.
Proof.
  intros Hm Hk HP st. destruct (Hm st) as (r & st1 & n1 & Hr & Hs1 & Hq1 & HQ1 & HP1). unfold r_bind. rewrite Hr.
  destruct r as [[]|e]; [|exists (Err e), st1, n1; done].
  destruct (Hk st1) as (r & st2 & n2 & Hr2 & Hs2 & Hq2 & HQ2 & HP2). exists r, st2, (n1 ++ n2). rewrite Hq1 in HP2.
  rewrite Hr2, Hs2, Hq2, Hq1, app_assoc. split_and!; [done..|by apply Forall_app|]. intros ->. auto.
Qed.

Lemma emits_weaken m (Q Q' : AcceptedMessage → Prop) (P P' : list AcceptedMessage → list AcceptedMessage → Prop) :
  emits m Q P → (∀ x, Q x → Q' x) → (∀ q n, P q n → P' q n) → emits m Q' P'.
Proof.
  intros Hm HQ HP st. destruct (Hm st) as (r & st' & new & Hr & Hs & Hq & HQn & HPn). exists r, st', new.
  split_and!; try done; [by eapply Forall_impl|auto].
Qed.

Lemma emits_each {A} account (f : A → AcceptedMessage) l (Q : AcceptedMessage → Prop) :
  Forall (λ a, Q (f a)) l → emits (r_each (λ a, store account (f a)) l) Q (λ _ new, new = map f l).
Proof.
  induction 1 as [|a l Ha _ IH]; [by apply emits_ret|]. cbn [r_each].
  eapply (emits_bind _ _ _ (λ _ new, new = [f a])); [by apply emits_store|exact IH|]. by intros ? ? ? -> ->.
Qed.

(** ** Reports *)

(** A report of [message] that names [a]. *)
Definition reports_on (message : AcceptedMessage) (a : list Z) (m : AcceptedMessage) : Prop :=
  report_on (msg_reverse_path message) (msg_data message) a m.

(** Why a sender hears nothing of a message that was not delivered to [a]:
    it has none, or one no field can hold; one of the addresses of the report
    is no address; a recipient asked for no notice; or the spool, which held
    [q] and a part of [new], did not take the report of a full mailbox. *)
Inductive silent (message : AcceptedMessage) (local addresses : list (list Z)) (q new : list AcceptedMessage) (a : list Z) : Prop :=
| silent_null : msg_reverse_path message = [] → silent message local addresses q new a
| silent_sender : bad_sender (msg_reverse_path message) = true → silent message local addresses q new a
| silent_address b : b ∈ addresses → is_address b = false → silent message local addresses q new a
| silent_notify r : r ∈ msg_no_dsn message → r = a ∨ r ∈ local → silent message local addresses q new a
| silent_spool report part o o' why :
    reports_on message a report → part `prefix_of` new → queued o = q ++ part →
    spool_store None report o = (Err why, o') → silent message local addresses q new a.

(** The sender is told, or there is a reason not to. *)
Definition told (message : AcceptedMessage) (local addresses : list (list Z)) (q new : list AcceptedMessage) (a : list Z) : Prop :=
  (∃ m, m ∈ new ∧ reports_on message a m) ∨ silent message local addresses q new a.

Lemma told_one message local addresses q new a m : m ∈ new → reports_on message a m → told message local addresses q new a.
Proof. intros Hin Hr. left. by exists m. Qed.

(** What was true of a part of the messages is true of all of them. *)
Lemma told_left message local l1 l2 q n1 n2 a :
  l1 ⊆ l2 → told message local l1 q n1 a → told message local l2 q (n1 ++ n2) a.
Proof.
  intros Hl [(m & Hin & Hr)|Hs]; [left; exists m; by rewrite elem_of_app; auto|right].
  destruct Hs as [?|?|b Hb ?|r ? ?|report part o o' why ? Hp ? ?];
    [by apply silent_null|by apply silent_sender|eapply silent_address; [by apply Hl|done]|by eapply silent_notify|].
  eapply silent_spool; [done|by apply prefix_app_r|done|done].
Qed.

Lemma told_right message local l1 l2 q n1 n2 a :
  l1 ⊆ l2 → told message local l1 (q ++ n1) n2 a → told message local l2 q (n1 ++ n2) a.
Proof.
  intros Hl [(m & Hin & Hr)|Hs]; [left; exists m; by rewrite elem_of_app; auto|right].
  destruct Hs as [?|?|b Hb ?|r ? ?|report part o o' why ? Hp Hq ?];
    [by apply silent_null|by apply silent_sender|eapply silent_address; [by apply Hl|done]|by eapply silent_notify|].
  eapply (silent_spool _ _ _ _ _ _ report (n1 ++ part)); [done|by apply prefix_app|by rewrite Hq, app_assoc|done].
Qed.

Lemma build_failed_cases hostname message recipients date now auto :
  match build_failed hostname (msg_reverse_path message) recipients (msg_data message) date now auto with
  | Some m => msg_reverse_path message ≠ [] ∧ ∀ a, a ∈ map rr_recipient recipients → reports_on message a m
  | None => ∀ local q new a, silent message local (map rr_recipient recipients) q new a
  end.
Proof.
  pose proof (build_failed_result hostname (msg_reverse_path message) recipients (msg_data message) date now auto) as Hb.
  destruct (build_failed _ _ _ _ _ _ _) as [m|]; [done|].
  intros local q new a. destruct Hb as [?|[?|(b & Hb & Ha)]]; [by apply silent_null|by apply silent_sender|by eapply silent_address].
Qed.

Lemma build_cases hostname message addresses reason date now auto :
  match build hostname (msg_reverse_path message) addresses reason (msg_data message) date now auto with
  | Some m => msg_reverse_path message ≠ [] ∧ ∀ a, a ∈ addresses → reports_on message a m
  | None => ∀ local q new a, silent message local addresses q new a
  end.
Proof.
  pose proof (build_failed_cases hostname message (map (λ r, new_recipient r reason) addresses) date now auto) as H.
  rewrite map_map, map_id in H. exact H.
Qed.

Lemma no_dsn_for_true message a : no_dsn_for message a = true ↔ a ∈ msg_no_dsn message.
Proof.
  unfold no_dsn_for. rewrite existsb_exists. split.
  - intros (x & Hx & ->%str_eqb_eq). by apply list_elem_of_In.
  - intros Ha. exists a. split; [by apply list_elem_of_In|apply str_eqb_refl].
Qed.

(** What is emitted only when there is a sender. *)
Definition with_sender (message m : AcceptedMessage) : Prop := msg_reverse_path message ≠ [].

Lemma silent_more message local l1 l2 q new a :
  l1 ⊆ l2 → silent message local l1 q new a → told message local l2 q new a.
Proof. intros Hl Hs. rewrite <-(app_nil_r new). apply (told_left _ _ l1); [done|by right]. Qed.

Lemma filter_incl {A} (f : A → bool) l : List.filter f l ⊆ l.
Proof. intros r Hr. apply list_elem_of_In, filter_In in Hr as [Hr _]. by apply list_elem_of_In. Qed.

Lemma bounce_reject_emits sd t account message local reason :
  local ≠ [] →
  emits (bounce_reject sd t account message local reason) (with_sender message)
    (λ q new, is_Some reason → ∃ r, r ∈ local ∧ told message local local q new r).
Proof.
  intros Hne. unfold bounce_reject. destruct reason as [reason|]; [|apply emits_ret; by intros ? [? ?]].
  set (dsn := List.filter _ local). assert (Hdsn : dsn ⊆ local).
  { apply filter_incl. }
  destruct dsn as [|r dsn'] eqn:Ed.
  - rewrite bool_decide_true by done. apply emits_ret. intros q _. destruct local as [|r local]; [done|].
    exists r. split; [apply list_elem_of_here|]. right. apply (silent_notify _ _ _ _ _ _ r); [|by left].
    apply no_dsn_for_true. cbn in Ed. by destruct (no_dsn_for message r).
  - rewrite bool_decide_false by done. assert (Hr : r ∈ r :: dsn') by apply list_elem_of_here.
    pose proof (build_cases (host_of local) message (r :: dsn') reason (mo_date t) (mo_secs t) (sd_auto_submitted sd)) as Hb.
    destruct (build _ _ _ _ _ _ _ _) as [m|].
    + destruct Hb as [Hrp Hb]. apply emits_store; [done|]. intros q _. exists r. split; [by apply Hdsn|].
      apply (told_one _ _ _ _ _ _ m); [apply list_elem_of_here|by apply Hb].
    + apply emits_ret. intros q _. exists r. split; [by apply Hdsn|]. eapply silent_more; [exact Hdsn|apply Hb].
Qed.

Lemma store_or_log_emits m (Q : AcceptedMessage → Prop) (P : list AcceptedMessage → list AcceptedMessage → Prop) :
  Q m → (∀ q, P q [m]) → (∀ o o' why, spool_store None m o = (Err why, o') → P (queued o) []) → emits (store_or_log m) Q P.
Proof.
  intros HQ HP Hf [s o]. unfold store_or_log, store_outbound, store.
  destruct (spool_store None m o) as [[[]|why] o'] eqn:E.
  - exists (Ok tt), (s, o'), [m]. pose proof (store_queued _ _ _ _ E). split_and!; [done..|by constructor|auto].
  - exists (Ok tt), (s, o'), []. pose proof (store_failed _ _ _ _ _ E). rewrite app_nil_r.
    split_and!; [done..|constructor|]. intros _. by eapply Hf.
Qed.

Lemma bounce_full_emits sd t message local over :
  emits (bounce_full sd t message local over) (with_sender message) (λ q new, ∀ a, a ∈ over → told message local over q new a).
Proof.
  unfold bounce_full. set (d := ld_directory (sd_local sd)). set (full := full_recipients d message local over).
  assert (Hfull : full ⊆ over).
  { apply filter_incl. }
  assert (Hsplit : ∀ q new a, a ∈ over → a ∈ full ∨ silent message local over q new a).
  { intros q new a Ha. destruct (no_dsn_for message a) eqn:En.
    { right. apply (silent_notify _ _ _ _ _ _ a); [by apply no_dsn_for_true|by left]. }
    destruct (existsb (silenced_by d message a) local) eqn:Es.
    - right. apply existsb_exists in Es as (r & Hr & Hs). apply andb_prop in Hs as [Hs _].
      apply (silent_notify _ _ _ _ _ _ r); [by apply no_dsn_for_true|right; by apply list_elem_of_In].
    - left. apply list_elem_of_In, filter_In. split; [by apply list_elem_of_In|]. by rewrite En, Es. }
  destruct (decide (full = [])) as [He|He].
  - rewrite bool_decide_true by done. apply emits_ret. intros q a Ha. right. destruct (Hsplit q [] a Ha) as [Hin|]; [|done].
    rewrite He in Hin. by apply elem_of_nil in Hin.
  - rewrite bool_decide_false by done.
    pose proof (build_cases (host_of full) message full (lit "552 5.2.2 mailbox full") (mo_date t) (mo_secs t) (sd_auto_submitted sd)) as Hb.
    destruct (build _ _ _ _ _ _ _ _) as [m|].
    + destruct Hb as [Hrp Hb]. apply store_or_log_emits; [done| |].
      * intros q a Ha. destruct (Hsplit q [m] a Ha) as [Hin|]; [|by right]. apply (told_one _ _ _ _ _ _ m); [apply list_elem_of_here|by apply Hb].
      * intros o o' why Hf a Ha. right. destruct (Hsplit (queued o) [] a Ha) as [Hin|]; [|done].
        eapply (silent_spool _ _ _ _ _ _ m []); [by apply Hb|done|by rewrite app_nil_r|done].
    + apply emits_ret. intros q a Ha. destruct (Hsplit q [] a Ha) as [Hin|]; [|by right]. eapply silent_more; [exact Hfull|apply Hb].
Qed.

Lemma bounce_loops_emits sd t message local l :
  emits (bounce_loops sd t message l) (with_sender message) (λ q new, ∀ a, a ∈ l → told message local l q new a).
Proof.
  unfold bounce_loops. set (kept := List.filter _ l).
  assert (Hkept : kept ⊆ l).
  { apply filter_incl. }
  assert (Hsplit : ∀ q new a, a ∈ l → a ∈ kept ∨ silent message local l q new a).
  { intros q new a Ha. destruct (no_dsn_for message a) eqn:En.
    - right. apply (silent_notify _ _ _ _ _ _ a); [by apply no_dsn_for_true|by left].
    - left. apply list_elem_of_In, filter_In. split; [by apply list_elem_of_In|]. unfold no_dsn_for in En. by rewrite En. }
  set (recipients := map _ kept). assert (Hm : map rr_recipient recipients = kept) by (unfold recipients; by rewrite map_map, map_id).
  destruct (decide (recipients = [])) as [He|He].
  - rewrite bool_decide_true by done. apply emits_ret. intros q a Ha. right. destruct (Hsplit q [] a Ha) as [Hin|]; [|done].
    rewrite <-Hm, He in Hin. by apply elem_of_nil in Hin.
  - rewrite bool_decide_false by done.
    pose proof (build_failed_cases (host_of l) message recipients (mo_date t) (mo_secs t) (sd_auto_submitted sd)) as Hb. rewrite Hm in Hb.
    destruct (build_failed _ _ _ _ _ _ _) as [m|].
    + destruct Hb as [Hrp Hb]. apply emits_store; [done|]. intros q a Ha. destruct (Hsplit q [m] a Ha) as [Hin|]; [|by right].
      apply (told_one _ _ _ _ _ _ m); [apply list_elem_of_here|by apply Hb].
    + apply emits_ret. intros q a Ha. destruct (Hsplit q [] a Ha) as [Hin|]; [|by right]. eapply silent_more; [exact Hkept|apply Hb].
Qed.

(** ** After the local delivery *)

(** The copy of a forward, with whatever seal, is in the queue. *)
Definition forwarded (sd : SplitDelivery) (t : Moment) (message : AcceptedMessage) (new : list AcceptedMessage) (r : Redirect) : Prop :=
  ∃ seal, onward (forward_sender sd t (msg_reverse_path message)) (rd_to r)
    (seal ++ forwarded_copy (rd_delivered_to r) (msg_data message)) ∈ new.

Lemma queue_redirects_emits sd t message l :
  (msg_reverse_path message = [] → l = []) →
  emits (queue_redirects sd t message l) (with_sender message) (λ _ new, ∀ r, r ∈ l → forwarded sd t message new r).
Proof.
  intros Hl. unfold queue_redirects, store_outbound. eapply (emits_weaken _ (with_sender message)); [apply emits_each| |].
  - apply Forall_forall. intros r Hr Hn. rewrite Hl in Hr by done. by apply elem_of_nil in Hr.
  - done.
  - intros q n -> r Hr. unfold forwarded. set (data := forwarded_copy _ _).
    exists (match arc_seal data with Some headers => as_bytes headers | None => [] end).
    apply list_elem_of_In, in_map_iff. exists r. split; [|by apply list_elem_of_In]. fold data. by destruct (arc_seal data).
Qed.

Lemma send_replies_emits sd account message l :
  (msg_reverse_path message = [] → l = []) → emits (send_replies sd account l) (with_sender message) (λ _ _, True).
Proof.
  intros Hl. eapply (emits_weaken _ (with_sender message)); [apply emits_each| |]; [|done..].
  apply Forall_forall. intros r Hr Hn. rewrite Hl in Hr by done. by apply elem_of_nil in Hr.
Qed.

(** The addresses the reports of a delivery may name. *)
Definition notice_addresses (local : list (list Z)) (d : Delivered) : list (list Z) := local ++ over_quota d ++ looped d.

Record handled (sd : SplitDelivery) (t : Moment) (message : AcceptedMessage) (local : list (list Z)) (d : Delivered)
    (q new : list AcceptedMessage) : Prop := {
  h_reject : is_Some (reject d) → ∃ r, r ∈ local ∧ told message local (notice_addresses local d) q new r;
  h_quota a : a ∈ over_quota d → told message local (notice_addresses local d) q new a;
  h_redirects r : r ∈ redirects d → forwarded sd t message new r;
  h_looped a : a ∈ looped d → told message local (notice_addresses local d) q new a
}.

Lemma forwarded_app sd t message n1 n2 r :
  forwarded sd t message n1 r ∨ forwarded sd t message n2 r → forwarded sd t message (n1 ++ n2) r.
Proof. unfold forwarded. intros [[seal Hs]|[seal Hs]]; exists seal; apply elem_of_app; auto. Qed.

Lemma after_local_emits sd t account message local d :
  local ≠ [] → (msg_reverse_path message = [] → redirects d = [] ∧ replies d = []) →
  emits (after_local sd t account message local d) (with_sender message) (handled sd t message local d).
Proof.
  intros Hne Hnull.
  assert (Hsub : local ⊆ notice_addresses local d ∧ over_quota d ⊆ notice_addresses local d ∧ looped d ⊆ notice_addresses local d).
  { unfold notice_addresses. split_and!; intros x Hx; rewrite !elem_of_app; auto. }
  destruct Hsub as (Hs1 & Hs2 & Hs3). unfold after_local.
  pose proof (bounce_reject_emits sd t account message local (reject d) Hne) as H1.
  pose proof (bounce_full_emits sd t message local (over_quota d)) as H2.
  pose proof (queue_redirects_emits sd t message (redirects d) (λ Hn, proj1 (Hnull Hn))) as H3.
  pose proof (bounce_loops_emits sd t message local (looped d)) as H4.
  pose proof (send_replies_emits sd account message (replies d) (λ Hn, proj2 (Hnull Hn))) as H5.
  set (T := told message local (notice_addresses local d)).
  assert (H45 : emits (r_bind (bounce_loops sd t message (looped d)) (λ _, send_replies sd account (replies d))) (with_sender message)
    (λ q new, ∀ a, a ∈ looped d → T q new a)).
  { eapply emits_bind; [exact H4|exact H5|]. intros q n4 n5 Hp4 _ a Ha. eapply told_left; [exact Hs3|by apply Hp4]. }
  assert (H35 := emits_bind _ _ _ _ _ (λ q new, (∀ r, r ∈ redirects d → forwarded sd t message new r) ∧ ∀ a, a ∈ looped d → T q new a) H3 H45).
  assert (H25 := emits_bind _ _ _ _ _ (λ q new, (∀ a, a ∈ over_quota d → T q new a) ∧
    (∀ r, r ∈ redirects d → forwarded sd t message new r) ∧ ∀ a, a ∈ looped d → T q new a) H2 (H35 ltac:(
      intros q n3 n45 Hp3 Hp4; split; [intros r Hr; apply forwarded_app; left; by apply Hp3
        |intros a Ha; eapply told_right; [reflexivity|by apply Hp4]]))).
  eapply emits_bind; [exact H1|apply H25|].
  - intros q n2 n35 Hp2 [Hp3 Hp4]. split_and!.
    + intros a Ha. eapply told_left; [exact Hs2|by apply Hp2].
    + intros r Hr. apply forwarded_app. right. by apply Hp3.
    + intros a Ha. eapply told_right; [reflexivity|by apply Hp4].
  - intros q n1 n25 Hp1 (Hp2 & Hp3 & Hp4). split.
    + intros Hr. destruct (Hp1 Hr) as (r & Hin & Ht). exists r. split; [done|]. eapply told_left; [exact Hs1|exact Ht].
    + intros a Ha. eapply told_right; [reflexivity|by apply Hp2].
    + intros r Hr. apply forwarded_app. right. by apply Hp3.
    + intros a Ha. eapply told_right; [reflexivity|by apply Hp4].
Qed.

(** ** Remote recipients and the way back *)

(** The copy of the remote recipients: the message, framed and perhaps signed. *)
Record remote_copy (message : AcceptedMessage) (remote : list (list Z)) (m : AcceptedMessage) : Prop := {
  rc_recipients : msg_recipients m = remote;
  rc_sender : msg_reverse_path m = msg_reverse_path message;
  rc_data : ∃ header, msg_data m = header ++ outbound_crlf (msg_data message)
}.

Lemma sign_outbound_copy sd message remote :
  remote_copy message remote (sign_outbound sd (with_recipients message remote)).
Proof.
  unfold sign_outbound, signed_message. destruct (_ ≫= _) as [header|]; constructor; cbn; try done.
  - by exists (as_bytes header).
  - by exists [].
Qed.

Definition carried (message : AcceptedMessage) (sp : Split) (m : AcceptedMessage) : Prop :=
  (∃ original, original ∈ sp_returns sp ∧ m = onward (msg_reverse_path message) original (msg_data message)) ∨
  (sp_remote sp ≠ [] ∧ remote_copy message (sp_remote sp) m).

Lemma route_rest_emits sd account message sp :
  emits (route_rest sd account message None sp) (carried message sp)
    (λ _ new, (∀ original, original ∈ sp_returns sp → onward (msg_reverse_path message) original (msg_data message) ∈ new) ∧
      (sp_remote sp ≠ [] → ∃ m, m ∈ new ∧ remote_copy message (sp_remote sp) m)).
Proof.
  unfold route_rest, route_remote.
  eapply (emits_bind _ _ _ _ (λ _ new, sp_remote sp ≠ [] → ∃ m, m ∈ new ∧ remote_copy message (sp_remote sp) m)).
  - apply emits_each. apply Forall_forall. intros original Ho. left. by exists original.
  - destruct (decide (sp_remote sp = [])) as [He|He].
    + rewrite bool_decide_true by done. by apply emits_ret.
    + rewrite bool_decide_false by done. pose proof (sign_outbound_copy sd message (sp_remote sp)) as Hc.
      apply emits_store; [right; by split|]. intros q _. eexists. split; [apply list_elem_of_here|exact Hc].
  - intros q n1 n2 -> H2. split.
    + intros original Ho. apply elem_of_app. left. apply list_elem_of_In, in_map_iff. exists original.
      split; [done|by apply list_elem_of_In].
    + intros Hr. destruct (H2 Hr) as (m & Hin & Hm). exists m. split; [apply elem_of_app; by right|done].
Qed.

(** ** Where the recipients go *)

Definition is_local (r : Resolution) : bool := match r with Account _ | Alias _ => true | _ => false end.

(** The list a recipient was put on. *)
Inductive placed (sd : SplitDelivery) (t : Moment) (sp : Split) (r : list Z) : Prop :=
| placed_return original : srs_return sd t r = Some (Some original) → original ∈ sp_returns sp → placed sd t sp r
| placed_remote a : parse_address r = Ok a → Directory.resolve (ld_directory (sd_local sd)) a = NotLocal → r ∈ sp_remote sp → placed sd t sp r
| placed_local a : parse_address r = Ok a → is_local (Directory.resolve (ld_directory (sd_local sd)) a) = true → r ∈ sp_local sp → placed sd t sp r.

(** A recipient the directory does not know as local. *)
Definition foreign (sd : SplitDelivery) (r : list Z) : Prop :=
  ∃ a, parse_address r = Ok a ∧ Directory.resolve (ld_directory (sd_local sd)) a = NotLocal.

Lemma split_recipients_ok sd t rs sp0 sp :
  split_recipients sd t rs sp0 = Some (Ok sp) →
  (sp_local sp0 ⊆ sp_local sp ∧ sp_remote sp0 ⊆ sp_remote sp ∧ sp_returns sp0 ⊆ sp_returns sp) ∧
  (∀ r, r ∈ rs → placed sd t sp r) ∧
  (∀ x, x ∈ sp_remote sp → x ∈ sp_remote sp0 ∨ x ∈ rs ∧ foreign sd x) ∧
  (∀ x, x ∈ sp_returns sp → x ∈ sp_returns sp0 ∨ ∃ r, r ∈ rs ∧ srs_return sd t r = Some (Some x)) ∧
  (∀ x, x ∈ sp_local sp → x ∈ sp_local sp0 ∨ x ∈ rs).
Proof.
  revert sp0. induction rs as [|r rs IH]; intros sp0; cbn [split_recipients].
  { intros [= <-]. split_and!; auto. by intros r ?%elem_of_nil. }
  destruct (srs_return sd t r) as [[original|]|] eqn:Es; cbn [mbind option_bind]; [| |done].
  - intros H. destruct (IH _ H) as ((H1 & H2 & H3) & Hp & Hr & Hb & Hl). cbn in *. split_and!; try done.
    + intros x Hx. apply H3, elem_of_app. by left.
    + intros x [->|Hx]%elem_of_cons; [|by apply Hp]. eapply placed_return; [done|]. apply H3, elem_of_app. right. apply list_elem_of_here.
    + intros x Hx. destruct (Hr x Hx) as [?|[??]]; [by left|right; split; [by apply list_elem_of_further|done]].
    + intros x Hx. destruct (Hb x Hx) as [[Hx'|Hx'%list_elem_of_singleton]%elem_of_app|(r' & Hr' & Hs')]; [by left| |].
      * right. subst x. exists r. split; [apply list_elem_of_here|done].
      * right. exists r'. split; [by apply list_elem_of_further|done].
    + intros x Hx. destruct (Hl x Hx); [by left|right; by apply list_elem_of_further].
  - destruct (parse_address r) as [a|] eqn:Ea; [|done].
    assert (Hcase : ∀ f, split_recipients sd t rs f = Some (Ok sp) →
      (sp_local sp0 ⊆ sp_local f ∧ sp_remote sp0 ⊆ sp_remote f ∧ sp_returns f = sp_returns sp0) →
      (∀ x, x ∈ sp_remote f → x ∈ sp_remote sp0 ∨ x = r ∧ foreign sd x) → (∀ x, x ∈ sp_local f → x ∈ sp_local sp0 ∨ x = r) →
      (sp_local f ⊆ sp_local sp → sp_remote f ⊆ sp_remote sp → placed sd t sp r) →
      (sp_local sp0 ⊆ sp_local sp ∧ sp_remote sp0 ⊆ sp_remote sp ∧ sp_returns sp0 ⊆ sp_returns sp) ∧
      (∀ x, x ∈ r :: rs → placed sd t sp x) ∧ (∀ x, x ∈ sp_remote sp → x ∈ sp_remote sp0 ∨ x ∈ r :: rs ∧ foreign sd x) ∧
      (∀ x, x ∈ sp_returns sp → x ∈ sp_returns sp0 ∨ ∃ y, y ∈ r :: rs ∧ srs_return sd t y = Some (Some x)) ∧
      (∀ x, x ∈ sp_local sp → x ∈ sp_local sp0 ∨ x ∈ r :: rs)).
    { intros f H (Hf1 & Hf2 & Hf3) Hr0 Hl0 Hpl. destruct (IH _ H) as ((H1 & H2 & H3) & Hp & Hr & Hb & Hl). rewrite Hf3 in H3, Hb.
      split_and!; [by etrans|by etrans|done| | | |].
      - intros x [->|Hx]%elem_of_cons; [by apply Hpl|by apply Hp].
      - intros x Hx. rewrite elem_of_cons. destruct (Hr x Hx) as [Hx'|[??]]; [|auto]. destruct (Hr0 x Hx') as [?|[-> ?]]; auto.
      - intros x Hx. destruct (Hb x Hx) as [?|(y & ? & ?)]; [by left|]. right. exists y. split; [by apply list_elem_of_further|done].
      - intros x Hx. rewrite elem_of_cons. destruct (Hl x Hx) as [Hx'|]; [|auto]. destruct (Hl0 x Hx'); auto. }
    assert (Happ : ∀ l : list (list Z), l ⊆ l ++ [r] ∧ (∀ x, x ∈ l ++ [r] → x ∈ l ∨ x = r) ∧ r ∈ l ++ [r]).
    { intros l. split_and!; [intros x Hx; apply elem_of_app; by left
        |intros x [?|?%list_elem_of_singleton]%elem_of_app; auto|apply elem_of_app; right; apply list_elem_of_here]. }
    destruct (Happ (sp_local sp0)) as (Hl1 & Hl2 & Hl3), (Happ (sp_remote sp0)) as (Hr1 & Hr2 & Hr3).
    destruct (Directory.resolve _ a) as [| |acc|accs] eqn:Eres; [|done| |]; intros H;
      (eapply Hcase; [exact H|done|cbn; intros x Hx; first [by left|destruct (Hr2 x Hx) as [?| ->]; [by left|right; split; [done|by exists a]]]|cbn; by auto|]);
      intros Hx Hy; cbn in Hx, Hy; try (eapply placed_local; [done|by rewrite Eres|by apply Hx]); (eapply placed_remote; [done..|by apply Hy]).
Qed.

Lemma final_recipients_local d a :
  is_local (Directory.resolve d a) = true → ∃ finals, Directory.final_recipients d a = Some finals.
Proof.
  unfold Directory.final_recipients. destruct (Directory.resolve d a) as [| |acc|accs] eqn:E; try done; [by eexists|]. intros _.
  unfold Directory.resolve in E. repeat case_match; try done. cbn. by eexists.
Qed.

(** ** What became of the message *)

(** For an account: a copy more, a forward in the queue, a report in the queue
    or a reason for none, or a script that dropped the message. *)
Inductive account_settled (sd : SplitDelivery) (t : Moment) (message : AcceptedMessage) (s s' : S) (local addresses : list (list Z))
    (q new : list AcceptedMessage) (account : list Z) : Prop :=
| settled_stored : (length (copies s account) < length (copies s' account))%nat →
    account_settled sd t message s s' local addresses q new account
| settled_forwarded r : reaches (ld_directory (sd_local sd)) local account (rd_delivered_to r) → forwarded sd t message new r →
    account_settled sd t message s s' local addresses q new account
| settled_told a : a ∈ local ∨ reaches (ld_directory (sd_local sd)) local account a → told message local addresses q new a → account_settled sd t message s s' local addresses q new account
| settled_dropped s0 copy o : msg_reverse_path copy = msg_reverse_path message →
    sieve_outcome (mo_clock t) s0 account copy = Some (Some o) → excused message o →
    account_settled sd t message s s' local addresses q new account.

(** For a recipient: back to the sender it encodes, out to its own server, or
    settled for each account it stands for. *)
Inductive recipient_settled (sd : SplitDelivery) (t : Moment) (message : AcceptedMessage) (s s' : S) (sp : Split) (d : Delivered)
    (q new : list AcceptedMessage) (r : list Z) : Prop :=
| settled_back original : srs_return sd t r = Some (Some original) →
    onward (msg_reverse_path message) original (msg_data message) ∈ new → recipient_settled sd t message s s' sp d q new r
| settled_out a m : parse_address r = Ok a → Directory.resolve (ld_directory (sd_local sd)) a = NotLocal →
    m ∈ new → r ∈ msg_recipients m → remote_copy message (sp_remote sp) m → recipient_settled sd t message s s' sp d q new r
| settled_in a finals : parse_address r = Ok a → Directory.final_recipients (ld_directory (sd_local sd)) a = Some finals →
    (∀ account, account ∈ map fst finals →
      account_settled sd t message s s' (sp_local sp) (notice_addresses (sp_local sp) d) q new account) →
    recipient_settled sd t message s s' sp d q new r.

Lemma deliver_local_ok sd t message sp s (o : O) :
  sp_local sp ≠ [] →
  ∃ r s', deliver_local sd t message sp (s, o) = Some (r, (s', o)) ∧
    ∀ d, r = Ok d →
      (msg_reverse_path message = [] → redirects d = [] ∧ replies d = []) ∧
      ∀ q new r, handled sd t message (sp_local sp) d q new → placed sd t sp r → r ∈ sp_local sp →
        ∀ a, parse_address r = Ok a → is_local (Directory.resolve (ld_directory (sd_local sd)) a) = true →
        recipient_settled sd t message s s' sp d q new r.
Proof.
  intros Hne. unfold deliver_local. set (local_message := with_recipients message (sp_local sp)).
  set (mailbox := match msg_mailbox message with Some m => Some m | None => target_mailbox sd message end).
  destruct (deliver_routed_ok (sd_local sd) (mo_clock t) (mo_secs t) local_message mailbox s) as (r & s' & Heq & Hr). rewrite Heq.
  destruct r as [d|e].
  - destruct (Hr d eq_refl) as ([_ _ Hnull] & accounts & Hacc & _ & Hfate). exists (Ok d), s'. split; [done|].
    intros ? [= <-]. split; [intros Hn; by destruct (Hnull Hn) as (? & _ & ? & _)|].
    intros q new r Hh _ Hin a Ha _. destruct (accounts_loop_complete _ _ _ _ Hacc) as [_ Hall].
    destruct (Hall r Hin) as (a' & finals & Ha' & Hf & Hsub). rewrite Ha in Ha'. injection Ha' as <-.
    apply (settled_in _ _ _ _ _ _ _ _ _ _ a finals); [done..|]. intros account Haccount. apply Hsub in Haccount.
    apply list_elem_of_In, in_map_iff in Haccount as ((account' & to & l) & <- & Hx). apply list_elem_of_In in Hx.
    rewrite Forall_forall in Hfate. specialize (Hfate _ Hx).
    pose proof (accounts_loop_sound _ (sp_local sp) _ _ _ Hacc ltac:(by intros ? ?%elem_of_nil) ltac:(done) _ Hx) as Hreach. cbn [fst snd] in *.
    destruct Hh as [Hrej Hq Hfw Hlo].
    destruct Hfate as [Hf1|[(rd & Hrd & <-)|[Hf1|[Hf1|[Hf1|(s0 & copy & oc & Hcopy & Hs & Hex)]]]]].
    + by apply settled_stored.
    + eapply settled_forwarded; [exact Hreach|by apply Hfw].
    + destruct (Hrej Hf1) as (x & Hxl & Ht). eapply settled_told; [by left|exact Ht].
    + eapply settled_told; [by right|by apply Hlo].
    + eapply settled_told; [by right|by apply Hq].
    + destruct (for_list_total local_message l) as (copy' & Hc & Hrp). rewrite Hcopy in Hc. injection Hc as <-.
      by eapply settled_dropped.
  - clear Hr. assert (Hfull : ∀ d, d = mkDelivered (sp_local sp) [] None [] [] →
      (msg_reverse_path message = [] → redirects d = [] ∧ replies d = []) ∧
      ∀ q new r, handled sd t message (sp_local sp) d q new → placed sd t sp r → r ∈ sp_local sp →
        ∀ a, parse_address r = Ok a → is_local (Directory.resolve (ld_directory (sd_local sd)) a) = true →
        recipient_settled sd t message s s' sp d q new r).
    { intros d ->. split; [done|]. intros q new r Hh _ Hin a Ha Hl. destruct (final_recipients_local _ a Hl) as [finals Hf].
      eapply settled_in; [exact Ha|exact Hf|]. intros account _. destruct Hh as [_ Hq _ _]. eapply settled_told; [by left|by apply Hq]. }
    destruct e; try (by eexists _, _). destruct (_ || _); [|by eexists _, _].
    eexists _, _. split; [done|]. intros d [= <-]. by apply Hfull.
Qed.

Lemma handled_app sd t message local d q n1 n2 :
  handled sd t message local d q n1 → handled sd t message local d q (n1 ++ n2).
Proof.
  intros [H1 H2 H3 H4]. split.
  - intros Hr. destruct (H1 Hr) as (r & Hin & Ht). exists r. split; [done|]. by eapply told_left.
  - intros a Ha. eapply told_left; [done|by apply H2].
  - intros r Hr. apply forwarded_app. left. by apply H3.
  - intros a Ha. eapply told_left; [done|by apply H4].
Qed.

(** A message the sink queues of its own: only when there is a sender, or a
    copy of the message for a recipient. *)
Definition accountable (sd : SplitDelivery) (t : Moment) (message m : AcceptedMessage) : Prop :=
  msg_reverse_path message ≠ [] ∨
  (msg_reverse_path m = [] ∧
   ((∃ r original, r ∈ msg_recipients message ∧ srs_return sd t r = Some (Some original) ∧ msg_recipients m = [original]) ∨
    msg_recipients m ⊆ msg_recipients message)).

Lemma carried_accountable sd t message sp m :
  split_recipients sd t (msg_recipients message) (mkSplitRecipients [] [] []) = Some (Ok sp) →
  carried message sp m → accountable sd t message m.
Proof.
  intros Hsp Hc. destruct (decide (msg_reverse_path message = [])) as [Hn|Hn]; [right|by left].
  apply split_recipients_ok in Hsp as (_ & _ & Hr & Hb & _). cbn in Hr, Hb.
  destruct Hc as [(original & Ho & ->)|[_ [Hrec Hs _]]]; cbn; rewrite ?Hs; (split; [done|]).
  - left. destruct (Hb original Ho) as [?%elem_of_nil|(r & Hin & Hs)]; [done|]. by exists r, original.
  - right. rewrite Hrec. intros x Hx. by destruct (Hr x Hx) as [?%elem_of_nil|[? _]].
Qed.

(** Every recipient is settled when its list is. *)
Lemma recipients_settled sd t message s s' sp d q n1 n2 :
  (∀ r, r ∈ msg_recipients message → placed sd t sp r) →
  (∀ original, original ∈ sp_returns sp → onward (msg_reverse_path message) original (msg_data message) ∈ n2) →
  (sp_remote sp ≠ [] → ∃ m, m ∈ n2 ∧ remote_copy message (sp_remote sp) m) →
  (∀ r a, r ∈ sp_local sp → parse_address r = Ok a → is_local (Directory.resolve (ld_directory (sd_local sd)) a) = true →
    recipient_settled sd t message s s' sp d q (n1 ++ n2) r) →
  ∀ x, x ∈ msg_recipients message → recipient_settled sd t message s s' sp d q (n1 ++ n2) x.
Proof.
  intros Hplaced Hret Hrem Hloc x Hx. destruct (Hplaced x Hx) as [original Hs Ho|a Ha Hres Hin|a Ha Hl Hin].
  - eapply settled_back; [exact Hs|]. apply elem_of_app. right. by apply Hret.
  - destruct Hrem as (m & Hm & Hc); [by intros Hn; rewrite Hn in Hin; apply elem_of_nil in Hin|].
    eapply settled_out; [exact Ha|exact Hres|apply elem_of_app; right; exact Hm|by rewrite (rc_recipients _ _ _ Hc)|exact Hc].
  - by eapply Hloc.
Qed.

Lemma route_classed_ok sd t account message s (o : O) out :
  split_recipients sd t (msg_recipients message) (mkSplitRecipients [] [] []) = Some out →
  ∃ r st' new, route_classed sd t account message None (s, o) = Some (r, st') ∧
    queued st'.2 = queued o ++ new ∧ Forall (accountable sd t message) new ∧
    (r = Ok tt → ∃ sp d, out = Ok sp ∧
      ∀ x, x ∈ msg_recipients message → recipient_settled sd t message s st'.1 sp d (queued o) new x).
Proof.
  intros Hsp. unfold route_classed, route_reporting. rewrite Hsp.
  destruct out as [sp|e]; [|exists (Err e), (s, o), []; rewrite app_nil_r; split_and!; [done..|constructor|done]].
  pose proof (λ m, carried_accountable sd t message sp m Hsp) as Hcar.
  pose proof (split_recipients_ok _ _ _ _ _ Hsp) as (_ & Hplaced & _).
  pose proof (route_rest_emits sd account message sp) as He.
  destruct (decide (sp_local sp = [])) as [Hl|Hl].
  - rewrite bool_decide_true by done. destruct (He (s, o)) as (r & st' & new & -> & Hs & Hq & HQ & HP).
    exists r, st', new. split_and!; [done|done|by eapply Forall_impl; [exact HQ|]|]. intros ->. destruct (HP eq_refl) as [H1 H2].
    exists sp, delivered_default. split; [done|]. apply (recipients_settled _ _ _ _ _ _ _ _ [] new); [done..|]. intros r a Hin. rewrite Hl in Hin. by apply elem_of_nil in Hin.
  - rewrite bool_decide_false by done. destruct (deliver_local_ok sd t message sp s o Hl) as (r & s' & -> & Hd).
    destruct r as [d|e]; [|exists (Err e), (s', o), []; rewrite app_nil_r; split_and!; [done..|constructor|done]].
    destruct (Hd d eq_refl) as [Hnull Hset]. pose proof (after_local_emits sd t account message (sp_local sp) d Hl Hnull) as Ha.
    set (Q := λ m, with_sender message m ∨ carried message sp m).
    assert (Hboth : emits (r_bind (after_local sd t account message (sp_local sp) d) (λ _, route_rest sd account message None sp)) Q
      (λ q new, ∃ n1 n2, new = n1 ++ n2 ∧ handled sd t message (sp_local sp) d q n1 ∧
        (∀ original, original ∈ sp_returns sp → onward (msg_reverse_path message) original (msg_data message) ∈ n2) ∧
        (sp_remote sp ≠ [] → ∃ m, m ∈ n2 ∧ remote_copy message (sp_remote sp) m))).
    { eapply emits_bind; [eapply emits_weaken; [exact Ha|by left|intros ? ? Hx; exact Hx]
        |eapply emits_weaken; [exact He|by right|intros ? ? Hx; exact Hx]|].
      intros q n1 n2 H1 [H2 H3]. by exists n1, n2. }
    destruct (Hboth (s', o)) as (r & st' & new & -> & Hs & Hq & HQ & HP).
    exists r, st', new. split_and!; [done|done| |].
    + eapply Forall_impl; [exact HQ|]. intros m [Hm|Hm]; [by left|by apply Hcar].
    + intros ->. destruct (HP eq_refl) as (n1 & n2 & -> & Hh & H1 & H2). exists sp, d. split; [done|].
      rewrite Hs. apply recipients_settled; [done..|]. intros r a Hin Hpa Hloc.
      eapply Hset; [by apply handled_app|by apply (placed_local _ _ _ _ a)|done|exact Hpa|exact Hloc].
Qed.

Lemma deliver_accounted sd t message s (o : O) st'
    (H : deliver sd t message (s, o) = Some (Ok tt, st')) :
  let taken := with_data message (strip_tls_required (msg_data message)) in
  ∃ sp d new, split_recipients sd t (msg_recipients message) (mkSplitRecipients [] [] []) = Some (Ok sp) ∧
    queued st'.2 = queued o ++ new ∧
    ∀ r, r ∈ msg_recipients message → recipient_settled sd t taken s st'.1 sp d (queued o) new r.
Proof.
  intros taken. unfold deliver in H. fold taken in H.
  destruct (split_recipients sd t (msg_recipients taken) (mkSplitRecipients [] [] [])) as [out|] eqn:Hsp.
  - destruct (route_classed_ok sd t None taken s o out Hsp) as (r & st1 & new & Heq & Hq & _ & Hr). rewrite H in Heq.
    injection Heq as <- <-. destruct (Hr eq_refl) as (sp & d & -> & Hall). by exists sp, d, new.
  - unfold route_classed, route_reporting in H. by rewrite Hsp in H.
Qed.



End theory.

(** ** The way back is closed *)

Section refused.
Context `{UC : Unicode} `{MO : MapOrder} `{SK : SrsKey} `{SL : !SrsKeyLaws}.

(** C39: a bounce to a rewritten sender does not get in. The sink would send
    it on to the sender the address encodes, but the session asks only the
    directory who its recipients are: unless an account, an alias or a
    catch-all happens to own the address, a server that returns the bounce is
    told that there is no such user, or that relaying is denied. *)
Theorem srs_bounce_refused `{ScramTypes} env (s : Session) w sd t t' our_domain raw sender a notify
    (Hopen : ∃ rp tls, state s = ReceivingRecipients rp tls) (Hauth : authenticated s = None)
    (Hsrs : sd_srs sd = Some our_domain) (Hsender : parse_address raw = Ok sender)
    (Hparse : parse_address (forward_sender sd t (display_address sender)) = Ok a) (Hdomain : domain a = our_domain)
    (Hnone : is_local (Directory.resolve (directory s) a) = false)
    (Hdays : 0 ≤ mo_days t ≤ mo_days t') (Hage : mo_days t' - mo_days t ≤ SRS_MAX_AGE_DAYS) :
  srs_return sd t' (display_address a) = Some (Some (display_address sender)) ∧
  ∃ reply, SmtpSession.rcpt_to env s w (forward_sender sd t (display_address sender)) notify = (s, w, Continue reply) ∧ code reply = 550.
Proof.
  pose proof (parsed_address_safe raw sender Hsender) as (_ & _ & _ & _ & _ & _ & Hsplit).
  pose proof Hsender as (_ & Hl & Hd & _)%parse_address_spec.
  assert (Hf : forward_sender sd t (display_address sender) = srs_local (local_part sender) (domain sender) (mo_days t) ++ AT :: our_domain).
  { unfold forward_sender. rewrite Hsrs, Hsplit. by destruct (display_address sender) as [|x y]. }
  assert (Hat : AT ∉ our_domain).
  { subst our_domain. intros Hin. pose proof Hparse as (_ & _ & Hdns & _)%parse_address_spec.
    pose proof (dns_shape_chars _ Hdns) as Hc. rewrite Forall_forall in Hc. by destruct (Hc AT Hin). }
  assert (Ha : local_part a = srs_local (local_part sender) (domain sender) (mo_days t)).
  { pose proof Hparse as (_ & _ & _ & d & Heq & Hnat & _)%parse_address_spec. rewrite Hf in Heq.
    apply (f_equal (rsplit_once AT)) in Heq. rewrite !rsplit_once_app in Heq by done. by injection Heq as ? _. }
  split.
  - unfold srs_return, display_address at 1. rewrite Hsrs, Hdomain, rsplit_once_app by done.
    rewrite (proj2 (eq_ignore_ascii_case_spec _ _)) by done. cbn [negb]. rewrite Ha, srs_reversed.
    + rewrite (proj2 (Z.leb_le _ _)) by done. done.
    + by apply validate_local_part_spec in Hl as (? & _ & _).
    + intros Hn. rewrite Hn in Hd. done.
    + intros Hin. pose proof (dns_shape_chars _ Hd) as Hc. rewrite Forall_forall in Hc. by destruct (Hc EQUALS Hin).
    + done.
    + unfold SRS_MAX_AGE_DAYS, TS_MODULUS in *. lia.
  - destruct Hopen as (rp & tls & Hst). unfold SmtpSession.rcpt_to. rewrite Hst. cbn [negb]. rewrite Hparse.
    unfold recipient_refused. rewrite Hauth. destruct (Directory.resolve (directory s) a); try done; by eexists.
Qed.

End refused.

(** ** A sink in memory *)

Definition list_spool : Spool (list AcceptedMessage) := {| spool_store _ m o := (Ok tt, o ++ [m]) |}.

Definition list_spool_laws : @SpoolLaws _ list_spool.
Proof.
  refine (@Build_SpoolLaws _ list_spool id _ _).
  - by intros account m o o' [= <-].
  - by intros account m o o' why [=].
Defined.

Definition no_signing : Signing := {| arc_seal _ := None; sign _ _ := None; author_domain _ := None |}.

Definition example_sink : SplitDelivery := mkSplit example_delivery [] (Some (lit "mx.example.org")) true.

Definition example_moment : Moment := mkMoment 0 (20000 * 86400) (lit "Thu, 3 Oct 2024 00:00:00 +0000").

Definition example_deliver (script : list Z) (message : AcceptedMessage)
    : option (result SinkError unit * (Memory * list AcceptedMessage)) :=
  @deliver ascii_unicode map_order Memory (list AcceptedMessage) memory_store plain_composer list_spool example_key no_signing
    example_sink example_moment message (example_store script, []).

Definition letter (reverse_path : list Z) (recipients : list (list Z)) : AcceptedMessage :=
  SmtpSession.mkMessage reverse_path recipients (lit "Subject: x") false None false true [].

Definition reject_script : list Z := lit "reject " ++ quoted (lit "no") ++ lit ";".



