(* ===== verification/SmtpConnection.v ===== *)
(** The SMTP connection loop (src/src/smtp/server/run.rs, with the chunk
    readers of src/src/smtp/server/mod.rs): which session operation a line
    runs, what happens to the action it returns, and how the connection ends.

    The socket, the timeouts and the checks on an accepted message
    (reputation, DNS blocklists, SPF/DKIM/DMARC, scanners, the sink) are
    outside: a chunk is the list of the reads that bring it, the TLS handshake
    brings the client certificate's identity, and [accepts] says whether the
    server accepted the message in the end. *)

From S2P Require Import Prelude RustStd Utf8 Address Directory IpNet Admission RateLimit.
From S2P Require Import LineFraming SmtpReply SmtpCommand SmtpSession.

Local Open Scope Z_scope.

Inductive Mode := Commands | DataMode | AuthMode.

Definition MAX_ERROR_STREAK : Z := 20.

Section connection.
Context `{Unicode} `{MapOrder} `{ScramTypes}.

Record Conn := mkConn {
  session : Session;
  mode : Mode;
  error_streak : Z;
  closed : bool
}.

(** The session a listener starts with: [implicit_tls] for a TLS listener,
    [offer_tls] when STARTTLS can be offered. *)
Definition open_connection (cfg : Config) (d : Directory.t) (limit : Z)
    (implicit_tls offer_tls : bool) (peer : option IpAddr) (identity : option (list Z)) : Conn :=
  let s := new_session cfg d in
  let s := set_junk s (mkJunk limit 0 0) in
  let s := if implicit_tls then set_client_identity (set_tls_active s true) identity
           else if offer_tls then set_tls_available s true else s in
  mkConn (set_peer_ip s peer) Commands 0 false.

(** [read_chunk]: every read is charged before it is kept; [true] when the
    budget refused one. *)
Fixpoint charge_reads (s : Session) (w : World) (reads : list (list Z)) : Session * World * bool :=
  match reads with
  | [] => (s, w, true)
  | r :: reads =>
      let '(s, w, ok) := reserve_chunk s w (Z.of_nat (length r)) in
      if ok then charge_reads s w reads else (s, w, false)
  end.

Definition read_chunk (env : Env) (s : Session) (w : World) (reads : list (list Z)) (last : bool) : out :=
  let '(s, w, ok) := charge_reads s w reads in
  if ok then bdat_chunk env s w (concat reads) last else refuse_chunk s w.

(** BDAT reads resolved into the action the dispatch below handles. *)
Definition resolve_chunk (env : Env) (o : out) (reads : list (list Z)) : out :=
  let '(s, w, action) := o in
  match action with
  | CollectChunk _ last => read_chunk env s w reads last
  | DiscardChunk _ reply => (s, w, Continue reply)
  | _ => o
  end.

(** Ending the connection drops the session and what it holds. *)
Definition end_connection (c : Conn) (w : World) : Conn * World :=
  let s := session c in
  let w := release w (state_reservation (state s)) in
  let w := release w (chunk_reservation s) in
  let w := release w (delivery_reservation s) in
  let s := set_state s Connected in
  let s := set_chunk_reservation s MemoryBudget.none in
  let s := set_delivery_reservation s MemoryBudget.none in
  (mkConn s (mode c) (error_streak c) true, w).

(** The [Deliver] arm: the body stays reserved and the charge pending until
    the server has decided. *)
Definition deliver_arm (accepts : AcceptedMessage → bool) (s : Session) (w : World)
    (message : AcceptedMessage) : Session * World :=
  let '(s, held) := take_delivery_reservation s in
  let '(s, _) := take_quota_reports s in
  let '(s, charge) := take_submission_charge s in
  let '(s, charge) :=
    if accepts message then (message_delivered s, SubmissionBudget.accept charge) else (s, charge) in
  let w := set_limiters w (SubmissionBudget.drop_pending (limiters w) charge) in
  (s, release w held).

(** The dispatch on the resolved action. The second component is the message
    handed to delivery, if any. *)
Definition run_action (accepts : AcceptedMessage → bool) (identity : option (list Z))
    (streak : Z) (o : out) : Conn * World * option AcceptedMessage :=
  let '(s, w, action) := o in
  match action with
  | Continue reply =>
      if 400 <=? code reply then
        let streak := streak + 1 in
        if MAX_ERROR_STREAK <=? streak
        then (end_connection (mkConn s Commands streak false) w, None)
        else (mkConn s Commands streak false, w, None)
      else (mkConn s Commands 0 false, w, None)
  | CollectData _ => (mkConn s DataMode streak false, w, None)
  | CollectAuthResponse _ => (mkConn s AuthMode streak false, w, None)
  | Deliver _ message =>
      let '(s, w) := deliver_arm accepts s w message in
      (mkConn s Commands streak false, w, Some message)
  | UpgradeTls _ =>
      let '(s, w) := tls_started (set_client_identity s identity) w in
      (mkConn s Commands streak false, w, None)
  | Close _ | CollectChunk _ _ | DiscardChunk _ _ =>
      (end_connection (mkConn s Commands streak false) w, None)
  end.

(** One line from the client. [d] is the directory published at the time. *)
Definition on_line (env : Env) (accepts : AcceptedMessage → bool) (d : Directory.t)
    (identity : option (list Z)) (reads : list (list Z)) (c : Conn) (w : World) (line : list Z)
    : Conn * World * option AcceptedMessage :=
  match mode c with
  | DataMode =>
      match data_line env (session c) w line with
      | (s, w, None) => (mkConn s DataMode (error_streak c) false, w, None)
      | (s, w, Some action) =>
          run_action accepts identity (error_streak c) (resolve_chunk env (s, w, action) reads)
      end
  | m =>
      match from_utf8 line, m with
      | None, AuthMode => (end_connection c w, None)
      | None, _ =>
          run_action accepts identity (error_streak c)
            (resolve_chunk env (unreadable_command (session c) w) reads)
      | Some text, AuthMode =>
          run_action accepts identity (error_streak c)
            (resolve_chunk env (auth_line env (set_directory (session c) d) w text) reads)
      | Some text, _ =>
          run_action accepts identity (error_streak c)
            (resolve_chunk env (command_line env (set_directory (session c) d) w text) reads)
      end
  end.

End connection.
