(* ===== verification/SmtpSessionTheory.v ===== *)
(** Invariants of the SMTP session and of the connection loop: what holds of
    every message handed to delivery, of authentication, and of the counters
    that end a connection. *)

From S2P Require Import Prelude RustStd Utf8 Address Directory IpNet Admission RateLimit.
From S2P Require Import LineFraming SmtpReply SmtpCommand SmtpSession SmtpConnection.

Local Open Scope Z_scope.

Section invariants.
Context `{Unicode} `{MapOrder} `{ScramTypes}.

(** The directories published while the connection lasts. *)
Context (D : Directory.t → Prop).

(** ** What a transaction may hold *)

(** The envelope sender: of an authenticated session, an address a published
    directory says the account owns; otherwise empty or well formed. *)
Definition sender_ok (auth : option (list Z)) (rp : list Z) : Prop :=
  match auth with
  | Some account => ∃ a d, parse_address rp = Ok a ∧ D d ∧ Directory.owns_address d account a = true
  | None => rp = [] ∨ ∃ a, parse_address rp = Ok a
  end.

(** A recipient: an address that some published directory resolves, to a
    mailbox or an alias of this server unless the session is authenticated. *)
Definition recipient_ok (auth : option (list Z)) (r : list Z) : Prop :=
  ∃ raw a d, parse_address raw = Ok a ∧ r = display_address a ∧ D d ∧
    Directory.resolve d a ≠ UnknownUser ∧ (auth = None → Directory.resolve d a ≠ NotLocal).

Definition envelope_ok (cfg : Config) (auth : option (list Z)) (rp : list Z)
    (recipients : list (list Z)) : Prop :=
  sender_ok auth rp ∧ Forall (recipient_ok auth) recipients ∧ recipients ≠ [] ∧
  Z.of_nat (length recipients) ≤ Z.max (max_recipients cfg) 1.

(** A BDAT body so far: some chunks, each accepted by the line check. *)
Definition chunks_ok (tr : Transaction) : Prop :=
  ∃ chunks, tr_body tr = concat chunks ∧
    feed_all MAX_LINE_LENGTH LineCheck.stored chunks = (tr_line_check tr, Ok tt).

(** A DATA body so far: whole lines, each within the limit as it is sent on. *)
Definition lines_ok (body : list Z) : Prop :=
  ∃ lines, body = wire lines ∧ Forall clean lines ∧
    Forall (λ l, (octets true 0 l ≤ MAX_LINE_LENGTH)%nat) lines.

Definition framed (data : list Z) : Prop := well_framed true MAX_LINE_LENGTH 0 data.

Definition transaction_ok (cfg : Config) (auth : option (list Z)) (tls : bool) (tr : Transaction) : Prop :=
  envelope_ok cfg auth (tr_reverse_path tr) (tr_recipients tr) ∧
  (tr_require_tls tr = true → tls = true) ∧
  Z.of_nat (length (tr_body tr)) ≤ tr_size tr ∧
  Z.of_nat (length (tr_body tr)) ≤ Z.max (max_message_size cfg) 0 ∧
  (if tr_chunking tr then chunks_ok tr ∧ tr_size tr = Z.of_nat (length (tr_body tr))
   else tr_line_check tr = LineCheck.stored ∧ lines_ok (tr_body tr)).

Definition state_ok (cfg : Config) (auth : option (list Z)) (tls : bool) (st : State) : Prop :=
  match st with
  | Connected | Greeted => True
  | ReceivingRecipients rp rt => sender_ok auth rp ∧ (rt = true → tls = true)
  | ReceivingData tr => transaction_ok cfg auth tls tr
  end.

Definition session_ok (s : Session) : Prop :=
  D (directory s) ∧ (is_Some (authenticated s) → tls_active s = true) ∧
  state_ok (cfg s) (authenticated s) (tls_active s) (state s).

(** Between commands, a body not brought by BDAT has not begun. *)
Definition idle_ok (s : Session) : Prop :=
  ∀ tr, state s = ReceivingData tr → tr_chunking tr = false → tr_body tr = [] ∧ tr_size tr = 0.

(** ** What a message handed to delivery satisfies *)

Definition message_ok (env : Env) (s : Session) (m : AcceptedMessage) : Prop :=
  envelope_ok (cfg s) (authenticated s) (msg_reverse_path m) (msg_recipients m) ∧
  (msg_require_tls m = true → tls_active s = true) ∧
  Z.of_nat (length (msg_data m)) ≤ Z.max (max_message_size (cfg s)) 0 ∧
  framed (msg_data m) ∧
  (∀ account, authenticated s = Some account →
     ∃ from a d, author env (msg_data m) = Addresses [from] ∧ parse_address from = Ok a ∧
       D d ∧ Directory.owns_address d account a = true).

Definition action_ok (env : Env) (s : Session) (a : Action) : Prop :=
  match a with
  | Deliver _ m => message_ok env s m ∧ state s = Greeted
  | CollectAuthResponse _ => state s = Greeted ∧ tls_active s = true ∧ authenticated s = None
  | CollectData _ => ∃ tr, state s = ReceivingData tr ∧ tr_chunking tr = false
  | CollectChunk _ _ => ∃ tr, state s = ReceivingData tr
  | _ => True
  end.

(** Fewer than three failed logins, unless the action closes. *)
Definition strikes_ok (s : Session) (a : Action) : Prop :=
  0 ≤ auth_failures s ≤ 2 ∨ ∃ r, a = Close r.

(** What every operation keeps. *)
Definition op_ok (env : Env) (s : Session) (o : out) : Prop :=
  session_ok o.1.1 ∧ idle_ok o.1.1 ∧ cfg o.1.1 = cfg s ∧ action_ok env o.1.1 o.2 ∧ strikes_ok o.1.1 o.2.

(** The parts of a session the invariant reads. *)
Definition same_core (s s' : Session) : Prop :=
  cfg s' = cfg s ∧ state s' = state s ∧ tls_active s' = tls_active s ∧
  authenticated s' = authenticated s ∧ directory s' = directory s.

Lemma session_ok_core s s' : same_core s s' → session_ok s → session_ok s'.
Proof. intros (Hc & Hs & Ht & Ha & Hd). unfold session_ok. by rewrite Hc, Hs, Ht, Ha, Hd. Qed.

Lemma session_ok_greeted s :
  D (directory s) → (is_Some (authenticated s) → tls_active s = true) →
  state s = Greeted ∨ state s = Connected → session_ok s.
Proof. intros Hd Ht Hs. unfold session_ok, state_ok. by destruct Hs as [-> | ->]. Qed.

(** ** Operations that only move to [Greeted] or stay *)

Lemma reset_fields s w :
  let s' := (reset s w).1 in
  cfg s' = cfg s ∧ tls_active s' = tls_active s ∧ authenticated s' = authenticated s ∧
  directory s' = directory s ∧ auth_failures s' = auth_failures s ∧ junk s' = junk s ∧
  (state s = Connected ∧ state s' = Connected ∨ state s ≠ Connected ∧ state s' = Greeted).
Proof.
  cbv zeta. unfold reset. cbn [state set_chunk_reservation].
  destruct (state s) eqn:E; simpl; rewrite ?E; (split_and!; [done..|]); (by left) || (by right).
Qed.

Lemma reset_ok s w : session_ok s → session_ok (reset s w).1 ∧ idle_ok (reset s w).1.
Proof.
  intros (Hd & Ht & _). pose proof (reset_fields s w) as (_ & Etls & Eauth & Edir & _ & _ & Est).
  split.
  - apply session_ok_greeted; rewrite ?Edir, ?Eauth, ?Etls; [done|done|]. naive_solver.
  - intros tr Htr. rewrite Htr in Est. naive_solver.
Qed.

Lemma op_ok_reset env s w a :
  session_ok s → 0 ≤ auth_failures s ≤ 2 → action_ok env (reset s w).1 a →
  op_ok env s ((reset s w).1, (reset s w).2, a).
Proof.
  intros Hok Hf Ha. pose proof (reset_fields s w) as (Ec & _ & _ & _ & Ef & _).
  pose proof (reset_ok s w Hok) as [? ?]. split_and!; try done. left. simpl. by rewrite Ef.
Qed.

(** The precondition of a command. *)
Definition ready (s : Session) : Prop := session_ok s ∧ idle_ok s ∧ 0 ≤ auth_failures s ≤ 2.

Lemma op_ok_same env s w a : ready s → action_ok env s a → op_ok env s (s, w, a).
Proof. intros (Hok & Hi & Hf) Ha. split_and!; try done. by left. Qed.

Lemma greet_ok env s w domain e : ready s → op_ok env s (greet s w domain e).
Proof.
  intros ((Hd & Ht & _) & _ & Hf). unfold greet. simpl. destruct e; simpl;
    (split_and!; [apply session_ok_greeted; simpl; auto|done|done|done|by left]).
Qed.

Lemma start_tls_ok env s w : ready s → op_ok env s (start_tls s w).
Proof.
  intros Hr. unfold start_tls. destruct (negb _); [by apply op_ok_same|].
  destruct (state s); by apply op_ok_same.
Qed.

(** ** MAIL, RCPT, DATA *)

Lemma sender_refused_ok s rp :
  session_ok s → sender_refused s rp = None → sender_ok (authenticated s) rp.
Proof.
  intros (Hd & _). unfold sender_refused, sender_ok.
  destruct (authenticated s) as [account|], (parse_address rp) as [a|e] eqn:E; try done.
  - destruct (Directory.owns_address (directory s) account a) eqn:Eo; [|done]. eauto 6.
  - eauto.
  - destruct rp; [by left|done].
Qed.

Lemma mail_from_ok env s w rp size rt : ready s → op_ok env s (mail_from env s w rp size rt).
Proof.
  intros Hr. pose proof Hr as (Hok & Hi & Hf). unfold mail_from.
  destruct (state s) eqn:Est; try (by apply op_ok_same).
  destruct (rt && negb (tls_active s)) eqn:Ert; [by apply op_ok_same|].
  destruct (sender_refused s rp) eqn:Esr; [by apply op_ok_same|].
  destruct (match authenticated s with Some _ => _ | None => false end); [by apply op_ok_same|].
  destruct (match authenticated s with None => _ | Some _ => _ end) as [w' [reply|]];
    [by apply op_ok_same|].
  destruct (match size with Some _ => _ | None => _ end); [by apply op_ok_same|].
  destruct (negb (spool_has_room _ _ _)); [by apply op_ok_same|]. simpl.
  pose proof Hok as (Hd & Ht & _). split_and!; try done; [|by left].
  split_and!; simpl; try done. split.
  - by apply sender_refused_ok.
  - intros ->. by destruct (tls_active s).
Qed.

Lemma recipient_refused_ok env s raw a :
  session_ok s → parse_address raw = Ok a → recipient_refused env s a = None →
  recipient_ok (authenticated s) (display_address a).
Proof.
  intros (Hd & _) Hp Hr. exists raw, a, (directory s). split_and!; try done;
    unfold recipient_refused in Hr; destruct (Directory.resolve _ a); try done.
  intros Ha. by rewrite Ha in Hr.
Qed.

Lemma rcpt_to_ok env s w fp notify : ready s → op_ok env s (rcpt_to env s w fp notify).
Proof.
  intros Hr. pose proof Hr as (Hok & Hi & Hf). pose proof Hok as (Hd & Ht & Hst). unfold rcpt_to.
  destruct (negb _); [by apply op_ok_same|].
  destruct (parse_address fp) as [a|] eqn:Ea; [|by apply op_ok_same].
  destruct (recipient_refused env s a) eqn:Err; [by apply op_ok_same|].
  pose proof (recipient_refused_ok env s fp a Hok Ea Err) as Hrec.
  destruct (state s) as [| |rp rt|tr] eqn:Est; try (by apply op_ok_same).
  - simpl in *. destruct Hst as [Hs Hrt]. split_and!; try done; [|by intros tr [= <-] _|by left].
    split_and!; simpl; try done. split_and!; simpl; try done; [|lia|split; [done|]; by exists []].
    split_and!; simpl; try done; [|lia]. by constructor.
  - destruct (is_empty (tr_body tr) && negb (tr_chunking tr)) eqn:Eb; [|by apply op_ok_same].
    apply andb_true_iff in Eb as [Eb Ech]. apply negb_true_iff in Ech.
    destruct (Z.leb_spec (max_recipients (cfg s)) (Z.of_nat (length (tr_recipients tr))));
      [by apply op_ok_same|].
    simpl in Hst. destruct Hst as ((Hs & Hrs & Hne & Hlen) & Hrt & Hb1 & Hb2 & Hc).
    rewrite Ech in Hc. destruct (Hi tr Est Ech) as [Hbody Hsize].
    split_and!; simpl; try done; [|by intros tr' [= <-] _|by left].
    split_and!; simpl; try done. split_and!; simpl; try done; [|by rewrite Ech].
    split_and!; simpl; try done.
    + apply Forall_app. split; [done|]. by constructor.
    + by destruct (tr_recipients tr).
    + rewrite length_app. simpl. lia.
Qed.

Lemma data_ok env s w : ready s → op_ok env s (data s w).
Proof.
  intros Hr. unfold data. destruct (state s) as [| | |tr] eqn:Est; try (by apply op_ok_same).
  destruct (is_empty _ && negb _) eqn:Eb; [|by apply op_ok_same].
  apply andb_true_iff in Eb as [_ Ech]. apply negb_true_iff in Ech.
  apply op_ok_same; [done|]. simpl. eauto.
Qed.

(** ** The end of a message *)

Lemma author_check_ok env s data account :
  session_ok s → author_check env s data = None → authenticated s = Some account →
  ∃ from a d, author env data = Addresses [from] ∧ parse_address from = Ok a ∧ D d ∧
    Directory.owns_address d account a = true.
Proof.
  intros (Hd & _) Hc Ha. unfold author_check in Hc. rewrite Ha in Hc.
  destruct (reject_ambiguous_headers env data); [done|].
  destruct (author env data) as [[|from [|]]| |]; try done.
  destruct (parse_address from) as [a|] eqn:Ep; [|done].
  destruct (Directory.owns_address (directory s) account a) eqn:Eo; [|done]. eauto 8.
Qed.

Lemma overflowing_filter env d q rs size :
  ∃ p, overflowing env d q rs size = List.filter p rs.
Proof. eexists. reflexivity. Qed.

Lemma filter_kept (p : list Z → bool) rs :
  length (List.filter p rs) ≠ length rs →
  List.filter (λ r, negb (bool_decide (r ∈ List.filter p rs))) rs ≠ [].
Proof.
  intros Hlen Hnil. apply Hlen. clear Hlen.
  assert (Hall : ∀ r, r ∈ rs → p r = true).
  { intros r Hr. destruct (p r) eqn:Ep; [done|exfalso].
    assert (Hin : In r (List.filter (λ r, negb (bool_decide (r ∈ List.filter p rs))) rs)).
    { apply filter_In. split; [by apply list_elem_of_In|]. rewrite bool_decide_false; [done|].
      rewrite list_elem_of_In, filter_In. intros [_ ?]. congruence. }
    by rewrite Hnil in Hin. }
  clear Hnil. induction rs as [|r rs IH]; [done|]. simpl.
  rewrite (Hall r) by (by left). simpl. f_equal. apply IH. intros r' Hr'. apply Hall. by right.
Qed.

Lemma filter_length_le {A} (p : A → bool) rs : (length (List.filter p rs) ≤ length rs)%nat.
Proof. induction rs as [|r rs IH]; simpl; [lia|]. destruct (p r); simpl; lia. Qed.

Lemma split_over_quota_ok env s m size s' m' :
  split_over_quota env s m size = (s', Some m') →
  same_core s s' ∧ auth_failures s' = auth_failures s ∧
  msg_reverse_path m' = msg_reverse_path m ∧ msg_data m' = msg_data m ∧
  msg_require_tls m' = msg_require_tls m ∧
  (∀ r, r ∈ msg_recipients m' → r ∈ msg_recipients m) ∧
  (length (msg_recipients m') ≤ length (msg_recipients m))%nat ∧
  (msg_recipients m ≠ [] → msg_recipients m' ≠ []).
Proof.
  unfold split_over_quota. destruct (quota (cfg s)) as [q|]; [|by intros [= <- <-]].
  destruct (overflowing_filter env (directory s) q (msg_recipients m) size) as [p ->].
  unfold exclude_over_quota. destruct (match List.filter p _ with [] => _ | _ => _ end);
    [by intros [= <- <-]|].
  destruct (Nat.eqb_spec (length (List.filter p (msg_recipients m))) (length (msg_recipients m))) as [|Hlen];
    [done|].
  intros [= Hs <-]. simpl. split_and!; try done.
  - destruct (List.filter _ (List.filter p _)); [by subst s'|].
    destruct (build_bounce _ _ _ _ _); by subst s'.
  - destruct (List.filter _ (List.filter p _)); [by subst s'|].
    destruct (build_bounce _ _ _ _ _); by subst s'.
  - intros r. rewrite !list_elem_of_In, filter_In. by intros [? _].
  - apply filter_length_le.
  - intros _. by apply filter_kept.
Qed.

Lemma split_over_quota_none env s m size s' :
  split_over_quota env s m size = (s', None) → s' = s.
Proof.
  unfold split_over_quota. destruct (quota (cfg s)) as [q|]; [|done]. unfold exclude_over_quota.
  destruct (match overflowing _ _ _ _ _ with [] => _ | _ => _ end); [done|].
  destruct (_ =? _)%nat; [by intros [= <-]|done].
Qed.

Lemma inner_finalise_ok env s w m size ex reserved :
  session_ok s → state s = Greeted → 0 ≤ auth_failures s ≤ 2 →
  envelope_ok (cfg s) (authenticated s) (msg_reverse_path m) (msg_recipients m) →
  (msg_require_tls m = true → tls_active s = true) →
  Z.of_nat (length (msg_data m)) ≤ Z.max (max_message_size (cfg s)) 0 → framed (msg_data m) →
  op_ok env s (inner_finalise env s w m size ex reserved).
Proof.
  intros Hok Hst Hf Henv Htls Hlen Hfr.
  assert (Hr : ready s).
  { split; [done|]. split; [|done]. intros tr Htr. congruence. }
  unfold inner_finalise. destruct ex; [by apply op_ok_same|].
  destruct (_ <? _); [by apply op_ok_same|].
  destruct (author_check env s (msg_data m)) eqn:Eau; [by apply op_ok_same|].
  destruct (cap_check _ _ _ _) as [w1 [reply|]]; [by apply op_ok_same|].
  destruct (charge_submission _ _ _ _) as [w2 [charge|]]; [|by apply op_ok_same].
  destruct (split_over_quota env s m size) as [s' [m'|]] eqn:Eq;
    [|apply split_over_quota_none in Eq as ->; by apply op_ok_same].
  apply split_over_quota_ok in Eq as (Hcore & Hfail & Hrp & Hdata & Hrt & Hsub & Hle & Hne).
  pose proof Hcore as (Ec & Es & Et & Ea & Ed).
  split_and!; simpl; try done.
  - eapply (session_ok_core s); [|done]. by split_and!.
  - intros tr Htr. simpl in Htr. rewrite Es in Htr. congruence.
  - split; [|by rewrite Es]. unfold message_ok. simpl. rewrite Ec, Ea, Et, Hrp, Hdata, Hrt.
    destruct Henv as (Hsend & Hrec & Hnil & Hcount). split_and!; try done.
    + split; [done|]. split_and!; [|by auto|lia]. rewrite Forall_forall in *. auto.
    + intros account Ha. by eapply author_check_ok.
  - left. simpl. by rewrite Hfail.
Qed.

Lemma set_state_greeted_ok s : session_ok s → session_ok (set_state s Greeted).
Proof. intros (Hd & Ht & _). apply session_ok_greeted; simpl; auto. Qed.

Lemma lines_ok_framed body : lines_ok body → framed body.
Proof. intros (lines & -> & Hc & Ho). by apply well_framed_wire. Qed.

Lemma finalise_from_state_ok env s w tr :
  session_ok s → 0 ≤ auth_failures s ≤ 2 → state s = ReceivingData tr → tr_chunking tr = false →
  op_ok env s (finalise_from_state env s w).
Proof.
  intros Hok Hf Est Hch. pose proof (set_state_greeted_ok s Hok) as Hg. unfold finalise_from_state.
  destruct Hok as (Hd & Ht & Hst). rewrite Est in *. destruct Hst as (Henv & Hrt & _ & Hlen & Hb).
  rewrite Hch in Hb. destruct Hb as [_ Hb%lines_ok_framed].
  exact (inner_finalise_ok env (set_state s Greeted) w (message_of tr) (tr_size tr)
    (tr_budget_exhausted tr) (tr_reserved tr) Hg eq_refl Hf Henv Hrt Hlen Hb).
Qed.

(** In the middle of DATA. *)
Definition receiving (s : Session) : Prop :=
  session_ok s ∧ 0 ≤ auth_failures s ≤ 2 ∧ ∃ tr, state s = ReceivingData tr ∧ tr_chunking tr = false.

Lemma receiving_set_state s tr tr' :
  receiving s → state s = ReceivingData tr → tr_chunking tr' = false →
  transaction_ok (cfg s) (authenticated s) (tls_active s) tr' →
  receiving (set_state s (ReceivingData tr')).
Proof. intros ((Hd & Ht & _) & Hf & _) _ Hc Htr. split; [|split; [done|]]; [done|]. by eexists. Qed.

(** Unstuffing a line: what is kept is the line, shorter by its first dot. *)
Lemma unstuffed_legal line :
  legal MAX_LINE_LENGTH line → line ≠ [DOT] →
  let content := default line (strip_prefix [DOT] line) in
  clean content ∧ (octets true 0 content ≤ MAX_LINE_LENGTH)%nat.
Proof.
  intros [Hc Hl] Hne. destruct line as [|b line]; simpl; [by split; [|unfold octets; simpl; lia]|].
  simpl in Hl. pose proof Hc as Hc'. apply Forall_cons in Hc' as [Hb Hc'].
  unfold strip_prefix. cbn [starts_with]. destruct (Z.eqb_spec DOT b); simpl.
  - split; [done|]. unfold octets. destruct line as [|b' line]; [simpl; lia|]. simpl in Hl |- *.
    destruct (_ =? _); lia.
  - split; [done|]. unfold octets. simpl. destruct (Z.eqb_spec b DOT); [congruence|]. lia.
Qed.

Lemma lines_ok_snoc body line :
  lines_ok body → clean line → (octets true 0 line ≤ MAX_LINE_LENGTH)%nat →
  lines_ok (body ++ line ++ [CR; LF]).
Proof.
  intros (lines & -> & Hc & Ho) Hcl Hol. exists (lines ++ [line]). split.
  - unfold wire. rewrite map_app, concat_app. simpl. by rewrite app_nil_r.
  - rewrite !Forall_app, !Forall_singleton. done.
Qed.

Lemma data_line_ok env s w line :
  legal MAX_LINE_LENGTH line → receiving s →
  match data_line env s w line with
  | (s', w', Some a) => op_ok env s (s', w', a)
  | (s', _, None) => receiving s' ∧ cfg s' = cfg s
  end.
Proof.
  intros Hleg Hr. pose proof Hr as (Hok & Hf & tr & Est & Hch). unfold data_line.
  case_bool_decide as Hdot.
  { pose proof (finalise_from_state_ok env s w tr Hok Hf Est Hch) as Ho.
    by destruct (finalise_from_state env s w) as [[s' w'] a]. }
  rewrite Est. pose proof Hok as (_ & _ & Htr). rewrite Est in Htr.
  destruct Htr as (Henv & Hrt & Hsz & Hmax & Hck). rewrite Hch in Hck. destruct Hck as [Hck Hbody].
  pose proof (unstuffed_legal line Hleg Hdot) as [Hcl Hoct]. revert Hcl Hoct.
  set (content := default line _).
  intros Hcl Hoct.
  assert (Hlen : Z.of_nat (length (tr_body tr ++ content ++ [CR; LF])) =
            Z.of_nat (length (tr_body tr)) + (Z.of_nat (length content) + 2))
    by (rewrite !length_app; simpl; lia).
  assert (Hstep : ∀ body reserved ex,
    (body = tr_body tr ∨ body = tr_body tr ++ content ++ [CR; LF] ∧
       tr_size tr + (Z.of_nat (length content) + 2) ≤ max_message_size (cfg s)) →
    receiving (set_state s (ReceivingData (mkTransaction (tr_reverse_path tr) (tr_recipients tr)
      (tr_no_dsn tr) (tr_size tr + (Z.of_nat (length content) + 2)) body (tr_require_tls tr)
      (tr_chunking tr) (tr_line_check tr) reserved ex)))).
  { intros body reserved ex Hb. eapply receiving_set_state; [done|done|done|].
    unfold transaction_ok. simpl. rewrite Hch. 
    split_and!; [done..| | |done|]; destruct Hb as [->|[-> Hle]]; try lia; [done|].
    by apply lines_ok_snoc. }
  destruct (Z.ltb_spec (max_message_size (cfg s)) (tr_size tr + (Z.of_nat (length content) + 2)));
    [auto|].
  destruct (memory_budget (cfg s)); [|auto].
  destruct (MemoryBudget.try_grow _ _ _ _) as [[b r]|]; auto.
Qed.

(** ** BDAT *)

Lemma same_core_trans s1 s2 s3 : same_core s1 s2 → same_core s2 s3 → same_core s1 s3.
Proof. unfold same_core. naive_solver congruence. Qed.

Lemma ready_core s s' : same_core s s' → auth_failures s' = auth_failures s → ready s → ready s'.
Proof.
  intros Hc Hf (Hok & Hid & Hn). split; [by eapply session_ok_core|]. destruct Hc as (_ & Es & _).
  split; [|by rewrite Hf]. unfold idle_ok. by rewrite Es.
Qed.

Lemma op_ok_core env s s' o : cfg s' = cfg s → op_ok env s' o → op_ok env s o.
Proof. unfold op_ok. by intros ->. Qed.

Lemma bdat_ok env s w size last : ready s → op_ok env s (bdat s w size last).
Proof.
  intros Hr. pose proof Hr as (Hok & Hid & Hf). unfold bdat.
  pose proof (λ a, op_ok_reset env s w a Hok Hf) as Hreset.
  destruct (reset s w) as [s1 w1] eqn:Er. destruct (_ <? _); [by apply Hreset|].
  destruct (state s) as [| | |tr] eqn:Est; try (by apply Hreset).
  apply (op_ok_core env s (set_chunk_reservation s MemoryBudget.none)); [done|].
  apply op_ok_same; [by apply (ready_core s)|]. by exists tr.
Qed.

Lemma reserve_chunk_same s w n s' w' ok :
  reserve_chunk s w n = (s', w', ok) → same_core s s' ∧ auth_failures s' = auth_failures s.
Proof.
  unfold reserve_chunk. destruct (memory_budget (cfg s)); [|by intros [= <- <- <-]].
  destruct (MemoryBudget.try_grow _ _ _ _) as [[b r]|]; by intros [= <- <- <-].
Qed.

Lemma charge_reads_same reads s w s' w' ok :
  charge_reads s w reads = (s', w', ok) → same_core s s' ∧ auth_failures s' = auth_failures s.
Proof.
  revert s w. induction reads as [|r reads IH]; simpl; intros s w Hc.
  { injection Hc as <- <- <-. done. }
  destruct (reserve_chunk s w (Z.of_nat (length r))) as [[s1 w1] [|]] eqn:Er;
    apply reserve_chunk_same in Er as [Hcore Hf].
  - apply IH in Hc as [Hc Hf']. split; [by eapply same_core_trans|congruence].
  - injection Hc as <- <- <-. done.
Qed.

Lemma feed_all_snoc max c chunks chunk c' c'' :
  feed_all max c chunks = (c', Ok tt) → LineCheck.feed c' chunk max = (c'', Ok tt) →
  feed_all max c (chunks ++ [chunk]) = (c'', Ok tt).
Proof.
  revert c. induction chunks as [|x chunks IH]; simpl; intros c Hc Hf.
  - injection Hc as ->. by rewrite Hf.
  - destruct (LineCheck.feed c x max) as [c1 [|]]; [by apply IH|done].
Qed.

(** The transaction a further chunk leaves. *)
Lemma chunk_transaction_ok s tr data check reserved :
  ready s → state s = ReceivingData tr →
  LineCheck.feed (tr_line_check tr) data MAX_LINE_LENGTH = (check, Ok tt) →
  tr_size tr + Z.of_nat (length data) ≤ max_message_size (cfg s) →
  transaction_ok (cfg s) (authenticated s) (tls_active s)
    (mkTransaction (tr_reverse_path tr) (tr_recipients tr) (tr_no_dsn tr)
       (tr_size tr + Z.of_nat (length data)) (tr_body tr ++ data) (tr_require_tls tr) true check
       reserved (tr_budget_exhausted tr)).
Proof.
  intros ((_ & _ & Htr) & Hid & _) Est Hfeed Hmax. rewrite Est in Htr.
  destruct Htr as (Henv & Hrt & Hsz & Hm & Hck).
  assert (Hchunks : chunks_ok tr ∧ tr_size tr = Z.of_nat (length (tr_body tr))).
  { destruct (tr_chunking tr) eqn:Ech; [done|]. destruct (Hid tr Est Ech) as [Hb Hs].
    destruct Hck as [Hck _]. rewrite Hb, Hs. split; [|done]. exists []. by rewrite Hb, Hck. }
  destruct Hchunks as [(chunks & Hb & Hfa) Hs]. unfold transaction_ok. simpl.
  rewrite length_app. split_and!; [done|done|lia|lia| |lia].
  exists (chunks ++ [data]). simpl. rewrite concat_app, Hb. simpl. rewrite app_nil_r.
  split; [done|]. by eapply feed_all_snoc.
Qed.

Lemma finalise_ok env s w tr size :
  session_ok s → 0 ≤ auth_failures s ≤ 2 → state s = ReceivingData tr → framed (tr_body tr) →
  op_ok env s (finalise env s w (message_of tr) size).
Proof.
  intros Hok Hf Est Hfr. unfold finalise. rewrite Est.
  pose proof (set_state_greeted_ok s Hok) as Hg. destruct Hok as (_ & _ & Hst).
  rewrite Est in Hst. destruct Hst as (Henv & Hrt & _ & Hlen & _).
  exact (inner_finalise_ok env (set_state s Greeted) w (message_of tr) size
    (tr_budget_exhausted tr) (tr_reserved tr) Hg eq_refl Hf Henv Hrt Hlen Hfr).
Qed.

(** The body the last chunk ends. *)
Lemma chunks_framed tr :
  chunks_ok tr → LineCheck.finish (tr_line_check tr) MAX_LINE_LENGTH = Ok tt → framed (tr_body tr).
Proof.
  intros (chunks & -> & Hf) Hfin.
  assert (Ha : accepts_chunks MAX_LINE_LENGTH LineCheck.stored chunks) by (by eexists).
  by apply accepts_chunks_concat, accepts_well_framed in Ha.
Qed.

Lemma bdat_charged_ok env s w data last : ready s → op_ok env s (bdat_charged env s w data last).
Proof.
  intros Hr. unfold bdat_charged. cbv zeta.
  set (chunk := chunk_reservation s). set (s2 := set_chunk_reservation s MemoryBudget.none).
  assert (Hr2 : ready s2) by (by apply (ready_core s)).
  apply (op_ok_core env s s2); [done|]. clearbody chunk s2. clear Hr s.
  pose proof Hr2 as (Hok & _ & Hf).
  assert (Hres : ∀ w' a, action_ok env (reset s2 w).1 a → op_ok env s2 ((reset s2 w).1, w', a))
    by (intros w' a Ha; exact (op_ok_reset env s2 w a Hok Hf Ha)).
  destruct (reset s2 w) as [s3 w3] eqn:Er. simpl in Hres.
  destruct (state s2) as [| | |tr] eqn:Est; try (by apply Hres).
  destruct (LineCheck.feed (tr_line_check tr) data MAX_LINE_LENGTH) as [check fed] eqn:Efeed.
  destruct fed as [[]|e]; simpl; [|by apply Hres].
  destruct (if last then _ else _) as [[]|e] eqn:Efin; [|by apply Hres].
  destruct (Z.ltb_spec (max_message_size (cfg s2)) (tr_size tr + Z.of_nat (length data)));
    [by apply Hres|].
  set (tr' := mkTransaction _ _ _ _ _ _ _ _ _ _).
  assert (Htr : session_ok (set_state s2 (ReceivingData tr'))).
  { destruct Hok as (Hd & Ht & _). split; [done|]. split; [done|].
    by eapply (chunk_transaction_ok s2). }
  apply (op_ok_core env s2 (set_state s2 (ReceivingData tr'))); [done|].
  destruct last.
  { apply finalise_ok; [done..|]. apply chunks_framed; [|done]. by destruct Htr as (_ & _ & _ & _ & _ & _ & ? & _). }
  apply op_ok_same; [|done]. split; [done|]. split; [|done].
  intros tr2. simpl. intros [= <-]. done.
Qed.

Lemma refuse_chunk_ok env s w : ready s → op_ok env s (refuse_chunk s w).
Proof.
  intros Hr. unfold refuse_chunk. pose proof (op_ok_reset env s w (Continue INSUFFICIENT)) as Hreset.
  destruct (reset s w). apply Hreset; [apply Hr|apply Hr|done].
Qed.

Lemma bdat_chunk_ok env s w data last : ready s → op_ok env s (bdat_chunk env s w data last).
Proof.
  intros Hr. unfold bdat_chunk.
  set (pre := match state s with ReceivingData _ => _ | _ => _ end).
  assert (Hpre : same_core s pre.1.1 ∧ auth_failures pre.1.1 = auth_failures s).
  { subst pre. destruct (state s); try done. destruct (0 <? _); [|done].
    destruct (reserve_chunk s w _) as [[s' w'] ok] eqn:E. by apply reserve_chunk_same in E. }
  destruct pre as [[s1 w1] ok]. simpl in Hpre. destruct Hpre as [Hcore Hf1].
  pose proof (ready_core s s1 Hcore Hf1 Hr) as Hr1. apply (op_ok_core env s s1); [apply Hcore|].
  destruct ok; [by apply bdat_charged_ok|by apply refuse_chunk_ok].
Qed.

Lemma read_chunk_ok env s w reads last : ready s → op_ok env s (read_chunk env s w reads last).
Proof.
  intros Hr. unfold read_chunk. destruct (charge_reads s w reads) as [[s1 w1] ok] eqn:E.
  apply charge_reads_same in E as [Hcore Hf]. pose proof (ready_core s s1 Hcore Hf Hr) as Hr1.
  apply (op_ok_core env s s1); [apply Hcore|]. destruct ok; [by apply bdat_chunk_ok|by apply refuse_chunk_ok].
Qed.

(** ** Authentication *)

(** A session in which an AUTH exchange can run. *)
Definition authing (s : Session) : Prop :=
  ready s ∧ state s = Greeted ∧ tls_active s = true ∧ authenticated s = None.

(** What the exchange leaves alone, and what it may answer. *)
Definition auth_out (s : Session) (o : out) : Prop :=
  let '(s', _, a) := o in
  cfg s' = cfg s ∧ state s' = state s ∧ tls_active s' = tls_active s ∧ directory s' = directory s ∧
  strikes_ok s' a ∧
  match a with
  | Continue _ | Close _ => True
  | CollectAuthResponse _ => authenticated s' = None
  | _ => False
  end.

Lemma auth_out_ok env s o : authing s → auth_out s o → op_ok env s o.
Proof.
  destruct o as [[s' w] a]. intros ((Hok & _) & Hst & Htls & _) (Hc & Hs & Ht & Hd & Hk & Ha).
  rewrite Hst in Hs. rewrite Htls in Ht. split; simpl.
  { apply session_ok_greeted; [rewrite Hd; apply Hok|done|by left]. }
  split; [intros tr Htr; congruence|]. split; [done|]. split; [|done]. by destruct a.
Qed.

(** A session the handlers pass along while the exchange runs. *)
Definition auth_frame (s s' : Session) : Prop :=
  cfg s' = cfg s ∧ state s' = state s ∧ tls_active s' = tls_active s ∧ directory s' = directory s ∧
  authenticated s' = None ∧ 0 ≤ auth_failures s' ≤ 2.

Lemma auth_fail_out s s' w : auth_frame s s' → auth_out s (auth_fail s' w).
Proof.
  intros (Hc & Hs & Ht & Hd & _ & Hf). unfold auth_fail, auth_fail_counted, count_failure, auth_out.
  simpl. rewrite Z.mod_small by lia. split_and!; try done.
  - unfold strikes_ok. simpl. destruct (Z.leb_spec 3 (auth_failures s' + 1)); [right; by eexists|left; lia].
  - by destruct (3 <=? _).
Qed.

Lemma scram_failure_out s s' w : auth_frame s s' → auth_out s (scram_failure s' w).
Proof. intros Hf. apply auth_fail_out. done. Qed.

Lemma auth_continue_out s s' s'' w r :
  auth_frame s s' → cfg s'' = cfg s' → state s'' = state s' → tls_active s'' = tls_active s' →
  directory s'' = directory s' → auth_failures s'' = auth_failures s' →
  auth_out s (s'', w, Continue r).
Proof.
  intros (Hc & Hs & Ht & Hd & _ & Hf) ? ? ? ? Hf'. unfold auth_out, strikes_ok.
  rewrite Hf'. split_and!; try congruence; [by left|done].
Qed.

Lemma auth_collect_out s s' w r : auth_frame s s' → auth_out s (s', w, CollectAuthResponse r).
Proof. intros (Hc & Hs & Ht & Hd & Ha & Hf). unfold auth_out. split_and!; try done. by left. Qed.

Ltac auth_step :=
  first [ by apply auth_fail_out | by apply scram_failure_out
        | by eapply auth_continue_out | by apply auth_collect_out
        | case_match ].

Lemma verify_plain_out env s s' w e : auth_frame s s' → auth_out s (verify_plain env s' w e).
Proof.
  intros Hf. unfold verify_plain, apply_verdict, auth_success, auth_busy. by repeat auth_step.
Qed.

Lemma login_username_out env s s' w e : auth_frame s s' → auth_out s (login_username env s' w e).
Proof. intros Hf. unfold login_username. by repeat auth_step. Qed.

Lemma login_password_out env s s' w u e : auth_frame s s' → auth_out s (login_password env s' w u e).
Proof.
  intros Hf. unfold login_password, apply_verdict, auth_success, auth_busy. by repeat auth_step.
Qed.

Lemma verify_external_out env s s' w e : auth_frame s s' → auth_out s (verify_external env s' w e).
Proof. intros Hf. unfold verify_external, auth_success. by repeat auth_step. Qed.

Lemma oauth_bearer_out env s s' w i : auth_frame s s' → auth_out s (oauth_bearer env s' w i).
Proof.
  intros Hf. unfold oauth_bearer. destruct (negb _); [by eapply auth_continue_out|].
  by repeat auth_step.
Qed.

Lemma scram_client_first_out env s s' w e b :
  auth_frame s s' → auth_out s (scram_client_first env s' w e b).
Proof. intros Hf. unfold scram_client_first, scram_malformed. by repeat auth_step. Qed.

Lemma scram_client_final_out env s s' w e sv cr ac re di :
  auth_frame s s' → auth_out s (scram_client_final env s' w e sv cr ac re di).
Proof. intros Hf. unfold scram_client_final. by repeat auth_step. Qed.

Lemma scram_server_final_out env s s' w l ac di :
  auth_frame s s' → auth_out s (scram_server_final env s' w l ac di).
Proof. intros Hf. unfold scram_server_final. by repeat auth_step. Qed.

Lemma auth_response_ok env s w line : authing s → op_ok env s (auth_response env s w line).
Proof.
  intros Ha. apply auth_out_ok; [done|]. destruct Ha as ((_ & _ & Hf) & Hst & Htls & Hau).
  assert (Hfr : auth_frame s s) by (split_and!; done || lia).
  unfold auth_response. destruct (str_eqb line (lit "*")); [by eapply auth_continue_out|].
  destruct (pending_external s); [by apply verify_external_out|].
  destruct (pending_login s) as [[user|]|].
  - by apply login_password_out.
  - by apply login_username_out.
  - destruct (pending_scram s) as [[]|].
    + by apply scram_client_first_out.
    + by apply scram_client_final_out.
    + by apply scram_server_final_out.
    + by apply verify_plain_out.
Qed.

Lemma auth_ok env s w mech initial : ready s → op_ok env s (auth env s w mech initial).
Proof.
  intros Hr. unfold auth. destruct (tls_active s) eqn:Et; [|by apply op_ok_same]. cbn [negb].
  case_bool_decide as Hau; [by apply op_ok_same|].
  destruct (state s) eqn:Est; try (by apply op_ok_same).
  assert (Hn : authenticated s = None) by (by apply eq_None_not_Some).
  assert (Ha : authing s) by (split_and!; done).
  assert (Hfr : auth_frame s s) by (destruct Hr as (_ & _ & ?); split_and!; done || lia).
  destruct (Sasl.parse mech) as [m|]; [|by apply op_ok_same].
  destruct (negb _); [by apply op_ok_same|]. apply auth_out_ok; [done|].
  destruct m; unfold scram_begin; try destruct initial;
    first [by apply verify_external_out | by apply verify_plain_out | by apply oauth_bearer_out
          |by apply login_username_out|by apply scram_client_first_out|by apply auth_collect_out].
Qed.

(** ** Whole lines *)

Lemma count_junk_ok env s o j : op_ok env s o → op_ok env s (count_junk o j).
Proof.
  destruct o as [[s' w] a]. intros (Hok & Hid & Hc & Ha & Hf). simpl in *. unfold count_junk.
  destruct (count_step _ _ _) as [jc past]. destruct past; simpl.
  - assert (Hok' : session_ok (set_junk s' jc)) by (by apply (session_ok_core s')).
    pose proof (reset_ok (set_junk s' jc) w Hok') as [? ?].
    pose proof (reset_fields (set_junk s' jc) w) as (Ec & _).
    destruct (reset (set_junk s' jc) w) as [s2 w2]. split_and!; simpl; try done.
    + simpl in Ec. by rewrite Ec.
    + right. by eexists.
  - split; [by apply (session_ok_core s')|]. by split_and!.
Qed.

Lemma apply_ok env s w c : ready s → op_ok env s (apply env s w c).
Proof.
  intros Hr. destruct c; simpl.
  - by apply greet_ok.
  - by apply greet_ok.
  - by apply mail_from_ok.
  - by apply rcpt_to_ok.
  - by apply data_ok.
  - by apply bdat_ok.
  - destruct Hr as (Hok & _ & Hf). pose proof (op_ok_reset env s w (Continue Reply.ok) Hok Hf I) as Ho.
    by destruct (reset s w).
  - by apply op_ok_same.
  - by apply op_ok_same.
  - by apply op_ok_same.
  - by apply start_tls_ok.
  - by apply auth_ok.
Qed.

Lemma dispatch_ok env s w p : ready s → op_ok env s (dispatch env s w p).
Proof. intros Hr. destruct p as [c|[]]; simpl; [by apply apply_ok|by apply op_ok_same..]. Qed.

Lemma command_line_ok env s w line : ready s → op_ok env s (command_line env s w line).
Proof. intros Hr. apply count_junk_ok, dispatch_ok, Hr. Qed.

Lemma auth_line_ok env s w line : authing s → op_ok env s (auth_line env s w line).
Proof. intros Ha. apply count_junk_ok, auth_response_ok, Ha. Qed.

Lemma unreadable_command_ok env s w : ready s → op_ok env s (unreadable_command s w).
Proof. intros Hr. apply count_junk_ok, op_ok_same; done. Qed.

Lemma resolve_chunk_ok env s o reads : op_ok env s o → op_ok env s (resolve_chunk env o reads).
Proof.
  destruct o as [[s' w] a]. intros (Hok & Hid & Hc & Ha & Hf). simpl in *.
  destruct a; simpl; try (by split_and!).
  - apply (op_ok_core env s s'); [done|]. apply read_chunk_ok.
    split; [done|]. split; [done|]. by destruct Hf as [|[? ?]].
  - split_and!; try done. left. by destruct Hf as [|[? ?]].
Qed.

(** ** The connection *)

Definition conn_ok (c : Conn) : Prop :=
  closed c = true ∨
  match mode c with
  | Commands => ready (session c)
  | DataMode => receiving (session c)
  | AuthMode => authing (session c)
  end.

Lemma conn_ok_open c :
  conn_ok c → closed c = false → session_ok (session c) ∧ 0 ≤ auth_failures (session c) ≤ 2.
Proof.
  intros [Hcl|Hok] Hop; [congruence|].
  destruct (mode c); [destruct Hok as (?&?&?)|destruct Hok as (?&?&?)|destruct Hok as ((?&?&?)&?)]; done.
Qed.

Lemma conn_ok_tls c :
  conn_ok c → closed c = false → is_Some (authenticated (session c)) → tls_active (session c) = true.
Proof. intros Hok Hop. by apply conn_ok_open in Hok as [(_ & Ht & _) _]. Qed.

Lemma ready_set_directory s d : D d → ready s → ready (set_directory s d).
Proof. intros Hd ((_ & Ht & Hs) & Hid & Hf). split; [|by split]. by split. Qed.

Lemma run_action_ok env accepts id streak s o :
  op_ok env s o →
  let '(c, w, delivered) := run_action accepts id streak o in
  conn_ok c ∧ cfg (session c) = cfg s ∧
  (∀ m, delivered = Some m → message_ok env (session c) m ∧ tls_active (session c) = tls_active o.1.1).
Proof.
  destruct o as [[s' w] a]. intros (Hok & Hid & Hc & Ha & Hf). simpl in *.
  assert (Hr : (∀ r, a ≠ Close r) → ready s').
  { intros Hn. split; [done|]. split; [done|]. destruct Hf as [|[r Hr]]; [done|by destruct (Hn r)]. }
  destruct a; simpl; try (split; [by left|done]).
  - destruct (400 <=? _); [destruct (_ <=? _)|]; (split; [|done]);
      (by left) || (right; by apply Hr).
  - split; [|done]. right. destruct Ha as (tr & ? & ?).
    split; [done|]. split; [by apply Hr|]. by exists tr.
  - assert (Hcore : same_core s' (deliver_arm accepts s' w message).1 ∧
              auth_failures (deliver_arm accepts s' w message).1 = auth_failures s')
      by (unfold deliver_arm; simpl; by destruct (accepts message)).
    destruct (deliver_arm accepts s' w message) as [s2 w2]. destruct Hcore as [Hcore Hf2].
    pose proof Hcore as (Ec & Es & Et & Ea & Ed). simpl in *.
    split; [right; apply (ready_core s'); auto|]. split; [congruence|].
    intros m [= <-]. destruct Ha as [Hm _]. unfold message_ok in *. by rewrite Ec, Et, Ea.
  - assert (Hs : session_ok (set_client_identity s' id)) by (by apply (session_ok_core s')).
    split; [|done]. right. destruct Hs as (Hd & _). split; [by apply session_ok_greeted; auto|].
    split; [done|by apply Hr].
  - split; [|done]. right. split; [by apply Hr|apply Ha].
Qed.

Lemma authing_set_directory s d : D d → authing s → authing (set_directory s d).
Proof. intros Hd (Hr & ? & ? & ?). split_and!; try done. by apply ready_set_directory. Qed.

Lemma on_line_ok env accepts d id reads c w line :
  D d → legal MAX_LINE_LENGTH line → conn_ok c → closed c = false →
  let '(c', _, delivered) := on_line env accepts d id reads c w line in
  conn_ok c' ∧ cfg (session c') = cfg (session c) ∧
  (∀ m, delivered = Some m → message_ok env (session c') m).
Proof.
  intros Hd Hleg [Hcl|Hok] Hop; [congruence|]. unfold on_line.
  assert (Hrun : ∀ o, op_ok env (session c) o →
    let '(c', _, delivered) := run_action accepts id (error_streak c) (resolve_chunk env o reads) in
    conn_ok c' ∧ cfg (session c') = cfg (session c) ∧
    (∀ m, delivered = Some m → message_ok env (session c') m)).
  { intros o Ho. apply (resolve_chunk_ok env _ o reads), (run_action_ok env accepts id (error_streak c)) in Ho.
    destruct (run_action _ _ _ _) as [[c' w'] del]. destruct Ho as (? & ? & Hm).
    split_and!; try done. intros m Hdel. by apply Hm. }
  destruct (mode c).
  - destruct (from_utf8 line) as [text|].
    + apply Hrun. apply (op_ok_core env _ (set_directory (session c) d)); [done|].
      by apply command_line_ok, ready_set_directory.
    + by apply Hrun, unreadable_command_ok.
  - pose proof (data_line_ok env (session c) w line Hleg Hok) as Hline.
    destruct (data_line env (session c) w line) as [[s' w'] [a|]]; [by apply Hrun|].
    destruct Hline as [? ?]. split; [by right|done].
  - destruct (from_utf8 line) as [text|]; [|split; [by left|done]].
    apply Hrun. apply (op_ok_core env _ (set_directory (session c) d)); [done|].
    by apply auth_line_ok, authing_set_directory.
Qed.

(** A step of a connection: a line from the client, its end (the client
    leaves, a timeout, shutdown), or a change other connections make to the
    shared state. *)
Inductive conn_step : Conn * World → Conn * World → Prop :=
| line_step env accepts d id reads line c w c' w' delivered :
    D d → legal MAX_LINE_LENGTH line → closed c = false →
    on_line env accepts d id reads c w line = (c', w', delivered) →
    conn_step (c, w) (c', w')
| end_step c w : closed c = false → conn_step (c, w) (end_connection c w)
| other_step c w w' : conn_step (c, w) (c, w').

(** The connections an SMTP listener with configuration [cf] can reach. *)
Definition reachable (cf : Config) (c : Conn) (w : World) : Prop :=
  ∃ d limit implicit_tls offer_tls peer id w0, D d ∧
    rtc conn_step (open_connection cf d limit implicit_tls offer_tls peer id, w0) (c, w).

Lemma open_connection_ok cf d limit itls otls peer id :
  D d → conn_ok (open_connection cf d limit itls otls peer id).
Proof.
  intros Hd. right. unfold open_connection. simpl. destruct itls; [|destruct otls];
    (split; [apply session_ok_greeted; simpl; [done|by intros []|by right]|by split]).
Qed.

Lemma open_connection_cfg cf d limit itls otls peer id :
  cfg (session (open_connection cf d limit itls otls peer id)) = cf.
Proof. unfold open_connection. destruct itls; [|destruct otls]; done. Qed.

Lemma conn_step_ok cw cw' :
  conn_step cw cw' → conn_ok cw.1 → conn_ok cw'.1 ∧ cfg (session cw'.1) = cfg (session cw.1).
Proof.
  intros [env accepts d id reads line c w c' w' delivered Hd Hleg Hop Hl|c w Hop|c w w'] Hok; simpl in *.
  - pose proof (on_line_ok env accepts d id reads c w line Hd Hleg Hok Hop) as Ho. rewrite Hl in Ho. naive_solver.
  - split; [by left|done].
  - done.
Qed.

Lemma reachable_ok cf c w : reachable cf c w → conn_ok c ∧ cfg (session c) = cf.
Proof.
  intros (d & limit & itls & otls & peer & id & w0 & Hd & Hrtc).
  assert (Hinv : ∀ cw cw', rtc conn_step cw cw' → conn_ok cw.1 →
            conn_ok cw'.1 ∧ cfg (session cw'.1) = cfg (session cw.1)).
  { induction 1 as [cw|cw1 cw2 cw3 Hs _ IH]; [done|]. intros Hok.
    apply conn_step_ok in Hs as [Hok2 Hc]; [|done]. destruct (IH Hok2). split; [done|congruence]. }
  destruct (Hinv _ _ Hrtc) as [Hok Hc]; [by apply open_connection_ok|].
  split; [done|]. cbn [fst] in Hc. by rewrite Hc, open_connection_cfg.
Qed.

Lemma delivered_ok cf c w env accepts d id reads line c' w' m :
  reachable cf c w → closed c = false → D d → legal MAX_LINE_LENGTH line →
  on_line env accepts d id reads c w line = (c', w', Some m) →
  session_ok (session c') ∧ message_ok env (session c') m ∧ cfg (session c') = cf.
Proof.
  intros Hre Hop Hd Hleg Hl. apply reachable_ok in Hre as [Hok Hcf].
  pose proof (on_line_ok env accepts d id reads c w line Hd Hleg Hok Hop) as Ho. rewrite Hl in Ho.
  destruct Ho as (Hok' & Hc & Hm). specialize (Hm m eq_refl).
  split; [|split; [done|congruence]].
  destruct Hok' as [Hcl|Hmode].
  - exfalso. clear -Hl Hcl. unfold on_line in Hl.
    repeat case_match; try done; unfold run_action in Hl; repeat case_match; simplify_eq; done.
  - destruct (mode c'); [by destruct Hmode|by destruct Hmode|by destruct Hmode as [[] _]].
Qed.

(** C1: No open relay. Whatever the client sends, over whatever connection and
    however the directory is reloaded meanwhile, every recipient of a message
    an unauthenticated session hands to delivery is an address that a
    published directory resolves to an account or an alias of this server. *)
Theorem no_open_relay cf c w env accepts d id reads line c' w' m r :
  reachable cf c w → closed c = false → D d → legal MAX_LINE_LENGTH line →
  on_line env accepts d id reads c w line = (c', w', Some m) →
  authenticated (session c') = None → r ∈ msg_recipients m →
  ∃ a d', r = display_address a ∧ D d' ∧
    ((∃ account, Directory.resolve d' a = Account account) ∨
     (∃ accounts, Directory.resolve d' a = Alias accounts)).
Proof.
  intros Hre Hop Hd Hleg Hl Hau Hr.
  destruct (delivered_ok _ _ _ _ _ _ _ _ _ _ _ _ Hre Hop Hd Hleg Hl) as (_ & ((_ & Hrec & _) & _) & _).
  rewrite Forall_forall in Hrec. destruct (Hrec r Hr) as (raw & a & d' & _ & -> & Hd' & Hu & Hn).
  exists a, d'. split; [done|]. split; [done|]. specialize (Hn Hau).
  destruct (Directory.resolve d' a); [done|done|left|right]; by eexists.
Qed.

(** C2: A submitted message speaks for its account. When an authenticated
    session hands a message to delivery, the session is over TLS, the envelope
    sender is an address a published directory says the account owns, and so
    is the single address of the message's From header. *)
Theorem submission_sender_owned cf c w env accepts d id reads line c' w' m account :
  reachable cf c w → closed c = false → D d → legal MAX_LINE_LENGTH line →
  on_line env accepts d id reads c w line = (c', w', Some m) →
  authenticated (session c') = Some account →
  tls_active (session c') = true ∧
  (∃ a d', parse_address (msg_reverse_path m) = Ok a ∧ D d' ∧ Directory.owns_address d' account a = true) ∧
  (∃ from a d', author env (msg_data m) = Addresses [from] ∧ parse_address from = Ok a ∧ D d' ∧
     Directory.owns_address d' account a = true).
Proof.
  intros Hre Hop Hd Hleg Hl Hau.
  destruct (delivered_ok _ _ _ _ _ _ _ _ _ _ _ _ Hre Hop Hd Hleg Hl)
    as ((_ & Htls & _) & ((Hs & _) & _ & _ & _ & Hfrom) & _).
  split; [apply Htls; by rewrite Hau|]. rewrite Hau in Hs. split; [done|]. by apply Hfrom.
Qed.

(** C9: A delivered message is within the configured limits: it has a
    recipient and at most [max_recipients] of them, its body is at most
    [max_message_size] octets, and it asks for TLS onward only when it came
    over TLS itself. *)
Theorem delivered_within_limits cf c w env accepts d id reads line c' w' m :
  0 ≤ max_message_size cf → 1 ≤ max_recipients cf →
  reachable cf c w → closed c = false → D d → legal MAX_LINE_LENGTH line →
  on_line env accepts d id reads c w line = (c', w', Some m) →
  1 ≤ Z.of_nat (length (msg_recipients m)) ≤ max_recipients cf ∧
  Z.of_nat (length (msg_data m)) ≤ max_message_size cf ∧
  (msg_require_tls m = true → tls_active (session c') = true).
Proof.
  intros Hms Hmr Hre Hop Hd Hleg Hl.
  destruct (delivered_ok _ _ _ _ _ _ _ _ _ _ _ _ Hre Hop Hd Hleg Hl)
    as (_ & ((_ & _ & Hne & Hcount) & Hrt & Hlen & _) & Hc).
  rewrite Hc in Hcount, Hlen. split_and!; [|lia|lia|done].
  destruct (msg_recipients m); [done|]. simpl. lia.
Qed.


(** C4: No smuggling through the server. The body of every message handed to
    delivery, brought by DATA or by BDAT in any chunks, is CRLF-framed text: no
    CR or LF outside a line ending, no NUL, and no line that passes the limit
    once it is dot-stuffed to be sent on. *)
Theorem delivered_well_framed cf c w env accepts d id reads line c' w' m :
  reachable cf c w → closed c = false → D d → legal MAX_LINE_LENGTH line →
  on_line env accepts d id reads c w line = (c', w', Some m) →
  well_framed true MAX_LINE_LENGTH 0 (msg_data m).
Proof.
  intros Hre Hop Hd Hleg Hl.
  by destruct (delivered_ok _ _ _ _ _ _ _ _ _ _ _ _ Hre Hop Hd Hleg Hl) as (_ & (_ & _ & _ & Hf & _) & _).
Qed.

End invariants.
