(* ===== verification/SmtpMemory.v ===== *)
(** The memory the SMTP sessions hold: every operation of a session keeps the
    budget of src/src/smtp/memory_budget/mod.rs equal to the sum of the
    reservations the sessions hold, so that no body is counted twice and none
    is left counted when its connection is gone. *)

From S2P Require Import Prelude RustStd Utf8 Address Directory IpNet Admission RateLimit.
From S2P Require Import LineFraming SmtpReply SmtpCommand SmtpSession SmtpConnection.

Local Open Scope Z_scope.

Section memory.
Context `{Unicode} `{MapOrder} `{ScramTypes}.

(** The budget's cap and client share, and what other sessions hold. *)
Context (cap share : Z) (rest : list (option IpAddr * MemoryBudget.Reservation)).
Hypothesis cap_range : 0 < cap < u64_max.

(** One session holds a reservation for the body, one for the chunk being
    read and one for the message being delivered. *)
Definition held (s : Session) : list (option IpAddr * MemoryBudget.Reservation) :=
  [(peer_ip s, state_reservation (state s)); (peer_ip s, chunk_reservation s);
   (peer_ip s, delivery_reservation s)].

Definition accounted (b : MemoryBudget.t) (p : option IpAddr) (r1 r2 r3 : MemoryBudget.Reservation)
    : Prop :=
  budget_inv cap share (b, [(p, r1); (p, r2); (p, r3)] ++ rest).

Definition mem (s : Session) (w : World) : Prop :=
  accounted (budget w) (peer_ip s) (state_reservation (state s)) (chunk_reservation s)
    (delivery_reservation s).

Lemma accounted_swap12 b p r1 r2 r3 : accounted b p r1 r2 r3 → accounted b p r2 r1 r3.
Proof. apply budget_inv_perm, Permutation_swap. Qed.
Lemma accounted_swap23 b p r1 r2 r3 : accounted b p r1 r2 r3 → accounted b p r1 r3 r2.
Proof. apply budget_inv_perm. simpl. apply Permutation_cons, Permutation_swap. done. Qed.

Lemma accounted_drop1 b p r1 r2 r3 :
  accounted b p r1 r2 r3 → accounted (MemoryBudget.drop_reservation b r1) p MemoryBudget.none r2 r3.
Proof. intros Ha. apply budget_inv_none. by apply (budget_drop_inv cap share cap_range b [] p r1). Qed.

Lemma accounted_drop2 b p r1 r2 r3 :
  accounted b p r1 r2 r3 → accounted (MemoryBudget.drop_reservation b r2) p r1 MemoryBudget.none r3.
Proof. intros Ha. by apply accounted_swap12, accounted_drop1, accounted_swap12. Qed.

Lemma accounted_drop3 b p r1 r2 r3 :
  accounted b p r1 r2 r3 → accounted (MemoryBudget.drop_reservation b r3) p r1 r2 MemoryBudget.none.
Proof. intros Ha. by apply accounted_swap23, accounted_drop2, accounted_swap23. Qed.

Lemma accounted_grow1 b p r1 r2 r3 n b' r' :
  0 ≤ n → MemoryBudget.try_grow b r1 p n = Ok (b', r') →
  accounted b p r1 r2 r3 → accounted b' p r' r2 r3.
Proof. intros Hn Hg. by apply (budget_grow_inv cap share cap_range b [] p r1 _ n). Qed.

Lemma accounted_grow2 b p r1 r2 r3 n b' r' :
  0 ≤ n → MemoryBudget.try_grow b r2 p n = Ok (b', r') →
  accounted b p r1 r2 r3 → accounted b' p r1 r' r3.
Proof. intros Hn Hg Ha. eapply accounted_swap12, accounted_grow1; [done..|]. by apply accounted_swap12. Qed.

Lemma accounted_absorb b p r1 r2 r3 :
  accounted b p r1 r2 r3 → accounted b p (MemoryBudget.absorb r1 r2) MemoryBudget.none r3.
Proof.
  intros Ha. apply accounted_swap12, budget_inv_none.
  by apply (budget_absorb_inv cap share cap_range b [] p r1 [] r2).
Qed.

Lemma accounted_move b p r1 r2 : accounted b p r1 r2 MemoryBudget.none → accounted b p MemoryBudget.none r2 r1.
Proof. intros Ha. by apply accounted_swap12, accounted_swap23, accounted_swap12. Qed.

(** ** What moves a reservation *)

Lemma release_none w : budget (release w MemoryBudget.none) = budget w.
Proof. done. Qed.

Lemma replace_state_mem s w st :
  state_reservation st = MemoryBudget.none → mem s w →
  mem (replace_state s w st).1 (replace_state s w st).2.
Proof. unfold mem. simpl. intros ->. apply accounted_drop1. Qed.

Lemma reset_mem s w : mem s w → mem (reset s w).1 (reset s w).2.
Proof.
  intros Hm. apply accounted_drop2 in Hm.
  assert (Hm' : mem (set_chunk_reservation s MemoryBudget.none) (release w (chunk_reservation s))) by done.
  unfold reset. cbn [state set_chunk_reservation]. destruct (state s); try done;
    by apply replace_state_mem.
Qed.

(** [reset] while the chunk's reservation is out of the session. *)
Lemma reset_chunk_mem s w chunk :
  chunk_reservation s = MemoryBudget.none →
  accounted (budget w) (peer_ip s) (state_reservation (state s)) chunk (delivery_reservation s) →
  mem (reset s w).1 (release (reset s w).2 chunk).
Proof.
  intros Hc Ha. unfold reset. rewrite Hc. cbn [state set_chunk_reservation].
  assert (Ha' : accounted (MemoryBudget.drop_reservation (budget w) chunk) (peer_ip s)
            (state_reservation (state s)) MemoryBudget.none (delivery_reservation s))
    by (by apply accounted_drop2).
  unfold mem. destruct (state s) eqn:Est; simpl; rewrite ?Est; simpl in *; try done.
  by apply accounted_drop2, accounted_drop1.
Qed.

Lemma tls_started_mem s w : mem s w → mem (tls_started s w).1 (tls_started s w).2.
Proof. intros Hm. by apply (replace_state_mem s w Connected). Qed.

Lemma reserve_chunk_mem s w n s' w' ok :
  0 ≤ n → reserve_chunk s w n = (s', w', ok) → mem s w → mem s' w'.
Proof.
  intros Hn. unfold reserve_chunk. destruct (memory_budget (cfg s)); [|by intros [= <- <- <-]].
  destruct (MemoryBudget.try_grow _ _ _ _) as [[b r]|] eqn:Eg; intros [= <- <- <-]; [|done].
  intros Hm. eapply accounted_grow2; [|done|]; done.
Qed.

Lemma charge_reads_mem reads s w s' w' ok :
  charge_reads s w reads = (s', w', ok) → mem s w → mem s' w'.
Proof.
  revert s w. induction reads as [|r reads IH]; simpl; intros s w Hc Hm.
  { by injection Hc as <- <- <-. }
  destruct (reserve_chunk s w (Z.of_nat (length r))) as [[s1 w1] [|]] eqn:Er.
  - eapply IH; [done|]. eapply reserve_chunk_mem; [|done|done]. lia.
  - injection Hc as <- <- <-. eapply reserve_chunk_mem; [|done|done]. lia.
Qed.

(** The session as far as its memory goes. *)
Definition same_mem (s s' : Session) : Prop :=
  peer_ip s' = peer_ip s ∧ state s' = state s ∧ chunk_reservation s' = chunk_reservation s ∧
  delivery_reservation s' = delivery_reservation s.

Lemma same_mem_mem s s' w w' : same_mem s s' → budget w' = budget w → mem s w → mem s' w'.
Proof. intros (Hp & Hs & Hc & Hd) Hb. unfold mem. by rewrite Hp, Hs, Hc, Hd, Hb. Qed.

Definition mem_out (o : out) : Prop := mem o.1.1 o.1.2.

(** ** The end of a message *)

Lemma split_over_quota_mem env s m size : same_mem s (split_over_quota env s m size).1.
Proof.
  unfold split_over_quota, exclude_over_quota. destruct (quota (cfg s)); [|done].
  destruct (match overflowing _ _ _ _ _ with [] => _ | _ => _ end); [done|].
  destruct (_ =? _)%nat; [done|]. simpl.
  destruct (List.filter _ (overflowing _ _ _ _ _)); [done|]. by destruct (build_bounce _ _ _ _ _).
Qed.

Lemma cap_check_budget env s w rs : budget (cap_check env s w rs).1 = budget w.
Proof.
  unfold cap_check. destruct (authenticated s); [|done]. by destruct (correspondents (cfg s)).
Qed.

Lemma charge_submission_budget env s w m : budget (charge_submission env s w m).1 = budget w.
Proof.
  unfold charge_submission. destruct (authenticated s); [|done].
  by destruct (SubmissionBudget.charge _ _ _ _).
Qed.

Lemma inner_finalise_mem env s w m size ex reserved :
  state s = Greeted →
  accounted (budget w) (peer_ip s) reserved (chunk_reservation s) (delivery_reservation s) →
  mem_out (inner_finalise env s w m size ex reserved).
Proof.
  intros Hst Ha.
  assert (Hrel : ∀ w', budget w' = budget w → ∀ a, mem_out (s, release w' reserved, a)).
  { intros w' Hb a. unfold mem_out, mem. simpl. rewrite Hst, Hb. by apply accounted_drop1. }
  unfold inner_finalise. destruct ex; [by apply Hrel|]. destruct (_ <? _); [by apply Hrel|].
  destruct (author_check _ _ _); [by apply Hrel|].
  pose proof (cap_check_budget env s w (msg_recipients m)) as Hcap.
  destruct (cap_check _ _ _ _) as [w1 [reply|]]; [by apply Hrel|]. simpl in Hcap.
  pose proof (charge_submission_budget env s w1 m) as Hch.
  destruct (charge_submission _ _ _ _) as [w2 [charge|]]; simpl in Hch; [|apply Hrel; congruence].
  pose proof (split_over_quota_mem env s m size) as (Hp & Hs & Hc & Hd).
  destruct (split_over_quota _ _ _ _) as [s' [m'|]]; simpl in *.
  - unfold mem_out, mem. simpl. rewrite Hp, Hs, Hst, Hc, Hd, Hch, Hcap. simpl.
    by apply accounted_move, accounted_drop3.
  - unfold mem_out, mem. simpl. rewrite Hp, Hs, Hst, Hc, Hd.
    assert (Hb : budget (match charge with
                         | Some c => set_limiters w2 (SubmissionBudget.refund (limiters w2) c)
                         | None => w2 end) = budget w) by (destruct charge; simpl; congruence).
    rewrite Hb. by apply accounted_drop1.
Qed.

Lemma finalise_from_state_mem env s w : mem s w → mem_out (finalise_from_state env s w).
Proof.
  unfold mem, finalise_from_state. destruct (state s) eqn:Est; try done.
  intros Ha. by apply inner_finalise_mem.
Qed.

Lemma data_line_mem env s w line s' w' a : data_line env s w line = (s', w', a) → mem s w → mem s' w'.
Proof.
  unfold data_line. case_bool_decide; intros Hl Hm.
  { pose proof (finalise_from_state_mem env s w Hm) as Ho.
    destruct (finalise_from_state env s w) as [[s1 w1] a1]. by injection Hl as <- <- <-. }
  destruct (state s) as [| | |tr] eqn:Est;
    try (pose proof (reset_mem s w Hm); destruct (reset s w) as [s1 w1]; by injection Hl as <- <- <-).
  assert (Ha : accounted (budget w) (peer_ip s) (tr_reserved tr) (chunk_reservation s)
            (delivery_reservation s)) by (unfold mem in Hm; by rewrite Est in Hm).
  destruct (_ <? _); [by injection Hl as <- <- <-|].
  destruct (memory_budget (cfg s)); [|by injection Hl as <- <- <-].
  destruct (MemoryBudget.try_grow _ _ _ _) as [[b r]|] eqn:Eg; injection Hl as <- <- <-; [|done].
  eapply accounted_grow1; [|done|done]. lia.
Qed.

(** ** BDAT *)

Lemma bdat_mem s w size last : mem s w → mem_out (bdat s w size last).
Proof.
  intros Hm. unfold bdat. pose proof (reset_mem s w Hm) as Hr.
  destruct (reset s w) as [s1 w1]. destruct (_ <? _); [done|].
  destruct (state s) eqn:Est; try done. by apply accounted_drop2 in Hm.
Qed.

Lemma refuse_chunk_mem s w : mem s w → mem_out (refuse_chunk s w).
Proof. intros Hm. unfold refuse_chunk. apply reset_mem in Hm. by destruct (reset s w). Qed.

(** A chunk already charged: its reservation is absorbed into the body's, or
    handed back. *)
Lemma bdat_charged_mem env s w data last :
  mem s w →
  mem_out (bdat_charged env s w data last).
Proof.
  intros Hm. unfold bdat_charged. cbv zeta.
  pose proof (reset_chunk_mem (set_chunk_reservation s MemoryBudget.none) w (chunk_reservation s)
    eq_refl Hm) as Hr.
  destruct (reset (set_chunk_reservation s MemoryBudget.none) w) as [s1 w1]. cbn [fst snd] in Hr.
  cbn [state set_chunk_reservation]. destruct (state s) as [| | |tr] eqn:Est; try done.
  destruct (LineCheck.feed _ _ _) as [check fed]. case_match; [|done].
  destruct (_ <? _); [done|].
  assert (Ha : accounted (budget w) (peer_ip s)
            (MemoryBudget.absorb (tr_reserved tr) (chunk_reservation s)) MemoryBudget.none
            (delivery_reservation s)).
  { apply accounted_absorb. unfold mem in Hm. by rewrite Est in Hm. }
  destruct last; [|done]. by apply inner_finalise_mem.
Qed.

Lemma bdat_chunk_mem env s w data last : mem s w → mem_out (bdat_chunk env s w data last).
Proof.
  intros Hm. unfold bdat_chunk.
  set (pre := match state s with ReceivingData _ => _ | _ => _ end).
  assert (Hpre : mem pre.1.1 pre.1.2).
  { subst pre. destruct (state s); try done. destruct (0 <? _) eqn:En; [|done].
    destruct (reserve_chunk s w _) as [[s' w'] ok] eqn:E.
    eapply reserve_chunk_mem; [|done|done]. apply Z.ltb_lt in En. lia. }
  destruct pre as [[s1 w1] ok]. destruct ok; [by apply bdat_charged_mem|by apply refuse_chunk_mem].
Qed.

Lemma read_chunk_mem env s w reads last : mem s w → mem_out (read_chunk env s w reads last).
Proof.
  intros Hm. unfold read_chunk. destruct (charge_reads s w reads) as [[s1 w1] ok] eqn:E.
  apply charge_reads_mem in E; [|done]. destruct ok; [by apply bdat_chunk_mem|by apply refuse_chunk_mem].
Qed.

(** ** The other commands *)

Lemma greet_mem s w domain e : mem s w → mem_out (greet s w domain e).
Proof. intros Hm. apply (replace_state_mem s w Greeted eq_refl) in Hm. by destruct e. Qed.

Lemma check_limiter_budget w id key per_min now : budget (check_limiter w id key per_min now).1 = budget w.
Proof. unfold check_limiter. destruct (limiters w !! id); [|done]. by destruct (WindowLimiter.check _ _ _ _). Qed.

Lemma check_inbound_budget env s w rp : budget (check_inbound env s w rp).1 = budget w.
Proof.
  unfold check_inbound.
  set (first := match inbound_ip (cfg s) with Some _ => _ | None => _ end).
  assert (H1st : budget first.1 = budget w).
  { subst first. destruct (inbound_ip (cfg s)) as [[id pm]|]; [|done].
    destruct (peer_ip s); [apply check_limiter_budget|done]. }
  destruct first as [w1 ok]. destruct ok; [|done]. cbn [negb].
  set (second := match inbound_sender (cfg s) with Some _ => _ | None => _ end).
  assert (H2nd : budget second.1 = budget w1).
  { subst second. destruct (inbound_sender (cfg s)) as [[id pm]|]; [|done].
    destruct (is_empty rp); [done|apply check_limiter_budget]. }
  destruct second as [w2 ok]. simpl in *. destruct ok; simpl; congruence.
Qed.

Lemma mail_from_mem env s w rp size rt : mem s w → mem_out (mail_from env s w rp size rt).
Proof.
  intros Hm. unfold mail_from. destruct (state s) eqn:Est; try done.
  destruct (rt && negb (tls_active s)); [done|]. destruct (sender_refused s rp); [done|].
  destruct (match authenticated s with Some account => _ | None => _ end); [done|].
  set (lim := match authenticated s with None => _ | Some _ => _ end).
  assert (Hb : budget lim.1 = budget w)
    by (subst lim; destruct (authenticated s); [done|apply check_inbound_budget]).
  destruct lim as [w1 limited]. simpl in Hb.
  assert (Hm1 : mem s w1) by (by eapply same_mem_mem).
  destruct limited; [done|]. destruct (match size with Some n => _ | None => _ end); [done|].
  destruct (negb _); [done|]. by apply (replace_state_mem s w1).
Qed.

Lemma rcpt_to_mem env s w fp notify : mem s w → mem_out (rcpt_to env s w fp notify).
Proof.
  intros Hm. unfold rcpt_to. destruct (negb _); [done|].
  destruct (parse_address fp) as [a|]; [|done]. destruct (recipient_refused env s a); [done|].
  destruct (state s) as [| |rp rt|tr] eqn:Est; try done.
  - by apply (replace_state_mem s w).
  - destruct (is_empty (tr_body tr) && negb (tr_chunking tr)); [|done]. destruct (_ <=? _); [done|].
    unfold mem_out, mem in *. by rewrite Est in Hm.
Qed.

(** Authentication touches no reservation. *)
Ltac mem_same :=
  repeat first [ match goal with Hm : mem _ _ |- mem_out _ => exact Hm end | case_match ].

Lemma auth_response_mem env s w line : mem s w → mem_out (auth_response env s w line).
Proof.
  intros Hm. unfold auth_response, verify_external, login_username, login_password, scram_client_first,
    scram_malformed, scram_client_final, scram_server_final, verify_plain, apply_verdict,
    auth_success, auth_busy, scram_failure, count_scram_failure, auth_fail, auth_fail_counted, count_failure.
  mem_same.
Qed.

Lemma auth_mem env s w mech initial : mem s w → mem_out (auth env s w mech initial).
Proof.
  intros Hm. unfold auth, scram_begin, oauth_bearer, verify_external, login_username,
    scram_client_first, scram_malformed, verify_plain, apply_verdict,
    auth_success, auth_busy, scram_failure, count_scram_failure, auth_fail, auth_fail_counted, count_failure.
  mem_same.
Qed.

Lemma apply_mem env s w c : mem s w → mem_out (apply env s w c).
Proof.
  intros Hm. destruct c; simpl; try done.
  - by apply greet_mem.
  - by apply greet_mem.
  - by apply mail_from_mem.
  - by apply rcpt_to_mem.
  - unfold data. mem_same.
  - by apply bdat_mem.
  - apply reset_mem in Hm. by destruct (reset s w).
  - unfold start_tls. mem_same.
  - by apply auth_mem.
Qed.

Lemma count_junk_mem o j : mem_out o → mem_out (count_junk o j).
Proof.
  destruct o as [[s w] a]. intros Hm. unfold count_junk. destruct (count_step _ _ _) as [jc past].
  destruct past; [|done]. cbn [negb]. pose proof (reset_mem (set_junk s jc) w Hm) as Hr.
  by destruct (reset (set_junk s jc) w).
Qed.

Lemma command_line_mem env s w line : mem s w → mem_out (command_line env s w line).
Proof.
  intros Hm. apply count_junk_mem. unfold dispatch. destruct (parse line) as [c|[]]; try done.
  by apply apply_mem.
Qed.

Lemma resolve_chunk_mem env o reads : mem_out o → mem_out (resolve_chunk env o reads).
Proof. destruct o as [[s w] a]. intros Hm. destruct a; try done. by apply read_chunk_mem. Qed.

(** ** The connection *)

Lemma end_connection_mem c w :
  mem (session c) w → mem (session (end_connection c w).1) (end_connection c w).2.
Proof.
  intros Hm. unfold end_connection, mem. simpl.
  by apply accounted_drop3, accounted_drop2, accounted_drop1.
Qed.

Lemma run_action_mem accepts id streak o :
  mem_out o → mem (session (run_action accepts id streak o).1.1) (run_action accepts id streak o).1.2.
Proof.
  destruct o as [[s w] a]. intros Hm.
  assert (Hend : ∀ k, mem (session (end_connection (mkConn s Commands k false) w).1)
                        (end_connection (mkConn s Commands k false) w).2)
    by (intros k; by apply end_connection_mem).
  destruct a; cbn [run_action].
  - destruct (400 <=? _); [destruct (_ <=? _)|]; [apply Hend|done|done].
  - done.
  - apply Hend.
  - apply Hend.
  - unfold deliver_arm. simpl. apply accounted_drop3 in Hm. by destruct (accepts message).
  - by apply (tls_started_mem (set_client_identity s id) w).
  - done.
  - apply Hend.
Qed.

Lemma on_line_mem env accepts d id reads c w line c' w' m :
  on_line env accepts d id reads c w line = (c', w', m) → mem (session c) w → mem (session c') w'.
Proof.
  intros Hl Hm.
  assert (Hrun : ∀ o, mem_out o →
    run_action accepts id (error_streak c) (resolve_chunk env o reads) = (c', w', m) →
    mem (session c') w').
  { intros o Ho Hr. apply (resolve_chunk_mem env o reads), (run_action_mem accepts id (error_streak c)) in Ho.
    by rewrite Hr in Ho. }
  assert (Hd : mem (set_directory (session c) d) w) by done.
  unfold on_line in Hl. destruct (mode c).
  - destruct (from_utf8 line) as [text|]; (eapply Hrun; [|exact Hl]).
    + by apply command_line_mem.
    + by apply count_junk_mem.
  - destruct (data_line env (session c) w line) as [[s1 w1] a] eqn:Ed.
    apply data_line_mem in Ed; [|done]. destruct a as [a|]; [by eapply (Hrun (s1, w1, a))|].
    by injection Hl as <- <- <-.
  - destruct (from_utf8 line) as [text|].
    + eapply Hrun; [|exact Hl]. by apply count_junk_mem, auth_response_mem.
    + pose proof (end_connection_mem c w Hm) as He.
      destruct (end_connection c w) as [c1 w1]. by injection Hl as <- <- <-.
Qed.

End memory.

(** ** Every connection of the server *)

Section server.
Context `{Unicode} `{MapOrder} `{ScramTypes}.

(** The connections of the server share one budget. Connections are accepted,
    receive lines in any interleaving and end; whatever else runs leaves the
    budget alone. *)
Inductive server_step : list Conn * World → list Conn * World → Prop :=
| accept_step cs w cf d limit implicit_tls offer_tls peer id :
    server_step (cs, w) (open_connection cf d limit implicit_tls offer_tls peer id :: cs, w)
| client_step cs1 c cs2 w env accepts d id reads line c' w' delivered :
    closed c = false → on_line env accepts d id reads c w line = (c', w', delivered) →
    server_step (cs1 ++ c :: cs2, w) (cs1 ++ c' :: cs2, w')
| leave_step cs1 c cs2 w :
    closed c = false →
    server_step (cs1 ++ c :: cs2, w) (cs1 ++ (end_connection c w).1 :: cs2, (end_connection c w).2)
| elsewhere_step cs w w' : budget w' = budget w → server_step (cs, w) (cs, w').

Definition held_by (cs : list Conn) : list (option IpAddr * MemoryBudget.Reservation) :=
  flat_map (λ c, held (session c)) cs.

Lemma held_by_perm cs1 c cs2 :
  held_by (cs1 ++ c :: cs2) ≡ₚ held (session c) ++ held_by cs1 ++ held_by cs2.
Proof.
  unfold held_by. rewrite flat_map_app. cbn [flat_map]. by rewrite Permutation_app_swap_app.
Qed.

Lemma accounted_held cap share cs1 c cs2 w :
  mem cap share (held_by cs1 ++ held_by cs2) (session c) w ↔
  budget_inv cap share (budget w, held_by (cs1 ++ c :: cs2)).
Proof. split; apply budget_inv_perm; by rewrite held_by_perm. Qed.

(** A closed connection holds nothing. *)
Definition closed_empty (c : Conn) : Prop :=
  closed c = true → total_bytes (held (session c)) = 0.

Lemma run_action_closed accepts id streak o : closed_empty (run_action accepts id streak o).1.1.
Proof.
  destruct o as [[s w] a]. unfold run_action. destruct a; try done.
  - destruct (400 <=? _); [destruct (_ <=? _)|]; done.
  - unfold deliver_arm. simpl. by destruct (accepts message).
Qed.

Lemma on_line_closed env accepts d id reads c w line :
  closed_empty (on_line env accepts d id reads c w line).1.1.
Proof.
  unfold on_line. destruct (mode c).
  - destruct (from_utf8 line); apply run_action_closed.
  - destruct (data_line env (session c) w line) as [[s1 w1] [a|]]; [apply run_action_closed|done].
  - destruct (from_utf8 line); [apply run_action_closed|done].
Qed.

Lemma open_connection_held cf d limit itls otls peer id :
  held (session (open_connection cf d limit itls otls peer id)) =
    [(peer, MemoryBudget.none); (peer, MemoryBudget.none); (peer, MemoryBudget.none)].
Proof. unfold open_connection. destruct itls; [|destruct otls]; done. Qed.

Context (cap share : Z).
Hypothesis cap_range : 0 < cap < u64_max.

Definition server_inv (sw : list Conn * World) : Prop :=
  budget_inv cap share (budget sw.2, held_by sw.1) ∧ Forall closed_empty sw.1.

Lemma server_step_inv sw sw' : server_step sw sw' → server_inv sw → server_inv sw'.
Proof.
  intros Hs [Hb Hc]. destruct Hs as [cs w cf d limit itls otls peer id|
    cs1 c cs2 w env accepts d id reads line c' w' del Hop Hl|cs1 c cs2 w Hop|cs w w' Hw];
    unfold server_inv; cbn [fst snd] in *.
  - split.
    + unfold held_by. cbn [flat_map]. rewrite open_connection_held. simpl.
      by rewrite !budget_inv_none.
    + constructor; [|done]. intros Hcl. unfold open_connection in Hcl. by destruct itls, otls.
  - split.
    + apply accounted_held in Hb. apply accounted_held. by eapply on_line_mem.
    + rewrite Forall_app, Forall_cons in *. split_and!; try apply Hc.
      pose proof (on_line_closed env accepts d id reads c w line) as Hcl. by rewrite Hl in Hcl.
  - split.
    + apply accounted_held in Hb. apply accounted_held. by apply end_connection_mem.
    + rewrite Forall_app, Forall_cons in *. split_and!; try apply Hc. by intros _.
  - by rewrite Hw.
Qed.

Lemma server_reachable_inv w0 sw :
  budget w0 = MemoryBudget.with_client_share (MemoryBudget.with_cap cap) share → 0 ≤ share →
  rtc server_step ([], w0) sw → server_inv sw.
Proof.
  intros Hw0 Hsh. apply (rtc_ind_r (λ sw, server_inv sw)).
  - split; [|constructor]. cbn [fst snd]. rewrite Hw0.
    by apply (budget_reachable_inv cap share cap_range _ Hsh), rtc_refl.
  - intros sw1 sw2 _ Hs. by apply server_step_inv.
Qed.

Lemma closed_total cs :
  Forall closed_empty cs → Forall (λ c, closed c = true) cs → total_bytes (held_by cs) = 0.
Proof.
  induction 1 as [|c cs Hc _ IH]; [done|]. intros [Hcl Hcls]%Forall_cons.
  change (held_by (c :: cs)) with (held (session c) ++ held_by cs).
  rewrite total_bytes_app, Hc, IH; done.
Qed.


End server.
