(* ===== verification/SmtpGuarantees.v ===== *)
(** What a client can make an SMTP connection do: how long it can keep one
    without getting anywhere, and what it takes to be logged in. *)

From S2P Require Import Prelude RustStd Utf8 Address Directory IpNet Admission RateLimit.
From S2P Require Import LineFraming SmtpReply SmtpCommand SmtpSession SmtpConnection.
From S2P Require Import SmtpSessionTheory.

Local Open Scope Z_scope.

Section progress.
Context `{Unicode} `{MapOrder} `{ScramTypes}.

(** ** Commands that lead nowhere *)

(** One line with everything the outside answers while it is handled;
    [in_world] is what other connections did to the shared state before it. *)
Record Input := mkInput {
  in_env : Env;
  in_accepts : AcceptedMessage → bool;
  in_directory : Directory.t;
  in_identity : option (list Z);
  in_reads : list (list Z);
  in_world : World → World;
  in_line : list Z
}.

Definition feed_line (c : Conn) (w : World) (i : Input) : Conn * World :=
  (on_line (in_env i) (in_accepts i) (in_directory i) (in_identity i) (in_reads i) c
     (in_world i w) (in_line i)).1.

(** The lines the server counts as junk: those of an AUTH exchange, and
    commands that change nothing. *)
Definition junk_line (c : Conn) (i : Input) : bool :=
  match mode c, from_utf8 (in_line i) with
  | AuthMode, Some _ => true
  | Commands, Some text => is_junk (set_directory (session c) (in_directory i)) (parse text)
  | _, _ => false
  end.

(** Lines in order until the connection closes, with the number of junk ones. *)
Fixpoint serve (c : Conn) (w : World) (inputs : list Input) : Conn * World * Z :=
  match inputs with
  | [] => (c, w, 0)
  | i :: inputs =>
      if closed c then (c, w, 0)
      else
        let '(c', w') := feed_line c w i in
        let '(c2, w2, n) := serve c' w' inputs in
        (c2, w2, n + (if junk_line c i then 1 else 0))
  end.

(** Only [count_junk] and [message_delivered] touch the counters, and only AUTH
    changes who is logged in. *)

(** The counters, who is logged in, and the SCRAM exchange under way. *)
Definition kept (s : Session) : JunkCount * option (list Z) * option PendingScram :=
  (junk s, authenticated s, pending_scram s).

Ltac same_kept :=
  repeat first [reflexivity | progress cbn [fst snd] | case_match].

Lemma reset_kept s w : kept (reset s w).1 = kept s.
Proof. unfold reset. cbn [state set_chunk_reservation]. destruct (state s); done. Qed.

Lemma inner_finalise_kept env s w m size ex reserved :
  kept (inner_finalise env s w m size ex reserved).1.1 = kept s.
Proof.
  unfold inner_finalise. destruct ex; [done|]. destruct (_ <? _); [done|].
  destruct (author_check _ _ _); [done|]. destruct (cap_check _ _ _ _) as [w1 [|]]; [done|].
  destruct (charge_submission _ _ _ _) as [w2 [charge|]]; [|done].
  assert (Hq : kept (split_over_quota env s m size).1 = kept s).
  { unfold split_over_quota, exclude_over_quota. same_kept. }
  by destruct (split_over_quota env s m size) as [s' [m'|]].
Qed.

Lemma reserve_chunk_kept s w n : kept (reserve_chunk s w n).1.1 = kept s.
Proof. unfold reserve_chunk. same_kept. Qed.

Lemma charge_reads_kept reads : ∀ s w, kept (charge_reads s w reads).1.1 = kept s.
Proof.
  induction reads as [|r reads IH]; intros s w; simpl; [done|].
  pose proof (reserve_chunk_kept s w (Z.of_nat (length r))) as Hr.
  destruct (reserve_chunk s w (Z.of_nat (length r))) as [[s1 w1] [|]]; simpl in *; [|done].
  by rewrite IH.
Qed.

Lemma bdat_charged_kept env s w data last : kept (bdat_charged env s w data last).1.1 = kept s.
Proof.
  unfold bdat_charged. cbv zeta.
  pose proof (reset_kept (set_chunk_reservation s MemoryBudget.none) w) as Hr.
  destruct (reset (set_chunk_reservation s MemoryBudget.none) w) as [s1 w1]. cbn [fst] in Hr.
  cbn [state set_chunk_reservation]. destruct (state s) as [| | |tr]; try exact Hr.
  destruct (LineCheck.feed _ _ _) as [check fed]. case_match; [|exact Hr].
  destruct (_ <? _); [exact Hr|]. destruct last; [|done].
  unfold finalise. cbn [state set_state]. by rewrite inner_finalise_kept.
Qed.

Lemma read_chunk_kept env s w reads last : kept (read_chunk env s w reads last).1.1 = kept s.
Proof.
  assert (Href : ∀ s w, kept (refuse_chunk s w).1.1 = kept s).
  { intros s0 w0. unfold refuse_chunk. pose proof (reset_kept s0 w0). by destruct (reset s0 w0). }
  unfold read_chunk. pose proof (charge_reads_kept reads s w) as Hc.
  destruct (charge_reads s w reads) as [[s1 w1] ok]. simpl in Hc. rewrite <-Hc.
  destruct ok; [|apply Href]. unfold bdat_chunk.
  set (pre := match state s1 with ReceivingData _ => _ | _ => _ end).
  assert (Hpre : kept pre.1.1 = kept s1).
  { subst pre. destruct (state s1); try done. destruct (0 <? _); [apply reserve_chunk_kept|done]. }
  destruct pre as [[s2 w2] ok2]. simpl in Hpre. rewrite <-Hpre.
  destruct ok2; [apply bdat_charged_kept|apply Href].
Qed.

Lemma auth_response_junk env s w line : junk (auth_response env s w line).1.1 = junk s.
Proof.
  unfold auth_response, verify_external, login_username, login_password, scram_client_first,
    scram_malformed, scram_client_final, scram_server_final, verify_plain, apply_verdict,
    auth_success, auth_busy, scram_failure, auth_fail, auth_fail_counted, count_failure.
  same_kept.
Qed.

Lemma auth_junk env s w mech initial : junk (auth env s w mech initial).1.1 = junk s.
Proof.
  unfold auth, scram_begin, oauth_bearer, verify_external, login_username,
    scram_client_first, scram_malformed, verify_plain, apply_verdict,
    auth_success, auth_busy, scram_failure, auth_fail, auth_fail_counted, count_failure.
  same_kept.
Qed.

Lemma apply_kept env s w c :
  (∀ mech initial, c ≠ Auth mech initial) → kept (apply env s w c).1.1 = kept s.
Proof.
  intros Hc. pose proof (reset_kept s w) as Hr. destruct c; cbn [apply]; try done.
  - unfold mail_from, replace_state. same_kept.
  - unfold rcpt_to, replace_state. same_kept.
  - unfold data. same_kept.
  - unfold bdat. destruct (reset s w). same_kept; done.
  - by destruct (reset s w).
  - unfold start_tls. same_kept.
  - by destruct (Hc mechanism initial).
Qed.

Lemma kept_junk s s' : kept s = kept s' → junk s = junk s'.
Proof. by intros [= -> _ _]. Qed.

Lemma apply_junk env s w c : junk (apply env s w c).1.1 = junk s.
Proof. destruct c; try (apply kept_junk, apply_kept; done). apply auth_junk. Qed.

Lemma data_line_kept env s w line : kept (data_line env s w line).1.1 = kept s.
Proof.
  unfold data_line. case_bool_decide.
  - assert (Hf : kept (finalise_from_state env s w).1.1 = kept s).
    { unfold finalise_from_state. destruct (state s); try done. by rewrite inner_finalise_kept. }
    by destruct (finalise_from_state _ _ _) as [[s1 w1] a].
  - pose proof (reset_kept s w). destruct (reset _ _). same_kept; done.
Qed.

Context (limit : Z).
Hypothesis limit_range : 0 < limit < u32_max.

(** The counters after [n] junk lines, short of the limit. *)
Definition counters (n : Z) (j : JunkCount) : Prop :=
  junk_limit j = limit ∧ junk_count j = n ∧ 0 ≤ n ≤ limit ∧ 0 ≤ refused_count j ≤ limit.

Definition counted (n : Z) (o : out) : Prop := (∃ r, o.2 = Close r) ∨ counters n (junk o.1.1).

Lemma count_junk_counted n o (b : bool) :
  counters n (junk o.1.1) → counted (n + (if b then 1 else 0)) (count_junk o b).
Proof.
  destruct o as [[s w] a]. cbn [fst snd]. intros (Hl & Hc & Hn & Hr). unfold count_junk, count_step.
  set (refused := match a with Continue reply | DiscardChunk _ reply => 400 <=? code reply | _ => false end).
  rewrite Hl. destruct (Z.eqb_spec limit 0); [lia|]. cbv zeta.
  unfold saturating_add. rewrite !Hc.
  assert (Hclose : ∀ j, counted (n + (if b then 1 else 0))
    (let '(s, w) := reset (set_junk s j) w in (s, w, Close NO_PROGRESS))).
  { intros j. left. destruct (reset _ _). by eexists. }
  destruct b; [|destruct refused];
    cbn [junk_limit junk_count refused_count].
  - rewrite !Z.min_l by lia. destruct (Z.ltb_spec limit (n + 1)); cbn [orb negb]; [apply Hclose|].
    destruct (Z.ltb_spec limit (refused_count (junk s))); cbn [orb negb]; [apply Hclose|].
    right. repeat split; simpl; try done; lia.
  - rewrite !Z.min_l by lia. destruct (Z.ltb_spec limit n); [lia|]. cbn [orb].
    destruct (Z.ltb_spec limit (refused_count (junk s) + 1)); cbn [orb negb]; [apply Hclose|].
    right. repeat split; simpl; try done; lia.
  - right. repeat split; simpl; try done; lia.
Qed.

Definition conn_counted (n : Z) (c : Conn) : Prop :=
  closed c = true ∨ counters n (junk (session c)) ∧ 0 ≤ error_streak c < MAX_ERROR_STREAK.

Lemma run_action_counted accepts id streak n env o reads :
  0 ≤ streak < MAX_ERROR_STREAK → counted n o →
  conn_counted n (run_action accepts id streak (resolve_chunk env o reads)).1.1.
Proof.
  intros Hs Ho.
  assert (Hr : counted n (resolve_chunk env o reads)).
  { destruct o as [[s w] a]. destruct Ho as [[r Hr]|Hj]; simpl in *.
    - subst a. left. by exists r.
    - destruct a; try (by right). right. unfold resolve_chunk. by rewrite (kept_junk _ _ (read_chunk_kept env s w reads last0)). }
  clear Ho. destruct (resolve_chunk env o reads) as [[s w] a]. unfold conn_counted.
  destruct Hr as [[r Hr]|Hj]; simpl in *; [subst a; by left|].
  destruct a; simpl; try (by left); try (by right).
  - destruct (400 <=? _); [|right; by split].
    destruct (Z.leb_spec MAX_ERROR_STREAK (streak + 1)); [by left|right; split; [done|simpl; lia]].
  - right. unfold deliver_arm. simpl. destruct (accepts message); [|done].
    destruct Hj as (? & ? & ? & ?). split; [|done]. repeat split; simpl; done || lia.
Qed.

Lemma feed_line_counted n c w i :
  closed c = false → conn_counted n c →
  conn_counted (n + (if junk_line c i then 1 else 0)) (feed_line c w i).1.
Proof.
  intros Hop [Hcl|[Hj Hs]]; [congruence|]. unfold feed_line, junk_line, on_line.
  destruct (mode c).
  - destruct (from_utf8 (in_line i)) as [text|]; apply run_action_counted; [done| |done|].
    + apply count_junk_counted. unfold dispatch. destruct (parse text) as [cmd|[]]; try done.
      by rewrite apply_junk.
    + by apply (count_junk_counted n _ false).
  - rewrite Z.add_0_r.
    pose proof (kept_junk _ _ (data_line_kept (in_env i) (session c) (in_world i w) (in_line i))) as Hd.
    destruct (data_line _ _ _ _) as [[s1 w1] [a|]]; simpl in Hd.
    + apply run_action_counted; [done|]. right. cbn [fst]. by rewrite Hd.
    + right. simpl. by rewrite Hd.
  - destruct (from_utf8 (in_line i)) as [text|]; [|by left]. apply run_action_counted; [done|].
    apply count_junk_counted. by rewrite auth_response_junk.
Qed.

Lemma serve_counted inputs : ∀ n c w c' w' k,
  conn_counted n c → serve c w inputs = (c', w', k) → conn_counted (n + k) c'.
Proof.
  induction inputs as [|i inputs IH]; intros n c w c' w' k Hc; simpl.
  { intros [= <- <- <-]. by rewrite Z.add_0_r. }
  destruct (closed c) eqn:Ecl; [intros [= <- <- <-]; by left|].
  pose proof (feed_line_counted n c w i Ecl Hc) as Hf. destruct (feed_line c w i) as [c1 w1].
  destruct (serve c1 w1 inputs) as [[c2 w2] m] eqn:Es. intros [= <- <- <-].
  pose proof (IH _ _ _ _ _ _ Hf Es) as Hr. by replace (n + (m + _)) with (n + (if junk_line c i then 1 else 0) + m) by lia.
Qed.


End progress.

(** ** What it takes to be logged in *)

Section login.
Context `{Unicode} `{MapOrder} `{ScramTypes}.

(** The server's side of a SCRAM exchange was opened for the login of a plan
    made on the directory [issued]. *)
Definition scram_opened (server : ScramServer) (credentials : ScramCredentials) (account : list Z)
    (refusal : option ScramRefusal) (issued : Directory.t) : Prop :=
  ∃ env username peer protocol nonce binding client_first server_first,
    let plan := plan_scram env issued username peer protocol in
    username_of env client_first = Some username ∧
    credentials = plan_credentials plan ∧ account = plan_account plan ∧ refusal = plan_refusal plan ∧
    scram_first env nonce binding client_first credentials = Some (server, server_first).

(** The client's proof was verified in an exchange that no refusal hangs over. *)
Definition scram_proved (account : list Z) (issued : Directory.t) : Prop :=
  ∃ env server credentials client_final server_final,
    scram_opened server credentials account None issued ∧
    scram_finish env server client_final credentials = Some server_final.

Definition scram_ok (p : option PendingScram) : Prop :=
  match p with
  | Some (ClientFinal server credentials account refusal issued) =>
      scram_opened server credentials account refusal issued
  | Some (ServerFinal account issued) => scram_proved account issued
  | _ => True
  end.

(** Why a session may count as [account]'s: the password check admitted it, the
    client certificate names its address, a token was issued to it, or the
    client proved its password by SCRAM, it is not banned, and its credentials
    have not changed meanwhile. *)
Inductive admitted (env : Env) (s : Session) (account : list Z) : Prop :=
| by_password login password label :
    authenticate_verdict env (directory s) login password (peer_ip s) (auth_protocol (cfg s))
      = LoginAdmitted account label →
    admitted env s account
| by_certificate identity a :
    client_identity s = Some identity → parse_address identity = Ok a →
    Directory.resolve_exact (directory s) a = Some account →
    Directory.admit_login (directory s) account (auth_protocol (cfg s)) Federated = true →
    admitted env s account
| by_token token :
    oauth (cfg s) = true → verify_token env (directory s) token = Some account →
    Directory.admit_login (directory s) account (auth_protocol (cfg s))
      (if second_factor_attested env then Federated else Bearer) = true →
    admitted env s account
| by_scram issued :
    scram_proved account issued →
    check_ban env account (peer_ip s) (auth_protocol (cfg s)) ≠ Banned →
    scram_credentials_current env (directory s) account issued (auth_protocol (cfg s)) = true →
    admitted env s account.

(** A session the handlers pass along. *)
Definition login_frame (s s' : Session) : Prop :=
  cfg s' = cfg s ∧ directory s' = directory s ∧ peer_ip s' = peer_ip s ∧
  client_identity s' = client_identity s ∧ authenticated s' = authenticated s.

Definition login_session (env : Env) (s s' : Session) : Prop :=
  (authenticated s' = authenticated s ∨
   ∃ account, authenticated s' = Some account ∧ admitted env s account) ∧
  scram_ok (pending_scram s').

Definition login_out (env : Env) (s : Session) (o : out) : Prop := login_session env s o.1.1.

Lemma login_same env s s' w a :
  authenticated s' = authenticated s → scram_ok (pending_scram s') → login_out env s (s', w, a).
Proof. intros Ha Hp. split; [by left|done]. Qed.

Lemma auth_fail_login env s s' w :
  login_frame s s' → scram_ok (pending_scram s') → login_out env s (auth_fail s' w).
Proof. intros (_ & _ & _ & _ & Ha) Hp. by apply login_same. Qed.

Lemma scram_failure_login env s s' w : login_frame s s' → login_out env s (scram_failure s' w).
Proof. intros (_ & _ & _ & _ & Ha). by apply login_same. Qed.

Lemma auth_success_login env s s' s'' w account r :
  login_frame s s' → scram_ok (pending_scram s'') → authenticated s'' = Some account →
  admitted env s account → login_out env s (s'', w, Continue r).
Proof. intros _ Hp Ha Had. split; [right; eauto|done]. Qed.

Ltac login_step :=
  first [ by apply auth_fail_login | by apply scram_failure_login
        | by apply login_same | case_match ].

Lemma password_login env s s' w login password :
  login_frame s s' → scram_ok (pending_scram s') →
  login_out env s (apply_verdict s' w
    (authenticate_verdict env (directory s') login password (peer_ip s') (auth_protocol (cfg s')))).
Proof.
  intros Hf Hp. pose proof Hf as (Hc & Hd & Hi & Hid & Ha). unfold apply_verdict.
  destruct (authenticate_verdict _ _ _ _ _ _) as [account label| |] eqn:Ev.
  - eapply auth_success_login; [done|done|done|]. rewrite Hd, Hi, Hc in Ev. by eapply by_password.
  - by apply auth_fail_login.
  - by apply login_same.
Qed.

Lemma verify_plain_login env s s' w e :
  login_frame s s' → scram_ok (pending_scram s') → login_out env s (verify_plain env s' w e).
Proof.
  intros Hf Hp. unfold verify_plain. destruct (parse_plain env e) as [[login password]|];
    [by apply password_login|by apply auth_fail_login].
Qed.

Lemma login_username_login env s s' w e :
  login_frame s s' → scram_ok (pending_scram s') → login_out env s (login_username env s' w e).
Proof. intros Hf Hp. pose proof Hf as (_ & _ & _ & _ & Ha). unfold login_username. by repeat login_step. Qed.

Lemma login_password_login env s s' w u e :
  login_frame s s' → scram_ok (pending_scram s') → login_out env s (login_password env s' w u e).
Proof.
  intros Hf Hp. unfold login_password.
  destruct (base64_decode _ _); [by apply password_login|by apply auth_fail_login].
Qed.

Lemma verify_external_login env s s' w e :
  login_frame s s' → scram_ok (pending_scram s') → login_out env s (verify_external env s' w e).
Proof.
  intros Hf Hp. pose proof Hf as (Hc & Hd & Hi & Hid & Ha). unfold verify_external.
  destruct (client_identity s') as [identity|] eqn:Eid; [|by apply auth_fail_login].
  case_match; [|by apply auth_fail_login]. destruct (negb _ && negb _); [by apply auth_fail_login|].
  destruct (parse_address identity) as [a|] eqn:Ea; [|by apply auth_fail_login].
  destruct (Directory.resolve_exact (directory s') a) as [account|] eqn:Er; [|by apply auth_fail_login].
  destruct (Directory.admit_login _ _ _ _) eqn:El; [|by apply auth_fail_login]. cbn [negb].
  eapply auth_success_login; [done|done|done|]. rewrite Hd in Er, El. rewrite Hc in El.
  eapply by_certificate; [|done..]. congruence.
Qed.

Lemma oauth_bearer_login env s s' w i :
  login_frame s s' → scram_ok (pending_scram s') → login_out env s (oauth_bearer env s' w i).
Proof.
  intros Hf Hp. pose proof Hf as (Hc & Hd & Hi & Hid & Ha). unfold oauth_bearer.
  destruct (oauth (cfg s')) eqn:Eo; [|by apply login_same]. cbn [negb].
  destruct i as [encoded|]; simpl; [|by apply auth_fail_login].
  destruct (parse_bearer env encoded) as [token|]; simpl; [|by apply auth_fail_login].
  destruct (verify_token env (directory s') token) as [account|] eqn:Et; simpl; [|by apply auth_fail_login].
  destruct (Directory.admit_login _ _ _ _) eqn:El; [|by apply auth_fail_login].
  eapply auth_success_login; [done|done|done|]. rewrite Hd in Et, El. rewrite Hc in El, Eo.
  by eapply by_token.
Qed.

Lemma scram_client_first_login env s s' w e b :
  login_frame s s' → login_out env s (scram_client_first env s' w e b).
Proof.
  intros Hf. pose proof Hf as (Hc & Hd & Hi & Hid & Ha). unfold scram_client_first, scram_malformed.
  destruct (decode env e) as [first|]; [|by repeat login_step].
  destruct (username_of env first) as [username|] eqn:Eu; [|by repeat login_step]. cbv zeta.
  destruct (fresh_nonce env) as [nonce|]; [|by repeat login_step].
  destruct (scram_first _ _ _ _ _) as [[server server_first]|] eqn:Es; [|by repeat login_step].
  apply login_same; [done|]. simpl.
  by exists env, username, (peer_ip s'), (auth_protocol (cfg s')), nonce, b, first, server_first.
Qed.

Lemma scram_client_final_login env s s' w e server credentials account refusal issued :
  login_frame s s' → scram_opened server credentials account refusal issued →
  login_out env s (scram_client_final env s' w e server credentials account refusal issued).
Proof.
  intros Hf Ho. pose proof Hf as (_ & _ & _ & _ & Ha). unfold scram_client_final.
  destruct refusal as [[|counted]|]; [by apply scram_failure_login..|].
  destruct (check_ban _ _ _ _); try (by apply scram_failure_login).
  all: destruct (decode env e) as [final|]; [|by apply scram_failure_login].
  all: destruct (scram_finish env server final credentials) as [msg|] eqn:Efin;
    [|by apply scram_failure_login].
  all: destruct (scram_credentials_current _ _ _ _ _); [|by apply scram_failure_login].
  all: apply login_same; [done|]; simpl; by exists env, server, credentials, final, msg.
Qed.

Lemma scram_server_final_login env s s' w l account issued :
  login_frame s s' → pending_scram s' = None → scram_proved account issued →
  login_out env s (scram_server_final env s' w l account issued).
Proof.
  intros Hf Hn Hpr. pose proof Hf as (Hc & Hd & Hi & Hid & Ha). unfold scram_server_final.
  destruct (negb _); [apply login_same; by rewrite ?Hn|]. cbv zeta.
  assert (Hfin : ∀ bypassed,
    check_ban env account (peer_ip s') (auth_protocol (cfg s')) ≠ Banned →
    login_out env s
      (if negb (scram_credentials_current env (directory s') account issued (auth_protocol (cfg s')))
       then scram_failure s' (record_ban_outcome w account (Some account) false false)
       else (set_authenticated s' (Some account), record_ban_outcome w account (Some account) true bypassed,
             Continue AUTH_OK))).
  { intros bypassed Hban.
    destruct (scram_credentials_current _ _ _ _ _) eqn:Ec; [|by apply scram_failure_login]. cbn [negb].
    eapply auth_success_login; [done|simpl; by rewrite Hn|done|].
    rewrite Hd, Hc in Ec. rewrite Hi, Hc in Hban. by eapply by_scram. }
  destruct (check_ban _ _ _ _) eqn:Eb; by first [apply scram_failure_login | apply Hfin].
Qed.

Lemma auth_login env s w mech initial :
  scram_ok (pending_scram s) → login_out env s (auth env s w mech initial).
Proof.
  intros Hp. assert (Hf : login_frame s s) by (by repeat split). unfold auth.
  destruct (negb _); [by apply login_same|]. case_bool_decide; [by apply login_same|].
  destruct (state s); try (by apply login_same).
  destruct (Sasl.parse mech) as [m|]; [|by apply login_same]. destruct (negb _); [by apply login_same|].
  destruct m; unfold scram_begin; try destruct initial;
    first [by apply verify_external_login | by apply verify_plain_login | by apply oauth_bearer_login
          |by apply login_username_login|by apply scram_client_first_login|by apply login_same].
Qed.

Lemma auth_response_login env s w line :
  scram_ok (pending_scram s) → login_out env s (auth_response env s w line).
Proof.
  intros Hp. unfold auth_response. destruct (str_eqb line (lit "*")); [by apply login_same|].
  destruct (pending_external s); [by apply verify_external_login|].
  destruct (pending_login s) as [[user|]|].
  - by apply login_password_login.
  - by apply login_username_login.
  - destruct (pending_scram s) as [[]|].
    + by apply scram_client_first_login.
    + by apply scram_client_final_login.
    + by apply scram_server_final_login.
    + by apply verify_plain_login.
Qed.

(** ** Along a connection *)

Lemma kept_login env s s' w a :
  kept s' = kept s → scram_ok (pending_scram s) → login_out env s (s', w, a).
Proof. intros [= _ Ha Hp] Hok. apply login_same; [done|]. by rewrite Hp. Qed.

Lemma apply_login env s w c : scram_ok (pending_scram s) → login_out env s (apply env s w c).
Proof.
  intros Hok.
  assert (Hk : (∀ mech initial, c ≠ Auth mech initial) → login_out env s (apply env s w c)).
  { intros Hc%(apply_kept env s w). destruct (apply env s w c) as [[s' w'] a]. by apply kept_login. }
  destruct c; try (by apply Hk). by apply auth_login.
Qed.

Lemma count_junk_login env s o b : login_out env s o → login_out env s (count_junk o b).
Proof.
  destruct o as [[s1 w1] a]. intros Ho. unfold count_junk. destruct (count_step _ _ _) as [j past].
  destruct past; [|done]. cbn [negb].
  pose proof (reset_kept (set_junk s1 j) w1) as Hr. destruct (reset _ _) as [s2 w2].
  injection Hr as _ Ha Hp. unfold login_out, login_session in *. cbn [fst] in *. by rewrite Ha, Hp.
Qed.

Lemma run_action_login env s o accepts id streak reads :
  login_out env s o →
  login_session env s (session (run_action accepts id streak (resolve_chunk env o reads)).1.1).
Proof.
  intros Ho.
  assert (Hr : login_out env s (resolve_chunk env o reads)).
  { destruct o as [[s1 w1] a]. destruct a; try done. unfold resolve_chunk.
    pose proof (read_chunk_kept env s1 w1 reads last0) as [= _ Ha Hp].
    unfold login_out, login_session in *. cbn [fst] in *. by rewrite Ha, Hp. }
  destruct (resolve_chunk env o reads) as [[s2 w2] a].
  unfold login_out, login_session in *. cbn [fst snd] in *. destruct a; try exact Hr.
  - cbn [run_action]. destruct (400 <=? _); [destruct (_ <=? _)|]; exact Hr.
  - cbn [run_action]. unfold deliver_arm. simpl. destruct (accepts message); exact Hr.
Qed.

Lemma on_line_login env accepts d id reads c w line :
  scram_ok (pending_scram (session c)) →
  login_session env (set_directory (session c) d) (session (on_line env accepts d id reads c w line).1.1).
Proof.
  intros Hok. unfold on_line. set (s := set_directory (session c) d).
  assert (Hs : scram_ok (pending_scram s)) by done.
  assert (Hsame : login_session env s (session c)) by (split; [by left|done]).
  destruct (mode c).
  - destruct (from_utf8 line) as [text|]; apply run_action_login, count_junk_login; [|done].
    unfold dispatch. destruct (parse text) as [cmd|[]]; try (by apply login_same). by apply apply_login.
  - pose proof (data_line_kept env (session c) w line) as Hk.
    destruct (data_line env (session c) w line) as [[s1 w1] [a|]]; cbn [fst] in Hk.
    + by apply run_action_login, kept_login.
    + by apply (kept_login env s s1 w1 (Close Reply.ok)).
  - destruct (from_utf8 line) as [text|]; [|done].
    by apply run_action_login, count_junk_login, auth_response_login.
Qed.

Lemma reachable_scram_ok D cf c w : reachable D cf c w → scram_ok (pending_scram (session c)).
Proof.
  intros (d & limit & itls & otls & peer & id & w0 & _ & Hr).
  refine (rtc_ind_r (λ cw : Conn * World, scram_ok (pending_scram (session cw.1))) _ _ _ (c, w) Hr).
  { unfold open_connection. by destruct itls, otls. }
  intros x y _ Hs IH.
  destruct Hs as [env accepts d' id' reads line c1 w1 c2 w2 m Hd _ _ Hl| |]; [|done..].
  pose proof (on_line_login env accepts d' id' reads c1 w1 line IH) as [_ Hok]. by rewrite Hl in Hok.
Qed.


End login.

(** ** DATA is transparent *)

Section transparency.
Context `{Unicode} `{MapOrder} `{ScramTypes}.

Lemma dot_stuff_not_end line : dot_stuff line ≠ [DOT].
Proof. destruct line as [|b line]; simpl; [done|]. destruct (Z.eqb_spec b DOT); congruence. Qed.

Lemma unstuff_stuff line : default (dot_stuff line) (strip_prefix [DOT] (dot_stuff line)) = line.
Proof.
  unfold strip_prefix. destruct line as [|b line]; [done|]. cbn [dot_stuff].
  destruct (Z.eqb_spec b DOT) as [->|Hne]; [done|]. cbn [starts_with].
  destruct (Z.eqb_spec DOT b); [congruence|done].
Qed.

(** The lines of a connection in order; the message delivered last. *)
Fixpoint serve_lines (env : Env) (accepts : AcceptedMessage → bool) (d : Directory.t) (c : Conn)
    (w : World) (lines : list (list Z)) : Conn * World * option AcceptedMessage :=
  match lines with
  | [] => (c, w, None)
  | line :: lines =>
      let '(c, w, m) := on_line env accepts d None [] c w line in
      match lines with
      | [] => (c, w, m)
      | _ => serve_lines env accepts d c w lines
      end
  end.

Lemma serve_lines_cons env accepts d c w line lines :
  lines ≠ [] →
  serve_lines env accepts d c w (line :: lines) =
    let '(c, w, _) := on_line env accepts d None [] c w line in serve_lines env accepts d c w lines.
Proof. by destruct lines. Qed.

(** The transaction once a body line was kept. *)
Definition grown (tr : Transaction) (line : list Z) : Transaction :=
  mkTransaction (tr_reverse_path tr) (tr_recipients tr) (tr_no_dsn tr)
    (tr_size tr + (Z.of_nat (length line) + 2)) (tr_body tr ++ line ++ [CR; LF]) (tr_require_tls tr)
    (tr_chunking tr) (tr_line_check tr) (tr_reserved tr) (tr_budget_exhausted tr).

Lemma data_line_grown env s w tr line :
  state s = ReceivingData tr → memory_budget (cfg s) = false →
  tr_size tr + (Z.of_nat (length line) + 2) ≤ max_message_size (cfg s) →
  data_line env s w (dot_stuff line) = (set_state s (ReceivingData (grown tr line)), w, None).
Proof.
  intros Hst Hb Hmax. unfold data_line. rewrite bool_decide_false by apply dot_stuff_not_end.
  rewrite Hst. cbv zeta. rewrite unstuff_stuff. destruct (Z.ltb_spec (max_message_size (cfg s))
    (tr_size tr + (Z.of_nat (length line) + 2))); [lia|]. by rewrite Hb.
Qed.

Lemma length_wire_cons (l : list Z) ls :
  Z.of_nat (length (wire (l :: ls))) = Z.of_nat (length l) + 2 + Z.of_nat (length (wire ls)).
Proof. rewrite wire_cons, !length_app. simpl. lia. Qed.

(** The transaction after all the lines. *)
Lemma grown_all tr lines :
  foldl grown tr lines =
    mkTransaction (tr_reverse_path tr) (tr_recipients tr) (tr_no_dsn tr)
      (tr_size tr + Z.of_nat (length (wire lines))) (tr_body tr ++ wire lines) (tr_require_tls tr)
      (tr_chunking tr) (tr_line_check tr) (tr_reserved tr) (tr_budget_exhausted tr).
Proof.
  revert tr. induction lines as [|l ls IH]; intros tr.
  - destruct tr. cbn. by rewrite app_nil_r, Z.add_0_r.
  - cbn [foldl]. rewrite IH, length_wire_cons, wire_cons. unfold grown, CRLF. simpl.
    rewrite <-!app_assoc. f_equal. lia.
Qed.

Lemma serve_body env accepts d s w k tr lines final :
  state s = ReceivingData tr → memory_budget (cfg s) = false →
  tr_size tr + Z.of_nat (length (wire lines)) ≤ max_message_size (cfg s) →
  serve_lines env accepts d (mkConn s DataMode k false) w (map dot_stuff lines ++ [final]) =
  on_line env accepts d None []
    (mkConn (set_state s (ReceivingData (foldl grown tr lines))) DataMode k false) w final.
Proof.
  revert s w tr. induction lines as [|l ls IH]; intros s w tr Hst Hb Hmax.
  - simpl. replace (set_state s (ReceivingData tr)) with s; [|destruct s; simpl in *; by subst].
    by destruct (on_line _ _ _ _ _ _ _ _) as [[c1 w1] m1].
  - rewrite length_wire_cons in Hmax.
    assert (Hl : on_line env accepts d None [] (mkConn s DataMode k false) w (dot_stuff l) =
      (mkConn (set_state s (ReceivingData (grown tr l))) DataMode k false, w, None)).
    { unfold on_line. cbn [mode session]. rewrite (data_line_grown env s w tr l) by (done || lia). done. }
    cbn [map app]. rewrite serve_lines_cons by (by destruct ls). rewrite Hl.
    rewrite (IH (set_state s (ReceivingData (grown tr l))) w (grown tr l)); [done|done|done|].
    simpl. lia.
Qed.


End transparency.
