(* ===== verification/SmtpScenario.v ===== *)
(** Concrete runs of the SMTP server: a relay attempt, an inbound message and
    an authenticated submission, evaluated through the connection loop. They
    show that the hypotheses of the theorems about every connection are met. *)

From S2P Require Import Prelude RustStd Utf8 Address Directory IpNet Admission RateLimit.
From S2P Require Import LineFraming SmtpReply SmtpCommand SmtpSession SmtpConnection.
From S2P Require Import SmtpSessionTheory SmtpMemory SmtpGuarantees.

Local Open Scope Z_scope.

#[local] Existing Instance ascii_unicode.
#[local] Existing Instance map_order.
#[local] Instance unit_scram : ScramTypes := {| ScramServer := unit; ScramCredentials := unit |}.

(** An outside that decodes every PLAIN response as bob's credentials. *)
Definition plain_bob : list Z := [NUL] ++ lit "bob" ++ [NUL] ++ lit "secret".

Definition example_env : Env := {|
  unix_now := 1000;
  base64_decode := λ _, Some plain_bob;
  base64_encode := λ bytes, bytes;
  authenticate_verdict := λ _ login password _ _,
    if str_eqb login (lit "bob") && str_eqb password (lit "secret")
    then LoginAdmitted (lit "bob") None else LoginRefused;
  check_ban := λ _ _ _, BanClear None;
  plan_scram := λ _ _ _ _, mkPlan tt [] None;
  scram_credentials_current := λ _ _ _ _, true;
  fresh_nonce := None;
  username_of := λ _, None;
  scram_first := λ _ _ _ _, None;
  scram_finish := λ _ _ _, None;
  verify_token := λ _ _, None;
  second_factor_attested := false;
  has_rate_limits := false;
  submission_limiters := λ _, [];
  disk_has_room := λ _, true;
  mailbox_usage := λ _, 0;
  new_recipients_limited := λ _ _, false;
  reject_ambiguous_headers := λ _, None;
  author := λ _, Addresses [lit "bob@example.org"];
  build_bounce := λ _ _ _ _, None
|}.

Definition example_config : Config :=
  mkConfig (lit "mx.example.org") 1000 5 false None None None None None false false None false
    Submission false true.

Definition published (d : Directory.t) : Prop := d = example_directory.

Definition start (tls : bool) : Conn :=
  open_connection example_config example_directory 3 tls true (Some (V4 7)) None.

Definition world : World :=
  mkWorld ∅ (MemoryBudget.with_client_share (MemoryBudget.with_cap 100) 60) [] [].

Definition run (cw : Conn * World) (line : list Z) : Conn * World * option AcceptedMessage :=
  on_line example_env (λ _, true) example_directory None [] cw.1 cw.2 line.

Fixpoint runs (cw : Conn * World) (lines : list (list Z)) : Conn * World :=
  match lines with
  | [] => cw
  | line :: lines => runs (run cw line).1 lines
  end.

Fixpoint open_runs (cw : Conn * World) (lines : list (list Z)) : bool :=
  negb (closed cw.1) &&
  match lines with
  | [] => true
  | line :: lines => open_runs (run cw line).1 lines
  end.

Definition legalb (line : list Z) : bool :=
  forallb clean_byte line && (length line <=? MAX_LINE_LENGTH)%nat.

Lemma legalb_legal line : legalb line = true → legal MAX_LINE_LENGTH line.
Proof.
  unfold legalb. intros [Hc Hl]%andb_true_iff. split; [|by apply Nat.leb_le].
  apply Forall_forall. rewrite forallb_forall in Hc. intros b Hb. by apply Hc, list_elem_of_In.
Qed.

Lemma legalb_all lines : forallb legalb lines = true → Forall (legal MAX_LINE_LENGTH) lines.
Proof.
  induction lines as [|l lines IH]; [constructor|]. simpl. intros [Hl Hls]%andb_true_iff.
  constructor; [by apply legalb_legal|by apply IH].
Qed.

Lemma runs_reachable lines : ∀ cw,
  open_runs cw lines = true → forallb legalb lines = true →
  rtc (conn_step published) cw (runs cw lines).
Proof.
  induction lines as [|line lines IH]; intros cw; simpl; [intros; apply rtc_refl|].
  intros [Hop Hrest]%andb_true_iff [Hleg Hlegs]%andb_true_iff. eapply rtc_l; [|by apply IH].
  destruct cw as [c w]. unfold run. cbn [fst snd].
  destruct (on_line _ _ _ _ _ _ _ _) as [[c' w'] m] eqn:E. cbn [fst].
  eapply line_step; [done|by apply legalb_legal| |exact E]. by apply negb_true_iff.
Qed.

Lemma start_reachable tls lines :
  open_runs (start tls, world) lines = true → forallb legalb lines = true →
  reachable published example_config (runs (start tls, world) lines).1 (runs (start tls, world) lines).2.
Proof.
  intros Hop Hleg. exists example_directory, 3, tls, true, (Some (V4 7)), None, world. split; [done|].
  pose proof (runs_reachable lines (start tls, world) Hop Hleg) as Hr. by destruct (runs _ _).
Qed.

(** The same run, as steps of a server with this one connection. *)
Lemma server_runs lines : ∀ c w,
  open_runs (c, w) lines = true →
  rtc server_step ([c], w) ([(runs (c, w) lines).1], (runs (c, w) lines).2).
Proof.
  induction lines as [|line lines IH]; intros c w; [intros; apply rtc_refl|].
  cbn [open_runs runs]. intros [Hop Hrest]%andb_true_iff.
  destruct (run (c, w) line) as [[c' w'] m] eqn:E. cbn [fst] in *. eapply rtc_l; [|by apply IH].
  eapply (client_step [] c []); [by apply negb_true_iff|exact E].
Qed.

(** An inbound message, up to the line that ends it. *)
Definition inbound : list (list Z) :=
  [lit "EHLO client.example"; lit "MAIL FROM:<alice@remote.example>";
   lit "RCPT TO:<Bob@example.org>"; lit "RCPT TO:<team@example.org>"; lit "DATA";
   lit "Subject: hello"; []; lit "..dot"].

Definition submission : list (list Z) :=
  [lit "EHLO client.example"; lit "AUTH PLAIN AGJvYgBzZWNyZXQ=";
   lit "MAIL FROM:<bob@example.org>"; lit "RCPT TO:<alice@remote.example>"; lit "DATA";
   lit "From: bob@example.org"].

Definition inbound_message : AcceptedMessage :=
  mkMessage (lit "alice@remote.example") [lit "Bob@example.org"; lit "team@example.org"]
    (wire [lit "Subject: hello"; []; lit ".dot"]) false None false false [].

Definition step_at (c : Conn) (w : World) (line : list Z) : Conn * World * option AcceptedMessage :=
  on_line example_env (λ _, true) example_directory None [] c w line.

(** The last line of a run, with its results named. *)
Lemma step_named c w line m account :
  (step_at c w line).2 = m → authenticated (session (step_at c w line).1.1) = account →
  ∃ c' w', on_line example_env (λ _, true) example_directory None [] c w line = (c', w', m) ∧
    authenticated (session c') = account.
Proof.
  unfold step_at. destruct (on_line _ _ _ _ _ _ _ _) as [[c' w'] m']. cbn [fst snd].
  intros -> Ha. by exists c', w'.
Qed.

Definition inbound_conn : Conn := (runs (start false, world) inbound).1.
Definition inbound_world : World := (runs (start false, world) inbound).2.
Definition submission_conn : Conn := (runs (start true, world) submission).1.
Definition submission_world : World := (runs (start true, world) submission).2.

Lemma inbound_reachable : reachable published example_config inbound_conn inbound_world.
Proof. apply start_reachable; vm_compute; reflexivity. Qed.

Lemma inbound_open : closed inbound_conn = false.
Proof. vm_compute. reflexivity. Qed.

Lemma inbound_delivered :
  ∃ c w, on_line example_env (λ _, true) example_directory None [] inbound_conn inbound_world [DOT] =
      (c, w, Some inbound_message) ∧ authenticated (session c) = None.
Proof. apply step_named; vm_compute; reflexivity. Qed.

Lemma submission_reachable : reachable published example_config submission_conn submission_world.
Proof. apply start_reachable; vm_compute; reflexivity. Qed.

Lemma submission_open : closed submission_conn = false.
Proof. vm_compute. reflexivity. Qed.

Definition submitted_message : AcceptedMessage :=
  mkMessage (lit "bob@example.org") [lit "alice@remote.example"]
    (wire [lit "From: bob@example.org"]) false None false false [].

Lemma submission_delivered :
  ∃ c w, on_line example_env (λ _, true) example_directory None [] submission_conn submission_world [DOT] =
      (c, w, Some submitted_message) ∧ authenticated (session c) = Some (lit "bob").
Proof. apply step_named; vm_compute; reflexivity. Qed.

Lemma submission_login : authenticated (session submission_conn) = Some (lit "bob").
Proof. vm_compute. reflexivity. Qed.

Lemma dot_legal : legal MAX_LINE_LENGTH [DOT].
Proof. apply legalb_legal. vm_compute. reflexivity. Qed.

#[local] Opaque inbound_conn inbound_world submission_conn submission_world example_directory.

Lemma no_open_relay_witness :
  ∃ a, lit "team@example.org" = display_address a ∧
    ((∃ account, Directory.resolve example_directory a = Account account) ∨
     (∃ accounts, Directory.resolve example_directory a = Alias accounts)).
Proof.
  destruct inbound_delivered as (c & w & Hl & Ha).
  destruct (no_open_relay published example_config inbound_conn inbound_world
    example_env (λ _, true) example_directory None [] [DOT] c w inbound_message (lit "team@example.org")
    inbound_reachable inbound_open eq_refl dot_legal Hl Ha) as (a & d & Hr & Hd & Hres).
  - right. left.
  - exists a. rewrite Hd in Hres. split; [exact Hr|exact Hres].
Defined.

Lemma submission_sender_owned_witness :
  ∃ a, parse_address (lit "bob@example.org") = Ok a ∧
    Directory.owns_address example_directory (lit "bob") a = true.
Proof.
  destruct submission_delivered as (c & w & Hl & Ha).
  destruct (submission_sender_owned published example_config submission_conn submission_world
    example_env (λ _, true) example_directory None [] [DOT] c w submitted_message (lit "bob")
    submission_reachable submission_open eq_refl dot_legal Hl Ha) as (_ & (a & d & Hp & Hd & Ho) & _).
  exists a. rewrite Hd in Ho. split; [exact Hp|exact Ho].
Defined.

Lemma delivered_within_limits_witness :
  Z.of_nat (length (msg_recipients inbound_message)) ≤ 5 ∧
  Z.of_nat (length (msg_data inbound_message)) ≤ 1000.
Proof.
  destruct inbound_delivered as (c & w & Hl & Ha).
  destruct (delivered_within_limits published example_config inbound_conn inbound_world
    example_env (λ _, true) example_directory None [] [DOT] c w inbound_message
    ltac:(vm_compute; discriminate) ltac:(vm_compute; discriminate)
    inbound_reachable inbound_open eq_refl dot_legal Hl) as ([_ Hr] & Hd & _).
  split; [exact Hr|exact Hd].
Defined.


Lemma delivered_well_framed_witness : well_framed true MAX_LINE_LENGTH 0 (msg_data inbound_message).
Proof.
  destruct inbound_delivered as (c & w & Hl & Ha).
  exact (delivered_well_framed published example_config inbound_conn inbound_world
    example_env (λ _, true) example_directory None [] [DOT] c w inbound_message
    inbound_reachable inbound_open eq_refl dot_legal Hl).
Defined.


(** Three junk commands are answered, under a limit of three. *)
Definition noop : Input :=
  mkInput example_env (λ _, true) example_directory None [] (λ w, w) (lit "NOOP").


(** The greeted session over TLS, and the line that logs it in. *)
Definition greeted_conn : Conn := (runs (start true, world) [lit "EHLO client.example"]).1.
Definition greeted_world : World := (runs (start true, world) [lit "EHLO client.example"]).2.
Definition auth_plain : list Z := lit "AUTH PLAIN AGJvYgBzZWNyZXQ=".

Lemma greeted_reachable : reachable published example_config greeted_conn greeted_world.
Proof. apply start_reachable; vm_compute; reflexivity. Qed.

#[local] Opaque greeted_conn greeted_world.


(** A session that has just answered 354, and a body that begins with a dot. *)
Definition body_lines : list (list Z) := [lit ".hidden"; []; lit "text"].
Definition open_transaction : Transaction :=
  mkTransaction (lit "alice@remote.example") [lit "bob@example.org"] [] 0 [] false false
    LineCheck.stored MemoryBudget.none false.
Definition plain_config : Config :=
  mkConfig (lit "mx.example.org") 1000 5 false None None None None None false false None false
    Submission false false.
Definition body_session : Session :=
  set_state (new_session plain_config example_directory) (ReceivingData open_transaction).

