(* ===== verification/MailFlow.v ===== *)
(** From the line that ends a message to the mailboxes: the session of
    SmtpConnection and the sink of Routing put together. *)

From stdpp Require Import gmap.
From S2P Require Import Prelude RustStd Utf8 Address Directory LineFraming SmtpReply SmtpSession SmtpConnection SmtpSessionTheory.
From S2P Require Import Srs Bounce LocalDelivery Routing SmtpScenario.

Local Open Scope Z_scope.

Section flow.
Context `{UC : Unicode} `{UL : !UnicodeLaws} `{MO : MapOrder} `{ST : ScramTypes} {S O : Type} `{MS : MailStore S}
  `{ML : !MailStoreLaws S} `{CO : Composer} `{SP : Spool O} `{SL : !SpoolLaws O} `{SK : SrsKey} `{SG : Signing}.

(** The address a session hands on reads as the address it took. *)
Lemma displayed_address raw a b :
  parse_address raw = Ok a → encoded_labels (domain a) = false → parse_address (display_address a) = Ok b → b = a.
Proof.
  intros Ha He Hb. pose proof (display_split raw a Ha) as Hs. apply parse_address_spec in Ha as (_ & _ & Hd & _).
  unfold parse_address in Hb. destruct (_ <? _)%nat; [done|]. rewrite Hs in Hb. cbn [ok_or result_bind fst snd] in Hb.
  destruct (validate_local_part _); [|done]. cbn [result_bind] in Hb. rewrite normalize_name_fixed in Hb by done.
  injection Hb as <-. by destruct a.
Qed.


End flow.

(** ** Witnesses *)

Lemma domain_after_at (l d s1 s2 : list Z) : l ++ AT :: d = s1 ++ AT :: s2 → AT ∉ s1 → AT ∉ s2 → d = s2.
Proof.
  revert s1. induction l as [|x l IH]; intros [|y s1] Heq H1 H2; cbn in Heq; simplify_eq.
  - done.
  - by destruct H1; left.
  - exfalso. apply H2, elem_of_app. right. left.
  - apply (IH s1); [done| |done]. intros Hin. apply H1. by right.
Qed.

#[local] Instance unit_scram : ScramTypes := {| ScramServer := unit; ScramCredentials := unit |}.

Lemma inbound_plain a :
  display_address a ∈ [lit "Bob@example.org"; lit "team@example.org"] → encoded_labels (domain a) = false.
Proof.
  assert (Hnot : AT ∉ lit "Bob" ∧ AT ∉ lit "team" ∧ AT ∉ lit "example.org") by (split_and!; apply (bool_decide_unpack _); by vm_compute).
  destruct Hnot as (H1 & H2 & H3). unfold display_address. rewrite !elem_of_cons, elem_of_nil. intros [Ha|[Ha|[]]].
  - by rewrite (domain_after_at _ _ (lit "Bob") (lit "example.org") Ha H1 H3).
  - by rewrite (domain_after_at _ _ (lit "team") (lit "example.org") Ha H2 H3).
Qed.

Definition example_flow : option (result SinkError unit * (Memory * list AcceptedMessage)) :=
  example_deliver redirect_script inbound_message.


(** A session that waits for the recipients of a bounce. *)
Definition bounce_conn : Conn * World := runs (start false, world) [lit "EHLO client.example"; lit "MAIL FROM:<>"].

Definition rewritten : list Z :=
  @forward_sender example_key example_sink example_moment (lit "carol@example.net").

Lemma srs_bounce_refused_witness :
  @srs_return example_key example_sink example_moment rewritten = Some (Some (lit "carol@example.net")) ∧
  ∃ reply, @SmtpSession.rcpt_to ascii_unicode map_order unit_scram example_env (session bounce_conn.1) bounce_conn.2 rewritten None =
    (session bounce_conn.1, bounce_conn.2, Continue reply) ∧ code reply = 550.
Proof.
  set (a := mkAddress (@srs_local example_key (lit "carol") (lit "example.net") 20000) (lit "mx.example.org")).
  assert (Hp : @parse_address ascii_unicode rewritten = Ok a) by (vm_compute; reflexivity).
  assert (Hd : display_address a = rewritten) by (vm_compute; reflexivity).
  assert (Hres : is_local (@Directory.resolve ascii_unicode (directory (session bounce_conn.1)) a) = false) by (vm_compute; reflexivity).
  destruct (@srs_bounce_refused ascii_unicode map_order example_key example_key_laws unit_scram example_env (session bounce_conn.1)
    bounce_conn.2 example_sink example_moment example_moment (lit "mx.example.org") (lit "carol@example.net")
    (mkAddress (lit "carol") (lit "example.net")) a None) as [H1 H2].
  - eexists _, _. vm_compute. reflexivity.
  - vm_compute. reflexivity.
  - reflexivity.
  - vm_compute. reflexivity.
  - exact Hp.
  - reflexivity.
  - exact Hres.
  - vm_compute. split; discriminate.
  - vm_compute. discriminate.
  - rewrite Hd in H1. exact (conj H1 H2).
Defined.
